(* ===== verification/_CoqProject ===== *)
-Q . S2P
Prelude.v
OrdMap.v
RustStd.v
Utf16.v
Errors.v
Json.v
AgentHooks.v
Concrete.v
Constants.v
Stream.v
StreamSafety.v
Paths.v
PathsFacts.v
PolicyInput.v
Limits.v
Hex.v
Pins.v
Policy.v
PolicyFacts.v
StdPath.v
Manifest.v
Deserialize.v
Samples.v
DispatchFacts.v
ManifestFacts.v
PolicyOutput.v
PolicyOutputFacts.v
Float64.v
Cedar.v
CedarFacts.v
CedarBuiltin.v
CedarBuiltinFacts.v
Workers.v
WorkersSafety.v
Rego.v
RegoLoad.v
RegoFacts.v
Binding.v
ManifestMerge.v
Loader.v
Http.v
Calendar.v
SigV4.v
Llm.v
Classifier.v
Annotators.v
ClassifierFacts.v
DispatcherFacts.v
MergeFacts.v
LoaderFacts.v
LoaderSound.v
DispatcherSafety.v
Opa.v
OpaFacts.v
CodingAgent.v
Yaml.v
YamlFacts.v
Telemetry.v
Runtime.v
RuntimeWorld.v
RuntimeFacts.v
RuntimeRefines.v
RuntimeSafety.v
RuntimeSound.v
Wire.v
Activation.v
ActivationFacts.v
Interceptor.v
Deployment.v
DeploymentFacts.v
Ffi.v
Node.v
Python.v
PythonFacts.v
FfiFacts.v
FfiSafety.v
FfiSessions.v
PythonSafety.v
NodeFacts.v
NodeSafety.v
