(* ===== verification/Prelude.v ===== *)
(** * A verification library for the Agent Control Specification engine

    The engine (the Rust crate [src/engine]) decides what an AI agent may
    do. A host hands it a snapshot of the agent's context at one of eight
    interception points; the engine projects the snapshot to a policy
    input, runs the annotators the manifest binds to the point, hands the
    input to a policy engine, and turns the output into a verdict: allow,
    deny or rewrite. A second part accounts for streamed text: which code
    points every configured check has cleared, and so may be released.
    The manifest that configures all this may be composed from several
    documents, some of them fetched from a URL and not to be trusted with
    the host's secrets and files. Around this core the crate bundles what
    a host would otherwise supply: a loader of manifests, evaluators for
    Cedar and Rego policies, and annotators that call model and moderation
    services.

    ** Parts, files and sources (paths under [src/engine/src])

    The base:
    - [Prelude], [OrdMap], [RustStd], [Json], [Float64] and
      [StdPath]: the [Result] monad and its loops; [BTreeMap] and
      [BTreeSet] as sorted association lists, because iteration order
      decides errors, dispatch order and canonical bytes; the string,
      integer, slice and path operations of [std] the engine uses;
      [serde_json::Value]; [f64] arithmetic and formatting.
    - [AgentHooks]: the third-party crates as classes of operations
      ([AgentHooks], [UrlCrate], [SerdeJson], [Sha2]) with their documented
      behaviour in [AgentHooksLaws] and [Sha2Laws]. [Concrete] has
      executable instances, used only by the witnesses.

    The core:
    - [Errors] (error.rs), [Constants] (constants.rs), [Paths] and
      [PathsFacts] (paths.rs), [PolicyInput] (policy_input.rs, point_ext.rs),
      [Limits] (limits.rs), [Telemetry] (telemetry.rs, perf_telemetry.rs),
      [Wire] (wire.rs): one file per module of the source.
    - [Hex], [Pins] (hex.rs and the pin rules of manifest.rs), [Policy] and
      [PolicyFacts] (policy.rs), [Manifest] (manifest.rs, annotation.rs,
      tool_projection.rs) with [DispatchFacts] and [ManifestFacts],
      [ManifestMerge] and [MergeFacts] (the composition of manifest.rs).
    - [Loader], [LoaderFacts], [LoaderSound] (manifest.rs): the recursive
      loader of [extends] chains and the fetch of pinned artifacts.
    - [Yaml] and [YamlFacts] (manifest.rs): the rewriting of scalars before
      the YAML deserializer, its budgets and errors, and the constructors
      from text.
    - [Deserialize] (manifest_deserializer.rs and the hand-written
      [Deserialize] implementations of manifest.rs and policy.rs): serde's
      data model as the calls a visitor receives, the [Strict] adapter,
      and what each implementation accepts.
    - [PolicyOutput] and [PolicyOutputFacts] (policy_output.rs): from a
      policy's JSON to a verdict, and from a failure to a denial.
    - [Runtime] (runtime.rs) with [RuntimeFacts], [RuntimeSafety],
      [RuntimeSound] and [RuntimeWorld] (what a host sees, and two hosts in
      step): construction and evaluation. [RuntimeRefines] states the
      decision without telemetry, clock or trace and relates the two.
    - [Activation] and [ActivationFacts] (activation.rs); [Interceptor]
      (interceptor.rs): the inline call, and the worker path as steps of
      the task, the emitter that polls or drops its future, and the
      shutdown of the async runtime.
    - [Deployment] and [DeploymentFacts]: a runtime over the bundled
      annotators and the binding dispatcher, serving operations in
      sequence while threads and the world around it interfere.
    - [Stream] and [StreamSafety] (stream_session.rs).
    - [Samples]: a small manifest the witnesses share.

    The bundled evaluators and dispatchers:
    - [Cedar] and [CedarFacts] (cedar.rs, the request mapping and advice),
      [CedarBuiltin] and [CedarBuiltinFacts] ([mod builtin] of cedar.rs).
    - [Workers] and [WorkersSafety] (the worker pool of rego.rs), [Rego],
      [RegoLoad] and [RegoFacts] (the rest of rego.rs), [Opa] and
      [OpaFacts] (opa.rs), [Binding] (dispatchers/binding.rs).
    - [Http] (dispatchers/http.rs, host_env.rs, resolve.rs, endpoint.rs,
      constants.rs), [Llm] (llm.rs), [Calendar] and [SigV4] (the AWS signing of llm.rs), [Classifier] and [ClassifierFacts]
      (bundled.rs, the six providers under bundled/, classifier.rs,
      default.rs), [Annotators] (the public annotators of mod.rs,
      classifier.rs and llm.rs, and the stub transport of bundled.rs),
      [DispatcherFacts] and [DispatcherSafety].

    The C ABI:
    - [Ffi] (src/sdk/ffi/src/lib.rs): every entry point; [FfiFacts]: the
      rules its memory obeys; [FfiSafety]: calls, their contract, types,
      errors and handles; [FfiSessions]: sessions behind handles.

    The Python binding:
    - [Python] (src/sdk/python/src/lib.rs): every function of the module;
      [PythonFacts]: values across the boundary; [PythonSafety]: the
      interpreter's lock, the host's exceptions, the authoring check.

    The Node binding:
    - [Utf16] and [Node] (src/sdk/node/native/src/lib.rs): every function
      of the module; [NodeFacts]: strings and host functions;
      [NodeSafety]: threads, waiting and promises.

    An example:
    - [CodingAgent] (examples/coding_agent/app/src/main.rs): its
      annotators, secret scan and tools.

    ** How state and effects correspond to the code

    A pure function of the source is a Rocq function with the same name and
    the same order of checks; [Result] is [result], [?] is the monad's bind
    and a [for] loop with early return is [for_each] or [fold_result]. A
    method on [&mut self] takes the state and returns it with the result,
    the state it leaves on its error paths included ([Stream]).
    An evaluation talks to a host: dispatchers, the telemetry sink and the
    clock. The host is an arbitrary state [W] threaded through the class
    [Host]; every call and event is appended, with its outcome, to the
    trace of a [Run], and a panic of a dispatcher is an outcome. So a
    theorem about [evaluate_point] speaks about every host and about
    everything the host saw. The loader ([LoaderHost], [loading]), the
    dispatchers ([DispatchHost], [sending]) and the opa runner ([OpaHost],
    [running]) do the same with the calls they make.
    A state shared by clones under a lock is a value, and a function that
    takes the lock more than once takes what each lock finds, so that
    other threads may act in between ([CedarBuiltin], [Rego]); its
    reachable values are an inductive predicate. The worker pool is a
    transition system whose steps are the atomic operations of the code,
    in any interleaving ([Workers]).
    The C ABI runs on a heap of typed cells shared with its caller. An
    access its safety contract forbids sets the flag [undefined], an
    allocation is a fresh cell, and a panic is the outcome [Unwinds] until
    [catch_unwind] catches it; which calls of the engine panic is a
    parameter ([Unwinding]). Its calls are the type [FfiCall], what the
    caller owes is [abi_contract].
    The Python binding runs on the interpreter's objects: a heap of values
    that refer to each other, the lock (the GIL) and how a computation
    ends, by a value, an exception, a panic or the end of the process. The
    host's Python code ([PyCode]) may change any object; ghost flags record
    an object touched without the lock and engine work done under it.
    The Node binding reaches the host's functions from two kinds of
    thread: on JavaScript's by a call, elsewhere by a posted call whose
    answer the thread waits for; [Delivery] is what became of it. A
    function of the host's need not return ([NeverReturns]): then neither
    does what called it, and [Endless] says which function it is and
    whether the thread runs it or waits for it. The promises of
    [intercept_async] and their threads are a transition system.
    Integers that can wrap are [N] with the wrap or the check written out
    ([checked_add_u32], [usize_pred], [fetch_add_1]).

    ** What the theorems show

    - The runtime is fail closed: every verdict is a reserved denial or the
      normalization of what the policy returned ([RuntimeSafety]); the
      dispatch order is the greedy topological order of the declared needs
      and exists unless they are cyclic ([DispatchFacts]); the whole
      pipeline decides what the specification without telemetry decides,
      for every host that answers as its dispatchers do
      ([RuntimeRefines]); annotators run
      in it, stop at the first failure, and see exactly the outputs they
      declared; the policy sees exactly the outputs collected; and a
      constructed runtime never denies because its manifest was wrong
      ([RuntimeSound]).
    - The stream session releases only what was evaluated: safety and
      bounds of the watermarks over every reachable state, exactness of an
      advance, finality of the terminal reason ([StreamSafety], by
      invariants of a transition relation).
    - A load reads and fetches only what it may, ends, and yields a manifest
      that says exactly what the tree of its documents says, with the right
      provenance: each document is named by an entry of the one above it
      and its bytes are an answer in the load's trace, with the pins the
      entry asks for ([LoaderFacts], [LoaderSound]). A composed manifest keeps
      every definition and the host's ownership ([MergeFacts]); a fetched
      document cannot name host files, secrets or unpinned remote code, nor
      redirect a host annotator ([ManifestFacts]); pins accept the pinned
      bytes only ([Pins]).
    - Normalization, evidence degradation and runtime errors stay within
      the verdict contract ([PolicyOutputFacts]); paths parse exactly a
      grammar and resolve as a lens ([PathsFacts]); the limits are the
      limits ([Limits]); the wire shapes round trip ([Wire]); activation
      warms each bound point once ([ActivationFacts]); the worker path of
      the interceptor runs an evaluation at most once and answers as the
      inline one, unless the async runtime shut down before the evaluation
      began ([Interceptor]).
    - Composed, the bundled parts keep their promises: every verdict a
      deployed host serves is the one a fresh compilation of its policies
      gives, whatever other threads do to its caches, as long as the
      policy files stay, digests do not collide and no data path is
      spelled in two ways; and what it answers for fetched policies depends
      on the environment in the two settings of the Rego engine alone,
      which are read when the dispatcher is constructed
      ([DeploymentFacts]).
    - A Cedar request exists exactly when the input translates and forges
      nothing; a float becomes its nearest decimal, the double rounding of
      the code apart ([CedarFacts], over the correctness of the product's
      rounding in [Float64]); the Cedar and Rego dispatchers answer only
      with what an error-free evaluation of their own says, and their
      caches are bounded and change no answer ([CedarBuiltinFacts],
      [RegoFacts]); a Rego bundle loads exactly the documents below it, in
      path order, into an engine whose network and nondeterministic
      builtins were shadowed first ([RegoLoad]).
    - The worker pool hands every run its own outcome, counts its abandoned
      threads, bounds its threads and comes to rest ([WorkersSafety]); the
      opa runner's wait ends and its staged bundle is removed ([OpaFacts]).
    - A bundled annotator of a URL-sourced manifest never reads the
      environment, sends one POST at most, an [llm] one perhaps after a
      GET for its pinned prompt, and a signed request is signed as it is
      sent ([DispatcherFacts], [DispatcherSafety],
      [SigV4]); the signing date is the calendar's ([Calendar]); a
      classifier's verdict is what its scores say ([ClassifierFacts]).

    - The rewriting of YAML scalars changes only what must not be read as
      YAML reads it, a block from its indicator on, and refusals blame the right party ([YamlFacts]); the
      strict adapter decodes the same whatever the typed methods of the
      deserializer below it would coerce ([Deserialize]).
    - Called as documented the C ABI is memory safe and lets no panic
      through, reports errors exactly when a call fails, and keeps its
      handles what their constructors made ([FfiSafety]); a session's
      calls are the operations of the session, so the release guarantee
      is the ABI's ([FfiSessions]).
    - Values cross the Python boundary and come back unchanged, what has no
      JSON is refused ([PythonFacts]); no object is used without the lock,
      no work is done under it but by the two functions that validate a
      file and artifacts, and what the host's code raises becomes an
      error of the engine ([PythonSafety]).
    - JavaScript's thread never waits for itself, and only a function of
      the host's that it runs can keep it; a promise of an evaluation is
      pending exactly while its thread runs, and is settled once, with what
      that evaluation came to, its panic included ([NodeSafety]).
    - The example's scan reports a text exactly when a marker is in it
      ([CodingAgent]).

    ** Bounds and fuel

    [dispatch_loop] has the number of annotations as fuel: each turn orders
    a fresh name, and [loop_end] proves the queue is empty when it ends.
    [prefix_search] (the binary search of evidence degradation) has the
    width of its interval as fuel, which every turn shrinks. The path
    parser's [parse_segments] has the length of the text, of which every
    segment consumes a byte. The loader has a level of fuel per level of
    [max_extends_depth], and [load_terminates] proves that
    more changes nothing; [walk_terminates] proves the same of
    [WALK_FUEL], the depth limit of a Rego bundle and two more. The wait
    for opa has a poll per ten milliseconds of the timeout and two more
    ([opa_wait_ends], for a clock that does not go back). [classify] has
    fuel two: the provider named, and the one [auto] resolves to.
    [marker_spans] has the bytes of the text and one more, since a marker
    never starts a token of no length ([marker_spans_cover]).
    [py_to_json] has the frames of the native stack as fuel, because the
    code has no other bound: [py_to_json_exact] proves that some stack is
    enough for an object of finite height and that more changes nothing,
    [cyclic_result_crashes] that none is for a list containing itself.
    All other recursion is structural.

    ** Not modelled, and why

    Third-party crates ([cedar-policy], [regorus], [url], [serde_json],
    [sha2], the YAML parser and its deserializer, the HTTP client, the
    async runtime, napi, PyO3), the deserializers serde derives and the
    tables of Unicode are class parameters, with what the code relies on
    as laws. A callback of the C ABI is assumed to keep off the engine's
    memory ([HostCodeLaws]): one that calls the ABI again on the handle
    being used is not modelled. Python code that calls the module again
    does so through [PyCode], as any change of the objects; it is assumed
    to give the lock back and to call nothing that stalls the interpreter
    ([PyCodeLaws]). A file system
    seen by one load is a fixed function ([Disk], [Files]): a load that
    races with an edit of its own files is not modelled.
    The flows of the coding agent and the two other sample hosts drive the
    crate agent_control_specification, whose source is not in the
    repository; engine/examples/benchmark.rs measures time; lib.rs
    re-exports; artifact_tests.rs and tests/ are tests. Of the modelled
    files there remain accessors that return a field, [Debug] and
    [Default] implementations, and [use] declarations. *)

From stdpp Require Export base decidable option list strings gmap.
From Stdlib Require Export Lia.

(** ** Fallible computations

    [result E A] is Rust's [Result<A, E>]; the parameters are swapped so
    that [result E] is a functor and the bind notation of stdpp applies:
    [x ← e; k] reads as [let x = e?; k]. *)

Inductive result (E A : Type) : Type :=
  | Ok (a : A)
  | Err (e : E).
Arguments Ok {E A} a.
Arguments Err {E A} e.

#[export] Instance result_ret {E} : MRet (result E) := λ A x, Ok x.
#[export] Instance result_bind {E} : MBind (result E) :=
  λ A B f m, match m with Ok a => f a | Err e => Err e end.
#[export] Instance result_fmap {E} : FMap (result E) :=
  λ A B f m, match m with Ok a => Ok (f a) | Err e => Err e end.
#[export] Instance result_eq_dec {E A} `{EqDecision E, EqDecision A} :
  EqDecision (result E A).
Proof. solve_decision. Defined.

(** [Result::map_err]. *)
Definition map_err {E F A} (f : E → F) (m : result E A) : result F A :=
  match m with Ok a => Ok a | Err e => Err (f e) end.

(** [Option::ok_or_else]. *)
Definition ok_or {E A} (o : option A) (e : E) : result E A :=
  match o with Some a => Ok a | None => Err e end.

(** [Result::is_ok]. *)
Definition is_ok {E A} (m : result E A) : bool :=
  match m with Ok _ => true | Err _ => false end.

(** A [for] loop whose body may return early with [?]. *)
Fixpoint for_each {E A} (f : A → result E ()) (l : list A) : result E () :=
  match l with
  | [] => Ok ()
  | x :: l => f x ;; for_each f l
  end.

(** [iter().map(f).collect::<Result<Vec<_>, _>>()]: left to right, the
    first error wins. *)
Fixpoint map_result {E A B} (f : A → result E B) (l : list A) : result E (list B) :=
  match l with
  | [] => Ok []
  | x :: l => y ← f x; ys ← map_result f l; Ok (y :: ys)
  end.

(** A loop threading an accumulator, with early return. *)
Fixpoint fold_result {E A B} (f : B → A → result E B) (acc : B) (l : list A) : result E B :=
  match l with
  | [] => Ok acc
  | x :: l => acc' ← f acc x; fold_result f acc' l
  end.

(** ** Tactics *)

(** Splits every hypothesis [mbind k m = Ok _] into the [Ok] step of [m]
    and the rest, discharging the error branches. *)
Ltac inv_ok :=
  repeat match goal with
  | H : Ok _ = Ok _ |- _ => injection H as H; try subst
  | H : Err _ = Err _ |- _ => injection H as H; try subst
  | H : Err _ = Ok _ |- _ => discriminate H
  | H : Ok _ = Err _ |- _ => discriminate H
  | H : mbind ?k ?m = Ok _ |- _ =>
      let E := fresh "Hok" in
      destruct m eqn:E; cbn [mbind result_bind] in H; [|discriminate H]
  | H : map_err _ ?m = Ok _ |- _ =>
      let E := fresh "Hok" in
      destruct m eqn:E; cbn [map_err] in H; [|discriminate H]
  | H : ok_or ?o _ = Ok _ |- _ =>
      let E := fresh "Hok" in
      destruct o eqn:E; cbn [ok_or] in H; [|discriminate H]
  | H : (if ?b then Err _ else _) = Ok _ |- _ =>
      let E := fresh "Hif" in destruct b eqn:E; [discriminate H|]
  | H : (if ?b then _ else Err _) = Ok _ |- _ =>
      let E := fresh "Hif" in destruct b eqn:E; [|discriminate H]
  end.

(** Turns boolean comparisons in the context into arithmetic facts. *)
Ltac b2p :=
  repeat match goal with
  | H : (_ && _)%bool = true |- _ => apply andb_true_iff in H; destruct H
  | H : (_ || _)%bool = false |- _ => apply orb_false_iff in H; destruct H
  | H : negb _ = true |- _ => apply negb_true_iff in H
  | H : negb _ = false |- _ => apply negb_false_iff in H
  | H : (_ <? _)%N = true |- _ => apply N.ltb_lt in H
  | H : (_ <? _)%N = false |- _ => apply N.ltb_ge in H
  | H : (_ <=? _)%N = true |- _ => apply N.leb_le in H
  | H : (_ <=? _)%N = false |- _ => apply N.leb_gt in H
  | H : (_ =? _)%N = true |- _ => apply N.eqb_eq in H
  | H : (_ =? _)%N = false |- _ => apply N.eqb_neq in H
  | H : (_ <? _)%nat = true |- _ => apply Nat.ltb_lt in H
  | H : (_ <? _)%nat = false |- _ => apply Nat.ltb_ge in H
  | H : (_ <=? _)%nat = true |- _ => apply Nat.leb_le in H
  | H : (_ <=? _)%nat = false |- _ => apply Nat.leb_gt in H
  | H : (_ =? _)%nat = true |- _ => apply Nat.eqb_eq in H
  | H : (_ =? _)%nat = false |- _ => apply Nat.eqb_neq in H
  | H : bool_decide _ = true |- _ => apply bool_decide_eq_true in H
  | H : bool_decide _ = false |- _ => apply bool_decide_eq_false in H
  | H : String.eqb _ _ = true |- _ => apply String.eqb_eq in H
  | H : String.eqb _ _ = false |- _ => apply String.eqb_neq in H
  end.

(** ** Generic lemmas *)

Section results.
Context {E : Type}.

Lemma bind_Ok {A B} (f : A → result E B) (m : result E A) b :
  mbind f m = Ok b ↔ ∃ a, m = Ok a ∧ f a = Ok b.
Proof. destruct m; cbn; naive_solver. Qed.

Lemma bind_Err {A B} (f : A → result E B) (m : result E A) e :
  mbind f m = Err e ↔ m = Err e ∨ ∃ a, m = Ok a ∧ f a = Err e.
Proof. destruct m; cbn; naive_solver. Qed.

Lemma ok_or_Ok {A} (o : option A) (e : E) a : ok_or o e = Ok a ↔ o = Some a.
Proof. destruct o; cbn; naive_solver. Qed.

Lemma for_each_Ok {A} (f : A → result E ()) l :
  for_each f l = Ok () ↔ Forall (λ x, f x = Ok ()) l.
Proof.
  induction l as [|x l IH]; cbn; [done|].
  rewrite Forall_cons, <- IH. destruct (f x) as [[]|]; cbn; naive_solver.
Qed.

Lemma for_each_Err {A} (f : A → result E ()) l e :
  for_each f l = Err e ↔
  ∃ l1 x l2, l = l1 ++ x :: l2 ∧ Forall (λ y, f y = Ok ()) l1 ∧ f x = Err e.
Proof.
  induction l as [|x l IH]; cbn.
  - split; [done|]. intros (l1 & x & l2 & H & _). by destruct l1.
  - destruct (f x) as [[]|e'] eqn:Hx; cbn.
    + rewrite IH. split.
      * intros (l1 & y & l2 & -> & ? & ?). exists (x :: l1), y, l2. eauto.
      * intros (l1 & y & l2 & H & Hl & Hy).
        destruct l1 as [|z l1]; simplify_eq/=; [congruence|].
        apply Forall_cons in Hl as [_ Hl]. eauto 10.
    + split.
      * intros [= ->]. exists [], x, l. eauto.
      * intros (l1 & y & l2 & H & Hl & Hy).
        destruct l1 as [|z l1]; simplify_eq/=; [congruence|].
        apply Forall_cons in Hl as [? _]. congruence.
Qed.

Lemma map_result_Ok {A B} (f : A → result E B) l k :
  map_result f l = Ok k ↔ Forall2 (λ x y, f x = Ok y) l k.
Proof.
  revert k. induction l as [|x l IH]; intros k; cbn.
  - split; [intros; inv_ok; constructor | by inversion 1].
  - split.
    + intros H. inv_ok. constructor; [done|]. by apply IH.
    + inversion 1 as [|? y ? k' Hy Hk]; subst.
      apply IH in Hk. rewrite Hy. cbn. by rewrite Hk.
Qed.

Lemma map_result_fmap {A B} (f : A → result E B) (g : B → A) (l : list B) :
  (∀ y, y ∈ l → f (g y) = Ok y) → map_result f (g <$> l) = Ok l.
Proof.
  intros H. apply map_result_Ok, Forall2_fmap_l.
  apply Forall_Forall2_diag, Forall_forall. exact H.
Qed.

Lemma Forall2_choice {A B} (R : A → B → Prop) (l : list A) :
  (∀ x, x ∈ l → ∃ y, R x y) → ∃ k, Forall2 R l k.
Proof.
  induction l as [|x l IH]; intros H; [by exists []|].
  destruct (H x) as [y Hy]; [set_solver|]. destruct IH as [k Hk]; [set_solver|].
  exists (y :: k). by constructor.
Qed.

(** A loop whose body appends collects what each step appends. *)
Lemma fold_result_collect {A B} (f : list B → A → result E (list B)) l acc r :
  (∀ acc x r, f acc x = Ok r ↔ ∃ own, f [] x = Ok own ∧ r = acc ++ own) →
  fold_result f acc l = Ok r ↔
  ∃ each, Forall2 (λ x own, f [] x = Ok own) l each ∧ r = acc ++ mjoin each.
Proof.
  intros Hf. revert acc r. induction l as [|x l IH]; intros acc r; cbn.
  { split; [intros [= <-]; exists []; cbn; rewrite app_nil_r; by split|].
    intros (each & Heach & ->). inversion Heach. cbn. by rewrite app_nil_r. }
  rewrite bind_Ok. split.
  - intros (a & (own & Hown & ->)%Hf & (each & Heach & ->)%IH).
    exists (own :: each). split; [by constructor|]. cbn. by rewrite app_assoc.
  - intros (each & Heach & ->). inversion Heach as [|? own ? each' Hown Heach']; subst.
    exists (acc ++ own). split; [apply Hf; eauto|]. apply IH. exists each'.
    split; [done|]. cbn. by rewrite app_assoc.
Qed.

Lemma map_err_Ok {F A} (f : E → F) (m : result E A) a :
  map_err f m = Ok a ↔ m = Ok a.
Proof. destruct m; naive_solver. Qed.

Lemma map_err_Err {F A} (f : E → F) (m : result E A) e :
  map_err f m = Err e ↔ ∃ e', m = Err e' ∧ e = f e'.
Proof. destruct m; naive_solver. Qed.
End results.

(** ** The errors a computation can fail with *)

Definition errs {E A} (P : E → Prop) (r : result E A) : Prop := ∀ e, r = Err e → P e.

Section errs.
Context {E : Type} (P : E → Prop).

Lemma errs_Ok {A} (a : A) : errs P (Ok a).
Proof. by intros e [=]. Qed.

Lemma errs_Err {A} e : P e → errs P (Err e : result E A).
Proof. by intros He e' [= <-]. Qed.

Lemma errs_bind {A B} (m : result E A) (f : A → result E B) :
  errs P m → (∀ a, m = Ok a → errs P (f a)) → errs P (m ≫= f).
Proof. intros Hm Hf. destruct m as [a|e]; [by apply Hf|]. by intros e' [= <-]; apply Hm. Qed.

Lemma errs_fmap {A B} (g : A → B) (m : result E A) : errs P m → errs P (g <$> m).
Proof. intros Hm. destruct m as [a|e]; [by intros e [=]|]. by intros e' [= <-]; apply Hm. Qed.

Lemma errs_map_err {F A} (g : F → E) (m : result F A) : (∀ e, P (g e)) → errs P (map_err g m).
Proof. intros Hg e (e' & _ & ->)%map_err_Err. apply Hg. Qed.

Lemma errs_ok_or {A} (o : option A) e : P e → errs P (ok_or o e).
Proof. destruct o; [intros; apply errs_Ok|apply errs_Err]. Qed.

Lemma errs_for_each {A} (f : A → result E ()) l : (∀ x, errs P (f x)) → errs P (for_each f l).
Proof. intros Hf e (l1 & x & l2 & _ & _ & He)%for_each_Err. by eapply Hf. Qed.

Lemma errs_map_result {A B} (f : A → result E B) l : (∀ x, errs P (f x)) → errs P (map_result f l).
Proof.
  intros Hf. induction l as [|x l IH]; [apply errs_Ok|]. cbn. apply errs_bind; [done|].
  intros y _. apply errs_bind; [done|]. intros. apply errs_Ok.
Qed.

Lemma errs_fold_result {A B} (f : B → A → result E B) acc l :
  (∀ acc x, errs P (f acc x)) → errs P (fold_result f acc l).
Proof.
  intros Hf. revert acc. induction l as [|x l IH]; intros acc; [apply errs_Ok|]. cbn.
  apply errs_bind; auto.
Qed.
End errs.

(** [solve_errs] closes [errs P] where [P] of each error computes to [True]. *)
Ltac solve_errs :=
  repeat first
    [ solve [auto] | apply errs_Ok | apply errs_Err; exact I | apply errs_map_err; intros; exact I
    | apply errs_ok_or; exact I
    | apply errs_bind; [|intros ? _] | apply errs_fmap | apply errs_for_each; intros | apply errs_map_result; intros
    | apply errs_fold_result; intros
    | assumption
    | match goal with
      | |- errs _ (match ?x with _ => _ end) => destruct x
      | |- errs _ (if ?b then _ else _) => destruct b
      end ].

(** The development's hint databases: [acs] holds the [Ok]/[Err]
    characterisations, [acs_rw] the rewriting rules. *)
Create HintDb acs discriminated.
Create HintDb acs_rw.

#[export] Hint Resolve -> for_each_Ok map_result_Ok : acs.
#[export] Hint Rewrite @bind_Ok @map_err_Ok @map_err_Err : acs_rw.
