(* ===== verification/OrdMap.v ===== *)
(** * Ordered maps and sets: Rust's [BTreeMap] and [BTreeSet]

    The engine iterates its maps in key order, and that order decides
    which error is reported first, the dispatch order of annotators and
    the bytes of canonical JSON. A map is therefore the list of its
    entries in ascending key order, and [bt_wf] is the representation
    invariant. [serde_json::Map] is the same structure (the engine does
    not enable [preserve_order]). *)

From Stdlib Require Import OrdersEx.
From Stdlib Require Export Sorted.
From S2P Require Import Prelude.

(** ** Total orders on keys *)

Class KeyOrder (K : Type) := {
  key_ltb : K → K → bool;
  key_ltb_irrefl : ∀ x, key_ltb x x = false;
  key_ltb_trans : ∀ x y z, key_ltb x y = true → key_ltb y z = true → key_ltb x z = true;
  key_ltb_total : ∀ x y, key_ltb x y = false → key_ltb y x = false → x = y;
}.

Definition key_lt {K} `{KeyOrder K} (x y : K) : Prop := key_ltb x y = true.

#[export] Instance key_lt_strict {K} `{KeyOrder K} : StrictOrder (@key_lt K _).
Proof.
  split.
  - intros x Hx. red in Hx. by rewrite key_ltb_irrefl in Hx.
  - intros x y z. apply key_ltb_trans.
Qed.

(** [str]'s order is the byte order. *)
#[export, refine] Instance string_order : KeyOrder string :=
  {| key_ltb s t := match String.compare s t with Lt => true | _ => false end |}.
Proof.
  - intros x. destruct (String.compare x x) eqn:E; try done.
    exfalso. by apply (StrictOrder_Irreflexive (R := String_as_OT.lt) x).
  - intros x y z Hxy Hyz.
    destruct (String.compare x y) eqn:Exy; try done.
    destruct (String.compare y z) eqn:Eyz; try done.
    assert (String.compare x z = Lt) as -> by (by apply (StrictOrder_Transitive (R := String_as_OT.lt) x y z)).
    done.
  - intros x y Hxy Hyx.
    destruct (String.compare x y) eqn:Exy; try done.
    + by apply String.compare_eq_iff.
    + rewrite String.compare_antisym, Exy in Hyx. done.
Defined.

#[export, refine] Instance N_order : KeyOrder N := {| key_ltb := N.ltb |}.
Proof. all: intros; rewrite ?N.ltb_lt, ?N.ltb_ge, ?N.ltb_irrefl in *; try lia; done. Defined.

(** Pairs compare their first components, then their second. *)
#[export, refine] Instance pair_order {A B} `{EqDecision A, KeyOrder A, KeyOrder B} : KeyOrder (A * B) :=
  {| key_ltb x y := key_ltb x.1 y.1 || (bool_decide (x.1 = y.1) && key_ltb x.2 y.2) |}.
Proof.
  - intros x. by rewrite !key_ltb_irrefl, andb_false_r.
  - intros x y z. rewrite !orb_true_iff, !andb_true_iff, !bool_decide_eq_true.
    intros [Hxy|[Hxy Hxy']] [Hyz|[Hyz Hyz']].
    + left. by eapply key_ltb_trans.
    + left. by rewrite <- Hyz.
    + left. by rewrite Hxy.
    + right. split; [congruence|by eapply key_ltb_trans].
  - intros [a b] [c d]; cbn. rewrite !orb_false_iff. intros [Hac Hbd] [Hca Hdb].
    pose proof (key_ltb_total a c Hac Hca) as <-. rewrite !bool_decide_true in * by done. cbn in *.
    by rewrite (key_ltb_total b d Hbd Hdb).
Defined.

(** Lists compare element by element; a prefix comes first. *)
Fixpoint list_ltb {A} `{EqDecision A, KeyOrder A} (x y : list A) : bool :=
  match x, y with
  | _, [] => false
  | [], _ :: _ => true
  | a :: x, b :: y => key_ltb a b || (bool_decide (a = b) && list_ltb x y)
  end.

#[export, refine] Instance list_order {A} `{EqDecision A, KeyOrder A} : KeyOrder (list A) :=
  {| key_ltb := list_ltb |}.
Proof.
  - intros x. induction x as [|a x IH]; cbn; [done|]. by rewrite key_ltb_irrefl, IH, andb_false_r.
  - intros x. induction x as [|a x IH]; intros [|b y] [|c z]; cbn; try done.
    rewrite !orb_true_iff, !andb_true_iff, !bool_decide_eq_true.
    intros [Hab|[<- Hxy]] [Hbc|[<- Hyz]]; [left; by eapply key_ltb_trans|by left|by left|right].
    split; [done|by eapply IH].
  - intros x. induction x as [|a x IH]; intros [|b y]; cbn; try done.
    rewrite !orb_false_iff. intros [Hab Hxy] [Hba Hyx]. pose proof (key_ltb_total a b Hab Hba) as <-.
    rewrite bool_decide_true in * by done. cbn in *. by rewrite (IH y).
Defined.

(** ** Maps *)

Notation btree K V := (list (K * V)).

Section btree.
Context {K V : Type} `{EqDecision K} `{KeyOrder K}.
Implicit Types (m : btree K V) (k : K) (v : V).

(** [BTreeMap::get]. *)
Fixpoint bt_get k m : option V :=
  match m with
  | [] => None
  | (k', v) :: m => if decide (k = k') then Some v else bt_get k m
  end.

(** [BTreeMap::insert]: replaces the entry or adds it in key order. *)
Fixpoint bt_insert k v m : btree K V :=
  match m with
  | [] => [(k, v)]
  | (k', v') :: m' =>
      if decide (k = k') then (k, v) :: m'
      else if key_ltb k k' then (k, v) :: m
      else (k', v') :: bt_insert k v m'
  end.

(** [BTreeMap::remove]. *)
Definition bt_remove k m : btree K V := filter (λ e, e.1 ≠ k) m.

(** [BTreeMap::contains_key]. *)
Definition bt_contains k m : bool :=
  match bt_get k m with Some _ => true | None => false end.

(** [BTreeMap::keys] and [values]. *)
Definition bt_keys m : list K := m.*1.
Definition bt_values m : list V := m.*2.

(** [for (key, value) in entries { map.insert(key, value) }], which is
    also [extend] and [collect]. *)
Definition bt_extend m (entries : list (K * V)) : btree K V :=
  fold_left (λ acc e, bt_insert e.1 e.2 acc) entries m.
Definition bt_of_list (entries : list (K * V)) : btree K V := bt_extend [] entries.

(** The representation invariant: strictly ascending keys. *)
Definition bt_wf m : Prop := StronglySorted key_lt (bt_keys m).

Lemma bt_get_insert_eq k v m : bt_get k (bt_insert k v m) = Some v.
Proof.
  induction m as [|[k' v'] m IH]; cbn; [by rewrite decide_True|].
  case_decide as Hk; cbn; [by rewrite decide_True|].
  destruct (key_ltb k k'); cbn; [by rewrite decide_True|].
  by rewrite decide_False.
Qed.

Lemma bt_get_insert_ne k k' v m : k ≠ k' → bt_get k (bt_insert k' v m) = bt_get k m.
Proof.
  intros Hne. induction m as [|[k'' v''] m IH]; cbn; [by rewrite decide_False|].
  destruct (decide (k' = k'')) as [->|]; cbn; [by rewrite !(decide_False (P := k = k''))|].
  destruct (key_ltb k' k''); cbn; [by rewrite (decide_False (P := k = k'))|].
  by rewrite IH.
Qed.

Lemma bt_get_insert k k' v m :
  bt_get k (bt_insert k' v m) = if decide (k = k') then Some v else bt_get k m.
Proof.
  case_decide; subst; [apply bt_get_insert_eq | by apply bt_get_insert_ne].
Qed.

Lemma bt_get_Some_elem k v m : bt_get k m = Some v → (k, v) ∈ m.
Proof.
  induction m as [|[k' v'] m IH]; cbn; [done|]. case_decide; intros; simplify_eq; set_solver.
Qed.

Lemma bt_get_None k m : bt_get k m = None ↔ k ∉ bt_keys m.
Proof.
  induction m as [|[k' v'] m IH]; cbn; [set_solver|]. case_decide; set_solver.
Qed.

Lemma bt_contains_keys k m : bt_contains k m = true ↔ k ∈ bt_keys m.
Proof.
  unfold bt_contains. destruct (bt_get k m) eqn:E.
  - split; [|done]. intros _. apply bt_get_Some_elem in E.
    unfold bt_keys. apply list_elem_of_fmap. by exists (k, v).
  - split; [done|]. by apply bt_get_None in E.
Qed.

Lemma bt_contains_get k m : bt_contains k m = true ↔ is_Some (bt_get k m).
Proof. unfold bt_contains. destruct (bt_get k m); naive_solver. Qed.

Lemma bt_get_remove k k' m :
  bt_get k (bt_remove k' m) = if decide (k = k') then None else bt_get k m.
Proof.
  unfold bt_remove. induction m as [|[k'' v] m IH]; [by cbn; case_decide|].
  destruct (decide (k'' ≠ k')) as [Hn|Hn].
  - rewrite filter_cons_True by done. cbn. rewrite IH. repeat case_decide; naive_solver.
  - rewrite filter_cons_False by done. rewrite IH. cbn. repeat case_decide; naive_solver.
Qed.

Lemma bt_wf_nil : bt_wf [].
Proof. constructor. Qed.

Lemma bt_wf_cons k v m : bt_wf ((k, v) :: m) ↔ Forall (key_lt k) (bt_keys m) ∧ bt_wf m.
Proof. unfold bt_wf. cbn. split; [by inversion 1 | intros []; by constructor]. Qed.

(** Inserting above every key appends. *)
Lemma bt_insert_snoc k v m : Forall (λ k', key_lt k' k) (bt_keys m) → bt_insert k v m = m ++ [(k, v)].
Proof.
  induction m as [|[k' v'] m IH]; cbn; [done|]. intros [Hk Hm]%Forall_cons.
  rewrite decide_False by (intros ->; exact (irreflexivity key_lt _ Hk)).
  destruct (key_ltb k k') eqn:Hlt; [|by rewrite IH].
  exfalso. exact (irreflexivity key_lt k (transitivity (y := k') Hlt Hk)).
Qed.

Lemma bt_wf_NoDup m : bt_wf m → NoDup (bt_keys m).
Proof.
  induction m as [|[k v] m IH]; [constructor|]. rewrite bt_wf_cons. intros [Hk Hm].
  cbn. constructor; [|auto]. intros Hin. rewrite Forall_forall in Hk.
  by eapply StrictOrder_Irreflexive, Hk.
Qed.

Lemma bt_keys_insert k v m k' : k' ∈ bt_keys (bt_insert k v m) ↔ k' = k ∨ k' ∈ bt_keys m.
Proof.
  rewrite <-!bt_contains_keys, !bt_contains_get, bt_get_insert. case_decide; naive_solver.
Qed.

Lemma elem_of_bt_insert_inv k v m e : e ∈ bt_insert k v m → e = (k, v) ∨ e ∈ m.
Proof.
  induction m as [|[k' v'] m IH]; cbn; [by intros ->%list_elem_of_singleton; left|].
  case_decide as Hk; [|destruct (key_ltb k k')]; rewrite !elem_of_cons; tauto.
Qed.

Lemma bt_insert_wf k v m : bt_wf m → bt_wf (bt_insert k v m).
Proof.
  induction m as [|[k' v'] m IH]; [repeat constructor|].
  rewrite bt_wf_cons. intros [Hk Hm]. cbn.
  destruct (decide (k = k')) as [->|Hne]; [by apply bt_wf_cons|].
  destruct (key_ltb k k') eqn:Hlt.
  - rewrite !bt_wf_cons. split_and!; try done.
    cbn. constructor; [done|]. eapply Forall_impl; [exact Hk|].
    intros x Hx. by etrans.
  - apply bt_wf_cons. split; [|auto]. apply Forall_forall. intros x Hx.
    apply bt_keys_insert in Hx as [->|Hx].
    + destruct (key_ltb k' k) eqn:Hlt'; [done|]. by destruct Hne; apply key_ltb_total.
    + by rewrite Forall_forall in Hk; apply Hk.
Qed.

Lemma bt_remove_wf k m : bt_wf m → bt_wf (bt_remove k m).
Proof.
  unfold bt_remove. induction m as [|[k' v'] m IH]; [done|].
  rewrite bt_wf_cons. intros [Hk Hm].
  destruct (decide (k' ≠ k)); [rewrite filter_cons_True by done|rewrite filter_cons_False by done; auto].
  apply bt_wf_cons. split; [|auto]. rewrite Forall_forall in *. intros x Hx. apply Hk.
  unfold bt_keys in *. apply list_elem_of_fmap in Hx as (e & -> & He).
  apply list_elem_of_filter in He as [_ He]. by apply list_elem_of_fmap_2.
Qed.

Lemma bt_extend_wf m entries : bt_wf m → bt_wf (bt_extend m entries).
Proof.
  unfold bt_extend. revert m. induction entries as [|e es IH]; intros m Hm; cbn; [done|].
  by apply IH, bt_insert_wf.
Qed.

Lemma bt_of_list_wf entries : bt_wf (bt_of_list entries).
Proof. apply bt_extend_wf, bt_wf_nil. Qed.

(** A sorted map is determined by its lookups. *)
Lemma bt_ext m1 m2 :
  bt_wf m1 → bt_wf m2 → (∀ k, bt_get k m1 = bt_get k m2) → m1 = m2.
Proof.
  revert m2. induction m1 as [|[k1 v1] m1 IH]; intros [|[k2 v2] m2] H1 H2 Hg.
  - done.
  - specialize (Hg k2). cbn in Hg. by rewrite decide_True in Hg.
  - specialize (Hg k1). cbn in Hg. by rewrite decide_True in Hg.
  - apply bt_wf_cons in H1 as [Hk1 H1]. apply bt_wf_cons in H2 as [Hk2 H2].
    assert (k1 = k2) as ->.
    { apply key_ltb_total; apply not_true_iff_false; intros Hlt.
      - pose proof (Hg k1) as Hg1. cbn in Hg1. rewrite decide_True in Hg1 by done.
        case_decide; [subst; by rewrite key_ltb_irrefl in Hlt|].
        symmetry in Hg1. apply bt_get_Some_elem in Hg1.
        rewrite Forall_forall in Hk2. assert (key_lt k2 k1) as Hl2.
        { apply Hk2. by apply (list_elem_of_fmap_2 fst) in Hg1. }
        by eapply (StrictOrder_Irreflexive k1), transitivity.
      - pose proof (Hg k2) as Hg2. cbn in Hg2. rewrite (decide_True (P := k2 = k2)) in Hg2 by done.
        case_decide; [subst; by rewrite key_ltb_irrefl in Hlt|].
        apply bt_get_Some_elem in Hg2.
        rewrite Forall_forall in Hk1. assert (key_lt k1 k2) as Hl2.
        { apply Hk1. by apply (list_elem_of_fmap_2 fst) in Hg2. }
        by eapply (StrictOrder_Irreflexive k1), transitivity. }
    pose proof (Hg k2) as Hg2. cbn in Hg2. rewrite !decide_True in Hg2 by done.
    simplify_eq. f_equal. apply IH; try done. intros k.
    destruct (decide (k = k2)) as [->|Hne].
    + transitivity (@None V); [|symmetry]; apply bt_get_None; intros Hin.
      * rewrite Forall_forall in Hk1. by eapply (StrictOrder_Irreflexive k2), Hk1.
      * rewrite Forall_forall in Hk2. by eapply (StrictOrder_Irreflexive k2), Hk2.
    + specialize (Hg k). cbn in Hg. by rewrite !decide_False in Hg.
Qed.

Lemma bt_elem_get k v m : bt_wf m → (k, v) ∈ m → bt_get k m = Some v.
Proof.
  induction m as [|[k' v'] m IH]; [set_solver|]. rewrite bt_wf_cons. intros [Hk Hm] Hin. cbn.
  apply elem_of_cons in Hin as [[= -> ->]|Hin]; [by rewrite decide_True|].
  case_decide; subst; [|auto]. exfalso. rewrite Forall_forall in Hk.
  apply (list_elem_of_fmap_2 fst) in Hin. by eapply (StrictOrder_Irreflexive k'), Hk.
Qed.

Lemma bt_insert_same k v m : bt_wf m → bt_get k m = Some v → bt_insert k v m = m.
Proof.
  intros Hm Hg. apply bt_ext; [by apply bt_insert_wf|done|].
  intros k'. rewrite bt_get_insert. case_decide; by subst.
Qed.

(** The last entry for a key wins. *)
Lemma bt_get_extend k m entries :
  bt_get k (bt_extend m entries) =
  match bt_get k (reverse entries) with Some v => Some v | None => bt_get k m end.
Proof.
  revert m. induction entries as [|[k' v'] es IH]; intros m; [done|].
  change (bt_extend m ((k', v') :: es)) with (bt_extend (bt_insert k' v' m) es).
  rewrite IH, bt_get_insert, reverse_cons.
  assert (∀ es', bt_get k (es' ++ [(k', v')]) =
    match bt_get k es' with Some v => Some v | None => if decide (k = k') then Some v' else None end) as ->.
  { induction es' as [|[k'' v''] es' IH']; cbn; [by case_decide|]. rewrite IH'. destruct (decide (k = k'')); done. }
  destruct (bt_get k (reverse es)); [done|]. by case_decide.
Qed.

Lemma bt_elem_get_NoDup k v m : NoDup (bt_keys m) → (k, v) ∈ m → bt_get k m = Some v.
Proof.
  induction m as [|[k' v'] m IH]; [set_solver|]. cbn. intros Hnd Hin.
  apply NoDup_cons in Hnd as [Hk Hnd].
  apply elem_of_cons in Hin as [[= -> ->]|Hin]; [by rewrite decide_True|].
  rewrite decide_False; [auto|]. intros ->. apply Hk. by apply (list_elem_of_fmap_2 fst) in Hin.
Qed.

Lemma bt_get_reverse k m : NoDup (bt_keys m) → bt_get k (reverse m) = bt_get k m.
Proof.
  intros Hnd. apply option_eq. intros v.
  assert (NoDup (bt_keys (reverse m))) as Hnd'.
  { unfold bt_keys. by rewrite fmap_reverse, reverse_Permutation. }
  split; intros Hg; apply bt_get_Some_elem in Hg.
  - apply bt_elem_get_NoDup; [done|]. by apply elem_of_reverse.
  - apply bt_elem_get_NoDup; [done|]. by apply elem_of_reverse.
Qed.

(** Collecting the entries of a map, in any order, gives the map back. *)
Lemma bt_of_list_get k entries :
  NoDup (bt_keys entries) → bt_get k (bt_of_list entries) = bt_get k entries.
Proof.
  intros Hnd. unfold bt_of_list. rewrite bt_get_extend, bt_get_reverse by done.
  cbn. by destruct (bt_get k entries).
Qed.

Lemma bt_of_list_id m : bt_wf m → bt_of_list m = m.
Proof.
  intros Hm. apply bt_ext; [by apply bt_of_list_wf|done|].
  intros k. by apply bt_of_list_get, bt_wf_NoDup.
Qed.
End btree.

#[global] Arguments bt_keys : simpl never.
#[global] Arguments bt_values : simpl never.

#[export] Hint Resolve bt_wf_nil bt_insert_wf bt_remove_wf bt_extend_wf bt_of_list_wf : acs.
#[export] Hint Rewrite @bt_get_insert_eq @bt_get_remove : acs_rw.

(** ** Sets *)

Section bset.
Context {K : Type} `{EqDecision K} `{KeyOrder K}.
Implicit Types (s : list K) (k : K).

(** [BTreeSet::insert], the ascending list of the elements. *)
Fixpoint bs_insert k s : list K :=
  match s with
  | [] => [k]
  | k' :: s' =>
      if decide (k = k') then s
      else if key_ltb k k' then k :: s
      else k' :: bs_insert k s'
  end.

Definition bs_wf s : Prop := StronglySorted key_lt s.

Lemma elem_of_bs_insert k s k' : k' ∈ bs_insert k s ↔ k' = k ∨ k' ∈ s.
Proof.
  induction s as [|k'' s IH]; cbn; [set_solver|].
  case_decide; [set_solver|]. destruct (key_ltb k k''); set_solver.
Qed.

Lemma bs_insert_wf k s : bs_wf s → bs_wf (bs_insert k s).
Proof.
  unfold bs_wf. induction s as [|k' s IH]; [repeat constructor|].
  inversion 1 as [|? ? Hs Hk]; subst. cbn.
  destruct (decide (k = k')) as [->|Hne]; [done|].
  destruct (key_ltb k k') eqn:Hlt.
  - constructor; [done|]. constructor; [done|].
    eapply Forall_impl; [exact Hk|]. intros x Hx. by etrans.
  - constructor; [auto|]. apply Forall_forall. intros x Hx.
    apply elem_of_bs_insert in Hx as [->|Hx].
    + destruct (key_ltb k' k) eqn:Hlt'; [done|]. by destruct Hne; apply key_ltb_total.
    + by rewrite Forall_forall in Hk; apply Hk.
Qed.

Lemma bs_wf_NoDup s : bs_wf s → NoDup s.
Proof.
  induction 1 as [|k s Hs IH Hk]; constructor; [|done].
  intros Hin. rewrite Forall_forall in Hk. by eapply (StrictOrder_Irreflexive k), Hk.
Qed.
End bset.

#[export] Hint Resolve bs_insert_wf : acs.
