(* ===== verification/RustStd.v ===== *)
(** * The parts of Rust's standard library the engine uses

    A [str] is its UTF-8 byte sequence, held in Rocq's [string]: [len],
    slicing, prefixes and comparisons are byte operations in Rust too.
    Machine integers are [N] with their widths written out. *)

From stdpp Require Import sorting.
From S2P Require Import Prelude OrdMap.

Open Scope string_scope.
Open Scope list_scope.

#[global] Arguments String.append !_ _ : simpl nomatch.

(** ** Machine integers *)

Definition u32_max : N := 4294967295.
Definition i32_max : N := 2147483647.
Definition u64_max : N := 18446744073709551615.

(** [usize] is 64 bits wide. *)
Definition usize_max : N := u64_max.

(** [u32::checked_add]. *)
Definition checked_add_u32 (a b : N) : option N :=
  if (a + b <=? u32_max)%N then Some (a + b)%N else None.

(** [u64::to_be_bytes]. *)
Definition byte_of (n : N) : Ascii.ascii := Ascii.ascii_of_N n.
Definition be_byte (n : N) (i : N) : Ascii.ascii :=
  byte_of (N.land (N.shiftr n (8 * i)) 255).
Definition to_be_bytes_u64 (n : N) : list Ascii.ascii :=
  be_byte n <$> [7; 6; 5; 4; 3; 2; 1; 0]%N.

(** ** Strings *)

Definition str_of_bytes (l : list N) : string :=
  String.string_of_list_ascii (byte_of <$> l).

(** [str::len], in bytes. *)
Definition str_len (s : string) : N := N.of_nat (String.length s).

(** [str::starts_with] and [strip_prefix] with a string pattern. *)
Fixpoint strip_prefix (p s : string) : option string :=
  match p, s with
  | EmptyString, _ => Some s
  | String a p, String b s => if decide (a = b) then strip_prefix p s else None
  | String _ _, EmptyString => None
  end.
Definition starts_with (p s : string) : bool :=
  match strip_prefix p s with Some _ => true | None => false end.

(** [str::contains] with a string pattern. *)
Fixpoint str_contains (p s : string) : bool :=
  starts_with p s || match s with EmptyString => false | String _ s => str_contains p s end.

Definition str_is_empty (s : string) : bool := bool_decide (s = "").

(** [\[String\]::join]. *)
Fixpoint join (sep : string) (l : list string) : string :=
  match l with
  | [] => ""
  | [x] => x
  | x :: l => x +:+ sep +:+ join sep l
  end.

(** Unicode [White_Space] as UTF-8, what [str::trim] removes. *)
Definition white_space : list string :=
  (str_of_bytes ∘ (λ b : N, [b]) <$> [9; 10; 11; 12; 13; 32]%N) ++
  (str_of_bytes ∘ (λ b : N, [194; b]%N) <$> [133; 160]%N) ++
  [str_of_bytes [225; 154; 128]%N] ++
  (str_of_bytes ∘ (λ b : N, [226; 128; b]%N) <$> [128; 129; 130; 131; 132; 133; 134; 135; 136; 137; 138; 168; 169; 175]%N) ++
  [str_of_bytes [226; 129; 159]%N; str_of_bytes [227; 128; 128]%N].

Definition strip_white (s : string) : option string :=
  head (omap (λ w, strip_prefix w s) white_space).

Fixpoint trim_start_fuel (fuel : nat) (s : string) : string :=
  match fuel with
  | O => s
  | S fuel => match strip_white s with Some r => trim_start_fuel fuel r | None => s end
  end.
(** [str::trim_start]: each step removes at least one byte. *)
Definition trim_start (s : string) : string := trim_start_fuel (String.length s) s.

(** [str::trim_end]: cuts where only white space is left. A continuation
    byte starts no white space encoding, so no cut splits a character. *)
Fixpoint trim_end (s : string) : string :=
  if str_is_empty (trim_start s) then ""
  else match s with EmptyString => "" | String c s => String c (trim_end s) end.

(** [str::trim]. *)
Definition trim (s : string) : string := trim_end (trim_start s).

(** [value.trim().is_empty()]. *)
Definition blank (s : string) : bool := str_is_empty (trim s).

(** ** Character classes on bytes *)

Definition in_range (lo hi : N) (c : Ascii.ascii) : bool :=
  ((lo <=? Ascii.N_of_ascii c) && (Ascii.N_of_ascii c <=? hi))%N.
Definition is_ascii_digit : Ascii.ascii → bool := in_range 48 57.
Definition is_ascii_alphabetic (c : Ascii.ascii) : bool := in_range 65 90 c || in_range 97 122 c.
Definition is_ascii_alphanumeric (c : Ascii.ascii) : bool :=
  is_ascii_alphabetic c || is_ascii_digit c.
Definition is_ascii_hexdigit (c : Ascii.ascii) : bool :=
  is_ascii_digit c || in_range 65 70 c || in_range 97 102 c.

(** [bytes().all(p)]. *)
Fixpoint all_bytes (p : Ascii.ascii → bool) (s : string) : bool :=
  match s with EmptyString => true | String c s => p c && all_bytes p s end.

(** A UTF-8 continuation byte, [0b10xxxxxx]. *)
Definition is_continuation : Ascii.ascii → bool := in_range 128 191.

(** [s.chars().count()]: one per byte that starts a character. *)
Fixpoint chars_count (s : string) : N :=
  match s with
  | EmptyString => 0
  | String c s => (if is_continuation c then 0 else 1) + chars_count s
  end.

(** [is_char_boundary]: the ends, and every byte that starts a character. *)
Fixpoint is_char_boundary (s : string) (index : nat) : bool :=
  match index, s with
  | O, EmptyString => true
  | O, String c _ => negb (is_continuation c)
  | S _, EmptyString => false
  | S index, String _ s => is_char_boundary s index
  end.

(** [str::from_utf8]'s error: how much of the text is valid, and the length
    of the sequence that is not, unless the text stops inside it. *)
Fixpoint utf8_error (valid_up_to : N) (l : list Ascii.ascii) : option (N * option N) :=
  let stop (error_len : option N) := Some (valid_up_to, error_len) in
  (* a sequence of three or four bytes: the range of its second byte *)
  let second (c : Ascii.ascii) :=
    if in_range 224 224 c then in_range 160 191
    else if in_range 237 237 c then in_range 128 159
    else if in_range 240 240 c then in_range 144 191
    else if in_range 244 244 c then in_range 128 143
    else is_continuation in
  match l with
  | [] => None
  | c :: l1 =>
      if in_range 0 127 c then utf8_error (valid_up_to + 1) l1
      else if negb (in_range 194 244 c) then stop (Some 1%N)
      else
        match l1 with
        | [] => stop None
        | c1 :: l2 =>
            if in_range 194 223 c then
              if is_continuation c1 then utf8_error (valid_up_to + 2) l2 else stop (Some 1%N)
            else if negb (second c c1) then stop (Some 1%N)
            else
              match l2 with
              | [] => stop None
              | c2 :: l3 =>
                  if negb (is_continuation c2) then stop (Some 2%N)
                  else if in_range 224 239 c then utf8_error (valid_up_to + 3) l3
                  else
                    match l3 with
                    | [] => stop None
                    | c3 :: l4 =>
                        if is_continuation c3 then utf8_error (valid_up_to + 4) l4 else stop (Some 3%N)
                    end
              end
        end
  end.

(** [&s\[..n\]]. *)
Definition str_take (n : nat) (s : string) : string := String.substring 0 n s.

(** [char::is_control] removed from the text: the C0 controls and DEL are
    one byte, the C1 controls are [0xC2] and a byte up to [0x9F]. *)
Fixpoint strip_controls (s : string) : string :=
  match s with
  | EmptyString => ""
  | String c s1 =>
      if in_range 0 31 c || in_range 127 127 c then strip_controls s1
      else
        match s1 with
        | String d s2 =>
            if in_range 194 194 c && in_range 128 159 d then strip_controls s2
            else String c (strip_controls s1)
        | EmptyString => String c ""
        end
  end.

(** The scalar values of well-formed UTF-8. *)
Fixpoint scalars (s : string) : list N :=
  match s with
  | EmptyString => []
  | String c s1 =>
      let n := Ascii.N_of_ascii c in
      let low (b : Ascii.ascii) := (Ascii.N_of_ascii b - 128)%N in
      if (n <? 128)%N then n :: scalars s1
      else
        match s1 with
        | EmptyString => []
        | String b1 s2 =>
            if (n <? 224)%N then ((n - 192) * 64 + low b1)%N :: scalars s2
            else
              match s2 with
              | EmptyString => []
              | String b2 s3 =>
                  if (n <? 240)%N then ((n - 224) * 4096 + low b1 * 64 + low b2)%N :: scalars s3
                  else
                    match s3 with
                    | EmptyString => []
                    | String b3 s4 =>
                        ((n - 240) * 262144 + low b1 * 4096 + low b2 * 64 + low b3)%N :: scalars s4
                    end
              end
        end
  end.

(** [str::encode_utf16]. *)
Definition encode_utf16 (s : string) : list N :=
  scalars s ≫= λ n,
    if (n <? 65536)%N then [n]
    else [55296 + (n - 65536) / 1024; 56320 + (n - 65536) mod 1024]%N.

(** [Iterator::lt] on numbers. *)
Fixpoint lex_ltb (l k : list N) : bool :=
  match l, k with
  | _, [] => false
  | [], _ :: _ => true
  | x :: l, y :: k => (x <? y)%N || ((x =? y)%N && lex_ltb l k)
  end.

(** [sort] and [sort_by]: a stable sort by a strict order. *)
Fixpoint insert_by {A} (ltb : A → A → bool) (x : A) (l : list A) : list A :=
  match l with
  | [] => [x]
  | y :: l' => if ltb y x then y :: insert_by ltb x l' else x :: l
  end.
Definition sort_by {A} (ltb : A → A → bool) (l : list A) : list A := foldr (insert_by ltb) [] l.

(** ** Decimal numbers *)

Definition digit_char (d : N) : Ascii.ascii := byte_of (48 + d).
Definition digit_value (c : Ascii.ascii) : N := (Ascii.N_of_ascii c - 48)%N.

Fixpoint fmt_fuel (fuel : nat) (n : N) (acc : string) : string :=
  match fuel with
  | O => acc
  | S fuel =>
      if (n <? 10)%N then String (digit_char n) acc
      else fmt_fuel fuel (n / 10) (String (digit_char (n mod 10)) acc)
  end.
(** [format!("{n}")] of an unsigned integer: each step divides by ten. *)
Definition fmt_N (n : N) : string := fmt_fuel (S (N.to_nat (N.log2 n))) n "".

(** [String::from_utf8], its error as [Display] writes it. *)
Definition from_utf8 (bytes : list Ascii.ascii) : result string string :=
  match utf8_error 0 bytes with
  | None => Ok (String.string_of_list_ascii bytes)
  | Some (valid_up_to, Some error_len) =>
      Err ("invalid utf-8 sequence of " +:+ fmt_N error_len +:+ " bytes from index " +:+ fmt_N valid_up_to)
  | Some (valid_up_to, None) =>
      Err ("incomplete utf-8 byte sequence from index " +:+ fmt_N valid_up_to)
  end.

(** [String::from_utf8_lossy]: each sequence that is not valid becomes one
    U+FFFD. Every turn drops a byte, so the length is fuel enough. *)
Fixpoint from_utf8_lossy_fuel (fuel : nat) (bytes : list Ascii.ascii) : string :=
  let replacement := str_of_bytes [239; 191; 189]%N in
  match utf8_error 0 bytes with
  | None => String.string_of_list_ascii bytes
  | Some (valid_up_to, error_len) =>
      let valid := String.string_of_list_ascii (take (N.to_nat valid_up_to) bytes) in
      match error_len, fuel with
      | Some error_len, S fuel =>
          valid +:+ replacement +:+
          from_utf8_lossy_fuel fuel (drop (N.to_nat (valid_up_to + error_len)) bytes)
      | _, _ => valid +:+ replacement
      end
  end.
Definition from_utf8_lossy (bytes : list Ascii.ascii) : string := from_utf8_lossy_fuel (length bytes) bytes.

(** [chars().take(n).collect()] and whether a character is left. *)
Fixpoint chars_take (n : nat) (s : string) : string * bool :=
  match s with
  | EmptyString => ("", false)
  | String c s' =>
      if is_continuation c then let '(t, more) := chars_take n s' in (String c t, more)
      else
        match n with
        | O => ("", true)
        | S n => let '(t, more) := chars_take n s' in (String c t, more)
        end
  end.

Fixpoint parse_digits (max acc : N) (s : string) : option N :=
  match s with
  | EmptyString => Some acc
  | String c s =>
      if is_ascii_digit c then
        let acc := (acc * 10 + digit_value c)%N in
        if (acc <=? max)%N then parse_digits max acc s else None
      else None
  end.
(** [str::parse::<usize>] on a string of decimal digits. *)
Definition parse_usize (s : string) : option N :=
  if str_is_empty s then None else parse_digits usize_max 0 s.

(** [str::parse] of a 64-bit unsigned integer: one leading [+] is allowed. *)
Definition parse_usize_signed (s : string) : option N :=
  parse_usize (default s (strip_prefix "+" s)).

(** ** Lemmas *)

Lemma strip_prefix_Some p s r : strip_prefix p s = Some r ↔ s = p +:+ r.
Proof.
  revert s. induction p as [|a p IH]; intros s; cbn; [naive_solver|].
  destruct s as [|b s]; [done|]. destruct (decide (a = b)) as [->|Hn].
  - rewrite IH. split; [by intros ->|by intros [= ->]].
  - split; [done|]. intros [= Hab Hs]. congruence.
Qed.

Lemma starts_with_true p s : starts_with p s = true ↔ ∃ r, s = p +:+ r.
Proof.
  unfold starts_with. destruct (strip_prefix p s) eqn:E.
  - apply strip_prefix_Some in E. naive_solver.
  - split; [done|]. intros [r Hr]. apply strip_prefix_Some in Hr. congruence.
Qed.

Lemma starts_with_app p r : starts_with p (p +:+ r) = true.
Proof. apply starts_with_true. eauto. Qed.

Lemma str_contains_true p s : str_contains p s = true ↔ ∃ a b, s = a +:+ p +:+ b.
Proof.
  induction s as [|c s IH]; cbn.
  - rewrite orb_false_r, starts_with_true. split.
    + intros [r ->]. by exists "", r.
    + intros (a & b & H). destruct a; cbn in H; [by exists b|done].
  - rewrite orb_true_iff, starts_with_true, IH. split.
    + intros [[r ->]|(a & b & ->)]; [by exists "", r|by exists (String c a), b].
    + intros (a & b & H). destruct a as [|a' a]; cbn in H; [left; by exists b|].
      right. injection H as -> ->. by exists a, b.
Qed.

Lemma str_is_empty_true s : str_is_empty s = true ↔ s = "".
Proof. unfold str_is_empty. by rewrite bool_decide_eq_true. Qed.

Lemma app_str_nil_r s : s +:+ "" = s.
Proof. induction s as [|c s IH]; cbn; congruence. Qed.

Lemma app_str_assoc a b c : a +:+ (b +:+ c) = (a +:+ b) +:+ c.
Proof. induction a as [|x a IH]; cbn; congruence. Qed.

Lemma str_length_app a b : String.length (a +:+ b) = String.length a + String.length b.
Proof. induction a as [|x a IH]; cbn; lia. Qed.

Lemma str_len_app a b : (str_len (a +:+ b) = str_len a + str_len b)%N.
Proof. unfold str_len. rewrite str_length_app. lia. Qed.

Lemma N_of_byte_of n : (n < 256)%N → Ascii.N_of_ascii (byte_of n) = n.
Proof. apply Ascii.N_ascii_embedding. Qed.

(** A check of every byte by its 256 cases. *)
Lemma byte_cases (check : N → bool) :
  forallb check (N.of_nat <$> seq 0 256) = true → ∀ c, check (Ascii.N_of_ascii c) = true.
Proof.
  rewrite forallb_forall. intros Hall c. apply Hall.
  apply list_elem_of_In, list_elem_of_fmap. exists (Ascii.nat_of_ascii c).
  split; [symmetry; apply N2Nat.id|]. apply elem_of_seq. pose proof (Ascii.nat_ascii_bounded c). lia.
Qed.

Lemma is_digit_digit_char d : (d < 10)%N → is_ascii_digit (digit_char d) = true.
Proof.
  intros. unfold is_ascii_digit, in_range, digit_char. rewrite N_of_byte_of by lia.
  apply andb_true_iff. rewrite !N.leb_le. lia.
Qed.

Lemma digit_value_char d : (d < 10)%N → digit_value (digit_char d) = d.
Proof. intros. unfold digit_value, digit_char. rewrite N_of_byte_of by lia. lia. Qed.

Lemma parse_digits_char max acc d s :
  (d < 10)%N → (acc * 10 + d <= max)%N →
  parse_digits max acc (String (digit_char d) s) = parse_digits max (acc * 10 + d) s.
Proof.
  intros Hd Hm. cbn [parse_digits].
  rewrite is_digit_digit_char, digit_value_char by done.
  by apply N.leb_le in Hm as ->.
Qed.

Lemma parse_fmt_fuel max fuel n acc :
  (n < 2 ^ N.of_nat fuel)%N → (n <= max)%N →
  parse_digits max 0 (fmt_fuel fuel n acc) = parse_digits max n acc.
Proof.
  revert n acc. induction fuel as [|fuel IH]; intros n acc Hf Hm.
  - cbn. cbn in Hf. by replace n with 0%N by lia.
  - cbn [fmt_fuel]. destruct (N.ltb_spec n 10).
    + by rewrite parse_digits_char by lia.
    + assert (n = n / 10 * 10 + n mod 10)%N as Hn.
      { rewrite N.mul_comm. by apply N.div_mod. }
      assert (n mod 10 < 10)%N by (by apply N.mod_lt).
      rewrite IH.
      * rewrite parse_digits_char by lia. by rewrite <-Hn.
      * apply N.Div0.div_lt_upper_bound. rewrite Nat2N.inj_succ, N.pow_succ_r' in Hf.
        clear -Hf. revert Hf. generalize (2 ^ N.of_nat fuel)%N. intros; lia.
      * etrans; [|exact Hm]. apply N.Div0.div_le_upper_bound. lia.
Qed.

Lemma fmt_fuel_nonempty fuel n acc : fuel ≠ 0 ∨ acc ≠ "" → fmt_fuel fuel n acc ≠ "".
Proof.
  revert n acc. induction fuel as [|fuel IH]; intros n acc H; cbn; [naive_solver|].
  destruct (n <? 10)%N; [done|]. apply IH. by right.
Qed.

(** Decimal formatting and [parse::<usize>] are inverse. *)
Lemma parse_usize_fmt n : (n <= usize_max)%N → parse_usize (fmt_N n) = Some n.
Proof.
  intros Hn. unfold parse_usize, fmt_N.
  destruct (str_is_empty _) eqn:E.
  { apply str_is_empty_true in E. exfalso. eapply fmt_fuel_nonempty, E. by left. }
  rewrite parse_fmt_fuel; [done| |done].
  rewrite Nat2N.inj_succ, N2Nat.id.
  destruct (decide (n = 0%N)) as [->|]; [done|]. apply N.log2_spec. lia.
Qed.

Lemma all_bytes_app p a b : all_bytes p (a +:+ b) = all_bytes p a && all_bytes p b.
Proof. induction a as [|c a IH]; cbn; [done|]. by rewrite IH, andb_assoc. Qed.

Lemma fmt_fuel_digits fuel n acc :
  all_bytes is_ascii_digit acc = true → all_bytes is_ascii_digit (fmt_fuel fuel n acc) = true.
Proof.
  revert n acc. induction fuel as [|fuel IH]; intros n acc H; cbn [fmt_fuel]; [done|].
  destruct (N.ltb_spec n 10).
  - cbn. by rewrite is_digit_digit_char.
  - apply IH. cbn. rewrite is_digit_digit_char; [done|]. by apply N.mod_lt.
Qed.

Lemma fmt_N_digits n : all_bytes is_ascii_digit (fmt_N n) = true.
Proof. by apply fmt_fuel_digits. Qed.

Lemma fmt_N_nonempty n : fmt_N n ≠ "".
Proof. apply fmt_fuel_nonempty. by left. Qed.

Lemma insert_by_Permutation {A} ltb (x : A) l : insert_by ltb x l ≡ₚ x :: l.
Proof.
  induction l as [|y l IH]; cbn; [done|]. destruct (ltb y x); [|done]. rewrite IH. apply Permutation_swap.
Qed.

Lemma sort_by_Permutation {A} ltb (l : list A) : sort_by ltb l ≡ₚ l.
Proof.
  unfold sort_by. induction l as [|x l IH]; cbn; [done|]. by rewrite insert_by_Permutation, IH.
Qed.

Lemma str_take_length n s : (String.length (str_take n s) ≤ n)%nat.
Proof. revert n. induction s as [|c s IH]; intros [|n]; cbn; try lia. specialize (IH n). unfold str_take in IH. lia. Qed.

Lemma str_take_prefix n s : ∃ r, s = str_take n s +:+ r.
Proof.
  revert n. induction s as [|c s IH]; intros [|n]; cbn; [by exists ""|by exists ""|by exists (String c s)|].
  destruct (IH n) as [r Hr]. exists r. unfold str_take in Hr. by rewrite <-Hr.
Qed.

(** Text with no byte that starts a white space encoding is already trimmed. *)
Definition white_lead (c : Ascii.ascii) : bool :=
  in_range 9 13 c || in_range 32 32 c || in_range 194 194 c || in_range 225 227 c.

Lemma strip_white_None c s : white_lead c = false → strip_white (String c s) = None.
Proof.
  intros Hc. unfold strip_white.
  assert (∀ w : string, w ∈ white_space → strip_prefix w (String c s) = None) as Hall.
  { intros w Hw. assert (Forall (λ w, match w with String d _ => white_lead d = true | _ => False end) white_space)
      as Hlead by (vm_compute; repeat constructor).
    rewrite Forall_forall in Hlead. specialize (Hlead w Hw). destruct w as [|d w]; [done|].
    cbn. rewrite decide_False; [done|]. intros ->. congruence. }
  clear Hc. revert Hall. generalize white_space. intros ws Hall.
  induction ws as [|w ws IH]; [done|]. cbn. rewrite Hall by set_solver. apply IH. set_solver.
Qed.

Lemma trim_id s : all_bytes (λ c, negb (white_lead c)) s = true → trim s = s.
Proof.
  assert (∀ s, all_bytes (λ c, negb (white_lead c)) s = true → trim_start s = s) as Hstart.
  { intros [|c t]; [done|]. cbn. intros Ht. apply andb_true_iff in Ht as [Hc _].
    unfold trim_start. cbn [String.length trim_start_fuel].
    rewrite strip_white_None; [done|]. by apply negb_true_iff. }
  intros Hs. unfold trim. rewrite Hstart by done. induction s as [|c s IH]; [done|].
  cbn [trim_end]. rewrite Hstart by done. cbn in Hs. apply andb_true_iff in Hs as [_ Hs].
  unfold str_is_empty. rewrite bool_decide_false by done. by rewrite IH.
Qed.

Lemma all_bytes_impl (p q : Ascii.ascii → bool) s :
  (∀ c, p c = true → q c = true) → all_bytes p s = true → all_bytes q s = true.
Proof.
  intros Hpq. induction s as [|c s IH]; cbn; [done|]. rewrite !andb_true_iff. naive_solver.
Qed.

#[export] Hint Rewrite str_len_app str_length_app : acs_rw.

Example trim_sample : trim (str_of_bytes [32; 194; 160; 97; 32; 98; 226; 128; 169; 9]%N) = "a b".
Proof. vm_compute. reflexivity. Qed.
Example fmt_sample : fmt_N 10240 = "10240".
Proof. vm_compute. reflexivity. Qed.

Example utf8_sample :
  from_utf8 (byte_of <$> [97; 226; 130; 172]%N) = Ok (str_of_bytes [97; 226; 130; 172]%N) ∧
  from_utf8 (byte_of <$> [97; 237; 160; 128]%N) = Err "invalid utf-8 sequence of 1 bytes from index 1" ∧
  from_utf8 (byte_of <$> [97; 226; 130]%N) = Err "incomplete utf-8 byte sequence from index 1".
Proof. vm_compute. auto. Qed.

(** ** Sorting by an injective key *)

Section sort_by_key.
Context {A K : Type} `{EqDecision K, KeyOrder K} (key : A → K).

Local Notation below := (λ x y, key_ltb (key x) (key y)).
Local Notation sorted := (StronglySorted (λ x y, key_lt (key x) (key y))).

Lemma key_lt_or_gt x y : key x ≠ key y → key_ltb (key y) (key x) = false → key_lt (key x) (key y).
Proof.
  intros Hne Hle. unfold key_lt. destruct (key_ltb (key x) (key y)) eqn:Hlt; [done|].
  destruct Hne. by apply key_ltb_total.
Qed.

Lemma insert_by_sorted x l : key x ∉ (key <$> l) → sorted l → sorted (insert_by below x l).
Proof.
  induction l as [|y l IH]; cbn [insert_by]; [by repeat constructor|].
  rewrite fmap_cons, not_elem_of_cons, StronglySorted_cons. intros [Hxy Hx] [Hy Hl].
  destruct (key_ltb (key y) (key x)) eqn:Hlt.
  - apply StronglySorted_cons. split; [|by apply IH].
    rewrite insert_by_Permutation. by constructor.
  - apply key_lt_or_gt in Hlt; [|done]. apply StronglySorted_cons. split; [|by constructor].
    constructor; [done|]. eapply Forall_impl; [exact Hy|]. cbn. intros z Hz. by etrans.
Qed.

Lemma sort_by_sorted l : NoDup (key <$> l) → sorted (sort_by below l).
Proof.
  induction l as [|x l IH]; [constructor|]. rewrite fmap_cons. intros [Hx Hl]%NoDup_cons.
  change (sort_by below (x :: l)) with (insert_by below x (sort_by below l)).
  apply insert_by_sorted; [|by apply IH]. by rewrite sort_by_Permutation.
Qed.

(** The order of the input does not matter. *)
Lemma sort_by_order_independent l k : NoDup (key <$> l) → l ≡ₚ k → sort_by below l = sort_by below k.
Proof.
  intros Hnd Hperm. eapply (StronglySorted_unique_strong (λ x y, key_lt (key x) (key y))).
  - intros x y _ _ Hxy Hyx. exfalso. eapply irreflexivity; [apply key_lt_strict|]. by etrans.
  - by apply sort_by_sorted.
  - apply sort_by_sorted. by rewrite <- Hperm.
  - by rewrite !sort_by_Permutation.
Qed.
End sort_by_key.
