(* ===== verification/Utf16.v ===== *)
(** * UTF-16 code units and Rust's strings

    [String::from_utf16], as the standard library has it: surrogates are
    paired or the text is refused, and nothing is lost either way. *)

From S2P Require Import Prelude RustStd.

(** [char::decode_utf16]: the scalar values, unless a surrogate is
    unpaired. *)
Definition is_surrogate (u : N) : bool := (55296 <=? u)%N && (u <=? 57343)%N.
Definition is_trailing (u : N) : bool := (56320 <=? u)%N && (u <=? 57343)%N.

Fixpoint decode_utf16 (units : list N) : option (list N) :=
  match units with
  | [] => Some []
  | u :: rest =>
      if negb (is_surrogate u) then cons u <$> decode_utf16 rest
      else if is_trailing u then None
      else
        match rest with
        | [] => None
        | v :: rest =>
            if is_trailing v then
              cons (N.lor (N.shiftl (N.land u 1023) 10) (N.land v 1023) + 65536)%N <$> decode_utf16 rest
            else None
        end
  end.

(** [char::encode_utf8]. *)
Definition encode_utf8 (c : N) : list N :=
  if (c <? 128)%N then [c]
  else if (c <? 2048)%N then [192 + c / 64; 128 + c mod 64]%N
  else if (c <? 65536)%N then [224 + c / 4096; 128 + c / 64 mod 64; 128 + c mod 64]%N
  else [240 + c / 262144; 128 + c / 4096 mod 64; 128 + c / 64 mod 64; 128 + c mod 64]%N.

Definition string_of_chars (cs : list N) : string := str_of_bytes (cs ≫= encode_utf8).

Definition from_utf16 (units : list N) : option string := string_of_chars <$> decode_utf16 units.

(** Every surrogate is one of a pair. *)
Inductive paired : list N → Prop :=
  | paired_nil : paired []
  | paired_unit u rest : is_surrogate u = false → paired rest → paired (u :: rest)
  | paired_pair u v rest : is_surrogate u = true → is_trailing u = false → is_trailing v = true →
      paired rest → paired (u :: v :: rest).

(** A Unicode scalar value. *)
Definition is_scalar (c : N) : Prop := (c < 1114112)%N ∧ is_surrogate c = false.

(** ** What is proved of them *)

#[local] Ltac Zify.zify_post_hook ::= Z.to_euclidean_division_equations.

Lemma decode_utf16_paired units : is_Some (decode_utf16 units) ↔ paired units.
Proof.
  split.
  - assert (∀ n units, (length units ≤ n)%nat → is_Some (decode_utf16 units) → paired units) as Hn; [|by eapply Hn].
    clear units. induction n as [|n IH]; intros [|u rest] Hlen; cbn in *; [intros; constructor|lia|intros; constructor|].
    destruct (is_surrogate u) eqn:Hu; cbn.
    + destruct (is_trailing u) eqn:Ht; [by intros [? ?]|]. destruct rest as [|v rest]; [by intros [? ?]|].
      destruct (is_trailing v) eqn:Hv; [|by intros [? ?]]. rewrite fmap_is_Some. intros Hs.
      apply paired_pair; try done. apply IH; [cbn in Hlen; lia|done].
    + rewrite fmap_is_Some. intros Hs. apply paired_unit; [done|]. apply IH; [lia|done].
  - induction 1 as [|u rest Hu _ IH|u v rest Hu Ht Hv _ IH]; cbn; [by eexists| |].
    + rewrite Hu. cbn. by apply fmap_is_Some.
    + rewrite Hu, Ht, Hv. cbn. by apply fmap_is_Some.
Qed.

Lemma str_of_bytes_cons b l : str_of_bytes (b :: l) = String (byte_of b) (str_of_bytes l).
Proof. done. Qed.

(** Reading back the bytes of a character. *)
Lemma scalars_encode c l : is_scalar c → scalars (str_of_bytes (encode_utf8 c ++ l)) = c :: scalars (str_of_bytes l).
Proof.
  intros [Hc _]. unfold encode_utf8.
  destruct (N.ltb_spec c 128); [|destruct (N.ltb_spec c 2048); [|destruct (N.ltb_spec c 65536)]];
    cbn [app]; rewrite !str_of_bytes_cons; cbn [scalars]; rewrite !N_of_byte_of by lia.
  - rewrite (proj2 (N.ltb_lt _ _)) by lia. done.
  - rewrite (proj2 (N.ltb_ge _ 128)), (proj2 (N.ltb_lt _ _)) by lia. f_equal. lia.
  - rewrite (proj2 (N.ltb_ge _ 128)), (proj2 (N.ltb_ge _ 224)), (proj2 (N.ltb_lt _ _)) by lia. f_equal. lia.
  - rewrite (proj2 (N.ltb_ge _ 128)), (proj2 (N.ltb_ge _ 224)), (proj2 (N.ltb_ge _ 240)) by lia. f_equal. lia.
Qed.

Lemma scalars_of_chars cs : Forall is_scalar cs → scalars (string_of_chars cs) = cs.
Proof.
  unfold string_of_chars. induction 1 as [|c cs Hc _ IH]; [done|]. by rewrite bind_cons, scalars_encode, IH.
Qed.

Lemma continuation_byte n : (128 ≤ n < 192)%N → is_continuation (byte_of n) = true.
Proof. intros Hn. unfold is_continuation, in_range. rewrite N_of_byte_of by lia. apply andb_true_iff. split; apply N.leb_le; lia. Qed.
Lemma leading_byte n : (n < 128 ∨ 192 ≤ n < 256)%N → is_continuation (byte_of n) = false.
Proof.
  intros Hn. unfold is_continuation, in_range. rewrite N_of_byte_of by lia. apply andb_false_iff.
  rewrite !N.leb_gt. lia.
Qed.

Lemma chars_count_encode c l :
  is_scalar c → chars_count (str_of_bytes (encode_utf8 c ++ l)) = (1 + chars_count (str_of_bytes l))%N.
Proof.
  intros [Hc _]. unfold encode_utf8.
  destruct (N.ltb_spec c 128); [|destruct (N.ltb_spec c 2048); [|destruct (N.ltb_spec c 65536)]];
    cbn [app]; rewrite !str_of_bytes_cons; cbn [chars_count];
    rewrite leading_byte by lia; rewrite ?continuation_byte by lia; done.
Qed.

Lemma chars_count_of_chars cs : Forall is_scalar cs → chars_count (string_of_chars cs) = N.of_nat (length cs).
Proof.
  unfold string_of_chars. induction 1 as [|c cs Hc _ IH]; [done|].
  rewrite bind_cons, chars_count_encode, IH by done. cbn [length]. lia.
Qed.

(** The characters of code units, which are one or two units each. *)
Lemma lor_shifted a b : (b < 1024)%N → N.lor (N.shiftl a 10) b = (a * 1024 + b)%N.
Proof.
  intros Hb. assert (N.land (N.shiftl a 10) b = 0%N) as Hland.
  { apply N.bits_inj. intros n. rewrite N.land_spec, N.bits_0. destruct (N.lt_ge_cases n 10).
    - by rewrite N.shiftl_spec_low.
    - rewrite <- (N.mod_small b (2 ^ 10)) by done. by rewrite N.mod_pow2_bits_high, andb_false_r. }
  rewrite <- N.lxor_lor, <- N.add_nocarry_lxor by done. by rewrite N.shiftl_mul_pow2.
Qed.

Lemma pair_value u v :
  is_surrogate u = true → is_trailing u = false → is_trailing v = true →
  let c := (N.lor (N.shiftl (N.land u 1023) 10) (N.land v 1023) + 65536)%N in
  (65536 ≤ c < 1114112)%N ∧ (55296 + (c - 65536) / 1024)%N = u ∧ (56320 + (c - 65536) mod 1024)%N = v.
Proof.
  unfold is_surrogate, is_trailing. rewrite !andb_true_iff, andb_false_iff, !N.leb_le, !N.leb_gt.
  intros Hu Ht Hv. change 1023%N with (N.ones 10). rewrite !N.land_ones. change (2 ^ 10)%N with 1024%N.
  rewrite lor_shifted by lia. cbn zeta. lia.
Qed.

Lemma decode_utf16_scalars units cs :
  Forall (λ u, u < 65536)%N units → decode_utf16 units = Some cs →
  Forall is_scalar cs ∧ (cs ≫= λ n, if (n <? 65536)%N then [n]
    else [55296 + (n - 65536) / 1024; 56320 + (n - 65536) mod 1024]%N) = units.
Proof.
  intros Hb Hd. assert (paired units) as Hp by (apply decode_utf16_paired; by eexists).
  revert cs Hd Hb. induction Hp as [|u rest Hu _ IH|u v rest Hu Ht Hv _ IH]; intros cs Hd Hb.
  - by injection Hd as <-.
  - cbn in Hd. rewrite Hu in Hd. cbn in Hd. apply fmap_Some in Hd as (cs' & Hd & ->).
    apply Forall_cons in Hb as [Hbu Hb]. destruct (IH cs' Hd Hb) as [Hs He].
    split; [constructor; [split; [lia|done]|done]|]. rewrite bind_cons, (proj2 (N.ltb_lt _ _)) by done. by rewrite He.
  - cbn in Hd. rewrite Hu, Ht, Hv in Hd. cbn in Hd. apply fmap_Some in Hd as (cs' & Hd & ->).
    apply Forall_cons in Hb as [Hbu Hb]. apply Forall_cons in Hb as [Hbv Hb]. destruct (IH cs' Hd Hb) as [Hs He].
    destruct (pair_value u v Hu Ht Hv) as (Hc & Hcu & Hcv).
    set (c := (N.lor _ _ + 65536)%N) in *. split.
    + constructor; [|done]. split; [lia|]. unfold is_surrogate. apply andb_false_iff. right. apply N.leb_gt. lia.
    + rewrite bind_cons, (proj2 (N.ltb_ge _ _)) by lia. by rewrite He, Hcu, Hcv.
Qed.

(** Decoding loses nothing: the units are those of the string, which has a
    character for each of theirs; it fails exactly when a surrogate is
    unpaired. *)
Lemma from_utf16_exact units s :
  Forall (λ u, u < 65536)%N units → from_utf16 units = Some s →
  encode_utf16 s = units ∧ ∃ cs, decode_utf16 units = Some cs ∧ scalars s = cs ∧ chars_count s = N.of_nat (length cs).
Proof.
  intros Hb Hs. unfold from_utf16 in Hs. apply fmap_Some in Hs as (cs & Hd & ->).
  destruct (decode_utf16_scalars units cs Hb Hd) as [Hsc He]. unfold encode_utf16. rewrite scalars_of_chars by done.
  split; [done|]. exists cs. split; [done|]. split; [done|]. by apply chars_count_of_chars.
Qed.

Lemma from_utf16_paired units : is_Some (from_utf16 units) ↔ paired units.
Proof. unfold from_utf16. by rewrite fmap_is_Some, decode_utf16_paired. Qed.

Example utf16_sample :
  from_utf16 [97; 55357; 56832; 8364]%N = Some (str_of_bytes [97; 240; 159; 152; 128; 226; 130; 172]%N) ∧
  from_utf16 [97; 55357]%N = None ∧ from_utf16 [56832; 55357]%N = None.
Proof. vm_compute. done. Qed.
