(* ===== verification/Errors.v ===== *)
(** * Runtime errors: [engine/src/error.rs]

    The closed set of failures, each with the reserved reason the
    fail-closed verdict carries and a free-text detail. *)

From S2P Require Import Prelude RustStd.

Inductive RuntimeError : Type :=
  | ManifestInvalid (detail : string)
  | ManifestUnreadable (detail : string)
  | InterventionPointUnknown (detail : string)
  | PathMissing (detail : string)
  | PathTypeMismatch (detail : string)
  | ToolUnknown (detail : string)
  | AnnotationFailed (detail : string)
  | AnnotationTimeout (detail : string)
  | PolicyInvocationFailed (detail : string)
  | PolicyOutputInvalid (detail : string)
  | ResourceLimitExceeded (detail : string)
  | ResolutionPathTraversal (detail : string)
  | ResolutionCycle (detail : string)
  | ResolutionInvalidGovernance (detail : string)
  | ResolutionMergeConflict (detail : string)
  | TransformTargetForbidden (detail : string)
  | TransformInvalid (detail : string).

#[export] Instance RuntimeError_eq_dec : EqDecision RuntimeError.
Proof. solve_decision. Defined.

Definition reason (e : RuntimeError) : string :=
  match e with
  | ManifestInvalid _ => "runtime_error:manifest_invalid"
  | ManifestUnreadable _ => "runtime_error:manifest_unreadable"
  | InterventionPointUnknown _ => "runtime_error:intervention_point_unknown"
  | PathMissing _ => "runtime_error:path_missing"
  | PathTypeMismatch _ => "runtime_error:path_type_mismatch"
  | ToolUnknown _ => "runtime_error:tool_unknown"
  | AnnotationFailed _ => "runtime_error:annotation_failed"
  | AnnotationTimeout _ => "runtime_error:annotation_timeout"
  | PolicyInvocationFailed _ => "runtime_error:policy_invocation_failed"
  | PolicyOutputInvalid _ => "runtime_error:policy_output_invalid"
  | ResourceLimitExceeded _ => "runtime_error:resource_limit_exceeded"
  | ResolutionPathTraversal _ => "runtime_error:resolution_path_traversal"
  | ResolutionCycle _ => "runtime_error:resolution_cycle"
  | ResolutionInvalidGovernance _ => "runtime_error:resolution_invalid_governance"
  | ResolutionMergeConflict _ => "runtime_error:resolution_merge_conflict"
  | TransformTargetForbidden _ => "runtime_error:transform_target_forbidden"
  | TransformInvalid _ => "runtime_error:transform_invalid"
  end.

Definition detail (e : RuntimeError) : string :=
  match e with
  | ManifestInvalid d | ManifestUnreadable d | InterventionPointUnknown d
  | PathMissing d | PathTypeMismatch d | ToolUnknown d | AnnotationFailed d
  | AnnotationTimeout d | PolicyInvocationFailed d | PolicyOutputInvalid d
  | ResourceLimitExceeded d | ResolutionPathTraversal d | ResolutionCycle d
  | ResolutionInvalidGovernance d | ResolutionMergeConflict d
  | TransformTargetForbidden d | TransformInvalid d => d
  end.

(** [impl fmt::Display for RuntimeError]. *)
Definition error_to_string (e : RuntimeError) : string :=
  if str_is_empty (detail e) then reason e else reason e +:+ ": " +:+ detail e.

Definition runtime_prefix : string := "runtime_error:".

Lemma reason_reserved e : starts_with runtime_prefix (reason e) = true.
Proof. by destruct e. Qed.

#[export] Hint Resolve reason_reserved : acs.
