(* ===== verification/Json.v ===== *)
(** * JSON values: [serde_json::Value]

    The engine works on [serde_json::Value] throughout. A number is one of
    serde_json's three representations: an unsigned 64-bit integer, a
    negative 64-bit integer, or a finite double, kept as its bit pattern
    with the two zeros identified. An object is a [serde_json::Map], which
    without [preserve_order] is a [BTreeMap]. *)

From S2P Require Import Prelude OrdMap RustStd.

Inductive Number : Type :=
  | PosInt (n : N)
  | NegInt (n : Z)
  | Float (bits : N).

#[export] Instance Number_eq_dec : EqDecision Number.
Proof. solve_decision. Defined.

Unset Elimination Schemes.
Inductive JsonValue : Type :=
  | JNull
  | JBool (b : bool)
  | JNumber (n : Number)
  | JString (s : string)
  | JArray (items : list JsonValue)
  | JObject (map : btree string JsonValue).
Set Elimination Schemes.

Notation JsonMap := (btree string JsonValue).

(** Induction through arrays and objects. *)
Section JsonValue_ind.
Context (P : JsonValue → Prop)
  (Hnull : P JNull) (Hbool : ∀ b, P (JBool b)) (Hnum : ∀ n, P (JNumber n))
  (Hstr : ∀ s, P (JString s))
  (Harr : ∀ items, Forall P items → P (JArray items))
  (Hobj : ∀ map : JsonMap, Forall (λ e, P e.2) map → P (JObject map)).

Fixpoint JsonValue_ind (v : JsonValue) : P v :=
  match v with
  | JNull => Hnull
  | JBool b => Hbool b
  | JNumber n => Hnum n
  | JString s => Hstr s
  | JArray items => Harr items
      ((fix go (l : list JsonValue) : Forall P l :=
        match l with
        | [] => Forall_nil_2 _
        | x :: l => Forall_cons_2 _ _ _ (JsonValue_ind x) (go l)
        end) items)
  | JObject map => Hobj map
      ((fix go (l : JsonMap) : Forall (λ e, P e.2) l :=
        match l with
        | [] => Forall_nil_2 _
        | e :: l => Forall_cons_2 _ _ _ (JsonValue_ind e.2) (go l)
        end) map)
  end.
End JsonValue_ind.

#[export] Instance JsonValue_eq_dec : EqDecision JsonValue.
Proof.
  refine (fix go (x y : JsonValue) : Decision (x = y) :=
    match x, y with
    | JNull, JNull => left _
    | JBool a, JBool b => cast_if (decide (a = b))
    | JNumber a, JNumber b => cast_if (decide (a = b))
    | JString a, JString b => cast_if (decide (a = b))
    | JArray a, JArray b => cast_if (@decide (a = b) (@list_eq_dec _ go a b))
    | JObject a, JObject b =>
        cast_if (@decide (a = b) (@list_eq_dec _ (@prod_eq_dec _ _ _ go) a b))
    | _, _ => right _
    end); try clear go; abstract congruence.
Defined.

(** ** Accessors of [serde_json::Value] *)

Definition as_object (v : JsonValue) : option JsonMap :=
  match v with JObject m => Some m | _ => None end.
Definition as_array (v : JsonValue) : option (list JsonValue) :=
  match v with JArray l => Some l | _ => None end.
Definition as_str (v : JsonValue) : option string :=
  match v with JString s => Some s | _ => None end.
Definition as_u64 (v : JsonValue) : option N :=
  match v with JNumber (PosInt n) => Some n | _ => None end.
(** [Value::get] with a string index. *)
Definition json_get (key : string) (v : JsonValue) : option JsonValue :=
  match v with JObject m => bt_get key m | _ => None end.

(** Every object in the value is a map: its keys ascend. *)
Inductive json_wf : JsonValue → Prop :=
  | json_wf_null : json_wf JNull
  | json_wf_bool b : json_wf (JBool b)
  | json_wf_number n : json_wf (JNumber n)
  | json_wf_string s : json_wf (JString s)
  | json_wf_array items : Forall json_wf items → json_wf (JArray items)
  | json_wf_object m : bt_wf m → Forall (λ e, json_wf e.2) m → json_wf (JObject m).

(** Collection nesting: [0] for a scalar. *)
Fixpoint json_depth (v : JsonValue) : N :=
  match v with
  | JArray items => 1 + foldr (λ x acc, N.max (json_depth x) acc) 0 items
  | JObject m => 1 + foldr (λ e acc, N.max (json_depth e.2) acc) 0 m
  | _ => 0
  end%N.

#[export] Hint Constructors json_wf : acs.

(** ** serde_json's text functions

    [serde_json] is a third-party crate: its serializer and its string
    literal parser are operations the model is given. *)
Class SerdeJson := {
  (** [serde_json::to_string(&Value)]; the error is its message. *)
  to_string : JsonValue → result string string;
  (** [serde_json::from_str::<String>]. *)
  string_from_str : string → result string string;
}.

(** [serde_json::from_str::<Value>], with the error's text. *)
Class SerdeValue := { value_from_str : string → result string JsonValue }.
