(* ===== verification/AgentHooks.v ===== *)
(** * The agent-hooks contract as the engine uses it

    [agent-hooks-sdk] and [sha2] are third-party crates. Their data types
    appear with the members the engine reads and builds; their functions
    are the operations of the classes below, and the documented behaviour
    a theorem relies on is stated in the [Laws] classes. *)

From S2P Require Import Prelude OrdMap RustStd Json.

(** ** Contract data *)

Inductive InterceptionPoint : Type :=
  | AgentStartup | Input | PreModelCall | PostModelCall
  | PreToolCall | PostToolCall | Output | AgentShutdown.

#[export] Instance InterceptionPoint_eq_dec : EqDecision InterceptionPoint.
Proof. solve_decision. Defined.

Definition all_points : list InterceptionPoint :=
  [AgentStartup; Input; PreModelCall; PostModelCall; PreToolCall; PostToolCall; Output; AgentShutdown].


(** [Decision::Transform] is [Rewrite] here: Rocq's [Transform] is the record. *)
Inductive Decision : Type := Allow | Deny | Rewrite.

#[export] Instance Decision_eq_dec : EqDecision Decision.
Proof. solve_decision. Defined.

Inductive EnforcementMode : Type := Enforce | EvaluateOnly.

#[export] Instance EnforcementMode_eq_dec : EqDecision EnforcementMode.
Proof. solve_decision. Defined.

Record Warning := mkWarning { w_reason : option string; w_message : option string }.
Record Transform := mkTransform { t_path : string; t_value : JsonValue }.
Record Evidence := mkEvidence {
  artefact : option string;
  verification_pointers : btree string string }.

Record Verdict := mkVerdict {
  v_decision : Decision;
  v_reason : option string;
  v_message : option string;
  v_warnings : list Warning;
  v_approval : option JsonMap;
  v_transform : option Transform;
  v_evidence : option Evidence;
  v_result_labels : list string }.

#[export] Instance Warning_eq_dec : EqDecision Warning.
Proof. solve_decision. Defined.
#[export] Instance Transform_eq_dec : EqDecision Transform.
Proof. solve_decision. Defined.
#[export] Instance Evidence_eq_dec : EqDecision Evidence.
Proof. solve_decision. Defined.
#[export] Instance Verdict_eq_dec : EqDecision Verdict.
Proof. solve_decision. Defined.

(** A verdict with nothing but its decision. *)
Definition bare_verdict (d : Decision) : Verdict :=
  mkVerdict d None None [] None None None [].

(** ** Operations *)

Class AgentHooks := {
  (** [InterceptionPoint::as_str] and its [FromStr]. *)
  point_as_str : InterceptionPoint → string;
  point_from_str : string → option InterceptionPoint;
  (** The position of a point in the derived [Ord]. *)
  point_rank : InterceptionPoint → N;
  (** [Decision::as_str]. *)
  decision_as_str : Decision → string;
  (** [Verdict::allow]. *)
  verdict_allow : Verdict;
  (** [Verdict::validate]; the error is its [Debug] text. *)
  verdict_validate : Verdict → result string ();
  (** [parse_transform_path]; only its success and its error are used. *)
  parse_transform_path : string → result string ();
  (** [serde_json::to_value(&Evidence)] through the crate's [Serialize]. *)
  evidence_to_value : Evidence → option JsonValue;
  (** [agent_hooks::canonical_json], RFC 8785. *)
  rfc8785 : JsonValue → string;
  (** [agent_hooks::EVIDENCE_MAX_BYTES]. *)
  evidence_max_bytes : N;
}.

(** [sha2::Sha256::digest]. *)
Class Sha2 := { sha256 : list Ascii.ascii → list Ascii.ascii }.

(** ** Documented behaviour *)

Class AgentHooksLaws `{AgentHooks} := {
  point_str_parse p : point_from_str (point_as_str p) = Some p;
  point_rank_inj p q : point_rank p = point_rank q → p = q;
  verdict_allow_bare : verdict_allow = bare_verdict Allow;
}.

Class Sha2Laws `{Sha2} := { sha256_length bytes : length (sha256 bytes) = 32 }.

(** The derived order of the points keys [BTreeMap<InterceptionPoint, _>]. *)
#[export, refine] Instance point_order `{AgentHooksLaws} : KeyOrder InterceptionPoint :=
  {| key_ltb p q := (point_rank p <? point_rank q)%N |}.
Proof.
  all: intros; rewrite ?N.ltb_lt, ?N.ltb_ge, ?N.ltb_irrefl in *; try lia; try done.
  apply point_rank_inj. lia.
Defined.

(** The eight points as a [Countable] type, for sets of bindings. *)
Definition point_code (p : InterceptionPoint) : nat :=
  match p with
  | AgentStartup => 0 | Input => 1 | PreModelCall => 2 | PostModelCall => 3
  | PreToolCall => 4 | PostToolCall => 5 | Output => 6 | AgentShutdown => 7
  end.
#[export, refine] Instance InterceptionPoint_countable : Countable InterceptionPoint :=
  inj_countable' point_code (λ n, nth n all_points AgentStartup) _.
Proof. by intros []. Defined.
