(* ===== verification/Concrete.v ===== *)
(** * Concrete stand-ins for the third-party operations

    Executable instances of the interface classes, used only to evaluate
    the model on samples and to show that the hypotheses of the theorems
    can hold. No theorem about the engine is proved from them. *)

From S2P Require Import Prelude OrdMap RustStd Json AgentHooks.

(** ** A JSON printer *)

Definition quote_char : Ascii.ascii := byte_of 34.
Definition backslash : Ascii.ascii := byte_of 92.

Fixpoint escape (s : string) : string :=
  match s with
  | EmptyString => ""
  | String c s =>
      if decide (c = quote_char ∨ c = backslash)
      then String backslash (String c (escape s)) else String c (escape s)
  end.
Definition quoted (s : string) : string :=
  String quote_char (escape s) +:+ String quote_char "".

Definition number_text (n : Number) : string :=
  match n with
  | PosInt n => fmt_N n
  | NegInt z => "-" +:+ fmt_N (Z.abs_N z)
  | Float bits => "f" +:+ fmt_N bits
  end.

Fixpoint json_text (v : JsonValue) : string :=
  match v with
  | JNull => "null"
  | JBool b => if b then "true" else "false"
  | JNumber n => number_text n
  | JString s => quoted s
  | JArray items => "[" +:+ join "," (json_text <$> items) +:+ "]"
  | JObject m => "{" +:+ join "," ((λ e, quoted e.1 +:+ ":" +:+ json_text e.2) <$> m) +:+ "}"
  end.

Fixpoint unescape (s : string) : option string :=
  match s with
  | String c s =>
      if decide (c = quote_char) then if decide (s = "") then Some "" else None
      else if decide (c = backslash)
      then match s with String d s => String d <$> unescape s | EmptyString => None end
      else String c <$> unescape s
  | EmptyString => None
  end.

Definition demo_serde : SerdeJson := {|
  to_string v := Ok (json_text v);
  string_from_str s :=
    match s with
    | String c s => if decide (c = quote_char)
        then match unescape s with Some t => Ok t | None => Err "invalid literal" end
        else Err "expected string"
    | EmptyString => Err "EOF"
    end |}.

(** ** The agent-hooks operations, as documented *)

Definition point_name (p : InterceptionPoint) : string :=
  match p with
  | AgentStartup => "agent_startup" | Input => "input"
  | PreModelCall => "pre_model_call" | PostModelCall => "post_model_call"
  | PreToolCall => "pre_tool_call" | PostToolCall => "post_tool_call"
  | Output => "output" | AgentShutdown => "agent_shutdown"
  end.

Definition demo_evidence_value (e : Evidence) : JsonValue :=
  JObject
    (match artefact e with Some a => [("artefact", JString a)] | None => [] end ++
     match verification_pointers e with
     | [] => []
     | ps => [("verification_pointers", JObject ((λ p, (p.1, JString p.2)) <$> ps))]
     end).

Definition demo_validate (cap : N) (v : Verdict) : result string () :=
  if match v_reason v with Some r => starts_with "host_error:" r | None => false end
  then Err "ReservedReason"
  else if match v_approval v with Some _ => bool_decide (v_decision v ≠ Deny) | None => false end
  then Err "ApprovalOnNonDeny"
  else if negb (bool_decide (v_decision v = Rewrite ↔ is_Some (v_transform v)))
  then Err "TransformMismatch"
  else if match v_evidence v with
          | Some e => (cap <? str_len (json_text (demo_evidence_value e)))%N | None => false end
  then Err "EvidenceTooLarge"
  else Ok ().

Definition demo_hooks_cap (cap : N) : AgentHooks := {|
  point_as_str := point_name;
  point_from_str s := list_find (λ p, point_name p = s) all_points ≫= λ ip, Some ip.2;
  point_rank p := N.of_nat (point_code p);
  decision_as_str d := match d with Allow => "allow" | Deny => "deny" | Rewrite => "transform" end;
  verdict_allow := bare_verdict Allow;
  verdict_validate := demo_validate cap;
  parse_transform_path s := if starts_with "$target" s then Ok () else Err "BadRoot";
  evidence_to_value e := Some (demo_evidence_value e);
  rfc8785 := json_text;
  evidence_max_bytes := cap |}.

Definition demo_hooks : AgentHooks := demo_hooks_cap 10240.

Definition demo_hooks_laws : @AgentHooksLaws demo_hooks.
Proof. split; [by intros []|by intros [] []|done]. Defined.

(** A stand-in digest: the first 32 bytes, padded. *)
Definition demo_sha : Sha2 :=
  {| sha256 bytes := take 32 (bytes ++ replicate 32 (byte_of 0)) |}.

Definition demo_sha_laws : @Sha2Laws demo_sha.
Proof. split. intros bytes. unfold sha256, demo_sha. rewrite length_take, length_app, length_replicate. lia. Defined.
