(* ===== verification/Constants.v ===== *)
(** * Shared literals: [engine/src/constants.rs]

    The reserved strings of the engine, under the names of the source
    with the Rust module as a prefix where two modules share a name. *)

From S2P Require Import Prelude RustStd.

(** [mod annotation]. *)
Definition annotation_FROM : string := "from".
Definition annotation_INPUT_FROM : string := "input_from".
Definition annotation_TYPE : string := "type".
Definition annotation_NEEDS : string := "annotation_needs".

(** [mod sha256]. *)
Definition DIGEST_BYTES : nat := 32.
Definition HEX_LEN : nat := 64.

(** [mod reserved_reason]. *)
Definition ANNOTATION_TIMEOUT : string := "runtime_error:annotation_timeout".
Definition ANNOTATION_FAILED : string := "runtime_error:annotation_failed".

(** [mod manifest_version]. *)
Record Contract := mkContract { contract_name : string; annotation_chaining : bool }.

Definition ANNOTATION_CHAINING : string := "0.5.0-alpha.1".
Definition CONTRACTS : list Contract :=
  [mkContract "0.4.0-alpha.1" false; mkContract ANNOTATION_CHAINING true].
Definition SUPPORTED : list string := contract_name <$> CONTRACTS.

Definition contract (version : string) : option Contract :=
  snd <$> list_find (λ c, contract_name c = trim version) CONTRACTS.

(** [mod engine]. *)
Definition engine_CEDAR : string := "cedar".
Definition engine_CUSTOM : string := "custom".
Definition engine_REGO : string := "rego".
Definition engine_TEST : string := "test".

(** [mod cedar_field]. *)
Definition cedar_POLICY_SET : string := "policy_set".
Definition cedar_POLICY_PATH : string := "policy_path".
Definition cedar_ENTITIES_PATH : string := "entities_path".
Definition cedar_SCHEMA_PATH : string := "schema_path".
Definition cedar_field_ALL : list string :=
  [cedar_POLICY_SET; cedar_POLICY_PATH; cedar_ENTITIES_PATH; cedar_SCHEMA_PATH].

(** [mod host_env_secret_field]. *)
Definition host_env_secret_ALL : list string :=
  ["api_key_env"; "aws_access_key_id_env"; "aws_secret_access_key_env"; "aws_session_token_env"].

(** [mod inline_credential_field]. *)
Definition inline_credential_ALL : list string :=
  ["api_key"; "headers"; "aws_access_key_id"; "aws_secret_access_key"; "aws_session_token"].

(** [mod remote_bundle] and [mod provenance]. *)
Definition BUNDLE_URL : string := "bundle_url".
Definition MARKER : string := "URL sourced manifest".
Definition HOST_MARKED_SOURCE : string := "host-marked remote content".

(** [mod policy_input]. *)
Definition pi_ANNOTATIONS : string := "annotations".
Definition pi_INTERVENTION_POINT : string := "intervention_point".
Definition pi_KIND : string := "kind".
Definition pi_PATH : string := "path".
Definition pi_SNAPSHOT : string := "snapshot".
Definition pi_POLICY_TARGET : string := "policy_target".
Definition pi_TOOL : string := "tool".
Definition pi_VALUE : string := "value".
