(* ===== verification/Stream.v ===== *)
(** * Release accounting for streams: [engine/src/stream_session.rs]

    Data, the watermark and the session. A method taking [&mut self]
    returns the new state with its result; a method that leaves the state
    alone on its error path returns [result]. Offsets are [u32] values. *)

From S2P Require Import Prelude OrdMap RustStd Json AgentHooks.

(** ** Constants *)

Definition MAX_RUNE_OFFSET : N := i32_max.
Definition STREAMING_FAIL_CLOSED_REASON : string := "host_error:streaming_unsupported".
Definition VERDICT_INVALID_REASON : string := "host_error:verdict_invalid".

(** ** Data *)

Inductive SafetyLevel : Type := Blocking | CompleteLevel | Deferred.
Inductive StreamSourceType : Type := UserRequest | ModelGenerated.
Inductive StreamTrack : Type := Request | Response.
Inductive SegmentOutcome : Type := Cleared | OutcomeTransformed | OutcomeDenied.

Record RuneRange := mkRange { r_start : N; r_end : N }.

Record StreamSpan := mkSpan { sp_source_type : StreamSourceType; sp_range : RuneRange }.

Inductive StreamError : Type :=
  | UnknownSafetyLevel (value : string)
  | UnknownSourceType (value : string)
  | UnknownStreamTrack (value : string)
  | UnknownSegmentOutcome (value : string)
  | NoTasks (track : StreamTrack)
  | NoTracksMediated
  | UnknownTask (track : StreamTrack) (task : string)
  | EmptySpan
  | OffsetPastEnd (offset received : N)
  | OffsetOverflow
  | PayloadsClosed
  | SessionClosed
  | TransformTooLate
  | VerdictInvalid
  | UnclearedResidue (track : StreamTrack) (pending : N)
  | NonContiguousOutcome (task : string) (expected found : N).

Inductive StreamEndReason : Type :=
  | EndComplete
  | EndDenied (track : StreamTrack) (task : string) (range : RuneRange)
  | EndRewritten (track : StreamTrack) (task : string) (range : RuneRange)
  | EndFailed (error : StreamError).

Record StreamCompletion := mkCompletion { c_reason : StreamEndReason; c_transformed : bool }.

#[export] Instance SafetyLevel_eq_dec : EqDecision SafetyLevel.
Proof. solve_decision. Defined.
#[export] Instance StreamTrack_eq_dec : EqDecision StreamTrack.
Proof. solve_decision. Defined.
#[export] Instance RuneRange_eq_dec : EqDecision RuneRange.
Proof. solve_decision. Defined.
#[export] Instance StreamError_eq_dec : EqDecision StreamError.
Proof. solve_decision. Defined.
#[export] Instance StreamEndReason_eq_dec : EqDecision StreamEndReason.
Proof. solve_decision. Defined.

(** ** Wire names *)

Definition safety_level_as_str (l : SafetyLevel) : string :=
  match l with Blocking => "blocking" | CompleteLevel => "complete" | Deferred => "deferred" end.

Definition safety_level_parse (value : string) : result StreamError SafetyLevel :=
  if decide (value = "blocking") then Ok Blocking
  else if decide (value = "complete") then Ok CompleteLevel
  else if decide (value = "deferred") then Ok Deferred
  else Err (UnknownSafetyLevel value).

Definition withholds (l : SafetyLevel) : bool :=
  match l with Blocking | CompleteLevel => true | Deferred => false end.

Definition source_type_as_str (t : StreamSourceType) : string :=
  match t with UserRequest => "user_request" | ModelGenerated => "model_generated" end.

Definition source_type_parse (value : string) : result StreamError StreamSourceType :=
  if decide (value = "user_request") then Ok UserRequest
  else if decide (value = "model_generated") then Ok ModelGenerated
  else Err (UnknownSourceType value).

Definition source_interception_point (t : StreamSourceType) : InterceptionPoint :=
  match t with UserRequest => Input | ModelGenerated => PostModelCall end.

Definition source_track (t : StreamSourceType) : StreamTrack :=
  match t with UserRequest => Request | ModelGenerated => Response end.

Definition track_as_str (t : StreamTrack) : string :=
  match t with Request => "request" | Response => "response" end.

Definition track_parse (value : string) : result StreamError StreamTrack :=
  if decide (value = "request") then Ok Request
  else if decide (value = "response") then Ok Response
  else Err (UnknownStreamTrack value).

Definition outcome_parse (value : string) : result StreamError SegmentOutcome :=
  if decide (value = "cleared") then Ok Cleared
  else if decide (value = "transformed") then Ok OutcomeTransformed
  else if decide (value = "denied") then Ok OutcomeDenied
  else Err (UnknownSegmentOutcome value).

Definition outcome_as_str (o : SegmentOutcome) : string :=
  match o with
  | Cleared => "cleared" | OutcomeTransformed => "transformed" | OutcomeDenied => "denied"
  end.

(** [StreamError::reason] and its [Display]. *)
Definition stream_error_reason (e : StreamError) : string :=
  match e with VerdictInvalid => VERDICT_INVALID_REASON | _ => STREAMING_FAIL_CLOSED_REASON end.

Definition stream_error_to_string (e : StreamError) : string :=
  match e with
  | UnknownSafetyLevel value => "unknown streaming safety level " +:+ value
  | UnknownSourceType value => "unknown stream source type " +:+ value
  | UnknownStreamTrack value => "unknown stream track " +:+ value
  | UnknownSegmentOutcome value => "unknown segment outcome " +:+ value
  | NoTasks track => "payload arrived on the unmediated " +:+ track_as_str track +:+ " track"
  | NoTracksMediated => "streaming session configured to mediate neither track"
  | UnknownTask track task =>
      "outcome named task " +:+ task +:+ " which the " +:+ track_as_str track +:+
      " track does not configure"
  | EmptySpan => "span covers no runes"
  | OffsetPastEnd offset received =>
      "outcome offset " +:+ fmt_N offset +:+ " runs past " +:+ fmt_N received +:+ " observed runes"
  | OffsetOverflow => "streaming session exceeded the offset ceiling"
  | PayloadsClosed => "streaming payload stream already closed"
  | SessionClosed => "streaming session already closed"
  | TransformTooLate => "transform outcome named text the host has already emitted"
  | VerdictInvalid => "verdict shape is invalid under the interception contract"
  | UnclearedResidue track pending =>
      track_as_str track +:+ " track ended with " +:+ fmt_N pending +:+ " uncleared runes"
  | NonContiguousOutcome task expected found =>
      "task " +:+ task +:+ " cleared through " +:+ fmt_N expected +:+
      " so an outcome starting at " +:+ fmt_N found +:+ " would release a gap"
  end.

(** [StreamEndReason::is_clean]. *)
Definition is_clean (r : StreamEndReason) : bool :=
  match r with EndComplete => true | _ => false end.

(** ** Ranges and spans *)

Definition range_is_empty (r : RuneRange) : bool := (r_end r <=? r_start r)%N.

Definition span_new (source_type : StreamSourceType) (start end_ : N)
  : result StreamError StreamSpan :=
  if (end_ <=? start)%N then Err EmptySpan
  else if (MAX_RUNE_OFFSET <? end_)%N then Err OffsetOverflow
  else Ok (mkSpan source_type (mkRange start end_)).

Definition span_track (sp : StreamSpan) : StreamTrack := source_track (sp_source_type sp).

Definition span_interception_point (sp : StreamSpan) : InterceptionPoint :=
  source_interception_point (sp_source_type sp).

(** ** The watermark *)

Record StreamWatermark := mkWatermark {
  wm_tasks : btree string N;
  wm_confirmed : N;
  wm_received : N }.

Definition for_track (tasks : list string) (start_offset : N)
  : result StreamError StreamWatermark :=
  if (MAX_RUNE_OFFSET <? start_offset)%N then Err OffsetOverflow
  else Ok (mkWatermark (bt_of_list ((λ task, (task, start_offset)) <$> tasks))
             start_offset start_offset).

(** [values().copied().min()]. *)
Fixpoint min_list (l : list N) : option N :=
  match l with
  | [] => None
  | x :: l => match min_list l with Some y => Some (N.min x y) | None => Some x end
  end.

Definition watermark_tasks (w : StreamWatermark) : list string := bt_keys (wm_tasks w).

(** [saturating_sub] is [N]'s truncated subtraction. *)
Definition watermark_pending (w : StreamWatermark) : N := (wm_received w - wm_confirmed w)%N.

Definition uncleared (w : StreamWatermark) : N :=
  let lowest := default (wm_confirmed w) (min_list (bt_values (wm_tasks w))) in
  (wm_received w - lowest)%N.

Definition extend (w : StreamWatermark) (runes : N) : result StreamError (StreamWatermark * N) :=
  match checked_add_u32 (wm_received w) runes with
  | Some total =>
      if (total <=? MAX_RUNE_OFFSET)%N
      then Ok (mkWatermark (wm_tasks w) (wm_confirmed w) total, total)
      else Err OffsetOverflow
  | None => Err OffsetOverflow
  end.

Definition record (w : StreamWatermark) (track : StreamTrack) (task : string) (start offset : N)
  : result StreamError StreamWatermark :=
  if (wm_received w <? offset)%N then Err (OffsetPastEnd offset (wm_received w))
  else
    match bt_get task (wm_tasks w) with
    | None => Err (UnknownTask track task)
    | Some current =>
        if (offset <=? current)%N then Ok w
        else if (current <? start)%N then Err (NonContiguousOutcome task current start)
        else Ok (mkWatermark (bt_insert task offset (wm_tasks w)) (wm_confirmed w) (wm_received w))
    end.

Definition watermark_advance (w : StreamWatermark) : StreamWatermark * option N :=
  let minimum := default (wm_confirmed w) (min_list (bt_values (wm_tasks w))) in
  if (wm_confirmed w <? minimum)%N
  then (mkWatermark (wm_tasks w) minimum (wm_received w), Some minimum)
  else (w, None).

(** ** Verdict shape *)

Section verdict_shape.
Context `{AgentHooks}.

Definition RESERVED_REASON_PREFIXES : list string := ["runtime_error:"; "host_error:"].

Definition without_reason (v : Verdict) : Verdict :=
  mkVerdict (v_decision v) None (v_message v) (v_warnings v) (v_approval v)
    (v_transform v) (v_evidence v) (v_result_labels v).

Definition host_authored_denial (v : Verdict) : bool :=
  bool_decide (v_decision v = Deny) &&
  match v_reason v with Some reason => starts_with "host_error:" reason | None => false end.

Definition verdict_shape_is_invalid (v : Verdict) : bool :=
  let contract_check :=
    if host_authored_denial v then verdict_validate (without_reason v)
    else verdict_validate v in
  if negb (is_ok contract_check) then true
  else if existsb (λ reason, existsb (λ prefix, starts_with prefix reason) RESERVED_REASON_PREFIXES)
            (omap w_reason (v_warnings v)) then true
  else match v_transform v with
       | Some transform => negb (is_ok (parse_transform_path (t_path transform)))
       | None => false
       end.
End verdict_shape.

(** ** The session *)

Record StreamSessionConfig := mkConfig {
  safety_level : SafetyLevel;
  request_start_rune_offset : N;
  response_start_rune_offset : N;
  request_tasks : list string;
  response_tasks : list string }.

Definition tasks_for (c : StreamSessionConfig) (track : StreamTrack) : list string :=
  match track with Request => request_tasks c | Response => response_tasks c end.

Record StreamSession := mkSession {
  s_config : StreamSessionConfig;
  s_request : StreamWatermark;
  s_response : StreamWatermark;
  s_ended : option StreamEndReason;
  s_payloads_closed : bool }.

Definition session_new (config : StreamSessionConfig) : result StreamError StreamSession :=
  if bool_decide (request_tasks config = []) && bool_decide (response_tasks config = [])
  then Err NoTracksMediated
  else
    request ← for_track (request_tasks config) (request_start_rune_offset config);
    response ← for_track (response_tasks config) (response_start_rune_offset config);
    Ok (mkSession config request response None false).

Definition is_ended (s : StreamSession) : bool :=
  match s_ended s with Some _ => true | None => false end.

Definition transformed (s : StreamSession) : bool :=
  match s_ended s with Some (EndRewritten _ _ _) => true | _ => false end.

Definition watermark (s : StreamSession) (track : StreamTrack) : StreamWatermark :=
  match track with Request => s_request s | Response => s_response s end.

(** Writing through [watermark_mut]. *)
Definition set_watermark (s : StreamSession) (track : StreamTrack) (w : StreamWatermark)
  : StreamSession :=
  match track with
  | Request => mkSession (s_config s) w (s_response s) (s_ended s) (s_payloads_closed s)
  | Response => mkSession (s_config s) (s_request s) w (s_ended s) (s_payloads_closed s)
  end.

Definition set_ended (s : StreamSession) (r : StreamEndReason) : StreamSession :=
  mkSession (s_config s) (s_request s) (s_response s) (Some r) (s_payloads_closed s).

Definition close_payloads (s : StreamSession) : StreamSession :=
  mkSession (s_config s) (s_request s) (s_response s) (s_ended s) true.

Definition safe_offset (s : StreamSession) (track : StreamTrack) : option N :=
  if is_ended s then None else Some (wm_confirmed (watermark s track)).

Definition session_pending (s : StreamSession) (track : StreamTrack) : N :=
  watermark_pending (watermark s track).

(** [fail] keeps the first terminal reason and hands the error back. *)
Definition fail (s : StreamSession) (error : StreamError) : StreamSession * StreamError :=
  match s_ended s with
  | None => (set_ended s (EndFailed error), error)
  | Some _ => (s, error)
  end.

(** [return Err(self.fail(error))]. *)
Definition fail_with {A} (s : StreamSession) (error : StreamError)
  : StreamSession * result StreamError A :=
  let (s', e) := fail s error in (s', Err e).

Definition observe (s : StreamSession) (source_type : StreamSourceType) (runes : N)
  : StreamSession * result StreamError N :=
  if is_ended s then (s, Err SessionClosed)
  else if s_payloads_closed s then fail_with s PayloadsClosed
  else
    let track := source_track source_type in
    if bool_decide (tasks_for (s_config s) track = []) then fail_with s (NoTasks track)
    else
      match extend (watermark s track) runes with
      | Ok (w, end_) => (set_watermark s track w, Ok end_)
      | Err error => fail_with s error
      end.

Definition observe_text (s : StreamSession) (source_type : StreamSourceType) (text : string)
  : StreamSession * result StreamError N :=
  let runes := chars_count text in
  if (runes <=? u32_max)%N then observe s source_type runes
  else if is_ended s then (s, Err SessionClosed)
  else fail_with s OffsetOverflow.

Definition record_outcome (s : StreamSession) (task : string) (sp : StreamSpan)
  (outcome : SegmentOutcome) : StreamSession * result StreamError () :=
  if is_ended s then (s, Err SessionClosed)
  else
    let track := span_track sp in
    if negb (bool_decide (task ∈ tasks_for (s_config s) track))
    then fail_with s (UnknownTask track task)
    else if range_is_empty (sp_range sp) then fail_with s EmptySpan
    else
      let received := wm_received (watermark s track) in
      if (received <? r_end (sp_range sp))%N
      then fail_with s (OffsetPastEnd (r_end (sp_range sp)) received)
      else
        match outcome with
        | OutcomeDenied => (set_ended s (EndDenied track task (sp_range sp)), Ok ())
        | OutcomeTransformed =>
            if negb (withholds (safety_level (s_config s))) then fail_with s TransformTooLate
            else if (0 <? wm_confirmed (watermark s track))%N then fail_with s TransformTooLate
            else (set_ended s (EndRewritten track task (sp_range sp)), Ok ())
        | Cleared =>
            match record (watermark s track) track task (r_start (sp_range sp)) (r_end (sp_range sp)) with
            | Ok w => (set_watermark s track w, Ok ())
            | Err error => fail_with s error
            end
        end.

(** The outcome a well-formed verdict stands for. *)
Definition decision_outcome (d : Decision) : SegmentOutcome :=
  match d with Allow => Cleared | Deny => OutcomeDenied | Rewrite => OutcomeTransformed end.

Definition record_verdict `{AgentHooks} (s : StreamSession) (task : string) (sp : StreamSpan)
  (verdict : Verdict) : StreamSession * result StreamError () :=
  if verdict_shape_is_invalid verdict then
    if is_ended s then (s, Err SessionClosed) else fail_with s VerdictInvalid
  else record_outcome s task sp (decision_outcome (v_decision verdict)).

Definition session_advance (s : StreamSession) (track : StreamTrack) : StreamSession * option N :=
  if is_ended s then (s, None)
  else
    let (w, moved) := watermark_advance (watermark s track) in
    (set_watermark s track w, moved).

Definition end_of_payloads (s : StreamSession) : StreamSession := close_payloads s.

Definition completion (s : StreamSession) (reason : StreamEndReason) : StreamCompletion :=
  mkCompletion reason (transformed s).

(** The settlement loop over both tracks: the first residue wins. *)
Fixpoint first_residue (s : StreamSession) (tracks : list StreamTrack) : option StreamError :=
  match tracks with
  | [] => None
  | track :: tracks =>
      let pending := uncleared (watermark s track) in
      if (0 <? pending)%N then Some (UnclearedResidue track pending) else first_residue s tracks
  end.

Definition finish (s : StreamSession) : StreamSession * StreamCompletion :=
  match s_ended s with
  | Some reason => (s, completion s reason)
  | None =>
      let s := close_payloads s in
      match first_residue s [Request; Response] with
      | Some error =>
          let reason := EndFailed error in
          let s := set_ended s reason in (s, completion s reason)
      | None =>
          let s := set_watermark s Request (watermark_advance (s_request s)).1 in
          let s := set_watermark s Response (watermark_advance (s_response s)).1 in
          let s := set_ended s EndComplete in (s, completion s EndComplete)
      end
  end.
