(* ===== verification/StreamSafety.v ===== *)
(** * What the release accounting guarantees

    The session as a state machine: [exec] runs one call, [reachable]
    collects every state a host can drive a session to together with the
    log of the clearances the session accepted. Every call decomposes into
    the atomic transitions of [micro]; an invariant is proved once per
    transition and holds of every reachable session. *)

From S2P Require Import Prelude OrdMap RustStd Json AgentHooks Concrete Stream.

Section stream_machine.
Context `{AgentHooks}.

(** ** Calls, and the log of accepted clearances *)

Inductive StreamOp : Type :=
  | OpObserve (source_type : StreamSourceType) (runes : N)
  | OpObserveText (source_type : StreamSourceType) (text : string)
  | OpOutcome (task : string) (sp : StreamSpan) (outcome : SegmentOutcome)
  | OpVerdict (task : string) (sp : StreamSpan) (verdict : Verdict)
  | OpAdvance (track : StreamTrack)
  | OpEndOfPayloads
  | OpFinish.

Definition exec (s : StreamSession) (op : StreamOp) : StreamSession :=
  match op with
  | OpObserve source_type runes => (observe s source_type runes).1
  | OpObserveText source_type text => (observe_text s source_type text).1
  | OpOutcome task sp outcome => (record_outcome s task sp outcome).1
  | OpVerdict task sp verdict => (record_verdict s task sp verdict).1
  | OpAdvance track => (session_advance s track).1
  | OpEndOfPayloads => end_of_payloads s
  | OpFinish => (finish s).1
  end.

(** [task] cleared [cl_range] of [cl_track]. *)
Record Clearance := mkClearance {
  cl_track : StreamTrack; cl_task : string; cl_range : RuneRange }.

Definition covers (cl : Clearance) (track : StreamTrack) (task : string) (rune : N) : Prop :=
  cl_track cl = track ∧ cl_task cl = task ∧
  (r_start (cl_range cl) <= rune < r_end (cl_range cl))%N.

(** What the call adds to the log: an [allow] the session accepted. *)
Definition clearances (s : StreamSession) (op : StreamOp) : list Clearance :=
  match op with
  | OpOutcome task sp Cleared =>
      if is_ok (record_outcome s task sp Cleared).2
      then [mkClearance (span_track sp) task (sp_range sp)] else []
  | OpVerdict task sp verdict =>
      if bool_decide (v_decision verdict = Allow) && is_ok (record_verdict s task sp verdict).2
      then [mkClearance (span_track sp) task (sp_range sp)] else []
  | _ => []
  end.

Inductive reachable (c : StreamSessionConfig) : list Clearance → StreamSession → Prop :=
  | reach_new s : session_new c = Ok s → reachable c [] s
  | reach_call log s op :
      reachable c log s → reachable c (log ++ clearances s op) (exec s op).

Definition run (s : StreamSession) (ops : list StreamOp) : StreamSession :=
  foldl exec s ops.

(** ** Atomic transitions *)

(** Which terminal reasons a session in state [s] may take. *)
Definition may_end (s : StreamSession) (r : StreamEndReason) : Prop :=
  match r with
  | EndComplete =>
      ∀ track, uncleared (watermark s track) = 0%N ∧
               (watermark_advance (watermark s track)).1 = watermark s track
  | EndRewritten track _ _ =>
      withholds (safety_level (s_config s)) = true ∧ wm_confirmed (watermark s track) = 0%N
  | EndDenied track task range =>
      task ∈ tasks_for (s_config s) track ∧
      (r_start range < r_end range <= wm_received (watermark s track))%N
  | EndFailed _ => True
  end.

Inductive micro (s : StreamSession) : list Clearance → StreamSession → Prop :=
  | micro_end r : s_ended s = None → may_end s r → micro s [] (set_ended s r)
  | micro_close : micro s [] (close_payloads s)
  | micro_extend track runes w end_ :
      s_ended s = None → tasks_for (s_config s) track ≠ [] →
      extend (watermark s track) runes = Ok (w, end_) →
      micro s [] (set_watermark s track w)
  | micro_record track task range w :
      s_ended s = None → task ∈ tasks_for (s_config s) track →
      (r_start range < r_end range)%N →
      record (watermark s track) track task (r_start range) (r_end range) = Ok w →
      micro s [mkClearance track task range] (set_watermark s track w)
  | micro_advance track :
      s_ended s = None →
      micro s [] (set_watermark s track (watermark_advance (watermark s track)).1).

Inductive micros (s : StreamSession) : list Clearance → StreamSession → Prop :=
  | micros_nil : micros s [] s
  | micros_cons log1 s1 log2 s2 :
      micro s log1 s1 → micros s1 log2 s2 → micros s (log1 ++ log2) s2.

Lemma micros_one s log s' : micro s log s' → micros s log s'.
Proof. intros Hm. rewrite <-(app_nil_r log). econstructor; [done|constructor]. Qed.

Lemma micros_step s s1 log s2 : micro s [] s1 → micros s1 log s2 → micros s log s2.
Proof. intros H1 H2. exact (micros_cons s [] s1 log s2 H1 H2). Qed.

Lemma micros_fail {A} s error :
  s_ended s = None → micros s [] (@fail_with A s error).1.
Proof.
  intros He. unfold fail_with, fail. rewrite He. apply micros_one. by constructor.
Qed.

Lemma is_ended_false s : is_ended s = false ↔ s_ended s = None.
Proof. unfold is_ended. by destruct (s_ended s). Qed.

Lemma micros_observe s source_type runes : micros s [] (observe s source_type runes).1.
Proof.
  unfold observe. destruct (is_ended s) eqn:He; [constructor|]. apply is_ended_false in He.
  destruct (s_payloads_closed s); [by apply micros_fail|].
  case_bool_decide; [by apply micros_fail|].
  destruct (extend _ runes) as [[w end_]|error] eqn:Hx; [|by apply micros_fail].
  apply micros_one. by econstructor.
Qed.

Lemma micros_outcome s task sp outcome :
  micros s (clearances s (OpOutcome task sp outcome)) (record_outcome s task sp outcome).1.
Proof.
  assert (∀ error, s_ended s = None → record_outcome s task sp outcome = fail_with s error →
    micros s (clearances s (OpOutcome task sp outcome)) (record_outcome s task sp outcome).1) as Hfail.
  { intros error He Heq. cbn. rewrite Heq.
    replace (match outcome with Cleared => _ | _ => _ end) with (@nil Clearance);
      [by apply micros_fail|].
    destruct outcome; try done. rewrite Heq. unfold fail_with, fail. by rewrite He. }
  destruct (is_ended s) eqn:Hended.
  { cbn. unfold record_outcome. rewrite Hended. destruct outcome; constructor. }
  apply is_ended_false in Hended as He.
  destruct (bool_decide (task ∈ tasks_for (s_config s) (span_track sp))) eqn:Ht;
    [|eapply (Hfail (UnknownTask _ _)); [done|]; unfold record_outcome; by rewrite Hended, Ht].
  destruct (range_is_empty (sp_range sp)) eqn:Hr;
    [eapply (Hfail EmptySpan); [done|]; unfold record_outcome; by rewrite Hended, Ht, Hr|].
  destruct (wm_received (watermark s (span_track sp)) <? r_end (sp_range sp))%N eqn:Hp;
    [eapply (Hfail (OffsetPastEnd _ _)); [done|]; unfold record_outcome; by rewrite Hended, Ht, Hr, Hp|].
  unfold range_is_empty in Hr. b2p.
  cbn. unfold record_outcome. rewrite Hended, bool_decide_true by done. cbn.
  unfold range_is_empty. rewrite (proj2 (N.leb_gt _ _) Hr), (proj2 (N.ltb_ge _ _) Hp).
  destruct outcome.
  - destruct (record _ _ _ _ _) as [w|error] eqn:Hrec.
    + apply micros_one. by econstructor.
    + unfold fail_with, fail. rewrite He. apply micros_one. by constructor.
  - destruct (withholds _) eqn:Hw; [|unfold fail_with, fail; rewrite He; apply micros_one; by constructor].
    destruct (0 <? _)%N eqn:Hc; [unfold fail_with, fail; rewrite He; apply micros_one; by constructor|].
    b2p. apply micros_one. constructor; [done|]. cbn. split; [done|lia].
  - apply micros_one. constructor; [done|]. cbn. split; [done|lia].
Qed.

Lemma micros_verdict s task sp verdict :
  micros s (clearances s (OpVerdict task sp verdict)) (record_verdict s task sp verdict).1.
Proof.
  cbn. unfold record_verdict. destruct (verdict_shape_is_invalid verdict).
  - unfold fail_with, fail. destruct (is_ended s) eqn:He; [cbn; rewrite andb_false_r; constructor|].
    apply is_ended_false in He. rewrite He. cbn. rewrite andb_false_r. apply micros_one. by constructor.
  - pose proof (micros_outcome s task sp (decision_outcome (v_decision verdict))) as Hm.
    destruct (v_decision verdict); exact Hm.
Qed.

Lemma min_list_Some l m : min_list l = Some m → m ∈ l ∧ Forall (λ x, (m <= x)%N) l.
Proof.
  revert m. induction l as [|x l IH]; intros m; cbn; [done|].
  destruct (min_list l) as [y|] eqn:E.
  - intros [= <-]. destruct (IH y eq_refl) as [Hin Hall]. split.
    + destruct (N.min_spec x y) as [[_ ->]|[_ ->]]; set_solver.
    + constructor; [lia|]. eapply Forall_impl; [exact Hall|]. cbn. lia.
  - intros [= <-]. destruct l as [|z l]; [|cbn in E; by destruct (min_list l)].
    split; [set_solver|by repeat constructor].
Qed.

Lemma min_list_None l : min_list l = None ↔ l = [].
Proof. destruct l as [|x l]; cbn; [done|]. by destruct (min_list l). Qed.

(** After [advance] a second one moves nothing. *)
Lemma watermark_advance_idem w :
  (watermark_advance (watermark_advance w).1).1 = (watermark_advance w).1.
Proof.
  unfold watermark_advance.
  destruct (min_list (bt_values (wm_tasks w))) as [m|] eqn:E; cbn.
  - destruct (N.ltb_spec (wm_confirmed w) m); cbn; rewrite E; cbn.
    + by rewrite N.ltb_irrefl.
    + by rewrite (proj2 (N.ltb_ge _ _)).
  - rewrite N.ltb_irrefl. cbn. rewrite E. cbn. by rewrite N.ltb_irrefl.
Qed.

Lemma uncleared_zero_advance w :
  uncleared w = 0%N → uncleared (watermark_advance w).1 = 0%N.
Proof.
  unfold uncleared, watermark_advance.
  destruct (min_list (bt_values (wm_tasks w))) as [m|] eqn:E; cbn.
  - destruct (_ <? _)%N; cbn; by rewrite E.
  - rewrite N.ltb_irrefl. cbn. by rewrite E.
Qed.

Lemma first_residue_None s :
  first_residue s [Request; Response] = None ↔ ∀ track, uncleared (watermark s track) = 0%N.
Proof.
  cbn. split.
  - destruct (0 <? uncleared (s_request s))%N eqn:E1; [done|].
    destruct (0 <? uncleared (s_response s))%N eqn:E2; [done|].
    b2p. intros _ []; cbn; lia.
  - intros Hu. pose proof (Hu Request) as H1. pose proof (Hu Response) as H2. cbn in H1, H2.
    by rewrite H1, H2.
Qed.

Lemma micros_finish s : micros s [] (finish s).1.
Proof.
  unfold finish. destruct (s_ended s) as [reason|] eqn:He; [constructor|].
  eapply micros_step; [apply micro_close|].
  destruct (first_residue _ _) as [error|] eqn:Hres.
  { apply micros_one. by constructor. }
  pose proof (proj1 (first_residue_None _) Hres) as Hu. cbn zeta.
  eapply micros_step; [apply (micro_advance _ Request); exact He|].
  eapply micros_step; [apply (micro_advance _ Response); exact He|].
  apply micros_one. apply micro_end; [done|]. intros track. split.
  - destruct track; cbn; apply uncleared_zero_advance; [apply (Hu Request)|apply (Hu Response)].
  - destruct track; cbn; apply watermark_advance_idem.
Qed.

Lemma exec_micros s op : micros s (clearances s op) (exec s op).
Proof.
  destruct op.
  - apply micros_observe.
  - cbn. unfold observe_text. destruct (_ <=? _)%N; [apply micros_observe|].
    destruct (is_ended s) eqn:He; [constructor|]. apply micros_fail. by apply is_ended_false.
  - apply micros_outcome.
  - apply micros_verdict.
  - cbn. unfold session_advance. destruct (is_ended s) eqn:He; [constructor|].
    apply is_ended_false in He. destruct (watermark_advance (watermark s track)) as [w moved] eqn:Hw.
    apply micros_one. replace w with (watermark_advance (watermark s track)).1 by by rewrite Hw.
    by constructor.
  - apply micros_one, micro_close.
  - apply micros_finish.
Qed.

(** Rule induction: an invariant kept by the atomic transitions holds of
    every reachable session. *)
Lemma reachable_ind_micro c (I : list Clearance → StreamSession → Prop) :
  (∀ s, session_new c = Ok s → I [] s) →
  (∀ log s log' s', I log s → micro s log' s' → I (log ++ log') s') →
  ∀ log s, reachable c log s → I log s.
Proof.
  intros Hnew Hmicro log s. induction 1 as [s Hs|log s op _ IH]; [by apply Hnew|].
  revert IH. generalize (exec_micros s op). generalize (clearances s op), (exec s op).
  intros log' s' Hm. revert log. induction Hm as [s|s log1 s1 log2 s2 Hone _ IHm]; intros log HI.
  - by rewrite app_nil_r.
  - rewrite app_assoc. eapply IHm, Hmicro; done.
Qed.

(** ** The invariant *)

Definition start_of (c : StreamSessionConfig) (track : StreamTrack) : N :=
  match track with
  | Request => request_start_rune_offset c
  | Response => response_start_rune_offset c
  end.

(** Some logged clearance of [task] covers the rune. *)
Definition evaluated (log : list Clearance) (track : StreamTrack) (task : string) (rune : N) : Prop :=
  ∃ cl, cl ∈ log ∧ covers cl track task rune.

Record wm_inv (c : StreamSessionConfig) (log : list Clearance) (track : StreamTrack)
  (w : StreamWatermark) : Prop := {
  wi_wf : bt_wf (wm_tasks w);
  wi_keys : ∀ task, task ∈ bt_keys (wm_tasks w) ↔ task ∈ tasks_for c track;
  wi_start : (start_of c track <= wm_confirmed w)%N;
  wi_received : (wm_confirmed w <= wm_received w <= MAX_RUNE_OFFSET)%N;
  wi_frontier : ∀ task offset, bt_get task (wm_tasks w) = Some offset →
    (wm_confirmed w <= offset <= wm_received w)%N;
  wi_evaluated : ∀ task offset rune, bt_get task (wm_tasks w) = Some offset →
    (start_of c track <= rune < offset)%N → evaluated log track task rune;
  wi_logged : ∀ cl, cl ∈ log → cl_track cl = track →
    ∃ offset, bt_get (cl_task cl) (wm_tasks w) = Some offset ∧ (r_end (cl_range cl) <= offset)%N;
  wi_idle : tasks_for c track = [] → wm_received w = start_of c track;
}.

Definition end_inv (s : StreamSession) : Prop :=
  match s_ended s with
  | Some EndComplete => ∀ track, wm_confirmed (watermark s track) = wm_received (watermark s track)
  | Some (EndRewritten track _ _) =>
      withholds (safety_level (s_config s)) = true ∧ wm_confirmed (watermark s track) = 0%N
  | Some (EndDenied track task range) =>
      task ∈ tasks_for (s_config s) track ∧
      (r_start range < r_end range <= wm_received (watermark s track))%N
  | _ => True
  end.

Definition session_inv (c : StreamSessionConfig) (log : list Clearance) (s : StreamSession) : Prop :=
  s_config s = c ∧ (∀ track, wm_inv c log track (watermark s track)) ∧ end_inv s.

Lemma evaluated_app log log' track task rune :
  evaluated log track task rune → evaluated (log ++ log') track task rune.
Proof. intros (cl & Hcl & Hc). exists cl. set_solver. Qed.

(** Clearances of the other track leave a watermark's invariant alone. *)
Lemma wm_inv_app c log log' track w :
  Forall (λ cl, cl_track cl ≠ track) log' → wm_inv c log track w → wm_inv c (log ++ log') track w.
Proof.
  rewrite Forall_forall. intros Hlog []; split; try done.
  - intros task offset rune Hg Hr. eapply evaluated_app; eauto.
  - intros cl [Hcl|Hcl]%elem_of_app Htr; [by eapply wi_logged0|by destruct (Hlog cl)].
Qed.

Lemma for_track_get (tasks : list string) (start : N) (task : string) :
  bt_get task (bt_of_list ((λ t, (t, start)) <$> tasks)) =
  if decide (task ∈ tasks) then Some start else None.
Proof.
  unfold bt_of_list. rewrite bt_get_extend. cbn [bt_get].
  rewrite <-fmap_reverse. case_decide as Hin.
  - apply elem_of_reverse in Hin. induction (reverse tasks) as [|t ts IH]; [set_solver|].
    cbn. case_decide; [done|]. apply IH. set_solver.
  - rewrite <-elem_of_reverse in Hin. induction (reverse tasks) as [|t ts IH]; [done|].
    cbn. rewrite decide_False by set_solver. apply IH. set_solver.
Qed.

Lemma for_track_inv c track w :
  for_track (tasks_for c track) (start_of c track) = Ok w → wm_inv c [] track w.
Proof.
  unfold for_track. destruct (N.ltb_spec MAX_RUNE_OFFSET (start_of c track)); [done|].
  intros [= <-]. split; cbn [wm_tasks wm_confirmed wm_received]; try done; try lia.
  - apply bt_of_list_wf.
  - intros task. rewrite <-bt_contains_keys, bt_contains_get, for_track_get.
    case_decide; naive_solver.
  - intros task offset. rewrite for_track_get. case_decide; [|done]. intros [= <-]. lia.
  - intros task offset rune. rewrite for_track_get. case_decide; [|done]. intros [= <-]. lia.
  - by intros cl ?%not_elem_of_nil.
Qed.

Lemma extend_inv c log track w runes w' end_ :
  tasks_for c track ≠ [] → wm_inv c log track w → extend w runes = Ok (w', end_) →
  wm_inv c log track w'.
Proof.
  unfold extend, checked_add_u32. intros Hne Hw.
  destruct (N.leb_spec (wm_received w + runes) u32_max); [|done].
  destruct (N.leb_spec (wm_received w + runes) MAX_RUNE_OFFSET); [|done].
  intros [= <- <-]. destruct Hw. split; cbn; try done.
  - lia.
  - intros task offset Hg. specialize (wi_frontier0 task offset Hg). lia.
Qed.

Lemma record_inv c log track w task range w' :
  task ∈ tasks_for c track → wm_inv c log track w →
  record w track task (r_start range) (r_end range) = Ok w' →
  wm_inv c (log ++ [mkClearance track task range]) track w'.
Proof.
  unfold record. intros Ht Hw.
  destruct (N.ltb_spec (wm_received w) (r_end range)) as [|Hrecv]; [done|].
  destruct (bt_get task (wm_tasks w)) as [current|] eqn:Hcur; [|done].
  destruct (N.leb_spec (r_end range) current) as [|Hmore].
  { intros [= <-]. split; try apply Hw.
    - intros task' offset rune Hg Hr. by eapply evaluated_app, (wi_evaluated _ _ _ _ Hw).
    - intros cl [Hcl| ->%list_elem_of_singleton]%elem_of_app Htr; [by eapply (wi_logged _ _ _ _ Hw)|].
      cbn. eauto. }
  destruct (N.ltb_spec current (r_start range)) as [|Hgap]; [done|]. intros [= <-].
  pose proof (wi_frontier _ _ _ _ Hw task current Hcur) as Hfr.
  split; cbn [wm_tasks wm_confirmed wm_received]; try apply Hw.
  - apply bt_insert_wf, Hw.
  - intros task'. rewrite bt_keys_insert, (wi_keys _ _ _ _ Hw). naive_solver.
  - intros task' offset. rewrite bt_get_insert. case_decide; subst.
    + intros [= <-]. lia.
    + apply Hw.
  - intros task' offset rune. rewrite bt_get_insert. case_decide; subst.
    + intros [= <-] Hr. destruct (N.ltb_spec rune current) as [Hlt|Hge].
      * eapply evaluated_app, (wi_evaluated _ _ _ _ Hw); [done|lia].
      * exists (mkClearance track task range). split; [set_solver|].
        unfold covers; cbn. split_and!; try done; lia.
    + intros Hg Hr. eapply evaluated_app, (wi_evaluated _ _ _ _ Hw); done.
  - intros cl [Hcl| ->%list_elem_of_singleton]%elem_of_app Htr.
    + destruct (wi_logged _ _ _ _ Hw cl Hcl Htr) as (offset & Hg & Hle).
      rewrite bt_get_insert. case_decide as Heq; [|eauto].
      rewrite Heq, Hcur in Hg. simplify_eq. exists (r_end range). split; [done|lia].
    + cbn. rewrite bt_get_insert_eq. eauto.
Qed.

Lemma advance_inv c log track w :
  wm_inv c log track w → wm_inv c log track (watermark_advance w).1.
Proof.
  unfold watermark_advance. intros Hw.
  destruct (min_list (bt_values (wm_tasks w))) as [m|] eqn:Hm; cbn; [|by rewrite N.ltb_irrefl].
  destruct (N.ltb_spec (wm_confirmed w) m) as [Hlt|]; [|done].
  apply min_list_Some in Hm as [Hin Hall]. rewrite Forall_forall in Hall.
  unfold bt_values in Hin. apply list_elem_of_fmap in Hin as ([task m'] & -> & Hin).
  apply bt_elem_get in Hin; [|apply Hw]. pose proof (wi_frontier _ _ _ _ Hw _ _ Hin).
  destruct Hw. split; cbn [wm_tasks wm_confirmed wm_received]; try done.
  - cbn in *. lia.
  - cbn in *. lia.
  - intros task' offset Hg. split; [|by eapply wi_frontier0].
    apply Hall. apply bt_get_Some_elem in Hg. by apply (list_elem_of_fmap_2 snd) in Hg.
Qed.

Lemma watermark_set s track w track' :
  watermark (set_watermark s track w) track' =
  if decide (track = track') then w else watermark s track'.
Proof. by destruct track, track'. Qed.

Lemma session_new_inv c s : session_new c = Ok s → session_inv c [] s.
Proof.
  unfold session_new. intros Hs. destruct (_ && _); [done|]. inv_ok.
  split_and!; [done| |done]. intros []; cbn; by apply for_track_inv.
Qed.

Lemma set_watermark_inv c log log' s track w :
  s_ended s = None → session_inv c log s →
  Forall (λ cl, cl_track cl = track) log' → wm_inv c (log ++ log') track w →
  session_inv c (log ++ log') (set_watermark s track w).
Proof.
  intros He (Hc & Hw & _) Hlog Hnew. split_and!.
  - by destruct track.
  - intros track'. rewrite watermark_set. case_decide as Heq; [by subst|].
    apply wm_inv_app; [|apply Hw]. eapply Forall_impl; [exact Hlog|]. cbn. congruence.
  - unfold end_inv. destruct track; cbn; by rewrite He.
Qed.

(** A rune everyone cleared: nothing uncleared means the watermark can
    reach the end of the text. *)
Lemma uncleared_zero_confirmed c log track w :
  wm_inv c log track w → uncleared w = 0%N → (watermark_advance w).1 = w →
  wm_confirmed w = wm_received w.
Proof.
  unfold uncleared, watermark_advance. intros Hw.
  destruct (min_list (bt_values (wm_tasks w))) as [m|] eqn:Hm; cbn [default from_option id].
  - intros Hu. destruct (N.ltb_spec (wm_confirmed w) m) as [Hlt|Hle]; cbn.
    + intros Heq. apply (f_equal wm_confirmed) in Heq. cbn in Heq. lia.
    + intros _. destruct (wi_received _ _ _ _ Hw). lia.
  - intros Hu _. destruct (wi_received _ _ _ _ Hw). cbn in Hu. lia.
Qed.

Lemma micro_inv c log s log' s' :
  session_inv c log s → micro s log' s' → session_inv c (log ++ log') s'.
Proof.
  intros HI Hm. pose proof HI as (Hc & Hw & He).
  destruct Hm as [r Hend Hr| |track runes w end_ Hend Ht Hx|track task range w Hend Ht Hr Hx|track Hend];
    try (rewrite app_nil_r).
  - split_and!; [done|by intros []; apply (Hw Request)||apply (Hw Response)|].
    unfold end_inv. cbn. destruct r; cbn in *; try done.
    intros []; [destruct (Hr Request)|destruct (Hr Response)];
      by eapply uncleared_zero_confirmed; [apply (Hw Request)||apply (Hw Response)|..].
  - split_and!; [done|by intros []; apply (Hw Request)||apply (Hw Response)|done].
  - rewrite <-(app_nil_r log). apply set_watermark_inv; [done|done|by constructor|].
    rewrite app_nil_r. rewrite Hc in Ht. by eapply extend_inv.
  - apply set_watermark_inv; [done|done|by repeat constructor|].
    rewrite Hc in Ht. by eapply record_inv.
  - rewrite <-(app_nil_r log). apply set_watermark_inv; [done|done|by constructor|].
    rewrite app_nil_r. by apply advance_inv.
Qed.

Theorem reachable_inv c log s : reachable c log s → session_inv c log s.
Proof.
  apply reachable_ind_micro; [apply session_new_inv|]. intros log0 s0 log' s'. apply micro_inv.
Qed.
End stream_machine.

(** ** Guarantees *)

Section stream_guarantees.
Context `{AgentHooks}.
Implicit Types (c : StreamSessionConfig) (s : StreamSession) (track : StreamTrack).

(** Every rune the watermark confirmed was cleared by every task. *)
Lemma confirmed_evaluated c log s track rune :
  reachable c log s → (start_of c track <= rune < wm_confirmed (watermark s track))%N →
  tasks_for c track ≠ [] ∧
  ∀ task, task ∈ tasks_for c track → evaluated log track task rune.
Proof.
  intros Hr Hrune. destruct (reachable_inv _ _ _ Hr) as (_ & Hw & _).
  destruct (Hw track) as [_ Hkeys _ Hrecv Hfr Hev _ Hidle]. split.
  - intros Hnil. rewrite (Hidle Hnil) in Hrecv. lia.
  - intros task Ht. apply Hkeys, bt_contains_keys, bt_contains_get in Ht as [o Ho].
    eapply Hev; [done|]. specialize (Hfr _ _ Ho). lia.
Qed.

(** C5: Release safety. Whatever calls a host makes, every rune below the
    offset the session lets it emit through was cleared, in a clearance
    the session accepted, by every task configured on that track, and a
    track without tasks releases nothing. *)
Theorem safe_offset_evaluated c log s track offset rune :
  reachable c log s → safe_offset s track = Some offset →
  (start_of c track <= rune < offset)%N →
  tasks_for c track ≠ [] ∧
  ∀ task, task ∈ tasks_for c track → evaluated log track task rune.
Proof.
  intros Hr Hs Hrune. unfold safe_offset in Hs. destruct (is_ended s); simplify_eq.
  by apply (confirmed_evaluated c log s).
Qed.

(** C6: Exactness of the watermark. Right after [advance] on a live session,
    an observed rune is released if and only if every task on the track
    has cleared it and everything before it back to the start offset. *)
Theorem advance_exact c log s track rune :
  reachable c log s → is_ended s = false → tasks_for c track ≠ [] →
  (start_of c track <= rune)%N →
  (rune < wm_confirmed (watermark (session_advance s track).1 track))%N ↔
  ∀ task r, task ∈ tasks_for c track → (start_of c track <= r <= rune)%N →
    evaluated log track task r.
Proof.
  intros Hr He Hne Hstart. pose proof (reachable_inv _ _ _ Hr) as (_ & Hw & _).
  specialize (Hw track). apply advance_inv in Hw as Hw'.
  unfold session_advance. rewrite He.
  destruct (watermark_advance (watermark s track)) as [w moved] eqn:Hadv. cbn [fst].
  rewrite watermark_set, decide_True by done. cbn [fst] in Hw'.
  pose proof Hadv as Hadv2. unfold watermark_advance in Hadv2.
  destruct (min_list (bt_values (wm_tasks (watermark s track)))) as [m|] eqn:Hm.
  2: { apply min_list_None in Hm. destruct (tasks_for c track) as [|t ts] eqn:Htasks; [done|].
       assert (t ∈ bt_keys (wm_tasks (watermark s track))) as Hin
         by (apply (wi_keys _ _ _ _ Hw); rewrite Htasks; set_solver).
       unfold bt_values in Hm. apply fmap_nil_inv in Hm. rewrite Hm in Hin.
       by apply not_elem_of_nil in Hin. }
  apply min_list_Some in Hm as [Hin Hall]. rewrite Forall_forall in Hall.
  unfold bt_values in Hin. apply list_elem_of_fmap in Hin as ([tmin m'] & Heq & Hin). cbn in Heq; subst m'.
  apply bt_elem_get in Hin; [|apply Hw].
  assert (wm_confirmed w = m) as Hwm.
  { cbn in Hadv2. pose proof (wi_frontier _ _ _ _ Hw _ _ Hin).
    destruct (N.ltb_spec (wm_confirmed (watermark s track)) m); simplify_eq; cbn; lia. }
  rewrite Hwm. split.
  - intros Hlt task r Ht Hrr. apply (wi_keys _ _ _ _ Hw), bt_contains_keys, bt_contains_get in Ht as [o Ho].
    eapply (wi_evaluated _ _ _ _ Hw); [done|].
    assert (m <= o)%N.
    { apply Hall. apply bt_get_Some_elem in Ho. by apply (list_elem_of_fmap_2 snd) in Ho. }
    lia.
  - intros Hev.
    assert (tmin ∈ tasks_for c track) as Ht.
    { apply (wi_keys _ _ _ _ Hw), bt_contains_keys, bt_contains_get. eauto. }
    destruct (Hev tmin rune Ht ltac:(lia)) as (cl & Hcl & Htr & Hta & Hrange).
    destruct (wi_logged _ _ _ _ Hw cl Hcl Htr) as (o & Ho & Hle).
    rewrite Hta, Hin in Ho. simplify_eq. lia.
Qed.

(** The lowest frontier, or the confirmed offset where there is no task. *)
Lemma lowest_received c log track w :
  wm_inv c log track w → (default (wm_confirmed w) (min_list (bt_values (wm_tasks w))) <= wm_received w)%N.
Proof.
  intros Hw. destruct (wi_received _ _ _ _ Hw) as [Hle _].
  destruct (min_list _) as [n|] eqn:Hmin; [|done]. apply min_list_Some in Hmin as [Hin _].
  apply list_elem_of_fmap in Hin as ([task f] & -> & Hin). apply bt_elem_get in Hin; [|apply Hw].
  by destruct (wi_frontier _ _ _ _ Hw _ _ Hin).
Qed.

(** C34: The accounting stays in its bounds. On every reachable session,
    and for both tracks, the confirmed offset lies between the start offset
    and every task's frontier, every frontier below the observed length,
    and that within the 31-bit ceiling. So the differences the session
    reports are never cut off at zero, and observing more text is refused
    exactly when the sum would pass the ceiling and else adds it without
    wrapping. *)
Theorem watermark_bounds c log s track :
  reachable c log s →
  let w := watermark s track in
  (start_of c track <= wm_confirmed w <= wm_received w)%N ∧ (wm_received w <= MAX_RUNE_OFFSET)%N ∧
  (∀ task, task ∈ tasks_for c track ↔ is_Some (bt_get task (wm_tasks w))) ∧
  (∀ task frontier, bt_get task (wm_tasks w) = Some frontier →
    (wm_confirmed w <= frontier <= wm_received w)%N) ∧
  (watermark_pending w + wm_confirmed w = wm_received w)%N ∧
  (uncleared w + default (wm_confirmed w) (min_list (bt_values (wm_tasks w))) = wm_received w)%N ∧
  ∀ runes, extend w runes =
    if (MAX_RUNE_OFFSET <? wm_received w + runes)%N then Err OffsetOverflow
    else Ok (mkWatermark (wm_tasks w) (wm_confirmed w) (wm_received w + runes)%N, (wm_received w + runes)%N).
Proof.
  intros Hr w. destruct (reachable_inv _ _ _ Hr) as (_ & Hinv & _). specialize (Hinv track). fold w in Hinv.
  pose proof (lowest_received _ _ _ _ Hinv) as Hlow. destruct (wi_received _ _ _ _ Hinv) as [Hconf Hmax].
  split_and!; [apply Hinv|done|done| |apply Hinv| | |].
  - intros task. rewrite <-(wi_keys _ _ _ _ Hinv), <-bt_contains_keys. apply bt_contains_get.
  - unfold watermark_pending. lia.
  - unfold uncleared. cbn zeta. lia.
  - intros runes. unfold extend, checked_add_u32, MAX_RUNE_OFFSET, i32_max, u32_max in *.
    destruct (N.leb_spec (wm_received w + runes) 4294967295), (N.leb_spec (wm_received w + runes) 2147483647),
      (N.ltb_spec 2147483647 (wm_received w + runes)); try done; lia.
Qed.

(** A terminal session is final. No call changes its terminal reason or
    a watermark, and it never again names an offset to emit through. *)
Theorem terminal_final s ops :
  is_ended s = true →
  s_ended (run s ops) = s_ended s ∧
  ∀ track, watermark (run s ops) track = watermark s track ∧ safe_offset (run s ops) track = None.
Proof.
  assert (∀ s log s', is_ended s = true → micros s log s' →
    s_ended s' = s_ended s ∧ ∀ track, watermark s' track = watermark s track) as Hmicros.
  { intros s0 log s' He Hm. induction Hm as [|s0 l1 s1 l2 s2 Hone Hrest IH]; [done|].
    unfold is_ended in *. destruct (s_ended s0) eqn:He0; [|done].
    destruct Hone as [| |???? Hx|???? Hx|? Hx]; try congruence.
    cbn in IH. rewrite He0 in IH. destruct (IH eq_refl) as [-> Hw]. split; [done|].
    intros []; apply Hw. }
  revert s. induction ops as [|op ops IH]; intros s He.
  - split; [done|]. intros track. unfold safe_offset. cbn. by rewrite He.
  - change (run s (op :: ops)) with (run (exec s op) ops). destruct (Hmicros _ _ _ He (exec_micros s op)) as [Hend Hw].
    destruct (IH (exec s op)) as [Hend' Hw'].
    { unfold is_ended in *. by rewrite Hend. }
    split; [by rewrite Hend'|]. intros track. destruct (Hw' track) as [-> ->]. by rewrite Hw.
Qed.

(** Released text is never taken back: no sequence of calls lowers a
    confirmed offset or an observed length. *)
Theorem watermark_monotone s ops track :
  (wm_confirmed (watermark s track) <= wm_confirmed (watermark (run s ops) track))%N ∧
  (wm_received (watermark s track) <= wm_received (watermark (run s ops) track))%N.
Proof.
  assert (∀ s log s', micro s log s' →
    (wm_confirmed (watermark s track) <= wm_confirmed (watermark s' track))%N ∧
    (wm_received (watermark s track) <= wm_received (watermark s' track))%N) as Hone.
  { intros s0 log s' [r| |tr runes w end_ ?? Hx|tr task range w ??? Hx|tr ?].
    - by destruct track.
    - by destruct track.
    - rewrite watermark_set. case_decide; [subst|lia]. unfold extend, checked_add_u32 in Hx.
      destruct (_ <=? _)%N; [|done]. destruct (_ <=? _)%N; [|done]. simplify_eq. cbn. lia.
    - rewrite watermark_set. case_decide; [subst|lia]. unfold record in Hx.
      repeat case_match; simplify_eq; cbn; lia.
    - rewrite watermark_set. case_decide; [subst|lia]. unfold watermark_advance.
      case_match eqn:Hlt; cbn; [|lia]. b2p. lia. }
  assert (∀ s log s', micros s log s' →
    (wm_confirmed (watermark s track) <= wm_confirmed (watermark s' track))%N ∧
    (wm_received (watermark s track) <= wm_received (watermark s' track))%N) as Hmany.
  { induction 1 as [|s0 l1 s1 l2 s2 Hm _ IH]; [lia|]. destruct (Hone _ _ _ Hm). lia. }
  revert s. induction ops as [|op ops IH]; intros s; [cbn; lia|].
  change (run s (op :: ops)) with (run (exec s op) ops).
  destruct (Hmany _ _ _ (exec_micros s op)). destruct (IH (exec s op)). lia.
Qed.

(** Settlement. A live session settles [Complete] exactly when every
    task of every track has cleared through the whole observed text;
    otherwise it fails closed and moves no watermark. *)
Theorem finish_complete_iff c log s :
  reachable c log s → is_ended s = false →
  (c_reason (finish s).2 = EndComplete ↔
    ∀ track task, task ∈ tasks_for c track →
      bt_get task (wm_tasks (watermark s track)) = Some (wm_received (watermark s track))) ∧
  (c_reason (finish s).2 ≠ EndComplete →
    (∃ track pending, c_reason (finish s).2 = EndFailed (UnclearedResidue track pending)) ∧
    ∀ track, watermark (finish s).1 track = watermark s track).
Proof.
  intros Hr He. destruct (reachable_inv _ _ _ Hr) as (Hc & Hw & _). apply is_ended_false in He.
  assert (∀ track, uncleared (watermark s track) = 0%N ↔
    ∀ task, task ∈ tasks_for c track →
      bt_get task (wm_tasks (watermark s track)) = Some (wm_received (watermark s track))) as Hu.
  { intros track. destruct (Hw track) as [Hwf Hkeys Hst Hrecv Hfr _ _ Hidle]. unfold uncleared.
    destruct (min_list _) as [m|] eqn:Hm; cbn [default from_option id].
    - apply min_list_Some in Hm as [Hin Hall]. rewrite Forall_forall in Hall. split.
      + intros Hz task Ht. apply Hkeys, bt_contains_keys, bt_contains_get in Ht as [o Ho].
        rewrite Ho. f_equal. specialize (Hfr _ _ Ho).
        assert (m <= o)%N; [|lia].
        apply Hall. apply bt_get_Some_elem in Ho. by apply (list_elem_of_fmap_2 snd) in Ho.
      + intros Hall'. unfold bt_values in Hin. apply list_elem_of_fmap in Hin as ([t m'] & -> & Hin).
        apply bt_elem_get in Hin as Hg; [|done]. rewrite Hall' in Hg.
        * simplify_eq/=. lia.
        * apply Hkeys, bt_contains_keys, bt_contains_get. eauto.
    - apply min_list_None in Hm. unfold bt_values in Hm. apply fmap_nil_inv in Hm.
      assert (tasks_for c track = []) as Hnil.
      { destruct (tasks_for c track) as [|t ts] eqn:E; [done|].
        assert (t ∈ bt_keys (wm_tasks (watermark s track))) as Hin by (apply Hkeys; set_solver).
        rewrite Hm in Hin. by apply not_elem_of_nil in Hin. }
      pose proof (Hidle Hnil). rewrite Hnil. split; [by intros _ task ?%not_elem_of_nil|lia]. }
  assert (∀ track, watermark (close_payloads s) track = watermark s track) as Hclose by by intros [].
  unfold finish. rewrite He.
  destruct (first_residue _ _) as [error|] eqn:Hres; cbn [snd fst c_reason completion].
  - split.
    + split; [done|]. intros Hall. exfalso.
      enough (first_residue (close_payloads s) [Request; Response] = None) by congruence.
      apply first_residue_None. intros track. rewrite Hclose. apply Hu. auto.
    + intros _. split; [|by intros []].
      cbn in Hres. repeat case_match; simplify_eq; eauto.
  - split; [|done]. split; [|done]. intros _ track task Ht.
    apply Hu; [|done]. rewrite <-Hclose. by apply first_residue_None.
Qed.

(** A session that settled [Complete] vouches for the whole text: each
    observed rune was cleared by every task of its track. *)
Theorem complete_evaluated c log s track task rune :
  reachable c log s → s_ended s = Some EndComplete → task ∈ tasks_for c track →
  (start_of c track <= rune < wm_received (watermark s track))%N →
  evaluated log track task rune.
Proof.
  intros Hr He Ht Hrune. destruct (reachable_inv _ _ _ Hr) as (_ & Hw & Hend).
  unfold end_inv in Hend. rewrite He in Hend. destruct (Hw track) as [_ Hkeys _ _ Hfr Hev _ _].
  apply Hkeys, bt_contains_keys, bt_contains_get in Ht as [o Ho].
  specialize (Hfr _ _ Ho). eapply Hev; [done|]. rewrite <-Hend in Hrune. lia.
Qed.

(** A rewrite ends a session only while the host can still alter the
    text: under a withholding level and with nothing released. *)
Theorem rewritten_released_nothing c log s track task range :
  reachable c log s → s_ended s = Some (EndRewritten track task range) →
  withholds (safety_level c) = true ∧ wm_confirmed (watermark s track) = 0%N ∧
  safe_offset s track = None.
Proof.
  intros Hr He. destruct (reachable_inv _ _ _ Hr) as (<- & _ & Hend).
  unfold end_inv in Hend. rewrite He in Hend. destruct Hend. split_and!; try done.
  unfold safe_offset, is_ended. by rewrite He.
Qed.

(** Clearing a span moves the task's frontier to the end of the span
    when the span starts at or below it, and fails the session closed,
    naming the gap, when it starts past it. *)
Theorem record_cleared_contiguous s task sp frontier :
  is_ended s = false →
  task ∈ tasks_for (s_config s) (span_track sp) →
  (r_start (sp_range sp) < r_end (sp_range sp) <= wm_received (watermark s (span_track sp)))%N →
  bt_wf (wm_tasks (watermark s (span_track sp))) →
  bt_get task (wm_tasks (watermark s (span_track sp))) = Some frontier →
  let '(s', r) := record_outcome s task sp Cleared in
  if (r_start (sp_range sp) <=? frontier)%N
  then r = Ok () ∧ s_ended s' = None ∧
    wm_tasks (watermark s' (span_track sp)) =
      bt_insert task (N.max frontier (r_end (sp_range sp))) (wm_tasks (watermark s (span_track sp)))
  else r = Err (NonContiguousOutcome task frontier (r_start (sp_range sp))) ∧
    s_ended s' = Some (EndFailed (NonContiguousOutcome task frontier (r_start (sp_range sp)))).
Proof.
  intros He Ht [Hne Hrecv] Hwf Hg. unfold record_outcome.
  rewrite He, bool_decide_true by done. cbn [negb]. apply is_ended_false in He.
  unfold range_is_empty. rewrite (proj2 (N.leb_gt _ _) Hne), (proj2 (N.ltb_ge _ _) Hrecv).
  unfold record. rewrite (proj2 (N.ltb_ge _ _) Hrecv), Hg.
  destruct (N.leb_spec (r_end (sp_range sp)) frontier) as [Hstale|Hmore].
  - rewrite watermark_set, decide_True by done.
    rewrite (proj2 (N.leb_le _ _)) by lia. split_and!; [done|by destruct (span_track sp)|].
    rewrite N.max_l by done. by rewrite bt_insert_same.
  - destruct (N.leb_spec (r_start (sp_range sp)) frontier) as [Hok|Hgap].
    + rewrite (proj2 (N.ltb_ge _ _)) by done. rewrite watermark_set, decide_True by done.
      split_and!; [done|by destruct (span_track sp)|]. cbn. by rewrite N.max_r by lia.
    + rewrite (proj2 (N.ltb_lt _ _)) by done. unfold fail_with, fail. rewrite He. done.
Qed.

(** A verdict reaches the accounting only through the section 5 gate:
    one that clears a span is a valid [allow] without reserved warning
    reasons, and a malformed verdict fails a live session closed. *)
Theorem record_verdict_gated s task sp v :
  is_ended s = false →
  (verdict_shape_is_invalid v = true →
    (record_verdict s task sp v).2 = Err VerdictInvalid ∧
    s_ended (record_verdict s task sp v).1 = Some (EndFailed VerdictInvalid)) ∧
  (clearances s (OpVerdict task sp v) ≠ [] →
    v_decision v = Allow ∧ verdict_validate v = Ok () ∧
    Forall (λ w, ∀ reason, w_reason w = Some reason →
      starts_with "host_error:" reason = false ∧
      starts_with "runtime_error:" reason = false) (v_warnings v)).
Proof.
  intros He. split.
  - intros Hv. unfold record_verdict. rewrite Hv, He. apply is_ended_false in He.
    unfold fail_with, fail. by rewrite He.
  - cbn. unfold record_verdict. destruct (verdict_shape_is_invalid v) eqn:Hv.
    { rewrite He. unfold fail_with. destruct (fail s VerdictInvalid). cbn. by rewrite andb_false_r. }
    case_bool_decide as Hd; [|done]. intros _. split; [done|].
    unfold verdict_shape_is_invalid, host_authored_denial in Hv.
    rewrite bool_decide_false in Hv by (by rewrite Hd). cbn [andb] in Hv.
    destruct (verdict_validate v) as [[]|]; cbn [is_ok negb] in Hv; [|done]. split; [done|].
    destruct (existsb _ (omap _ _)) eqn:Hex; [done|].
    apply Forall_forall. intros w Hw reason Hreason. rewrite <-not_true_iff_false in Hex.
    split; apply not_true_iff_false; intros Hpre; apply Hex; apply existsb_exists; exists reason;
      (split; [apply list_elem_of_In, list_elem_of_omap; by exists w|]);
      cbn; rewrite Hpre; by rewrite ?orb_true_r.
Qed.

(** The log of a run. *)
Fixpoint run_log (s : StreamSession) (ops : list StreamOp) : list Clearance :=
  match ops with
  | [] => []
  | op :: ops => clearances s op ++ run_log (exec s op) ops
  end.

Lemma reachable_run c log s ops :
  reachable c log s → reachable c (log ++ run_log s ops) (run s ops).
Proof.
  revert log s. induction ops as [|op ops IH]; intros log s Hr; cbn [run_log].
  - by rewrite app_nil_r.
  - rewrite app_assoc. apply IH. by constructor.
Qed.
End stream_guarantees.

(** ** Samples and witnesses *)

Section stream_samples.
#[local] Existing Instance demo_hooks.

Definition sample_config : StreamSessionConfig :=
  mkConfig Blocking 0 2 [] ["pii"; "safety"].
Definition sample_initial : StreamSession :=
  mkSession sample_config (mkWatermark [] 0 0)
    (mkWatermark [("pii", 2%N); ("safety", 2%N)] 2 2) None false.
Definition sample_span (start end_ : N) : StreamSpan :=
  mkSpan ModelGenerated (mkRange start end_).
Definition sample_ops : list StreamOp :=
  [OpObserve ModelGenerated 10;
   OpOutcome "safety" (sample_span 0 12) Cleared;
   OpVerdict "pii" (sample_span 2 7) (bare_verdict Allow);
   OpAdvance Response].
Definition sample_session : StreamSession := run sample_initial sample_ops.
Definition sample_log : list Clearance := run_log sample_initial sample_ops.

Lemma sample_new : session_new sample_config = Ok sample_initial.
Proof. vm_compute. reflexivity. Qed.

Lemma sample_reachable : reachable sample_config sample_log sample_session.
Proof. apply (reachable_run _ [] sample_initial sample_ops), reach_new, sample_new. Qed.

Lemma safe_offset_evaluated_witness :
  safe_offset sample_session Response = Some 7%N ∧
  evaluated sample_log Response "pii" 6 ∧ evaluated sample_log Response "safety" 6.
Proof.
  split; [vm_compute; reflexivity|].
  split; apply (safe_offset_evaluated sample_config sample_log sample_session Response 7 6);
    try apply sample_reachable; try (vm_compute; reflexivity);
    try (split; vm_compute; congruence); vm_compute; set_solver.
Defined.

Lemma advance_exact_witness :
  ¬ (7 < wm_confirmed (watermark (session_advance sample_session Response).1 Response))%N ↔
  ¬ ∀ task r, task ∈ tasks_for sample_config Response →
      (start_of sample_config Response <= r <= 7)%N → evaluated sample_log Response task r.
Proof.
  apply not_iff_compat, (advance_exact sample_config sample_log sample_session Response 7);
    [apply sample_reachable|vm_compute; reflexivity|vm_compute; congruence|vm_compute; congruence].
Defined.

Lemma watermark_bounds_witness :
  (wm_received (watermark sample_session Response) <= MAX_RUNE_OFFSET)%N ∧
  ∀ task frontier, bt_get task (wm_tasks (watermark sample_session Response)) = Some frontier →
    (wm_confirmed (watermark sample_session Response) <= frontier)%N.
Proof.
  destruct (watermark_bounds sample_config sample_log sample_session Response sample_reachable)
    as (_ & Hmax & _ & Hf & _).
  split; [exact Hmax|]. intros task frontier Hg. apply (Hf task frontier Hg).
Defined.

Definition sample_denied : StreamSession :=
  exec sample_session (OpOutcome "pii" (sample_span 7 12) OutcomeDenied).

Lemma terminal_final_witness :
  s_ended (run sample_denied sample_ops) =
    Some (EndDenied Response "pii" (mkRange 7 12)) ∧
  safe_offset (run sample_denied sample_ops) Response = None.
Proof.
  destruct (terminal_final sample_denied sample_ops eq_refl) as [He Hw].
  split; [rewrite He; vm_compute; reflexivity|apply (Hw Response)].
Defined.

Lemma finish_complete_iff_witness :
  c_reason (finish sample_session).2 ≠ EndComplete ∧
  watermark (finish sample_session).1 Response = watermark sample_session Response.
Proof.
  assert (c_reason (finish sample_session).2 ≠ EndComplete) as Hne by (vm_compute; congruence).
  split; [exact Hne|].
  apply (finish_complete_iff sample_config sample_log sample_session sample_reachable);
    [vm_compute; reflexivity|exact Hne].
Defined.

Definition sample_settled_ops : list StreamOp :=
  sample_ops ++ [OpOutcome "pii" (sample_span 5 12) Cleared; OpFinish].

Lemma complete_evaluated_witness :
  evaluated (run_log sample_initial sample_settled_ops) Response "pii" 11.
Proof.
  apply (complete_evaluated sample_config _ (run sample_initial sample_settled_ops)).
  - apply (reachable_run _ [] sample_initial sample_settled_ops), reach_new, sample_new.
  - vm_compute. reflexivity.
  - vm_compute. set_solver.
  - split; vm_compute; congruence.
Defined.

Definition rewrite_config : StreamSessionConfig := mkConfig CompleteLevel 0 0 ["t"] [].
Definition rewrite_initial : StreamSession :=
  mkSession rewrite_config (mkWatermark [("t", 0%N)] 0 0) (mkWatermark [] 0 0) None false.
Definition rewrite_ops : list StreamOp :=
  [OpObserveText UserRequest "hello";
   OpOutcome "t" (mkSpan UserRequest (mkRange 0 5)) OutcomeTransformed].

Lemma rewritten_released_nothing_witness :
  wm_confirmed (watermark (run rewrite_initial rewrite_ops) Request) = 0%N.
Proof.
  apply (rewritten_released_nothing rewrite_config (run_log rewrite_initial rewrite_ops)
           (run rewrite_initial rewrite_ops) Request "t" (mkRange 0 5)).
  - apply (reachable_run _ [] rewrite_initial rewrite_ops), reach_new. vm_compute. reflexivity.
  - vm_compute. reflexivity.
Defined.

Lemma record_cleared_contiguous_witness :
  (record_outcome sample_session "pii" (sample_span 9 12) Cleared).2 =
    Err (NonContiguousOutcome "pii" 7 9).
Proof.
  pose proof (record_cleared_contiguous sample_session "pii" (sample_span 9 12) 7) as Hspec.
  destruct (record_outcome sample_session "pii" (sample_span 9 12) Cleared) as [s' r].
  apply Hspec; try (vm_compute; reflexivity).
  - vm_compute. set_solver.
  - split; vm_compute; congruence.
  - pose proof (reachable_inv sample_config sample_log sample_session sample_reachable) as (_ & Hw & _).
    exact (wi_wf _ _ _ _ (Hw Response)).
Defined.

Lemma record_verdict_gated_witness :
  (record_verdict sample_session "pii" (sample_span 7 12) (bare_verdict Rewrite)).2 =
    Err VerdictInvalid.
Proof.
  apply (record_verdict_gated sample_session "pii" (sample_span 7 12) (bare_verdict Rewrite));
    vm_compute; reflexivity.
Defined.
End stream_samples.
