(* ===== verification/PathsFacts.v ===== *)
(** * Theorems on path expressions

    The grammar of paths, the parser's agreement with it, and the
    resolution of a path as a lens on the document. *)

From S2P Require Import Prelude OrdMap RustStd Json Errors Constants Paths Concrete.

(** ** The grammar *)

Definition field_byte (b : Ascii.ascii) : bool :=
  negb (bool_decide (b = dot ∨ b = lbracket ∨ b = rbracket)).

(** The text between the quotes of a literal: no quote but escaped ones,
    no escape left open. *)
Fixpoint literal_body (escaped : bool) (s : string) : bool :=
  match s with
  | EmptyString => negb escaped
  | String b s =>
      if escaped then literal_body false s
      else if decide (b = bslash) then literal_body true s
      else if decide (b = dquote) then false
      else literal_body false s
  end.

Definition quote (body : string) : string := String dquote (body +:+ String dquote "").

Definition bracketed (inner : string) : string := String lbracket (inner +:+ String rbracket "").

(** A segment starts with a delimiter. *)
Definition boundary (s : string) : Prop :=
  match s with EmptyString => True | String b _ => b = dot ∨ b = lbracket end.

Section grammar.
Context `{SerdeJson}.

Inductive segment_syntax : string → PathSegment → Prop :=
  | syntax_dot f : f ≠ "" → all_bytes field_byte f = true →
      segment_syntax (String dot f) (Field f)
  | syntax_literal body literal : literal_body false body = true →
      string_from_str (quote body) = Ok literal →
      segment_syntax (bracketed (quote body)) (Field literal)
  | syntax_index digits n : all_bytes is_ascii_digit digits = true →
      parse_usize digits = Some n →
      segment_syntax (bracketed digits) (Index n).

Inductive segments_syntax : string → list PathSegment → Prop :=
  | syntax_nil : segments_syntax "" []
  | syntax_cons a b segment segs :
      segment_syntax a segment → segments_syntax b segs →
      segments_syntax (a +:+ b) (segment :: segs).

Definition path_syntax (input : string) (r : PathRoot) (segs : list PathSegment) : Prop :=
  ∃ tail, input = root_as_str r +:+ tail ∧ segments_syntax tail segs.

(** ** Scanning lemmas *)

Lemma scan_field_Ok s f r :
  scan_field s = Ok (f, r) ↔ s = f +:+ r ∧ all_bytes field_byte f = true ∧ boundary r.
Proof.
  revert f. induction s as [|b s IH]; intros f; cbn.
  - split; [intros [= <- <-]; done|]. intros (Heq & _). by destruct f, r.
  - case_decide as Hb.
    { split; [by intros [= <- <-]|]. intros (Heq & Hf & _). destruct f as [|c f]; cbn in *; [by subst|].
      injection Heq as <- _. b2p. unfold field_byte in *. b2p. naive_solver. }
    case_decide as Hr.
    { split; [done|]. intros (Heq & Hf & Hbd). destruct f as [|c f]; cbn in *.
      - subst r. cbn in Hbd. naive_solver.
      - injection Heq as <- _. b2p. unfold field_byte in *. b2p. naive_solver. }
    split.
    + intros Hs. apply bind_Ok in Hs as ([f' r'] & Hs & [= <- <-]). cbn. apply IH in Hs as (-> & Hf & Hbd).
      split_and!; try done. rewrite Hf, andb_true_r. unfold field_byte. rewrite bool_decide_false; [done|naive_solver].
    + intros (Heq & Hf & Hbd). destruct f as [|c f]; cbn in *; [subst r; cbn in Hbd; naive_solver|].
      injection Heq as <- ->. b2p. apply bind_Ok. exists (f, r). split; [by apply IH|done].
Qed.

Lemma scan_literal_Some e s t r :
  scan_literal e s = Some (t, r) ↔
  ∃ body, t = body +:+ String dquote "" ∧ s = t +:+ r ∧ literal_body e body = true.
Proof.
  revert e t. induction s as [|b s IH]; intros e t; cbn.
  - split; [done|]. intros (body & -> & Heq & _). by destruct body.
  - assert (∀ e', (∀ body, literal_body e (String b body) = literal_body e' body) →
      (e = true ∨ b ≠ dquote) →
      prod_map (String b) id <$> scan_literal e' s = Some (t, r) ↔
      ∃ body, t = body +:+ String dquote "" ∧ String b s = t +:+ r ∧ literal_body e body = true) as Hstep.
    { intros e' Hbody Hne. rewrite fmap_Some. split.
      - intros ([t' r'] & Hs & [= -> ->]). apply IH in Hs as (body & -> & -> & Hl).
        exists (String b body). by rewrite Hbody.
      - intros (body & -> & Heq & Hl). destruct body as [|c body]; cbn in Heq.
        { injection Heq as -> ->. cbn in Hl. destruct e; [done|naive_solver]. }
        injection Heq as <- Heq. rewrite Hbody in Hl.
        exists (body +:+ String dquote "", r). split; [|done]. apply IH. eauto. }
    destruct e; [apply Hstep; [done|by left]|].
    case_decide as Hb; [apply Hstep; [intros; cbn; by rewrite decide_True by done|right; intros ->; done]|].
    case_decide as Hq.
    + split.
      * intros [= <- <-]. exists "". subst b. done.
      * intros (body & -> & Heq & Hl). destruct body as [|c body]; cbn in Heq; [by injection Heq as -> ->|].
        injection Heq as <- _. cbn in Hl. rewrite decide_False, decide_True in Hl by done. done.
    + apply Hstep; [intros; cbn; by rewrite !decide_False by done|by right].
Qed.

Lemma scan_digits_spec s d r :
  scan_digits s = (d, r) ↔
  s = d +:+ r ∧ all_bytes is_ascii_digit d = true ∧
  match r with String c _ => is_ascii_digit c = false | EmptyString => True end.
Proof.
  revert d. induction s as [|b s IH]; intros d; cbn.
  - split; [by intros [= <- <-]|]. intros (Heq & _). by destruct d, r.
  - destruct (is_ascii_digit b) eqn:Hb.
    + split.
      * destruct (scan_digits s) as [d' r'] eqn:Hs. intros [= <- <-].
        destruct (proj1 (IH d') eq_refl) as (-> & Hd & Hr). cbn. by rewrite Hb.
      * intros (Heq & Hd & Hr). destruct d as [|c d]; cbn in *; [by subst r; rewrite Hb in Hr|].
        injection Heq as <- ->. b2p. by rewrite (proj2 (IH d)).
    + split; [intros [= <- <-]; by rewrite Hb|].
      intros (Heq & Hd & Hr). destruct d as [|c d]; cbn in *; [by subst r|].
      injection Heq as <- _. rewrite Hb in Hd. done.
Qed.

(** ** The parser and the grammar *)

Lemma rbracket_no_digit r : match String rbracket r with
  String c _ => is_ascii_digit c = false | EmptyString => True end.
Proof. done. Qed.

Lemma app_str_cons_assoc a b c r : a +:+ String b (c +:+ r) = (a +:+ String b c) +:+ r.
Proof. by rewrite <-app_str_assoc. Qed.

Lemma parse_bracket_sound s segment rest :
  parse_bracket s = Ok (segment, rest) →
  ∃ a, String lbracket s = a +:+ rest ∧ segment_syntax a segment.
Proof.
  destruct s as [|b s']; [done|]. cbn. case_decide as Hq.
  - destruct (scan_literal false s') as [[body r]|] eqn:Hs; [|done]. intros Hp. inv_ok.
    destruct r as [|c r]; [done|]. case_decide; [|done]. inv_ok.
    apply scan_literal_Some in Hs as (text & -> & -> & Hl).
    exists (bracketed (quote text)). subst. split.
    + unfold bracketed, quote. cbn. do 2 f_equal. by rewrite <-!app_str_assoc.
    + by constructor.
  - case_decide; [done|].
    destruct (if is_ascii_digit b then _ else _) as [d r] eqn:Hs.
    change (scan_digits (String b s') = (d, r)) in Hs. apply scan_digits_spec in Hs as (Heq & Hd & _).
    destruct (str_is_empty d) eqn:He; [done|]. destruct r as [|c r]; [done|].
    case_decide; [|done]. intros Hp. inv_ok. rewrite Heq.
    exists (bracketed d). subst. split; [|by constructor].
    unfold bracketed. cbn. f_equal. by rewrite <-app_str_assoc.
Qed.

Lemma parse_segment_sound total s segment rest :
  parse_segment total s = Ok (segment, rest) → ∃ a, s = a +:+ rest ∧ segment_syntax a segment.
Proof.
  destruct s as [|b s]; [done|]. cbn. case_decide as Hb.
  - intros Hp. apply bind_Ok in Hp as ([f r] & Hf & Hp). cbn in Hp. inv_ok.
    apply scan_field_Ok in Hf as (-> & Hf & _). exists (String dot f). split; [done|].
    constructor; [|done]. by intros ->.
  - case_decide; [|done]. subst b. apply parse_bracket_sound.
Qed.

Lemma segment_syntax_nonempty a segment : segment_syntax a segment → a ≠ "".
Proof. by destruct 1. Qed.

Lemma segments_syntax_boundary b segs : segments_syntax b segs → boundary b.
Proof.
  destruct 1 as [|a b segment segs Ha _]; [done|]. destruct Ha; cbn; auto.
Qed.

Lemma parse_segment_complete total a segment rest :
  segment_syntax a segment → boundary rest → parse_segment total (a +:+ rest) = Ok (segment, rest).
Proof.
  intros Ha Hr. destruct Ha as [f Hne Hf|body literal Hl Hlit|digits n Hd Hn].
  - cbn [parse_segment String.append]. rewrite decide_True by done.
    rewrite (proj2 (scan_field_Ok (f +:+ rest) f rest)) by done. cbn.
    destruct (str_is_empty f) eqn:He; [|done]. by apply str_is_empty_true in He.
  - cbn [parse_segment bracketed String.append]. rewrite decide_False, decide_True by done.
    unfold quote. cbn [String.append parse_bracket]. rewrite decide_True by done.
    rewrite <-!app_str_assoc.
    rewrite (proj2 (scan_literal_Some false _ (body +:+ String dquote "") (String rbracket rest))).
    + unfold quote in Hlit. rewrite Hlit. cbn. by rewrite decide_True.
    + exists body. split_and!; [done|by rewrite <-app_str_assoc|done].
  - cbn [parse_segment bracketed String.append]. rewrite decide_False, decide_True by done.
    rewrite <-app_str_assoc. cbn [String.append].
    pose proof (proj2 (scan_digits_spec (digits +:+ String rbracket rest) digits _)
      (conj eq_refl (conj Hd (rbracket_no_digit rest)))) as Hs.
    destruct digits as [|c digits]; [done|]. cbn [String.append] in *. cbn [all_bytes] in Hd.
    assert (is_ascii_digit c = true) as Hc by (by b2p). cbn [parse_bracket].
    rewrite !decide_False by (intros ->; done). rewrite Hs. unfold str_is_empty.
    rewrite bool_decide_false by done. rewrite decide_True by done. by rewrite Hn.
Qed.

Lemma parse_segments_sound fuel total s segs :
  parse_segments fuel total s = Some (Ok segs) → segments_syntax s segs.
Proof.
  revert s segs. induction fuel as [|fuel IH]; intros s segs; (destruct s as [|b s];
    [intros [= <-]; constructor|]); [done|]. cbn [parse_segments].
  destruct (parse_segment total (String b s)) as [[segment rest]|] eqn:Hp; [|done].
  rewrite fmap_Some. intros ([r|] & Hr & Heq); [|done]. injection Heq as ->.
  apply parse_segment_sound in Hp as (a & -> & Ha). constructor; [done|by apply IH].
Qed.

Lemma parse_segments_complete fuel total s segs :
  segments_syntax s segs → (String.length s ≤ fuel)%nat →
  parse_segments fuel total s = Some (Ok segs).
Proof.
  intros Hs. revert fuel. induction Hs as [|a b segment segs Ha Hb IH]; intros fuel Hf.
  { by destruct fuel. }
  pose proof (parse_segment_complete total a segment b Ha (segments_syntax_boundary _ _ Hb)) as Hp.
  pose proof (segment_syntax_nonempty _ _ Ha). destruct a as [|c a]; [done|]. cbn in Hf.
  destruct fuel as [|fuel]; [lia|]. cbn [String.append parse_segments] in *. rewrite Hp.
  rewrite IH; [done|]. rewrite str_length_app in Hf. lia.
Qed.

(** Every iteration consumes a byte: the length of the input is fuel enough. *)
Lemma parse_segments_fuel fuel total s :
  (String.length s ≤ fuel)%nat → is_Some (parse_segments fuel total s).
Proof.
  revert s. induction fuel as [|fuel IH]; intros s Hf; (destruct s as [|b s]; [by eexists|]);
    cbn in Hf; [lia|]. cbn [parse_segments].
  destruct (parse_segment total (String b s)) as [[segment rest]|] eqn:Hp; [|by eexists].
  apply parse_segment_sound in Hp as (a & Heq & Ha). apply segment_syntax_nonempty in Ha.
  destruct a as [|c a]; [done|]. cbn in Heq. injection Heq as <- ->.
  rewrite str_length_app in Hf. destruct (IH rest) as [r ->]; [lia|]. by eexists.
Qed.

Lemma parse_root_Ok input r rest :
  parse_root input = Ok (r, rest) ↔ input = root_as_str r +:+ rest ∧ boundary rest.
Proof.
  assert (∀ s : string, match s with "" => true | String b _ =>
      bool_decide (b = dot) || bool_decide (b = lbracket) end = true ↔ boundary s) as Hbd.
  { intros []; cbn; [done|]. rewrite orb_true_iff, !bool_decide_eq_true. done. }
  unfold parse_root. split.
  - repeat match goal with
    | |- context [strip_prefix ?p input] =>
        let E := fresh in destruct (strip_prefix p input) eqn:E;
        [apply strip_prefix_Some in E|]
    | |- context [if ?b then _ else _] => destruct b eqn:?
    end; intros Heq; try done; injection Heq as <- <-; (split; [done|by apply Hbd]).
  - intros [-> Hrest]. pose proof (proj2 (Hbd rest) Hrest) as Hb.
    destruct r; vm_compute in Hb |- *; by rewrite Hb.
Qed.

(** C39: the parser accepts exactly the grammar: a string parses to a path
    if and only if it is a root followed by segments whose dotted fields
    are non-empty and free of delimiters, whose bracketed literals are
    closed string literals with a value, and whose indices are decimal
    numbers that fit [usize]. *)
Theorem parse_grammar input p :
  parse input = Ok p ↔ original p = input ∧ path_syntax input (root p) (segments p).
Proof.
  unfold parse. split.
  - destruct input as [|b s]; [done|]. case_decide; [|done]. intros Hp.
    apply bind_Ok in Hp as ([r rest] & Hroot & Hp). apply bind_Ok in Hp as (segs & Hsegs & [= <-]).
    cbn [original root segments fst snd] in *. split; [done|].
    apply parse_root_Ok in Hroot as [Hin Hb]. exists rest. split; [done|].
    assert (String.length rest ≤ String.length (String b s))%nat as Hlen.
    { rewrite Hin, str_length_app. lia. }
    destruct (parse_segments_fuel _ (str_len (String b s)) _ Hlen) as [res Hres].
    rewrite Hres in Hsegs. cbn in Hsegs. subst. by eapply parse_segments_sound.
  - intros [Hor (tail & Htail & Hs)]. destruct p as [o r segs]. cbn [original root segments] in *. subst o.
    destruct input as [|b s]; [by destruct r|].
    assert (b = dollar) as -> by (destruct r; cbn in Htail; by injection Htail).
    rewrite decide_True by done.
    rewrite (proj2 (parse_root_Ok (String dollar s) r tail)) by (split; [done|by eapply segments_syntax_boundary]).
    cbn [mbind result_bind fst snd].
    rewrite (parse_segments_complete _ _ _ segs) by (try done; rewrite Htail, str_length_app; lia).
    done.
Qed.

(** The snapshot alias is conservative: it reads [$] as [$snap] and
    [$.rest] as [$snap.rest], and every string that is a path on its own
    keeps its meaning. *)
Theorem alias_conservative input :
  parse_with_snapshot_alias "$" = parse "$snap" ∧
  (∀ rest, parse_with_snapshot_alias ("$." +:+ rest) = parse ("$snap." +:+ rest)) ∧
  (∀ p, parse input = Ok p → parse_with_snapshot_alias input = Ok p).
Proof.
  split_and!; [done|done|]. intros p Hp. unfold parse_with_snapshot_alias, normalize_snapshot_alias.
  pose proof (proj1 (parse_grammar _ _) Hp) as (_ & tail & -> & _).
  rewrite decide_False by (by destruct (root p)).
  assert (strip_prefix "$." (root_as_str (root p) +:+ tail) = None) as Hstrip by (by destruct (root p)).
  rewrite Hstrip. exact Hp.
Qed.
End grammar.

(** ** Resolution as a lens *)

(** The walk over the segments, and the document after a write at them. *)
Definition read (o : string) (segs : list PathSegment) (v : JsonValue)
  : result RuntimeError JsonValue :=
  fold_result (λ current segment, resolve_segment o segment current) v segs.

Fixpoint put (segs : list PathSegment) (x v : JsonValue) : JsonValue :=
  match segs with
  | [] => x
  | segment :: segs =>
      match segment, v with
      | Field field, JObject map =>
          match bt_get field map with
          | Some child => JObject (bt_insert field (put segs x child) map)
          | None => v
          end
      | Index index, JArray values =>
          match values !! N.to_nat index with
          | Some child => JArray (<[N.to_nat index := put segs x child]> values)
          | None => v
          end
      | _, _ => v
      end
  end.

Lemma target_ref_fold o segs current write :
  match fold_result (λ place segment, target_ref_step o segment place) (current, write) segs with
  | Ok (v, w) => read o segs current = Ok v ∧ ∀ x, w x = write (put segs x current)
  | Err e => read o segs current = Err e
  end.
Proof.
  revert current write. induction segs as [|segment segs IH]; intros current write; [done|].
  unfold read. cbn [fold_result put]. destruct segment as [field|index], current as [| | | |values|map]; try done; cbn.
  - destruct (bt_get field map) as [child|]; cbn; [|done]. apply IH.
  - destruct (values !! N.to_nat index) as [child|]; cbn; [|done]. apply IH.
Qed.

Lemma json_wf_child o segment v child :
  json_wf v → resolve_segment o segment v = Ok child → json_wf child.
Proof.
  intros Hwf. destruct segment as [field|index], Hwf as [| | | |values Hv|m Hm Hv]; try done; cbn; intros Hc; inv_ok.
  - apply bt_get_Some_elem in Hok. rewrite Forall_forall in Hv. by apply (Hv (field, child)).
  - rewrite Forall_forall in Hv. by eapply Hv, list_elem_of_lookup_2.
Qed.

Lemma read_put o segs x v u : read o segs v = Ok u → read o segs (put segs x v) = Ok x.
Proof.
  unfold read. revert v. induction segs as [|segment segs IH]; intros v; [done|].
  destruct segment as [field|index], v as [| | | |values|m]; try done; cbn.
  - destruct (bt_get field m) as [child|]; cbn; [|done].
    rewrite bt_get_insert_eq. cbn. apply IH.
  - destruct (values !! N.to_nat index) as [child|] eqn:Hi; cbn; [|done].
    rewrite list_lookup_insert_eq by (by eapply lookup_lt_Some). cbn. apply IH.
Qed.

Lemma put_read o segs v u : json_wf v → read o segs v = Ok u → put segs u v = v.
Proof.
  unfold read. revert v. induction segs as [|segment segs IH]; intros v Hwf; [by intros [= ->]|].
  intros Hr. cbn in Hr. apply bind_Ok in Hr as (child & Hc & Hr).
  pose proof (json_wf_child _ _ _ _ Hwf Hc) as Hwf'. specialize (IH _ Hwf' Hr).
  destruct segment as [field|index], Hwf as [| | | |values Hv|m Hm Hv]; try done; cbn in *.
  - inv_ok. by rewrite IH, bt_insert_same.
  - inv_ok. by rewrite IH, list_insert_id.
Qed.

Lemma read_put_apart o pre a b segs segs' x v :
  a ≠ b → read o (pre ++ b :: segs') (put (pre ++ a :: segs) x v) = read o (pre ++ b :: segs') v.
Proof.
  intros Hne. unfold read. revert v. induction pre as [|segment pre IH]; intros v.
  - destruct a as [f|i], v as [| | | |values|m], b as [g|j]; try done; cbn.
    + destruct (bt_get f m) as [child|]; cbn; [|done]. by rewrite bt_get_insert_ne by congruence.
    + destruct (bt_get f m) as [child|]; cbn; done.
    + destruct (values !! N.to_nat i) as [child|]; cbn; done.
    + destruct (values !! N.to_nat i) as [child|]; cbn; [|done].
      by rewrite list_lookup_insert_ne by (intros ?%N2Nat.inj; congruence).
  - destruct segment as [f|i], v as [| | | |values|m]; try done; cbn.
    + destruct (bt_get f m) as [child|] eqn:Hg; cbn; [|by rewrite Hg].
      rewrite bt_get_insert_eq. cbn. apply IH.
    + destruct (values !! N.to_nat i) as [child|] eqn:Hi; cbn; [|by rewrite Hi].
      rewrite list_lookup_insert_eq by (by eapply lookup_lt_Some). cbn. apply IH.
Qed.

(** The environment a transform path resolves in. *)
Definition target_env (target : JsonValue) : PathEnv := mkEnv None None (Some target) None.

(** C40: [resolve_target_mut] is a lens on the policy target. It refuses
    every path not rooted at [$target]; it fails exactly as [resolve]
    does; where it succeeds, the reference reads the value [resolve]
    returns, writing that value back changes nothing, a written value is
    what the path then resolves to, and a path that branches off at some
    segment resolves as before. *)
Theorem target_reference_lens p target :
  json_wf target →
  match resolve_target_mut p target with
  | Ok (v, write) =>
      root p = Target ∧ resolve p (target_env target) = Ok v ∧ write v = target ∧
      ∀ x, resolve p (target_env (write x)) = Ok x ∧
        ∀ q pre a b segs segs', root q = Target → a ≠ b →
          segments p = pre ++ a :: segs → segments q = pre ++ b :: segs' →
          resolve q (target_env (write x)) = resolve q (target_env target)
  | Err e =>
      if decide (root p = Target) then resolve p (target_env target) = Err e
      else e = TransformTargetForbidden (original p)
  end.
Proof.
  intros Hwf. unfold resolve_target_mut. case_bool_decide as Hroot; cbn [negb]; [|by rewrite decide_False].
  pose proof (target_ref_fold (original p) (segments p) target id) as Hfold.
  assert (∀ q t, root q = Target → resolve q (target_env t) = read (original q) (segments q) t) as Hres.
  { intros q t Hq. unfold resolve. by rewrite Hq. }
  destruct (fold_result _ _ _) as [[v write]|e].
  - destruct Hfold as [Hr Hw]. split_and!; [done|by rewrite Hres|rewrite Hw; by eapply put_read|].
    intros x. rewrite Hw, Hres by done. split; [by eapply read_put|].
    intros q pre a b segs segs' Hq Hne Hp Hq'. rewrite !Hres by done. rewrite Hp, Hq'.
    by apply read_put_apart.
  - rewrite decide_True by done. by rewrite Hres.
Qed.

(** ** Witness *)

Definition sample_path : JsonPath := mkPath "$target.a[1]" Target [Field "a"; Index 1].
Definition sample_target : JsonValue :=
  JObject [("a", JArray [JNull; JBool true]); ("b", JString "kept")].

Lemma target_reference_lens_witness :
  ∃ write, resolve_target_mut sample_path sample_target = Ok (JBool true, write) ∧
    write (JBool true) = sample_target ∧
    resolve sample_path (target_env (write JNull)) = Ok JNull.
Proof.
  assert (json_wf sample_target) as Hwf.
  { repeat first [constructor | apply Forall_cons | apply Forall_nil | progress cbn]. }
  pose proof (target_reference_lens sample_path sample_target Hwf) as Hlens.
  destruct (resolve_target_mut sample_path sample_target) as [[v write]|e] eqn:Hr; [|vm_compute in Hr; discriminate].
  destruct Hlens as (_ & Hv & Hw & Hx). assert (v = JBool true) as -> by (vm_compute in Hv; congruence).
  exists write. split; [done|]. split; [exact Hw|apply (Hx JNull)].
Defined.
