(* ===== verification/PolicyInput.v ===== *)
(** * Policy input: [engine/src/policy_input.rs], [point_ext.rs]

    The document a policy and an annotator see, and the deterministic
    serialization used for size accounting. *)

From S2P Require Import Prelude OrdMap RustStd Json AgentHooks Constants.

(** [InterceptionPointExt::is_tool_point]. *)
Definition is_tool_point (p : InterceptionPoint) : bool :=
  match p with PreToolCall | PostToolCall => true | _ => false end.

Section policy_input.
Context `{AgentHooks}.

Definition build_policy_input (intervention_point : InterceptionPoint)
  (policy_target_path : string) (policy_target_kind : option string)
  (policy_target_value snapshot annotations tool : JsonValue) : JsonValue :=
  let policy_target : JsonMap := bt_of_list [
    (pi_KIND, match policy_target_kind with Some kind => JString kind | None => JNull end);
    (pi_PATH, JString policy_target_path);
    (pi_VALUE, policy_target_value)] in
  JObject (bt_of_list [
    (pi_INTERVENTION_POINT, JString (point_as_str intervention_point));
    (pi_POLICY_TARGET, JObject policy_target);
    (pi_SNAPSHOT, snapshot);
    (pi_ANNOTATIONS, annotations);
    (pi_TOOL, tool)]).

(** The members of the document by name. *)
Lemma build_policy_input_members p path kind value snapshot annotations tool :
  build_policy_input p path kind value snapshot annotations tool =
  JObject [
    ("annotations", annotations);
    ("intervention_point", JString (point_as_str p));
    ("policy_target", JObject [
      ("kind", match kind with Some kind => JString kind | None => JNull end);
      ("path", JString path); ("value", value)]);
    ("snapshot", snapshot);
    ("tool", tool)].
Proof. reflexivity. Qed.
End policy_input.

(** ** Canonical serialization *)

(** [keys.sort()]. *)
Definition sort_strings : list string → list string := sort_by key_ltb.

Fixpoint sort_json (value : JsonValue) : JsonValue :=
  match value with
  | JArray items => JArray (map sort_json items)
  | JObject m =>
      let sorted_children := map (λ e, (e.1, sort_json e.2)) m in
      let keys := sort_strings (bt_keys m) in
      JObject (fold_left (λ sorted key,
        match bt_get key sorted_children with
        | Some v => bt_insert key v sorted
        | None => sorted
        end) keys [])
  | other => other
  end.

Definition canonical_json `{SerdeJson} (value : JsonValue) : result string string :=
  to_string (sort_json value).

(** ** Sorting a map that is already in key order changes nothing *)

Lemma sort_strings_sorted l : StronglySorted key_lt l → sort_strings l = l.
Proof.
  unfold sort_strings, sort_by. induction 1 as [|k l Hl IH Hk]; [done|]. cbn [foldr]. rewrite IH.
  destruct l as [|k' l]; [done|]. inversion Hk as [|? ? Hlt]; subst.
  assert (key_ltb k' k = false) as Hn.
  { apply not_true_iff_false. intros Hlt'. apply (StrictOrder_Irreflexive (R := key_lt) k).
    by transitivity k'. }
  cbn [insert_by]. by rewrite Hn.
Qed.

Lemma fold_insert_map (m m' : JsonMap) :
  bt_wf m → (∀ k v, (k, v) ∈ m' → bt_get k m = Some v) →
  ∀ acc, fold_left (λ sorted key,
    match bt_get key m with Some v => bt_insert key v sorted | None => sorted end) (bt_keys m') acc =
  bt_extend acc m'.
Proof.
  intros Hm. induction m' as [|[k v] m' IH]; intros Hget acc; [done|].
  change (bt_keys ((k, v) :: m')) with (k :: bt_keys m'). cbn [fold_left].
  rewrite (Hget k v) by set_solver. apply IH. set_solver.
Qed.

Lemma sort_json_id v : json_wf v → sort_json v = v.
Proof.
  induction v as [| | | |items IH|m IH] using JsonValue_ind; intros Hwf; try done.
  - cbn. f_equal. inversion Hwf as [| | | |? Hitems|]; subst.
    induction items as [|x items IHl]; [done|]. inversion IH; inversion Hitems; subst. cbn.
    f_equal; [auto|]. apply IHl; [done|by constructor|done].
  - inversion Hwf as [| | | | |? Hm Hv]; subst. cbn. f_equal.
    assert (map (λ e, (e.1, sort_json e.2)) m = m) as Hmap.
    { clear Hwf Hm. induction m as [|[k x] m IHm]; [done|].
      inversion IH; inversion Hv; subst. cbn in *. f_equal; [f_equal; auto|by apply IHm]. }
    rewrite Hmap, sort_strings_sorted by done.
    rewrite fold_insert_map; [by apply bt_of_list_id|done|].
    intros k x Hx. by apply bt_elem_get.
Qed.
