(* ===== verification/Limits.v ===== *)
(** * Resource limits: [engine/src/limits.rs]

    The limits record, its defaults and the validators. *)

From S2P Require Import Prelude OrdMap RustStd Json Errors AgentHooks Constants Concrete.
From S2P Require Import PolicyInput.

Record Limits := mkLimits {
  max_snapshot_bytes : N;
  max_policy_input_depth : N;
  max_annotators_per_point : N;
  max_annotator_output_bytes : N;
  max_policy_output_bytes : N;
  max_extends_depth : N;
  max_merged_manifest_bytes : N;
  max_manifest_depth : N;
  max_manifest_nodes : N;
  max_manifest_events : N;
  max_manifest_aliases : N;
  max_manifest_anchors : N;
  max_manifest_anchor_events : N;
  max_manifest_url_bytes : N;
  manifest_url_timeout_ms : N;
  max_manifest_url_redirects : N }.

#[export] Instance Limits_eq_dec : EqDecision Limits.
Proof. solve_decision. Defined.

Definition default_limits : Limits :=
  mkLimits 1048576 64 16 262144 262144 16 1048576 64 100000 300000 50000 50000 10000
    1048576 30000 5.

(** [validate_json_depth]: the loops stop at the first error. *)
Fixpoint validate_json_depth_at (value : JsonValue) (depth max_depth : N) (context : string)
  : result RuntimeError () :=
  let next_depth := (depth + 1)%N in
  let too_deep := Err (ResourceLimitExceeded
    (context +:+ " JSON nesting depth exceeds limit " +:+ fmt_N max_depth)) in
  match value with
  | JArray items =>
      if (max_depth <? next_depth)%N then too_deep
      else for_each (λ item, validate_json_depth_at item next_depth max_depth context) items
  | JObject m =>
      if (max_depth <? next_depth)%N then too_deep
      else for_each (λ e, validate_json_depth_at e.2 next_depth max_depth context) m
  | _ => Ok ()
  end.

Definition runtime_error_reason_rejected : string :=
  "annotator output reason must not use reserved runtime_error prefix".

Fixpoint reject_reserved_reason (value : JsonValue) : result string () :=
  match value with
  | JArray items => for_each reject_reserved_reason items
  | JObject m =>
      (match bt_get "reason" m with
       | Some (JString reason) =>
           if starts_with "runtime_error:" reason then Err runtime_error_reason_rejected else Ok ()
       | _ => Ok ()
       end) ;; for_each (λ e, reject_reserved_reason e.2) m
  | _ => Ok ()
  end.

Definition validate_json_depth (l : Limits) (value : JsonValue) (context : string)
  : result RuntimeError () :=
  validate_json_depth_at value 0 (max_policy_input_depth l) context.

Definition validate_policy_input (l : Limits) (policy_input : JsonValue) : result RuntimeError () :=
  validate_json_depth l policy_input "policy input".

Definition validate_policy_annotations (l : Limits) (annotations : JsonValue)
  : result RuntimeError () :=
  validate_json_depth_at annotations 1 (max_policy_input_depth l) "policy input".

Section validators.
Context `{SerdeJson}.

Definition validate_snapshot (l : Limits) (snapshot : JsonValue) : result RuntimeError () :=
  validate_json_depth l snapshot "snapshot" ;;
  bytes ← map_err (λ err, ResourceLimitExceeded
    ("failed to serialize snapshot for resource limit check: " +:+ err)) (canonical_json snapshot);
  if (max_snapshot_bytes l <? str_len bytes)%N
  then Err (ResourceLimitExceeded ("snapshot serialized size " +:+ fmt_N (str_len bytes) +:+
    " exceeds limit " +:+ fmt_N (max_snapshot_bytes l)))
  else Ok ().

Definition validate_policy_output (l : Limits) (policy_output : JsonValue)
  : result RuntimeError () :=
  validate_json_depth l policy_output "policy output" ;;
  bytes ← map_err (λ err, ResourceLimitExceeded
    ("failed to serialize policy output for resource limit check: " +:+ err))
    (canonical_json policy_output);
  if (max_policy_output_bytes l <? str_len bytes)%N
  then Err (ResourceLimitExceeded ("policy output serialized size " +:+ fmt_N (str_len bytes) +:+
    " exceeds limit " +:+ fmt_N (max_policy_output_bytes l)))
  else Ok ().

Definition validate_annotator_output (l : Limits) (annotator_name : string) (output : JsonValue)
  : result RuntimeError () :=
  map_err (λ err, AnnotationFailed (annotator_name +:+ ": " +:+ error_to_string err))
    (validate_json_depth l output "annotator output") ;;
  map_err (λ err, AnnotationFailed (annotator_name +:+ ": " +:+ err))
    (reject_reserved_reason output) ;;
  bytes ← map_err (λ err, AnnotationFailed
    (annotator_name +:+ ": failed to serialize annotator output: " +:+ err)) (canonical_json output);
  if (max_annotator_output_bytes l <? str_len bytes)%N
  then Err (AnnotationFailed (annotator_name +:+ ": annotator output serialized size " +:+
    fmt_N (str_len bytes) +:+ " exceeds limit " +:+ fmt_N (max_annotator_output_bytes l)))
  else Ok ().
End validators.

(** ** Theorems *)

(** The deepest of a list of members. *)
Lemma depth_for_each {A} (d : A → N) (f : A → result RuntimeError ()) (l : list A) (bound : N) :
  (∀ x, x ∈ l → f x = Ok () ↔ (d x <= bound)%N) →
  for_each f l = Ok () ↔ (foldr (λ x acc, N.max (d x) acc) 0 l <= bound)%N.
Proof.
  intros Hd. rewrite for_each_Ok. induction l as [|x l IH]; cbn; [split; [lia|constructor]|].
  rewrite Forall_cons, IH, Hd by set_solver. lia.
Qed.

Lemma validate_depth_exact v depth max context :
  (depth <= max)%N →
  validate_json_depth_at v depth max context = Ok () ↔ (depth + json_depth v <= max)%N.
Proof.
  revert depth. induction v as [| | | |items IH|m IH] using JsonValue_ind; intros depth Hd;
    cbn [validate_json_depth_at json_depth]; try (split; [lia|done]).
  - destruct (N.ltb_spec max (depth + 1)); [split; [done|lia]|].
    rewrite (depth_for_each json_depth _ _ (max - (depth + 1))); [lia|].
    intros x Hx. rewrite Forall_forall in IH. rewrite IH by (done || lia). lia.
  - destruct (N.ltb_spec max (depth + 1)); [split; [done|lia]|].
    rewrite (depth_for_each (λ e : string * JsonValue, json_depth e.2) _ _ (max - (depth + 1))); [lia|].
    intros x Hx. rewrite Forall_forall in IH. rewrite IH by (done || lia). lia.
Qed.

Lemma validate_depth_error v depth max context e :
  validate_json_depth_at v depth max context = Err e →
  e = ResourceLimitExceeded (context +:+ " JSON nesting depth exceeds limit " +:+ fmt_N max).
Proof.
  revert depth. induction v as [| | | |items IH|m IH] using JsonValue_ind; intros depth;
    cbn [validate_json_depth_at]; try done;
    (destruct (max <? depth + 1)%N; [by intros [= <-]|]); rewrite for_each_Err;
    intros (l1 & x & l2 & -> & _ & He); rewrite Forall_app, Forall_cons in IH;
    destruct IH as (_ & IH & _); by eapply IH.
Qed.

Section limit_theorems.
Context `{AgentHooks}.

Lemma depth_exact l v context :
  (validate_json_depth l v context = Ok () ↔ (json_depth v <= max_policy_input_depth l)%N) ∧
  (∀ e, validate_json_depth l v context = Err e →
    e = ResourceLimitExceeded
      (context +:+ " JSON nesting depth exceeds limit " +:+ fmt_N (max_policy_input_depth l))).
Proof.
  split; [|apply validate_depth_error]. unfold validate_json_depth.
  rewrite validate_depth_exact by lia. lia.
Qed.

(** The depth check is exact: a document passes if and only if its
    collection nesting is at most the limit, whatever the limit, and a
    refusal is always the one resource-limit error. *)
Theorem json_depth_exact l v context :
  (validate_json_depth l v context = Ok () ↔ (json_depth v <= max_policy_input_depth l)%N) ∧
  (∀ e, validate_json_depth l v context = Err e →
    e = ResourceLimitExceeded
      (context +:+ " JSON nesting depth exceeds limit " +:+ fmt_N (max_policy_input_depth l))).
Proof. apply depth_exact. Qed.

(** Replacing the annotations of a policy input that passed the depth
    check with annotations that pass the incremental check is the same as
    checking the whole new policy input; and the incremental check refuses
    annotations the whole check would refuse. *)
Theorem annotations_check_incremental l p path kind value snapshot old new tool :
  validate_policy_input l (build_policy_input p path kind value snapshot old tool) = Ok () →
  validate_policy_annotations l new =
  validate_policy_input l (build_policy_input p path kind value snapshot new tool).
Proof.
  unfold validate_policy_input, validate_policy_annotations. intros Hold.
  apply depth_exact in Hold. rewrite !build_policy_input_members in *.
  set (doc := JObject _). pose proof (depth_exact l doc "policy input") as [Hnew Herr].
  assert (json_depth doc = N.max (json_depth new + 1) (json_depth doc)) as Hdoc
    by (cbn -[N.add N.max]; lia).
  assert (json_depth doc <= N.max (max_policy_input_depth l) (json_depth new + 1))%N as Hle
    by (cbn -[N.add N.max] in *; lia).
  assert (1 <= max_policy_input_depth l)%N as Hmax by (cbn -[N.add N.max] in Hold; lia).
  pose proof (validate_depth_exact new 1 _ "policy input" Hmax) as Hann.
  clearbody doc. clear Hold.
  destruct (validate_json_depth_at new _ _ _) as [[]|e1] eqn:Ha,
    (validate_json_depth l doc _) as [[]|e2] eqn:Hb; [done| | |].
  - apply proj1 in Hann. specialize (Hann eq_refl). apply proj2 in Hnew.
    discriminate Hnew. lia.
  - apply proj2 in Hann. apply proj1 in Hnew. specialize (Hnew eq_refl). discriminate Hann. lia.
  - apply validate_depth_error in Ha. by rewrite (Herr _ eq_refl), Ha.
Qed.
End limit_theorems.

(** The reasons an annotator output carries anywhere in it. *)
Inductive carries_reason : string → JsonValue → Prop :=
  | carries_here r m : bt_get "reason" m = Some (JString r) → carries_reason r (JObject m)
  | carries_item r items v : v ∈ items → carries_reason r v → carries_reason r (JArray items)
  | carries_member r m k v : (k, v) ∈ m → carries_reason r v → carries_reason r (JObject m).

Lemma reject_reserved_reason_exact v :
  reject_reserved_reason v = Ok () ↔
  ∀ r, carries_reason r v → starts_with "runtime_error:" r = false.
Proof.
  induction v as [| | | |items IH|m IH] using JsonValue_ind; cbn [reject_reserved_reason];
    try (split; [inversion 2|done]).
  - rewrite for_each_Ok, Forall_forall. rewrite Forall_forall in IH. split.
    + intros Hall r Hr. inversion Hr; subst. by eapply IH; eauto.
    + intros Hall x Hx. apply IH; [done|]. intros r Hr. apply Hall. by econstructor.
  - rewrite Forall_forall in IH. rewrite bind_Ok. split.
    + intros ([] & Hhere & Hall) r Hr. rewrite for_each_Ok, Forall_forall in Hall.
      inversion Hr as [? ? Hg|? ? ? ? ?|? ? k v Hk Hv]; subst.
      * rewrite Hg in Hhere. destruct (starts_with _ r); [done|done].
      * apply (IH (k, v)); [done| |done]. by apply Hall.
    + intros Hall. exists (). split.
      * destruct (bt_get "reason" m) as [[]|] eqn:Hg; try done.
        by rewrite Hall by (by constructor).
      * apply for_each_Ok, Forall_forall. intros [k v] Hk. apply (IH (k, v)); [done|].
        intros r Hr. apply Hall. by econstructor.
Qed.

(** ** Witness *)

Section limits_samples.
#[local] Existing Instance demo_hooks.

Lemma annotations_check_incremental_witness :
  validate_policy_annotations (mkLimits 10 3 1 1 1 1 1 1 1 1 1 1 1 1 1 1) (JObject [("a", JArray [JNull])]) =
  validate_policy_input (mkLimits 10 3 1 1 1 1 1 1 1 1 1 1 1 1 1 1)
    (build_policy_input Input "$snap" None JNull JNull (JObject [("a", JArray [JNull])]) JNull).
Proof.
  apply (annotations_check_incremental _ Input "$snap" None JNull JNull (JObject [])).
  vm_compute. reflexivity.
Defined.
End limits_samples.
