(* ===== verification/Hex.v ===== *)
(** * Hexadecimal digests: [engine/src/hex.rs] and the digest parsers of
    [engine/src/manifest.rs] *)

From S2P Require Import Prelude RustStd Errors Constants.

Definition HEX : string := "0123456789abcdef".

Definition hex_digit (n : N) : Ascii.ascii :=
  default (byte_of 0) (String.get (N.to_nat n) HEX).

(** [hex::lower]: two digits per byte. *)
Fixpoint lower (bytes : list Ascii.ascii) : string :=
  match bytes with
  | [] => ""
  | byte :: bytes =>
      String (hex_digit (N.shiftr (Ascii.N_of_ascii byte) 4))
        (String (hex_digit (N.land (Ascii.N_of_ascii byte) 15)) (lower bytes))
  end.

(** [u8::from_str_radix] on two characters. *)
Definition hex_value (c : Ascii.ascii) : option N :=
  let n := Ascii.N_of_ascii c in
  if is_ascii_digit c then Some (n - 48)%N
  else if in_range 97 102 c then Some (n - 87)%N
  else if in_range 65 70 c then Some (n - 55)%N
  else None.
Definition u8_from_hex (a b : Ascii.ascii) : option Ascii.ascii :=
  hi ← hex_value a; lo ← hex_value b; Some (byte_of (hi * 16 + lo)).

(** The loop over the pairs of characters. *)
Fixpoint parse_hex_pairs (error : RuntimeError) (s : string)
  : result RuntimeError (list Ascii.ascii) :=
  match s with
  | String a (String b s) =>
      byte ← ok_or (u8_from_hex a b) error;
      bytes ← parse_hex_pairs error s;
      Ok (byte :: bytes)
  | _ => Ok []
  end.

Definition parse_sha256_hex_with_context (raw context : string)
  : result RuntimeError (list Ascii.ascii) :=
  let trimmed := trim raw in
  if negb (Nat.eqb (String.length trimmed) HEX_LEN) || negb (all_bytes is_ascii_hexdigit trimmed)
  then Err (ManifestInvalid (context +:+ " sha256 '" +:+ raw +:+ "' must be " +:+
    fmt_N (N.of_nat HEX_LEN) +:+ " lowercase or uppercase hex characters"))
  else
    parse_hex_pairs (ManifestInvalid (context +:+ " sha256 '" +:+ raw +:+
      "' is invalid: invalid digit found in string")) trimmed.

Definition parse_sha256_hex (raw : string) : result RuntimeError (list Ascii.ascii) :=
  parse_sha256_hex_with_context raw "extends".

(** ** Lemmas *)

Lemma lower_length bytes : String.length (lower bytes) = 2 * length bytes.
Proof. induction bytes as [|b bytes IH]; cbn; lia. Qed.

(** Every byte's two digits read back as the byte: 256 cases. *)
Definition byte_round_trip (n : N) : bool :=
  bool_decide (u8_from_hex (hex_digit (N.shiftr n 4)) (hex_digit (N.land n 15)) = Some (byte_of n)) &&
  (is_ascii_hexdigit (hex_digit (N.shiftr n 4)) && is_ascii_hexdigit (hex_digit (N.land n 15))).

Lemma byte_round_trip_true b : byte_round_trip (Ascii.N_of_ascii b) = true.
Proof. apply byte_cases. vm_compute. reflexivity. Qed.

Lemma u8_from_hex_lower b :
  u8_from_hex (hex_digit (N.shiftr (Ascii.N_of_ascii b) 4))
    (hex_digit (N.land (Ascii.N_of_ascii b) 15)) = Some b.
Proof.
  pose proof (byte_round_trip_true b) as Hb. apply andb_true_iff in Hb as [Hb _].
  apply bool_decide_eq_true in Hb. rewrite Hb. unfold byte_of. by rewrite Ascii.ascii_N_embedding.
Qed.

Lemma lower_hexdigits bytes : all_bytes is_ascii_hexdigit (lower bytes) = true.
Proof.
  induction bytes as [|b bytes IH]; [done|]. cbn [lower all_bytes]. rewrite IH.
  pose proof (byte_round_trip_true b) as Hb. unfold byte_round_trip in Hb. b2p.
  by rewrite H0, H1.
Qed.

Lemma hexdigit_not_white c : is_ascii_hexdigit c = true → negb (white_lead c) = true.
Proof.
  pose proof (byte_cases (λ n, implb (is_ascii_hexdigit (byte_of n)) (negb (white_lead (byte_of n))))
    ltac:(vm_compute; reflexivity) c) as Hc.
  unfold byte_of in Hc. rewrite Ascii.ascii_N_embedding in Hc. by intros Hdigit; rewrite Hdigit in Hc.
Qed.

Lemma lower_trim bytes : trim (lower bytes) = lower bytes.
Proof. apply trim_id. eapply all_bytes_impl, lower_hexdigits. apply hexdigit_not_white. Qed.

Lemma parse_hex_pairs_lower error bytes : parse_hex_pairs error (lower bytes) = Ok bytes.
Proof.
  induction bytes as [|b bytes IH]; [done|]. cbn [lower parse_hex_pairs].
  rewrite u8_from_hex_lower. cbn [ok_or mbind result_bind]. by rewrite IH.
Qed.

Lemma parse_hex_pairs_length error s bytes :
  parse_hex_pairs error s = Ok bytes → Nat.even (String.length s) = true →
  2 * length bytes = String.length s.
Proof.
  remember (String.length s) as n eqn:Hn. assert (String.length s <= n)%nat as Hle by lia.
  subst n. revert Hle. generalize (String.length s) at 2. intros n. revert s bytes.
  induction n as [|n IH]; intros s bytes Hle Hp Heven; destruct s as [|a [|b s]]; cbn in *;
    try lia; inv_ok; cbn; try done.
  rewrite <-(IH s a1); [lia|lia|done|done].
Qed.
