(* ===== verification/Pins.v ===== *)
(** * Remote documents and their pins: [engine/src/manifest.rs]

    The [extends] entries, HTTPS validation and content digests. URL
    parsing ([url]), base64 ([base64]) and the derived deserializer of a
    pinned source ([serde]) are third-party or generated code, given as
    operations. *)

From S2P Require Import Prelude OrdMap RustStd Json Errors AgentHooks Constants Hex Concrete.

(** ** The crates *)

(** What the engine reads of a parsed [url::Url]. *)
Record ParsedUrl := mkUrl {
  url_text : string;
  url_scheme : string;
  url_username : string;
  url_password : option string;
  url_fragment : option string;
  url_path : string }.

Inductive UrlError : Type :=
  | RelativeUrlWithoutBase
  | UrlInvalid (message : string).

Definition url_error_text (e : UrlError) : string :=
  match e with
  | RelativeUrlWithoutBase => "relative URL without a base"
  | UrlInvalid message => message
  end.

Record PinnedHttpsSource := mkPinned {
  pin_url : string;
  pin_integrity : option string;
  pin_sha256 : option string }.

Class UrlCrate := {
  url_parse : string → result UrlError ParsedUrl;
  url_join : ParsedUrl → string → result UrlError ParsedUrl;
  (** The four base64 alphabets, in the order the engine tries them. *)
  base64_decode : nat → string → option (list Ascii.ascii);
  (** [serde_json::from_value::<PinnedHttpsSource>]; the error is its message. *)
  pinned_from_json : JsonValue → result string PinnedHttpsSource;
}.

(** ** Data *)

Record ManifestUrlExtends := mkUrlExtends {
  ue_url : string;
  ue_integrity : option string;
  ue_sha256 : option string }.

Inductive ManifestExtends : Type :=
  | Reference (reference : string)
  | ExtendsUrl (url : ManifestUrlExtends).

#[export] Instance ManifestUrlExtends_eq_dec : EqDecision ManifestUrlExtends.
Proof. solve_decision. Defined.
#[export] Instance ManifestExtends_eq_dec : EqDecision ManifestExtends.
Proof. solve_decision. Defined.
#[export] Instance PinnedHttpsSource_eq_dec : EqDecision PinnedHttpsSource.
Proof. solve_decision. Defined.

Definition extends_reference (e : ManifestExtends) : string :=
  match e with Reference reference => reference | ExtendsUrl url => ue_url url end.

Definition is_pinned (e : ManifestExtends) : bool :=
  match e with
  | ExtendsUrl url =>
      bool_decide (is_Some (ue_integrity url)) || bool_decide (is_Some (ue_sha256 url))
  | Reference _ => false
  end.

(** ** URLs *)

Section urls.
Context `{UrlCrate}.

Definition validate_url_components_with_context (parsed : ParsedUrl) (context : string)
  : result RuntimeError string :=
  if negb (bool_decide (url_scheme parsed = "https")) then
    Err (ManifestInvalid (context +:+ " URL '" +:+ url_text parsed +:+
      "' uses unsupported URL scheme '" +:+ url_scheme parsed +:+ "'; only https is allowed"))
  else if negb (str_is_empty (url_username parsed)) || bool_decide (is_Some (url_password parsed)) then
    Err (ManifestInvalid (context +:+ " URL '" +:+ url_text parsed +:+ "' must not include credentials"))
  else if bool_decide (is_Some (url_fragment parsed)) then
    Err (ManifestInvalid (context +:+ " URL '" +:+ url_text parsed +:+ "' must not include a fragment"))
  else Ok (url_text parsed).

Definition validate_url_components (parsed : ParsedUrl) : result RuntimeError string :=
  validate_url_components_with_context parsed "extends".

Definition validate_https_url_with_context (raw context : string) : result RuntimeError string :=
  parsed ← map_err (λ err, ManifestInvalid
    (context +:+ " URL '" +:+ raw +:+ "' is invalid: " +:+ url_error_text err)) (url_parse raw);
  validate_url_components_with_context parsed context.

Definition validate_https_url (raw : string) : result RuntimeError string :=
  validate_https_url_with_context raw "extends".

(** The text before the first occurrence of a byte. *)
Fixpoint before (c : Ascii.ascii) (s : string) : option string :=
  match s with
  | EmptyString => None
  | String d s => if decide (d = c) then Some "" else String d <$> before c s
  end.

Definition has_url_scheme (reference : string) : bool :=
  let trimmed := trim_start reference in
  if negb (str_contains "://" trimmed) then false
  else
    match before (byte_of 58) trimmed with
    | None => false
    | Some scheme =>
        match scheme with EmptyString => false | String ch _ => is_ascii_alphabetic ch end &&
        all_bytes (λ ch, is_ascii_alphanumeric ch || in_range 43 43 ch || in_range 45 46 ch) scheme
    end.

(** ** Digests *)

Definition parse_integrity_with_context (raw context : string)
  : result RuntimeError (list Ascii.ascii) :=
  let invalid := ManifestInvalid (context +:+ " integrity '" +:+ raw +:+ "' must use sha256-<base64>") in
  digest ← ok_or (strip_prefix "sha256-" (trim raw)) invalid;
  decoded ← ok_or (head (omap (λ alphabet, base64_decode alphabet digest) [0; 1; 2; 3])) invalid;
  if negb (Nat.eqb (length decoded) DIGEST_BYTES) then
    Err (ManifestInvalid (context +:+ " integrity '" +:+ raw +:+ "' must contain a " +:+
      fmt_N (N.of_nat DIGEST_BYTES) +:+ " byte sha256 digest"))
  else Ok decoded.

Definition parse_integrity (raw : string) : result RuntimeError (list Ascii.ascii) :=
  parse_integrity_with_context raw "extends".

Definition pinned_digest (source : PinnedHttpsSource) : result RuntimeError (list Ascii.ascii) :=
  match pin_sha256 source, pin_integrity source with
  | Some hash, None => parse_sha256_hex_with_context hash "artifact"
  | None, Some hash => parse_integrity_with_context hash "artifact"
  | _, _ => Err (ManifestInvalid
      "pinned HTTPS source requires exactly one of sha256 or integrity")
  end.

Definition pinned_validate (source : PinnedHttpsSource) : result RuntimeError () :=
  validate_https_url_with_context (pin_url source) "artifact" ;;
  pinned_digest source ;;
  Ok ().

Definition pinned_from_value (value : JsonValue) : result RuntimeError PinnedHttpsSource :=
  source ← map_err (λ err, ManifestInvalid ("invalid pinned HTTPS source: " +:+ err))
    (pinned_from_json value);
  pinned_validate source ;;
  Ok source.

Definition validate_extends_trust (extends : ManifestExtends) : result RuntimeError () :=
  match extends with
  | Reference _ => Ok ()
  | ExtendsUrl url =>
      if bool_decide (is_Some (ue_integrity url)) && bool_decide (is_Some (ue_sha256 url)) then
        Err (ManifestInvalid ("extends URL '" +:+ ue_url url +:+
          "' must not define both integrity and sha256"))
      else
        match ue_integrity url with
        | Some integrity => parse_integrity integrity ;; Ok ()
        | None => Ok ()
        end ;;
        match ue_sha256 url with
        | Some sha256 => parse_sha256_hex sha256 ;; Ok ()
        | None => Ok ()
        end
  end.

Definition verify_extends_hash `{Sha2} (extends : ManifestExtends) (url : string)
  (body : list Ascii.ascii) : result RuntimeError () :=
  match extends with
  | Reference _ => Ok ()
  | ExtendsUrl url_extends =>
      let actual := sha256 body in
      match ue_sha256 url_extends with
      | Some expected =>
          expected ← parse_sha256_hex expected;
          if bool_decide (actual = expected) then Ok ()
          else Err (ManifestInvalid ("sha256 mismatch for extends URL '" +:+ url +:+ "'"))
      | None => Ok ()
      end ;;
      match ue_integrity url_extends with
      | Some expected =>
          expected ← parse_integrity expected;
          if bool_decide (actual = expected) then Ok ()
          else Err (ManifestInvalid ("integrity mismatch for extends URL '" +:+ url +:+ "'"))
      | None => Ok ()
      end
  end.

(** ** Theorems *)

Lemma parse_sha256_hex_lower bytes context :
  length bytes = DIGEST_BYTES → parse_sha256_hex_with_context (lower bytes) context = Ok bytes.
Proof.
  intros Hlen. unfold parse_sha256_hex_with_context. rewrite lower_trim, lower_length, Hlen, lower_hexdigits.
  apply parse_hex_pairs_lower.
Qed.

Lemma parse_sha256_hex_length raw context bytes :
  parse_sha256_hex_with_context raw context = Ok bytes → length bytes = DIGEST_BYTES.
Proof.
  unfold parse_sha256_hex_with_context. destruct (Nat.eqb _ _) eqn:Hlen; [|done].
  destruct (all_bytes _ _); [|done]. cbn [negb orb]. intros Hp. apply Nat.eqb_eq in Hlen.
  apply parse_hex_pairs_length in Hp; [|by rewrite Hlen]. unfold DIGEST_BYTES, HEX_LEN in *. lia.
Qed.

(** A pin admits exactly the bytes it names. A pin written with the
    engine's own hex encoding of a document's digest accepts a body if and
    only if its digest is the same one; every pin the engine accepts for
    verification is a full 32 byte digest; and an entry that declares both
    kinds of pin is refused before anything is fetched. *)
Theorem sha256_pin_exact `{Sha2Laws} document url where_ body :
  (verify_extends_hash (ExtendsUrl (mkUrlExtends url None (Some (lower (sha256 document))))) where_ body = Ok ()
    ↔ sha256 body = sha256 document) ∧
  (∀ integrity hex, is_ok (validate_extends_trust (ExtendsUrl (mkUrlExtends url (Some integrity) (Some hex)))) = false) ∧
  (∀ integrity hex, verify_extends_hash (ExtendsUrl (mkUrlExtends url integrity hex)) where_ body = Ok () →
    (∀ raw, hex = Some raw → parse_sha256_hex raw = Ok (sha256 body)) ∧
    (∀ raw, integrity = Some raw → parse_integrity raw = Ok (sha256 body))).
Proof.
  split_and!.
  - cbn. unfold parse_sha256_hex. rewrite parse_sha256_hex_lower by apply sha256_length. cbn.
    case_bool_decide as Heq; cbn; split; congruence.
  - intros integrity hex. cbn. done.
  - intros integrity hex. cbn. intros Hv. apply bind_Ok in Hv as ([] & Hhex & Hint). split.
    + intros raw ->. apply bind_Ok in Hhex as (expected & -> & Hhex).
      case_bool_decide; [by subst|done].
    + intros raw ->. apply bind_Ok in Hint as (expected & -> & Hint).
      case_bool_decide; [by subst|done].
Qed.

(** The only URLs that pass are plain HTTPS ones. *)
Lemma validate_https_url_Ok raw context text :
  validate_https_url_with_context raw context = Ok text →
  ∃ parsed, url_parse raw = Ok parsed ∧ url_text parsed = text ∧ url_scheme parsed = "https" ∧
    url_username parsed = "" ∧ url_password parsed = None ∧ url_fragment parsed = None.
Proof.
  unfold validate_https_url_with_context, validate_url_components_with_context. intros Hv.
  apply bind_Ok in Hv as (parsed & Hp & Hv). apply map_err_Ok in Hp. exists parsed.
  destruct (bool_decide (url_scheme parsed = "https")) eqn:Hs; [|done].
  destruct (str_is_empty (url_username parsed)) eqn:Hu; [|done]. cbn in Hv.
  destruct (url_password parsed) eqn:Hpw; cbn in Hv; [done|].
  destruct (url_fragment parsed) eqn:Hfr; cbn in Hv; [done|].
  apply str_is_empty_true in Hu. b2p. injection Hv as <-. done.
Qed.
End urls.

(** ** Witness *)

(** A stand-in parser: a scheme, the separator, the rest. *)
Definition demo_url_parse (raw : string) : result UrlError ParsedUrl :=
  if str_contains "://" raw then
    match before (byte_of 58) raw with
    | Some scheme => Ok (mkUrl raw scheme "" None None "/")
    | None => Err (UrlInvalid "no scheme")
    end
  else Err RelativeUrlWithoutBase.
Definition demo_url : UrlCrate := {|
  url_parse := demo_url_parse;
  url_join base rest := demo_url_parse (url_text base +:+ "/" +:+ rest);
  base64_decode _ s := Some (String.list_ascii_of_string s);
  pinned_from_json v :=
    match json_get "url" v, json_get "sha256" v with
    | Some (JString url), Some (JString hash) => Ok (mkPinned url None (Some hash))
    | _, _ => Err "missing field"
    end |}.

Lemma sha256_pin_exact_witness :
  @verify_extends_hash demo_url demo_sha
    (ExtendsUrl (mkUrlExtends "https://a" None
      (Some (lower (@sha256 demo_sha (String.list_ascii_of_string "doc")))))) "https://a"
    (String.list_ascii_of_string "doc") = Ok ().
Proof.
  apply (@sha256_pin_exact demo_url demo_sha demo_sha_laws (String.list_ascii_of_string "doc")).
  reflexivity.
Defined.
