(* ===== verification/Policy.v ===== *)
(** * Policies and bindings: [engine/src/policy.rs]

    Policy definitions, the validation of a definition and of a binding,
    the prepared invocation, the gates for fetched documents, and the
    digest of an in-memory Rego bundle. *)

From S2P Require Import Prelude OrdMap RustStd Json Errors AgentHooks Constants Hex Pins.
From S2P Require Import PolicyInput.

Notation adapter := (btree string JsonValue).

(** ** Data *)

Record MountedRegoData := mkMounted { mount : list string; document : JsonValue }.

Record InMemoryRegoBundle := mkBundle {
  bundle_modules : btree string string;
  bundle_data : list MountedRegoData;
  bundle_digest : string }.

Record RegoPolicyConfig := mkRego {
  rego_query : option string;
  rego_bundle : option string;
  rego_inline_bundle : option InMemoryRegoBundle;
  rego_adapter_config : adapter }.

Record CedarPolicyConfig := mkCedar {
  cedar_policy_set : option string;
  cedar_policy_path : option string;
  cedar_entities_path : option string;
  cedar_schema_path : option string;
  cedar_query : option JsonValue }.

Record TestPolicyConfig := mkTest { test_adapter_config : adapter }.
Record CustomPolicyConfig := mkCustom { custom_adapter : string; custom_adapter_config : adapter }.

Inductive PolicyConfig : Type :=
  | PolicyRego (config : RegoPolicyConfig)
  | PolicyCedar (config : CedarPolicyConfig)
  | PolicyTest (config : TestPolicyConfig)
  | PolicyCustom (config : CustomPolicyConfig).

Record PolicyBinding := mkBinding {
  binding_id : string;
  binding_query : option string;
  binding_adapter_config : adapter }.

Record RegoPolicyInvocation := mkRegoInvocation {
  ri_query : string;
  ri_bundle : option string;
  ri_inline_bundle : option InMemoryRegoBundle;
  ri_adapter_config : adapter;
  ri_input : JsonValue;
  ri_canonical_input : string }.

Record CedarPolicyInvocation := mkCedarInvocation {
  ci_policy_set : option string;
  ci_policy_path : option string;
  ci_entities_path : option string;
  ci_schema_path : option string;
  ci_input : JsonValue;
  ci_canonical_input : string }.

Record TestPolicyInvocation := mkTestInvocation {
  ti_adapter_config : adapter; ti_input : JsonValue; ti_canonical_input : string }.
Record CustomPolicyInvocation := mkCustomInvocation {
  cu_adapter : string; cu_adapter_config : adapter; cu_input : JsonValue;
  cu_canonical_input : string }.

Inductive PreparedPolicyInvocation : Type :=
  | PreparedRego (invocation : RegoPolicyInvocation)
  | PreparedCedar (invocation : CedarPolicyInvocation)
  | PreparedTest (invocation : TestPolicyInvocation)
  | PreparedCustom (invocation : CustomPolicyInvocation).

#[export] Instance MountedRegoData_eq_dec : EqDecision MountedRegoData.
Proof. solve_decision. Defined.
#[export] Instance InMemoryRegoBundle_eq_dec : EqDecision InMemoryRegoBundle.
Proof. solve_decision. Defined.
#[export] Instance RegoPolicyConfig_eq_dec : EqDecision RegoPolicyConfig.
Proof. solve_decision. Defined.
#[export] Instance CedarPolicyConfig_eq_dec : EqDecision CedarPolicyConfig.
Proof. solve_decision. Defined.
#[export] Instance TestPolicyConfig_eq_dec : EqDecision TestPolicyConfig.
Proof. solve_decision. Defined.
#[export] Instance CustomPolicyConfig_eq_dec : EqDecision CustomPolicyConfig.
Proof. solve_decision. Defined.
#[export] Instance PolicyConfig_eq_dec : EqDecision PolicyConfig.
Proof. solve_decision. Defined.
#[export] Instance PolicyBinding_eq_dec : EqDecision PolicyBinding.
Proof. solve_decision. Defined.

Definition policy_engine_type (config : PolicyConfig) : string :=
  match config with
  | PolicyRego _ => engine_REGO | PolicyCedar _ => engine_CEDAR
  | PolicyTest _ => engine_TEST | PolicyCustom _ => engine_CUSTOM
  end.

Definition prepared_engine_type (invocation : PreparedPolicyInvocation) : string :=
  match invocation with
  | PreparedRego _ => engine_REGO | PreparedCedar _ => engine_CEDAR
  | PreparedTest _ => engine_TEST | PreparedCustom _ => engine_CUSTOM
  end.

Definition prepared_policy_input (invocation : PreparedPolicyInvocation) : option JsonValue :=
  match invocation with
  | PreparedRego i => Some (ri_input i) | PreparedCedar i => Some (ci_input i)
  | PreparedTest i => Some (ti_input i) | PreparedCustom i => Some (cu_input i)
  end.

(** ** Relative paths

    [std::path] on a Unix host: a path is absolute when it starts with a
    separator, and [join] puts one between the two parts when the first
    does not already end in one. *)

Definition path_is_absolute (p : string) : bool := starts_with "/" p.

Definition ends_with_slash (p : string) : bool :=
  match String.get (String.length p - 1) p with
  | Some c => bool_decide (c = byte_of 47)
  | None => false
  end.

Definition path_join (base rest : string) : string :=
  if path_is_absolute rest then rest
  else if str_is_empty base || ends_with_slash base then base +:+ rest
  else base +:+ "/" +:+ rest.

Definition DATA_PATH_KEYS : list string := ["data"; "data_paths"].

Definition resolve_relative_string (value base_dir : string) : option string :=
  if str_is_empty value then None
  else if path_is_absolute value then None
  else Some (path_join base_dir value).

Definition resolve_data_path_value (base_dir : string) (value : JsonValue) : JsonValue :=
  let resolve_item (item : JsonValue) :=
    match item with
    | JString path => JString (default path (resolve_relative_string path base_dir))
    | other => other
    end in
  match value with
  | JString _ => resolve_item value
  | JArray items => JArray (resolve_item <$> items)
  | other => other
  end.

Definition resolve_adapter_config_paths (adapter_config : adapter) (base_dir : string) : adapter :=
  fold_left (λ (config : adapter) key,
    match bt_get key config with
    | Some value => bt_insert key (resolve_data_path_value base_dir value) config
    | None => config
    end) DATA_PATH_KEYS adapter_config.

Definition resolve_optional_path (path : option string) (base_dir : string) : option string :=
  match path with
  | Some value => Some (default value (resolve_relative_string value base_dir))
  | None => None
  end.

Definition policy_resolve_relative_paths (config : PolicyConfig) (base_dir : string) : PolicyConfig :=
  match config with
  | PolicyRego c => PolicyRego (mkRego (rego_query c) (resolve_optional_path (rego_bundle c) base_dir)
      (rego_inline_bundle c) (resolve_adapter_config_paths (rego_adapter_config c) base_dir))
  | PolicyCedar c => PolicyCedar (mkCedar (cedar_policy_set c)
      (resolve_optional_path (cedar_policy_path c) base_dir)
      (resolve_optional_path (cedar_entities_path c) base_dir)
      (resolve_optional_path (cedar_schema_path c) base_dir) (cedar_query c))
  | PolicyTest c => PolicyTest (mkTest (resolve_adapter_config_paths (test_adapter_config c) base_dir))
  | PolicyCustom c => PolicyCustom (mkCustom (custom_adapter c)
      (resolve_adapter_config_paths (custom_adapter_config c) base_dir))
  end.

Definition binding_resolve_relative_paths (binding : PolicyBinding) (base_dir : string)
  : PolicyBinding :=
  mkBinding (binding_id binding) (binding_query binding)
    (resolve_adapter_config_paths (binding_adapter_config binding) base_dir).

(** ** Gates for fetched documents *)

Definition filesystem_field_error (document context field alternative : string) : RuntimeError :=
  ManifestInvalid (document +:+ ": " +:+ context +:+ " declares filesystem path field '" +:+ field +:+
    "'; a " +:+ MARKER +:+ " cannot reference host files, use " +:+ alternative +:+ " instead").

Definition reject_adapter_data_paths (document context : string) (adapter_config : adapter)
  : result RuntimeError () :=
  for_each (λ key,
    if bt_contains key adapter_config
    then Err (filesystem_field_error document context key
      "a policy declared in a file under the manifest root")
    else Ok ()) DATA_PATH_KEYS.

Definition reject_remote_bundle_key (document context : string) (adapter_config : adapter)
  : result RuntimeError () :=
  if bt_contains BUNDLE_URL adapter_config then
    Err (ManifestInvalid (document +:+ ": " +:+ context +:+ " declares a remote rego '" +:+
      BUNDLE_URL +:+ "' on an unpinned path; a " +:+ MARKER +:+
      " may name one only when every URL extends from the root manifest to this document is pinned with sha256 or integrity, and a document the host marked carries no pin"))
  else Ok ().

(** [split('.')]: the pieces between the separators, at least one. *)
Fixpoint split_dot (s : string) : list string :=
  match s with
  | EmptyString => [""]
  | String c s =>
      if decide (c = byte_of 46) then "" :: split_dot s
      else match split_dot s with
           | piece :: pieces => String c piece :: pieces
           | [] => [String c ""]
           end
  end.

Definition is_rule_path (query : string) : bool :=
  match strip_prefix "data." query with
  | None => false
  | Some rest =>
      negb (str_is_empty rest) &&
      forallb (λ segment, negb (str_is_empty segment) &&
        all_bytes (λ c, is_ascii_alphanumeric c || bool_decide (c = byte_of 95)) segment)
        (split_dot rest)
  end.

Definition reject_non_rule_query_text (document context query : string) : result RuntimeError () :=
  if is_rule_path query then Ok ()
  else Err (ManifestInvalid (document +:+ ": " +:+ context +:+ " declares rego query '" +:+ query +:+
    "' that is not a plain rule path; a " +:+ MARKER +:+
    " may only name a rule such as data.acs.decision, because an expression query runs as code inside the policy engine")).

Definition policy_reject_filesystem_path_fields (config : PolicyConfig) (document context : string)
  : result RuntimeError () :=
  match config with
  | PolicyRego c =>
      if bool_decide (is_Some (rego_bundle c)) then
        Err (filesystem_field_error document context "bundle"
          "in-memory modules through set_rego_bundle_in_memory, a host supplied policy dispatcher, or a policy declared in a file under the manifest root")
      else reject_adapter_data_paths document context (rego_adapter_config c)
  | PolicyCedar c =>
      for_each (λ fv : string * option string,
        if bool_decide (is_Some fv.2)
        then Err (filesystem_field_error document context fv.1 "inline policy_set") else Ok ())
        [("policy_path", cedar_policy_path c); ("entities_path", cedar_entities_path c);
         ("schema_path", cedar_schema_path c)]
  | PolicyTest c => reject_adapter_data_paths document context (test_adapter_config c)
  | PolicyCustom c => reject_adapter_data_paths document context (custom_adapter_config c)
  end.

Definition policy_reject_remote_bundle_field (config : PolicyConfig) (document context : string)
  : result RuntimeError () :=
  match config with
  | PolicyRego c => reject_remote_bundle_key document context (rego_adapter_config c)
  | PolicyTest c => reject_remote_bundle_key document context (test_adapter_config c)
  | PolicyCustom c => reject_remote_bundle_key document context (custom_adapter_config c)
  | PolicyCedar _ => Ok ()
  end.

Definition policy_reject_non_rule_query (config : PolicyConfig) (document context : string)
  : result RuntimeError () :=
  match config with
  | PolicyRego c =>
      match rego_query c with
      | Some query => reject_non_rule_query_text document context query
      | None => Ok ()
      end
  | _ => Ok ()
  end.

Definition binding_reject_filesystem_path_fields (binding : PolicyBinding) (document context : string)
  : result RuntimeError () :=
  reject_adapter_data_paths document context (binding_adapter_config binding).

Definition binding_reject_remote_bundle_field (binding : PolicyBinding) (document context : string)
  : result RuntimeError () :=
  reject_remote_bundle_key document context (binding_adapter_config binding).

Definition binding_reject_non_rule_query (binding : PolicyBinding) (document context : string)
  : result RuntimeError () :=
  match binding_query binding with
  | Some query => reject_non_rule_query_text document context query
  | None => Ok ()
  end.

(** ** Sources of a Rego policy *)

Section rego_sources.
Context `{UrlCrate}.

(** [Option::map(from_value).transpose()]. *)
Definition rego_bundle_url (bundle : option string) (inline : bool) (adapter_config : adapter)
  : result RuntimeError (option PinnedHttpsSource) :=
  let remote := bt_get "bundle_url" adapter_config in
  let one (b : bool) := if b then 1%nat else 0%nat in
  if (1 <? one (bool_decide (is_Some bundle)) + one inline + one (bool_decide (is_Some remote)))%nat
  then Err (ManifestInvalid "Rego policy must not combine bundle, inline_bundle, and bundle_url")
  else
    match remote with
    | Some value => source ← pinned_from_value value; Ok (Some source)
    | None => Ok None
    end.

Definition config_bundle_url (c : RegoPolicyConfig) : result RuntimeError (option PinnedHttpsSource) :=
  rego_bundle_url (rego_bundle c) (bool_decide (is_Some (rego_inline_bundle c))) (rego_adapter_config c).

Definition invocation_bundle_url (i : RegoPolicyInvocation)
  : result RuntimeError (option PinnedHttpsSource) :=
  map_err (λ err, PolicyInvocationFailed (detail err))
    (rego_bundle_url (ri_bundle i) (bool_decide (is_Some (ri_inline_bundle i))) (ri_adapter_config i)).

(** ** Validation *)

Definition validate_required_string (field value : string) : result RuntimeError () :=
  if blank value then Err (ManifestInvalid (field +:+ " must not be empty")) else Ok ().

Definition validate_optional_string (field : string) (value : option string)
  : result RuntimeError () :=
  match value with
  | Some value => if blank value then Err (ManifestInvalid (field +:+ " must not be empty")) else Ok ()
  | None => Ok ()
  end.

Definition CEDAR_FIXED_MAPPING : string :=
  "the Cedar request is built from the policy input by the fixed mapping in SPECIFICATION.md 12.4 (principal, action, resource and context); remove the field".

Definition validate_cedar_config (c : CedarPolicyConfig) : result RuntimeError () :=
  match cedar_policy_set c, cedar_policy_path c with
  | Some _, Some _ => Err (ManifestInvalid
      "cedar policies must declare exactly one of policy_set or policy_path, not both")
  | None, None => Err (ManifestInvalid
      "cedar policies must declare exactly one of policy_set or policy_path")
  | _, _ => Ok ()
  end ;;
  validate_optional_string "cedar.policy_set" (cedar_policy_set c) ;;
  validate_optional_string "cedar.policy_path" (cedar_policy_path c) ;;
  validate_optional_string "cedar.entities_path" (cedar_entities_path c) ;;
  validate_optional_string "cedar.schema_path" (cedar_schema_path c) ;;
  if bool_decide (is_Some (cedar_query c))
  then Err (ManifestInvalid ("cedar.query is not supported: " +:+ CEDAR_FIXED_MAPPING))
  else Ok ().

(** The [?] of the Rego arm leaves the function at once: its errors do not
    pass through the [map_err] that names the policy. *)
Definition validate_policy_definition (name : string) (config : PolicyConfig)
  : result RuntimeError () :=
  let named := map_err (A := unit) (λ error,
    ManifestInvalid ("invalid policy '" +:+ name +:+ "': " +:+ detail error)) in
  match config with
  | PolicyRego c =>
      validate_optional_string "rego.query" (rego_query c) ;;
      validate_optional_string "rego.bundle" (rego_bundle c) ;;
      config_bundle_url c ;;
      for_each (λ field,
        if bt_contains field (rego_adapter_config c) then
          Err (ManifestInvalid ("rego." +:+ field +:+
            " is reserved for the cedar policy type; rego policies declare a bundle"))
        else Ok ()) cedar_field_ALL
  | PolicyCedar c => named (validate_cedar_config c)
  | PolicyTest _ => named (Ok ())
  | PolicyCustom c => named (validate_required_string "custom.adapter" (custom_adapter c))
  end.

Definition merge_adapter_config (base overrides : adapter) : adapter := bt_extend base overrides.

(** [a.or(b)]. *)
Definition opt_or {A} (a b : option A) : option A :=
  match a with Some _ => a | None => b end.

Definition validate_policy_binding `{AgentHooks} (point : InterceptionPoint)
  (binding : PolicyBinding) (config : PolicyConfig) : result RuntimeError () :=
  let at_point := "intervention point " +:+ point_as_str point in
  if blank (binding_id binding)
  then Err (ManifestInvalid ("policy.id for " +:+ at_point +:+ " must not be empty"))
  else
    map_err (λ error, ManifestInvalid ("invalid policy binding for " +:+ at_point +:+ ": " +:+ detail error))
      (validate_optional_string "policy.query" (binding_query binding)) ;;
    match config with
    | PolicyRego c =>
        rego_bundle_url (rego_bundle c) (bool_decide (is_Some (rego_inline_bundle c)))
          (merge_adapter_config (rego_adapter_config c) (binding_adapter_config binding)) ;;
        if bool_decide (is_Some (opt_or (binding_query binding) (rego_query c))) then Ok ()
        else Err (ManifestInvalid ("rego policy for " +:+ at_point +:+ " requires policy.query"))
    | PolicyCedar _ =>
        let extra := (if bool_decide (is_Some (binding_query binding)) then ["query"] else []) ++
          bt_keys (binding_adapter_config binding) in
        if bool_decide (extra = []) then Ok ()
        else Err (ManifestInvalid ("policy binding for " +:+ at_point +:+ " sets " +:+
          join ", " extra +:+ " on a cedar policy; a cedar binding carries only id: " +:+
          CEDAR_FIXED_MAPPING))
    | PolicyTest _ | PolicyCustom _ => Ok ()
    end.

(** ** Invocations *)

Context `{SerdeJson}.

Definition canonical_policy_input (final_policy_input : JsonValue) : result RuntimeError string :=
  map_err (λ err, PolicyInvocationFailed ("failed to canonicalize policy input: " +:+ err))
    (canonical_json final_policy_input).

Definition prepare_policy_invocation (config : PolicyConfig) (binding : PolicyBinding)
  (final_policy_input : JsonValue) : result RuntimeError PreparedPolicyInvocation :=
  match config with
  | PolicyRego c =>
      query ← ok_or (opt_or (binding_query binding) (rego_query c))
        (PolicyInvocationFailed "rego policy invocation requires a query");
      canonical_input ← canonical_policy_input final_policy_input;
      let invocation := mkRegoInvocation query (rego_bundle c) (rego_inline_bundle c)
        (merge_adapter_config (rego_adapter_config c) (binding_adapter_config binding))
        final_policy_input canonical_input in
      invocation_bundle_url invocation ;;
      Ok (PreparedRego invocation)
  | PolicyCedar c =>
      canonical_input ← canonical_policy_input final_policy_input;
      Ok (PreparedCedar (mkCedarInvocation (cedar_policy_set c) (cedar_policy_path c)
        (cedar_entities_path c) (cedar_schema_path c) final_policy_input canonical_input))
  | PolicyTest c =>
      canonical_input ← canonical_policy_input final_policy_input;
      Ok (PreparedTest (mkTestInvocation
        (merge_adapter_config (test_adapter_config c) (binding_adapter_config binding))
        final_policy_input canonical_input))
  | PolicyCustom c =>
      canonical_input ← canonical_policy_input final_policy_input;
      Ok (PreparedCustom (mkCustomInvocation (custom_adapter c)
        (merge_adapter_config (custom_adapter_config c) (binding_adapter_config binding))
        final_policy_input canonical_input))
  end.
End rego_sources.

(** ** Data paths *)

Definition push_data_path (key path : string) (paths : list string)
  : result RuntimeError (list string) :=
  if blank path
  then Err (PolicyInvocationFailed ("rego adapter_config." +:+ key +:+ " entries must not be empty"))
  else Ok (paths ++ [path]).

Definition push_adapter_data_paths (key : string) (value : JsonValue) (paths : list string)
  : result RuntimeError (list string) :=
  let malformed := PolicyInvocationFailed
    ("rego adapter_config." +:+ key +:+ " must be a string or array of strings") in
  match value with
  | JNull => Ok paths
  | JString path => push_data_path key path paths
  | JArray items =>
      fold_result (λ paths item,
        match item with
        | JString path => push_data_path key path paths
        | _ => Err malformed
        end) paths items
  | _ => Err malformed
  end.

Definition rego_adapter_data_paths (adapter_config : adapter) : result RuntimeError (list string) :=
  fold_result (λ paths key,
    match bt_get key adapter_config with
    | Some value => push_adapter_data_paths key value paths
    | None => Ok paths
    end) [] DATA_PATH_KEYS.

(** ** The digest of a bundle *)

Section digest.
Context `{SerdeJson} `{Sha2}.

Definition bytes_of (s : string) : list Ascii.ascii := String.list_ascii_of_string s.

(** The closure [field]: the length on eight bytes, then the bytes. *)
Definition digest_field (bytes : list Ascii.ascii) : list Ascii.ascii :=
  to_be_bytes_u64 (N.of_nat (length bytes)) ++ bytes.

Definition mounted_stream (entry : MountedRegoData) : result RuntimeError (list Ascii.ascii) :=
  canonical ← map_err (λ err, ManifestInvalid
    ("in-memory Rego data document cannot be canonicalized: " +:+ err)) (canonical_json (document entry));
  Ok (to_be_bytes_u64 (N.of_nat (length (mount entry))) ++
    (mount entry ≫= λ segment, digest_field (bytes_of segment)) ++ digest_field (bytes_of canonical)).

(** What [hasher] is fed. *)
Definition digest_stream (modules : btree string string) (data : list MountedRegoData)
  : result RuntimeError (list Ascii.ascii) :=
  entries ← map_result mounted_stream data;
  Ok (to_be_bytes_u64 (N.of_nat (length modules)) ++
    (modules ≫= λ m, digest_field (bytes_of m.1) ++ digest_field (bytes_of m.2)) ++
    to_be_bytes_u64 (N.of_nat (length data)) ++ mjoin entries).

Definition content_digest (modules : btree string string) (data : list MountedRegoData)
  : result RuntimeError string :=
  stream ← digest_stream modules data; Ok (lower (sha256 stream)).

Definition bundle_new (modules : btree string string) (data : list MountedRegoData)
  : result RuntimeError InMemoryRegoBundle :=
  digest ← content_digest modules data; Ok (mkBundle modules data digest).
End digest.
