(* ===== verification/PolicyFacts.v ===== *)
(** * Theorems on policies

    The digest of an in-memory bundle identifies its contents, a validated
    binding always prepares, and fetched queries are names. *)

From S2P Require Import Prelude OrdMap RustStd Json Errors AgentHooks Constants Hex Pins.
From S2P Require Import PolicyInput Policy Concrete.

(** ** The digest stream *)

Definition fits_u64 (n : nat) : Prop := (N.of_nat n < 2 ^ 64)%N.

Lemma be_byte_inj n m i k :
  be_byte n i = be_byte m i → (8 * i <= k < 8 * i + 8)%N → N.testbit n k = N.testbit m k.
Proof.
  unfold be_byte, byte_of. intros Heq Hk. apply (f_equal Ascii.N_of_ascii) in Heq.
  assert (∀ x, (N.land x 255 < 256)%N) as Hlt.
  { intros x. change 255%N with (N.ones 8). rewrite N.land_ones. by apply N.mod_lt. }
  rewrite !Ascii.N_ascii_embedding in Heq by apply Hlt.
  apply (f_equal (λ x, N.testbit x (k - 8 * i))) in Heq.
  change 255%N with (N.ones 8) in Heq.
  rewrite !N.land_spec, !N.ones_spec_low, !N.shiftr_spec, !andb_true_r in Heq by lia.
  by replace (k - 8 * i + 8 * i)%N with k in Heq by lia.
Qed.

Lemma testbit_high n k : (n < 2 ^ 64)%N → (64 <= k)%N → N.testbit n k = false.
Proof.
  intros Hn Hk. destruct (decide (n = 0%N)) as [->|]; [apply N.bits_0|].
  apply N.bits_above_log2. apply N.log2_lt_pow2; [lia|].
  eapply N.lt_le_trans; [exact Hn|]. apply N.pow_le_mono_r; lia.
Qed.

Lemma to_be_bytes_inj n m :
  (n < 2 ^ 64)%N → (m < 2 ^ 64)%N → to_be_bytes_u64 n = to_be_bytes_u64 m → n = m.
Proof.
  intros Hn Hm Heq. unfold to_be_bytes_u64 in Heq. cbn in Heq.
  injection Heq as H7 H6 H5 H4 H3 H2 H1 H0. apply N.bits_inj. intros k.
  destruct (N.le_gt_cases 64 k); [by rewrite !testbit_high|].
  assert (k = 8 * (k / 8) + k mod 8)%N as Hdm by (by apply N.div_mod).
  assert (k mod 8 < 8)%N as Hmod by (by apply N.mod_lt).
  assert (k / 8 < 8)%N as Hdiv by (apply N.Div0.div_lt_upper_bound; lia).
  revert Hdm Hdiv Hmod. generalize (k / 8)%N (k mod 8)%N. intros q d Hdm Hdiv Hmod.
  assert (q = 0 ∨ q = 1 ∨ q = 2 ∨ q = 3 ∨ q = 4 ∨ q = 5 ∨ q = 6 ∨ q = 7)%N as Hq by lia.
  apply (be_byte_inj n m q); [|clear Hq; lia].
  destruct Hq as [->|[->|[->|[->|[->|[->|[->| ->]]]]]]]; done.
Qed.

(** A code no word of which is a prefix of another. *)
Definition prefix_free {A B} (P : A → Prop) (f : A → list B) : Prop :=
  ∀ x y r r', P x → P y → f x ++ r = f y ++ r' → x = y ∧ r = r'.

Lemma prefix_free_count {B} (P : nat → Prop) (f : nat → list B) :
  (∀ x y, P x → P y → f x = f y → x = y) → (∀ x y, length (f x) = length (f y)) → prefix_free P f.
Proof.
  intros Hinj Hlen x y r r' Hx Hy Heq. apply app_inj_1 in Heq as [Heq ->]; [|done]. by split; [apply Hinj|].
Qed.

Lemma prefix_free_u64 : prefix_free fits_u64 (λ n, to_be_bytes_u64 (N.of_nat n)).
Proof.
  apply prefix_free_count; [|done]. intros x y Hx Hy Heq. by apply to_be_bytes_inj, Nat2N.inj in Heq.
Qed.

Lemma prefix_free_field : prefix_free (λ b, fits_u64 (length b)) digest_field.
Proof.
  intros x y r r' Hx Hy Heq. unfold digest_field in Heq. rewrite <-!app_assoc in Heq.
  apply prefix_free_u64 in Heq as [Hl Heq]; [|done..]. by apply app_inj_1 in Heq.
Qed.

Lemma prefix_free_mbind {A B} (P : A → Prop) (f : A → list B) l l' r r' :
  prefix_free P f → length l = length l' → Forall P l → Forall P l' →
  (l ≫= f) ++ r = (l' ≫= f) ++ r' → l = l' ∧ r = r'.
Proof.
  intros Hf. revert l'. induction l as [|x l IH]; intros [|y l'] Hlen Hl Hl' Heq; try done.
  cbn in Heq. rewrite <-!app_assoc in Heq. inversion Hl; inversion Hl'; subst.
  apply Hf in Heq as [-> Heq]; [|done..]. injection Hlen as Hlen.
  destruct (IH l' Hlen) as [-> ->]; done.
Qed.

(** A counted list of words of a prefix-free code is itself one. *)
Lemma prefix_free_list {A} (P : A → Prop) (f : A → list Ascii.ascii) :
  prefix_free P f →
  prefix_free (λ l, fits_u64 (length l) ∧ Forall P l)
    (λ l, to_be_bytes_u64 (N.of_nat (length l)) ++ (l ≫= f)).
Proof.
  intros Hf x y r r' [Hxl Hx] [Hyl Hy] Heq. rewrite <-!app_assoc in Heq.
  apply prefix_free_u64 in Heq as [Hlen Heq]; [|done..]. by apply (prefix_free_mbind P f).
Qed.

Lemma prefix_free_pair {A B C} (P : A → Prop) (Q : B → Prop) (f : A → list C) (g : B → list C) :
  prefix_free P f → prefix_free Q g →
  prefix_free (λ p, P p.1 ∧ Q p.2) (λ p, f p.1 ++ g p.2).
Proof.
  intros Hf Hg [a b] [a' b'] r r' [] [] Heq. cbn in *. rewrite <-!app_assoc in Heq.
  apply Hf in Heq as [-> Heq]; [|done..]. by apply Hg in Heq as [-> ->].
Qed.

Lemma prefix_free_map {A B C} (P : B → Prop) (f : B → list C) (h : A → B) :
  (∀ x y, h x = h y → x = y) → prefix_free P f → prefix_free (λ x, P (h x)) (λ x, f (h x)).
Proof. intros Hinj Hf x y r r' Hx Hy Heq. apply Hf in Heq as [Heq ->]; auto. Qed.

Lemma bytes_of_inj s t : bytes_of s = bytes_of t → s = t.
Proof.
  intros Heq. rewrite <-(String.string_of_list_ascii_of_string s), <-(String.string_of_list_ascii_of_string t).
  by apply (f_equal String.string_of_list_ascii) in Heq.
Qed.

Definition fits_text (s : string) : Prop := fits_u64 (length (bytes_of s)).

Lemma prefix_free_text : prefix_free fits_text (λ s, digest_field (bytes_of s)).
Proof. apply (prefix_free_map (λ b, fits_u64 (length b)) digest_field bytes_of bytes_of_inj prefix_free_field). Qed.

(** The stream of a bundle, from its modules and what the documents
    contribute: the mount point and the canonical text. Every length in it
    fits the eight bytes it is written on. *)
Definition text_bytes (s : string) : list Ascii.ascii := digest_field (bytes_of s).

Definition counted {A} (f : A → list Ascii.ascii) (l : list A) : list Ascii.ascii :=
  to_be_bytes_u64 (N.of_nat (length l)) ++ (l ≫= f).
Definition counted_fits {A} (P : A → Prop) (l : list A) : Prop := fits_u64 (length l) ∧ Forall P l.

Definition module_bytes (m : string * string) : list Ascii.ascii := text_bytes m.1 ++ text_bytes m.2.
Definition module_fits (m : string * string) : Prop := fits_text m.1 ∧ fits_text m.2.

Definition mount_bytes (e : list string * string) : list Ascii.ascii :=
  counted text_bytes e.1 ++ text_bytes e.2.
Definition mount_fits (e : list string * string) : Prop := counted_fits fits_text e.1 ∧ fits_text e.2.

Notation bundle_text := (list (string * string) * list (list string * string))%type.
Definition bundle_bytes (b : bundle_text) : list Ascii.ascii :=
  counted module_bytes b.1 ++ counted mount_bytes b.2.
Definition bundle_fits (b : bundle_text) : Prop :=
  counted_fits module_fits b.1 ∧ counted_fits mount_fits b.2.

#[export] Instance fits_u64_dec n : base.Decision (fits_u64 n) := N.lt_dec _ _.
#[export] Instance fits_text_dec s : base.Decision (fits_text s) := fits_u64_dec _.
#[export] Instance counted_fits_dec {A} (P : A → Prop) `{∀ x, base.Decision (P x)} l :
  base.Decision (counted_fits P l) := and_dec _ _.
#[export] Instance module_fits_dec m : base.Decision (module_fits m) := and_dec _ _.
#[export] Instance mount_fits_dec e : base.Decision (mount_fits e) := and_dec _ _.
#[export] Instance bundle_fits_dec b : base.Decision (bundle_fits b) := and_dec _ _.

Lemma prefix_free_counted {A} (P : A → Prop) (f : A → list Ascii.ascii) :
  prefix_free P f → prefix_free (counted_fits P) (counted f).
Proof. apply prefix_free_list. Qed.

Lemma prefix_free_bundle : prefix_free bundle_fits bundle_bytes.
Proof.
  apply (prefix_free_pair (counted_fits module_fits) (counted_fits mount_fits)
    (counted module_bytes) (counted mount_bytes)); apply prefix_free_counted.
  - apply (prefix_free_pair fits_text fits_text text_bytes text_bytes); apply prefix_free_text.
  - apply (prefix_free_pair (counted_fits fits_text) fits_text (counted text_bytes) text_bytes);
      [apply prefix_free_counted|]; apply prefix_free_text.
Qed.

Section digest_facts.
Context `{SerdeJson} `{Sha2}.

(** What identifies a data document: its mount and its canonical text. *)
Definition canonical_documents (data : list MountedRegoData) : result string (list (list string * string)) :=
  map_result (λ e, text ← canonical_json (document e); Ok (mount e, text)) data.

Lemma mounted_stream_bytes e :
  mounted_stream e =
  match canonical_json (document e) with
  | Ok text => Ok (mount_bytes (mount e, text))
  | Err err => Err (ManifestInvalid
      ("in-memory Rego data document cannot be canonicalized: " +:+ err))
  end.
Proof.
  unfold mounted_stream, mount_bytes, counted. destruct (canonical_json _); [|done].
  cbn [map_err mbind result_bind fst snd]. by rewrite <-app_assoc.
Qed.

Lemma digest_stream_bytes modules data stream :
  digest_stream modules data = Ok stream ↔
  ∃ docs, canonical_documents data = Ok docs ∧ stream = bundle_bytes (modules, docs).
Proof.
  unfold digest_stream, canonical_documents, bundle_bytes, counted. cbn [fst snd].
  assert (∀ entries, map_result mounted_stream data = Ok entries ↔
    ∃ docs, map_result (λ e, text ← canonical_json (document e); Ok (mount e, text)) data = Ok docs ∧
      entries = mount_bytes <$> docs) as Hentries.
  { induction data as [|e data IH]; intros entries; cbn [map_result].
    - split; [intros [= <-]; by exists []|by intros (docs & [= <-] & ->)].
    - rewrite mounted_stream_bytes. destruct (canonical_json (document e)) as [text|];
        cbn [mbind result_bind]; [|split; [done|by intros (? & ? & ?)]].
      rewrite bind_Ok. split.
      + intros (es & Hes & [= <-]). apply IH in Hes as (docs & -> & ->). by eexists.
      + intros (docs & Hdocs & ->). apply bind_Ok in Hdocs as (docs' & Hd & [= <-]).
        exists (mount_bytes <$> docs'). split; [apply IH; eauto|done]. }
  assert (∀ docs : list (list string * string), mjoin (mount_bytes <$> docs) = docs ≫= mount_bytes) as Hjoin.
  { induction docs as [|d docs IH]; [done|].
    change (mjoin (mount_bytes <$> d :: docs)) with (mount_bytes d ++ mjoin (mount_bytes <$> docs)).
    by rewrite IH. }
  assert (∀ docs, canonical_documents data = Ok docs → length docs = length data) as Hlen.
  { intros docs Hd. apply map_result_Ok, Forall2_length in Hd. done. }
  rewrite bind_Ok. split.
  - intros (entries & Hes & [= <-]). apply Hentries in Hes as (docs & Hd & ->). exists docs.
    split; [done|]. by rewrite Hjoin, (Hlen docs), <-app_assoc.
  - intros (docs & Hd & ->). exists (mount_bytes <$> docs). split; [apply Hentries; eauto|].
    by rewrite Hjoin, (Hlen docs), <-app_assoc.
Qed.

(** The digest of an in-memory bundle identifies its contents. Two
    bundles whose lengths fit eight bytes, and whose digests are equal
    without a SHA-256 collision on their streams, hold the same modules
    under the same names, and the same canonical documents on the same
    mounts in the same order: the length prefixes leave no boundary to
    move. *)
Theorem bundle_digest_identifies b b' docs docs' :
  bundle_new (bundle_modules b) (bundle_data b) = Ok b →
  bundle_new (bundle_modules b') (bundle_data b') = Ok b' →
  canonical_documents (bundle_data b) = Ok docs →
  canonical_documents (bundle_data b') = Ok docs' →
  bundle_fits (bundle_modules b, docs) → bundle_fits (bundle_modules b', docs') →
  (∀ s s', digest_stream (bundle_modules b) (bundle_data b) = Ok s →
    digest_stream (bundle_modules b') (bundle_data b') = Ok s' →
    lower (sha256 s) = lower (sha256 s') → s = s') →
  bundle_digest b = bundle_digest b' →
  bundle_modules b = bundle_modules b' ∧ docs = docs'.
Proof.
  intros Hb Hb' Hd Hd' Hfit Hfit' Hcoll Hdig.
  assert (∀ b, bundle_new (bundle_modules b) (bundle_data b) = Ok b →
    ∃ s, digest_stream (bundle_modules b) (bundle_data b) = Ok s ∧ bundle_digest b = lower (sha256 s)) as Hnew.
  { intros c Hc. unfold bundle_new, content_digest in Hc. apply bind_Ok in Hc as (d & Hs & Hc).
    apply bind_Ok in Hs as (s & Hs & [= <-]). exists s. split; [done|]. by injection Hc as <-. }
  destruct (Hnew b Hb) as (s & Hs & Hds), (Hnew b' Hb') as (s' & Hs' & Hds').
  assert (s = s') as Heq by (apply Hcoll; congruence).
  apply digest_stream_bytes in Hs as (docs1 & Hd1 & ->), Hs' as (docs1' & Hd1' & ->).
  rewrite Hd in Hd1. rewrite Hd' in Hd1'. injection Hd1 as <-. injection Hd1' as <-.
  destruct (prefix_free_bundle _ _ [] [] Hfit Hfit') as [Hpair _]; [by rewrite !app_nil_r|].
  by injection Hpair.
Qed.
End digest_facts.

(** ** Preparing an invocation *)

#[local] Open Scope nat_scope.

Section prepare_facts.
Context `{SerdeJson} `{AgentHooks} `{UrlCrate}.

(** The places a Rego invocation may load policy from. *)
Definition rego_sources (i : RegoPolicyInvocation) : nat :=
  (if bool_decide (is_Some (ri_bundle i)) then 1 else 0) +
  (if bool_decide (is_Some (ri_inline_bundle i)) then 1 else 0) +
  (if bool_decide (is_Some (bt_get "bundle_url" (ri_adapter_config i))) then 1 else 0).

Lemma rego_bundle_url_one bundle inline config source :
  rego_bundle_url bundle inline config = Ok source →
  (if bool_decide (is_Some bundle) then 1 else 0) + (if inline then 1 else 0) +
  (if bool_decide (is_Some (bt_get "bundle_url" config)) then 1 else 0) <= 1.
Proof. unfold rego_bundle_url. destruct (_ <? _) eqn:Hone; [done|]. intros _. by b2p. Qed.

(** The lemma behind [prepare_validated]. *)
Lemma prepare_validated_binding point binding config input text :
  validate_policy_binding point binding config = Ok () →
  canonical_json input = Ok text →
  ∃ invocation, prepare_policy_invocation config binding input = Ok invocation ∧
    prepared_policy_input invocation = Some input ∧
    prepared_engine_type invocation = policy_engine_type config ∧
    match invocation with
    | PreparedRego i => rego_sources i <= 1 ∧ ri_canonical_input i = text ∧
        Some (ri_query i) = opt_or (binding_query binding)
          match config with PolicyRego c => rego_query c | _ => None end
    | PreparedCedar i => ci_canonical_input i = text
    | PreparedTest i => ti_canonical_input i = text
    | PreparedCustom i => cu_canonical_input i = text
    end.
Proof.
  intros Hv Htext. unfold validate_policy_binding in Hv. destruct (blank (binding_id binding)); [done|].
  apply bind_Ok in Hv as ([] & _ & Hv).
  unfold prepare_policy_invocation, canonical_policy_input. rewrite Htext. cbn [map_err mbind result_bind].
  destruct config as [c|c|c|c]; try by eexists.
  apply bind_Ok in Hv as (source & Hsource & Hv).
  destruct (opt_or (binding_query binding) (rego_query c)) as [query|] eqn:Hq; [|done].
  cbn [ok_or mbind result_bind]. unfold invocation_bundle_url. cbn [ri_bundle ri_inline_bundle ri_adapter_config].
  rewrite Hsource. cbn [map_err mbind result_bind]. eexists. split; [done|]. split_and!; try done.
  by apply rego_bundle_url_one in Hsource.
Qed.

(** A binding that validated always prepares, whatever the input, as
    long as the input serializes: the invocation is of the policy's own
    engine, carries the very policy input it was given with its canonical
    text, and a Rego invocation names at most one place to load policy
    from. *)
Theorem prepare_validated point binding config input text :
  validate_policy_binding point binding config = Ok () →
  canonical_json input = Ok text →
  ∃ invocation, prepare_policy_invocation config binding input = Ok invocation ∧
    prepared_policy_input invocation = Some input ∧
    prepared_engine_type invocation = policy_engine_type config ∧
    match invocation with
    | PreparedRego i => rego_sources i <= 1 ∧ ri_canonical_input i = text ∧
        Some (ri_query i) = opt_or (binding_query binding)
          match config with PolicyRego c => rego_query c | _ => None end
    | PreparedCedar i => ci_canonical_input i = text
    | PreparedTest i => ti_canonical_input i = text
    | PreparedCustom i => cu_canonical_input i = text
    end.
Proof. apply prepare_validated_binding. Qed.
End prepare_facts.

(** ** Labels of refused definitions *)

(** The errors of a Rego definition leave [validate_policy_definition]
    before the [map_err] that names the policy; those of the other engines
    do not. *)
Lemma rego_definition_unnamed `{UrlCrate} name name' c :
  validate_policy_definition name (PolicyRego c) = validate_policy_definition name' (PolicyRego c).
Proof. reflexivity. Qed.

Lemma custom_definition_named `{UrlCrate} name c e :
  validate_policy_definition name (PolicyCustom c) = Err e →
  ∃ why, detail e = "invalid policy '" +:+ name +:+ "': " +:+ why.
Proof. intros (e' & _ & ->)%map_err_Err. by eexists. Qed.

(** ** Rule paths *)

Definition identifier (segment : string) : bool :=
  negb (str_is_empty segment) &&
  all_bytes (λ c, is_ascii_alphanumeric c || bool_decide (c = byte_of 95)) segment.

Lemma split_dot_join s : join "." (split_dot s) = s ∧ split_dot s ≠ [].
Proof.
  induction s as [|c s [IH Hne]]; [done|]. cbn [split_dot]. case_decide as Hc.
  - subst c. split; [|done]. destruct (split_dot s) as [|p ps]; [done|].
    change (join "." ("" :: p :: ps)) with ("." +:+ join "." (p :: ps)). by rewrite IH.
  - destruct (split_dot s) as [|p ps]; [done|]. split; [|done].
    destruct ps as [|q ps]; cbn in *; congruence.
Qed.

(** The gate on queries accepts dotted identifiers under [data] only. *)
Lemma is_rule_path_names query :
  is_rule_path query = true →
  ∃ segments, segments ≠ [] ∧ Forall (λ s, identifier s = true) segments ∧
    query = "data." +:+ join "." segments.
Proof.
  unfold is_rule_path. destruct (strip_prefix "data." query) as [rest|] eqn:Hs; [|done].
  apply strip_prefix_Some in Hs as ->. intros Hq. apply andb_true_iff in Hq as [_ Hq].
  destruct (split_dot_join rest) as [Hj Hne]. exists (split_dot rest). split_and!; [done| |by rewrite Hj].
  apply Forall_forall. intros s Hin. rewrite forallb_forall in Hq. apply Hq. by apply list_elem_of_In.
Qed.

(** ** Witnesses *)

Section policy_samples.
#[local] Existing Instance demo_hooks.
#[local] Existing Instance demo_serde.
#[local] Existing Instance demo_sha.
#[local] Existing Instance demo_url.

Definition sample_modules : btree string string := [("main", "package main")].
Definition sample_bundle_of (document : JsonValue) : InMemoryRegoBundle :=
  match bundle_new sample_modules [mkMounted ["limits"] document] with
  | Ok b => b
  | Err _ => mkBundle [] [] ""
  end.

(** Two spellings of one document, with its members in either order. *)
Definition sample_bundle : InMemoryRegoBundle :=
  sample_bundle_of (JObject [("a", JNull); ("b", JNull)]).
Definition sample_bundle' : InMemoryRegoBundle :=
  sample_bundle_of (JObject [("b", JNull); ("a", JNull)]).
Definition sample_docs : list (list string * string) :=
  match canonical_documents (bundle_data sample_bundle) with Ok docs => docs | Err _ => [] end.

Lemma sample_bundle_fits : bundle_fits (bundle_modules sample_bundle, sample_docs).
Proof. apply (bool_decide_unpack _). vm_compute. exact I. Qed.

Lemma sample_bundle_fits' : bundle_fits (bundle_modules sample_bundle', sample_docs).
Proof. apply (bool_decide_unpack _). vm_compute. exact I. Qed.

Lemma bundle_digest_identifies_witness :
  bundle_modules sample_bundle = bundle_modules sample_bundle'.
Proof.
  assert (digest_stream (bundle_modules sample_bundle) (bundle_data sample_bundle) =
    digest_stream (bundle_modules sample_bundle') (bundle_data sample_bundle')) as Hstream
    by (vm_compute; reflexivity).
  refine (proj1 (bundle_digest_identifies sample_bundle sample_bundle' sample_docs sample_docs
    _ _ _ _ sample_bundle_fits sample_bundle_fits' _ _)).
  - vm_compute. reflexivity.
  - vm_compute. reflexivity.
  - vm_compute. reflexivity.
  - vm_compute. reflexivity.
  - intros s s' Hs Hs' _. rewrite Hstream, Hs' in Hs. by injection Hs.
  - vm_compute. reflexivity.
Defined.

Definition sample_rego : PolicyConfig := PolicyRego (mkRego (Some "data.acs.verdict") (Some "policy") None []).
Definition sample_binding : PolicyBinding := mkBinding "main" None [].

Lemma prepare_validated_witness :
  ∃ invocation, prepare_policy_invocation sample_rego sample_binding JNull = Ok invocation ∧
    prepared_policy_input invocation = Some JNull.
Proof.
  destruct (prepare_validated Input sample_binding sample_rego JNull "null") as (i & Hi & Hin & _);
    [vm_compute; reflexivity|vm_compute; reflexivity|].
  exists i. split; [exact Hi|exact Hin].
Defined.
End policy_samples.
