(* ===== verification/StdPath.v ===== *)
(** * [std::path] on Unix, as the loader uses it

    A path is its text. The loader takes these operations of canonical
    paths only (absolute, no empty, [.] or [..] component) and of the path
    of a URL, where the text of a parent is the joined components. *)

From S2P Require Import Prelude RustStd Policy.

(** [split('/')]. *)
Fixpoint split_slash (s : string) : list string :=
  match s with
  | EmptyString => [""]
  | String c s =>
      if decide (c = byte_of 47) then "" :: split_slash s
      else match split_slash s with
           | piece :: pieces => String c piece :: pieces
           | [] => [String c ""]
           end
  end.

(** [Path::components], the root as the component "/". An empty piece is
    dropped, and so is "." except at the start of a relative path. *)
Definition components (p : string) : list string :=
  let pieces := split_slash p in
  let named := filter (λ piece, piece ≠ "" ∧ piece ≠ ".") in
  if path_is_absolute p then "/" :: named pieces
  else
    match pieces with
    | piece :: pieces => (if decide (piece = ".") then ["."] else named [piece]) ++ named pieces
    | [] => []
    end.

(** [Path::starts_with]: component by component. *)
Definition path_starts_with (p base : string) : bool :=
  bool_decide (components base `prefix_of` components p).

(** The text of a list of components. *)
Definition of_components (l : list string) : string :=
  match l with
  | "/" :: l => "/" +:+ join "/" l
  | l => join "/" l
  end.

(** [Path::parent]: none for a root and for the empty path. *)
Definition path_parent (p : string) : option string :=
  match components p with
  | [] | ["/"] => None
  | l => Some (of_components (removelast l))
  end.

Definition file_name (p : string) : option string :=
  match last (components p) with
  | Some name => if decide (name = "/" ∨ name = "." ∨ name = "..") then None else Some name
  | None => None
  end.

(** The text after the last dot, when there is one. *)
Fixpoint after_last_dot (s : string) : option string :=
  match s with
  | EmptyString => None
  | String c s =>
      match after_last_dot s with
      | Some rest => Some rest
      | None => if decide (c = byte_of 46) then Some s else None
      end
  end.

(** [Path::extension]: a leading dot alone starts no extension. *)
Definition path_extension (p : string) : option string :=
  name ← file_name p;
  match name with
  | EmptyString => None
  | String _ rest => after_last_dot rest
  end.

(** [u8::to_ascii_lowercase] byte by byte, for [eq_ignore_ascii_case]. *)
Fixpoint ascii_lowercase (s : string) : string :=
  match s with
  | EmptyString => ""
  | String c s =>
      String (if in_range 65 90 c then byte_of (Ascii.N_of_ascii c + 32) else c) (ascii_lowercase s)
  end.
Definition eq_ignore_ascii_case (s t : string) : bool :=
  bool_decide (ascii_lowercase s = ascii_lowercase t).

Example path_samples :
  path_parent "/etc/acs/main.yaml" = Some "/etc/acs" ∧ path_parent "/main.yaml" = Some "/" ∧
  path_parent "/" = None ∧ path_extension "/a/b.tar.JSON" = Some "JSON" ∧
  path_extension "/a/.json" = None ∧ path_extension "/a/b" = None ∧
  path_starts_with "/etc/acs/main.yaml" "/etc/acs" = true ∧
  path_starts_with "/etc/acs2/main.yaml" "/etc/acs" = false ∧
  eq_ignore_ascii_case "JsOn" "json" = true.
Proof. vm_compute. auto 10. Qed.

(** ** Facts about paths

    The components of a joined path, of a parent, and of the text a list of
    components is written as. *)

Definition no_slash (s : string) : Prop := all_bytes (λ c, negb (bool_decide (c = byte_of 47))) s = true.

(** A file name as a directory lists it. *)
Definition normal_name (s : string) : Prop := no_slash s ∧ s ≠ "" ∧ s ≠ "." ∧ s ≠ "..".

(** ** Pieces *)

Lemma split_slash_nonempty s : split_slash s ≠ [].
Proof. destruct s as [|c s]; cbn; [done|]. destruct (decide _); [done|]. by destruct (split_slash s). Qed.

Lemma no_slash_cons c s : no_slash (String c s) ↔ c ≠ byte_of 47 ∧ no_slash s.
Proof. unfold no_slash. cbn. by rewrite andb_true_iff, negb_true_iff, bool_decide_eq_false. Qed.

Lemma split_no_slash s : no_slash s → split_slash s = [s].
Proof.
  induction s as [|c s IH]; [done|]. intros [Hc Hs]%no_slash_cons. cbn. by rewrite decide_False, IH.
Qed.

Lemma split_slash_app a b : split_slash (a +:+ "/" +:+ b) = split_slash a ++ split_slash b.
Proof.
  induction a as [|c a IH].
  - cbn. by rewrite decide_True.
  - change (String c a +:+ "/" +:+ b) with (String c (a +:+ "/" +:+ b)). cbn [split_slash]. rewrite IH.
    destruct (decide _); [done|]. pose proof (split_slash_nonempty a). by destruct (split_slash a).
Qed.

Lemma split_slash_pieces s : Forall no_slash (split_slash s).
Proof.
  induction s as [|c s IH]; cbn; [by repeat constructor|]. destruct (decide _) as [|Hc]; [by constructor|].
  destruct (split_slash s) as [|piece pieces]; [constructor; [by apply no_slash_cons|constructor]|].
  apply Forall_cons in IH as [Hp IH]. constructor; [|done]. by apply no_slash_cons.
Qed.

Lemma split_join l : l ≠ [] → Forall no_slash l → split_slash (join "/" l) = l.
Proof.
  intros Hne Hl. induction Hl as [|x l Hx Hl IH]; [done|]. destruct l as [|y l]; [by apply split_no_slash|].
  change (join "/" (x :: y :: l)) with (x +:+ "/" +:+ join "/" (y :: l)).
  by rewrite split_slash_app, split_no_slash, IH.
Qed.

(** ** Components *)

Local Notation named := (filter (λ piece : string, piece ≠ "" ∧ piece ≠ ".")).

Definition comps (absolute : bool) (pieces : list string) : list string :=
  if absolute then "/" :: named pieces
  else
    match pieces with
    | piece :: pieces => (if decide (piece = ".") then ["."] else named [piece]) ++ named pieces
    | [] => []
    end.

Lemma components_comps p : components p = comps (path_is_absolute p) (split_slash p).
Proof. done. Qed.

Lemma comps_app absolute pieces more :
  pieces ≠ [] → comps absolute (pieces ++ more) = comps absolute pieces ++ named more.
Proof.
  intros Hne. unfold comps. destruct absolute; [by rewrite filter_app|].
  destruct pieces as [|piece pieces]; [done|]. cbn. by rewrite filter_app, app_assoc.
Qed.

Lemma named_normal n : normal_name n → named [n] = [n].
Proof. intros (_ & ? & ? & _). rewrite filter_cons_True by done. done. Qed.

Lemma absolute_app a b : a ≠ "" → path_is_absolute (a +:+ b) = path_is_absolute a.
Proof. destruct a as [|c a]; [done|]. intros _. unfold path_is_absolute, starts_with. cbn. by destruct (decide _). Qed.

Lemma relative_name n : normal_name n → path_is_absolute n = false.
Proof.
  intros (Hn & Hne & _). destruct n as [|c n]; [done|]. apply no_slash_cons in Hn as [Hc _].
  unfold path_is_absolute, starts_with. cbn. rewrite decide_False; [done|]. by intros <-.
Qed.

Lemma ends_with_slash_split p : ends_with_slash p = true → ∃ d, p = d +:+ "/".
Proof.
  unfold ends_with_slash. induction p as [|c p IH]; [done|].
  destruct p as [|c' p].
  - cbn. intros Hc%bool_decide_eq_true. subst c. by exists "".
  - cbn [String.length Nat.sub String.get] in *. rewrite Nat.sub_0_r in *. intros Hget.
    destruct (IH Hget) as [d ->]. by exists (String c d).
Qed.

Lemma components_join dir n : normal_name n → components (path_join dir n) = components dir ++ [n].
Proof.
  intros Hn. unfold path_join. rewrite (relative_name n Hn).
  rewrite !components_comps. pose proof Hn as (Hslash & _).
  destruct (str_is_empty dir) eqn:Hempty.
  { apply str_is_empty_true in Hempty as ->. cbn [orb]. change ("" +:+ n) with n.
    rewrite (relative_name n Hn), (split_no_slash n Hslash). cbn [comps]. rewrite decide_False by apply Hn.
    by rewrite (named_normal n Hn). }
  assert (dir ≠ "") as Hdir by (intros ->; done). cbn [orb]. destruct (ends_with_slash dir) eqn:Hend.
  - apply ends_with_slash_split in Hend as [d ->]. rewrite absolute_app by done.
    rewrite <- app_str_assoc, !split_slash_app, (split_no_slash n Hslash).
    change ("/" : string) with ("/" +:+ ""). rewrite split_slash_app.
    rewrite !comps_app by apply split_slash_nonempty. cbn [split_slash]. rewrite (named_normal n Hn).
    change (named [""]) with (@nil string). by rewrite app_nil_r.
  - rewrite absolute_app by done. rewrite split_slash_app, (split_no_slash n Hslash).
    by rewrite comps_app, named_normal by (done || apply split_slash_nonempty).
Qed.

Lemma file_name_join dir n : normal_name n → file_name (path_join dir n) = Some n.
Proof.
  intros Hn. unfold file_name. rewrite components_join by done. rewrite last_snoc.
  pose proof Hn as (Hslash & _ & Hdot & Hdots). rewrite decide_False; [done|].
  intros [->|[->| ->]]; [|done|done]. by apply no_slash_cons in Hslash as [].
Qed.

(** ** The text of components *)

Definition piece_ok (s : string) : Prop := no_slash s ∧ s ≠ "" ∧ s ≠ ".".

Lemma named_pieces l : Forall piece_ok l → named l = l.
Proof. induction 1 as [|x l (_ & ? & ?) _ IH]; [done|]. by rewrite filter_cons_True, IH. Qed.

Lemma named_ok l : Forall no_slash l → Forall piece_ok (named l).
Proof.
  intros Hl. apply Forall_forall. intros x [[Hne Hdot] Hx]%list_elem_of_filter.
  split; [|done]. by eapply Forall_forall in Hl.
Qed.

Lemma components_shape p :
  ∃ prefix names, components p = prefix ++ names ∧ (prefix = ["/"] ∨ prefix = ["."] ∨ prefix = []) ∧
    Forall piece_ok names.
Proof.
  rewrite components_comps. pose proof (split_slash_pieces p) as Hp. unfold comps.
  destruct (path_is_absolute p).
  - exists ["/"], (named (split_slash p)). split_and!; [done|by left|by apply named_ok].
  - destruct (split_slash p) as [|piece pieces]; [exists [], []; by auto|].
    apply Forall_cons in Hp as [Hpiece Hp]. destruct (decide (piece = ".")).
    + exists ["."], (named pieces). split_and!; [done|by auto|by apply named_ok].
    + exists [], (named [piece] ++ named pieces). split_and!; [done|by auto|].
      apply Forall_app. split; apply named_ok; [by repeat constructor|done].
Qed.

Lemma pieces_no_slash names : Forall piece_ok names → Forall no_slash names.
Proof. intros H. eapply Forall_impl; [exact H|]. by intros x (? & _). Qed.

(** Writing components as text and reading them back changes nothing. *)
Lemma components_of_components p : components (of_components (components p)) = components p.
Proof.
  destruct (components_shape p) as (prefix & names & -> & Hprefix & Hnames).
  pose proof (pieces_no_slash _ Hnames) as Hslash. rewrite components_comps.
  destruct Hprefix as [->|[->| ->]].
  - change (of_components (["/"] ++ names)) with ("/" +:+ join "/" names).
    change (path_is_absolute ("/" +:+ join "/" names)) with true.
    change ("/" +:+ join "/" names) with ("" +:+ "/" +:+ join "/" names). rewrite split_slash_app.
    unfold comps. cbn [app]. f_equal. change (split_slash "") with [""]. cbn [app].
    rewrite filter_cons_False by (by intros []).
    destruct names as [|x names]; [done|]. rewrite split_join by done. by rewrite named_pieces.
  - change (of_components (["."] ++ names)) with (join "/" ("." :: names)).
    rewrite split_join; [|done|by constructor]. destruct names as [|x names]; [done|].
    change (join "/" ("." :: x :: names)) with ("." +:+ "/" +:+ join "/" (x :: names)).
    rewrite absolute_app by done. change (path_is_absolute ".") with false.
    unfold comps. rewrite decide_True by done. by rewrite named_pieces.
  - destruct names as [|x names]; [done|]. pose proof Hnames as [(Hx & Hne & Hdot) Hrest]%Forall_cons.
    assert (of_components ([] ++ x :: names) = join "/" (x :: names)) as ->.
    { unfold of_components. cbn [app]. destruct x as [|c x]; [done|].
      apply no_slash_cons in Hx as [Hc _]. by destruct c as [[] [] [] [] [] [] [] []]. }
    rewrite split_join by done.
    assert (path_is_absolute (join "/" (x :: names)) = path_is_absolute x) as ->.
    { destruct names; [done|]. by apply absolute_app. }
    assert (path_is_absolute x = false) as ->.
    { destruct x as [|c x]; [done|]. apply no_slash_cons in Hx as [Hc _].
      unfold path_is_absolute, starts_with. cbn. rewrite decide_False; [done|]. by intros <-. }
    unfold comps. rewrite decide_False by done. rewrite (named_pieces [x]) by (repeat constructor; done).
    by rewrite named_pieces.
Qed.

Lemma parent_join dir n :
  normal_name n → ∃ parent, path_parent (path_join dir n) = Some parent ∧ components parent = components dir.
Proof.
  intros Hn. unfold path_parent. rewrite components_join by done.
  assert (∀ l, l ++ [n] = [] ∨ l ++ [n] = ["/"] → False) as Hno.
  { intros l [Hl|Hl]; [by destruct l|]. destruct l as [|x [|y l]]; try done. injection Hl as ->.
    destruct Hn as (Hn & _). by apply no_slash_cons in Hn as []. }
  exists (of_components (components dir)). split; [|apply components_of_components].
  pose proof (Hno (components dir)) as Hd. rewrite <- (removelast_last (components dir) n) at 2.
  destruct (components dir ++ [n]) as [|x l]; [by destruct Hd; left|].
  destruct l; [|by repeat case_match]. repeat case_match; simplify_eq; try done; by destruct Hd; right.
Qed.

(** ** Extensions *)

Definition no_dot (s : string) : Prop := all_bytes (λ c, negb (bool_decide (c = byte_of 46))) s = true.

Lemma no_dot_cons c s : no_dot (String c s) ↔ c ≠ byte_of 46 ∧ no_dot s.
Proof. unfold no_dot. cbn. by rewrite andb_true_iff, negb_true_iff, bool_decide_eq_false. Qed.

Lemma after_last_dot_None s : after_last_dot s = None ↔ no_dot s.
Proof.
  induction s as [|c s IH]; [done|]. rewrite no_dot_cons, <- IH. cbn [after_last_dot].
  destruct (after_last_dot s), (decide (c = byte_of 46)); intuition congruence.
Qed.

Lemma after_last_dot_dotted p e : is_Some (after_last_dot (p +:+ "." +:+ e)).
Proof.
  induction p as [|c p [x IH]].
  - change ("" +:+ "." +:+ e) with (String (byte_of 46) e). cbn [after_last_dot].
    destruct (after_last_dot e); [done|]. by rewrite decide_True.
  - change (String c p +:+ "." +:+ e) with (String c (p +:+ "." +:+ e)). cbn [after_last_dot]. by rewrite IH.
Qed.

Lemma after_last_dot_Some s e : after_last_dot s = Some e ↔ ∃ p, s = p +:+ "." +:+ e ∧ no_dot e.
Proof.
  induction s as [|c s IH].
  { split; [done|]. intros (p & Hp & _). by destruct p. }
  assert (∀ c' p, String c s = String c' p +:+ "." +:+ e → is_Some (after_last_dot s)) as Hlater.
  { intros c' p Hp. injection Hp as _ ->. apply after_last_dot_dotted. }
  cbn [after_last_dot]. destruct (after_last_dot s) as [e'|] eqn:Hs.
  - rewrite IH. split.
    + intros (p & -> & He). by exists (String c p).
    + intros (p & Hp & He). destruct p as [|c' p]; injection Hp as -> ->; [|by exists p].
      apply after_last_dot_None in He. congruence.
  - apply after_last_dot_None in Hs. destruct (decide (c = byte_of 46)) as [->|Hc]; split.
    + intros [= <-]. by exists "".
    + intros (p & Hp & _). destruct p as [|c' p]; [by injection Hp as <-|]. by destruct (Hlater _ _ Hp).
    + done.
    + intros (p & Hp & _). destruct p as [|c' p]; [by injection Hp as -> _|]. by destruct (Hlater _ _ Hp).
Qed.

(** The extension of a file is what follows the last dot of its name, if
    something precedes it. *)
Lemma path_extension_join dir n e :
  normal_name n →
  path_extension (path_join dir n) = Some e ↔ ∃ stem, stem ≠ "" ∧ n = stem +:+ "." +:+ e ∧ no_dot e.
Proof.
  intros Hn. unfold path_extension. rewrite file_name_join by done. cbn.
  destruct n as [|c n]; [by destruct Hn as (_ & ? & _)|]. rewrite after_last_dot_Some. split.
  - intros (p & -> & He). by exists (String c p).
  - intros (stem & Hstem & Hcn & He). destruct stem as [|c' stem]; [done|]. injection Hcn as -> ->. by exists stem.
Qed.
