(* ===== verification/Manifest.v ===== *)
(** * Manifests: [engine/src/manifest.rs], [annotation.rs], [tool_projection.rs]

    The manifest's data, validation, the provenance gates and the dispatch
    order of annotators. *)

From S2P Require Import Prelude OrdMap RustStd Json Errors AgentHooks Constants Paths PolicyInput.
From S2P Require Import Limits Hex Pins Policy.

(** ** Annotators *)

Inductive AnnotatorType : Type := Classifier | Llm | Endpoint.

Definition annotator_type_as_str (t : AnnotatorType) : string :=
  match t with Classifier => "classifier" | Llm => "llm" | Endpoint => "endpoint" end.

Record AnnotatorConfig := mkAnnotator {
  annotator_type : AnnotatorType;
  annotator_fields : adapter }.

Record AnnotationConfig := mkAnnotation {
  annotation_from : string;
  annotation_fields : adapter }.

Record AnnotatorInvocation := mkInvocation {
  invocation_url_sourced : bool;
  invocation_fields : adapter }.

#[export] Instance AnnotatorType_eq_dec : EqDecision AnnotatorType.
Proof. solve_decision. Defined.
#[export] Instance AnnotatorConfig_eq_dec : EqDecision AnnotatorConfig.
Proof. solve_decision. Defined.
#[export] Instance AnnotationConfig_eq_dec : EqDecision AnnotationConfig.
Proof. solve_decision. Defined.

Definition from_annotation (annotator : AnnotatorConfig) (annotation : AnnotationConfig)
  : AnnotatorInvocation :=
  let fields : adapter :=
    [(annotation_TYPE, JString (annotator_type_as_str (annotator_type annotator)))] in
  let fields := bt_extend fields (annotator_fields annotator) in
  let fields := bt_insert annotation_FROM (JString (annotation_from annotation)) fields in
  let fields := bt_extend fields (annotation_fields annotation) in
  mkInvocation false fields.

Definition input_from (invocation : AnnotatorInvocation) : option string :=
  match bt_get annotation_FROM (invocation_fields invocation) with
  | Some value => as_str value
  | None => bt_get annotation_INPUT_FROM (invocation_fields invocation) ≫= as_str
  end.

Definition system_prompt_source `{UrlCrate} (fields : adapter)
  : result RuntimeError (option PinnedHttpsSource) :=
  match bt_get "system_prompt_url" fields with
  | None => Ok None
  | Some value =>
      if bt_contains "system_prompt" fields || bt_contains "prompt" fields then
        Err (ManifestInvalid
          "system_prompt_url must not be combined with system_prompt or prompt")
      else source ← pinned_from_value value; Ok (Some source)
  end.

(** ** The manifest *)

Record InterventionPointConfig := mkPoint {
  policy_target : string;
  policy_target_kind : option string;
  tool_name_from : option string;
  point_annotations : btree string AnnotationConfig;
  point_policy : PolicyBinding }.

Record ToolConfig := mkTool { tool_fields : adapter }.

Inductive ApprovalOnTimeout : Type := TimeoutDeny | TimeoutAllow | TimeoutSuspend.

Record ApprovalResolverConfig := mkResolver {
  resolver_type : string;
  additional_properties : adapter }.

Record ApprovalSection := mkApproval {
  default_resolver : option string;
  timeout_seconds : option N;
  on_timeout : option ApprovalOnTimeout;
  fatigue_threshold : option N;
  fatigue_window_seconds : option N;
  resolvers : btree string ApprovalResolverConfig }.

Inductive Composition : Type := CompositionDocument | CompositionLoaded | CompositionMerged.

Record Manifest := mkManifest {
  spec_version : string;
  metadata : JsonMap;
  extends : list ManifestExtends;
  policies : btree string PolicyConfig;
  intervention_points : btree InterceptionPoint InterventionPointConfig;
  tools : btree string ToolConfig;
  annotators : btree string AnnotatorConfig;
  approval : option ApprovalSection;
  url_sources : list string;
  url_sourced_annotators : gset string;
  url_sourced_annotations : gset (InterceptionPoint * string);
  composition : Composition }.

#[export] Instance InterventionPointConfig_eq_dec : EqDecision InterventionPointConfig.
Proof. solve_decision. Defined.
#[export] Instance ToolConfig_eq_dec : EqDecision ToolConfig.
Proof. solve_decision. Defined.
#[export] Instance ApprovalOnTimeout_eq_dec : EqDecision ApprovalOnTimeout.
Proof. solve_decision. Defined.
#[export] Instance ApprovalResolverConfig_eq_dec : EqDecision ApprovalResolverConfig.
Proof. solve_decision. Defined.
#[export] Instance ApprovalSection_eq_dec : EqDecision ApprovalSection.
Proof. solve_decision. Defined.

(** [impl PartialEq for Manifest]: everything but the composition. *)
Definition manifest_eqb (a b : Manifest) : bool :=
  bool_decide (spec_version a = spec_version b) &&
  bool_decide (metadata a = metadata b) && bool_decide (extends a = extends b) &&
  bool_decide (policies a = policies b) &&
  bool_decide (intervention_points a = intervention_points b) &&
  bool_decide (tools a = tools b) && bool_decide (annotators a = annotators b) &&
  bool_decide (approval a = approval b) && bool_decide (url_sources a = url_sources b) &&
  bool_decide (url_sourced_annotators a = url_sourced_annotators b) &&
  bool_decide (url_sourced_annotations a = url_sourced_annotations b).

Definition to_projected_value (tool : ToolConfig) (name : string) : JsonValue :=
  JObject (bt_insert "name" (JString name) (bt_of_list (tool_fields tool))).

Definition is_empty_policy_binding (policy : PolicyBinding) : bool :=
  str_is_empty (binding_id policy) && bool_decide (binding_query policy = None) &&
  bool_decide (binding_adapter_config policy = []).

Definition url_sourced (m : Manifest) : bool := negb (bool_decide (url_sources m = [])).

(** ** Setters: [self] with one field replaced *)

Definition with_url_sources (m : Manifest) (sources : list string) : Manifest :=
  mkManifest (spec_version m) (metadata m) (extends m) (policies m) (intervention_points m)
    (tools m) (annotators m) (approval m) sources (url_sourced_annotators m)
    (url_sourced_annotations m) (composition m).
Definition with_fetched (m : Manifest) (names : gset string)
  (bindings : gset (InterceptionPoint * string)) : Manifest :=
  mkManifest (spec_version m) (metadata m) (extends m) (policies m) (intervention_points m)
    (tools m) (annotators m) (approval m) (url_sources m) names bindings (composition m).
Definition with_policies (m : Manifest) (ps : btree string PolicyConfig) : Manifest :=
  mkManifest (spec_version m) (metadata m) (extends m) ps (intervention_points m)
    (tools m) (annotators m) (approval m) (url_sources m) (url_sourced_annotators m)
    (url_sourced_annotations m) (composition m).
Definition with_points (m : Manifest) (points : btree InterceptionPoint InterventionPointConfig)
  : Manifest :=
  mkManifest (spec_version m) (metadata m) (extends m) (policies m) points
    (tools m) (annotators m) (approval m) (url_sources m) (url_sourced_annotators m)
    (url_sourced_annotations m) (composition m).
Definition with_extends (m : Manifest) (entries : list ManifestExtends) : Manifest :=
  mkManifest (spec_version m) (metadata m) entries (policies m) (intervention_points m)
    (tools m) (annotators m) (approval m) (url_sources m) (url_sourced_annotators m)
    (url_sourced_annotations m) (composition m).
Definition with_composition (m : Manifest) (c : Composition) : Manifest :=
  mkManifest (spec_version m) (metadata m) (extends m) (policies m) (intervention_points m)
    (tools m) (annotators m) (approval m) (url_sources m) (url_sourced_annotators m)
    (url_sourced_annotations m) c.

(** ** Annotation dependencies *)

Definition annotation_chaining_enabled (m : Manifest) : bool :=
  match contract (spec_version m) with
  | Some c => annotation_chaining c
  | None => false
  end.

Definition annotation_dependencies (m : Manifest) (annotation : AnnotationConfig)
  : result RuntimeError (list string) :=
  if negb (annotation_chaining_enabled m) then Ok []
  else
    match bt_get "needs" (annotation_fields annotation) with
    | None => Ok []
    | Some value =>
        values ← ok_or (as_array value)
          (ManifestInvalid "annotation needs must be an array of names");
        map_result (λ value,
          ok_or (match as_str value with
                 | Some name => if blank name then None else Some name
                 | None => None
                 end)
            (ManifestInvalid "annotation needs entries must be non-empty names")) values
    end.

Definition from_annotation_in (m : Manifest) (annotator : AnnotatorConfig)
  (annotation : AnnotationConfig) : AnnotatorInvocation :=
  let invocation := from_annotation annotator annotation in
  let fields := invocation_fields invocation in
  mkInvocation (url_sourced m)
    (if annotation_chaining_enabled m then bt_remove "needs" fields else fields).

(** ** Dispatch order *)

(** The three tables Kahn's algorithm starts from. *)
Record DispatchState := mkDispatch {
  remaining_needs : btree string N;
  dependents : btree string (list string);
  ready : list string }.

Definition dispatch_tables (m : Manifest) (annotations : btree string AnnotationConfig)
  : result RuntimeError DispatchState :=
  fold_result (λ s (e : string * AnnotationConfig),
    let (name, annotation) := e in
    needs ← annotation_dependencies m annotation;
    Ok (mkDispatch
      (bt_insert name (N.of_nat (length needs)) (remaining_needs s))
      (fold_left (λ (deps : btree string (list string)) need,
        bt_insert need (default [] (bt_get need deps) ++ [name]) deps) needs (dependents s))
      (if bool_decide (needs = []) then bs_insert name (ready s) else ready s)))
    (mkDispatch [] [] []) annotations.

(** [usize -= 1] as the release build computes it. *)
Definition usize_pred (n : N) : N := if (n =? 0)%N then usize_max else (n - 1)%N.

(** The body of the loop over one popped name's dependents. *)
Definition release_dependent (s : btree string N * list string) (dependent : string)
  : btree string N * list string :=
  match bt_get dependent s.1 with
  | Some count =>
      let count := usize_pred count in
      (bt_insert dependent count s.1,
       if (count =? 0)%N then bs_insert dependent s.2 else s.2)
  | None => s
  end.

(** [while let Some(name) = ready.pop_first()]: every name is popped at
    most once ([DispatchFacts]), so the number of names is fuel enough. *)
Fixpoint dispatch_loop (fuel : nat) (deps : btree string (list string))
  (remaining : btree string N) (ready order : list string)
  : btree string N * list string * list string :=
  match fuel, ready with
  | S fuel, name :: ready =>
      let '(remaining, ready) :=
        fold_left release_dependent (default [] (bt_get name deps)) (remaining, ready) in
      dispatch_loop fuel deps remaining ready (order ++ [name])
  | _, _ => (remaining, ready, order)
  end.

Section manifest.
Context `{AgentHooks} `{UrlCrate} `{SerdeJson}.

Definition annotation_dispatch_order (point : InterceptionPoint) (config : InterventionPointConfig)
  (m : Manifest) : result RuntimeError (list string) :=
  let annotations := point_annotations config in
  if negb (annotation_chaining_enabled m) then Ok (bt_keys annotations)
  else
    tables ← dispatch_tables m annotations;
    let '(remaining, _, order) :=
      dispatch_loop (length annotations) (dependents tables) (remaining_needs tables) (ready tables) [] in
    if negb (Nat.eqb (length order) (length annotations)) then
      let cycle := bt_keys (filter (λ e : string * N, (0 < e.2)%N) remaining) in
      Err (ManifestInvalid ("intervention point " +:+ point_as_str point +:+
        " has unresolvable annotation needs (cycle or blocked by one) among: " +:+
        join ", " (sort_strings cycle)))
    else Ok order.

(** ** Validation *)

Definition snapshot_path (text error_context root_error : string) : result RuntimeError JsonPath :=
  path ← map_err (λ err, ManifestInvalid (error_context +:+ ": " +:+ path_error_to_string err))
    (parse_with_snapshot_alias text);
  if bool_decide (root path = Snap) then Ok path else Err (ManifestInvalid root_error).

(** The dependencies of one binding: not itself, no duplicate, and opted
    into at the point. *)
Definition validate_needs (at_point name : string) (annotations : btree string AnnotationConfig)
  (needs : list string) : result RuntimeError (gset string) :=
  let what := "annotation '" +:+ name +:+ "' for intervention point " +:+ at_point in
  fold_result (λ (seen : gset string) need,
    if decide (need = name) then Err (ManifestInvalid (what +:+ " must not depend on itself"))
    else if decide (need ∈ seen) then
      Err (ManifestInvalid (what +:+ " lists '" +:+ need +:+ "' in needs more than once"))
    else if negb (bt_contains need annotations) then
      Err (ManifestInvalid (what +:+ " needs '" +:+ need +:+ "', which the point does not opt into"))
    else Ok ({[need]} ∪ seen)) ∅ needs.

Definition validate_annotation (point : InterceptionPoint) (config : InterventionPointConfig)
  (m : Manifest) (name : string) (annotation : AnnotationConfig) : result RuntimeError () :=
  let at_point := point_as_str point in
  let what := "annotation '" +:+ name +:+ "' for intervention point " +:+ at_point in
  match bt_get name (annotators m) with
  | None => Err (ManifestInvalid ("intervention point " +:+ at_point +:+
      " references unknown annotator '" +:+ name +:+ "'"))
  | Some annotator =>
      let invocation := from_annotation_in m annotator annotation in
      (if bool_decide (bt_get "type" (invocation_fields invocation) ≫= as_str = Some "llm")
       then system_prompt_source (invocation_fields invocation) ;; Ok () else Ok ()) ;;
      if bt_contains "annotator" (annotation_fields annotation) then
        Err (ManifestInvalid (what +:+ " must use the annotations map key as the annotator name"))
      else if blank (annotation_from annotation) then
        Err (ManifestInvalid (what +:+ " must define from"))
      else
        from_path ← map_err (λ err, ManifestInvalid ("invalid annotation '" +:+ name +:+
            "' from path for intervention point " +:+ at_point +:+ ": " +:+ path_error_to_string err))
          (parse_with_snapshot_alias (annotation_from annotation));
        if negb (annotation_chaining_enabled m) then
          if references_pi_annotations from_path then
            Err (ManifestInvalid ("annotation '" +:+ name +:+
              "' must not read policy-input annotations in this manifest version"))
          else Ok ()
        else
          needs ← annotation_dependencies m annotation;
          seen_needs ← validate_needs at_point name (point_annotations config) needs;
          match pi_annotation_reference from_path with
          | Some reference =>
              if decide (reference ∈ seen_needs) then Ok ()
              else Err (ManifestInvalid (what +:+ " reads annotation '" +:+ reference +:+
                "' without naming it in needs"))
          | None =>
              if references_pi_annotations from_path then
                Err (ManifestInvalid (what +:+
                  " must read a named annotation, not the whole annotations map"))
              else Ok ()
          end
  end.

Definition validate_point_config (point : InterceptionPoint) (config : InterventionPointConfig)
  (m : Manifest) : result RuntimeError () :=
  let at_point := "intervention point " +:+ point_as_str point in
  if blank (policy_target config) then
    Err (ManifestInvalid (at_point +:+ " must define policy_target after extends resolution"))
  else
    snapshot_path (policy_target config) ("invalid policy_target for " +:+ at_point)
      ("policy_target for " +:+ at_point +:+ " must use $, $snap, or a snapshot alias") ;;
    match policy_target_kind config with
    | Some kind =>
        if blank kind
        then Err (ManifestInvalid ("policy_target_kind for " +:+ at_point +:+ " must not be empty"))
        else Ok ()
    | None => Ok ()
    end ;;
    match tool_name_from config with
    | Some tool_name =>
        if negb (is_tool_point point) then
          Err (ManifestInvalid ("tool_name_from is only valid on tool intervention points, not " +:+
            point_as_str point))
        else
          snapshot_path tool_name ("invalid tool_name_from for " +:+ at_point)
            ("tool_name_from for " +:+ at_point +:+ " must use $, $snap, or a snapshot alias") ;;
          Ok ()
    | None => Ok ()
    end ;;
    for_each (λ e : string * AnnotationConfig, validate_annotation point config m e.1 e.2)
      (point_annotations config) ;;
    annotation_dispatch_order point config m ;;
    let policy := point_policy config in
    if blank (binding_id policy) then
      Err (ManifestInvalid (at_point +:+ " must define policy after extends resolution"))
    else
      policy_config ← ok_or (bt_get (binding_id policy) (policies m))
        (ManifestInvalid (at_point +:+ " references unknown policy '" +:+ binding_id policy +:+ "'"));
      validate_policy_binding point policy policy_config.

Definition positive_or (value : option N) (message : string) : result RuntimeError () :=
  match value with
  | Some n => if (n =? 0)%N then Err (ManifestInvalid message) else Ok ()
  | None => Ok ()
  end.

Definition validate_approval_section (a : ApprovalSection) : result RuntimeError () :=
  match default_resolver a with
  | Some name =>
      if blank name then Err (ManifestInvalid "approval.default_resolver must not be empty")
      else if negb (bool_decide (resolvers a = [])) && negb (bt_contains name (resolvers a)) then
        Err (ManifestInvalid ("approval.default_resolver '" +:+ name +:+
          "' does not match any entry under approval.resolvers"))
      else Ok ()
  | None => Ok ()
  end ;;
  positive_or (timeout_seconds a) "approval.timeout_seconds must be greater than zero" ;;
  positive_or (fatigue_threshold a) "approval.fatigue_threshold must be greater than zero" ;;
  positive_or (fatigue_window_seconds a) "approval.fatigue_window_seconds must be greater than zero" ;;
  for_each (λ e : string * ApprovalResolverConfig,
    if blank e.1 then Err (ManifestInvalid "approval.resolvers entries must have non-empty names")
    else if blank (resolver_type e.2) then
      Err (ManifestInvalid ("approval.resolvers." +:+ e.1 +:+ ".type must not be empty"))
    else Ok ()) (resolvers a).

(** ** Provenance gates *)

Definition reject_fetched_annotator_fields (document label : string) (fields : adapter)
  (chain_pinned : bool) : result RuntimeError () :=
  for_each (λ field,
    if bt_contains field fields then
      Err (ManifestInvalid (document +:+ ": " +:+ label +:+
        " declares host environment secret field '" +:+ field +:+ "'; a " +:+ MARKER +:+
        " must not read host secrets because it also chooses the endpoint that receives them; supply the credential inline on a host declared annotator or declare the annotator in a manifest with no URL extends"))
    else Ok ()) host_env_secret_ALL ;;
  if negb chain_pinned && bt_contains "system_prompt_url" fields then
    Err (ManifestInvalid (document +:+ ": " +:+ label +:+
      " declares a remote 'system_prompt_url' on an unpinned path; a " +:+ MARKER +:+
      " may name one only when every URL extends from the root manifest to this document is pinned with sha256 or integrity, and a document the host marked carries no pin"))
  else Ok ().

Definition reject_url_sourced_annotator_fields (label : string) (fields : adapter)
  (sources : list string) : result RuntimeError () :=
  for_each (λ field,
    if bt_contains field fields then
      Err (ManifestInvalid (label +:+ " declares host environment secret field '" +:+ field +:+
        "' in a " +:+ MARKER +:+
        "; a chain that fetched a document must not read host secrets because a fetched document can also choose the endpoint that receives them; supply the credential inline on the annotator declaration or drop the URL extends; fetched documents: " +:+
        join ", " sources))
    else Ok ()) host_env_secret_ALL.

Definition binding_context (point : InterceptionPoint) : string :=
  "intervention point " +:+ point_as_str point +:+ " policy binding".
Definition annotation_context (point : InterceptionPoint) (name : string) : string :=
  "annotation '" +:+ name +:+ "' for intervention point " +:+ point_as_str point.

(** One of the two loops over policies and bindings. *)
Definition gate_policies (m : Manifest) (document : string)
  (policy_gate : PolicyConfig → string → string → result RuntimeError ())
  (binding_gate : PolicyBinding → string → string → result RuntimeError ())
  : result RuntimeError () :=
  for_each (λ e : string * PolicyConfig,
    policy_gate e.2 document ("policy '" +:+ e.1 +:+ "'")) (policies m) ;;
  for_each (λ e : InterceptionPoint * InterventionPointConfig,
    binding_gate (point_policy e.2) document (binding_context e.1)) (intervention_points m).

Definition reject_fetched_document_local_access (m : Manifest) (document : string)
  (chain_pinned : bool) : result RuntimeError () :=
  for_each (λ e : string * AnnotatorConfig,
    reject_fetched_annotator_fields document ("annotator '" +:+ e.1 +:+ "'")
      (annotator_fields e.2) chain_pinned) (annotators m) ;;
  for_each (λ e : InterceptionPoint * InterventionPointConfig,
    for_each (λ a : string * AnnotationConfig,
      reject_fetched_annotator_fields document (annotation_context e.1 a.1)
        (annotation_fields a.2) chain_pinned) (point_annotations e.2)) (intervention_points m) ;;
  gate_policies m document policy_reject_filesystem_path_fields
    binding_reject_filesystem_path_fields ;;
  (if negb chain_pinned
   then gate_policies m document policy_reject_remote_bundle_field binding_reject_remote_bundle_field
   else Ok ()) ;;
  gate_policies m document policy_reject_non_rule_query binding_reject_non_rule_query ;;
  if bool_decide (is_Some (approval m)) then
    Err (ManifestInvalid (document +:+
      " declares an approval section; approval resolver configuration is host configuration and a " +:+
      MARKER +:+ " must not supply it"))
  else
    match bt_keys (tools m) with
    | name :: _ =>
        Err (ManifestInvalid (document +:+ " declares tool '" +:+ name +:+
          "'; the tool catalog is host configuration and a " +:+ MARKER +:+ " must not supply it"))
    | [] => Ok ()
    end.

Definition reject_cross_document_overlay (m : Manifest) (point : InterceptionPoint) (name : string)
  (annotation : AnnotationConfig) : result RuntimeError () :=
  let declaration_fetched := bool_decide (name ∈ url_sourced_annotators m) in
  let binding_fetched := bool_decide ((point, name) ∈ url_sourced_annotations m) in
  let fetched := "; fetched documents: " +:+ join ", " (url_sources m) in
  let what := annotation_context point name in
  (if binding_fetched && negb declaration_fetched then
     match find (λ field, negb (bool_decide (field = annotation_INPUT_FROM)))
             (bt_keys (annotation_fields annotation)) with
     | Some field =>
         Err (ManifestInvalid (what +:+ " comes from a fetched document and sets field '" +:+ field +:+
           "' on annotator '" +:+ name +:+
           "', which the host declared; binding fields overlay the declaration at dispatch, so in a " +:+
           MARKER +:+ " a fetched binding for a host declared annotator may set only `from`" +:+ fetched))
     | None => Ok ()
     end
   else Ok ()) ;;
  (if declaration_fetched : bool then
     needs ← annotation_dependencies m annotation;
     match find (λ need, negb (bool_decide (need ∈ url_sourced_annotators m))) needs with
     | Some need =>
         Err (ManifestInvalid (what +:+ " needs '" +:+ need +:+
           "', which the host declared, onto annotator '" +:+ name +:+
           "', which a fetched document declared; in a " +:+ MARKER +:+
           " that document chose the endpoint that would receive '" +:+ need +:+ "' results" +:+ fetched))
     | None => Ok ()
     end
   else Ok ()) ;;
  if declaration_fetched && negb binding_fetched then
    for_each (λ field,
      if bt_contains field (annotation_fields annotation) then
        Err (ManifestInvalid (what +:+ " carries inline credential field '" +:+ field +:+
          "' onto annotator '" +:+ name +:+ "', which a fetched document declared; in a " +:+ MARKER +:+
          " that document chose the endpoint that would receive the value; declare the annotator in the host manifest or drop the credential" +:+
          fetched))
      else Ok ()) inline_credential_ALL
  else Ok ().

Definition reject_url_sourced_host_secrets (m : Manifest) : result RuntimeError () :=
  for_each (λ e : string * AnnotatorConfig,
    reject_url_sourced_annotator_fields ("annotator '" +:+ e.1 +:+ "'") (annotator_fields e.2)
      (url_sources m)) (annotators m) ;;
  for_each (λ e : InterceptionPoint * InterventionPointConfig,
    for_each (λ a : string * AnnotationConfig,
      match bt_get a.1 (annotators m) with
      | None => Ok ()
      | Some annotator =>
          reject_url_sourced_annotator_fields (annotation_context e.1 a.1)
            (invocation_fields (from_annotation annotator a.2)) (url_sources m) ;;
          reject_cross_document_overlay m e.1 a.1 a.2
      end) (point_annotations e.2)) (intervention_points m).

Definition validate (m : Manifest) : result RuntimeError () :=
  let version := trim (spec_version m) in
  if str_is_empty version then
    Err (ManifestInvalid "agent_control_specification_version is required")
  else if negb (bool_decide (version ∈ SUPPORTED)) then
    Err (ManifestInvalid ("unsupported agent_control_specification_version '" +:+ version +:+
      "'; supported versions are " +:+ join ", " SUPPORTED))
  else
    for_each (λ entry,
      if blank (extends_reference entry)
      then Err (ManifestInvalid "extends entries must not be empty")
      else validate_extends_trust entry) (extends m) ;;
    if bool_decide (intervention_points m = []) then
      Err (ManifestInvalid "at least one intervention point config is required")
    else
      for_each (λ e : string * PolicyConfig,
        if blank e.1 then Err (ManifestInvalid "policy ids must not be empty")
        else validate_policy_definition e.1 e.2) (policies m) ;;
      for_each (λ e : string * AnnotatorConfig,
        if blank e.1 then Err (ManifestInvalid "annotator names must not be empty")
        else if annotation_chaining_enabled m && bt_contains "needs" (annotator_fields e.2) then
          Err (ManifestInvalid ("annotator '" +:+ e.1 +:+
            "' must declare needs on an intervention-point binding"))
        else if bool_decide (annotator_type e.2 = Llm)
        then system_prompt_source (annotator_fields e.2) ;; Ok ()
        else Ok ()) (annotators m) ;;
      for_each (λ e : InterceptionPoint * InterventionPointConfig,
        validate_point_config e.1 e.2 m) (intervention_points m) ;;
      match approval m with
      | Some a => validate_approval_section a
      | None => Ok ()
      end ;;
      if url_sourced m then reject_url_sourced_host_secrets m else Ok ().

(** ** Recording provenance *)

(** [binary_search_by] then [insert] on a sorted vector: the source goes
    to its place unless it is there. *)
Definition push_url_source (sources : list string) (url : string) : list string :=
  bs_insert url sources.

(** [sort] then [dedup]. *)
Fixpoint dedup (l : list string) : list string :=
  match l with
  | x :: ((y :: _) as l) => if decide (x = y) then dedup l else x :: dedup l
  | l => l
  end.
Definition merge_url_sources (existing incoming : list string) : list string :=
  dedup (sort_strings (existing ++ incoming)).

Definition point_bindings (points : btree InterceptionPoint InterventionPointConfig)
  : list (InterceptionPoint * string) :=
  points ≫= λ e : InterceptionPoint * InterventionPointConfig, (e.1,.) <$> bt_keys (point_annotations e.2).

Definition record_fetched_declarations (m : Manifest) : Manifest :=
  with_fetched m
    (url_sourced_annotators m ∪ list_to_set (bt_keys (annotators m)))
    (url_sourced_annotations m ∪ list_to_set (point_bindings (intervention_points m))).

Definition mark_url_sourced (m : Manifest) : result RuntimeError Manifest :=
  match composition m with
  | CompositionLoaded => Err (ManifestInvalid
      "mark_url_sourced takes one document parsed from text; this manifest came from the file loader, which records provenance itself; parse the fetched text with parse_yaml_str and mark that")
  | CompositionMerged => Err (ManifestInvalid
      "mark_url_sourced takes one document parsed from text; this manifest was merged from more than one document, so mark each fetched document before merging it")
  | CompositionDocument =>
      if url_sourced m then
        Err (ManifestInvalid
          ("mark_url_sourced applies once; this manifest is already URL sourced; fetched documents: " +:+
           join ", " (url_sources m)))
      else
        reject_fetched_document_local_access m HOST_MARKED_SOURCE false ;;
        Ok (record_fetched_declarations
          (with_url_sources m (push_url_source (url_sources m) HOST_MARKED_SOURCE)))
  end.

(** ** Relative paths and in-memory bundles *)

Definition resolve_relative_paths (m : Manifest) (base_dir : string) : Manifest :=
  with_points (with_policies m
      ((λ e : string * PolicyConfig, (e.1, policy_resolve_relative_paths e.2 base_dir)) <$> policies m))
    ((λ e : InterceptionPoint * InterventionPointConfig,
       (e.1, mkPoint (policy_target e.2) (policy_target_kind e.2) (tool_name_from e.2)
         (point_annotations e.2) (binding_resolve_relative_paths (point_policy e.2) base_dir))) <$>
     intervention_points m).

Definition set_rego_bundle_in_memory (m : Manifest) (policy_id : string)
  (bundle : InMemoryRegoBundle) : result RuntimeError Manifest :=
  let cannot := "cannot supply in-memory Rego modules for policy '" +:+ policy_id +:+ "': " in
  config ← ok_or (bt_get policy_id (policies m))
    (ManifestInvalid (cannot +:+ "the manifest declares no such policy"));
  match config with
  | PolicyRego rego =>
      for_each (λ e : InterceptionPoint * InterventionPointConfig,
        if bool_decide (binding_id (point_policy e.2) = policy_id) &&
           bt_contains "bundle_url" (binding_adapter_config (point_policy e.2))
        then Err (ManifestInvalid (cannot +:+ "intervention point " +:+ point_as_str e.1 +:+
          " still declares a bundle_url override; remove the binding override first"))
        else Ok ()) (intervention_points m) ;;
      Ok (with_policies m (bt_insert policy_id
        (PolicyRego (mkRego (rego_query rego) None (Some bundle)
          (bt_remove "bundle_url" (rego_adapter_config rego)))) (policies m)))
  | _ => Err (ManifestInvalid (cannot +:+ "it is not a rego policy"))
  end.

Definition path_is_relative (path : string) : bool := negb (path_is_absolute path).

(** The closure [relative]. *)
Definition relative (value : option string) : bool :=
  match value with
  | Some path => negb (str_is_empty path) && path_is_relative path
  | None => false
  end.

(** The closure [relative_data]. *)
Definition relative_data (config : adapter) : bool :=
  match rego_adapter_data_paths config with
  | Ok paths => existsb path_is_relative paths
  | Err _ => false
  end.

(** [ids.sort()] and [ids.dedup()]. *)
Definition unresolved_relative_rego_paths (m : Manifest) : list string :=
  let ids := omap (λ e : string * PolicyConfig,
    match e.2 with
    | PolicyRego rego =>
        if relative (rego_bundle rego) || relative_data (rego_adapter_config rego)
        then Some e.1 else None
    | _ => None
    end) (policies m) in
  let ids := fold_left (λ ids (e : InterceptionPoint * InterventionPointConfig),
    let binding := point_policy e.2 in
    let is_rego :=
      match bt_get (binding_id binding) (policies m) with Some (PolicyRego _) => true | _ => false end in
    if is_rego && relative_data (binding_adapter_config binding) &&
       negb (bool_decide (binding_id binding ∈ ids))
    then ids ++ [binding_id binding] else ids) (intervention_points m) ids in
  dedup (sort_strings ids).

(** ** Tool projection: [engine/src/tool_projection.rs] *)

Definition project_tool (m : Manifest) (point : InterceptionPoint) (config : InterventionPointConfig)
  (snapshot : JsonValue) : result RuntimeError JsonValue :=
  match tool_name_from config with
  | None => Ok JNull
  | Some tool_name_from =>
      if negb (is_tool_point point) then
        Err (ManifestInvalid ("tool_name_from is only valid on tool intervention points, not " +:+
          point_as_str point))
      else
        path ← map_err (λ err, ManifestInvalid ("invalid tool_name_from for intervention_point " +:+
            point_as_str point +:+ ": " +:+ path_error_to_string err))
          (parse_with_snapshot_alias tool_name_from);
        value ← resolve path (with_snap snapshot);
        tool_name ← ok_or (as_str value)
          (PathTypeMismatch ("tool_name_from '" +:+ tool_name_from +:+ "' did not resolve to a string"));
        tool ← ok_or (bt_get tool_name (tools m)) (ToolUnknown tool_name);
        Ok (to_projected_value tool tool_name)
  end.
End manifest.
