(* ===== verification/Deserialize.v ===== *)
(** * The strict deserializer: [engine/src/manifest_deserializer.rs]

    Serde's data model, and over it the [Strict] adapter, which a manifest
    is decoded through, and the [Deserialize] implementations written by
    hand in [manifest.rs] and [policy.rs]. A deserializer is the tree of
    the visits it would make: asked by one of its methods it visits its
    target with a scalar, or with deserializers of what is nested. The YAML
    parser's deserializer and the derived implementations are parameters. *)

From Stdlib Require Import SpecFloat.
From S2P Require Import Prelude OrdMap RustStd Json Errors AgentHooks.
From S2P Require Import Limits Pins Policy Manifest.

(** ** The data model *)

(** The methods of [serde::Deserializer]. *)
Inductive Method : Type :=
  | MAny | MBool | MI8 | MI16 | MI32 | MI64 | MI128 | MU8 | MU16 | MU32 | MU64 | MU128 | MF32 | MF64
  | MChar | MStr | MString | MBytes | MByteBuf | MOption | MUnit
  | MUnitStruct (name : string) | MNewtypeStruct (name : string)
  | MSeq | MTuple (len : N) | MTupleStruct (name : string) (len : N) | MMap
  | MStruct (name : string) (fields : list string) | MEnum (name : string) (variants : list string)
  | MIdentifier | MIgnoredAny.

(** The scalars a visitor can be visited with. A 32-bit float is its
    value. *)
Inductive Visited : Type :=
  | VBool (b : bool)
  | VI8 (z : Z) | VI16 (z : Z) | VI32 (z : Z) | VI64 (z : Z) | VI128 (z : Z)
  | VU8 (n : N) | VU16 (n : N) | VU32 (n : N) | VU64 (n : N) | VU128 (n : N)
  | VF32 (f : spec_float) | VF64 (f : spec_float)
  | VChar (c : string) | VStr (s : string) | VBorrowedStr (s : string) | VOwnedString (s : string)
  | VBytes (b : list Ascii.ascii) | VBorrowedBytes (b : list Ascii.ascii) | VByteBuf (b : list Ascii.ascii)
  | VUnit | VNone.

Section serde.
Context {E : Type}.

(** The visit a method makes: [check] is what it raises after its target
    took so many elements, and [blame] how it reports its target's
    error. *)
Inductive De : Type :=
  | mkDe (drive : Method → Visit)
with Visit : Type :=
  | mkVisit (event : Event) (check : nat → option E) (blame : E → E)
with Event : Type :=
  | EvFail (e : E)
  | EvScalar (s : Visited)
  | EvSome (d : De)
  | EvNewtype (d : De)
  | EvSeq (items : list De) (ending : option E)
  | EvMap (entries : list (De * De)) (ending : option E)
  | EvEnum (variant : De) (payload : Payload)
with Payload : Type :=
  | mkPayload (unit_variant : option E) (newtype_variant : De) (tuple_variant : N → Visit)
      (struct_variant : list string → Visit).

Definition drive (d : De) : Method → Visit := match d with mkDe f => f end.
Definition visit_event (v : Visit) : Event := match v with mkVisit e _ _ => e end.

(** A target: its visitor. A sequence or a map is taken element by element;
    the number says how many it took. *)
Record Target (A : Type) := mkTarget {
  visit_scalar : Visited → result E A;
  visit_some : De → result E A;
  visit_newtype_struct : De → result E A;
  visit_seq : list De → option E → nat * result E A;
  visit_map : list (De * De) → option E → nat * result E A;
  visit_enum : De → Payload → result E A }.
Arguments mkTarget {A}.
Arguments visit_scalar {A}.
Arguments visit_some {A}.
Arguments visit_newtype_struct {A}.
Arguments visit_seq {A}.
Arguments visit_map {A}.
Arguments visit_enum {A}.

Definition visiting {A} (v : Target A) (e : Event) : nat * result E A :=
  match e with
  | EvFail e => (0%nat, Err e)
  | EvScalar s => (0%nat, visit_scalar v s)
  | EvSome d => (0%nat, visit_some v d)
  | EvNewtype d => (0%nat, visit_newtype_struct v d)
  | EvSeq items ending => visit_seq v items ending
  | EvMap entries ending => visit_map v entries ending
  | EvEnum variant payload => (0%nat, visit_enum v variant payload)
  end.

Definition visit_with {A} (visit : Visit) (v : Target A) : result E A :=
  match visit with
  | mkVisit event check blame =>
      match visiting v event with
      | (_, Err e) => Err (blame e)
      | (taken, Ok a) => match check taken with Some e => Err e | None => Ok a end
      end
  end.

(** [d.deserialize_<method>(visitor)]. *)
Definition deserialize {A} (d : De) (method : Method) (v : Target A) : result E A := visit_with (drive d method) v.

(** [SeqAccess::next_element_seed], and the others. *)
Definition next_element_seed {A} (seed : De → result E A) (items : list De) (ending : option E)
  : result E (option A * list De) :=
  match items with
  | [] => match ending with Some e => Err e | None => Ok (None, []) end
  | d :: items => a ← seed d; Ok (Some a, items)
  end.

Definition next_key_seed {A} (seed : De → result E A) (entries : list (De * De)) (ending : option E)
  : result E (option (A * De) * list (De * De)) :=
  match entries with
  | [] => match ending with Some e => Err e | None => Ok (None, []) end
  | (key, value) :: entries => a ← seed key; Ok (Some (a, value), entries)
  end.

Definition variant_seed {A} (seed : De → result E A) (variant : De) (payload : Payload) : result E (A * Payload) :=
  a ← seed variant; Ok (a, payload).

(** [VariantAccess]. *)
Definition unit_variant (p : Payload) : result E () :=
  match p with mkPayload (Some e) _ _ _ => Err e | mkPayload None _ _ _ => Ok () end.
Definition newtype_variant_seed {A} (seed : De → result E A) (p : Payload) : result E A :=
  match p with mkPayload _ newtype _ _ => seed newtype end.
Definition tuple_variant {A} (len : N) (v : Target A) (p : Payload) : result E A :=
  match p with mkPayload _ _ tuple _ => visit_with (tuple len) v end.
Definition struct_variant {A} (fields : list string) (v : Target A) (p : Payload) : result E A :=
  match p with mkPayload _ _ _ struct => visit_with (struct fields) v end.

(** ** [Strict] *)

(** [forward_to_deserialize_any!]: the numeric and boolean methods. *)
Definition inferred (m : Method) : bool :=
  match m with
  | MBool | MI8 | MI16 | MI32 | MI64 | MI128 | MU8 | MU16 | MU32 | MU64 | MU128 | MF32 | MF64 => true
  | _ => false
  end.

Definition strict_method (m : Method) : Method := if inferred m then MAny else m.

(** [Wrapped] has no narrow visits: serde's defaults widen the value. *)
Definition widened (s : Visited) : Visited :=
  match s with
  | VI8 z | VI16 z | VI32 z => VI64 z
  | VU8 n | VU16 n | VU32 n => VU64 n
  | VF32 f => VF64 f
  | s => s
  end.

(** [Strict<D>] for a deserializer and what it hands out. *)
Fixpoint strict (d : De) : De :=
  match d with mkDe f => mkDe (λ m, strict_visit (f (strict_method m))) end
with strict_visit (v : Visit) : Visit :=
  match v with mkVisit event check blame => mkVisit (strict_event event) check blame end
with strict_event (e : Event) : Event :=
  match e with
  | EvFail e => EvFail e
  | EvScalar s => EvScalar (widened s)
  | EvSome d => EvSome (strict d)
  | EvNewtype d => EvNewtype (strict d)
  | EvSeq items ending => EvSeq (map strict items) ending
  | EvMap entries ending => EvMap (map (λ e, (strict e.1, strict e.2)) entries) ending
  | EvEnum variant payload => EvEnum (strict variant) (strict_payload payload)
  end
with strict_payload (p : Payload) : Payload :=
  match p with
  | mkPayload unit newtype tuple struct =>
      mkPayload unit (strict newtype) (λ len, strict_visit (tuple len)) (λ fields, strict_visit (struct fields))
  end.

Definition strict_entry (e : De * De) : De * De := (strict e.1, strict e.2).

(** [Wrapped<V>]. *)
Definition Wrapped {A} (v : Target A) : Target A := {|
  visit_scalar s := visit_scalar v (widened s);
  visit_some d := visit_some v (strict d);
  visit_newtype_struct d := visit_newtype_struct v (strict d);
  visit_seq items ending := visit_seq v (map strict items) ending;
  visit_map entries ending := visit_map v (map strict_entry entries) ending;
  visit_enum variant payload := visit_enum v (strict variant) (strict_payload payload) |}.

(** [Strict<S>] for a seed. *)
Definition strict_seed {A} (seed : De → result E A) (d : De) : result E A := seed (strict d).

(** [Strict<A>] for the accesses: their seeds and visitors are wrapped. *)
Definition strict_next_element_seed {A} (seed : De → result E A) := next_element_seed (strict_seed seed).
Definition strict_next_key_seed {A} (seed : De → result E A) := next_key_seed (strict_seed seed).
Definition strict_variant_seed {A} (seed : De → result E A) (variant : De) (payload : Payload)
  : result E (A * Payload) :=
  r ← variant_seed (strict_seed seed) variant payload; Ok (r.1, strict_payload r.2).
Definition strict_newtype_variant_seed {A} (seed : De → result E A) (p : Payload) : result E A :=
  newtype_variant_seed (strict_seed seed) p.
Definition strict_tuple_variant {A} (len : N) (v : Target A) (p : Payload) : result E A :=
  tuple_variant len (Wrapped v) p.
Definition strict_struct_variant {A} (fields : list string) (v : Target A) (p : Payload) : result E A :=
  struct_variant fields (Wrapped v) p.
End serde.

(** ** What a target can tell apart *)

Section laws.
Context {E : Type}.
Notation De := (@De E).
Notation Target := (@Target E).

(** Two deserializers make the same visits where they are asked by one of
    these methods, and so do those they hand out. *)
Fixpoint agree (asked : Method → bool) (d1 d2 : De) : Prop :=
  match d1, d2 with mkDe f, mkDe g => ∀ m, asked m = true → agree_visit asked (f m) (g m) end
with agree_visit (asked : Method → bool) (v1 v2 : Visit) : Prop :=
  match v1, v2 with
  | mkVisit e1 c1 b1, mkVisit e2 c2 b2 =>
      agree_event asked e1 e2 ∧ (∀ n, c1 n = c2 n) ∧ (∀ e, b1 e = b2 e)
  end
with agree_event (asked : Method → bool) (e1 e2 : Event) : Prop :=
  match e1, e2 with
  | EvFail x, EvFail y => x = y
  | EvScalar s, EvScalar t => s = t
  | EvSome a, EvSome b => agree asked a b
  | EvNewtype a, EvNewtype b => agree asked a b
  | EvSeq l x, EvSeq k y => x = y ∧
      (fix go l k := match l, k with
         | [], [] => True | a :: l, b :: k => agree asked a b ∧ go l k | _, _ => False end) l k
  | EvMap l x, EvMap k y => x = y ∧
      (fix go l k := match l, k with
         | [], [] => True
         | (a, a') :: l, (b, b') :: k => agree asked a b ∧ agree asked a' b' ∧ go l k
         | _, _ => False end) l k
  | EvEnum a p, EvEnum b q => agree asked a b ∧ agree_payload asked p q
  | _, _ => False
  end
with agree_payload (asked : Method → bool) (p q : Payload) : Prop :=
  match p, q with
  | mkPayload u a t s, mkPayload v b t' s' =>
      u = v ∧ agree asked a b ∧ (∀ len, agree_visit asked (t len) (t' len)) ∧
      (∀ fields, agree_visit asked (s fields) (s' fields))
  end.

(** The same deserializer to everyone who can only call its methods. *)
Definition same : De → De → Prop := agree (λ _, true).
Definition same_entry (a b : De * De) : Prop := same a.1 b.1 ∧ same a.2 b.2.

(** A visitor can only call methods of what it is handed. *)
Record parametric {A} (v : Target A) : Prop := {
  par_some a b : same a b → visit_some _ v a = visit_some _ v b;
  par_newtype a b : same a b → visit_newtype_struct _ v a = visit_newtype_struct _ v b;
  par_seq l k ending : Forall2 same l k → visit_seq _ v l ending = visit_seq _ v k ending;
  par_map l k ending : Forall2 same_entry l k → visit_map _ v l ending = visit_map _ v k ending;
  par_enum a b p q : same a b → agree_payload (λ _, true) p q → visit_enum _ v a p = visit_enum _ v b q }.

Lemma same_seq (l k : list De) :
  (fix go l k := match l, k with
     | [], [] => True | a :: l, b :: k => agree (λ _, true) a b ∧ go l k | _, _ => False end) l k →
  Forall2 same l k.
Proof. revert k. induction l as [|a l IH]; intros [|b k]; try done. intros [? ?]. constructor; auto. Qed.

Lemma same_map (l k : list (De * De)) :
  (fix go l k := match l, k with
     | [], [] => True
     | (a, a') :: l, (b, b') :: k => agree (λ _, true) a b ∧ agree (λ _, true) a' b' ∧ go l k
     | _, _ => False end) l k →
  Forall2 same_entry l k.
Proof.
  revert k. induction l as [|[a a'] l IH]; intros [|[b b'] k]; try done. intros (? & ? & ?). constructor; [done|auto].
Qed.

Lemma deserialize_same {A} (v : Target A) d1 d2 m :
  parametric v → same d1 d2 → deserialize d1 m v = deserialize d2 m v.
Proof.
  intros [Hsome Hnewtype Hseq Hmap Henum] Hd. destruct d1 as [f], d2 as [g]. specialize (Hd m eq_refl).
  unfold deserialize, drive, visit_with. destruct (f m) as [e1 c1 b1], (g m) as [e2 c2 b2].
  destruct Hd as (He & Hc & Hb).
  assert (visiting v e1 = visiting v e2) as ->.
  { destruct e1, e2; try done; cbn in He |- *; try (by f_equal; auto); try (by subst).
    - destruct He as [-> He]. by apply Hseq, same_seq.
    - destruct He as [-> He]. by apply Hmap, same_map.
    - destruct He as [Ha Hp]. f_equal. by apply Henum. }
  destruct (visiting v e2) as [taken [a|e]]; [by rewrite Hc|by rewrite Hb].
Qed.

(** ** [Strict] *)

(** Asking [Strict(d)] is asking [d], except that numbers and booleans are
    inferred, with the visitor wrapped. *)
Lemma visit_strict {A} (v : Target A) (visit : Visit) : visit_with (strict_visit visit) v = visit_with visit (Wrapped v).
Proof. destruct visit as [e c b]. by destruct e. Qed.

Lemma deserialize_strict {A} (v : Target A) (d : De) m :
  deserialize (strict d) m v = deserialize d (strict_method m) (Wrapped v).
Proof. destruct d as [f]. apply visit_strict. Qed.

Lemma next_element_strict {A} (seed : De → result E A) items ending :
  next_element_seed seed (map strict items) ending =
  (r ← strict_next_element_seed seed items ending; Ok (r.1, map strict r.2)).
Proof.
  unfold strict_next_element_seed. destruct items as [|d items]; cbn; [by destruct ending|].
  unfold strict_seed. by destruct (seed (strict d)).
Qed.

Lemma next_key_strict {A} (seed : De → result E A) entries ending :
  next_key_seed seed (map strict_entry entries) ending =
  (r ← strict_next_key_seed seed entries ending;
   Ok (option_map (λ p, (p.1, strict p.2)) r.1, map strict_entry r.2)).
Proof.
  unfold strict_next_key_seed. destruct entries as [|[key value] entries]; cbn; [by destruct ending|]. unfold strict_seed. by destruct (seed (strict key)).
Qed.

Lemma variant_strict {A} (seed : De → result E A) variant payload :
  variant_seed seed (strict variant) (strict_payload payload) = strict_variant_seed seed variant payload.
Proof. unfold strict_variant_seed, variant_seed, strict_seed. by destruct (seed (strict variant)). Qed.

Lemma payload_strict {A} (seed : De → result E A) len fields (v : Target A) (p : Payload) :
  unit_variant (strict_payload p) = unit_variant p ∧
  newtype_variant_seed seed (strict_payload p) = strict_newtype_variant_seed seed p ∧
  tuple_variant len v (strict_payload p) = strict_tuple_variant len v p ∧
  struct_variant fields v (strict_payload p) = strict_struct_variant fields v p.
Proof. destruct p as [unit newtype tuple struct]. split_and!; [done|done|apply visit_strict..]. Qed.

(** The primitive types a manifest's fields can have, text apart, and the
    method by which a type asks for itself. *)
Inductive IntegerWidth : Type := W8 | W16 | W32 | W64 | W128.

Inductive Primitive : Type :=
  | PBool
  | PInteger (signed : bool) (width : IntegerWidth)
  | PFloat (double : bool).

Definition method_of (t : Primitive) : Method :=
  match t with
  | PBool => MBool
  | PInteger true W8 => MI8
  | PInteger true W16 => MI16
  | PInteger true W32 => MI32
  | PInteger true W64 => MI64
  | PInteger true W128 => MI128
  | PInteger false W8 => MU8
  | PInteger false W16 => MU16
  | PInteger false W32 => MU32
  | PInteger false W64 => MU64
  | PInteger false W128 => MU128
  | PFloat true => MF64
  | PFloat false => MF32
  end.

Definition primitives : list Primitive :=
  PBool :: (PFloat <$> [true; false]) ++
  (signed ← [true; false]; PInteger signed <$> [W8; W16; W32; W64; W128]).

#[export] Instance method_dec : EqDecision Method.
Proof. solve_decision. Defined.

(** The methods that ask for no number and no boolean. *)
Definition untyped (m : Method) : bool := bool_decide (m ∉ method_of <$> primitives).

Lemma primitives_all t : t ∈ primitives.
Proof. destruct t as [|[] []|[]]; unfold primitives; cbn; set_solver. Qed.

Lemma untyped_true m : untyped m = true ↔ ∀ t, m ≠ method_of t.
Proof.
  unfold untyped. rewrite bool_decide_eq_true, list_elem_of_fmap. split.
  - intros Hm t ->. apply Hm. exists t. split; [done|apply primitives_all].
  - intros Hm (t & -> & _). by apply (Hm t).
Qed.

Lemma strict_method_untyped m : untyped (strict_method m) = true.
Proof. apply untyped_true. intros [|[] []|[]]; by destruct m. Qed.

Lemma strict_method_primitive t : strict_method (method_of t) = MAny.
Proof. by destruct t as [|[] []|[]]. Qed.

Lemma strict_agree : ∀ d1 d2 : De, agree untyped d1 d2 → same (strict d1) (strict d2).
Proof.
  fix IHd 1 with
    (IHv (v1 : Visit) : ∀ v2 : Visit, agree_visit untyped v1 v2 → agree_visit (λ _, true) (strict_visit v1) (strict_visit v2))
    (IHe (e1 : Event) : ∀ e2 : Event, agree_event untyped e1 e2 → agree_event (λ _, true) (strict_event e1) (strict_event e2))
    (IHp (p1 : Payload) : ∀ p2 : Payload, agree_payload untyped p1 p2 →
       agree_payload (λ _, true) (strict_payload p1) (strict_payload p2)).
  - intros [f] [g] Hd m _. apply IHv, Hd, strict_method_untyped.
  - destruct v1 as [e1 c1 b1]. intros [e2 c2 b2] (He & Hc & Hb). split_and!; [by apply IHe|done..].
  - destruct e1 as [x|s|a|a|l x|l x|a p]; intros [y|t|b|b|k y|k y|b q] He; try done; cbn in He |- *;
      try (by apply IHd); try (by subst).
    + destruct He as [-> He]. split; [done|]. revert k He.
      induction l as [|a l IHl]; intros [|b k]; try done. intros [Ha Hl]. split; [by apply IHd|by apply IHl].
    + destruct He as [-> He]. split; [done|]. revert k He.
      induction l as [|[a a'] l IHl]; intros [|[b b'] k]; try done. intros (Ha & Ha' & Hl).
      split; [by apply IHd|]. split; [by apply IHd|by apply IHl].
    + destruct He as [Ha Hp]. split; [by apply IHd|by apply IHp].
  - destruct p1 as [u a t s]. intros [v b t' s'] (Hu & Ha & Ht & Hs).
    split_and!; [done|by apply IHd|intros len; apply IHv, Ht|intros fields; apply IHv, Hs].
Qed.

(** C13: Decoding a manifest through [Strict] gives what the parser's inferred scalars give: take two parsers
    which make the same visits wherever no number and no boolean is asked for, and differ at will in what their
    methods for the booleans, the integers of every width and the floats accept, such as a quoted number. At any
    depth of the document, and for any target that can only call the methods of what it is handed, both give the
    same answer, and a target that asks for a primitive type is visited with the scalar the parser infers. *)
Theorem strict_ignores_typed_methods {A} (v : Target A) (d1 d2 : De) m :
  parametric v → agree untyped d1 d2 →
  deserialize (strict d1) m v = deserialize (strict d2) m v ∧
  ∀ t : Primitive, deserialize (strict d1) (method_of t) v = deserialize d2 MAny (Wrapped v).
Proof.
  intros Hv Hd. assert (∀ m, deserialize (strict d1) m v = deserialize (strict d2) m v) as Heq
    by (intros m'; by apply deserialize_same, strict_agree).
  split; [apply Heq|]. intros t. by rewrite Heq, deserialize_strict, strict_method_primitive.
Qed.
End laws.

(** ** The implementations written by hand *)

(** Serde's derived implementations, its own for strings, and its error
    constructors. *)
Class ManifestSerde (E : Type) := {
  invalid_type : @Event E → string → E;
  custom_error : string → E;
  string_of : @De E → result E string;
  (** [InterceptionPoint::deserialize] of a [StringDeserializer]. *)
  point_of : string → result E InterceptionPoint;
  point_config_of : @De E → result E InterventionPointConfig;
  (** [ManifestUrlExtends::deserialize] of a [MapAccessDeserializer]. *)
  url_extends_of : list (@De E * @De E) → option E → nat * result E ManifestUrlExtends;
  (** The derived [Wire::deserialize] of an in-memory bundle. *)
  wire_of : @De E → result E (btree string string * list MountedRegoData) }.

Section manifest_serde.
Context `{AgentHooksLaws} `{ManifestSerde E}.
Notation De := (@De E).
Notation Target := (@Target E).

(** A visitor that has none of these methods: serde's default. *)
Definition unexpected {A} (expecting : string) (e : @Event E) : result E A := Err (invalid_type e expecting).

(** The text of the visits that serde's defaults turn into [visit_str]. *)
Definition visited_str (s : Visited) : option string :=
  match s with
  | VChar s | VStr s | VBorrowedStr s | VOwnedString s => Some s
  | _ => None
  end.

Definition EXTENDS_EXPECTING : string := "an extends reference string or URL mapping".

Definition ExtendsVisitor : Target ManifestExtends := {|
  visit_scalar s := match visited_str s with
    | Some value => Ok (Reference value)
    | None => unexpected EXTENDS_EXPECTING (EvScalar (widened s))
    end;
  visit_some d := unexpected EXTENDS_EXPECTING (EvSome d);
  visit_newtype_struct d := unexpected EXTENDS_EXPECTING (EvNewtype d);
  visit_seq items ending := (0%nat, unexpected EXTENDS_EXPECTING (EvSeq items ending));
  visit_map entries ending :=
    let (taken, r) := url_extends_of entries ending in (taken, url ← r; Ok (ExtendsUrl url));
  visit_enum variant payload := unexpected EXTENDS_EXPECTING (EvEnum variant payload) |}.

(** [ManifestExtends::deserialize]. *)
Definition deserialize_extends (d : De) : result E ManifestExtends := deserialize d MAny ExtendsVisitor.

Definition POINTS_EXPECTING : string := "a mapping of intervention points".

(** The [while let] loop over the keys: each key is a string, and then a
    point; [insert] replaces an earlier value. *)
Fixpoint read_points (entries : list (De * De)) (ending : option E) (taken : nat)
  (points : btree InterceptionPoint InterventionPointConfig)
  : nat * result E (btree InterceptionPoint InterventionPointConfig) :=
  match entries with
  | [] => (taken, match ending with Some e => Err e | None => Ok points end)
  | (key, value) :: entries =>
      match (key ← string_of key; point ← point_of key; config ← point_config_of value; Ok (point, config)) with
      | Err e => (S taken, Err e)
      | Ok (point, config) => read_points entries ending (S taken) (bt_insert point config points)
      end
  end.

Definition PointsVisitor : Target (btree InterceptionPoint InterventionPointConfig) := {|
  visit_scalar s := unexpected POINTS_EXPECTING (EvScalar (widened s));
  visit_some d := unexpected POINTS_EXPECTING (EvSome d);
  visit_newtype_struct d := unexpected POINTS_EXPECTING (EvNewtype d);
  visit_seq items ending := (0%nat, unexpected POINTS_EXPECTING (EvSeq items ending));
  visit_map entries ending := read_points entries ending 0 [];
  visit_enum variant payload := unexpected POINTS_EXPECTING (EvEnum variant payload) |}.

Definition deserialize_intervention_points (d : De)
  : result E (btree InterceptionPoint InterventionPointConfig) := deserialize d MAny PointsVisitor.

(** A pin that is present is a string: only an absent one is [None]. *)
Definition deserialize_present_pin (d : De) : result E (option string) := value ← string_of d; Ok (Some value).

(** [InMemoryRegoBundle]: its digest is recomputed, and is all it
    serializes. *)
Definition deserialize_bundle `{SerdeJson} `{Sha2} (d : De) : result E InMemoryRegoBundle :=
  wire ← wire_of d;
  map_err (λ e, custom_error (error_to_string e)) (bundle_new wire.1 wire.2).

Definition serialize_bundle (b : InMemoryRegoBundle) : JsonValue := JObject [("sha256", JString (bundle_digest b))].

Definition serialize_inline_bundle (bundle : option InMemoryRegoBundle) : JsonValue :=
  match bundle with Some bundle => serialize_bundle bundle | None => JNull end.

(** ** Facts *)

(** One entry of the mapping of points. *)
Definition entry_reads (entry : De * De) (named : InterceptionPoint * InterventionPointConfig) : Prop :=
  (key ← string_of entry.1; point_of key) = Ok named.1 ∧ point_config_of entry.2 = Ok named.2.

Lemma read_points_Ok entries ending taken points taken' points' :
  read_points entries ending taken points = (taken', Ok points') →
  ending = None ∧ taken' = (taken + length entries)%nat ∧
  ∃ named, Forall2 entry_reads entries named ∧ points' = bt_extend points named.
Proof.
  revert taken points. induction entries as [|[key value] entries IH]; intros taken points; cbn.
  - destruct ending; [done|]. intros [= <- <-]. split_and!; [done|lia|]. by exists [].
  - destruct (_ ← string_of key; _) as [[point config]|e] eqn:Hentry; [|done]. intros Hrest.
    apply IH in Hrest as (-> & -> & named & Hnamed & ->). split_and!; [done|cbn; lia|].
    exists ((point, config) :: named). split; [|done]. constructor; [|done].
    apply bind_Ok in Hentry as (k & Hk & Hentry). apply bind_Ok in Hentry as (p & Hp & Hentry).
    apply bind_Ok in Hentry as (c & Hc & [= <- <-]). split; cbn; [by rewrite Hk|done].
Qed.

(** The points of a manifest are those its mapping names, each with its
    last configuration; nothing but a mapping is accepted, and one entry
    that does not read fails the whole. *)
Theorem intervention_points_exact d points :
  deserialize_intervention_points d = Ok points →
  ∃ entries check blame named, drive d MAny = mkVisit (EvMap entries None) check blame ∧
    check (length entries) = None ∧ Forall2 entry_reads entries named ∧ points = bt_of_list named.
Proof.
  unfold deserialize_intervention_points, deserialize. destruct (drive d MAny) as [event check blame] eqn:Hdrive. cbn.
  intros Hvisit. destruct (visiting PointsVisitor event) as [taken [read|e]] eqn:Hread; [|done].
  destruct (check taken) eqn:Hcheck; [done|]. injection Hvisit as ->.
  destruct event as [e|s|a|a|items ending|entries ending|a p]; try done. cbn in Hread.
  apply read_points_Ok in Hread as (-> & -> & named & Hnamed & ->). by exists entries, check, blame, named.
Qed.

(** A decoded bundle's digest describes its contents. *)
Theorem bundle_digest_true `{SerdeJson} `{Sha2} d b :
  deserialize_bundle d = Ok b → content_digest (bundle_modules b) (bundle_data b) = Ok (bundle_digest b).
Proof.
  unfold deserialize_bundle. intros (wire & _ & Hb%map_err_Ok)%bind_Ok. unfold bundle_new in Hb.
  by apply bind_Ok in Hb as (digest & Hdigest & [= <-]).
Qed.

(** Nothing of a bundle but its digest is serialized. *)
Lemma serialize_bundle_digest b b' :
  serialize_bundle b = serialize_bundle b' ↔ bundle_digest b = bundle_digest b'.
Proof. unfold serialize_bundle. split; [by intros [= ->]|by intros ->]. Qed.

(** What is derived is written against the same interface. *)
Class ManifestSerdeLaws : Prop := {
  invalid_same e1 e2 expecting : agree_event (λ _, true) e1 e2 → invalid_type e1 expecting = invalid_type e2 expecting;
  string_same a b : same a b → string_of a = string_of b;
  point_config_same a b : same a b → point_config_of a = point_config_of b;
  url_extends_same l k ending : Forall2 same_entry l k → url_extends_of l ending = url_extends_of k ending }.
Context `{!ManifestSerdeLaws}.

Lemma same_seq_event (l k : list De) ending :
  Forall2 same l k → agree_event (λ _, true) (EvSeq l ending) (EvSeq k ending).
Proof. intros Hl. split; [done|]. induction Hl; [done|by split]. Qed.

Lemma same_map_event (l k : list (De * De)) ending :
  Forall2 same_entry l k → agree_event (λ _, true) (EvMap l ending) (EvMap k ending).
Proof. intros Hl. split; [done|]. induction Hl as [|[a a'] [b b'] l k [Ha Ha'] _ IH]; [done|by split_and!]. Qed.

Lemma read_points_same l k ending taken points :
  Forall2 same_entry l k → read_points l ending taken points = read_points k ending taken points.
Proof.
  intros Hl. revert taken points. induction Hl as [|[a a'] [b b'] l k [Ha Ha'] _ IH]; intros taken points; [done|].
  cbn in Ha, Ha' |- *. rewrite (string_same _ _ Ha), (point_config_same _ _ Ha').
  destruct (_ ← string_of b; _) as [[point config]|]; [apply IH|done].
Qed.

Lemma PointsVisitor_parametric : parametric PointsVisitor.
Proof.
  split; cbn; unfold unexpected; intros.
  - apply (f_equal Err). by apply invalid_same.
  - apply (f_equal Err). by apply invalid_same.
  - apply (f_equal (λ e, (0%nat, Err e))). by apply invalid_same, same_seq_event.
  - by apply read_points_same.
  - apply (f_equal Err). by apply invalid_same.
Qed.

Lemma ExtendsVisitor_parametric : parametric ExtendsVisitor.
Proof.
  split; cbn; unfold unexpected; intros.
  - apply (f_equal Err). by apply invalid_same.
  - apply (f_equal Err). by apply invalid_same.
  - apply (f_equal (λ e, (0%nat, Err e))). by apply invalid_same, same_seq_event.
  - by rewrite (url_extends_same l k) by done.
  - apply (f_equal Err). by apply invalid_same.
Qed.

(** Both are decoded alike from parsers that infer the same scalars. *)
Lemma handwritten_strict (d1 d2 : De) :
  agree untyped d1 d2 →
  deserialize_intervention_points (strict d1) = deserialize_intervention_points (strict d2) ∧
  deserialize_extends (strict d1) = deserialize_extends (strict d2).
Proof.
  intros Hd%strict_agree. split; apply deserialize_same; auto using PointsVisitor_parametric, ExtendsVisitor_parametric.
Qed.
End manifest_serde.

(** ** Witnesses *)

(** A parser that reads a quoted number where a number is wanted, and one
    that does not, on the list with one quoted number. *)
Module QuotedNumber.
Definition quiet (e : @Event string) : @Visit string := mkVisit e (λ _, None) id.

Definition quoted_five (lenient : bool) : @De string :=
  mkDe (λ m, quiet match m with
    | MU64 => if lenient then EvScalar (VU64 5) else EvFail "a string"
    | _ => EvScalar (VStr "5")
    end).

Definition quoted_list (lenient : bool) : @De string := mkDe (λ _, quiet (EvSeq [quoted_five lenient] None)).

Definition u64_target : @Target string N := {|
  visit_scalar s := match s with VU64 n => Ok n | _ => Err "expected u64" end;
  visit_some _ := Err "expected u64";
  visit_newtype_struct _ := Err "expected u64";
  visit_seq _ _ := (0%nat, Err "expected u64");
  visit_map _ _ := (0%nat, Err "expected u64");
  visit_enum _ _ := Err "expected u64" |}.

Definition u64s_target : @Target string (list N) := {|
  visit_scalar _ := Err "expected a list";
  visit_some _ := Err "expected a list";
  visit_newtype_struct _ := Err "expected a list";
  visit_seq items _ := (length items, map_result (λ d, deserialize d MU64 u64_target) items);
  visit_map _ _ := (0%nat, Err "expected a list");
  visit_enum _ _ := Err "expected a list" |}.

Lemma u64_parametric : parametric u64_target.
Proof. by split. Qed.

Lemma u64s_parametric : parametric u64s_target.
Proof.
  split; [done|done| |done|done]. intros l k ending Hl. cbn. f_equal; [by eapply Forall2_length|].
  induction Hl as [|a b l k Hab _ IH]; [done|]. cbn.
  by rewrite (deserialize_same u64_target a b MU64 u64_parametric Hab), IH.
Qed.

Lemma quoted_agree : agree untyped (quoted_list true) (quoted_list false).
Proof.
  intros m _. split; [|by split]. split; [done|]. split; [|done].
  intros m' Hm. destruct m'; try discriminate Hm; by (split; [reflexivity|split]).
Qed.

(** Without [Strict] the lenient parser's number goes through. *)
Example lenient_parser_accepts :
  deserialize (quoted_list true) MSeq u64s_target = Ok [5%N] ∧
  deserialize (strict (quoted_list true)) MSeq u64s_target = Err "expected u64".
Proof. by split. Qed.
End QuotedNumber.

Section witnesses.
Import QuotedNumber.

Lemma strict_ignores_typed_methods_witness :
  deserialize (strict (quoted_list true)) MSeq u64s_target = deserialize (strict (quoted_list false)) MSeq u64s_target.
Proof.
  exact (proj1 (strict_ignores_typed_methods u64s_target (quoted_list true) (quoted_list false) MSeq
    u64s_parametric quoted_agree)).
Defined.
End witnesses.
