(* ===== verification/Samples.v ===== *)
(** * A sample manifest

    A small manifest with one chained annotation, used by the witnesses of
    the manifest and runtime theorems. *)

From S2P Require Import Prelude OrdMap RustStd Json Errors AgentHooks Constants Paths PolicyInput.
From S2P Require Import Limits Hex Pins Policy Manifest Concrete.

Section sample.
#[local] Existing Instance demo_hooks.
#[local] Existing Instance demo_url.
#[local] Existing Instance demo_serde.

(** [summary] reads the result of [scan], and [audit] needs [summary]. *)
Definition sample_annotations : btree string AnnotationConfig :=
  [("audit", mkAnnotation "$snap" [("needs", JArray [JString "summary"])]);
   ("scan", mkAnnotation "$snap.text" []);
   ("summary", mkAnnotation "$pi.annotations.scan" [("needs", JArray [JString "scan"])])].

Definition sample_point : InterventionPointConfig :=
  mkPoint "$.text" (Some "user_input") None sample_annotations (mkBinding "main" None []).

Definition sample_annotators : btree string AnnotatorConfig :=
  [("audit", mkAnnotator Endpoint []); ("scan", mkAnnotator Classifier []);
   ("summary", mkAnnotator Endpoint [])].

Definition sample_manifest : Manifest :=
  mkManifest "0.5.0-alpha.1" [] [] [("main", PolicyCustom (mkCustom "in_house" []))]
    [(Input, sample_point)] [] sample_annotators None [] ∅ ∅ CompositionDocument.

(** The same manifest with [scan] and its binding from a fetched document. *)
Definition sample_fetched : Manifest :=
  mkManifest "0.5.0-alpha.1" [] [] [("main", PolicyCustom (mkCustom "in_house" []))]
    [(Input, sample_point)] [] sample_annotators None ["https://example.com/acs.yaml"]
    {["scan"]} {[(Input, "scan")]} CompositionMerged.

Lemma sample_valid : validate sample_manifest = Ok ().
Proof. vm_compute. reflexivity. Qed.

Lemma sample_fetched_valid : validate sample_fetched = Ok ().
Proof. vm_compute. reflexivity. Qed.

Lemma sample_annotations_wf : bt_wf sample_annotations.
Proof. repeat constructor. Qed.

Example sample_order :
  annotation_dispatch_order Input sample_point sample_manifest = Ok ["scan"; "summary"; "audit"].
Proof. vm_compute. reflexivity. Qed.

Example sample_cycle :
  annotation_dispatch_order Input
    (mkPoint "$.text" None None
      [("a", mkAnnotation "$snap" [("needs", JArray [JString "b"])]);
       ("b", mkAnnotation "$snap" [("needs", JArray [JString "a"])]);
       ("c", mkAnnotation "$snap" [])] (mkBinding "main" None [])) sample_manifest =
  Err (ManifestInvalid "intervention point input has unresolvable annotation needs (cycle or blocked by one) among: a, b").
Proof. vm_compute. reflexivity. Qed.
End sample.
