(* ===== verification/DispatchFacts.v ===== *)
(** * Theorems on the dispatch order

    Kahn's algorithm as [annotation_dispatch_order] runs it: the tables,
    the loop's invariant, and what the order is. A node is a name with the
    names it needs. *)

From stdpp Require Import sorting.
From S2P Require Import Prelude OrdMap RustStd Json Errors AgentHooks Constants Paths PolicyInput.
From S2P Require Import Limits Hex Pins Policy Manifest Concrete Samples.

#[local] Open Scope nat_scope.
#[global] Arguments usize_pred : simpl never.

(** ** Counting *)

(** How often a name occurs, and how many needs are still to be met. *)
Fixpoint occ (x : string) (l : list string) : nat :=
  match l with [] => 0 | y :: l => (if decide (x = y) then 1 else 0) + occ x l end.

Fixpoint missing (done : list string) (needs : list string) : nat :=
  match needs with
  | [] => 0
  | d :: needs => (if decide (d ∈ done) then 0 else 1) + missing done needs
  end.

Lemma occ_app x l k : occ x (l ++ k) = occ x l + occ x k.
Proof. induction l as [|y l IH]; cbn; [done|]. rewrite IH. lia. Qed.

Lemma occ_zero x l : occ x l = 0 ↔ x ∉ l.
Proof. induction l as [|y l IH]; cbn; [set_solver|]. case_decide; set_solver by lia. Qed.

Lemma missing_zero done needs : missing done needs = 0 ↔ needs ⊆ done.
Proof. induction needs as [|d needs IH]; cbn; [set_solver|]. case_decide; set_solver by lia. Qed.

Lemma missing_snoc done x needs :
  x ∉ done → missing (done ++ [x]) needs + occ x needs = missing done needs.
Proof.
  intros Hx. induction needs as [|d needs IH]; cbn; [done|].
  destruct (decide (x = d)) as [->|Hne].
  - rewrite (decide_True (P := d ∈ done ++ [d])) by set_solver. rewrite decide_False by done. lia.
  - destruct (decide (d ∈ done)); [rewrite decide_True by set_solver|rewrite decide_False by set_solver]; lia.
Qed.

Lemma missing_nil needs : missing [] needs = length needs.
Proof. induction needs as [|d needs IH]; cbn; [done|]. rewrite decide_False by set_solver. lia. Qed.

(** ** Releasing dependents *)

Lemma usize_pred_S n : usize_pred (N.of_nat (S n)) = N.of_nat n.
Proof. unfold usize_pred. destruct (N.eqb_spec (N.of_nat (S n)) 0); lia. Qed.

(** Popping a name takes one off the count of every dependent per
    occurrence, and makes ready those whose count reaches zero; no count
    ever wraps as long as it covers the occurrences. *)
Lemma release_fold l (rem : btree string N) (rd : list string) (count : string → option nat) :
  (∀ n, bt_get n rem = N.of_nat <$> count n) →
  (∀ n c, count n = Some c → occ n l <= c) →
  let '(rem', rd') := fold_left release_dependent l (rem, rd) in
  (∀ n, bt_get n rem' = (λ c, N.of_nat (c - occ n l)) <$> count n) ∧
  (bs_wf rd → bs_wf rd') ∧
  (∀ n, n ∈ rd' ↔ n ∈ rd ∨ (0 < occ n l ∧ count n = Some (occ n l))).
Proof.
  revert rem rd count. induction l as [|d l IH]; intros rem rd count Hrem Hocc.
  { cbn. split_and!; [|done|naive_solver lia]. intros n. rewrite Hrem. destruct (count n); cbn; [|done].
    do 2 f_equal. lia. }
  cbn [fold_left]. unfold release_dependent at 2. cbn [fst snd]. rewrite (Hrem d).
  destruct (count d) as [c|] eqn:Hd; cbn [fmap option_fmap option_map].
  - pose proof (Hocc d c Hd) as Hc. cbn in Hc. rewrite decide_True in Hc by done.
    destruct c as [|c]; [lia|]. rewrite usize_pred_S.
    set (count' := λ n, if decide (n = d) then Some c else count n).
    specialize (IH (bt_insert d (N.of_nat c) rem)
      (if (N.of_nat c =? 0)%N then bs_insert d rd else rd) count').
    destruct (fold_left release_dependent l _) as [rem' rd'].
    destruct IH as (Hrem' & Hwf & Hin).
    { intros n. unfold count'. rewrite bt_get_insert. case_decide; [by subst|]. apply Hrem. }
    { intros n c'. unfold count'. case_decide; [intros [= <-]; subst; lia|]. intros Hn.
      specialize (Hocc n c' Hn). cbn in Hocc. rewrite decide_False in Hocc by done. lia. }
    split_and!.
    + intros n. rewrite Hrem'. unfold count'. cbn [occ]. case_decide as Hn.
      * subst n. rewrite Hd. cbn. try done; do 2 f_equal; lia.
      * by destruct (count n).
    + intros Hb. apply Hwf. destruct (_ =? 0)%N; [by apply bs_insert_wf|done].
    + intros n. rewrite Hin. unfold count'. cbn [occ].
      assert (n ∈ (if (N.of_nat c =? 0)%N then bs_insert d rd else rd) ↔ n ∈ rd ∨ (n = d ∧ c = 0)) as ->.
      { destruct (N.eqb_spec (N.of_nat c) 0); [rewrite elem_of_bs_insert; naive_solver lia|naive_solver lia]. }
      destruct (decide (n = d)) as [->|Hn]; [|naive_solver lia].
      rewrite Hd. split; [intros [[?|[_ ->]]|[? [= ->]]]|intros [?|[? [= ->]]]]; auto.
      * destruct (decide (occ d l = 0)); [|lia]. right. split; [lia|]. f_equal. lia.
      * destruct (decide (occ d l = 0)) as [Hz|]; [left; right; split; [done|lia]|right; split; [lia|done]].
  - specialize (IH rem rd count Hrem). destruct (fold_left release_dependent l _) as [rem' rd'].
    assert (∀ n c, count n = Some c → n ≠ d) as Hne by (intros n c Hn ->; congruence).
    destruct IH as (Hrem' & Hwf & Hin).
    { intros n c Hn. specialize (Hocc n c Hn). cbn in Hocc. lia. }
    split_and!; [|done|].
    + intros n. rewrite Hrem'. cbn [occ]. destruct (count n) as [c|] eqn:Hn; [|done].
      by rewrite (decide_False (P := n = d)) by (by eapply Hne).
    + intros n. rewrite Hin. cbn [occ]. destruct (decide (n = d)) as [->|]; [|naive_solver lia].
      rewrite Hd. naive_solver.
Qed.

(** ** The tables *)

Notation node := (string * list string)%type.

Definition table_step (s : DispatchState) (n : node) : DispatchState :=
  mkDispatch (bt_insert n.1 (N.of_nat (length n.2)) (remaining_needs s))
    (fold_left (λ (deps : btree string (list string)) need,
      bt_insert need (default [] (bt_get need deps) ++ [n.1]) deps) n.2 (dependents s))
    (if bool_decide (n.2 = []) then bs_insert n.1 (ready s) else ready s).

Definition tables_of (nodes : list node) : DispatchState :=
  fold_left table_step nodes (mkDispatch [] [] []).

(** The nodes of a point's annotations. *)
Definition nodes_of (m : Manifest) (annotations : btree string AnnotationConfig)
  : result RuntimeError (list node) :=
  map_result (λ e, needs ← annotation_dependencies m e.2; Ok (e.1, needs)) annotations.

Lemma dispatch_tables_nodes m annotations :
  dispatch_tables m annotations = (nodes ← nodes_of m annotations; Ok (tables_of nodes)).
Proof.
  unfold dispatch_tables, nodes_of, tables_of. generalize (mkDispatch [] [] []).
  induction annotations as [|[name a] l IH]; intros s; [done|]. cbn [fold_result map_result fst snd].
  destruct (annotation_dependencies m a) as [needs|]; [|done]. cbn [mbind result_bind].
  rewrite IH. by destruct (map_result _ l).
Qed.

Lemma occ_dependents needs name (deps : btree string (list string)) d n :
  occ n (default [] (bt_get d (fold_left (λ (deps : btree string (list string)) need,
    bt_insert need (default [] (bt_get need deps) ++ [name]) deps) needs deps))) =
  occ n (default [] (bt_get d deps)) + (if decide (n = name) then occ d needs else 0).
Proof.
  revert deps. induction needs as [|x needs IH]; intros deps; cbn [fold_left occ]; [case_decide; lia|].
  rewrite IH, bt_get_insert. destruct (decide (d = x)) as [->|]; unfold default, id in *; cbn [from_option];
    [rewrite occ_app; cbn [occ]; case_decide; cbn; lia|case_decide; lia].
Qed.

Lemma bt_get_snoc {V} n (nodes : btree string V) x :
  x.1 ∉ bt_keys nodes →
  bt_get n (nodes ++ [x]) = if decide (n = x.1) then Some x.2 else bt_get n nodes.
Proof.
  intros Hx. induction nodes as [|[k v] nodes IH]; cbn.
  - destruct x as [k v]; cbn. by repeat case_decide.
  - unfold bt_keys in *. cbn in Hx. rewrite IH by set_solver.
    destruct (decide (n = k)) as [->|]; [|done]. rewrite decide_False; set_solver.
Qed.

Lemma tables_of_spec nodes :
  NoDup (bt_keys nodes) →
  let t := tables_of nodes in
  (∀ n, bt_get n (remaining_needs t) = (λ ns, N.of_nat (length ns)) <$> bt_get n nodes) ∧
  (∀ d n, occ n (default [] (bt_get d (dependents t))) =
    match bt_get n nodes with Some ns => occ d ns | None => 0 end) ∧
  bs_wf (ready t) ∧ (∀ n, n ∈ ready t ↔ bt_get n nodes = Some []).
Proof.
  cbn zeta. induction nodes as [|[name needs] nodes IH] using rev_ind; intros Hnd.
  { split_and!; [done|done|constructor|set_solver]. }
  unfold bt_keys in Hnd. rewrite fmap_app, NoDup_app in Hnd. destruct Hnd as (Hnd & Hdis & _).
  assert (name ∉ bt_keys nodes) as Hname by (intros Hin; eapply Hdis; [exact Hin|set_solver]).
  specialize (IH Hnd) as (Hrem & Hdep & Hwf & Hready).
  unfold tables_of in *. rewrite fold_left_app. cbn [fold_left table_step remaining_needs dependents ready].
  set (t := fold_left table_step nodes _) in *. cbn [fst snd].
  assert (bt_get name nodes = None) as Hnone by (by apply bt_get_None).
  split_and!.
  - intros n. rewrite bt_get_insert, bt_get_snoc by done. cbn. case_decide; [done|apply Hrem].
  - intros d n. rewrite occ_dependents, Hdep, bt_get_snoc by done. cbn.
    destruct (decide (n = name)) as [->|]; [rewrite Hnone; lia|lia].
  - case_bool_decide; [by apply bs_insert_wf|done].
  - intros n. rewrite bt_get_snoc by done. cbn.
    case_bool_decide as Hn; [rewrite elem_of_bs_insert|]; rewrite Hready; case_decide; subst; naive_solver.
Qed.

(** ** The loop *)

Section loop.
Context (nodes : list node) (deps : btree string (list string)).
Context (Hnd : NoDup (bt_keys nodes)).
Context (Hdeps : ∀ d n, occ n (default [] (bt_get d deps)) =
  match bt_get n nodes with Some ns => occ d ns | None => 0 end).

(** A name whose needs are all in [before]. *)
Definition available (before : list string) (n : string) : Prop :=
  n ∉ before ∧ ∃ ns, bt_get n nodes = Some ns ∧ ns ⊆ before.

(** Every name comes after its needs, and is the least name available. *)
Definition greedy (order : list string) : Prop :=
  ∀ i n, order !! i = Some n →
    available (take i order) n ∧ ∀ n', available (take i order) n' → n' = n ∨ key_lt n n'.

Record loop_inv (remaining : btree string N) (rd order : list string) : Prop := {
  li_nodup : NoDup order;
  li_greedy : greedy order;
  li_remaining : ∀ n, bt_get n remaining = (λ ns, N.of_nat (missing order ns)) <$> bt_get n nodes;
  li_wf : bs_wf rd;
  li_ready : ∀ n, n ∈ rd ↔ available order n }.

Lemma greedy_names order n : greedy order → n ∈ order → n ∈ bt_keys nodes.
Proof.
  intros Hg (i & Hi)%list_elem_of_lookup_1. destruct (Hg _ _ Hi) as [(_ & ns & Hns & _) _].
  apply bt_contains_keys, bt_contains_get. eauto.
Qed.

Lemma greedy_closed order n ns :
  greedy order → n ∈ order → bt_get n nodes = Some ns → ns ⊆ order.
Proof.
  intros Hg (i & Hi)%list_elem_of_lookup_1 Hns. destruct (Hg _ _ Hi) as [(_ & ns' & Hns' & Hsub) _].
  rewrite Hns in Hns'. injection Hns' as <-. etrans; [exact Hsub|]. apply subseteq_take.
Qed.

Lemma greedy_snoc order n :
  greedy order → available order n → (∀ n', available order n' → n' = n ∨ key_lt n n') →
  greedy (order ++ [n]).
Proof.
  intros Hg Ha Hmin i x Hi. destruct (decide (i < length order)) as [Hlt|Hge].
  - rewrite lookup_app_l in Hi by done. rewrite take_app_le by lia. by apply Hg.
  - rewrite lookup_app_r in Hi by lia. apply list_lookup_singleton_Some in Hi as [Hi <-].
    replace i with (length order) by lia. rewrite take_app_length. by split.
Qed.

Lemma loop_step remaining name rd order :
  loop_inv remaining (name :: rd) order →
  let '(remaining', rd') := fold_left release_dependent (default [] (bt_get name deps)) (remaining, rd) in
  loop_inv remaining' rd' (order ++ [name]).
Proof.
  intros [Hndo Hg Hrem Hwf Hready].
  assert (available order name) as Ha by (apply Hready; set_solver).
  destruct Ha as (Hfresh & needs & Hneeds & Hsub).
  assert (Forall (key_lt name) rd ∧ bs_wf rd) as [Hlt Hwf'] by (by inversion Hwf).
  pose proof (release_fold (default [] (bt_get name deps)) remaining rd
    (λ n, (λ ns, missing order ns) <$> bt_get n nodes)) as Hrel.
  destruct (fold_left release_dependent _ _) as [remaining' rd'].
  destruct Hrel as (Hrem' & Hwf'' & Hin).
  { intros n. rewrite Hrem. by destruct (bt_get n nodes). }
  { intros n c. rewrite Hdeps. destruct (bt_get n nodes) as [ns|]; [|done]. intros [= <-].
    pose proof (missing_snoc order name ns Hfresh). lia. }
  split.
  - apply NoDup_app. split_and!; [done|set_solver|apply NoDup_singleton].
  - apply greedy_snoc; [done|by split; [|eauto]|]. intros n' Hn'. apply Hready in Hn'.
    apply elem_of_cons in Hn' as [->|Hn']; [by left|right]. by eapply Forall_forall in Hlt.
  - intros n. rewrite Hrem', Hdeps. destruct (bt_get n nodes) as [ns|]; [|done]. cbn.
    pose proof (missing_snoc order name ns Hfresh). do 2 f_equal. lia.
  - by apply Hwf''.
  - assert (name ∉ rd) as Hnrd.
    { intros Hc. rewrite Forall_forall in Hlt. by apply (StrictOrder_Irreflexive (R := key_lt) name), Hlt. }
    intros n. rewrite Hin, Hdeps. unfold available.
    assert (n ∈ rd ↔ n ≠ name ∧ n ∉ order ∧ ∃ ns, bt_get n nodes = Some ns ∧ missing order ns = 0) as ->.
    { split.
      - intros Hn. assert (available order n) as (? & ns & ? & ?) by (apply Hready; set_solver).
        split_and!; [by intros ->|done|]. exists ns. by rewrite missing_zero.
      - intros (Hne & ? & ns & ? & ?). assert (n ∈ name :: rd) as Hn
          by (apply Hready; split; [done|]; exists ns; by rewrite <-missing_zero). set_solver. }
    destruct (bt_get n nodes) as [ns|] eqn:Hns; [|naive_solver].
    pose proof (missing_snoc order name ns Hfresh) as Hm. pose proof (missing_zero (order ++ [name]) ns) as Hz.
    split.
    + intros [(Hne & Hno & ns' & [= <-] & Hmz)|[Hocc [= Hmo]]].
      * split; [set_solver|]. exists ns. split; [done|]. apply Hz. lia.
      * split; [|exists ns; split; [done|apply Hz; lia]].
        assert (name ∈ ns) as Hin' by (destruct (decide (name ∈ ns)) as [|Hn]; [done|apply occ_zero in Hn; lia]).
        intros [Hc|Hc%list_elem_of_singleton]%elem_of_app.
        -- by apply Hfresh, (greedy_closed order n ns).
        -- subst n. rewrite Hns in Hneeds. injection Hneeds as ->. by apply Hfresh, Hsub.
    + intros (Hno & ns' & [= <-] & Hsub'). apply Hz in Hsub'.
      destruct (decide (occ name ns = 0)) as [Ho|Ho].
      * left. split_and!; [set_solver|set_solver|]. exists ns. split; [done|lia].
      * right. split; [lia|]. cbn. f_equal. lia.
Qed.

(** The loop ends with nothing ready: the number of names is fuel enough. *)
Lemma loop_end fuel remaining rd order :
  loop_inv remaining rd order → length nodes <= fuel + length order →
  ∃ remaining' order', dispatch_loop fuel deps remaining rd order = (remaining', [], order') ∧
    loop_inv remaining' [] order'.
Proof.
  revert remaining rd order. induction fuel as [|fuel IH]; intros remaining rd order Hinv Hfuel.
  - assert (rd = []) as ->.
    { destruct rd as [|n rd]; [done|]. exfalso. destruct Hinv as [Hndo Hg Hrem Hwf Hready].
      destruct (proj1 (Hready n) ltac:(set_solver)) as (Hno & ns & Hns & _). apply Hno.
      assert (order ≡ₚ bt_keys nodes) as Hperm.
      { apply submseteq_length_Permutation; [|unfold bt_keys; rewrite length_fmap; cbn in Hfuel; lia].
        apply NoDup_submseteq; [done|]. intros x Hx. by eapply greedy_names. }
      rewrite Hperm. apply bt_contains_keys, bt_contains_get. eauto. }
    by exists remaining, order.
  - destruct rd as [|name rd]; [by exists remaining, order|]. cbn [dispatch_loop].
    pose proof (loop_step _ _ _ _ Hinv) as Hstep. destruct (fold_left release_dependent _ _) as [remaining' rd'].
    apply IH; [done|]. rewrite length_app. cbn. lia.
Qed.
End loop.

(** ** The order of a point *)

Section order.
Context `{AgentHooks} `{UrlCrate} `{SerdeJson}.

(** Names each of which waits for another of them. *)
Definition blocked (nodes : list node) (names : list string) : Prop :=
  names ≠ [] ∧ names ⊆ bt_keys nodes ∧
  ∀ n ns, n ∈ names → bt_get n nodes = Some ns → ∃ d, d ∈ ns ∧ d ∈ names.

Lemma nodes_of_keys m annotations nodes :
  nodes_of m annotations = Ok nodes → bt_keys nodes = bt_keys annotations.
Proof.
  intros Hn. apply map_result_Ok in Hn. unfold bt_keys. induction Hn as [|e n l k He _ IH]; [done|].
  cbn. rewrite IH. apply bind_Ok in He as (needs & _ & [= <-]). done.
Qed.

Lemma nodes_of_get m annotations nodes n a :
  nodes_of m annotations = Ok nodes → bt_get n annotations = Some a →
  ∃ needs, annotation_dependencies m a = Ok needs ∧ bt_get n nodes = Some needs.
Proof.
  intros Hn. apply map_result_Ok in Hn. induction Hn as [|[k b] x l ks He _ IH]; [done|].
  apply bind_Ok in He as (needs & Hneeds & [= <-]). cbn in *.
  case_decide; [intros [= ->]; eauto|done].
Qed.

Lemma greedy_not_blocked nodes order names :
  NoDup (bt_keys nodes) → greedy nodes order → bt_keys nodes ⊆ order → ¬ blocked nodes names.
Proof.
  intros Hnd Hg Hall (Hne & Hsub & Hb).
  assert (∀ i n, order !! i = Some n → n ∉ names) as Hnone.
  { intros i. induction (lt_wf i) as [i _ IH]. intros n Hi Hn.
    destruct (Hg i n Hi) as [(_ & ns & Hns & Hbefore) _].
    destruct (Hb n ns Hn Hns) as (d & Hd & Hdn). apply Hbefore in Hd.
    apply list_elem_of_lookup_1 in Hd as (j & Hj). apply lookup_take_Some in Hj as [Hj Hlt].
    by apply (IH j Hlt d Hj). }
  destruct names as [|n names]; [done|].
  assert (n ∈ order) as (i & Hi)%list_elem_of_lookup_1 by (apply Hall, Hsub; set_solver).
  by apply (Hnone i n Hi); set_solver.
Qed.

Lemma greedy_all_available nodes :
  bt_wf nodes → Forall (λ n : node, n.2 = []) nodes → greedy nodes (bt_keys nodes).
Proof.
  intros Hwf Hnil i n Hi. rewrite Forall_forall in Hnil.
  assert (∀ x ns, bt_get x nodes = Some ns → ns = []) as Hget.
  { intros x ns Hx%bt_get_Some_elem. by apply (Hnil (x, ns)). }
  assert (NoDup (bt_keys nodes)) as Hnd by (by apply bt_wf_NoDup). unfold available. split.
  - split.
    + intros Hin. apply list_elem_of_lookup_1 in Hin as (j & Hj). apply lookup_take_Some in Hj as [Hj Hlt].
      pose proof (NoDup_lookup _ _ _ _ Hnd Hi Hj). lia.
    + apply list_elem_of_lookup_2, bt_contains_keys, bt_contains_get in Hi as [ns Hns].
      exists ns. split; [done|]. rewrite (Hget _ _ Hns). set_solver.
  - intros n' [Hn' (ns & Hns & _)].
    assert (n' ∈ bt_keys nodes) as (j & Hj)%list_elem_of_lookup_1
      by (apply bt_contains_keys, bt_contains_get; eauto).
    destruct (lt_eq_lt_dec i j) as [[Hlt| ->]|Hgt].
    + right. unfold bt_wf in Hwf. rewrite <-(take_drop (S i) (bt_keys nodes)) in Hwf.
      apply (StronglySorted_app_1_elem_of _ _ _ _ _ Hwf).
      * apply list_elem_of_lookup_2 with i. apply lookup_take_Some. split; [done|lia].
      * apply list_elem_of_lookup_2 with (j - S i). rewrite lookup_drop. rewrite <-Hj. f_equal. lia.
    + left. congruence.
    + exfalso. apply Hn'. apply list_elem_of_lookup_2 with j. by apply lookup_take_Some.
Qed.

(** A result is right for some nodes: an order is a permutation in which
    each name is the least available, and a refusal means names that wait
    for one another. *)
Definition order_right (nodes : list node) (r : result RuntimeError (list string)) : Prop :=
  (∀ order, r = Ok order → order ≡ₚ bt_keys nodes ∧ greedy nodes order) ∧
  ((∃ e, r = Err e) ↔ ∃ names, blocked nodes names).

Lemma order_right_Ok nodes order :
  NoDup (bt_keys nodes) → order ≡ₚ bt_keys nodes → greedy nodes order →
  order_right nodes (Ok order).
Proof.
  intros Hnd Hp Hg. split; [by intros ? [= <-]|]. split; [by intros [e He]|].
  intros [names Hb]. exfalso. eapply greedy_not_blocked; [done|exact Hg| |exact Hb]. by rewrite Hp.
Qed.

Lemma order_right_Err nodes e names : blocked nodes names → order_right nodes (Err e).
Proof. intros Hb. split; [done|]. split; [eauto|by eexists]. Qed.

(** A greedy order as long as the nodes names each of them once. *)
Lemma greedy_full nodes order :
  NoDup order → greedy nodes order → length order = length nodes → order ≡ₚ bt_keys nodes.
Proof.
  intros Hnd Hg Hlen. apply submseteq_length_Permutation; [|unfold bt_keys; rewrite length_fmap; lia].
  apply NoDup_submseteq; [done|]. intros x Hx. by eapply greedy_names.
Qed.

(** The loop's tables start it with nothing ordered. *)
Lemma loop_start nodes :
  NoDup (bt_keys nodes) →
  loop_inv nodes (remaining_needs (tables_of nodes)) (ready (tables_of nodes)) [].
Proof.
  intros Hnd. destruct (tables_of_spec nodes Hnd) as (Hrem & _ & Hrwf & Hready).
  split; [constructor|intros i n Hi; done| |done|].
  - intros n. rewrite Hrem. destruct (bt_get n nodes); [|done]. cbn. by rewrite missing_nil.
  - intros n. rewrite Hready. unfold available. split.
    + intros Hn. split; [set_solver|]. exists []. by split.
    + intros (_ & ns & Hns & Hsub). rewrite Hns. f_equal. destruct ns; [done|set_solver].
Qed.

(** When nothing is ready and names are left, those names wait for one
    another. *)
Lemma stuck_blocked nodes remaining order :
  NoDup (bt_keys nodes) → Forall (λ n : node, n.2 ⊆ bt_keys nodes) nodes →
  loop_inv nodes remaining [] order → length order ≠ length nodes →
  blocked nodes (filter (λ n, n ∉ order) (bt_keys nodes)).
Proof.
  intros Hnd Hneeds [Hndo Hg _ _ Hstuck] Hpart. split_and!.
  - intros Hnil. apply Hpart.
    assert (order ≡ₚ bt_keys nodes) as ->; [|unfold bt_keys; by rewrite length_fmap].
    apply NoDup_Permutation; [done|done|]. intros x. split; [by eapply greedy_names|].
    intros Hx. destruct (decide (x ∈ order)) as [|Hn]; [done|]. exfalso.
    apply (not_elem_of_nil x). rewrite <-Hnil. by apply list_elem_of_filter.
  - intros x Hx. by apply list_elem_of_filter in Hx as [_ Hx].
  - intros n ns Hn Hns. apply list_elem_of_filter in Hn as [Hno Hn].
    destruct (decide (Forall (λ d, d ∈ order) ns)) as [Hall|Hnall].
    + exfalso. apply (not_elem_of_nil n), Hstuck. split; [done|]. exists ns. split; [done|].
      intros d Hd. by eapply Forall_forall in Hall.
    + apply not_Forall_Exists, Exists_exists in Hnall as (d & Hd & Hdo); [|intros d; apply _].
      exists d. split; [done|]. apply list_elem_of_filter. split; [done|].
      rewrite Forall_forall in Hneeds. apply (Hneeds (n, ns)); [by apply bt_get_Some_elem|done].
Qed.

(** With chaining off nothing needs anything, and the order is the names'. *)
Lemma unchained_greedy m annotations nodes :
  annotation_chaining_enabled m = false → bt_wf nodes → nodes_of m annotations = Ok nodes →
  greedy nodes (bt_keys nodes).
Proof.
  intros Hch Hwf Hnodes. apply greedy_all_available; [done|]. apply Forall_forall. intros [n ns] Hin.
  apply map_result_Ok in Hnodes. apply list_elem_of_lookup_1 in Hin as (i & Hi).
  eapply Forall2_lookup_r in Hnodes as (e & _ & He); [|exact Hi].
  unfold annotation_dependencies in He. rewrite Hch in He. by injection He as _ <-.
Qed.

Lemma dispatch_order point config m nodes :
  bt_wf (point_annotations config) →
  nodes_of m (point_annotations config) = Ok nodes →
  Forall (λ n : node, n.2 ⊆ bt_keys (point_annotations config)) nodes →
  order_right nodes (annotation_dispatch_order point config m).
Proof.
  intros Hwf Hnodes Hneeds. pose proof (nodes_of_keys _ _ _ Hnodes) as Hkeys.
  assert (bt_wf nodes) as Hwf' by (unfold bt_wf; by rewrite Hkeys).
  assert (NoDup (bt_keys nodes)) as Hnd by (by apply bt_wf_NoDup).
  assert (length (point_annotations config) = length nodes) as Hlen.
  { apply (f_equal length) in Hkeys. unfold bt_keys in Hkeys. by rewrite !length_fmap in Hkeys. }
  unfold annotation_dispatch_order. rewrite <-Hkeys.
  destruct (annotation_chaining_enabled m) eqn:Hch; cbn [negb].
  2: { apply order_right_Ok; [done|done|]. by eapply unchained_greedy. }
  rewrite dispatch_tables_nodes, Hnodes. cbn [mbind result_bind].
  destruct (tables_of_spec nodes Hnd) as (_ & Hdep & _ & _).
  destruct (loop_end nodes (dependents (tables_of nodes)) Hnd Hdep (length (point_annotations config)) _ _ _
    (loop_start nodes Hnd)) as (remaining & order & Hloop & Hinv); [cbn; lia|].
  rewrite Hloop, Hlen. destruct (Nat.eqb_spec (length order) (length nodes)) as [Hfull|Hpart]; cbn [negb].
  - apply order_right_Ok; [done| |apply Hinv]. apply greedy_full; [apply Hinv..|done].
  - eapply order_right_Err, stuck_blocked; [done| |done|done]. by rewrite Hkeys.
Qed.

(** C36: the dispatch order is a topological order, and it is found
    whenever there is one. For a point whose needs all name bindings of
    the point, the order is a permutation of the bindings in which every
    annotator comes after everything it needs and, at each step, is the
    least name that was free to run; and it is refused exactly when some
    non-empty set of bindings all wait for one another. *)
Theorem dispatch_order_correct point config m nodes :
  bt_wf (point_annotations config) →
  nodes_of m (point_annotations config) = Ok nodes →
  Forall (λ n : node, n.2 ⊆ bt_keys (point_annotations config)) nodes →
  (∀ order, annotation_dispatch_order point config m = Ok order →
    order ≡ₚ bt_keys (point_annotations config) ∧ greedy nodes order) ∧
  ((∃ e, annotation_dispatch_order point config m = Err e) ↔ ∃ names, blocked nodes names).
Proof.
  intros Hwf Hnodes Hneeds. rewrite <-(nodes_of_keys _ _ _ Hnodes). by apply dispatch_order.
Qed.
End order.

(** ** Witness *)

Section dispatch_samples.
#[local] Existing Instance demo_hooks.
#[local] Existing Instance demo_url.
#[local] Existing Instance demo_serde.

Definition sample_nodes : list node :=
  [("audit", ["summary"]); ("scan", []); ("summary", ["scan"])].

Lemma dispatch_order_correct_witness : greedy sample_nodes ["scan"; "summary"; "audit"].
Proof.
  apply (dispatch_order_correct Input sample_point sample_manifest sample_nodes).
  - apply sample_annotations_wf.
  - vm_compute. reflexivity.
  - unfold sample_nodes. rewrite !Forall_cons. unfold bt_keys. cbn. set_solver.
  - apply sample_order.
Defined.
End dispatch_samples.
