(* ===== verification/ManifestFacts.v ===== *)
(** * Theorems on validated manifests

    What a validated manifest guarantees to the runtime, and what the
    provenance gates keep a fetched document from doing. *)

From S2P Require Import Prelude OrdMap RustStd Json Errors AgentHooks Constants Paths PathsFacts.
From S2P Require Import PolicyInput Limits Hex Pins Policy PolicyFacts Manifest DispatchFacts.
From S2P Require Import Concrete Samples.

Lemma if_err_Ok {E} (b : bool) (e : E) : (if b then Err e else Ok ()) = Ok () ↔ b = false.
Proof. by destruct b. Qed.

(** The loops that refuse a listed field. *)
Lemma for_each_absent (e : string → RuntimeError) (fields : adapter) keys :
  for_each (λ key, if bt_contains key fields then Err (e key) else Ok ()) keys = Ok () ↔
  ∀ key, key ∈ keys → bt_get key fields = None.
Proof.
  rewrite for_each_Ok, Forall_forall. split; intros Hall key Hin; specialize (Hall key Hin).
  - rewrite if_err_Ok in Hall. unfold bt_contains in Hall. by destruct (bt_get key fields).
  - rewrite if_err_Ok. unfold bt_contains. by rewrite Hall.
Qed.

Lemma for_each_Ok_elem {E A} (f : A → result E ()) l x :
  for_each f l = Ok () → x ∈ l → f x = Ok ().
Proof. rewrite for_each_Ok, Forall_forall. auto. Qed.

Lemma find_None_all (p : string → bool) l :
  find (λ x, negb (p x)) l = None → ∀ x, x ∈ l → p x = true.
Proof.
  intros Hf x Hx. pose proof (find_none _ _ Hf x) as Hn. cbn in Hn.
  apply negb_false_iff, Hn. by apply list_elem_of_In.
Qed.

Section validated.
Context `{AgentHooks} `{UrlCrate} `{SerdeJson}.

(** ** The pieces of [validate] *)

Lemma validate_Ok m :
  validate m = Ok () →
  trim (spec_version m) ∈ SUPPORTED ∧ intervention_points m ≠ [] ∧
  (∀ name p, (name, p) ∈ policies m → validate_policy_definition name p = Ok ()) ∧
  (∀ point config, (point, config) ∈ intervention_points m →
    validate_point_config point config m = Ok ()) ∧
  (∀ a, approval m = Some a → validate_approval_section a = Ok ()) ∧
  (url_sourced m = true → reject_url_sourced_host_secrets m = Ok ()).
Proof.
  unfold validate. destruct (str_is_empty _); [done|].
  destruct (bool_decide (trim (spec_version m) ∈ SUPPORTED)) eqn:Hver; [|done]. cbn [negb].
  intros Hv. apply bind_Ok in Hv as ([] & _ & Hv).
  destruct (bool_decide (intervention_points m = [])) eqn:Hpts; [done|].
  apply bind_Ok in Hv as ([] & Hpol & Hv). apply bind_Ok in Hv as ([] & _ & Hv).
  apply bind_Ok in Hv as ([] & Hpoints & Hv). apply bind_Ok in Hv as ([] & Happr & Hurl). b2p.
  split_and!; try done.
  - intros name p Hin. eapply for_each_Ok_elem in Hpol; [|exact Hin]. cbn in Hpol.
    by destruct (blank name).
  - intros point config Hin. by apply (for_each_Ok_elem _ _ (point, config)) in Hpoints.
  - intros a Ha. by rewrite Ha in Happr.
  - intros Hu. by rewrite Hu in Hurl.
Qed.

Lemma snapshot_path_Ok text c r p :
  snapshot_path text c r = Ok p → parse_with_snapshot_alias text = Ok p ∧ root p = Snap.
Proof.
  unfold snapshot_path. intros Hp. apply bind_Ok in Hp as (q & Hq & Hp). apply map_err_Ok in Hq.
  destruct (bool_decide (root q = Snap)) eqn:Hr; [|done]. injection Hp as <-. by b2p.
Qed.

(** What validation settles about one point. *)
Record point_ok (m : Manifest) (point : InterceptionPoint) (config : InterventionPointConfig) : Prop := {
  po_target : ∃ p, parse_with_snapshot_alias (policy_target config) = Ok p ∧ root p = Snap;
  po_tool : ∀ t, tool_name_from config = Some t →
    is_tool_point point = true ∧ ∃ p, parse_with_snapshot_alias t = Ok p ∧ root p = Snap;
  po_annotations : ∀ name a, (name, a) ∈ point_annotations config →
    validate_annotation point config m name a = Ok ();
  po_order : is_ok (annotation_dispatch_order point config m) = true;
  po_policy : ∃ policy, bt_get (binding_id (point_policy config)) (policies m) = Some policy ∧
    validate_policy_binding point (point_policy config) policy = Ok () }.

Lemma validate_point_config_Ok m point config :
  validate_point_config point config m = Ok () → point_ok m point config.
Proof.
  unfold validate_point_config. destruct (blank (policy_target config)); [done|]. intros Hv.
  apply bind_Ok in Hv as (target & Htarget & Hv). apply bind_Ok in Hv as ([] & _ & Hv).
  apply bind_Ok in Hv as ([] & Htool & Hv). apply bind_Ok in Hv as ([] & Hann & Hv).
  apply bind_Ok in Hv as (order & Horder & Hv). destruct (blank (binding_id _)); [done|].
  apply bind_Ok in Hv as (policy & Hpolicy & Hv). split.
  - apply snapshot_path_Ok in Htarget. by exists target.
  - intros t Ht. rewrite Ht in Htool. destruct (is_tool_point point); [|done]. cbn in Htool.
    apply bind_Ok in Htool as (p & Hp & _). apply snapshot_path_Ok in Hp. by split; [|exists p].
  - intros name a Hin. by apply (for_each_Ok_elem _ _ (name, a)) in Hann.
  - by rewrite Horder.
  - destruct (bt_get _ (policies m)) as [policy'|]; [|done]. injection Hpolicy as ->. by exists policy.
Qed.

Lemma validate_needs_Ok at_point name annotations needs seen :
  validate_needs at_point name annotations needs = Ok seen →
  needs ⊆ bt_keys annotations ∧ name ∉ needs ∧ NoDup needs ∧ (∀ d, d ∈ seen ↔ d ∈ needs).
Proof.
  unfold validate_needs. intros Hv.
  assert (needs ⊆ bt_keys annotations ∧ name ∉ needs ∧ NoDup needs ∧
    (∀ d, d ∈ needs → d ∉ (∅ : gset string)) ∧ ∀ d, d ∈ seen ↔ d ∈ needs ∨ d ∈ (∅ : gset string))
    as (K1 & K2 & K3 & _ & K5); [|by split_and!; try done; intros d; rewrite K5; set_solver].
  revert Hv. generalize (∅ : gset string). induction needs as [|d needs IH]; intros acc Hv; cbn in Hv.
  { injection Hv as <-. split_and!; [set_solver|set_solver|constructor|set_solver|set_solver]. }
  apply bind_Ok in Hv as (acc' & Hd & Hv).
  destruct (decide (d = name)) as [|Hne]; [done|]. destruct (decide (d ∈ acc)) as [|Hacc]; [done|].
  destruct (bt_contains d annotations) eqn:Hc; [|done]. injection Hd as <-.
  apply bt_contains_keys in Hc. apply IH in Hv as (K1 & K2 & K3 & K4 & K5).
  split_and!; [set_solver|set_solver| |set_solver|set_solver].
  constructor; [|done]. intros Hin. specialize (K4 d Hin). set_solver.
Qed.

(** A validated annotation names a declared annotator, and its needs are
    other bindings of the point. *)
Lemma validate_annotation_Ok point config m name a :
  validate_annotation point config m name a = Ok () →
  (∃ annotator, bt_get name (annotators m) = Some annotator) ∧
  (∃ p, parse_with_snapshot_alias (annotation_from a) = Ok p ∧
    ∃ needs, annotation_dependencies m a = Ok needs ∧
      needs ⊆ bt_keys (point_annotations config) ∧ name ∉ needs ∧ NoDup needs ∧
      (references_pi_annotations p = true →
        ∃ need, pi_annotation_reference p = Some need ∧ need ∈ needs)).
Proof.
  unfold validate_annotation. destruct (bt_get name (annotators m)) as [annotator|]; [|done].
  intros Hv. apply bind_Ok in Hv as ([] & _ & Hv). split; [by exists annotator|].
  destruct (bt_contains "annotator" _); [done|]. destruct (blank (annotation_from a)); [done|].
  apply bind_Ok in Hv as (p & Hp & Hv). apply map_err_Ok in Hp. exists p. split; [done|].
  destruct (annotation_chaining_enabled m) eqn:Hch; cbn [negb] in Hv.
  - apply bind_Ok in Hv as (needs & Hneeds & Hv). apply bind_Ok in Hv as (seen & Hseen & Hv).
    apply validate_needs_Ok in Hseen as (? & ? & ? & Hin). exists needs. split_and!; try done.
    intros Href. rewrite Href in Hv. destruct (pi_annotation_reference p) as [need|]; [|done].
    exists need. split; [done|]. apply Hin. by case_decide.
  - exists []. unfold annotation_dependencies. rewrite Hch.
    split_and!; [done|set_solver|set_solver|constructor|]. intros Href. by rewrite Href in Hv.
Qed.

(** The dispatch order of a validated point exists, with the facts the
    runtime relies on. *)
Lemma validated_nodes m point config :
  point_ok m point config → bt_wf (point_annotations config) →
  ∃ nodes, nodes_of m (point_annotations config) = Ok nodes ∧
    Forall (λ n : node, n.2 ⊆ bt_keys (point_annotations config)) nodes.
Proof.
  intros Hok Hwf. pose proof (po_annotations _ _ _ Hok) as Hann. clear Hok Hwf.
  assert (∀ l, l ⊆ point_annotations config →
    ∃ nodes, nodes_of m l = Ok nodes ∧
      Forall (λ n : node, n.2 ⊆ bt_keys (point_annotations config)) nodes) as Hl; [|by apply Hl].
  induction l as [|[name a] l IH]; intros Hsub; [by exists []|].
  destruct IH as (nodes & Hn & Hf); [set_solver|].
  destruct (validate_annotation_Ok _ _ _ _ _ (Hann name a ltac:(set_solver)))
    as (_ & _ & _ & needs & Hneeds & Hkeys & _).
  exists ((name, needs) :: nodes). split; [|by constructor].
  unfold nodes_of. cbn [map_result fst snd]. rewrite Hneeds. cbn [mbind result_bind].
  unfold nodes_of in Hn. by rewrite Hn.
Qed.

(** The order of a validated point: the lemma behind [validated_order_complete]. *)
Lemma validated_order m point config :
  validate m = Ok () → (point, config) ∈ intervention_points m → bt_wf (point_annotations config) →
  ∃ order, annotation_dispatch_order point config m = Ok order ∧
    order ≡ₚ bt_keys (point_annotations config) ∧
    ∀ i name, order !! i = Some name →
      ∃ a annotator p, bt_get name (point_annotations config) = Some a ∧
        bt_get name (annotators m) = Some annotator ∧
        parse_with_snapshot_alias (annotation_from a) = Ok p ∧
        (∀ needs, annotation_dependencies m a = Ok needs → needs ⊆ take i order) ∧
        (references_pi_annotations p = true →
          ∃ need, pi_annotation_reference p = Some need ∧ need ∈ take i order).
Proof.
  intros Hv Hin Hwf. apply validate_Ok in Hv as (_ & _ & _ & Hpoints & _).
  pose proof (validate_point_config_Ok _ _ _ (Hpoints _ _ Hin)) as Hok.
  destruct (validated_nodes m point config Hok Hwf) as (nodes & Hnodes & Hneeds).
  destruct (dispatch_order point config m nodes Hwf Hnodes Hneeds) as [Horder _].
  rewrite (nodes_of_keys _ _ _ Hnodes) in Horder.
  pose proof (po_order _ _ _ Hok) as Hex.
  destruct (annotation_dispatch_order point config m) as [order|]; [|done].
  destruct (Horder order eq_refl) as [Hperm Hg]. exists order. split_and!; [done|done|].
  intros i name Hi. destruct (Hg i name Hi) as [(_ & ns & Hns & Hsub) _].
  assert (name ∈ bt_keys (point_annotations config)) as Hname
    by (rewrite <-Hperm; by eapply list_elem_of_lookup_2).
  apply bt_contains_keys, bt_contains_get in Hname as [a Ha].
  pose proof (bt_get_Some_elem _ _ _ Ha) as Hina.
  destruct (validate_annotation_Ok _ _ _ _ _ (po_annotations _ _ _ Hok _ _ Hina))
    as ([annotator Hann] & p & Hp & needs & Hneeds' & _ & _ & _ & Href).
  destruct (nodes_of_get _ _ _ _ _ Hnodes Ha) as (needs'' & Hn'' & Hns').
  rewrite Hns in Hns'. injection Hns' as <-. rewrite Hneeds' in Hn''. injection Hn'' as ->.
  exists a, annotator, p. split_and!; try done.
  - intros needs' Hneeds''. rewrite Hneeds' in Hneeds''. by injection Hneeds'' as <-.
  - intros Hr. destruct (Href Hr) as (need & Hneed & Hin'). exists need. split; [done|]. by apply Hsub.
Qed.

(** In a validated manifest every point has its dispatch order, and no
    annotator can run without what it reads: every binding names a
    declared annotator, the order contains each binding once, each comes
    after everything it needs, and a binding that reads an annotation
    through its [from] path reads one that has run by then. *)
Theorem validated_order_complete m point config :
  validate m = Ok () → (point, config) ∈ intervention_points m → bt_wf (point_annotations config) →
  ∃ order, annotation_dispatch_order point config m = Ok order ∧
    order ≡ₚ bt_keys (point_annotations config) ∧
    ∀ i name, order !! i = Some name →
      ∃ a annotator p, bt_get name (point_annotations config) = Some a ∧
        bt_get name (annotators m) = Some annotator ∧
        parse_with_snapshot_alias (annotation_from a) = Ok p ∧
        (∀ needs, annotation_dependencies m a = Ok needs → needs ⊆ take i order) ∧
        (references_pi_annotations p = true →
          ∃ need, pi_annotation_reference p = Some need ∧ need ∈ take i order).
Proof. apply validated_order. Qed.
End validated.

(** ** The gate on one fetched document *)

Section provenance.
Context `{AgentHooks} `{UrlCrate} `{SerdeJson}.

(** Annotator fields that name no host environment variable, and no
    remote prompt off a pinned path. *)
Definition fields_confined (pinned : bool) (fields : adapter) : Prop :=
  (∀ key, key ∈ host_env_secret_ALL → bt_get key fields = None) ∧
  (pinned = false → bt_get "system_prompt_url" fields = None).

(** Adapter settings that name no host file, and no remote bundle off a
    pinned path. *)
Definition adapter_confined (pinned : bool) (config : adapter) : Prop :=
  (∀ key, key ∈ DATA_PATH_KEYS → bt_get key config = None) ∧
  (pinned = false → bt_get BUNDLE_URL config = None).

Definition query_confined (query : option string) : Prop :=
  ∀ q, query = Some q → is_rule_path q = true.

Definition policy_confined (pinned : bool) (config : PolicyConfig) : Prop :=
  match config with
  | PolicyRego c => rego_bundle c = None ∧ adapter_confined pinned (rego_adapter_config c) ∧
      query_confined (rego_query c)
  | PolicyCedar c => cedar_policy_path c = None ∧ cedar_entities_path c = None ∧ cedar_schema_path c = None
  | PolicyTest c => adapter_confined pinned (test_adapter_config c)
  | PolicyCustom c => adapter_confined pinned (custom_adapter_config c)
  end.

Definition binding_confined (pinned : bool) (b : PolicyBinding) : Prop :=
  adapter_confined pinned (binding_adapter_config b) ∧ query_confined (binding_query b).

Record document_confined (pinned : bool) (m : Manifest) : Prop := {
  dc_annotators : ∀ name a, (name, a) ∈ annotators m → fields_confined pinned (annotator_fields a);
  dc_annotations : ∀ point config name a, (point, config) ∈ intervention_points m →
    (name, a) ∈ point_annotations config → fields_confined pinned (annotation_fields a);
  dc_policies : ∀ name p, (name, p) ∈ policies m → policy_confined pinned p;
  dc_bindings : ∀ point config, (point, config) ∈ intervention_points m →
    binding_confined pinned (point_policy config);
  dc_approval : approval m = None;
  dc_tools : tools m = [] }.

Lemma fields_confined_Ok document label fields pinned :
  reject_fetched_annotator_fields document label fields pinned = Ok () ↔ fields_confined pinned fields.
Proof.
  unfold reject_fetched_annotator_fields, fields_confined. rewrite bind_Ok. split.
  - intros ([] & Hall & Hp). rewrite for_each_absent in Hall. split; [done|]. intros ->.
    cbn [negb andb] in Hp. rewrite if_err_Ok in Hp. unfold bt_contains in Hp. by destruct (bt_get _ _).
  - intros [Hall Hp]. exists (). rewrite for_each_absent. split; [done|].
    destruct pinned; cbn [negb andb]; [done|]. unfold bt_contains. by rewrite Hp.
Qed.

Lemma data_paths_Ok document context config :
  reject_adapter_data_paths document context config = Ok () ↔
  ∀ key, key ∈ DATA_PATH_KEYS → bt_get key config = None.
Proof. apply for_each_absent. Qed.

Lemma remote_bundle_Ok document context config :
  reject_remote_bundle_key document context config = Ok () ↔ bt_get BUNDLE_URL config = None.
Proof.
  unfold reject_remote_bundle_key. rewrite if_err_Ok. unfold bt_contains. by destruct (bt_get _ _).
Qed.

Lemma query_Ok (query : option string) document context :
  match query with Some q => reject_non_rule_query_text document context q | None => Ok () end = Ok () ↔
  query_confined query.
Proof.
  unfold query_confined, reject_non_rule_query_text. destruct query as [q|]; [|naive_solver].
  destruct (is_rule_path q) eqn:Hq; split; intros Hx; try done; [by intros ? [= <-]|].
  specialize (Hx q eq_refl). congruence.
Qed.

Lemma gate_policies_Ok m document pg bg :
  gate_policies m document pg bg = Ok () ↔
  (∀ name p, (name, p) ∈ policies m → pg p document ("policy '" +:+ name +:+ "'") = Ok ()) ∧
  (∀ point config, (point, config) ∈ intervention_points m →
    bg (point_policy config) document (binding_context point) = Ok ()).
Proof.
  unfold gate_policies. rewrite bind_Ok. split.
  - intros ([] & Hp & Hb). split; intros ? ? Hin.
    + exact (for_each_Ok_elem _ _ _ Hp Hin).
    + exact (for_each_Ok_elem _ _ _ Hb Hin).
  - intros [Hp Hb]. exists (). rewrite !for_each_Ok, !Forall_forall.
    split; intros [k v] Hin; [by apply Hp|by apply Hb].
Qed.

Lemma policy_files_Ok p document context :
  policy_reject_filesystem_path_fields p document context = Ok () ↔
  match p with
  | PolicyRego c => rego_bundle c = None ∧
      ∀ key, key ∈ DATA_PATH_KEYS → bt_get key (rego_adapter_config c) = None
  | PolicyCedar c => cedar_policy_path c = None ∧ cedar_entities_path c = None ∧ cedar_schema_path c = None
  | PolicyTest c => ∀ key, key ∈ DATA_PATH_KEYS → bt_get key (test_adapter_config c) = None
  | PolicyCustom c => ∀ key, key ∈ DATA_PATH_KEYS → bt_get key (custom_adapter_config c) = None
  end.
Proof.
  destruct p as [c|c|c|c]; cbn [policy_reject_filesystem_path_fields]; try apply data_paths_Ok.
  - destruct (rego_bundle c); cbn [is_Some]; [by split; [|intros [? _]]|].
    rewrite bool_decide_false by (by intros [? ?]). rewrite data_paths_Ok. naive_solver.
  - destruct (cedar_policy_path c), (cedar_entities_path c), (cedar_schema_path c); cbn; naive_solver.
Qed.

Lemma gate_sound m document pinned :
  reject_fetched_document_local_access m document pinned = Ok () → document_confined pinned m.
Proof.
  unfold reject_fetched_document_local_access.
  intros Hv. apply bind_Ok in Hv as ([] & Hann & Hv). apply bind_Ok in Hv as ([] & Hbind & Hv).
  apply bind_Ok in Hv as ([] & Hfiles & Hv). apply bind_Ok in Hv as ([] & Hremote & Hv).
  apply bind_Ok in Hv as ([] & Hquery & Hv).
  rewrite gate_policies_Ok in Hfiles, Hquery. destruct Hfiles as [Hpf Hbf], Hquery as [Hpq Hbq].
  assert (pinned = false →
    (∀ name p, (name, p) ∈ policies m → policy_reject_remote_bundle_field p document ("policy '" +:+ name +:+ "'") = Ok ()) ∧
    (∀ point config, (point, config) ∈ intervention_points m →
      bt_get BUNDLE_URL (binding_adapter_config (point_policy config)) = None)) as Hrem.
  { intros ->. cbn in Hremote. rewrite gate_policies_Ok in Hremote. destruct Hremote as [Hp Hb].
    split; [done|]. intros point config Hin. by eapply remote_bundle_Ok, Hb. }
  destruct (approval m) eqn:Happ; [done|]. cbn in Hv.
  split; try done.
  + intros name a Hin. apply (for_each_Ok_elem _ _ _ Hann) in Hin. by apply fields_confined_Ok in Hin.
  + intros point config name a Hin Ha. apply (for_each_Ok_elem _ _ _ Hbind) in Hin.
    apply (for_each_Ok_elem _ _ _ Hin) in Ha. by apply fields_confined_Ok in Ha.
  + intros name p Hin. specialize (Hpf _ _ Hin). specialize (Hpq _ _ Hin).
    assert (pinned = false → policy_reject_remote_bundle_field p document ("policy '" +:+ name +:+ "'") = Ok ())
      as Hr by (intros Hp; by apply Hrem).
    apply policy_files_Ok in Hpf. unfold policy_confined, adapter_confined.
    destruct p as [c|c|c|c]; cbn in Hr.
    * destruct Hpf. split_and!; [done|done|intros Hp; by apply remote_bundle_Ok in Hr|].
      cbn in Hpq. by apply query_Ok in Hpq.
    * done.
    * split; [done|]. intros Hp. by apply remote_bundle_Ok in Hr.
    * split; [done|]. intros Hp. by apply remote_bundle_Ok in Hr.
  + intros point config Hin. split; [split|].
    * by eapply data_paths_Ok, Hbf.
    * intros Hp. by eapply Hrem.
    * eapply query_Ok, Hbq, Hin.
  + destruct (tools m); [done|discriminate Hv].
Qed.

Lemma gate_complete m document pinned :
  document_confined pinned m → reject_fetched_document_local_access m document pinned = Ok ().
Proof.
  unfold reject_fetched_document_local_access.
  intros [Hann Hbind Hpol Hb Happ Htools].
  rewrite (proj2 (for_each_Ok _ (annotators m))).
  2: { apply Forall_forall. intros [name a] Hin. apply fields_confined_Ok. by eapply Hann. }
  cbn [mbind result_bind]. rewrite (proj2 (for_each_Ok _ (intervention_points m))).
  2: { apply Forall_forall. intros [point config] Hin. apply for_each_Ok, Forall_forall.
    intros [name a] Ha. apply fields_confined_Ok. by eapply Hbind. }
  cbn [mbind result_bind]. rewrite (proj2 (gate_policies_Ok _ _ policy_reject_filesystem_path_fields
    binding_reject_filesystem_path_fields)).
  2: { split; [|intros point config Hin; apply data_paths_Ok, (Hb _ _ Hin)].
    intros name p Hin. apply policy_files_Ok. specialize (Hpol _ _ Hin).
    destruct p; cbn in Hpol; unfold adapter_confined in Hpol; naive_solver. }
  cbn [mbind result_bind].
  assert ((if negb pinned then gate_policies m document policy_reject_remote_bundle_field
    binding_reject_remote_bundle_field else Ok ()) = Ok ()) as ->.
  { destruct pinned; [done|]. apply gate_policies_Ok.
    split; [|intros point config Hin; by apply remote_bundle_Ok, (Hb _ _ Hin)].
    intros name p Hin. specialize (Hpol _ _ Hin).
    destruct p; cbn in *; try done; apply remote_bundle_Ok; unfold adapter_confined in Hpol; naive_solver. }
  cbn [mbind result_bind]. rewrite (proj2 (gate_policies_Ok _ _ _ _)).
  2: { split; [|intros point config Hin; apply query_Ok, (Hb _ _ Hin)].
    intros name p Hin. specialize (Hpol _ _ Hin). destruct p; try done. apply query_Ok. apply Hpol. }
  cbn [mbind result_bind]. by rewrite Happ, Htools.
Qed.

(** The gate on a fetched document refuses exactly what a fetched
    document may not do. It passes if and only if no annotator or binding
    names a host environment variable, no policy or binding names a host
    file, every Rego query is a plain rule path, there is no approval
    section and no tool, and - unless every hop to the document was
    pinned - no remote bundle and no remote prompt is named. *)
Theorem fetched_document_gate m document pinned :
  reject_fetched_document_local_access m document pinned = Ok () ↔ document_confined pinned m.
Proof. split; [apply gate_sound|apply gate_complete]. Qed.

(** ** The mark *)

(** Marking a document is one way and holds it to the rules of a
    fetched one. A marked document was a single parsed document with no
    provenance that passes the unpinned gate; marking changes nothing but
    the provenance, records the mark as its source and every declaration
    and binding as fetched, and a marked document cannot be marked
    again. *)
Theorem mark_confines m m' :
  mark_url_sourced m = Ok m' →
  composition m = CompositionDocument ∧ document_confined false m ∧
  m' = record_fetched_declarations (with_url_sources m [HOST_MARKED_SOURCE]) ∧
  url_sourced m' = true ∧
  (∀ name, name ∈ bt_keys (annotators m') → name ∈ url_sourced_annotators m') ∧
  (∀ point config name, (point, config) ∈ intervention_points m' →
    name ∈ bt_keys (point_annotations config) → (point, name) ∈ url_sourced_annotations m') ∧
  is_ok (mark_url_sourced m') = false.
Proof.
  unfold mark_url_sourced at 1. destruct (composition m) eqn:Hc; try done.
  destruct (url_sourced m) eqn:Hu; [done|]. intros Hm. apply bind_Ok in Hm as ([] & Hgate & Hm).
  apply gate_sound in Hgate. injection Hm as <-.
  assert (url_sources m = []) as Hs.
  { unfold url_sourced in Hu. by apply negb_false_iff, bool_decide_eq_true in Hu. }
  rewrite Hs. change (push_url_source [] HOST_MARKED_SOURCE) with [HOST_MARKED_SOURCE].
  split_and!; try done.
  - intros name Hin. cbn. set_solver.
  - intros point config name Hin Hname. cbn in *. apply elem_of_union_r, elem_of_list_to_set.
    unfold point_bindings. apply list_elem_of_bind. exists (point, config). split; [|done].
    apply list_elem_of_fmap. by exists name.
  - unfold mark_url_sourced. cbn. by rewrite Hc.
Qed.

(** ** The gate on the whole manifest *)

Lemma overlay_Ok m point name a :
  reject_cross_document_overlay m point name a = Ok () →
  (name ∉ url_sourced_annotators m → (point, name) ∈ url_sourced_annotations m →
    ∀ field, field ∈ bt_keys (annotation_fields a) → field = annotation_INPUT_FROM) ∧
  (name ∈ url_sourced_annotators m → ∃ needs, annotation_dependencies m a = Ok needs ∧
    ∀ need, need ∈ needs → need ∈ url_sourced_annotators m) ∧
  (name ∈ url_sourced_annotators m → (point, name) ∉ url_sourced_annotations m →
    ∀ field, field ∈ inline_credential_ALL → bt_get field (annotation_fields a) = None).
Proof.
  unfold reject_cross_document_overlay. intros Hv.
  apply bind_Ok in Hv as ([] & Hfields & Hv). apply bind_Ok in Hv as ([] & Hneeds & Hv). split_and!.
  - intros Hd Hb. rewrite bool_decide_true, bool_decide_false in Hfields by done. cbn [negb andb] in Hfields.
    destruct (find _ _) eqn:Hf; [done|]. intros field Hin.
    apply (find_None_all (λ f, bool_decide (f = annotation_INPUT_FROM)) _ Hf) in Hin. by b2p.
  - intros Hd. rewrite bool_decide_true in Hneeds by done.
    apply bind_Ok in Hneeds as (needs & Hneeds & Hf). exists needs. split; [done|].
    destruct (find _ needs) eqn:Hfind; [done|]. intros need Hin.
    apply (find_None_all (λ n, bool_decide (n ∈ url_sourced_annotators m)) _ Hfind) in Hin. by b2p.
  - intros Hd Hb. rewrite bool_decide_true, bool_decide_false in Hv by done. cbn [negb andb] in Hv.
    exact (proj1 (for_each_absent _ _ _) Hv).
Qed.

(** C11: no credential crosses the host boundary through a URL sourced
    manifest. In a validated manifest that folded in a fetched document,
    every invocation the runtime builds says so and names no host
    environment variable; a fetched binding of a host annotator chooses
    only its input; a host binding of a fetched annotator lends it no
    inline credential; and a fetched annotator needs only fetched ones. *)
Theorem url_sourced_isolation m point config name a annotator :
  validate m = Ok () → url_sourced m = true →
  (point, config) ∈ intervention_points m → (name, a) ∈ point_annotations config →
  bt_get name (annotators m) = Some annotator →
  let invocation := from_annotation_in m annotator a in
  invocation_url_sourced invocation = true ∧
  (∀ key, key ∈ host_env_secret_ALL → bt_get key (invocation_fields invocation) = None) ∧
  (name ∉ url_sourced_annotators m → (point, name) ∈ url_sourced_annotations m →
    ∀ field, field ∈ bt_keys (annotation_fields a) → field = annotation_INPUT_FROM) ∧
  (name ∈ url_sourced_annotators m → (point, name) ∉ url_sourced_annotations m →
    ∀ field, field ∈ inline_credential_ALL → bt_get field (annotation_fields a) = None) ∧
  (name ∈ url_sourced_annotators m → ∃ needs, annotation_dependencies m a = Ok needs ∧
    ∀ need, need ∈ needs → need ∈ url_sourced_annotators m).
Proof.
  intros Hv Hu Hin Ha Hann. apply validate_Ok in Hv as (_ & _ & _ & _ & _ & Hsecret).
  specialize (Hsecret Hu). unfold reject_url_sourced_host_secrets in Hsecret.
  apply bind_Ok in Hsecret as ([] & _ & Hpoints).
  apply (for_each_Ok_elem _ _ _ Hpoints) in Hin. apply (for_each_Ok_elem _ _ _ Hin) in Ha.
  cbn [fst snd] in Ha. rewrite Hann in Ha. apply bind_Ok in Ha as ([] & Hfields & Hoverlay).
  pose proof (proj1 (for_each_absent _ _ _) Hfields) as Hnone. apply overlay_Ok in Hoverlay as (? & ? & ?).
  cbn zeta. split_and!; [done| |done|done|done].
  intros key Hkey. cbn [from_annotation_in invocation_fields]. specialize (Hnone key Hkey).
  destruct (annotation_chaining_enabled m); [|done]. rewrite bt_get_remove. by case_decide.
Qed.
End provenance.

(** ** Witnesses *)

Section manifest_samples.
#[local] Existing Instance demo_hooks.
#[local] Existing Instance demo_url.
#[local] Existing Instance demo_serde.

Lemma validated_order_complete_witness :
  ∃ order, annotation_dispatch_order Input sample_point sample_manifest = Ok order ∧
    order ≡ₚ ["audit"; "scan"; "summary"].
Proof.
  destruct (validated_order_complete sample_manifest Input sample_point) as (order & Ho & Hp & _).
  - apply sample_valid.
  - cbn. set_solver.
  - apply sample_annotations_wf.
  - exists order. split; [exact Ho|exact Hp].
Defined.

Definition sample_document : Manifest :=
  mkManifest "0.5.0-alpha.1" [] [] [] [(Input, sample_point)] [] sample_annotators None [] ∅ ∅
    CompositionDocument.

Lemma mark_confines_witness :
  ∃ m', mark_url_sourced sample_document = Ok m' ∧ "scan" ∈ url_sourced_annotators m'.
Proof.
  destruct (mark_url_sourced sample_document) as [m'|e] eqn:Hm; [|vm_compute in Hm; discriminate].
  exists m'. split; [done|].
  destruct (mark_confines sample_document m' Hm) as (_ & _ & -> & _ & Hrec & _).
  apply Hrec. vm_compute. repeat constructor.
Defined.

Lemma url_sourced_isolation_witness :
  bt_get "api_key_env" (invocation_fields
    (from_annotation_in sample_fetched (mkAnnotator Classifier []) (mkAnnotation "$snap.text" []))) = None.
Proof.
  apply (url_sourced_isolation sample_fetched Input sample_point "scan" (mkAnnotation "$snap.text" [])
    (mkAnnotator Classifier [])).
  - apply sample_fetched_valid.
  - reflexivity.
  - cbn. set_solver.
  - cbn. set_solver.
  - reflexivity.
  - set_solver.
Defined.
End manifest_samples.
