(* ===== verification/PolicyOutput.v ===== *)
(** * Policy output: [engine/src/policy_output.rs]

    From the raw JSON a policy returns to an agent-hooks verdict, the
    degradation of oversize evidence, and the verdict of a runtime error.
    [Decision::Transform] is [Rewrite]. *)

From S2P Require Import Prelude OrdMap RustStd Json Errors AgentHooks Hex.

Definition OUTPUT_RESERVED_PREFIXES : list string := ["runtime_error:"; "host_error:"].
Definition EVIDENCE_TRUNCATED_REASON : string := "evidence_truncated".
Definition MAX_RUNTIME_ERROR_DETAIL_BYTES : nat := 256.

Notation invalid_output text := (PolicyOutputInvalid text) (only parsing).

(** ** Members *)

Definition reject_unknown_members (object : JsonMap) (allowed : list string) (location : string)
  : result RuntimeError () :=
  if existsb (λ key, negb (bool_decide (key ∈ allowed))) (bt_keys object)
  then Err (invalid_output (location +:+ " has an unknown member"))
  else Ok ().

Definition string_field (object : JsonMap) (key : string) : result RuntimeError (option string) :=
  match bt_get key object with
  | None | Some JNull => Ok None
  | Some (JString value) => Ok (Some value)
  | Some _ => Err (invalid_output ("policy output " +:+ key +:+ " must be a string"))
  end.

(** The loop over the reserved prefixes, with the error of each caller. *)
Definition check_reserved (reason : option string) (error : string → string)
  : result RuntimeError () :=
  match reason with
  | None => Ok ()
  | Some reason =>
      for_each (λ prefix,
        if starts_with prefix reason then Err (invalid_output (error prefix)) else Ok ())
        OUTPUT_RESERVED_PREFIXES
  end.

Definition reason_field (object : JsonMap) : result RuntimeError (option string) :=
  reason ← string_field object "reason";
  check_reserved reason (λ prefix,
    "policy reasons must not use the reserved " +:+ prefix +:+ "* prefix") ;;
  Ok reason.

Definition warning_entry (item : JsonValue) : result RuntimeError Warning :=
  entry ← ok_or (as_object item) (invalid_output "policy output warnings entries must be objects");
  reject_unknown_members entry ["reason"; "message"] "policy output warning" ;;
  reason ← string_field entry "reason";
  check_reserved reason (λ prefix,
    "policy output warnings must not use the reserved " +:+ prefix +:+ "* prefix") ;;
  message ← string_field entry "message";
  Ok (mkWarning reason message).

Definition warnings_field (object : JsonMap) : result RuntimeError (list Warning) :=
  match bt_get "warnings" object with
  | None | Some JNull => Ok []
  | Some (JArray items) => map_result warning_entry items
  | Some _ => Err (invalid_output "policy output warnings must be an array")
  end.

Definition result_labels_field (object : JsonMap) : result RuntimeError (list string) :=
  match bt_get "result_labels" object with
  | None | Some JNull => Ok []
  | Some (JArray items) =>
      map_result (λ item, ok_or (as_str item)
        (invalid_output "policy output result_labels must be an array of strings")) items
  | Some _ => Err (invalid_output "policy output result_labels must be an array")
  end.

Definition approval_field (object : JsonMap) : result RuntimeError (option JsonMap) :=
  match bt_get "approval" object with
  | None | Some JNull => Ok None
  | Some (JObject map) => Ok (Some map)
  | Some _ => Err (invalid_output "policy output approval must be an object")
  end.

Definition is_rooted_at (path root : string) : bool :=
  match strip_prefix root path with
  | None => false
  | Some rest => str_is_empty rest || starts_with "." rest || starts_with "[" rest
  end.

Definition pointers_field (entry : JsonMap) : result RuntimeError (btree string string) :=
  match bt_get "verification_pointers" entry with
  | None | Some JNull => Ok []
  | Some (JObject map) =>
      fold_result (λ (out : btree string string) (e : string * JsonValue),
        url ← ok_or (as_str e.2)
          (invalid_output "evidence.verification_pointers values must be strings");
        Ok (bt_insert e.1 url out)) [] map
  | Some _ => Err (invalid_output "evidence.verification_pointers must be an object of strings")
  end.

Definition evidence_field (object : JsonMap) : result RuntimeError (option Evidence) :=
  match bt_get "evidence" object with
  | None | Some JNull => Ok None
  | Some value =>
      entry ← ok_or (as_object value) (invalid_output "evidence must be an object");
      (if existsb (λ key, negb (bool_decide (key = "artefact")) &&
                          negb (bool_decide (key = "verification_pointers"))) (bt_keys entry)
       then Err (invalid_output
         "evidence has a member other than artefact and verification_pointers")
       else Ok ()) ;;
      artefact ←
        match bt_get "artefact" entry with
        | None | Some JNull => Ok None
        | Some (JString value) => Ok (Some value)
        | Some _ => Err (invalid_output "evidence.artefact must be a string")
        end;
      verification_pointers ← pointers_field entry;
      Ok (Some (mkEvidence artefact verification_pointers))
  end.

Section normalization.
Context `{AgentHooks} `{Sha2}.

Definition transform_field (value : JsonValue) : result RuntimeError Transform :=
  object ← ok_or (as_object value) (invalid_output "transform must be an object");
  reject_unknown_members object ["path"; "value"] "policy output transform" ;;
  path ← ok_or (bt_get "path" object ≫= as_str)
    (invalid_output "transform.path is required when decision is transform");
  if is_rooted_at path "$policy_target" then
    Err (TransformInvalid
      "transform.path invalid: the $policy_target root was renamed $target")
  else if negb (is_rooted_at path "$target") then Err (TransformTargetForbidden path)
  else
    map_err (λ err, TransformInvalid ("transform.path invalid: " +:+ err))
      (parse_transform_path path) ;;
    value ← ok_or (bt_get "value" object)
      (invalid_output "transform.value is required when decision is transform");
    Ok (mkTransform path value).

(** ** Evidence *)

Definition EVIDENCE_MAX_BYTES : N := evidence_max_bytes.

Definition canonical_evidence (evidence : Evidence) : result RuntimeError string :=
  value ← ok_or (evidence_to_value evidence) (invalid_output "evidence could not be serialized");
  Ok (rfc8785 value).

Definition evidence_within_cap (evidence : Evidence) (cap : N) : result RuntimeError bool :=
  text ← canonical_evidence evidence; Ok (str_len text <=? cap)%N.

Record DegradedEvidence := mkDegraded {
  degraded_evidence : Evidence;
  degraded_warning : option Warning }.

Definition truncation_warning (original_bytes cap : N) (artefact_outcome : string)
  (kept_pointers total_pointers : N) (digest_hex : string) : Warning :=
  mkWarning (Some EVIDENCE_TRUNCATED_REASON)
    (Some ("evidence degraded: " +:+ fmt_N original_bytes +:+ " canonical bytes exceeded the " +:+
      fmt_N cap +:+ " byte cap; " +:+ artefact_outcome +:+ "; verification_pointers kept " +:+
      fmt_N kept_pointers +:+ " of " +:+ fmt_N total_pointers +:+ "; full evidence sha256:" +:+
      digest_hex)).

(** [while too_many - fits > 1]: a probe strictly between the two bounds
    replaces one of them, so the distance is fuel enough. *)
Fixpoint prefix_search (fuel : nat) (within : nat → result RuntimeError bool) (fits too_many : nat)
  : result RuntimeError (nat * nat) :=
  match fuel with
  | O => Ok (fits, too_many)
  | S fuel =>
      if (1 <? too_many - fits)%nat then
        let probe := (fits + (too_many - fits) / 2)%nat in
        within_cap ← within probe;
        if (within_cap : bool) then prefix_search fuel within probe too_many
        else prefix_search fuel within fits probe
      else Ok (fits, too_many)
  end.

(** The candidates in RFC 8785 member order. *)
Definition pointers_utf16 (evidence : Evidence) : list (string * string) :=
  sort_by (λ left right, lex_ltb (encode_utf16 left.1) (encode_utf16 right.1))
    (verification_pointers evidence).

Definition with_prefix (artefact : option string) (pointers : list (string * string))
  (count : nat) : Evidence :=
  mkEvidence artefact (bt_of_list (take count pointers)).

Definition degrade_evidence (evidence : Evidence) (cap : N)
  : result RuntimeError DegradedEvidence :=
  full ← canonical_evidence evidence;
  if (str_len full <=? cap)%N then Ok (mkDegraded evidence None)
  else
    let digest := lower (sha256 (String.list_ascii_of_string full)) in
    artefact_fits ← evidence_within_cap (mkEvidence (artefact evidence) []) cap;
    let kept_artefact := if (artefact_fits : bool) then artefact evidence else None in
    let artefact_outcome :=
      match artefact evidence, kept_artefact with
      | None, _ => "no artefact"
      | Some _, Some _ => "artefact kept"
      | Some _, None => "artefact dropped"
      end in
    let pointers := pointers_utf16 evidence in
    let total := length pointers in
    found ← prefix_search (total + 1)
      (λ count, evidence_within_cap (with_prefix kept_artefact pointers count) cap) 0 (total + 1);
    let kept := with_prefix kept_artefact pointers found.1 in
    Ok (mkDegraded kept (Some (truncation_warning (str_len full) cap artefact_outcome
      (N.of_nat found.1) (N.of_nat total) digest))).

(** ** Normalization *)

Definition output_members : list string :=
  ["decision"; "reason"; "message"; "warnings"; "result_labels"; "approval"; "evidence"; "transform"].

(** The decision for a decision name, with the intents [warn] and
    [escalate] expressed in the warnings and the approval. *)
Definition decide_intent (decision_name : string) (reason message : option string)
  (warnings : list Warning) (approval : option JsonMap)
  : result RuntimeError (Decision * list Warning * option JsonMap) :=
  if decide (decision_name = "allow") then Ok (Allow, warnings, approval)
  else if decide (decision_name = "deny") then Ok (Deny, warnings, approval)
  else if decide (decision_name = "transform") then Ok (Rewrite, warnings, approval)
  else if decide (decision_name = "warn") then
    Ok (Allow, warnings ++ [mkWarning reason message], approval)
  else if decide (decision_name = "escalate") then
    Ok (Deny, warnings, Some (default [] approval))
  else Err (invalid_output ("unsupported decision '" +:+ decision_name +:+ "'")).

Definition transform_of (decision : Decision) (object : JsonMap)
  : result RuntimeError (option Transform) :=
  match decision, bt_get "transform" object with
  | Rewrite, (None | Some JNull) =>
      Err (invalid_output "transform decision requires a transform object")
  | Rewrite, Some value => t ← transform_field value; Ok (Some t)
  | _, (None | Some JNull) => Ok None
  | _, Some _ => Err (invalid_output "transform is only permitted on the transform decision")
  end.

Definition normalize_policy_output (output : JsonValue) : result RuntimeError Verdict :=
  object ← ok_or (as_object output) (invalid_output "policy output must be an object");
  decision_name ← ok_or (bt_get "decision" object ≫= as_str)
    (invalid_output "policy output decision is required");
  if bt_contains "effects" object then
    Err (invalid_output "verdict 'effects' is not supported; use the transform decision. Migrate multi-step rewriting to an annotator")
  else
    reject_unknown_members object output_members "policy output" ;;
    reason ← reason_field object;
    message ← string_field object "message";
    warnings ← warnings_field object;
    result_labels ← result_labels_field object;
    approval ← approval_field object;
    evidence ← evidence_field object;
    intent ← decide_intent decision_name reason message warnings approval;
    let '(decision, warnings, approval) := intent in
    if existsb (λ warning, bool_decide (w_reason warning = Some EVIDENCE_TRUNCATED_REASON)) warnings
    then Err (invalid_output
      "policy output warnings must not use the runtime owned evidence_truncated reason")
    else if bool_decide (is_Some approval) && negb (bool_decide (decision = Deny))
    then Err (invalid_output "approval is only permitted on the deny decision")
    else
      transform ← transform_of decision object;
      bounded ←
        match evidence with
        | Some evidence =>
            degraded ← degrade_evidence evidence EVIDENCE_MAX_BYTES;
            Ok (Some (degraded_evidence degraded), option_list (degraded_warning degraded))
        | None => Ok (None, [])
        end;
      let verdict := mkVerdict decision reason message (warnings ++ bounded.2) approval transform
        bounded.1 result_labels in
      map_err (λ err, invalid_output ("verdict fails §5: " +:+ err)) (verdict_validate verdict) ;;
      Ok verdict.

(** ** Runtime error verdicts *)

Fixpoint boundary_below (s : string) (end_ : nat) : nat :=
  if is_char_boundary s end_ then end_
  else match end_ with O => O | S end_ => boundary_below s end_ end.

Definition bounded_detail (detail : string) : string :=
  let cleaned := strip_controls detail in
  if (String.length cleaned <=? MAX_RUNTIME_ERROR_DETAIL_BYTES)%nat then cleaned
  else
    let end_ := boundary_below cleaned (MAX_RUNTIME_ERROR_DETAIL_BYTES - 3) in
    str_take end_ cleaned +:+ "...".

Definition runtime_error_verdict (error : RuntimeError) : Verdict :=
  let message :=
    match error with
    | AnnotationFailed detail =>
        if negb (str_is_empty detail)
        then "Request blocked by Agent Control Specification. " +:+ bounded_detail detail
        else "Request blocked by Agent Control Specification."
    | _ => "Request blocked by Agent Control Specification."
    end in
  let base := verdict_allow in
  mkVerdict Deny (Some (reason error)) (Some message) (v_warnings base) (v_approval base)
    (v_transform base) (v_evidence base) (v_result_labels base).
End normalization.
