(* ===== verification/PolicyOutputFacts.v ===== *)
(** * Theorems on policy output

    What normalization accepts and what the verdict then is, the evidence
    degradation, and the bound on the runtime's own messages. *)

From S2P Require Import Prelude OrdMap RustStd Json Errors AgentHooks Hex Concrete Stream.
From S2P Require Import PolicyOutput.

(** A reason in neither reserved name space. *)
Definition unreserved (reason : option string) : Prop :=
  ∀ r, reason = Some r → Forall (λ p, starts_with p r = false) OUTPUT_RESERVED_PREFIXES.

Lemma check_reserved_Ok reason error : check_reserved reason error = Ok () ↔ unreserved reason.
Proof.
  unfold unreserved. destruct reason as [r|]; [|by split]. unfold check_reserved.
  rewrite for_each_Ok. split.
  - intros Hall r' [= <-]. eapply Forall_impl; [exact Hall|]. intros p Hp. cbn in Hp.
    by destruct (starts_with p r).
  - intros Hall. eapply Forall_impl; [by apply Hall|]. intros p Hp. cbn in Hp. by rewrite Hp.
Qed.

Lemma reject_unknown_members_Ok object allowed location :
  reject_unknown_members object allowed location = Ok () ↔ ∀ key, key ∈ bt_keys object → key ∈ allowed.
Proof.
  unfold reject_unknown_members. destruct (existsb _ _) eqn:Hex.
  - split; [done|]. intros Hall. apply existsb_exists in Hex as (key & Hin & Hkey).
    apply list_elem_of_In in Hin. b2p. naive_solver.
  - split; [|done]. intros _ key Hin. destruct (decide (key ∈ allowed)) as [|Hn]; [done|].
    exfalso. eapply not_true_iff_false; [exact Hex|]. apply existsb_exists. exists key.
    split; [by apply list_elem_of_In|]. by rewrite bool_decide_false.
Qed.

Lemma warnings_field_unreserved object warnings :
  warnings_field object = Ok warnings → Forall (λ w, unreserved (w_reason w)) warnings.
Proof.
  unfold warnings_field. destruct (bt_get _ _) as [[]|]; try done; try (by intros [= <-]).
  rewrite map_result_Ok. intros Hall. clear -Hall.
  induction Hall as [|item w items ws Hw _ IH]; constructor; [|done].
  unfold warning_entry in Hw. inv_ok. cbn.
  match goal with Hc : check_reserved _ _ = Ok ?u |- _ => destruct u; by apply check_reserved_Ok in Hc end.
Qed.

Section normalization_facts.
Context `{AgentHooks} `{Sha2}.

Lemma transform_field_Ok value t :
  transform_field value = Ok t →
  is_rooted_at (t_path t) "$target" = true ∧ is_ok (parse_transform_path (t_path t)) = true.
Proof.
  unfold transform_field. intros Ht. inv_ok. cbn.
  match goal with Hp : parse_transform_path _ = Ok _ |- _ => rewrite Hp end.
  split; [|done]. by apply negb_false_iff.
Qed.

Lemma transform_of_Ok decision object t :
  transform_of decision object = Ok t →
  (is_Some t ↔ decision = Rewrite) ∧
  ∀ t', t = Some t' →
    is_rooted_at (t_path t') "$target" = true ∧ is_ok (parse_transform_path (t_path t')) = true.
Proof.
  unfold transform_of. intros Ht.
  assert (decision ≠ Rewrite → t = None) as Hnone.
  { intros ?. destruct decision, (bt_get _ _) as [[]|]; try done; by injection Ht as <-. }
  destruct (decide (decision = Rewrite)) as [->|Hd].
  2: { rewrite Hnone by done. split; [|done]. split; [by intros [? ?]|done]. }
  assert (∀ v, (t ← transform_field v; Ok (Some t)) = Ok t → (is_Some t ↔ Rewrite = Rewrite) ∧
    ∀ t', t = Some t' → is_rooted_at (t_path t') "$target" = true ∧
      is_ok (parse_transform_path (t_path t')) = true) as Hsome.
  { intros v Hv. inv_ok. split; [by split; [|eauto]|]. intros t' [= <-]. by eapply transform_field_Ok. }
  destruct (bt_get _ _) as [[]|]; try done; by eapply Hsome.
Qed.

(** The warning [degrade_evidence] adds, if any, carries the engine's own reason. *)
Lemma degrade_warning_reason evidence cap d w :
  degrade_evidence evidence cap = Ok d → degraded_warning d = Some w →
  w_reason w = Some EVIDENCE_TRUNCATED_REASON.
Proof.
  unfold degrade_evidence. intros Hd Hw. apply bind_Ok in Hd as (full & _ & Hd).
  destruct (_ <=? cap)%N; [inv_ok; done|].
  apply bind_Ok in Hd as (fits & _ & Hd). apply bind_Ok in Hd as (found & _ & Hd).
  inv_ok. cbn in Hw. by injection Hw as <-.
Qed.

Lemma truncated_unreserved : unreserved (Some EVIDENCE_TRUNCATED_REASON).
Proof. intros r [= <-]. repeat constructor. Qed.

(** What each decision name stands for. *)
Definition decision_of_name (name : string) : option Decision :=
  if decide (name = "allow" ∨ name = "warn") then Some Allow
  else if decide (name = "deny" ∨ name = "escalate") then Some Deny
  else if decide (name = "transform") then Some Rewrite
  else None.

Lemma decide_intent_Ok name reason message warnings approval d ws a :
  decide_intent name reason message warnings approval = Ok (d, ws, a) →
  decision_of_name name = Some d ∧
  ws = warnings ++ (if decide (name = "warn") then [mkWarning reason message] else []) ∧
  a = (if decide (name = "escalate") then Some (default [] approval) else approval).
Proof.
  unfold decide_intent, decision_of_name.
  repeat case_decide; intros Hd; simplify_eq; try (split_and!; try done; by rewrite ?app_nil_r);
    naive_solver.
Qed.

(** The shape of every accepted output: the pieces normalization builds
    the verdict from. *)
Lemma normalize_Ok output v :
  normalize_policy_output output = Ok v →
  ∃ object name warnings approval marker,
    output = JObject object ∧ bt_get "decision" object = Some (JString name) ∧
    (∀ key, key ∈ bt_keys object → key ∈ output_members) ∧
    decision_of_name name = Some (v_decision v) ∧ unreserved (v_reason v) ∧
    string_field object "message" = Ok (v_message v) ∧
    warnings_field object = Ok warnings ∧ approval_field object = Ok approval ∧
    v_warnings v = warnings ++
      (if decide (name = "warn") then [mkWarning (v_reason v) (v_message v)] else []) ++ marker ∧
    (∀ w, w ∈ marker → w_reason w = Some EVIDENCE_TRUNCATED_REASON) ∧
    v_approval v = (if decide (name = "escalate") then Some (default [] approval) else approval) ∧
    (is_Some (v_approval v) → v_decision v = Deny) ∧
    transform_of (v_decision v) object = Ok (v_transform v) ∧
    verdict_validate v = Ok ().
Proof.
  unfold normalize_policy_output. intros Hn.
  apply bind_Ok in Hn as (object & Hobj & Hn). apply bind_Ok in Hn as (name & Hname & Hn).
  destruct (bt_contains "effects" object) eqn:Heff; [done|].
  apply bind_Ok in Hn as ([] & Hmembers & Hn). apply bind_Ok in Hn as (reason & Hreason & Hn).
  apply bind_Ok in Hn as (message & Hmessage & Hn). apply bind_Ok in Hn as (warnings & Hws & Hn).
  apply bind_Ok in Hn as (labels & _ & Hn). apply bind_Ok in Hn as (approval & Happr & Hn).
  apply bind_Ok in Hn as (evidence & _ & Hn). apply bind_Ok in Hn as ([[d ws] a] & Hint & Hn).
  destruct (existsb _ ws); [done|].
  destruct (bool_decide (is_Some a) && _) eqn:Hdeny; [done|].
  apply bind_Ok in Hn as (transform & Htr & Hn). apply bind_Ok in Hn as ([kept marker] & Hb & Hn).
  apply bind_Ok in Hn as ([] & Hval & Hn). injection Hn as <-. cbn [v_decision v_reason v_message
    v_warnings v_approval v_transform fst snd].
  apply decide_intent_Ok in Hint as (Hd & -> & ->).
  exists object, name, warnings, approval, marker. split_and!; try done.
  - by destruct output; simplify_eq/=.
  - destruct (bt_get "decision" object) as [[]|]; simplify_eq/=; done.
  - exact (proj1 (reject_unknown_members_Ok _ _ _) Hmembers).
  - unfold reason_field in Hreason. apply bind_Ok in Hreason as (r & _ & Hr).
    apply bind_Ok in Hr as ([] & Hr & [= <-]). by apply check_reserved_Ok in Hr.
  - by rewrite <-app_assoc.
  - destruct evidence as [ev|]; [|inv_ok; set_solver].
    apply bind_Ok in Hb as (dg & Hdg & Hb). injection Hb as <- <-. intros w Hw.
    destruct (degraded_warning dg) eqn:Hdw; [|set_solver]. cbn in Hw.
    apply list_elem_of_singleton in Hw as ->. by eapply degrade_warning_reason.
  - intros Ha. rewrite bool_decide_true in Hdeny by done. cbn in Hdeny.
    apply negb_false_iff in Hdeny. by apply bool_decide_eq_true in Hdeny.
  - by apply map_err_Ok in Hval.
Qed.

Lemma normalized_warnings v warnings marker (more : list Warning) :
  v_warnings v = warnings ++ more ++ marker →
  Forall (λ w, unreserved (w_reason w)) warnings →
  Forall (λ w, unreserved (w_reason w)) more →
  (∀ w, w ∈ marker → w_reason w = Some EVIDENCE_TRUNCATED_REASON) →
  Forall (λ w, unreserved (w_reason w)) (v_warnings v).
Proof.
  intros -> Hw Hm Hk. rewrite !Forall_app. split_and!; [done|done|].
  apply Forall_forall. intros w Hin. rewrite (Hk w Hin). apply truncated_unreserved.
Qed.

(** C35: normalization admits no other vocabulary than agent-hooks' own.
    An accepted output is an object with known members only; its decision
    name is one of the five intents, and the verdict carries the decision
    that name stands for; a [warn] intent leaves its warning, an
    [escalate] intent its approval block; a transform is present exactly
    on the transform decision; and the verdict passed the contract's own
    validation. *)
Theorem normalize_intents output v :
  normalize_policy_output output = Ok v →
  ∃ object name,
    output = JObject object ∧ bt_get "decision" object = Some (JString name) ∧
    (∀ key, key ∈ bt_keys object → key ∈ output_members) ∧
    decision_of_name name = Some (v_decision v) ∧
    (name = "warn" → mkWarning (v_reason v) (v_message v) ∈ v_warnings v) ∧
    (name = "escalate" → is_Some (v_approval v)) ∧
    (is_Some (v_approval v) → v_decision v = Deny) ∧
    (is_Some (v_transform v) ↔ v_decision v = Rewrite) ∧
    verdict_validate v = Ok ().
Proof.
  intros (object & name & warnings & approval & marker & -> & Hname & Hkeys & Hd & _ & _ & _ & _ &
    Hws & _ & Ha & Hdeny & Htr & Hval)%normalize_Ok.
  exists object, name. split_and!; try done.
  - intros ->. rewrite Hws. rewrite decide_True by done. set_solver.
  - intros ->. rewrite Ha. by rewrite decide_True.
  - by apply transform_of_Ok in Htr as [? _].
Qed.

(** A verdict the engine hands out is one the stream session accepts:
    normalization forges neither reserved name space, in the reason or in
    a warning, and its transform path is rooted at the target and parses,
    so the session's own shape gate never fires on it. *)
Theorem normalized_shape_valid output v :
  normalize_policy_output output = Ok v →
  unreserved (v_reason v) ∧ Forall (λ w, unreserved (w_reason w)) (v_warnings v) ∧
  (∀ t, v_transform v = Some t → is_rooted_at (t_path t) "$target" = true) ∧
  verdict_shape_is_invalid v = false.
Proof.
  intros (object & name & warnings & approval & marker & -> & Hname & Hkeys & Hd & Hr & _ & Hwf & _ &
    Hws & Hmark & Ha & Hdeny & Htr & Hval)%normalize_Ok.
  assert (Forall (λ w, unreserved (w_reason w)) (v_warnings v)) as Hall.
  { eapply normalized_warnings; [exact Hws|by eapply warnings_field_unreserved| |done].
    destruct (decide (name = "warn")); [constructor; [exact Hr|constructor]|constructor]. }
  apply transform_of_Ok in Htr as [_ Ht].
  split_and!; [done|done|by intros t Hvt; apply Ht|].
  unfold verdict_shape_is_invalid, host_authored_denial.
  assert (match v_reason v with Some r => starts_with "host_error:" r | None => false end = false) as ->.
  { destruct (v_reason v) as [r|] eqn:Hv; [|done]. specialize (Hr r eq_refl).
    by inversion Hr as [|? ? ? Hr2]; inversion Hr2. }
  rewrite andb_false_r, Hval. cbn [is_ok negb].
  assert (existsb (λ reason, existsb (λ p, starts_with p reason) RESERVED_REASON_PREFIXES)
    (omap w_reason (v_warnings v)) = false) as ->.
  { apply not_true_iff_false. rewrite existsb_exists. intros (r & Hin & Hex).
    apply list_elem_of_In, list_elem_of_omap in Hin as (w & Hw & Hwr).
    rewrite Forall_forall in Hall. specialize (Hall w Hw r Hwr).
    apply existsb_exists in Hex as (p & Hp & Hpr). apply list_elem_of_In in Hp.
    unfold OUTPUT_RESERVED_PREFIXES in Hall. rewrite Forall_forall in Hall.
    rewrite (Hall p Hp) in Hpr. done. }
  destruct (v_transform v) as [t|] eqn:Hvt; [|done].
  destruct (Ht t eq_refl) as [_ Hp]. by rewrite Hp.
Qed.
End normalization_facts.

(** ** The evidence search *)

#[local] Open Scope nat_scope.

(** A probe lies strictly between the bounds, so fuel for the distance
    brings them together; the lower bound was within the cap if it moved,
    the upper one was not. *)
Lemma prefix_search_spec fuel within fits too_many :
  fits < too_many → too_many - fits ≤ fuel →
  match prefix_search fuel within fits too_many with
  | Ok (n, m) =>
      m = S n ∧ fits ≤ n ∧ m ≤ too_many ∧
      (n = fits ∨ within n = Ok true) ∧ (m = too_many ∨ within m = Ok false)
  | Err e => ∃ count, fits < count < too_many ∧ within count = Err e
  end.
Proof.
  revert fits too_many. induction fuel as [|fuel IH]; intros fits too_many Hlt Hfuel; [lia|].
  cbn [prefix_search]. destruct (1 <? too_many - fits) eqn:Hgap; b2p; [|split_and!; auto; lia].
  assert (0 < (too_many - fits) / 2 < too_many - fits) as Hprobe.
  { split; [apply Nat.div_str_pos; lia|apply Nat.div_lt; lia]. }
  set (probe := fits + (too_many - fits) / 2).
  destruct (within probe) as [[]|e] eqn:Hw; cbn; [| |exists probe; split; [lia|done]].
  - specialize (IH probe too_many ltac:(lia) ltac:(lia)).
    destruct (prefix_search _ _ _ _) as [[n m]|e].
    + destruct IH as (-> & ? & ? & [->|?] & ?); split_and!; auto; lia.
    + destruct IH as (c & ? & ?). exists c. split; [lia|done].
  - specialize (IH fits probe ltac:(lia) ltac:(lia)).
    destruct (prefix_search _ _ _ _) as [[n m]|e].
    + destruct IH as (-> & ? & ? & ? & [Hm|?]); split_and!; auto; try lia. right. by rewrite Hm.
    + destruct IH as (c & ? & ?). exists c. split; [lia|done].
Qed.

Section evidence_facts.
Context `{AgentHooks} `{Sha2}.

(** The measure of the cap. *)
Definition evidence_size (e : Evidence) : N :=
  match canonical_evidence e with Ok text => str_len text | Err _ => 0 end.

Lemma evidence_within_cap_Ok e cap b :
  evidence_within_cap e cap = Ok b →
  b = (evidence_size e <=? cap)%N ∧ is_ok (canonical_evidence e) = true.
Proof.
  unfold evidence_within_cap, evidence_size. intros Hb.
  apply bind_Ok in Hb as (text & Ht & [= <-]). by rewrite Ht.
Qed.

Lemma evidence_within_cap_Err e cap err :
  evidence_within_cap e cap = Err err → canonical_evidence e = Err err.
Proof.
  unfold evidence_within_cap. intros Hb. apply bind_Err in Hb as [?|(? & ? & ?)]; done.
Qed.

(** What is kept of evidence that does not fit: the artefact if it fits
    alone, and a prefix of the pointers that is as long as it can be. *)
Definition degraded_to (e : Evidence) (cap : N) (kept : Evidence) (n : nat) : Prop :=
  let a := if (evidence_size (mkEvidence (artefact e) []) <=? cap)%N then artefact e else None in
  let size count := evidence_size (with_prefix a (pointers_utf16 e) count) in
  let total := length (verification_pointers e) in
  kept = with_prefix a (pointers_utf16 e) n ∧ n ≤ total ∧
  (n = 0 ∨ (size n <= cap)%N) ∧
  (n = total ∨ (cap < size (S n))%N) ∧
  ((∀ i j, i ≤ j ≤ total → (size i <= size j)%N) → ∀ m, n < m ≤ total → (cap < size m)%N).

(** Evidence is degraded, never the verdict around it. Evidence that
    fits the cap comes back untouched and unmarked. Otherwise the engine's
    own warning marks the loss, the artefact is kept whole exactly when it
    fits on its own, and the kept pointers are a prefix, in UTF-16 order of
    the keys, to which no further pointer can be added within the cap:
    the longest prefix that fits when the canonical size grows with the
    prefix. The only failure is evidence that cannot be serialized. *)
Theorem degrade_evidence_maximal e cap :
  match degrade_evidence e cap with
  | Ok d =>
      if (evidence_size e <=? cap)%N then d = mkDegraded e None
      else
        ∃ n w, degraded_to e cap (degraded_evidence d) n ∧ degraded_warning d = Some w ∧
          w_reason w = Some EVIDENCE_TRUNCATED_REASON
  | Err err => ∃ e', canonical_evidence e' = Err err
  end.
Proof.
  unfold degrade_evidence. destruct (canonical_evidence e) as [full|err] eqn:Hfull; cbn [mbind result_bind]; [|by eexists].
  unfold evidence_size at 1. rewrite Hfull. destruct (str_len full <=? cap)%N; [done|].
  destruct (evidence_within_cap (mkEvidence (artefact e) []) cap) as [b|err] eqn:Ha; cbn [mbind result_bind].
  2: { apply evidence_within_cap_Err in Ha. by eexists. }
  apply evidence_within_cap_Ok in Ha as [-> _].
  set (a := if (evidence_size (mkEvidence (artefact e) []) <=? cap)%N then artefact e else None). 
  set (within := λ count, evidence_within_cap (with_prefix a (pointers_utf16 e) count) cap).
  assert (length (pointers_utf16 e) = length (verification_pointers e)) as Hlen.
  { apply Permutation_length, sort_by_Permutation. }
  set (total := length (pointers_utf16 e)) in *.
  pose proof (prefix_search_spec (total + 1) within 0 (total + 1) ltac:(lia) ltac:(lia)) as Hs.
  destruct (prefix_search _ _ _ _) as [[n m]|err]; cbn [mbind result_bind fst].
  2: { destruct Hs as (c & _ & Hc). apply evidence_within_cap_Err in Hc. by eexists. }
  destruct Hs as (-> & _ & Hn & Hfits & Hmany). eexists n, _. split; [|by split].
  assert ((n = 0 ∨ (evidence_size (with_prefix a (pointers_utf16 e) n) <= cap)%N) ∧
    (n = total ∨ (cap < evidence_size (with_prefix a (pointers_utf16 e) (S n)))%N)) as [H1 H2].
  { split.
    - destruct Hfits as [->|Hw]; [by left|right]. apply evidence_within_cap_Ok in Hw as [Hw _].
      symmetry in Hw. by b2p.
    - destruct Hmany as [?|Hw]; [left; lia|right]. apply evidence_within_cap_Ok in Hw as [Hw _].
      symmetry in Hw. by b2p. }
  unfold degraded_to. fold a. rewrite <-Hlen. split_and!; try done; [lia|].
  intros Hmono m Hm. destruct H2 as [->|H2]; [lia|].
  specialize (Hmono (S n) m ltac:(lia)). lia.
Qed.
End evidence_facts.

(** ** Messages *)

Lemma boundary_below_spec s n :
  boundary_below s n ≤ n ∧
  (boundary_below s n = 0 ∨ is_char_boundary s (boundary_below s n) = true) ∧
  ∀ m, boundary_below s n < m ≤ n → is_char_boundary s m = false.
Proof.
  induction n as [|n IH]; cbn [boundary_below].
  - destruct (is_char_boundary s 0); split_and!; auto; lia.
  - destruct (is_char_boundary s (S n)) eqn:Hb; [split_and!; auto; lia|].
    destruct IH as (? & ? & Hm). split_and!; [lia|done|]. intros m Hlt.
    destruct (decide (m = S n)) as [->|]; [done|]. apply Hm. lia.
Qed.

(** No C0 control and no DEL. *)
Definition printable : string → bool := all_bytes (λ c, negb (in_range 0 31 c || in_range 127 127 c)).

Lemma strip_controls_printable s : printable (strip_controls s) = true.
Proof.
  remember (String.length s) as n eqn:Hn. assert (String.length s ≤ n)%nat as Hle by lia. clear Hn.
  revert s Hle. induction n as [|n IH]; intros s Hle; (destruct s as [|c s1]; [done|]);
    cbn in Hle; [lia|].
  cbn [strip_controls]. destruct (in_range 0 31 c || in_range 127 127 c) eqn:Hc; [apply IH; lia|].
  destruct s1 as [|d s2]; [cbn; by rewrite Hc|].
  destruct (in_range 194 194 c && in_range 128 159 d); [apply IH; cbn in Hle; lia|].
  unfold printable. cbn [all_bytes]. rewrite Hc. apply IH. cbn in *. lia.
Qed.

Lemma printable_app a b : printable (a +:+ b) = printable a && printable b.
Proof. apply all_bytes_app. Qed.

(** The detail shown in a runtime error's message is bounded. It never
    exceeds 256 bytes and carries no control byte; short details are kept
    whole, and a long one is cut at the last character boundary that
    leaves room for the ellipsis. The verdict itself is a denial with the
    error's reserved reason. *)
Theorem runtime_error_bounded `{AgentHooksLaws} detail :
  String.length (bounded_detail detail) ≤ 256 ∧
  printable (bounded_detail detail) = true ∧
  (String.length (strip_controls detail) ≤ 256 → bounded_detail detail = strip_controls detail) ∧
  (256 < String.length (strip_controls detail) →
    ∃ cut, bounded_detail detail = str_take cut (strip_controls detail) +:+ "..." ∧ cut ≤ 253 ∧
      (cut = 0 ∨ is_char_boundary (strip_controls detail) cut = true) ∧
      ∀ m, cut < m ≤ 253 → is_char_boundary (strip_controls detail) m = false) ∧
  ∀ e : RuntimeError, ∃ message,
    runtime_error_verdict e =
      mkVerdict Deny (Some (reason e)) (Some message) [] None None None [] ∧
    String.length message ≤ 304.
Proof.
  assert (∀ d, String.length (bounded_detail d) ≤ 256) as Hlen.
  { intros d. unfold bounded_detail, MAX_RUNTIME_ERROR_DETAIL_BYTES.
    destruct (Nat.leb_spec (String.length (strip_controls d)) 256); [done|].
    rewrite str_length_app. pose proof (str_take_length (boundary_below (strip_controls d) (256 - 3)) (strip_controls d)).
    pose proof (boundary_below_spec (strip_controls d) (256 - 3)) as [? _]. cbn [String.length]. lia. }
  split_and!; [apply Hlen| | | |].
  - unfold bounded_detail. destruct (_ <=? _); [apply strip_controls_printable|].
    rewrite printable_app, andb_true_r.
    destruct (str_take_prefix (boundary_below (strip_controls detail) (MAX_RUNTIME_ERROR_DETAIL_BYTES - 3))
      (strip_controls detail)) as [r Hr].
    pose proof (strip_controls_printable detail) as Hp. rewrite Hr, printable_app in Hp. by b2p.
  - intros Hs. unfold bounded_detail, MAX_RUNTIME_ERROR_DETAIL_BYTES. by apply Nat.leb_le in Hs as ->.
  - intros Hs. unfold bounded_detail, MAX_RUNTIME_ERROR_DETAIL_BYTES. apply Nat.leb_gt in Hs as ->.
    eexists. split; [done|]. apply (boundary_below_spec (strip_controls detail) 253).
  - intros e. unfold runtime_error_verdict. rewrite verdict_allow_bare. cbn [v_warnings v_approval
      v_transform v_evidence v_result_labels bare_verdict].
    eexists. split; [reflexivity|].
    destruct e; try (cbn; lia). destruct (negb (str_is_empty _)); [|cbn; lia].
    rewrite str_length_app. specialize (Hlen detail0). cbn. lia.
Qed.

(** ** Samples and witnesses *)

Section output_samples.
#[local] Existing Instance demo_hooks.
#[local] Existing Instance demo_sha.

Definition sample_warn : JsonValue :=
  JObject [("decision", JString "warn"); ("reason", JString "pii")].

Definition sample_warn_verdict : Verdict :=
  mkVerdict Allow (Some "pii") None [mkWarning (Some "pii") None] None None None [].

Example sample_warn_normalizes : normalize_policy_output sample_warn = Ok sample_warn_verdict.
Proof. vm_compute. reflexivity. Qed.

Definition sample_rewrite : JsonValue :=
  JObject [("decision", JString "transform");
    ("transform", JObject [("path", JString "$target.text"); ("value", JNull)])].

Example sample_forged_refused :
  normalize_policy_output
    (JObject [("decision", JString "allow"); ("reason", JString "host_error:x")]) =
  Err (PolicyOutputInvalid "policy reasons must not use the reserved host_error:* prefix").
Proof. vm_compute. reflexivity. Qed.

Lemma normalize_intents_witness :
  ∃ name, bt_get "decision" [("decision", JString "warn"); ("reason", JString "pii")] =
      Some (JString name) ∧
    decision_of_name name = Some Allow.
Proof.
  destruct (normalize_intents sample_warn sample_warn_verdict) as
    (object & name & Heq & Hname & _ & Hd & _); [vm_compute; reflexivity|].
  injection Heq as <-. exists name. split; [exact Hname|exact Hd].
Defined.

Lemma normalized_shape_valid_witness :
  verdict_shape_is_invalid
    (mkVerdict Rewrite None None [] None (Some (mkTransform "$target.text" JNull)) None []) = false.
Proof. apply (normalized_shape_valid sample_rewrite). vm_compute. reflexivity. Defined.

Lemma runtime_error_bounded_witness :
  String.length (bounded_detail "classifier: timed out") ≤ 256 ∧
  v_reason (runtime_error_verdict (AnnotationFailed "classifier: timed out")) =
    Some "runtime_error:annotation_failed".
Proof.
  pose proof (@runtime_error_bounded demo_hooks demo_hooks_laws "classifier: timed out")
    as (Hlen & _ & _ & _ & Hv).
  split; [exact Hlen|].
  destruct (Hv (AnnotationFailed "classifier: timed out")) as (message & Heq & _).
  rewrite Heq. reflexivity.
Defined.
End output_samples.
