(* ===== verification/Float64.v ===== *)
(** * [f64] as the engine computes with it

    A double is its bit pattern. Arithmetic is IEEE 754's, by the Standard
    Library's executable specification. *)

From Stdlib Require Import ZArith SpecFloat.
From S2P Require Import Prelude RustStd StdPath.

(** The value of a bit pattern: a sign, a significand and an exponent. *)
Definition f64_value (bits : N) : spec_float :=
  let sign := N.testbit bits 63 in
  let exponent := N.land (N.shiftr bits 52) 2047 in
  let fraction := N.land bits (N.ones 52) in
  if (exponent =? 2047)%N then if (fraction =? 0)%N then S754_infinity sign else S754_nan
  else if (exponent =? 0)%N then
    match fraction with
    | N0 => S754_zero sign
    | Npos m => S754_finite sign m (-1074)
    end
  else
    match (N.shiftl 1 52 + fraction)%N with
    | N0 => S754_zero sign
    | Npos m => S754_finite sign m (Z.of_N exponent - 1075)
    end.

Definition f64_mul (x y : spec_float) : spec_float := SFmul 53 1024 x y.

(** [m / 2^k] rounded to the nearest integer, ties to even. *)
Definition div_pow2_ties_even (m : Z) (k : Z) : Z :=
  let d := (2 ^ k)%Z in
  let q := (m / d)%Z in
  let r := (m mod d)%Z in
  if (2 * r <? d)%Z then q
  else if (d <? 2 * r)%Z then (q + 1)%Z
  else if Z.even q then q else (q + 1)%Z.

(** [f64::round_ties_even] of a finite value, as an integer; the rounded
    value is always a double again. *)
Definition round_ties_even (x : spec_float) : option Z :=
  let signed (sign : bool) (z : Z) := if sign then (- z)%Z else z in
  match x with
  | S754_zero _ => Some 0%Z
  | S754_finite sign m e =>
      Some (signed sign
        (if (0 <=? e)%Z then (Zpos m * 2 ^ e)%Z else div_pow2_ties_even (Zpos m) (- e)))
  | S754_infinity _ | S754_nan => None
  end.

(** [x] is [m / d] rounded: no integer is nearer. *)
Lemma div_pow2_nearest m k :
  (0 <= m)%Z → (0 <= k)%Z →
  (2 * Z.abs (m - 2 ^ k * div_pow2_ties_even m k) <= 2 ^ k)%Z.
Proof.
  intros Hm Hk. unfold div_pow2_ties_even. assert (0 < 2 ^ k)%Z as Hd by (by apply Z.pow_pos_nonneg).
  pose proof (Z.div_mod m (2 ^ k) ltac:(lia)) as Heq. pose proof (Z.mod_pos_bound m (2 ^ k) Hd).
  destruct (Z.ltb_spec (2 * (m mod 2 ^ k)) (2 ^ k)); [lia|].
  destruct (Z.ltb_spec (2 ^ k) (2 * (m mod 2 ^ k))); [lia|].
  destruct (Z.even (m / 2 ^ k)); lia.
Qed.

(** Half way between two integers the even one is taken. *)
Lemma div_pow2_ties m k :
  (0 <= m)%Z → (0 < k)%Z → (2 * (m mod 2 ^ k) = 2 ^ k)%Z → Z.even (div_pow2_ties_even m k) = true.
Proof.
  intros Hm Hk Htie. unfold div_pow2_ties_even. rewrite !(proj2 (Z.ltb_ge _ _)) by lia.
  destruct (Z.even (m / 2 ^ k)) eqn:He; [done|].
  rewrite Z.even_add, He. done.
Qed.

(** Comparison, [as f64] of an integer, and division. *)
Definition f64_ge (x y : spec_float) : bool :=
  match SFcompare x y with Some Gt | Some Eq => true | _ => false end.
Definition f64_gt (x y : spec_float) : bool :=
  match SFcompare x y with Some Gt => true | _ => false end.
(** The exponent field: 2047 in infinities and NaNs only. *)
Definition f64_exponent (bits : N) : N := N.land (N.shiftr bits 52) 2047.

Definition f64_of_Z (z : Z) : spec_float := binary_normalize 53 1024 z 0 false.
Definition f64_div (x y : spec_float) : spec_float := SFdiv 53 1024 x y.

(** The bit pattern of a finite value in canonical form. *)
Definition f64_bits (x : spec_float) : option N :=
  let signed (sign : bool) (n : N) := if sign then N.lor (N.shiftl 1 63) n else n in
  match x with
  | S754_zero sign => Some (signed sign 0%N)
  | S754_finite sign m e =>
      let m := Npos m in
      Some (signed sign
        (if (m <? N.shiftl 1 52)%N then m
         else N.lor (N.shiftl (Z.to_N (e + 1075)) 52) (m - N.shiftl 1 52)))
  | S754_infinity _ | S754_nan => None
  end.

(** [m * 10^e], rounded once to the nearest double, ties to even: below
    one, enough bits of the quotient are kept for the last one to stand for
    the rest. *)
Definition f64_of_decimal (negative : bool) (m e : Z) : spec_float :=
  let signed (z : Z) := if negative then (- z)%Z else z in
  if (m =? 0)%Z then S754_zero negative
  else if (0 <=? e)%Z then binary_normalize 53 1024 (signed (m * 10 ^ e)%Z) 0 negative
  else
    let d := (10 ^ (- e))%Z in
    let s := Z.max 0 (Z.log2 d + 56 - Z.log2 m) in
    let q := (m * 2 ^ s / d)%Z in
    let sticky := if (m * 2 ^ s mod d =? 0)%Z then 0%Z else 1%Z in
    binary_normalize 53 1024 (signed (2 * q + sticky)%Z) (- s - 1) negative.

Definition f64_is_finite (x : spec_float) : bool :=
  match x with S754_zero _ | S754_finite _ _ _ => true | _ => false end.

Fixpoint take_digits (s : string) : string * string :=
  match s with
  | String c rest =>
      if is_ascii_digit c then let '(digits, rest) := take_digits rest in (String c digits, rest)
      else ("", s)
  | EmptyString => ("", "")
  end.
Fixpoint digits_value (acc : Z) (s : string) : Z :=
  match s with EmptyString => acc | String c s => digits_value (acc * 10 + Z.of_N (digit_value c)) s end.

Definition split_sign (s : string) : bool * string :=
  match strip_prefix "-" s with
  | Some rest => (true, rest)
  | None => (false, default s (strip_prefix "+" s))
  end.

(** The exponent after the digits: nothing, or [e], a sign and digits. *)
Definition parse_exponent (s : string) : option Z :=
  match s with
  | EmptyString => Some 0%Z
  | String c rest =>
      if bool_decide (ascii_lowercase (String c "") = "e") then
        let '(negative, digits) := split_sign rest in
        if str_is_empty digits || negb (all_bytes is_ascii_digit digits) then None
        else Some (if negative then (- digits_value 0 digits)%Z else digits_value 0 digits)
      else None
  end.

(** [str::parse::<f64>]. *)
Definition parse_f64 (s : string) : option spec_float :=
  let '(negative, body) := split_sign s in
  if eq_ignore_ascii_case body "inf" || eq_ignore_ascii_case body "infinity"
  then Some (S754_infinity negative)
  else if eq_ignore_ascii_case body "nan" then Some S754_nan
  else
    let '(whole, rest) := take_digits body in
    let '(fraction, rest) :=
      match strip_prefix "." rest with Some rest => take_digits rest | None => ("", rest) end in
    if str_is_empty whole && str_is_empty fraction then None
    else
      e ← parse_exponent rest;
      Some (f64_of_decimal negative (digits_value 0 (whole +:+ fraction))
        (e - Z.of_nat (String.length fraction))).

Example parse_f64_samples :
  (parse_f64 "0.1" ≫= f64_bits) = Some 4591870180066957722%N ∧
  (parse_f64 "-1.5e3" ≫= f64_bits) = Some 13877683922067783680%N ∧
  (parse_f64 "5e-324" ≫= f64_bits) = Some 1%N ∧
  (parse_f64 "2e-324" ≫= f64_bits) = Some 0%N ∧
  (parse_f64 "1.7976931348623157e308" ≫= f64_bits) = Some 9218868437227405311%N ∧
  parse_f64 "1e309" = Some (S754_infinity false) ∧ parse_f64 "." = None ∧ parse_f64 "1e" = None ∧
  (parse_f64 "1." ≫= f64_bits) = Some 4607182418800017408%N ∧ parse_f64 "0x10" = None.
Proof. vm_compute. repeat split; reflexivity. Qed.

(** [{:.3}]: the exact value rounded to three digits, ties to even. *)
Definition fmt_fixed3 (x : spec_float) : string :=
  let text (sign : bool) (thousandths : Z) :=
    let n := Z.to_N thousandths in
    (if sign then "-" else "") +:+ fmt_N (n / 1000) +:+ "." +:+
    String (digit_char (n / 100 mod 10)) (String (digit_char (n / 10 mod 10))
      (String (digit_char (n mod 10)) "")) in
  match x with
  | S754_zero sign => text sign 0%Z
  | S754_finite sign m e =>
      text sign (if (0 <=? e)%Z then (Zpos m * 2 ^ e * 1000)%Z
                 else div_pow2_ties_even (Zpos m * 1000) (- e))
  | S754_infinity sign => if sign then "-inf" else "inf"
  | S754_nan => "NaN"
  end.

Example f64_more_samples :
  f64_bits (f64_value 4604930618986332160) = Some 4604930618986332160%N ∧
  f64_bits (f64_value 9223372036854775809) = Some 9223372036854775809%N ∧
  f64_bits (f64_div (f64_of_Z 2) (f64_of_Z 6)) = Some 4599676419421066581%N ∧
  fmt_fixed3 (f64_div (f64_of_Z 4) (f64_of_Z 6)) = "0.667" ∧
  fmt_fixed3 (f64_value 4602678819172646912) = "0.500" ∧
  f64_ge (f64_of_Z 1) (f64_div (f64_of_Z 2) (f64_of_Z 6)) = true.
Proof. vm_compute. auto 10. Qed.

Example f64_samples :
  f64_value 4607182418800017408 = S754_finite false 4503599627370496 (-52) ∧
  round_ties_even (f64_value 4612811918334230528) = Some 2%Z ∧
  round_ties_even (f64_value 4615063718147915776) = Some 4%Z ∧
  round_ties_even (f64_value 9218868437227405312) = None.
Proof. vm_compute. auto. Qed.

(** A finite double is its bits. *)
Lemma testbit_above n b i : (n < 2 ^ b)%N → (b <= i)%N → N.testbit n i = false.
Proof.
  intros Hn Hi. destruct (decide (n = 0%N)) as [->|Hz]; [apply N.bits_0|].
  apply N.bits_above_log2. assert (N.log2 n < b)%N; [|lia]. apply N.log2_lt_pow2; lia.
Qed.

Lemma f64_fields bits sign (exponent fraction : N) :
  (bits < 2 ^ 64)%N → sign = N.testbit bits 63 → exponent = f64_exponent bits →
  fraction = N.land bits (N.ones 52) →
  bits = N.lor (if sign then N.shiftl 1 63 else 0) (N.lor (N.shiftl exponent 52) fraction).
Proof.
  intros Hb -> -> ->. apply N.bits_inj. intros i. unfold f64_exponent. rewrite !N.lor_spec.
  rewrite N.land_spec. change 2047%N with (N.ones 11).
  assert (N.testbit (if N.testbit bits 63 then N.shiftl 1 63 else 0) i = N.testbit bits 63 && (i =? 63)%N) as ->.
  { destruct (N.testbit bits 63); [|apply N.bits_0]. rewrite N.shiftl_1_l, N.pow2_bits_eqb. by rewrite N.eqb_sym. }
  destruct (N.lt_ge_cases i 52) as [Hlo|Hlo].
  - rewrite N.shiftl_spec_low by done. rewrite N.ones_spec_low by done.
    rewrite (proj2 (N.eqb_neq i 63)) by lia. by rewrite andb_false_r, andb_true_r.
  - rewrite N.shiftl_spec_high' by done. rewrite (N.ones_spec_high 52) by done.
    rewrite andb_false_r, orb_false_r, N.land_spec, N.shiftr_spec'.
    replace (i - 52 + 52)%N with i by lia. destruct (N.lt_ge_cases i 63) as [Hmid|Hmid].
    + rewrite N.ones_spec_low by lia. rewrite (proj2 (N.eqb_neq i 63)) by lia. by rewrite andb_false_r, andb_true_r.
    + rewrite N.ones_spec_high by lia. rewrite andb_false_r, orb_false_r.
      destruct (N.eqb_spec i 63) as [->|Hne]; [by rewrite andb_true_r|]. rewrite andb_false_r.
      apply (testbit_above _ 64); [done|lia].
Qed.

Lemma f64_bits_value bits :
  (bits < 2 ^ 64)%N → f64_exponent bits ≠ 2047%N → f64_bits (f64_value bits) = Some bits.
Proof.
  intros Hb He. pose proof (f64_fields bits _ _ _ Hb eq_refl eq_refl eq_refl) as Hf.
  unfold f64_value. fold (f64_exponent bits). rewrite (proj2 (N.eqb_neq _ _) He).
  set (sign := N.testbit bits 63) in *. set (fraction := N.land bits (N.ones 52)) in *.
  assert (fraction < 2 ^ 52)%N as Hfr by (unfold fraction; rewrite N.land_ones; apply N.mod_lt; done).
  destruct (N.eqb_spec (f64_exponent bits) 0) as [Hz|Hz].
  - rewrite Hz in Hf. rewrite N.shiftl_0_l, N.lor_0_l in Hf. unfold f64_bits.
    destruct fraction as [|m]; [f_equal; rewrite Hf; by destruct sign|].
    rewrite (proj2 (N.ltb_lt _ _)) by exact Hfr. f_equal; etrans; [|symmetry; exact Hf]. by destruct sign; [|rewrite N.lor_0_l].
  - destruct (N.shiftl 1 52 + fraction)%N as [|m] eqn:Hm; [exfalso; revert Hm; rewrite N.shiftl_1_l; lia|].
    unfold f64_bits. rewrite <- Hm. rewrite (proj2 (N.ltb_ge _ _)) by (rewrite N.shiftl_1_l; lia).
    replace (Z.to_N (Z.of_N (f64_exponent bits) - 1075 + 1075)) with (f64_exponent bits) by lia.
    replace (N.shiftl 1 52 + fraction - N.shiftl 1 52)%N with fraction by lia.
    f_equal; etrans; [|symmetry; exact Hf]. by destruct sign; [|rewrite N.lor_0_l].
Qed.

(** ** Rounding *)

(** [k] is the integer nearest to [n / d], the even one half way. *)
Definition nearest_even (n d k : Z) : Prop :=
  (2 * Z.abs (n - k * d) <= d ∧ (2 * Z.abs (n - k * d) = d → Z.even k = true))%Z.

Lemma nearest_even_unique n d k k' : (0 < d)%Z → nearest_even n d k → nearest_even n d k' → k = k'.
Proof.
  intros Hd [Hk Heven] [Hk' Heven']. destruct (Z.lt_trichotomy k k') as [Hlt|[->|Hlt]]; [|done|]; exfalso.
  - assert (k' = k + 1)%Z as -> by nia. rewrite Z.even_add, Heven in Heven' by lia. cbn in Heven'. by specialize (Heven' ltac:(lia)).
  - assert (k = k' + 1)%Z as -> by nia. rewrite Z.even_add, Heven' in Heven by lia. cbn in Heven. by specialize (Heven ltac:(lia)).
Qed.

(** It is a matter of the quotient. *)
Lemma nearest_even_ratio n d n' d' k :
  (0 < d)%Z → (0 < d')%Z → (n * d' = n' * d)%Z → nearest_even n d k → nearest_even n' d' k.
Proof.
  intros Hd Hd' Heq [Hk Heven].
  assert (Z.abs (n' - k * d') * d = Z.abs (n - k * d) * d')%Z as Habs.
  { rewrite <- (Z.abs_eq d) at 1 by lia. rewrite <- (Z.abs_eq d') at 2 by lia. rewrite <- !Z.abs_mul. f_equal. nia. }
  split; [nia|]. intros Htie. apply Heven. nia.
Qed.

Lemma div_pow2_nearest_even m k :
  (0 <= m)%Z → (0 <= k)%Z → nearest_even m (2 ^ k) (div_pow2_ties_even m k).
Proof.
  intros Hm Hk. pose proof (div_pow2_nearest m k Hm Hk) as Hnear. rewrite (Z.mul_comm (2 ^ k)) in Hnear.
  split; [exact Hnear|]. intros Htie. destruct (Z.eq_dec k 0%Z) as [->|Hz]; [change (2 ^ 0)%Z with 1%Z in Htie; lia|].
  apply div_pow2_ties; [done|lia|]. revert Htie. unfold div_pow2_ties_even.
  assert (0 < 2 ^ k)%Z as Hd by (by apply Z.pow_pos_nonneg).
  pose proof (Z.div_mod m (2 ^ k) ltac:(lia)) as Heq. pose proof (Z.mod_pos_bound m (2 ^ k) Hd).
  destruct (Z.ltb_spec (2 * (m mod 2 ^ k)) (2 ^ k)); [nia|].
  destruct (Z.ltb_spec (2 ^ k) (2 * (m mod 2 ^ k))); [nia|]. lia.
Qed.

(** The bits that were shifted out of [m], as the last of them and whether
    any before it was set. *)
Definition shifted (m n : Z) (mrs : shr_record) : Prop :=
  (shr_m mrs = m / 2 ^ n ∧
   match shr_r mrs, shr_s mrs with
   | false, false => m mod 2 ^ n = 0
   | false, true => 0 < m mod 2 ^ n ∧ 2 * (m mod 2 ^ n) < 2 ^ n
   | true, false => 2 * (m mod 2 ^ n) = 2 ^ n
   | true, true => 2 ^ n < 2 * (m mod 2 ^ n)
   end)%Z.

Lemma shr_1_halves m r s :
  (0 <= m)%Z → shr_1 {| shr_m := m; shr_r := r; shr_s := s |} =
    {| shr_m := m / 2; shr_r := Z.odd m; shr_s := r || s |}.
Proof.
  intros Hm. destruct m as [|[p|p|]|p]; try done; cbn; f_equal.
  - rewrite Pos2Z.inj_xI. by rewrite Z.mul_comm, Z.div_add_l.
  - rewrite Pos2Z.inj_xO. by rewrite Z.mul_comm, Z.div_mul.
Qed.

Lemma shifted_once m n mrs : (0 <= m)%Z → (0 <= n)%Z → shifted m n mrs → shifted m (n + 1) (shr_1 mrs).
Proof.
  intros Hm Hn [Hq Hlost]. destruct mrs as [q r s]. cbn in Hq, Hlost.
  assert (0 < 2 ^ n)%Z as Hd by (by apply Z.pow_pos_nonneg).
  assert (0 <= q)%Z by (subst q; by apply Z.div_pos). rewrite shr_1_halves by done.
  unfold shifted. cbn. rewrite (Z.pow_add_r 2 n 1) by lia. change (2 ^ 1)%Z with 2%Z.
  pose proof (Z.mod_pos_bound m (2 ^ n) Hd). pose proof (Z.div_mod m (2 ^ n) ltac:(lia)) as Hm'. rewrite <- Hq in Hm'.
  pose proof (Zdiv2_odd_eqn q) as Hodd. rewrite Z.div2_div in Hodd.
  assert (m / (2 ^ n * 2) = q / 2)%Z as Hdiv by (subst q; by rewrite <- Z.div_div by lia).
  assert (m mod (2 ^ n * 2) = (if Z.odd q then 2 ^ n else 0) + m mod 2 ^ n)%Z as ->.
  { rewrite Z.mod_eq by lia. rewrite Hdiv. destruct (Z.odd q); nia. }
  rewrite Hdiv. split; [done|]. destruct (Z.odd q), r, s; cbn in *; lia.
Qed.

Lemma shifted_iter m n p mrs :
  (0 <= m)%Z → (0 <= n)%Z → shifted m n mrs → shifted m (n + Zpos p) (SpecFloat.iter_pos shr_1 p mrs).
Proof.
  intros Hm. revert n mrs. induction p as [p IH|p IH|]; intros n mrs Hn Hs; cbn [iter_pos].
  - replace (n + Zpos p~1)%Z with (n + 1 + Zpos p + Zpos p)%Z by lia.
    apply IH; [lia|]. apply IH; [lia|]. by apply shifted_once.
  - replace (n + Zpos p~0)%Z with (n + Zpos p + Zpos p)%Z by lia. apply IH; [lia|]. by apply IH.
  - by apply shifted_once.
Qed.

Lemma shr_shifted m e n :
  (0 <= m)%Z → (0 <= n)%Z →
  (shr {| shr_m := m; shr_r := false; shr_s := false |} e n).2 = (e + n)%Z ∧
  shifted m n (shr {| shr_m := m; shr_r := false; shr_s := false |} e n).1.
Proof.
  intros Hm Hn. assert (shifted m 0 {| shr_m := m; shr_r := false; shr_s := false |}) as H0.
  { split; cbn; [by rewrite Z.div_1_r|by rewrite Z.mod_1_r]. }
  destruct n as [|p|p]; [|split; [done|]; exact (shifted_iter m 0 p _ Hm ltac:(lia) H0)|lia].
  split; [cbn; lia|done].
Qed.

Lemma shifted_rounds m n mrs :
  (0 <= n)%Z → shifted m n mrs →
  round_nearest_even (shr_m mrs) (loc_of_shr_record mrs) = div_pow2_ties_even m n.
Proof.
  intros Hn [Hq Hlost]. assert (0 < 2 ^ n)%Z by (by apply Z.pow_pos_nonneg). destruct mrs as [q r s]. cbn in *. subst q. unfold div_pow2_ties_even.
  destruct (Z.ltb_spec (2 * (m mod 2 ^ n)) (2 ^ n)), (Z.ltb_spec (2 ^ n) (2 * (m mod 2 ^ n)));
    destruct r, s; cbn; try done; try lia.
Qed.

Lemma digits2_log2 p : Zpos (digits2_pos p) = (Z.log2 (Zpos p) + 1)%Z.
Proof.
  induction p as [p IH|p IH|]; [..|done]; cbn [digits2_pos]; rewrite Pos2Z.inj_succ, IH.
  - rewrite Pos2Z.inj_xI, Z.log2_succ_double by done. lia.
  - rewrite Pos2Z.inj_xO, Z.log2_double by done. lia.
Qed.

(** The bits of [m] beyond the 53 a double holds, and [m] without them. *)
Definition excess (m : Z) : Z := Z.max 0 (Z.log2 m - 52).
Definition rounded53 (m : Z) : Z := div_pow2_ties_even m (excess m).

Lemma rounded53_bounds m : (0 < m)%Z → (0 < rounded53 m <= 2 ^ 53)%Z.
Proof.
  intros Hm. unfold rounded53. destruct (Z.log2_spec m Hm) as [Hlo Hhi].
  assert (0 <= excess m)%Z as Hexcess by (unfold excess; lia).
  destruct (div_pow2_nearest_even m (excess m) ltac:(lia) Hexcess) as [Hnear _]. revert Hnear.
  generalize (div_pow2_ties_even m (excess m)). intros k Hnear.
  assert (0 < 2 ^ excess m)%Z as Hpos by (by apply Z.pow_pos_nonneg).
  unfold excess in *. destruct (Z.max_spec 0 (Z.log2 m - 52)) as [[Hlt Hmax]|[Hge Hmax]]; rewrite Hmax in *.
  - replace (Z.succ (Z.log2 m)) with (53 + (Z.log2 m - 52))%Z in Hhi by lia. rewrite Z.pow_add_r in Hhi by lia.
    replace (2 ^ Z.log2 m)%Z with (2 ^ 52 * 2 ^ (Z.log2 m - 52))%Z in Hlo by (rewrite <- Z.pow_add_r by lia; f_equal; lia).
    generalize dependent (2 ^ (Z.log2 m - 52))%Z. intros u. nia.
  - rewrite Z.pow_0_r in *. assert (2 ^ Z.succ (Z.log2 m) <= 2 ^ 53)%Z by (apply Z.pow_le_mono_r; lia). lia.
Qed.

(** [binary_round_aux] of an exact product: its first 53 bits, rounded, and
    perhaps one carried. *)
Lemma round_aux_value sign m e :
  (-1074 <= e)%Z →
  ∃ m2 carry, (rounded53 (Zpos m) = Zpos m2 * 2 ^ carry ∧ 0 <= carry)%Z ∧
    let e2 := (e + excess (Zpos m) + carry)%Z in
    binary_round_aux 53 1024 sign (Zpos m) e loc_Exact =
      if (e2 <=? 971)%Z then S754_finite sign m2 e2 else S754_infinity sign.
Proof.
  intros He. unfold binary_round_aux, shr_fexp. cbn [shr_record_of_loc Zdigits2]. rewrite digits2_log2.
  assert (∀ n z, (0 <= z)%Z → (shr {| shr_m := z; shr_r := false; shr_s := false |} e n) =
    shr {| shr_m := z; shr_r := false; shr_s := false |} e (Z.max 0 n)) as Hneg.
  { intros n z _. by destruct n. }
  rewrite Hneg by done.
  replace (Z.max 0 (fexp 53 1024 (Z.log2 (Zpos m) + 1 + e) - e)) with (excess (Zpos m))
    by (unfold excess, fexp, emin; lia).
  assert (0 <= excess (Zpos m))%Z as Hexcess by (unfold excess; lia).
  destruct (shr_shifted (Zpos m) e (excess (Zpos m)) ltac:(lia) Hexcess) as [He' Hshift].
  destruct (shr _ _ _) as [mrs e']. cbn in He', Hshift. subst e'. rewrite (shifted_rounds _ _ _ Hexcess Hshift).
  change (div_pow2_ties_even (Zpos m) (excess (Zpos m))) with (rounded53 (Zpos m)).
  pose proof (rounded53_bounds (Zpos m) ltac:(lia)) as [Hpos Hle].
  destruct (rounded53 (Zpos m)) as [|m1|m1] eqn:Hm1; [lia| |lia]. cbn [Zdigits2]. rewrite digits2_log2.
  set (g := (e + excess (Zpos m))%Z).
  destruct (decide (m1 = 2 ^ 53)%positive) as [->|Hne].
  - exists (2 ^ 52)%positive, 1%Z. split; [done|]. cbn zeta.
    replace (fexp 53 1024 (Z.log2 (Zpos (2 ^ 53)) + 1 + g) - g)%Z with 1%Z; [done|].
    change (Z.log2 (Zpos (2 ^ 53))) with 53%Z. unfold fexp, emin, g. lia.
  - exists m1, 0%Z. split; [split; [by rewrite Z.mul_1_r|done]|]. cbn zeta.
    assert (Z.log2 (Zpos m1) < 53)%Z as Hlog.
    { apply Z.log2_lt_pow2; [lia|]. assert (Zpos m1 ≠ 2 ^ 53)%Z; [|lia]. intros Heq. apply Hne. by injection Heq. }
    assert (fexp 53 1024 (Z.log2 (Zpos m1) + 1 + g) - g <= 0)%Z as Hn by (unfold fexp, emin, g; lia).
    destruct (fexp _ _ _ - g)%Z as [|p|p]; [..|lia|]; cbn; by rewrite Z.add_0_r.
Qed.
