(* ===== verification/Cedar.v ===== *)
(** * Cedar requests and advice: [engine/src/cedar.rs]

    The request mapping both dispatchers share, the translation of advice
    to a verdict, and the deterministic test dispatcher. *)

From S2P Require Import Prelude OrdMap RustStd Json Errors AgentHooks Constants Float64.
From S2P Require Import Pins StdPath Policy PolicyOutput.

Record CedarEntity := mkEntity { entity_kind : string; entity_id : string }.

#[export] Instance CedarEntity_eq_dec : EqDecision CedarEntity.
Proof. solve_decision. Defined.

Record CedarRequest := mkCedarRequest {
  principal : CedarEntity;
  action : CedarEntity;
  resource : CedarEntity;
  context : JsonValue }.

Definition dquote_char : string := String (byte_of 34) "".

Definition as_display (e : CedarEntity) : string :=
  entity_kind e +:+ "::" +:+ dquote_char +:+ entity_id e +:+ dquote_char.

Definition agent_id (object : JsonMap) : option string :=
  agent ← bt_get "agent" object; members ← as_object agent; id ← bt_get "id" members; as_str id.

Definition principal_id (snapshot : JsonMap) : option string :=
  match agent_id snapshot with
  | Some id => Some id
  | None => envelope ← bt_get "envelope" snapshot; object ← as_object envelope; agent_id object
  end.

(** ** Numbers *)

Definition DECIMAL_SCALE : SpecFloat.spec_float := SpecFloat.S754_finite false 10000 0.

(** [{:04}] of a number below ten thousand. *)
Definition pad4 (n : N) : string :=
  String (digit_char (n / 1000)) (String (digit_char (n / 100 mod 10))
    (String (digit_char (n / 10 mod 10)) (String (digit_char (n mod 10)) ""))).

Definition decimal_text (scaled : Z) : string :=
  let sign := if (scaled <? 0)%Z then "-" else "" in
  let magnitude := Z.abs_N scaled in
  sign +:+ fmt_N (magnitude / 10000) +:+ "." +:+ pad4 (magnitude mod 10000).

Definition float_to_decimal (bits : N) : option string :=
  scaled ← round_ties_even (f64_mul (f64_value bits) DECIMAL_SCALE);
  if (2 ^ 63 <=? Z.abs scaled)%Z then None else Some (decimal_text scaled).

Definition invocation_failed (detail : string) : RuntimeError := PolicyInvocationFailed detail.

Definition decimal_extension (decimal : string) : JsonValue :=
  JObject [("__extn", JObject [("arg", JString decimal); ("fn", JString "decimal")])].

Definition number_to_cedar (number : Number) (path : string) : result RuntimeError JsonValue :=
  match number with
  | PosInt n =>
      if (n <=? 9223372036854775807)%N then Ok (JNumber (PosInt n))
      else Err (invocation_failed ("cedar context value at '" +:+ path +:+
        "' is outside the Cedar Long range"))
  | NegInt z => Ok (JNumber (NegInt z))
  | Float bits =>
      decimal ← ok_or (float_to_decimal bits) (invocation_failed ("cedar context value at '" +:+ path +:+
        "' is not a Long and is outside the Cedar decimal range"));
      Ok (decimal_extension decimal)
  end.

(** ** Values *)

Definition CEDAR_RESERVED_KEYS : list string := ["__entity"; "__extn"; "__expr"].

(** [translate_record]: [rec] is [to_cedar_value]. *)
Definition translate_members (rec : JsonValue → string → string → result RuntimeError (option JsonValue))
  (members : JsonMap) (path : string) : result RuntimeError JsonMap :=
  fold_result (λ (out : JsonMap) (e : string * JsonValue),
    translated ← rec e.2 (path +:+ "." +:+ e.1) e.1;
    Ok match translated with Some v => bt_insert e.1 v out | None => out end) [] members.

Fixpoint to_cedar_value (value : JsonValue) (path key : string)
  : result RuntimeError (option JsonValue) :=
  if bool_decide (key ∈ CEDAR_RESERVED_KEYS) then
    Err (invocation_failed ("cedar context key '" +:+ path +:+ "' is reserved by the Cedar JSON format"))
  else
    match value with
    | JNull => Ok None
    | JBool _ | JString _ => Ok (Some value)
    | JNumber number => v ← number_to_cedar number path; Ok (Some v)
    | JArray items =>
        out ← fold_result (λ (acc : list JsonValue * N) item,
          let item_path := path +:+ "[" +:+ fmt_N acc.2 +:+ "]" in
          found ← to_cedar_value item item_path "";
          translated ← ok_or found (invocation_failed ("cedar context value at '" +:+ item_path +:+
            "' is a null set element"));
          Ok (acc.1 ++ [translated], (acc.2 + 1)%N)) ([], 0%N) items;
        Ok (Some (JArray out.1))
    | JObject members => out ← translate_members to_cedar_value members path; Ok (Some (JObject out))
    end.

Definition translate_record (members : JsonMap) (path : string) : result RuntimeError JsonMap :=
  translate_members to_cedar_value members path.

(** ** The request *)

Definition build_cedar_context (snapshot : JsonMap) (annotations : option JsonValue)
  : result RuntimeError JsonValue :=
  if bt_contains pi_ANNOTATIONS snapshot then
    Err (invocation_failed ("cedar context key 'context." +:+ pi_ANNOTATIONS +:+
      "' is reserved for the policy input annotations"))
  else
    context ← translate_record snapshot "context";
    annotations ←
      match annotations with
      | None | Some JNull => Ok []
      | Some (JObject members) => translate_record members "context.annotations"
      | Some _ => Err (invocation_failed ("cedar context key 'context." +:+ pi_ANNOTATIONS +:+
          "' must be a record of annotator outputs"))
      end;
    Ok (JObject (bt_insert pi_ANNOTATIONS (JObject annotations) context)).

Definition UNSPECIFIED_POLICY_TARGET_KIND : string := "unspecified".

Definition resource_entity (policy_input : JsonMap) : CedarEntity :=
  match tool ← bt_get pi_TOOL policy_input; members ← as_object tool;
        name ← bt_get "name" members; as_str name with
  | Some name => mkEntity "Tool" name
  | None =>
      mkEntity "PolicyTarget" (default UNSPECIFIED_POLICY_TARGET_KIND
        (target ← bt_get pi_POLICY_TARGET policy_input; members ← as_object target;
         kind ← bt_get pi_KIND members; as_str kind))
  end.

Definition build_cedar_request (policy_input : JsonValue) : result RuntimeError CedarRequest :=
  object ← ok_or (as_object policy_input)
    (invocation_failed "cedar dispatcher received non-object policy input");
  snapshot ← ok_or (bt_get pi_SNAPSHOT object ≫= as_object)
    (invocation_failed "cedar policy input is missing snapshot object");
  id ← ok_or (principal_id snapshot)
    (invocation_failed "cedar policy input snapshot is missing agent.id (or envelope.agent.id)");
  point ← ok_or (bt_get pi_INTERVENTION_POINT object ≫= as_str)
    (invocation_failed "cedar policy input is missing intervention_point");
  context ← build_cedar_context snapshot (bt_get pi_ANNOTATIONS object);
  Ok (mkCedarRequest (mkEntity "Agent" id) (mkEntity "Action" point) (resource_entity object) context).

(** ** Advice *)

Definition ADVICE_MEMBERS : list string := ["verdict"; "reason"; "message"; "transform"].
Definition ADVICE_TRANSFORM_MEMBERS : list string := ["path"; "value"].

(** One optional text member of the advice, copied to the verdict. *)
Definition advice_text (object : JsonMap) (key : string) (out : JsonMap) : result RuntimeError JsonMap :=
  match bt_get key object with
  | None | Some JNull => Ok out
  | Some (JString text) => Ok (bt_insert key (JString text) out)
  | Some _ => Err (PolicyOutputInvalid ("cedar advice '" +:+ key +:+ "' must be a string"))
  end.

Definition translate_advice (advice : JsonValue) : result RuntimeError JsonValue :=
  object ← ok_or (as_object advice) (PolicyOutputInvalid "cedar advice must be a JSON object");
  reject_unknown_members object ADVICE_MEMBERS "cedar advice" ;;
  verdict ← ok_or (bt_get "verdict" object ≫= as_str)
    (PolicyOutputInvalid "cedar advice is missing the required 'verdict' field");
  if negb (bool_decide (verdict ∈ ["warn"; "escalate"; "transform"])) then
    Err (PolicyOutputInvalid ("cedar advice 'verdict' must be one of warn, escalate, transform; got '" +:+
      verdict +:+ "'"))
  else
    let out := bt_insert "decision" (JString verdict) [] in
    out ← advice_text object "reason" out;
    out ← advice_text object "message" out;
    if bool_decide (verdict = "transform") then
      transform ← ok_or (bt_get "transform" object)
        (PolicyOutputInvalid "cedar advice with verdict 'transform' requires a transform object");
      members ← ok_or (as_object transform)
        (PolicyOutputInvalid "cedar advice 'transform' must be a JSON object");
      reject_unknown_members members ADVICE_TRANSFORM_MEMBERS "cedar advice 'transform'" ;;
      Ok (JObject (bt_insert "transform" transform out))
    else if bt_contains "transform" object then
      Err (PolicyOutputInvalid "cedar advice 'transform' is only permitted when verdict is 'transform'")
    else Ok (JObject out).

Definition advice_rank (decision : option string) : N :=
  match decision with
  | Some decision =>
      if decide (decision = "escalate") then 0
      else if decide (decision = "transform") then 1
      else if decide (decision = "warn") then 2 else 255
  | None => 255
  end%N.

Definition verdict_rank (verdict : JsonValue) : N := advice_rank (json_get "decision" verdict ≫= as_str).

(** [Iterator::min_by_key]: the first minimum. *)
Fixpoint min_by_key {A} (key : A → N) (l : list A) : option A :=
  match l with
  | [] => None
  | x :: l =>
      match min_by_key key l with
      | Some y => if (key x <=? key y)%N then Some x else Some y
      | None => Some x
      end
  end.

Definition most_restrictive_advice (verdicts : list JsonValue) : option JsonValue :=
  min_by_key verdict_rank verdicts.

Definition allow_verdict : JsonValue := JObject [("decision", JString "allow")].
Definition deny_verdict (reason : string) : JsonValue :=
  JObject [("decision", JString "deny"); ("reason", JString reason)].

(** ** The test dispatcher *)

Inductive TestEffect := Permit | Forbid.

#[export] Instance TestEffect_eq_dec : EqDecision TestEffect.
Proof. solve_decision. Defined.

Record TestRuleDoc := mkRuleDoc {
  rd_effect : TestEffect;
  rd_principal : option string;
  rd_action : option string;
  rd_resource : option string;
  rd_reason : option string;
  rd_advice : option JsonValue }.

Record TestRule := mkRule {
  tr_effect : TestEffect;
  tr_principal : option CedarEntity;
  tr_action : option CedarEntity;
  tr_resource : option CedarEntity;
  tr_reason : option string;
  tr_advice : option JsonValue }.

Inductive TestDecision : Type :=
  | DecideForbid (reason : string)
  | DecidePermit (advice : list JsonValue)
  | DecideNoMatch.

Definition entity_matches (pattern : option CedarEntity) (actual : CedarEntity) : bool :=
  match pattern with None => true | Some entity => bool_decide (entity = actual) end.

Definition rule_matches (rule : TestRule) (request : CedarRequest) : bool :=
  entity_matches (tr_principal rule) (principal request) &&
  entity_matches (tr_action rule) (action request) &&
  entity_matches (tr_resource rule) (resource request).

(** The loop of [decide], with [permitted] and [advice] so far. *)
Fixpoint decide_from (rules : list TestRule) (request : CedarRequest) (permitted : bool)
  (advice : list JsonValue) : TestDecision :=
  match rules with
  | [] => if permitted then DecidePermit advice else DecideNoMatch
  | rule :: rules =>
      if negb (rule_matches rule request) then decide_from rules request permitted advice
      else
        match tr_effect rule with
        | Forbid => DecideForbid (default "forbid_rule_matched" (tr_reason rule))
        | Permit =>
            decide_from rules request true
              (advice ++ match tr_advice rule with Some a => [a] | None => [] end)
        end
  end.

Definition decide_rules (rules : list TestRule) (request : CedarRequest) : TestDecision :=
  decide_from rules request false [].

(** [str::split_once("::")]. *)
Fixpoint split_once_colons (s : string) : option (string * string) :=
  match strip_prefix "::" s with
  | Some rest => Some ("", rest)
  | None =>
      match s with
      | EmptyString => None
      | String c s => (λ p : string * string, (String c p.1, p.2)) <$> split_once_colons s
      end
  end.

(** [trim_start_matches] and [trim_end_matches] of the double quote. *)
Fixpoint trim_start_quotes (s : string) : string :=
  match s with
  | String c rest => if decide (c = byte_of 34) then trim_start_quotes rest else s
  | EmptyString => ""
  end.
Fixpoint trim_end_quotes (s : string) : string :=
  match s with
  | EmptyString => ""
  | String c rest =>
      let rest := trim_end_quotes rest in
      if decide (rest = "" ∧ c = byte_of 34) then "" else String c rest
  end.

Definition parse_entity_pattern (field : string) (index : N) (text : option string)
  : result RuntimeError (option CedarEntity) :=
  let rule := "cedar test policy rule " +:+ fmt_N index +:+ " field '" +:+ field +:+ "' " in
  match text with
  | None => Ok None
  | Some value =>
      let raw := trim value in
      if str_is_empty raw || eq_ignore_ascii_case raw "any" || bool_decide (raw = "*") then Ok None
      else
        match split_once_colons raw with
        | None => Err (invocation_failed (rule +:+ "must be 'any' or 'Type::" +:+ dquote_char +:+ "id" +:+
            dquote_char +:+ "', got '" +:+ raw +:+ "'"))
        | Some (kind, rest) =>
            let id := trim_end_quotes (trim_start_quotes rest) in
            if blank kind || str_is_empty id then
              Err (invocation_failed (rule +:+ "is missing a type or id: '" +:+ raw +:+ "'"))
            else Ok (Some (mkEntity (trim kind) id))
        end
  end.

(** The derived deserializer of the test policy set. *)
Class CedarTestFormat := {
  test_policy_doc : string → result string (list TestRuleDoc) }.

Section test_dispatcher.
Context `{CedarTestFormat}.

Definition parse_rule (index : N) (rule : TestRuleDoc) : result RuntimeError TestRule :=
  p ← parse_entity_pattern "principal" index (rd_principal rule);
  a ← parse_entity_pattern "action" index (rd_action rule);
  r ← parse_entity_pattern "resource" index (rd_resource rule);
  Ok (mkRule (rd_effect rule) p a r (rd_reason rule) (rd_advice rule)).

Definition parse_test_policy_set (text : string) : result RuntimeError (list TestRule) :=
  doc ← map_err (λ err, invocation_failed
    ("cedar test dispatcher failed to parse policy_set as JSON: " +:+ err)) (test_policy_doc text);
  map_result (λ e : nat * TestRuleDoc, parse_rule (N.of_nat e.1) e.2) (zip (seq 0 (length doc)) doc).

Definition test_evaluate_cedar (invocation : CedarPolicyInvocation) : result RuntimeError JsonValue :=
  policy_set_text ← ok_or (ci_policy_set invocation) (invocation_failed
    "cedar test dispatcher requires an inline policy_set; policy_path is reserved for the builtin dispatcher");
  policy_set ← parse_test_policy_set policy_set_text;
  request ← build_cedar_request (ci_input invocation);
  match decide_rules policy_set request with
  | DecideForbid reason => Ok (deny_verdict reason)
  | DecidePermit advice =>
      verdicts ← map_result translate_advice advice;
      Ok (default allow_verdict (most_restrictive_advice verdicts))
  | DecideNoMatch => Ok (deny_verdict "no_matching_policy")
  end.

Definition test_evaluate (invocation : PreparedPolicyInvocation) : result RuntimeError JsonValue :=
  match invocation with
  | PreparedCedar invocation => test_evaluate_cedar invocation
  | other => Err (invocation_failed
      ("cedar test dispatcher only supports Cedar invocations; received " +:+
       prepared_engine_type other +:+ " invocation"))
  end.
End test_dispatcher.

Example decimal_samples :
  float_to_decimal 4609434218613702656 = Some "1.5000" ∧
  float_to_decimal 13832806255468478464 = Some "-1.5000" ∧
  float_to_decimal 4547007122018943789 = Some "0.0001" ∧
  float_to_decimal 4896094545018884096 = None.
Proof. vm_compute. auto. Qed.
