(* ===== verification/CedarFacts.v ===== *)
(** * The Cedar request is the policy input, in a closed grammar

    What a context value may be, that the translation computes it, what
    cannot occur in a context, that decimals read back, and which advice
    decides. *)

From stdpp Require Import sorting.
From S2P Require Import Prelude OrdMap RustStd Json Errors AgentHooks Constants Float64.
From S2P Require Import Pins StdPath Policy PolicyOutput Cedar.

(** ** Decimals read back *)

Fixpoint split_point (s : string) : option (string * string) :=
  match s with
  | EmptyString => None
  | String c s =>
      if decide (c = byte_of 46) then Some ("", s)
      else (λ p : string * string, (String c p.1, p.2)) <$> split_point s
  end.

(** A Cedar decimal literal with four fractional digits, in ten-thousandths. *)
Definition read_magnitude (s : string) : option Z :=
  p ← split_point s; whole ← parse_usize p.1; fraction ← parse_usize p.2;
  if decide (String.length p.2 = 4) then Some (Z.of_N (whole * 10000 + fraction)) else None.

Definition read_decimal (s : string) : option Z :=
  match strip_prefix "-" s with
  | Some rest => Z.opp <$> read_magnitude rest
  | None => read_magnitude s
  end.

Lemma split_point_digits a b :
  all_bytes is_ascii_digit a = true → split_point (a +:+ String (byte_of 46) b) = Some (a, b).
Proof.
  induction a as [|c a IH]; [done|]. cbn [all_bytes String.app split_point].
  intros [Hc Ha]%andb_true_iff. rewrite IH by done. rewrite decide_False; [done|]. by intros ->.
Qed.

Lemma pad4_parse n : (n < 10000)%N → parse_usize (pad4 n) = Some n.
Proof.
  intros Hn. unfold pad4, parse_usize.
  pose proof (N.div_mod n 10 ltac:(done)) as H1. pose proof (N.div_mod (n / 10) 10 ltac:(done)) as H2.
  pose proof (N.div_mod (n / 10 / 10) 10 ltac:(done)) as H3.
  pose proof (N.mod_lt n 10 ltac:(done)). pose proof (N.mod_lt (n / 10) 10 ltac:(done)).
  pose proof (N.mod_lt (n / 10 / 10) 10 ltac:(done)).
  replace (n / 100)%N with (n / 10 / 10)%N by (by rewrite N.Div0.div_div).
  replace (n / 1000)%N with (n / 10 / 10 / 10)%N by (by rewrite !N.Div0.div_div).
  change (str_is_empty _) with false. cbn match. unfold usize_max, u64_max.
  revert H1 H2 H3 H H0 H4. generalize (n mod 10)%N as d0, ((n / 10) mod 10)%N as d1, ((n / 10 / 10) mod 10)%N as d2.
  generalize (n / 10 / 10 / 10)%N as d3, (n / 10 / 10)%N as q2, (n / 10)%N as q1. intros.
  do 4 rewrite parse_digits_char by lia. cbn [parse_digits]. f_equal. lia.
Qed.

Lemma strip_minus_digits s : all_bytes is_ascii_digit s = true → s ≠ "" → ∀ t, strip_prefix "-" (s +:+ t) = None.
Proof.
  destruct s as [|c s]; [done|]. cbn [all_bytes]. intros [Hc _]%andb_true_iff _ t. cbn [strip_prefix String.app].
  rewrite decide_False; [done|]. by intros <-.
Qed.

Lemma read_decimal_text scaled : (Z.abs scaled < 2 ^ 63)%Z → read_decimal (decimal_text scaled) = Some scaled.
Proof.
  intros Hrange. unfold decimal_text, read_decimal.
  set (m := Z.abs_N scaled).
  assert (Z.of_N m = Z.abs scaled) as Hm by (by apply N2Z.inj_abs_N).
  assert (read_magnitude (fmt_N (m / 10000) +:+ "." +:+ pad4 (m mod 10000)) = Some (Z.of_N m)) as Hread.
  { unfold read_magnitude. change ("." +:+ ?s) with (String (byte_of 46) s).
    rewrite split_point_digits by apply fmt_N_digits. cbn [mbind option_bind fst snd].
    rewrite parse_usize_fmt.
    2: { etrans; [apply (N.Div0.div_le_upper_bound _ _ m); lia|]. unfold usize_max, u64_max. lia. }
    cbn [mbind option_bind]. rewrite pad4_parse by (by apply N.mod_lt). cbn [mbind option_bind].
    rewrite decide_True by done. do 2 f_equal. rewrite N.mul_comm. symmetry. by apply N.div_mod. }
  destruct (Z.ltb_spec scaled 0).
  - change ("-" +:+ ?s) with (String (byte_of 45) s). cbn [strip_prefix]. rewrite decide_True by done.
    rewrite Hread. cbn. f_equal. lia.
  - change ("" +:+ ?s) with s. rewrite strip_minus_digits by (apply fmt_N_digits || apply fmt_N_nonempty).
    rewrite Hread. f_equal. lia.
Qed.

(** ** The decimal of a float *)

(** [n'] is [n] to the 53 bits of a double, the even one half way. *)
Definition held_in_double (n n' : Z) : Prop :=
  ∃ r, nearest_even n (2 ^ excess n) r ∧ n' = (r * 2 ^ excess n)%Z.

(** The integer [k] a decimal of [n / d] ten-thousandths is rounded to:
    the nearest one, the even one half way. It is not when the double
    nearest to [n / d] is half way though [n / d] is not (then it is the
    even one on either side), nor where doubles are further apart than
    integers (then it is that double). *)
Definition ten_thousandths (n d k : Z) : Prop :=
  ∃ n', held_in_double n n' ∧
    if bool_decide (n' ≠ n ∧ 2 * (n' mod d) = d)%Z then nearest_even n' d k
    else if bool_decide (2 ^ 53 * d <= n)%Z then (k * d = n')%Z
    else nearest_even n d k.

(** The decimal of four digits a float is said to be. *)
Definition decimal_says (x : SpecFloat.spec_float) (k : Z) : Prop :=
  match x with
  | SpecFloat.S754_zero _ => k = 0%Z
  | SpecFloat.S754_finite sign m e =>
      ∃ k', k = (if sign then - k' else k')%Z ∧
        ten_thousandths (10000 * Zpos m * 2 ^ Z.max 0 e) (2 ^ Z.max 0 (- e)) k'
  | _ => False
  end.

Lemma held_in_double_unique n n1 n2 : held_in_double n n1 → held_in_double n n2 → n1 = n2.
Proof.
  intros (r1 & H1 & ->) (r2 & H2 & ->). f_equal. eapply nearest_even_unique; [|exact H1|exact H2].
  apply Z.pow_pos_nonneg; [lia|]. unfold excess. lia.
Qed.

(** Where doubles are at most half an integer apart, rounding to one first
    keeps the nearest integer, unless it lands half way. *)
Lemma rounded_fine n n' u h k :
  (0 < u)%Z → (0 < h)%Z → (2 * Z.abs (n - n') <= u)%Z → (∃ r, n' = r * u)%Z →
  (n' = n ∨ 2 * (n' mod (2 * h * u)) ≠ 2 * h * u)%Z → nearest_even n' (2 * h * u) k → nearest_even n (2 * h * u) k.
Proof.
  intros Hu Hh Hnear [r ->] Htie [Hk Heven]. destruct (decide (r * u = n)%Z) as [<-|Hne]; [by split|].
  destruct Htie as [|Htie]; [done|].
  assert (Z.abs (r - k * (2 * h)) <= h)%Z as Hr.
  { replace (r * u - k * (2 * h * u))%Z with ((r - k * (2 * h)) * u)%Z in Hk by lia.
    rewrite Z.abs_mul, (Z.abs_eq u) in Hk by lia. nia. }
  assert (Z.abs (r - k * (2 * h)) ≠ h) as Hnot.
  { intros Heq. apply Htie. assert ((r * u) mod (2 * h * u) = h * u)%Z as ->; [|lia].
    rewrite Z.mul_mod_distr_r by lia. f_equal.
    assert (r = h + k * (2 * h) ∨ r = h + (k - 1) * (2 * h))%Z as [->| ->] by lia; rewrite Z.mod_add by lia; apply Z.mod_small; lia. }
  assert (2 * Z.abs (n - k * (2 * h * u)) < 2 * h * u)%Z; [|split; lia].
  assert (Z.abs (r * u - k * (2 * h * u)) <= (h - 1) * u)%Z as Hclose; [|lia].
  replace (r * u - k * (2 * h * u))%Z with ((r - k * (2 * h)) * u)%Z by lia.
  rewrite Z.abs_mul, (Z.abs_eq u) by lia. nia.
Qed.

Lemma nearest_even_whole d q k : (0 < d)%Z → nearest_even (q * d) d k ↔ k = q.
Proof.
  intros Hd. split; [|intros ->].
  - intros Hk. eapply nearest_even_unique; [exact Hd|exact Hk|]. split; [rewrite Z.sub_diag; cbn; lia|rewrite Z.sub_diag; cbn; lia].
  - split; rewrite Z.sub_diag; cbn; lia.
Qed.

(** The rounding to four digits is that of the double. *)
Lemma ten_thousandths_twice n j k :
  (0 < n)%Z → (0 <= j)%Z →
  ten_thousandths n (2 ^ j) k ↔ ∃ n', held_in_double n n' ∧ nearest_even n' (2 ^ j) k.
Proof.
  intros Hn Hj. unfold ten_thousandths. assert (0 < 2 ^ j)%Z as Hd by (by apply Z.pow_pos_nonneg).
  destruct (Z.log2_spec n Hn) as [Hlo Hhi].
  enough (∀ n', held_in_double n n' →
    ((if bool_decide (n' ≠ n ∧ 2 * (n' mod 2 ^ j) = 2 ^ j)%Z then nearest_even n' (2 ^ j) k
      else if bool_decide (2 ^ 53 * 2 ^ j <= n)%Z then (k * 2 ^ j = n')%Z else nearest_even n (2 ^ j) k) ↔
     nearest_even n' (2 ^ j) k)) as Hcase.
  { split; intros (n' & Hheld & Hk); exists n'; split; try done; by apply (Hcase n'). }
  intros n' (r & Hr & ->). pose proof Hr as [Hnear _].
  assert (0 <= excess n)%Z as Hexcess by (unfold excess; lia).
  assert (0 < 2 ^ excess n)%Z as Hu by (by apply Z.pow_pos_nonneg).
  case_bool_decide as Htie; [done|]. case_bool_decide as Hlarge.
  - assert (j <= excess n)%Z as Hwide.
    { assert (53 + j <= Z.log2 n)%Z; [|unfold excess; lia]. apply Z.log2_le_pow2; [done|]. by rewrite Z.pow_add_r. }
    replace (r * 2 ^ excess n)%Z with (r * 2 ^ (excess n - j) * 2 ^ j)%Z
      by (rewrite <- Z.mul_assoc, <- Z.pow_add_r by lia; do 2 f_equal; lia).
    rewrite nearest_even_whole by done. split; [intros Heq; by apply Z.mul_reg_r in Heq; [|lia]|by intros ->].
  - destruct (decide (j <= excess n)%Z) as [Hwide|Hfine].
    + assert (Z.log2 n < 53 + j)%Z as Hlog by (apply Z.log2_lt_pow2; [done|]; rewrite Z.pow_add_r by lia; lia).
      assert (excess n = j) as Hsame by (unfold excess in *; lia). rewrite Hsame in *.
      rewrite nearest_even_whole by done. split; [intros Hk; by eapply nearest_even_unique|by intros ->].
    + assert (2 ^ j = 2 * 2 ^ (j - excess n - 1) * 2 ^ excess n)%Z as Hsplit.
      { rewrite <- (Z.pow_succ_r 2) by lia. rewrite <- Z.pow_add_r by lia. f_equal. lia. }
      assert (∀ k, nearest_even (r * 2 ^ excess n) (2 ^ j) k → nearest_even n (2 ^ j) k) as Hto.
      { intros k0. rewrite Hsplit in *. apply rounded_fine; [done|apply Z.pow_pos_nonneg; lia|exact Hnear|by exists r|].
        destruct (decide (r * 2 ^ excess n = n)%Z) as [|Hne]; [by left|right]. intros Heq. by apply Htie. }
      split; [|apply Hto]. intros Hk.
      assert (0 <= r * 2 ^ excess n)%Z as Hr0.
      { assert (2 ^ excess n <= n ∨ excess n = 0)%Z as [Hle|Hz]; [|nia|rewrite Hz in *; nia].
        unfold excess. destruct (Z.max_spec 0 (Z.log2 n - 52)) as [[? ->]|[? ->]]; [left|by right].
        etrans; [|exact Hlo]. apply Z.pow_le_mono_r; lia. }
      pose proof (div_pow2_nearest_even (r * 2 ^ excess n) j Hr0 Hj) as Hown.
      by rewrite (nearest_even_unique _ _ _ _ Hd Hk (Hto _ Hown)).
Qed.

Lemma held_rounded n : (0 < n)%Z → held_in_double n (rounded53 n * 2 ^ excess n).
Proof.
  intros Hn. exists (rounded53 n). split; [|done]. apply div_pow2_nearest_even; [lia|]. unfold excess. lia.
Qed.

(** A power of two moves no bit. *)
Lemma held_scaled n n' t : (0 < n)%Z → (0 <= t)%Z → held_in_double n n' → held_in_double (n * 2 ^ t) (n' * 2 ^ t).
Proof.
  intros Hn Ht (r & Hr & ->). assert (0 < 2 ^ t)%Z by (by apply Z.pow_pos_nonneg).
  assert (Z.log2 (n * 2 ^ t) = Z.log2 n + t)%Z as Hlog by (rewrite Z.log2_mul_pow2; lia).
  assert (0 <= excess n <= excess (n * 2 ^ t) ∧ excess (n * 2 ^ t) <= excess n + t)%Z as [Hle Hge].
  { unfold excess. rewrite Hlog. lia. }
  assert (0 < 2 ^ excess n)%Z by (apply Z.pow_pos_nonneg; lia).
  destruct (decide (excess (n * 2 ^ t) = excess n + t)%Z) as [Heq|Hne].
  - exists r. rewrite Heq, Z.pow_add_r by lia. split; [|lia].
    eapply nearest_even_ratio; [..|exact Hr]; [done|by apply Z.mul_pos_pos|lia].
  - assert (excess n = 0)%Z as Hz by (unfold excess in *; rewrite Hlog in *; lia). rewrite Hz in *.
    change (2 ^ 0)%Z with 1%Z in *. rewrite <- (Z.mul_1_r n) in Hr at 1. apply nearest_even_whole in Hr as ->; [|done]. rewrite Z.mul_1_r. unfold held_in_double.
    set (v := excess (n * 2 ^ t)) in *. clearbody v. exists (n * 2 ^ (t - v))%Z.
    replace (n * 2 ^ t)%Z with (n * 2 ^ (t - v) * 2 ^ v)%Z by (rewrite <- Z.mul_assoc, <- Z.pow_add_r by lia; do 2 f_equal; lia).
    split; [|done]. apply nearest_even_whole; [apply Z.pow_pos_nonneg; lia|done].
Qed.

Lemma round_ties_even_finite sign m e :
  ∃ k, round_ties_even (SpecFloat.S754_finite sign m e) = Some (if sign then - k else k)%Z ∧ (0 <= k)%Z ∧
    nearest_even (Zpos m * 2 ^ Z.max 0 e) (2 ^ Z.max 0 (- e)) k.
Proof.
  unfold round_ties_even. eexists. split; [reflexivity|]. destruct (Z.leb_spec 0 e).
  - rewrite Z.max_r, Z.max_l by lia. split; [apply Z.mul_nonneg_nonneg; [lia|apply Z.pow_nonneg; lia]|].
    rewrite <- (Z.mul_1_r (Zpos m * 2 ^ e)) at 1. by apply (nearest_even_whole 1).
  - rewrite Z.max_l, Z.max_r by lia. rewrite Z.mul_1_r.
    pose proof (div_pow2_nearest_even (Zpos m) (- e) ltac:(lia) ltac:(lia)) as Hn. split; [|done].
    destruct Hn as [Hn _]. assert (0 < 2 ^ (- e))%Z by (apply Z.pow_pos_nonneg; lia). nia.
Qed.

(** The scaled double has the product's first 53 bits. *)
Lemma scaled_value m e m2 carry :
  (rounded53 (Zpos (m * 10000)) = Zpos m2 * 2 ^ carry)%Z → (0 <= carry)%Z →
  let e2 := (e + excess (Zpos (m * 10000)) + carry)%Z in
  ∃ n', held_in_double (10000 * Zpos m * 2 ^ Z.max 0 e) n' ∧
    (n' * 2 ^ Z.max 0 (- e2) = Zpos m2 * 2 ^ Z.max 0 e2 * 2 ^ Z.max 0 (- e))%Z.
Proof.
  intros Hm2 Hcarry e2. set (q := Zpos (m * 10000)) in *. assert (10000 * Zpos m = q)%Z as -> by (unfold q; lia).
  exists (rounded53 q * 2 ^ excess q * 2 ^ Z.max 0 e)%Z.
  split; [apply held_scaled; [done|lia|by apply held_rounded]|]. rewrite Hm2.
  assert (0 <= excess q)%Z by (unfold excess; lia).
  rewrite <- !Z.mul_assoc, <- !Z.pow_add_r by lia. do 2 f_equal. lia.
Qed.

(** [round_ties_even] of the scaled double is the integer the decimal says. *)
Lemma scaled_says x k :
  (∀ sign m e, x = SpecFloat.S754_finite sign m e → (-1074 <= e)%Z) → (Z.abs k < 2 ^ 63)%Z →
  decimal_says x k ↔ round_ties_even (f64_mul x DECIMAL_SCALE) = Some k.
Proof.
  intros Hx Hk. destruct x as [sign|sign| |sign m e]; cbn; try done; [by split; [intros ->|intros [= <-]]|].
  specialize (Hx _ _ _ eq_refl). rewrite xorb_false_r, Z.add_0_r.
  destruct (round_aux_value sign (m * 10000) e Hx) as (m2 & carry & [Hm2 Hcarry] & Hround). cbn zeta in Hround.
  rewrite Hround. destruct (scaled_value m e m2 carry Hm2 Hcarry) as (n' & Hheld & Hvalue). cbn zeta in Hvalue.
  set (e2 := (e + excess (Zpos (m * 10000)) + carry)%Z) in *.
  assert (∀ k', ten_thousandths (10000 * Zpos m * 2 ^ Z.max 0 e) (2 ^ Z.max 0 (- e)) k' ↔
    nearest_even n' (2 ^ Z.max 0 (- e)) k') as Hten.
  { intros k'. rewrite ten_thousandths_twice by (lia || (apply Z.mul_pos_pos; [lia|apply Z.pow_pos_nonneg; lia])).
    split; [intros (n'' & Hheld' & Hk')|intros; by exists n'].
    by rewrite (held_in_double_unique _ _ _ Hheld Hheld'). }
  setoid_rewrite Hten.
  assert (0 < 2 ^ Z.max 0 (- e))%Z as Hd by (apply Z.pow_pos_nonneg; lia).
  destruct (Z.leb_spec e2 971) as [Hfinite|Hlarge].
  - destruct (round_ties_even_finite sign m2 e2) as (k0 & -> & _ & Hk0).
    eapply (nearest_even_ratio _ _ n' _ _ _ Hd) in Hk0; [|lia].
    split; [intros (k' & -> & Hk')|intros [= <-]; by exists k0].
    by rewrite (nearest_even_unique _ _ _ _ Hd Hk' Hk0).
  - cbn. split; [|done]. intros (k' & -> & Hk'). exfalso.
    rewrite (Z.max_l 0 (- e2)), (Z.max_r 0 e2), Z.mul_1_r in Hvalue by lia. rewrite Hvalue in Hk'.
    apply nearest_even_whole in Hk' as ->; [|done].
    assert (2 ^ 63 <= 2 ^ e2)%Z by (apply Z.pow_le_mono_r; lia). destruct sign; nia.
  Unshelve. apply Z.pow_pos_nonneg; lia.
Qed.

Lemma f64_value_exponent bits sign m e : f64_value bits = SpecFloat.S754_finite sign m e → (-1074 <= e)%Z.
Proof.
  unfold f64_value. generalize (N.land (N.shiftr bits 52) 2047) (N.land bits (N.ones 52)) (N.testbit bits 63).
  intros exponent fraction s. generalize (N.shiftl 1 52). intros one.
  destruct (exponent =? 2047)%N; [by destruct (fraction =? 0)%N|]. destruct (N.eqb_spec exponent 0) as [|Hz].
  - destruct fraction; [done|]. intros Heq. injection Heq as _ _ <-. lia.
  - destruct (one + fraction)%N; [done|]. intros Heq. injection Heq as _ _ <-. lia.
Qed.

Lemma float_to_decimal_exact bits text :
  float_to_decimal bits = Some text ↔
  ∃ k, decimal_says (f64_value bits) k ∧ (Z.abs k < 2 ^ 63)%Z ∧ text = decimal_text k.
Proof.
  assert (∀ k, (Z.abs k < 2 ^ 63)%Z → decimal_says (f64_value bits) k ↔
    round_ties_even (f64_mul (f64_value bits) DECIMAL_SCALE) = Some k) as Hsays.
  { intros k. apply scaled_says. intros sign m e. apply f64_value_exponent. }
  unfold float_to_decimal. generalize dependent (decimal_says (f64_value bits)). intros says.
  destruct (round_ties_even _) as [scaled|]; intros Hsays; cbn.
  - destruct (Z.leb_spec (2 ^ 63) (Z.abs scaled)) as [Hout|Hin]; split; try done.
    + intros (k & Hk & Hrange & _). apply (proj1 (Hsays k Hrange)) in Hk. injection Hk as ->. lia.
    + intros [= <-]. exists scaled. by rewrite Hsays.
    + intros (k & Hk & Hrange & ->). apply (proj1 (Hsays k Hrange)) in Hk. by injection Hk as ->.
  - split; [done|]. intros (k & Hk & Hrange & _). by apply (proj1 (Hsays k Hrange)) in Hk.
Qed.

(** ** The value grammar of the specification *)

Definition reserved (key : string) : Prop := key ∈ CEDAR_RESERVED_KEYS.

Unset Elimination Schemes.
(** [translates v w]: the Cedar JSON value [w] says what [v] says. *)
Inductive translates : JsonValue → JsonValue → Prop :=
  | tr_bool b : translates (JBool b) (JBool b)
  | tr_string s : translates (JString s) (JString s)
  | tr_long n : (n < 2 ^ 63)%N → translates (JNumber (PosInt n)) (JNumber (PosInt n))
  | tr_negative z : translates (JNumber (NegInt z)) (JNumber (NegInt z))
  | tr_decimal bits k text :
      decimal_says (f64_value bits) k → (Z.abs k < 2 ^ 63)%Z →
      read_decimal text = Some k → text = decimal_text k →
      translates (JNumber (Float bits)) (decimal_extension text)
  | tr_set items out : Forall2 translates items out → translates (JArray items) (JArray out)
  | tr_record members out : translates_members members out → translates (JObject members) (JObject out)
(** A record keeps its members in order, without the [null]s. *)
with translates_members : JsonMap → JsonMap → Prop :=
  | tm_nil : translates_members [] []
  | tm_null key members out :
      ¬ reserved key → translates_members members out →
      translates_members ((key, JNull) :: members) out
  | tm_member key v w members out :
      ¬ reserved key → translates v w → translates_members members out →
      translates_members ((key, v) :: members) ((key, w) :: out).
Set Elimination Schemes.

Lemma translates_not_null w : ¬ translates JNull w.
Proof. inversion 1. Qed.

Lemma empty_not_reserved : ¬ reserved "".
Proof. unfold reserved. by apply (bool_decide_unpack _ : bool_decide _ → _). Qed.

Lemma number_exact number path w :
  number_to_cedar number path = Ok w ↔ translates (JNumber number) w.
Proof.
  destruct number as [n|z|bits]; cbn.
  - destruct (N.leb_spec n 9223372036854775807); split; try done.
    + intros [= <-]. constructor. lia.
    + by inversion 1.
    + inversion 1. lia.
  - split; [intros [= <-]; constructor | by inversion 1].
  - split.
    + destruct (float_to_decimal bits) as [text|] eqn:Hd; cbn; [|done]. intros [= <-].
      apply float_to_decimal_exact in Hd as (k & Hk & Hrange & ->).
      exact (tr_decimal bits k _ Hk Hrange (read_decimal_text k Hrange) eq_refl).
    + inversion 1 as [| | | |? k text Hk Hrange _ Htext| |]; subst.
      pose proof (proj2 (float_to_decimal_exact bits (decimal_text k)) (ex_intro _ k (conj Hk (conj Hrange eq_refl)))) as Hd.
      by rewrite Hd.
Qed.

Lemma translates_float bits w :
  translates (JNumber (Float bits)) w → ∃ text, float_to_decimal bits = Some text ∧ w = decimal_extension text.
Proof.
  intros Hw%(number_exact _ EmptyString). cbn in Hw. destruct (float_to_decimal bits) as [text|]; [|done]. exists text.
  cbn in Hw. split; [done|]. by injection Hw as <-.
Qed.

(** ** The translation computes the grammar *)

Definition translation_of (v : JsonValue) (r : option JsonValue) : Prop :=
  match r with None => v = JNull | Some w => translates v w end.

Definition translated_exactly (v : JsonValue) : Prop :=
  ∀ path key r, ¬ reserved key → to_cedar_value v path key = Ok r ↔ translation_of v r.

Lemma reserved_refused v path key r : to_cedar_value v path key = Ok r → ¬ reserved key.
Proof. unfold reserved. destruct v; cbn; case_bool_decide; naive_solver. Qed.

Lemma set_exact path items acc i out :
  Forall translated_exactly items →
  (∃ r, fold_result (λ (acc : list JsonValue * N) item,
      let item_path := path +:+ "[" +:+ fmt_N acc.2 +:+ "]" in
      found ← to_cedar_value item item_path "";
      translated ← ok_or found (invocation_failed ("cedar context value at '" +:+ item_path +:+
        "' is a null set element"));
      Ok (acc.1 ++ [translated], (acc.2 + 1)%N)) (acc, i) items = Ok r ∧ r.1 = out) ↔
  ∃ own, Forall2 translates items own ∧ out = acc ++ own.
Proof.
  intros Hitems. revert acc i. induction Hitems as [|v items Hv _ IH]; intros acc i.
  { cbn. split; [intros (? & [= <-] & <-); exists []; by rewrite app_nil_r|].
    intros (own & Hown & ->). inversion Hown. rewrite app_nil_r. eauto. }
  cbn [fold_result]. split.
  - intros (r & (next & (found & Hfound & (w & Hw & [= <-])%bind_Ok)%bind_Ok & Hr)%bind_Ok & Hout).
    destruct found as [w'|]; [|done]. cbn in Hw. simplify_eq.
    apply Hv in Hfound; [|apply empty_not_reserved].
    destruct (proj1 (IH _ _) (ex_intro _ r (conj Hr eq_refl))) as (own & Hown & Heq).
    exists (w :: own). split; [by constructor|]. rewrite Heq. cbn. by rewrite <- app_assoc.
  - intros (own & Hown & ->). inversion Hown as [|? w ? own' Hw Hown']; subst.
    rewrite (proj2 (Hv _ "" (Some w) empty_not_reserved)) by done. cbn.
    apply IH. exists own'. split; [done|]. by rewrite <- app_assoc.
Qed.

Lemma sorted_parts (l : list string) key k :
  StronglySorted key_lt (l ++ key :: k) →
  Forall (λ k', key_lt k' key) l ∧ StronglySorted key_lt (l ++ k) ∧
  StronglySorted key_lt ((l ++ [key]) ++ k).
Proof.
  intros Hs. split_and!.
  - apply Forall_forall. intros k1 Hk1. eapply StronglySorted_app_1_elem_of; [exact Hs|done|by left].
  - induction l as [|k' l IH]; cbn in *; apply StronglySorted_cons in Hs as [Hall Hs]; [done|].
    apply StronglySorted_cons. split; [|by apply IH].
    apply Forall_app in Hall as [? [_ ?]%Forall_cons]. by apply Forall_app.
  - by rewrite <- app_assoc.
Qed.

Lemma members_exact path members acc out :
  Forall (λ e, translated_exactly e.2) members →
  StronglySorted key_lt (bt_keys acc ++ bt_keys members) →
  fold_result (λ (out : JsonMap) (e : string * JsonValue),
    translated ← to_cedar_value e.2 (path +:+ "." +:+ e.1) e.1;
    Ok match translated with Some v => bt_insert e.1 v out | None => out end) acc members = Ok out ↔
  ∃ own, translates_members members own ∧ out = acc ++ own.
Proof.
  intros Hmembers. revert acc. induction Hmembers as [|[key v] members Hv _ IH]; intros acc Hs.
  { cbn. split; [intros [= <-]; exists []; rewrite app_nil_r; by split; [constructor|]|].
    intros (own & Hown & ->). inversion Hown. by rewrite app_nil_r. }
  apply sorted_parts in Hs as (Hlt & Hdrop & Hkeep). cbn [fold_result fst snd] in *. split.
  - intros (next & (found & Hfound & [= <-])%bind_Ok & Hrest)%bind_Ok.
    pose proof (reserved_refused _ _ _ _ Hfound) as Hkey. apply Hv in Hfound; [|done].
    destruct found as [w|]; cbn in Hfound.
    + rewrite bt_insert_snoc in Hrest by done.
      apply IH in Hrest as (own & Hown & ->); [|by unfold bt_keys; rewrite fmap_app].
      exists ((key, w) :: own). split; [by constructor|]. by rewrite <- app_assoc.
    + subst v. apply IH in Hrest as (own & Hown & ->); [|done]. exists own. split; [by constructor|done].
  - intros (own & Hown & ->). inversion Hown as [|? ? ? Hkey Hown'|? ? w ? own' Hkey Hw Hown']; subst.
    + rewrite (proj2 (Hv _ _ None Hkey)) by done. cbn. apply IH; [done|]. eauto.
    + rewrite (proj2 (Hv _ _ (Some w) Hkey)) by done. cbn. rewrite bt_insert_snoc by done.
      apply IH; [by unfold bt_keys; rewrite fmap_app|]. exists own'. split; [done|]. by rewrite <- app_assoc.
Qed.

Lemma translate_exact v : json_wf v → translated_exactly v.
Proof.
  induction v as [|b|n|s|items IH|members IH] using JsonValue_ind; intros Hwf path key r Hkey; cbn;
    rewrite bool_decide_false by done.
  - split; [by intros [= <-]|]. destruct r; [by intros ?%translates_not_null|done].
  - split; [intros [= <-]; constructor|]. destruct r; [by inversion 1|done].
  - rewrite bind_Ok. split; [intros (w & Hw%number_exact & [= <-]); exact Hw|].
    destruct r as [w|]; [|done]. intros Hw. exists w. split; [by apply number_exact|done].
  - split; [intros [= <-]; constructor|]. destruct r; [by inversion 1|done].
  - inversion Hwf as [| | | |? Hitems|]; subst.
    assert (Forall translated_exactly items) as Hall.
    { rewrite Forall_forall in IH, Hitems. apply Forall_forall. auto. }
    rewrite bind_Ok. split.
    + intros (out & Hout & [= <-]).
      destruct (proj1 (set_exact path items [] 0 out.1 Hall) (ex_intro _ out (conj Hout eq_refl)))
        as (own & Hown & ->). by constructor.
    + destruct r as [w|]; [|done]. inversion 1 as [| | | | |? out Hout|]; subst.
      destruct (proj2 (set_exact path items [] 0 out Hall)) as (res & Hres & <-); [by exists out|].
      by exists res.
  - inversion Hwf as [| | | | |? Hsorted Hmembers]; subst.
    assert (Forall (λ e, translated_exactly e.2) members) as Hall.
    { rewrite Forall_forall in IH, Hmembers. apply Forall_forall. auto. }
    rewrite bind_Ok. split.
    + intros (out & (own & Hown & ->)%members_exact & [= <-]); [|done|done]. by constructor.
    + destruct r as [w|]; [|done]. inversion 1 as [| | | | | |? out Hout]; subst.
      exists out. split; [|done]. apply members_exact; [done|done|]. by exists out.
Qed.

Lemma record_exact members path out :
  json_wf (JObject members) → translate_record members path = Ok out ↔ translates_members members out.
Proof.
  inversion 1 as [| | | | |? Hsorted Hmembers]; subst. unfold translate_record, translate_members.
  rewrite members_exact; [|by eapply Forall_impl; [exact Hmembers|]; intros [] ?; apply translate_exact|done].
  split; [by intros (own & Hown & ->)|by exists out].
Qed.

(** ** The request *)

Lemma json_wf_member m key v : json_wf (JObject m) → bt_get key m = Some v → json_wf v.
Proof.
  inversion 1 as [| | | | |? _ Hall]; subst. intros Hget%bt_get_Some_elem.
  rewrite Forall_forall in Hall. exact (Hall _ Hget).
Qed.

(** What the context's [annotations] record may be. *)
Definition annotations_record (annotations : option JsonValue) (out : JsonMap) : Prop :=
  match annotations with
  | None | Some JNull => out = []
  | Some (JObject members) => translates_members members out
  | Some _ => False
  end.

Lemma as_object_Some v m : as_object v = Some m ↔ v = JObject m.
Proof. destruct v; cbn; naive_solver. Qed.
Lemma as_str_Some v s : as_str v = Some s ↔ v = JString s.
Proof. destruct v; cbn; naive_solver. Qed.
Lemma bind_as_object (o : option JsonValue) m : o ≫= as_object = Some m ↔ o = Some (JObject m).
Proof. destruct o as [v|]; cbn; [rewrite as_object_Some|]; naive_solver. Qed.
Lemma bind_as_str (o : option JsonValue) s : o ≫= as_str = Some s ↔ o = Some (JString s).
Proof. destruct o as [v|]; cbn; [rewrite as_str_Some|]; naive_solver. Qed.

Lemma context_exact snapshot annotations ctx :
  json_wf (JObject snapshot) → (∀ v, annotations = Some v → json_wf v) →
  build_cedar_context snapshot annotations = Ok ctx ↔
  bt_get pi_ANNOTATIONS snapshot = None ∧
  ∃ own noted, translates_members snapshot own ∧ annotations_record annotations noted ∧
    ctx = JObject (bt_insert pi_ANNOTATIONS (JObject noted) own).
Proof.
  intros Hwf Hnotes. unfold build_cedar_context, bt_contains.
  destruct (bt_get pi_ANNOTATIONS snapshot) eqn:Hclash; [naive_solver|].
  rewrite bind_Ok. setoid_rewrite (record_exact snapshot "context" _ Hwf).
  split.
  - intros (own & Hown & (noted & Hnoted & [= <-])%bind_Ok). split; [done|].
    exists own, noted. split_and!; [done| |done].
    destruct annotations as [[| | | | |members]|]; try done; cbn in *; simplify_eq; [done| |done].
    apply record_exact in Hnoted; [done|]. by apply Hnotes.
  - intros (_ & own & noted & Hown & Hnoted & ->). exists own. split; [done|]. apply bind_Ok.
    exists noted. split; [|done].
    destruct annotations as [[| | | | |members]|]; cbn in *; try done; subst; try done.
    apply record_exact; [by apply Hnotes|done].
Qed.

Lemma build_request_Ok policy_input request :
  build_cedar_request policy_input = Ok request ↔
  ∃ object snapshot id point ctx,
    policy_input = JObject object ∧
    bt_get pi_SNAPSHOT object = Some (JObject snapshot) ∧
    principal_id snapshot = Some id ∧
    bt_get pi_INTERVENTION_POINT object = Some (JString point) ∧
    build_cedar_context snapshot (bt_get pi_ANNOTATIONS object) = Ok ctx ∧
    request = mkCedarRequest (mkEntity "Agent" id) (mkEntity "Action" point) (resource_entity object) ctx.
Proof.
  unfold build_cedar_request. split.
  - rewrite bind_Ok. intros (object & Hobject%ok_or_Ok%as_object_Some & Hrest). subst.
    apply bind_Ok in Hrest as (snapshot & Hsnapshot%ok_or_Ok%bind_as_object & Hrest).
    apply bind_Ok in Hrest as (id & Hid%ok_or_Ok & Hrest).
    apply bind_Ok in Hrest as (point & Hpoint%ok_or_Ok%bind_as_str & Hrest).
    apply bind_Ok in Hrest as (ctx & Hctx & [= <-]).
    exists object, snapshot, id, point, ctx. by split_and!.
  - intros (object & snapshot & id & point & ctx & -> & Hsnapshot & Hid & Hpoint & Hctx & ->).
    cbn [as_object ok_or]. rewrite bind_Ok. exists object. split; [done|].
    rewrite Hsnapshot. cbn. rewrite Hid. cbn. rewrite Hpoint. cbn. by rewrite Hctx.
Qed.

(** ** What can occur in a context *)

Inductive within (u : JsonValue) : JsonValue → Prop :=
  | within_self : within u u
  | within_item items v : v ∈ items → within u v → within u (JArray items)
  | within_member members e : e ∈ members → within u e.2 → within u (JObject members).

Lemma within_trans u v w : within u v → within v w → within u w.
Proof. intros Huv Hvw. induction Hvw; [done|..]; econstructor; eauto. Qed.

Lemma translates_members_elem members own e :
  translates_members members own → e ∈ own →
  ¬ reserved e.1 ∧ ∃ v, (e.1, v) ∈ members ∧ translates v e.2.
Proof.
  revert own. induction members as [|[key v] members IH]; intros own;
    inversion 1 as [|? ? ? Hkey Hown|? ? w ? own' Hkey Hw Hown]; subst; intros He.
  - by apply elem_of_nil in He.
  - destruct (IH _ Hown He) as (? & v & ? & ?). split; [done|]. exists v. by split; [right|].
  - apply elem_of_cons in He as [->|He].
    + split; [done|]. exists v. by split; [left|].
    + destruct (IH _ Hown He) as (? & v' & ? & ?). split; [done|]. exists v'. by split; [right|].
Qed.

(** Inside a translation one finds translations of what is inside the
    value, and the decimals of its floats. *)
Definition explained (source u : JsonValue) : Prop :=
  (∃ v, within v source ∧ translates v u) ∨
  ∃ bits text, within (JNumber (Float bits)) source ∧ float_to_decimal bits = Some text ∧
    within u (decimal_extension text).

Lemma explained_within source v u : within v source → explained v u → explained source u.
Proof.
  intros Hv [(x & Hx & ?)|(bits & text & Hx & ? & ?)]; [left|right].
  - exists x. split; [by eapply within_trans|done].
  - exists bits, text. split_and!; [by eapply within_trans|done|done].
Qed.

Lemma within_translation v w u : translates v w → within u w → explained v u.
Proof.
  revert w. induction v as [|b|n|s|items IH|members IH] using JsonValue_ind; intros w Hw Hu.
  - by apply translates_not_null in Hw.
  - inversion Hw; subst. inversion Hu; subst. left. exists (JBool b). split; constructor.
  - destruct n as [n|z|bits]; [| |apply translates_float in Hw as (text & Htext & ->)].
    1,2: inversion Hw; subst; inversion Hu; subst; left; eexists; split; [constructor|done].
    right. exists bits, text. by split_and!; [constructor| |].
  - inversion Hw; subst. inversion Hu; subst. left. exists (JString s). split; constructor.
  - inversion Hw as [| | | | |? out Hout|]; subst.
    inversion Hu as [|? x Hx Hux|]; subst; [left; by exists (JArray items); split; [constructor|]|].
    apply list_elem_of_lookup in Hx as [i Hx].
    destruct (Forall2_lookup_r _ _ _ _ _ Hout Hx) as (y & Hy & Hyx).
    apply list_elem_of_lookup_2 in Hy. rewrite Forall_forall in IH.
    apply (explained_within _ y); [by eapply within_item; [|constructor]|]. by eapply IH.
  - inversion Hw as [| | | | | |? own Hown]; subst.
    inversion Hu as [| |? e He Hue]; subst; [left; by exists (JObject members); split; [constructor|]|].
    destruct (translates_members_elem _ _ _ Hown He) as (_ & y & Hy & Hyx).
    rewrite Forall_forall in IH.
    apply (explained_within _ y); [by eapply (within_member _ _ (_, y)); [|constructor]|].
    by eapply (IH _ Hy).
Qed.

Definition forgery_free (source u : JsonValue) : Prop :=
  u ≠ JNull ∧
  ∀ members key, u = JObject members → reserved key → bt_contains key members = true →
    ∃ bits text, within (JNumber (Float bits)) source ∧ float_to_decimal bits = Some text ∧
      u = decimal_extension text.

Lemma record_members_unreserved members own key :
  translates_members members own → reserved key → bt_contains key own = true → False.
Proof.
  intros Hown Hkey [v Hv]%bt_contains_get. apply bt_get_Some_elem in Hv.
  by destruct (translates_members_elem _ _ _ Hown Hv).
Qed.

Lemma explained_forgery_free source u : explained source u → forgery_free source u.
Proof.
  intros [(v & Hv & Hu)|(bits & text & Hsource & Htext & Hu)].
  - split; [intros ->; inversion Hu|]. intros members key -> Hkey Hin.
    destruct v as [|b|[n|z|bits]|s|items|own]; [inversion Hu..| |inversion Hu|inversion Hu|].
    { apply translates_float in Hu as (text & Htext & Hm). exists bits, text. split; [done|]. by split. }
    inversion Hu as [| | | | | |? ? Hown]; subst.
    by destruct (record_members_unreserved _ _ _ Hown Hkey Hin).
  - inversion Hu as [| |? e He Hinner]; subst; [by split; [done|eauto]|].
    apply list_elem_of_singleton in He as ->. cbn in Hinner.
    inversion Hinner as [| |? e He Hleaf]; subst.
    + split; [done|]. intros members key [= <-] Hkey Hin. exfalso. revert Hin.
      apply not_true_iff_false. revert Hkey. unfold reserved, CEDAR_RESERVED_KEYS.
      rewrite !elem_of_cons, elem_of_nil. by intros [->|[->|[->|[]]]].
    + apply elem_of_cons in He as [->|He]; [|apply list_elem_of_singleton in He as ->];
        cbn in Hleaf; inversion Hleaf; subst; by split.
Qed.

Lemma within_record members own u e :
  translates_members members own → e ∈ own → within u e.2 → explained (JObject members) u.
Proof.
  intros Hown He Hu. destruct (translates_members_elem _ _ _ Hown He) as (_ & v & Hv & Hve).
  apply (explained_within _ v); [by eapply (within_member _ _ (_, v)); [|constructor]|].
  by eapply within_translation.
Qed.

Lemma context_forgery_free snapshot annotations ctx object u :
  json_wf (JObject object) → bt_get pi_SNAPSHOT object = Some (JObject snapshot) →
  annotations = bt_get pi_ANNOTATIONS object →
  build_cedar_context snapshot annotations = Ok ctx → within u ctx → forgery_free (JObject object) u.
Proof.
  intros Hwf Hsnapshot -> Hctx Hu. pose proof (json_wf_member _ _ _ Hwf Hsnapshot) as Hwf'.
  apply context_exact in Hctx as (_ & own & noted & Hown & Hnoted & ->);
    [|done|intros v; by apply json_wf_member].
  assert (∀ e, e ∈ own → within u e.2 → explained (JObject object) u) as Hmember.
  { intros e He Hue. apply (explained_within _ (JObject snapshot)); [|by eapply within_record].
    apply (within_member _ _ (pi_SNAPSHOT, JObject snapshot)); [by apply bt_get_Some_elem|constructor]. }
  inversion Hu as [| |? e He Hue]; subst.
  { split; [done|]. intros members key [= <-] Hkey [v Hv]%bt_contains_get. exfalso.
    apply bt_get_Some_elem, elem_of_bt_insert_inv in Hv as [[= -> ->]|Hv].
    - revert Hkey. unfold reserved. by apply (bool_decide_unpack (¬ _)).
    - by destruct (translates_members_elem _ _ _ Hown Hv). }
  apply elem_of_bt_insert_inv in He as [->|He]; [|by eapply explained_forgery_free, Hmember].
  cbn in Hue. destruct (bt_get pi_ANNOTATIONS object) as [[| | | | |notes]|] eqn:Hnotes; cbn in Hnoted; try done.
  1,3: subst noted; inversion Hue as [| |? ? Hnil]; [subst|by apply elem_of_nil in Hnil];
    by split; [done|]; intros ? ? [= <-] _ ?.
  inversion Hue as [| |? e He Hue']; subst.
  - split; [done|]. intros members key [= <-] Hkey Hin.
    by destruct (record_members_unreserved _ _ _ Hnoted Hkey Hin).
  - apply explained_forgery_free, (explained_within _ (JObject notes)); [|by eapply within_record].
    apply (within_member _ _ (pi_ANNOTATIONS, JObject notes)); [by apply bt_get_Some_elem|constructor].
Qed.

(** ** How far a decimal is off *)

(** [round_ties_even] moves a finite value by at most a half. *)
Lemma round_ties_even_nearest sign m e z :
  round_ties_even (SpecFloat.S754_finite sign m e) = Some z →
  (2 * Z.abs ((if sign then -1 else 1) * (Zpos m * 2 ^ Z.max 0 e) - z * 2 ^ Z.max 0 (- e))
    <= 2 ^ Z.max 0 (- e))%Z.
Proof.
  unfold round_ties_even. intros [= <-]. destruct (Z.leb_spec 0 e) as [He|He].
  - rewrite (Z.max_r 0 e), (Z.max_l 0 (- e)) by lia. destruct sign; lia.
  - rewrite (Z.max_l 0 e), (Z.max_r 0 (- e)) by lia.
    pose proof (div_pow2_nearest (Zpos m) (- e) ltac:(lia) ltac:(lia)). destruct sign; lia.
Qed.

(** Scaling rounds before [round_ties_even] does: 0.0008500000000000001 is
    above half way between 0.0008 and 0.0009 and becomes 0.0008. *)
Lemma decimal_rounds_twice :
  f64_value 4560979089502898016 = SpecFloat.S754_finite false 7839866231326560 (-63) ∧
  (17 * 2 ^ 63 < 2 * 10000 * 7839866231326560)%Z ∧
  float_to_decimal 4560979089502898016 = Some "0.0008".
Proof. vm_compute. auto. Qed.

(** ** Advice *)

(** The first minimum: smaller than all before it, no larger than any after. *)
Lemma min_by_key_first {A} (key : A → N) l x :
  min_by_key key l = Some x →
  ∃ before after, l = before ++ x :: after ∧
    Forall (λ y, (key x < key y)%N) before ∧ Forall (λ y, (key x <= key y)%N) after.
Proof.
  revert x. induction l as [|y l IH]; intros x; cbn; [done|].
  destruct (min_by_key key l) as [m|] eqn:Hm.
  - destruct (IH m eq_refl) as (before & after & -> & Hb & Ha).
    destruct (N.leb_spec (key y) (key m)); intros [= <-].
    + exists [], (before ++ m :: after). split_and!; [done|constructor|].
      apply Forall_app; split; [|constructor; [done|]];
        (eapply Forall_impl; [eassumption|]; cbn; intros; lia).
    + exists (y :: before), after. by repeat constructor.
  - destruct l; [|cbn in Hm; repeat case_match; done]. intros [= <-]. by exists [], [].
Qed.

Lemma min_by_key_None {A} (key : A → N) l : min_by_key key l = None ↔ l = [].
Proof. destruct l; cbn; [done|]. repeat case_match; done. Qed.

Lemma reject_unknown_ok {A} object members what (k : result RuntimeError A) v :
  (reject_unknown_members object members what ;; k) = Ok v → k = Ok v.
Proof. rewrite bind_Ok. by intros (_ & _ & ?). Qed.

(** Optional texts keep the decision. *)
Lemma advice_text_decision object key out out' :
  key ≠ "decision" → advice_text object key out = Ok out' → bt_get "decision" out' = bt_get "decision" out.
Proof.
  intros Hkey. unfold advice_text. destruct (bt_get key object) as [[| | |text| |]|]; try done;
    intros [= <-]; try done. by rewrite bt_get_insert_ne.
Qed.

(** Translated advice decides what the advice says, one of three words. *)
Lemma translate_advice_decision advice verdict :
  translate_advice advice = Ok verdict →
  ∃ word, json_get "verdict" advice = Some (JString word) ∧ json_get "decision" verdict = Some (JString word) ∧
    word ∈ ["warn"; "escalate"; "transform"].
Proof.
  unfold translate_advice. rewrite bind_Ok.
  intros (object & ->%ok_or_Ok%as_object_Some & Hrest). apply reject_unknown_ok in Hrest.
  apply bind_Ok in Hrest as (word & Hword%ok_or_Ok%bind_as_str & Hrest).
  case_bool_decide as Hin; [|done]. cbn [negb] in Hrest. cbn zeta in Hrest.
  apply bind_Ok in Hrest as (o1 & Ho1%advice_text_decision & Hrest); [|done].
  apply bind_Ok in Hrest as (o2 & Ho2%advice_text_decision & Hrest); [|done].
  assert (bt_get "decision" o2 = Some (JString word)) as Hdecision by (rewrite Ho2, Ho1; done).
  exists word. split; [done|]. split; [|done]. case_bool_decide.
  - apply bind_Ok in Hrest as (transform & _ & Hrest). apply bind_Ok in Hrest as (members & _ & Hrest).
    apply reject_unknown_ok in Hrest as [= <-]. cbn. by rewrite bt_get_insert_ne.
  - case_match; [done|]. by injection Hrest as <-.
Qed.

(** ** The test dispatcher *)

(** Any matching forbid denies, the first one says why; else any matching
    permit allows. *)
Definition decide_reference (rules : list TestRule) (request : CedarRequest) : TestDecision :=
  let matching := filter (λ rule, rule_matches rule request = true) rules in
  match filter (λ rule, tr_effect rule = Forbid) matching, matching with
  | rule :: _, _ => DecideForbid (default "forbid_rule_matched" (tr_reason rule))
  | [], [] => DecideNoMatch
  | [], _ => DecidePermit (omap tr_advice matching)
  end.

Lemma decide_from_reference rules request permitted advice :
  decide_from rules request permitted advice =
  match decide_reference rules request with
  | DecideNoMatch => if permitted then DecidePermit advice else DecideNoMatch
  | DecidePermit more => DecidePermit (advice ++ more)
  | DecideForbid reason => DecideForbid reason
  end.
Proof.
  revert permitted advice. unfold decide_reference.
  induction rules as [|rule rules IH]; intros permitted advice; cbn [decide_from]; [done|].
  rewrite filter_cons. destruct (rule_matches rule request) eqn:Hmatch; cbn [negb].
  2: { rewrite decide_False by done. apply IH. }
  rewrite decide_True by done. cbn zeta. rewrite filter_cons. destruct (tr_effect rule) eqn:Heffect.
  - rewrite decide_False by done. rewrite IH. cbn zeta.
    destruct (filter _ (filter _ rules)) as [|forbid ?]; [|done].
    destruct (filter _ rules) as [|r rs]; cbn [omap list_omap]; destruct (tr_advice rule); cbn;
      by rewrite ?app_nil_r, <- ?app_assoc.
  - by rewrite decide_True.
Qed.

(** ** Properties *)

(** Three halves: the decimal 1.5, in a snapshot with a [null] member. *)
Definition sample_policy_input : JsonValue :=
  JObject [("intervention_point", JString "output");
           ("snapshot", JObject [("agent", JObject [("id", JString "alice")]); ("gone", JNull);
             ("score", JNumber (Float 4609434218613702656))])].

Definition sample_request : CedarRequest :=
  mkCedarRequest (mkEntity "Agent" "alice") (mkEntity "Action" "output")
    (mkEntity "PolicyTarget" "unspecified")
    (JObject [("agent", JObject [("id", JString "alice")]); ("annotations", JObject []);
              ("score", decimal_extension "1.5000")]).

Example sample_builds : build_cedar_request sample_policy_input = Ok sample_request.
Proof. vm_compute. reflexivity. Qed.

Example sample_input_wf : json_wf sample_policy_input.
Proof. repeat (constructor; cbn). Qed.

(** C26: A Cedar request exists exactly when the policy input names an agent and an intervention point
    and its snapshot and annotations translate: the principal, action and resource are the agent, the
    point and the tool or target, and the context says exactly what the snapshot and the annotations
    say, in order, without their [null] members and with each float as a decimal: the nearest one of four
    digits, ties to even, as documented, with the exceptions [ten_thousandths] names. Where the double
    nearest to 10^4 times the float is half way between integers and the product is not, and from 2^53 on,
    it is that double that is rounded. *)
Theorem cedar_request_exact policy_input request :
  json_wf policy_input →
  build_cedar_request policy_input = Ok request ↔
  ∃ object snapshot id point own noted,
    policy_input = JObject object ∧
    bt_get pi_SNAPSHOT object = Some (JObject snapshot) ∧
    principal_id snapshot = Some id ∧
    bt_get pi_INTERVENTION_POINT object = Some (JString point) ∧
    bt_get pi_ANNOTATIONS snapshot = None ∧
    translates_members snapshot own ∧
    annotations_record (bt_get pi_ANNOTATIONS object) noted ∧
    request = mkCedarRequest (mkEntity "Agent" id) (mkEntity "Action" point) (resource_entity object)
      (JObject (bt_insert pi_ANNOTATIONS (JObject noted) own)).
Proof.
  intros Hwf. rewrite build_request_Ok. split.
  - intros (object & snapshot & id & point & ctx & -> & Hsnapshot & Hid & Hpoint & Hctx & ->).
    apply context_exact in Hctx as (Hclash & own & noted & Hown & Hnoted & ->);
      [|by eapply json_wf_member|intros v; by apply json_wf_member].
    by exists object, snapshot, id, point, own, noted.
  - intros (object & snapshot & id & point & own & noted & -> & Hsnapshot & Hid & Hpoint & Hclash & Hown
      & Hnoted & ->).
    eexists object, snapshot, id, point, _. split_and!; try done.
    apply context_exact; [by eapply json_wf_member|intros v; by apply json_wf_member|].
    split; [done|]. by exists own, noted.
Qed.

Lemma cedar_request_exact_witness :
  json_wf sample_policy_input ∧
  ∃ object snapshot id point own noted,
    sample_policy_input = JObject object ∧
    bt_get pi_SNAPSHOT object = Some (JObject snapshot) ∧
    principal_id snapshot = Some id ∧
    bt_get pi_INTERVENTION_POINT object = Some (JString point) ∧
    bt_get pi_ANNOTATIONS snapshot = None ∧
    translates_members snapshot own ∧
    annotations_record (bt_get pi_ANNOTATIONS object) noted ∧
    sample_request = mkCedarRequest (mkEntity "Agent" id) (mkEntity "Action" point) (resource_entity object)
      (JObject (bt_insert pi_ANNOTATIONS (JObject noted) own)).
Proof.
  split; [exact sample_input_wf|].
  exact (proj1 (cedar_request_exact _ _ sample_input_wf) sample_builds).
Defined.

(** No context value is a forged entity, extension or expression: a record with a key the Cedar
    format reserves is the decimal of a float of the policy input, and no [null] remains. *)
Theorem cedar_no_forgery policy_input request u :
  json_wf policy_input → build_cedar_request policy_input = Ok request → within u (context request) →
  u ≠ JNull ∧
  ∀ members key, u = JObject members → key ∈ CEDAR_RESERVED_KEYS → bt_contains key members = true →
    ∃ bits text, within (JNumber (Float bits)) policy_input ∧ float_to_decimal bits = Some text ∧
      u = decimal_extension text.
Proof.
  intros Hwf (object & snapshot & id & point & ctx & -> & Hsnapshot & _ & _ & Hctx & ->)%build_request_Ok Hu.
  by eapply context_forgery_free.
Qed.

Lemma cedar_no_forgery_witness :
  within (decimal_extension "1.5000") (context sample_request) ∧
  ∃ bits text, within (JNumber (Float bits)) sample_policy_input ∧ float_to_decimal bits = Some text ∧
    decimal_extension "1.5000" = decimal_extension text.
Proof.
  assert (within (decimal_extension "1.5000") (context sample_request)) as Hin.
  { eapply (within_member _ _ ("score", _)); [|constructor]. do 2 right. left. }
  split; [exact Hin|].
  refine (proj2 (cedar_no_forgery _ _ _ sample_input_wf sample_builds Hin) _ "__extn" eq_refl _ eq_refl).
  right. left.
Defined.

(** A decimal literal reads back to the scaled integer it was printed from, an [i64] nearest to the
    scaled double; a value is refused exactly when it is not finite or scales out of the [i64] range. *)
Theorem decimal_round_trip bits :
  match float_to_decimal bits with
  | Some text => ∃ scaled,
      read_decimal text = Some scaled ∧ (Z.abs scaled < 2 ^ 63)%Z ∧
      match f64_mul (f64_value bits) DECIMAL_SCALE with
      | SpecFloat.S754_zero _ => scaled = 0%Z
      | SpecFloat.S754_finite sign m e =>
          (2 * Z.abs ((if sign then -1 else 1) * (Zpos m * 2 ^ Z.max 0 e) - scaled * 2 ^ Z.max 0 (- e))
            <= 2 ^ Z.max 0 (- e))%Z
      | _ => False
      end
  | None => ∀ scaled, round_ties_even (f64_mul (f64_value bits) DECIMAL_SCALE) = Some scaled →
      (2 ^ 63 <= Z.abs scaled)%Z
  end.
Proof.
  unfold float_to_decimal. destruct (f64_mul _ _) as [sign|sign| |sign m e] eqn:Hmul; cbn [mbind option_bind];
    try done.
  - by exists 0%Z.
  - destruct (round_ties_even _) as [scaled|] eqn:Hround; [cbn|done].
    destruct (Z.leb_spec (2 ^ 63) (Z.abs scaled)); [by intros ? [= <-]|].
    exists scaled. split_and!; [by apply read_decimal_text|done|by apply round_ties_even_nearest].
Qed.

(** The test dispatcher's scan decides as the reference does: a matching forbid denies with the first
    such rule's reason, else any matching permit allows with all the matching permits' advice in order. *)
Theorem test_rules_reference rules request : decide_rules rules request = decide_reference rules request.
Proof. unfold decide_rules. rewrite decide_from_reference. by destruct (decide_reference rules request). Qed.
