(* ===== verification/CedarBuiltin.v ===== *)
(** * The bundled Cedar dispatcher: [mod builtin] of [engine/src/cedar.rs]

    What it reads, parses and keeps, the request it builds for the
    [cedar-policy] crate, and the verdict it makes of the answer. The crate
    and the file system are what the model is given. *)

From stdpp Require Import gmap strings.
From S2P Require Import Prelude OrdMap RustStd Json Errors AgentHooks Constants.
From S2P Require Import Pins StdPath Policy PolicyOutput Cedar.

(** ** The [cedar-policy] crate *)

(** Errors carry Cedar's own message; [*Other] stands for the variants the
    code does not name. *)
Inductive EvaluationError : Type :=
  | EntityDoesNotExist (message : string)
  | EntityAttrDoesNotExist (message : string)
  | RecordAttrDoesNotExist (message : string)
  | FailedExtensionFunctionLookup (message : string)
  | TypeError (message : string)
  | WrongNumArguments (message : string)
  | IntegerOverflow (message : string)
  | UnlinkedSlot (message : string)
  | FailedExtensionFunctionExecution (message : string)
  | RecursionLimit (message : string)
  | EvaluationOther (message : string).

Record AuthorizationError := mkAuthorizationError {
  ae_policy_id : string; ae_inner : EvaluationError }.

Inductive JsonDeserializationError : Type :=
  | JdNull (message : string)
  | JdTypeMismatch (message : string)
  | JdUnexpectedRecordAttr (message : string)
  | JdMissingRequiredRecordAttr (message : string)
  | JdParseEscape (message : string)
  | JdExpectedLiteralEntityRef (message : string)
  | JdExprTag (message : string)
  | JdExpectedExtnValue (message : string)
  | JdMissingImpliedConstructor (message : string)
  | JdIncorrectNumOfArguments (message : string)
  | JdFailedExtensionFunctionLookup (message : string)
  | JdRestrictedExpressionError (message : string)
  | JdDuplicateKey (message : string)
  | JdOther (message : string).

Inductive ContextJsonError : Type :=
  | JsonDeserialization (error : JsonDeserializationError)
  | ContextNotARecord (message : string)
  | ContextEvaluation (error : EvaluationError)
  | ContextExpressionConstruction (message : string)
  | MissingAction (message : string).

Inductive RequestValidationError : Type :=
  | InvalidContext (message : string)
  | OtherRequestValidation (message : string).

Inductive CedarDecision := CedarAllow | CedarDeny.

(** [Response]: the decision and its diagnostics. [response_reason] lists a
    set, in whatever order the crate iterates it. *)
Record Response := mkResponse {
  response_decision : CedarDecision;
  response_reason : list string;
  response_errors : list AuthorizationError }.

Class CedarEngine := {
  PolicySet : Type;
  CedarPolicy : Type;
  Schema : Type;
  Entities : Type;
  EntityUid : Type;
  CedarContext : Type;
  AuthzRequest : Type;
  policy_set_from_str : string → result string PolicySet;
  policy_set_policy : PolicySet → string → option CedarPolicy;
  policy_id : CedarPolicy → string;
  policy_annotation : CedarPolicy → string → option string;
  schema_from_json_str : string → result string Schema;
  validate_strict : Schema → PolicySet → result string ();
  entities_empty : Entities;
  entities_from_json_str : string → option Schema → result string Entities;
  (** [EntityTypeName::from_str], then [from_type_name_and_id]. *)
  entity_type_and_id : string → result string (string → EntityUid);
  context_from_json_value : JsonValue → result ContextJsonError CedarContext;
  request_new : EntityUid → EntityUid → EntityUid → CedarContext → option Schema →
    result RequestValidationError AuthzRequest;
  is_authorized : AuthzRequest → PolicySet → Entities → Response;
}.

(** ** Cache keys *)

Record CacheKey := mkCacheKey {
  ck_policy_set : option string;
  ck_policy_path : option string;
  ck_entities_path : option string;
  ck_schema_path : option string }.

#[export] Instance CacheKey_eq_dec : EqDecision CacheKey.
Proof. solve_decision. Defined.

#[export, refine] Instance CacheKey_countable : Countable CacheKey :=
  inj_countable' (λ k, (ck_policy_set k, ck_policy_path k, ck_entities_path k, ck_schema_path k))
    (λ t, let '(a, b, c, d) := t in mkCacheKey a b c d) _.
Proof. by intros []. Defined.

Definition CacheKey_of (invocation : CedarPolicyInvocation) : CacheKey :=
  mkCacheKey (ci_policy_set invocation) (ci_policy_path invocation) (ci_entities_path invocation)
    (ci_schema_path invocation).

(** [fs::read_to_string], with the error's text. *)
Notation Files := (string → result string string).

Definition MAX_CACHED_POLICY_SETS : nat := 64.

Section builtin.
Context `{CedarEngine} `{SerdeValue}.

(** ** Reading and parsing *)

Definition load_policy_text (files : Files) (invocation : CedarPolicyInvocation) : result RuntimeError string :=
  match ci_policy_set invocation, ci_policy_path invocation with
  | Some text, None => Ok text
  | None, Some path =>
      map_err (λ err, invocation_failed ("cedar builtin dispatcher failed to read policy_path '" +:+ path +:+
        "': " +:+ err)) (files path)
  | Some _, Some _ => Err (invocation_failed
      "cedar builtin dispatcher received both policy_set and policy_path; manifest validation must reject this earlier")
  | None, None => Err (invocation_failed
      "cedar builtin dispatcher requires either policy_set or policy_path")
  end.

Definition load_schema (files : Files) (path : option string) : result RuntimeError (option Schema) :=
  match path with
  | None => Ok None
  | Some path =>
      json_text ← map_err (λ err, invocation_failed
        ("cedar builtin dispatcher failed to read schema_path '" +:+ path +:+ "': " +:+ err)) (files path);
      schema ← map_err (λ err, invocation_failed
        ("cedar builtin dispatcher failed to parse schema_path '" +:+ path +:+ "': " +:+ err))
        (schema_from_json_str json_text);
      Ok (Some schema)
  end.

Definition validate_policy_set (policy_set : PolicySet) (schema : option Schema) : result RuntimeError () :=
  match schema with
  | None => Ok ()
  | Some schema =>
      map_err (λ result, invocation_failed
        ("cedar builtin dispatcher policy_set failed schema validation: " +:+ result))
        (validate_strict schema policy_set)
  end.

Definition load_entities (files : Files) (path : option string) (schema : option Schema)
  : result RuntimeError Entities :=
  match path with
  | None => Ok entities_empty
  | Some path =>
      json_text ← map_err (λ err, invocation_failed
        ("cedar builtin dispatcher failed to read entities_path '" +:+ path +:+ "': " +:+ err)) (files path);
      map_err (λ err, invocation_failed
        ("cedar builtin dispatcher failed to parse entities at '" +:+ path +:+ "': " +:+ err))
        (entities_from_json_str json_text schema)
  end.

Record Prepared := mkPrepared {
  pr_policy_set : PolicySet;
  pr_schema : option Schema;
  pr_entities : Entities }.

(** [Prepared::load]. *)
Definition prepared_load (files : Files) (invocation : CedarPolicyInvocation) : result RuntimeError Prepared :=
  policy_text ← load_policy_text files invocation;
  policy_set ← map_err (λ err, invocation_failed
    ("cedar builtin dispatcher failed to parse policy_set: " +:+ err)) (policy_set_from_str policy_text);
  schema ← load_schema files (ci_schema_path invocation);
  validate_policy_set policy_set schema ;;
  entities ← load_entities files (ci_entities_path invocation) schema;
  Ok (mkPrepared policy_set schema entities).

(** ** The shared cache *)

Record PreparedCache := mkCache {
  (** A poisoned mutex: [lock] fails. *)
  cache_poisoned : bool;
  cache_entries : gmap CacheKey Prepared }.

Definition cache_new : PreparedCache := mkCache false ∅.

Definition cache_len (cache : PreparedCache) : nat :=
  if cache_poisoned cache then 0 else size (cache_entries cache).

(** One locked [get]. *)
Definition cache_lookup (cache : PreparedCache) (key : CacheKey) : option Prepared :=
  if cache_poisoned cache then None else cache_entries cache !! key.

(** One locked [insert], under the cap. *)
Definition cache_store (cache : PreparedCache) (key : CacheKey) (prepared : Prepared) : PreparedCache :=
  if cache_poisoned cache then cache
  else if bool_decide (size (cache_entries cache) < MAX_CACHED_POLICY_SETS)%nat
    || bool_decide (is_Some (cache_entries cache !! key))
  then mkCache false (<[key := prepared]> (cache_entries cache))
  else cache.

(** [PreparedCache::refresh]; [cache] is the cache when the lock is taken,
    after the parse. *)
Definition refresh (files : Files) (cache : PreparedCache) (invocation : CedarPolicyInvocation)
  : result RuntimeError () * PreparedCache :=
  match prepared_load files invocation with
  | Err error => (Err error, cache)
  | Ok prepared => (Ok (), cache_store cache (CacheKey_of invocation) prepared)
  end.

(** [PreparedCache::prepared]: the lock is taken twice, and clones may use
    the cache in between; [cache] is what the first lock finds and [later]
    what the second does. *)
Definition prepared (files : Files) (cache later : PreparedCache) (invocation : CedarPolicyInvocation)
  : result RuntimeError Prepared * PreparedCache :=
  match cache_lookup cache (CacheKey_of invocation) with
  | Some prepared => (Ok prepared, later)
  | None =>
      match prepared_load files invocation with
      | Err error => (Err error, later)
      | Ok prepared => (Ok prepared, cache_store later (CacheKey_of invocation) prepared)
      end
  end.

(** [PolicyDispatcher::warm]. *)
Definition builtin_warm (files : Files) (cache : PreparedCache) (invocation : PreparedPolicyInvocation)
  : result RuntimeError () * PreparedCache :=
  match invocation with
  | PreparedCedar invocation => refresh files cache invocation
  | _ => (Ok (), cache)
  end.

(** ** Errors, by kind *)

Definition evaluation_error_kind (error : EvaluationError) : string :=
  match error with
  | EntityDoesNotExist _ => "an entity does not exist"
  | EntityAttrDoesNotExist _ => "an entity attribute or tag does not exist"
  | RecordAttrDoesNotExist _ => "a record attribute does not exist"
  | FailedExtensionFunctionLookup _ => "an extension function does not exist"
  | TypeError _ => "type error"
  | WrongNumArguments _ => "wrong number of arguments to an extension function"
  | IntegerOverflow _ => "integer overflow"
  | UnlinkedSlot _ => "a template slot is not linked"
  | FailedExtensionFunctionExecution _ => "an extension function failed"
  | RecursionLimit _ => "recursion limit reached"
  | EvaluationOther _ => "evaluation error"
  end.

Definition backtick : string := String (byte_of 96) "".

Definition describe_evaluation_error (error : AuthorizationError) : string :=
  "policy " +:+ backtick +:+ ae_policy_id error +:+ backtick +:+ ": " +:+
  evaluation_error_kind (ae_inner error).

Definition json_deserialization_error_kind (error : JsonDeserializationError) : string :=
  match error with
  | JdNull _ => "a value is null"
  | JdTypeMismatch _ => "a value does not match the type the schema declares"
  | JdUnexpectedRecordAttr _ => "a record has an attribute the schema does not declare"
  | JdMissingRequiredRecordAttr _ => "a record is missing an attribute the schema requires"
  | JdParseEscape _ | JdExpectedLiteralEntityRef _ | JdExprTag _ => "an escape did not parse"
  | JdExpectedExtnValue _ | JdMissingImpliedConstructor _ | JdIncorrectNumOfArguments _
  | JdFailedExtensionFunctionLookup _ | JdRestrictedExpressionError _ => "an extension value did not parse"
  | JdDuplicateKey _ => "a record has a duplicate key"
  | JdOther _ => "the context did not parse"
  end.

Definition describe_context_json_error (error : ContextJsonError) : string :=
  match error with
  | JsonDeserialization error => json_deserialization_error_kind error
  | ContextNotARecord _ => "the context is not a record"
  | ContextEvaluation error => evaluation_error_kind error
  | ContextExpressionConstruction _ => "a record has a duplicate key"
  | MissingAction _ => "the schema does not declare the action"
  end.

(** ** The authorizer request *)

Definition entity_uid (entity : CedarEntity) (field : string) : result RuntimeError EntityUid :=
  uid ← map_err (λ err, invocation_failed ("cedar builtin dispatcher failed to parse " +:+ field +:+
    " entity type '" +:+ entity_kind entity +:+ "': " +:+ err)) (entity_type_and_id (entity_kind entity));
  Ok (uid (entity_id entity)).

Definition build_authorizer_request (request : CedarRequest) (schema : option Schema)
  : result RuntimeError AuthzRequest :=
  p ← entity_uid (principal request) "principal";
  a ← entity_uid (action request) "action";
  r ← entity_uid (resource request) "resource";
  ctx ← map_err (λ err, invocation_failed
    ("cedar builtin dispatcher rejected the request context for " +:+ as_display (action request) +:+ ": " +:+
     describe_context_json_error err)) (context_from_json_value (context request));
  map_err (λ err, match err with
    | InvalidContext _ => invocation_failed
        ("cedar builtin dispatcher rejected the request context for " +:+ as_display (action request) +:+
         ": it does not match the context shape the schema declares for this action")
    | OtherRequestValidation other => invocation_failed
        ("cedar builtin dispatcher failed to build authorizer request: " +:+ other)
    end) (request_new p a r ctx schema).

(** ** The answer *)

Definition declaration_key (id : string) : N * string :=
  (default usize_max (strip_prefix "policy" id ≫= parse_usize_signed), id).

Definition declared_before (p q : CedarPolicy) : bool :=
  key_ltb (declaration_key (policy_id p)) (declaration_key (policy_id q)).

Definition contributing_policies (answer : Response) (policy_set : PolicySet) : list CedarPolicy :=
  sort_by declared_before (omap (policy_set_policy policy_set) (response_reason answer)).

Definition deny_reason (policy : CedarPolicy) : string :=
  match policy_annotation policy "id" with
  | Some id => if blank id then policy_id policy else id
  | None => policy_id policy
  end.

Definition translate_advice_annotation (advice : string) : result RuntimeError JsonValue :=
  advice ← map_err (λ err, PolicyOutputInvalid ("cedar @advice annotation is not valid JSON: " +:+ err))
    (value_from_str advice);
  translate_advice advice.

(** The match on the decision, once the authorizer has no errors. *)
Definition answer_verdict (answer : Response) (policy_set : PolicySet) : result RuntimeError JsonValue :=
  let contributing := contributing_policies answer policy_set in
  match response_decision answer with
  | CedarAllow =>
      verdicts ← map_result translate_advice_annotation
        (omap (λ policy, policy_annotation policy "advice") contributing);
      Ok (default allow_verdict (most_restrictive_advice verdicts))
  | CedarDeny =>
      Ok (deny_verdict match contributing with
          | [] => "no_matching_policy" | policy :: _ => deny_reason policy end)
  end.

(** What [evaluate] does with the prepared state. *)
Definition evaluate_prepared (state : Prepared) (invocation : CedarPolicyInvocation)
  : result RuntimeError JsonValue :=
  request ← build_cedar_request (ci_input invocation);
  cedar_request ← build_authorizer_request request (pr_schema state);
  let answer := is_authorized cedar_request (pr_policy_set state) (pr_entities state) in
  match describe_evaluation_error <$> response_errors answer with
  | [] => answer_verdict answer (pr_policy_set state)
  | hard_errors => Err (invocation_failed
      ("cedar builtin dispatcher authorizer reported errors: " +:+ join "; " hard_errors))
  end.

Definition builtin_evaluate_cedar (files : Files) (cache later : PreparedCache)
  (invocation : CedarPolicyInvocation) : result RuntimeError JsonValue * PreparedCache :=
  let '(state, cache) := prepared files cache later invocation in
  (state ← state; evaluate_prepared state invocation, cache).

Definition builtin_evaluate (files : Files) (cache later : PreparedCache)
  (invocation : PreparedPolicyInvocation) : result RuntimeError JsonValue * PreparedCache :=
  match invocation with
  | PreparedCedar invocation => builtin_evaluate_cedar files cache later invocation
  | other => (Err (invocation_failed
      ("cedar builtin dispatcher only supports Cedar invocations; received " +:+
       prepared_engine_type other +:+ " invocation")), later)
  end.
End builtin.
