(* ===== verification/CedarBuiltinFacts.v ===== *)
(** * The bundled Cedar dispatcher: cache, order and verdict

    The cache is bounded and invisible, the contributing policies come in
    declaration order however the crate lists them, and a verdict is what
    an error-free answer says. *)

From stdpp Require Import gmap strings sorting.
From S2P Require Import Prelude OrdMap RustStd Json Errors AgentHooks Constants.
From S2P Require Import Pins StdPath Policy PolicyOutput Cedar CedarFacts CedarBuiltin.

(** ** Declaration order *)

Lemma fmt_N_no_plus n : strip_prefix "+" (fmt_N n) = None.
Proof.
  pose proof (fmt_N_digits n) as Hd. destruct (fmt_N n) as [|c s]; [done|].
  cbn [all_bytes] in Hd. apply andb_true_iff in Hd as [Hc _]. cbn [strip_prefix].
  rewrite decide_False; [done|]. by intros <-.
Qed.

Lemma declaration_key_policy n :
  (n <= usize_max)%N → declaration_key ("policy" +:+ fmt_N n) = (n, "policy" +:+ fmt_N n).
Proof.
  intros Hn. unfold declaration_key.
  rewrite (proj2 (strip_prefix_Some "policy" _ (fmt_N n))) by done. cbn [mbind option_bind].
  unfold parse_usize_signed. rewrite fmt_N_no_plus. cbn [default]. by rewrite parse_usize_fmt.
Qed.

Section builtin_facts.
Context `{CedarEngine} `{SerdeValue}.

(** Documented behaviour of the crate: [PolicySet::policy] returns the
    policy with that id. *)
Class CedarEngineLaws : Prop := {
  policy_set_policy_id policy_set id policy :
    policy_set_policy policy_set id = Some policy → policy_id policy = id }.

Lemma contributing_ids `{!CedarEngineLaws} policy_set ids :
  NoDup ids → NoDup ((λ p, declaration_key (policy_id p)) <$> omap (policy_set_policy policy_set) ids).
Proof.
  induction 1 as [|id ids Hid _ IH]; cbn; [constructor|].
  destruct (policy_set_policy policy_set id) as [p|] eqn:Hp; [|done].
  cbn. apply NoDup_cons. split; [|done].
  intros (q & Heq & Hq)%list_elem_of_fmap. apply list_elem_of_omap in Hq as (id' & Hid' & Hq).
  apply policy_set_policy_id in Hp, Hq. unfold declaration_key in Heq. simplify_eq. congruence.
Qed.

(** ** The cache *)

Lemma prepared_load_key files i j :
  CacheKey_of i = CacheKey_of j → prepared_load files i = prepared_load files j.
Proof.
  unfold CacheKey_of. intros [= Hset Hpath Hentities Hschema].
  unfold prepared_load, load_policy_text. by rewrite Hset, Hpath, Hentities, Hschema.
Qed.

(** The caches a dispatcher and its clones can reach, where [may] are the
    states the file system is seen in. *)
Inductive cache_reachable (may : Files → Prop) : PreparedCache → Prop :=
  | reachable_new : cache_reachable may cache_new
  | reachable_warm files cache invocation :
      may files → cache_reachable may cache →
      cache_reachable may (builtin_warm files cache invocation).2
  | reachable_evaluate files cache later invocation :
      may files → cache_reachable may cache → cache_reachable may later →
      cache_reachable may (builtin_evaluate files cache later invocation).2.

Record cache_ok (may : Files → Prop) (cache : PreparedCache) : Prop := {
  cache_bound : (size (cache_entries cache) ≤ MAX_CACHED_POLICY_SETS)%nat;
  cache_loaded key state :
    cache_entries cache !! key = Some state →
    ∃ files invocation, may files ∧ CacheKey_of invocation = key ∧
      prepared_load files invocation = Ok state }.

Lemma cache_store_ok (may : Files → Prop) cache files invocation state :
  may files → prepared_load files invocation = Ok state → cache_ok may cache →
  cache_ok may (cache_store cache (CacheKey_of invocation) state).
Proof.
  intros Hfiles Hload [Hbound Hloaded]. unfold cache_store.
  destruct (cache_poisoned cache); [by split|].
  destruct (bool_decide (size _ < _) || _) eqn:Hroom; [|by split]. split; cbn.
  - apply orb_true_iff in Hroom as [Hroom|Hroom]; apply bool_decide_eq_true in Hroom.
    + rewrite map_size_insert. case_match; cbn; lia.
    + by rewrite map_size_insert_Some.
  - intros key state'. rewrite lookup_insert_Some. intros [[<- <-]|[_ Hkey]]; [eauto|by apply Hloaded].
Qed.

Lemma cache_reachable_ok may cache : cache_reachable may cache → cache_ok may cache.
Proof.
  induction 1 as [|files cache invocation Hf _ IH|files cache later invocation Hf _ _ _ IH].
  - split; cbn; [unfold MAX_CACHED_POLICY_SETS; rewrite map_size_empty; lia|].
    intros key state. by rewrite lookup_empty.
  - destruct invocation; cbn; try done. unfold refresh.
    destruct (prepared_load _ _) eqn:Hload; cbn; [by eapply cache_store_ok|done].
  - destruct invocation; cbn; try done. unfold builtin_evaluate_cedar, prepared.
    destruct (cache_lookup _ _); [done|].
    destruct (prepared_load _ _) eqn:Hload; cbn; [by eapply cache_store_ok|done].
Qed.

(** Evaluation without a cache. *)
Definition evaluate_afresh (files : Files) (invocation : PreparedPolicyInvocation)
  : result RuntimeError JsonValue :=
  match invocation with
  | PreparedCedar invocation =>
      state ← prepared_load files invocation; evaluate_prepared state invocation
  | other => (builtin_evaluate files cache_new cache_new other).1
  end.

(** The cache is invisible: while the files do not change, evaluating through any cache that
    activations and evaluations on any clone can have left gives what parsing afresh gives. *)
Theorem builtin_cache_transparent files cache later invocation :
  cache_reachable (λ seen, seen = files) cache →
  (builtin_evaluate files cache later invocation).1 = evaluate_afresh files invocation.
Proof.
  intros [_ Hloaded]%cache_reachable_ok. destruct invocation as [|invocation| |]; try done. cbn.
  unfold builtin_evaluate_cedar, prepared, cache_lookup.
  destruct (cache_poisoned cache); [by destruct (prepared_load files invocation)|].
  destruct (cache_entries cache !! CacheKey_of invocation) as [state|] eqn:Hhit.
  - apply Hloaded in Hhit as (? & i & -> & Hkey & Hload).
    by rewrite <- (prepared_load_key files i), Hload by done.
  - by destruct (prepared_load files invocation).
Qed.

(** However many policy sets a host synthesizes the cache keeps at most [MAX_CACHED_POLICY_SETS], and
    every entry is the parse of its own key against files that were seen. *)
Theorem builtin_cache_bounded may cache :
  cache_reachable may cache →
  (size (cache_entries cache) ≤ MAX_CACHED_POLICY_SETS)%nat ∧
  ∀ key state, cache_entries cache !! key = Some state →
    ∃ files invocation, may files ∧ CacheKey_of invocation = key ∧
      prepared_load files invocation = Ok state.
Proof. by intros [Hbound Hloaded]%cache_reachable_ok. Qed.

(** Once a policy is warmed a decision reads no file: it is decided on what the files said when it was
    warmed, even if a stale entry was there, unless the cache is poisoned or full of other policies. *)
Theorem builtin_warm_refreshes files cache invocation now later :
  (builtin_warm files cache (PreparedCedar invocation)).1 = Ok () →
  cache_poisoned cache = false →
  (size (cache_entries cache) < MAX_CACHED_POLICY_SETS)%nat ∨
    is_Some (cache_entries cache !! CacheKey_of invocation) →
  (builtin_evaluate now (builtin_warm files cache (PreparedCedar invocation)).2 later
    (PreparedCedar invocation)).1 =
  evaluate_afresh files (PreparedCedar invocation).
Proof.
  intros Hwarm Hlock Hroom. cbn in *. unfold refresh in *.
  destruct (prepared_load files invocation) as [state|] eqn:Hload; [|done]. cbn.
  unfold builtin_evaluate_cedar, prepared, cache_lookup, cache_store. rewrite Hlock.
  assert (bool_decide (size (cache_entries cache) < MAX_CACHED_POLICY_SETS)%nat ||
    bool_decide (is_Some (cache_entries cache !! CacheKey_of invocation)) = true) as ->.
  { apply orb_true_iff. rewrite !bool_decide_eq_true. exact Hroom. }
  cbn. by rewrite lookup_insert_eq.
Qed.

(** ** The verdict *)

Definition advice_of (policy : CedarPolicy) (verdict : JsonValue) : Prop :=
  ∃ text advice, policy_annotation policy "advice" = Some text ∧ value_from_str text = Ok advice ∧
    translate_advice advice = Ok verdict.

(** What the specification makes of an answer without errors. *)
Inductive verdict_of (answer : Response) (policies : list CedarPolicy) : JsonValue → Prop :=
  | verdict_no_policy :
      response_decision answer = CedarDeny → policies = [] →
      verdict_of answer policies (deny_verdict "no_matching_policy")
  | verdict_forbid policy rest :
      response_decision answer = CedarDeny → policies = policy :: rest →
      verdict_of answer policies (deny_verdict (deny_reason policy))
  | verdict_allow :
      response_decision answer = CedarAllow →
      (∀ policy, policy ∈ policies → policy_annotation policy "advice" = None) →
      verdict_of answer policies allow_verdict
  (** The first of the most restrictive advice; none is left untranslated. *)
  | verdict_advice policy verdict before after :
      response_decision answer = CedarAllow → policies = before ++ policy :: after →
      advice_of policy verdict →
      (∀ q, q ∈ policies → policy_annotation q "advice" = None ∨ ∃ w, advice_of q w) →
      (∀ q w, q ∈ before → advice_of q w → (verdict_rank verdict < verdict_rank w)%N) →
      (∀ q w, q ∈ after → advice_of q w → (verdict_rank verdict <= verdict_rank w)%N) →
      verdict_of answer policies verdict.

Lemma translate_annotation_Ok text verdict :
  translate_advice_annotation text = Ok verdict ↔
  ∃ advice, value_from_str text = Ok advice ∧ translate_advice advice = Ok verdict.
Proof. unfold translate_advice_annotation. rewrite bind_Ok. by setoid_rewrite map_err_Ok. Qed.

Lemma advice_of_functional policy v w : advice_of policy v → advice_of policy w → v = w.
Proof. intros (? & ? & ? & ? & ?) (? & ? & ? & ? & ?). congruence. Qed.

Lemma omap_split {A B} (f : A → option B) l before x after :
  omap f l = before ++ x :: after →
  ∃ l1 y l2, l = l1 ++ y :: l2 ∧ omap f l1 = before ∧ f y = Some x ∧ omap f l2 = after.
Proof.
  revert before. induction l as [|y l IH]; intros before; cbn; [by destruct before|].
  destruct (f y) as [z|] eqn:Hy.
  - destruct before as [|z' before]; cbn; intros [= -> Hl]; [by exists [], y, l|].
    destruct (IH _ Hl) as (l1 & y' & l2 & -> & <- & Hy' & <-).
    exists (y :: l1), y', l2. cbn. by rewrite Hy.
  - intros Hl. destruct (IH _ Hl) as (l1 & y' & l2 & -> & <- & Hy' & <-).
    exists (y :: l1), y', l2. cbn. by rewrite Hy.
Qed.

(** The verdicts of a list of policies, one for each that carries advice. *)
Lemma advised_elem policies verdicts (P : JsonValue → Prop) :
  Forall2 (λ text v, translate_advice_annotation text = Ok v)
    (omap (λ policy, policy_annotation policy "advice") policies) verdicts →
  Forall P verdicts →
  ∀ q, q ∈ policies → policy_annotation q "advice" = None ∨ ∃ w, advice_of q w ∧ P w.
Proof.
  intros Hall HP q Hq. destruct (policy_annotation q "advice") as [text|] eqn:Htext; [right|by left].
  assert (text ∈ omap (λ policy, policy_annotation policy "advice") policies) as Hin
    by (apply list_elem_of_omap; by exists q).
  apply list_elem_of_lookup in Hin as [i Hi].
  destruct (Forall2_lookup_l _ _ _ _ _ Hall Hi) as (w & Hw & (advice & ? & ?)%translate_annotation_Ok).
  exists w. split; [by exists text, advice|]. by eapply Forall_lookup_1.
Qed.

Lemma advised_bound policies verdicts (P : JsonValue → Prop) q w :
  Forall2 (λ text v, translate_advice_annotation text = Ok v)
    (omap (λ policy, policy_annotation policy "advice") policies) verdicts →
  Forall P verdicts → q ∈ policies → advice_of q w → P w.
Proof.
  intros Hall HP Hq Hw. destruct (advised_elem _ _ _ Hall HP q Hq) as [Hnone|(w' & Hw' & ?)].
  - destruct Hw as (? & ? & ? & _). congruence.
  - by rewrite (advice_of_functional _ _ _ Hw Hw').
Qed.

Lemma answer_verdict_sound answer policy_set verdict :
  answer_verdict answer policy_set = Ok verdict →
  verdict_of answer (contributing_policies answer policy_set) verdict.
Proof.
  unfold answer_verdict. destruct (response_decision answer) eqn:Hdecision.
  2: { intros [= <-]. destruct (contributing_policies _ _) eqn:Hpolicies; by econstructor. }
  generalize (contributing_policies answer policy_set) as policies. intros policies.
  rewrite bind_Ok. intros (verdicts & Hall%map_result_Ok & [= <-]).
  destruct (most_restrictive_advice verdicts) as [v|] eqn:Hmin; cbn [default].
  - apply min_by_key_first in Hmin as (b & a & -> & Hb & Ha).
    pose proof (proj1 (Forall2_app_inv_r _ _ _ _) Hall) as (tb & ta' & Htb & Hta' & Htexts).
    inversion Hta' as [|text ? ta ? Htext Hta]; subst.
    apply omap_split in Htexts as (before & policy & after & -> & <- & Hpolicy & <-).
    eapply (verdict_advice _ _ policy v before after); [done|done| | | |].
    + apply translate_annotation_Ok in Htext as (advice & ? & ?). by exists text, advice.
    + intros q Hq. destruct (advised_elem _ _ (λ _, True) Hall ltac:(by apply Forall_true) q Hq)
        as [?|(w & ? & _)]; eauto.
    + intros q w Hq. by eapply (advised_bound before b (λ w, (verdict_rank v < verdict_rank w)%N)).
    + intros q w Hq. by eapply (advised_bound after a (λ w, (verdict_rank v <= verdict_rank w)%N)).
  - apply min_by_key_None in Hmin as ->. apply verdict_allow; [done|]. intros policy Hpolicy.
    destruct (advised_elem _ _ (λ _, False) Hall ltac:(constructor) policy Hpolicy) as [?|(? & ? & [])]; done.
Qed.

(** C25: The bundled dispatcher answers only for a Cedar invocation whose state, request and context all
    parse and whose evaluation reported no error in any policy; then a denial of the engine is a denial
    with the first contributing policy's reason, and an allow is an allow unless contributing policies
    carry advice, all of which translates, and then it is the first of the most restrictive. *)
Theorem builtin_verdict_sound files cache later invocation verdict :
  (builtin_evaluate files cache later invocation).1 = Ok verdict →
  ∃ cedar state request authz,
    invocation = PreparedCedar cedar ∧
    (prepared files cache later cedar).1 = Ok state ∧
    build_cedar_request (ci_input cedar) = Ok request ∧
    build_authorizer_request request (pr_schema state) = Ok authz ∧
    let answer := is_authorized authz (pr_policy_set state) (pr_entities state) in
    response_errors answer = [] ∧
    verdict_of answer (contributing_policies answer (pr_policy_set state)) verdict.
Proof.
  destruct invocation as [|cedar| |]; try done. cbn. unfold builtin_evaluate_cedar.
  destruct (prepared files cache later cedar) as [state cache'] eqn:Hstate. cbn.
  intros (loaded & -> & Hverdict)%bind_Ok. unfold evaluate_prepared in Hverdict.
  apply bind_Ok in Hverdict as (request & Hrequest & Hverdict).
  apply bind_Ok in Hverdict as (authz & Hauthz & Hverdict).
  exists cedar, loaded, request, authz. split; [done|]. split; [by rewrite Hstate|]. do 2 (split; [done|]). cbn zeta in *.
  destruct (response_errors _) as [|error errors]; [|done]. split; [done|]. by apply answer_verdict_sound.
Qed.

(** The contributing policies do not depend on the order the crate lists a decision's reasons in: they
    are the listed policies, those the text declares earlier first. *)
Theorem contributing_in_order `{!CedarEngineLaws} policy_set answer other :
  NoDup (response_reason answer) → response_reason answer ≡ₚ response_reason other →
  contributing_policies other policy_set = contributing_policies answer policy_set ∧
  (∀ policy, policy ∈ contributing_policies answer policy_set ↔
    ∃ id, id ∈ response_reason answer ∧ policy_set_policy policy_set id = Some policy) ∧
  (∀ before p mid q after i j,
    contributing_policies answer policy_set = before ++ p :: mid ++ q :: after →
    policy_id p = "policy" +:+ fmt_N i → policy_id q = "policy" +:+ fmt_N j →
    (i <= usize_max)%N → (j <= usize_max)%N → (i < j)%N).
Proof.
  intros Hnd Hperm. pose proof (contributing_ids policy_set _ Hnd) as Hids. split_and!.
  - symmetry. apply (sort_by_order_independent (λ p, declaration_key (policy_id p))); [done|].
    by rewrite Hperm.
  - intros policy. unfold contributing_policies. rewrite sort_by_Permutation. apply list_elem_of_omap.
  - intros before p mid q after i j Heq Hp Hq Hi Hj.
    pose proof (sort_by_sorted (λ p, declaration_key (policy_id p)) _ Hids
      : StronglySorted _ (contributing_policies answer policy_set)) as Hsorted.
    rewrite Heq in Hsorted. apply StronglySorted_app in Hsorted as (_ & _ & Hsorted).
    apply StronglySorted_cons in Hsorted as [Hlt _]. apply Forall_app in Hlt as [_ [Hlt _]%Forall_cons].
    rewrite Hp, Hq, !declaration_key_policy in Hlt by done.
    destruct (N.lt_total i j) as [?|[->|Hji]]; [done|by apply (irreflexivity key_lt) in Hlt|].
    exfalso. revert Hlt. unfold key_lt. cbn. rewrite (proj2 (N.ltb_ge i j)) by lia.
    rewrite bool_decide_false by lia. done.
Qed.
End builtin_facts.

(** ** A demonstration engine

    Two policies, listed out of order; every request is denied by both. *)

Module Demo.

Definition demo_policy (id : string) : option string :=
  if bool_decide (id ∈ ["policy9"; "policy10"]) then Some id else None.

#[export] Instance demo_engine : CedarEngine := {|
  PolicySet := string; CedarPolicy := string; Schema := string; Entities := (); EntityUid := CedarEntity;
  CedarContext := JsonValue; AuthzRequest := CedarEntity;
  policy_set_from_str := Ok;
  policy_set_policy _ := demo_policy;
  policy_id p := p;
  policy_annotation p key := if bool_decide (p = "policy9" ∧ key = "id") then Some "over_budget" else None;
  schema_from_json_str := Ok;
  validate_strict _ _ := Ok ();
  entities_empty := ();
  entities_from_json_str _ _ := Ok ();
  entity_type_and_id kind := Ok (mkEntity kind);
  context_from_json_value := Ok;
  request_new p _ _ _ _ := Ok p;
  is_authorized _ _ _ := mkResponse CedarDeny ["policy10"; "policy9"] [] |}.

#[export] Instance demo_value : SerdeValue := {| value_from_str _ := Err "no JSON here" |}.

#[export] Instance demo_engine_laws : CedarEngineLaws.
Proof. split. intros set id policy. cbn. unfold demo_policy. case_bool_decide; naive_solver. Qed.

Definition no_files : Files := λ path, Err ("no file " +:+ path).

Definition demo_cedar : CedarPolicyInvocation :=
  mkCedarInvocation (Some "forbid") None None None sample_policy_input "".

Definition warmed : PreparedCache := (builtin_warm no_files cache_new (PreparedCedar demo_cedar)).2.

Lemma warmed_reachable : cache_reachable (λ seen, seen = no_files) warmed.
Proof. apply reachable_warm; [done|constructor]. Qed.
End Demo.

Section witnesses.
Import Demo.
#[local] Existing Instances demo_engine demo_engine_laws demo_value.

Lemma builtin_cache_transparent_witness :
  cache_reachable (λ seen, seen = no_files) warmed ∧
  (builtin_evaluate no_files warmed warmed (PreparedCedar demo_cedar)).1 =
    evaluate_afresh no_files (PreparedCedar demo_cedar).
Proof.
  split; [exact warmed_reachable|].
  exact (builtin_cache_transparent no_files warmed warmed (PreparedCedar demo_cedar) warmed_reachable).
Defined.

Lemma builtin_cache_bounded_witness :
  (size (cache_entries warmed) ≤ MAX_CACHED_POLICY_SETS)%nat.
Proof. exact (proj1 (builtin_cache_bounded _ _ warmed_reachable)). Defined.

Lemma builtin_warm_refreshes_witness :
  (builtin_evaluate no_files warmed warmed (PreparedCedar demo_cedar)).1 =
  evaluate_afresh no_files (PreparedCedar demo_cedar).
Proof.
  refine (builtin_warm_refreshes no_files cache_new demo_cedar no_files warmed _ _ _).
  - vm_compute. reflexivity.
  - reflexivity.
  - left. unfold MAX_CACHED_POLICY_SETS. cbn. rewrite map_size_empty. lia.
Defined.

Example demo_verdict :
  (builtin_evaluate no_files cache_new cache_new (PreparedCedar demo_cedar)).1 =
    Ok (deny_verdict "over_budget").
Proof. vm_compute. reflexivity. Qed.

Lemma builtin_verdict_sound_witness :
  ∃ state authz,
    let answer := is_authorized authz (pr_policy_set state) (pr_entities state) in
    verdict_of answer (contributing_policies answer (pr_policy_set state)) (deny_verdict "over_budget").
Proof.
  destruct (builtin_verdict_sound _ _ _ _ _ demo_verdict)
    as (_ & state & _ & authz & _ & _ & _ & _ & _ & Hverdict).
  by exists state, authz.
Defined.

Lemma contributing_in_order_witness :
  contributing_policies (mkResponse CedarDeny ["policy9"; "policy10"] []) "forbid" =
  contributing_policies (mkResponse CedarDeny ["policy10"; "policy9"] []) "forbid".
Proof.
  refine (proj1 (contributing_in_order "forbid" (mkResponse CedarDeny ["policy10"; "policy9"] [])
    (mkResponse CedarDeny ["policy9"; "policy10"] []) _ _)).
  - apply (bool_decide_unpack _). vm_compute. exact I.
  - apply Permutation_swap.
Defined.
End witnesses.
