(* ===== verification/Workers.v ===== *)
(** * The worker pool: [WorkerPool] of [engine/src/rego.rs]

    Evaluation runs on pooled threads so that a deadline holds even where
    the engine cannot be interrupted. The pool is a transition system: any
    number of runs (calls of [run_with_deadline]) and worker threads, whose
    atomic steps interleave in any order. A thread, its two channels and its
    [WorkerState] are one [Worker]; workers and runs are named by their
    index. Nothing panics while it holds the lock of the idle list, so
    [lock] never fails. *)

From S2P Require Import Prelude RustStd Json Errors Cedar.

Notation EvalOutcome := (result RuntimeError JsonValue).

Definition MAX_ABANDONED_WORKERS : N := 32.
Definition MAX_IDLE_WORKERS : nat := 16.

Definition WORKER_RUNNING : N := 0.
Definition WORKER_ABANDONED : N := 1.
Definition WORKER_FINISHED : N := 2.

(** ** Data *)

(** Where a worker thread is. *)
Inductive ThreadPhase : Type :=
  | Receiving                        (** at [job_receiver.recv()] *)
  | Working (run : nat)              (** in the job of this run *)
  | Sending (outcome : EvalOutcome)  (** at [outcome_sender.send] *)
  | Leaving                          (** about to drop its [LiveCount] *)
  | Refunding                        (** in that drop, before [fetch_sub] *)
  | Gone.                            (** its channel ends are dropped too *)

Record Worker := mkWorker {
  w_jobs : list nat;
  w_jobs_open : bool;                (** the sender is alive *)
  w_outcomes : list EvalOutcome;
  w_outcomes_open : bool;            (** the receiver is alive *)
  w_state : N;
  w_thread : ThreadPhase }.

Inductive DeadlineOutcome : Type :=
  | Completed (outcome : EvalOutcome)
  | TimedOut
  | Unavailable (error : RuntimeError).

(** Where a run is in [run_with_deadline]. *)
Inductive RunPhase : Type :=
  | Taking                                          (** [take_idle] *)
  | Checking                                        (** [spawn_worker], the load *)
  | Spawning                                        (** [Worker::spawn] *)
  | Submitting (worker : nat)                       (** [jobs.send] *)
  | Awaiting (worker : nat)                         (** [recv_timeout] *)
  | Releasing (worker : nat) (outcome : EvalOutcome)
  | Abandoning (worker : nat)                       (** [abandon], the exchange *)
  | Charging (worker : nat)                         (** [abandon], [fetch_add] *)
  | Charged (worker : nat)                          (** dropping the abandoned worker *)
  | Dropping (worker : nat) (outcome : DeadlineOutcome)
  | Returned (outcome : DeadlineOutcome).

Record WorkerPool := mkPool {
  idle : list nat;                                  (** the top of the stack first *)
  abandoned : N;
  workers : list Worker;
  runs : list RunPhase }.

Definition pool_new : WorkerPool := mkPool [] 0 [] [].

(** What [Worker::spawn] makes. *)
Definition worker_new : Worker := mkWorker [] true [] true WORKER_RUNNING Receiving.

(** ** Steps *)

(** [fetch_add] and [fetch_sub] of an [AtomicUsize] wrap. *)
Definition fetch_add_1 (n : N) : N := ((n + 1) mod 2 ^ 64)%N.
Definition fetch_sub_1 (n : N) : N := ((n + (2 ^ 64 - 1)) mod 2 ^ 64)%N.

Definition limit_error (abandoned : N) : RuntimeError :=
  invocation_failed (fmt_N abandoned +:+
    " Rego evaluations are still running past their timeout and cannot be interrupted, at the limit of " +:+
    fmt_N MAX_ABANDONED_WORKERS +:+
    "; refusing to start another. Raise ACS_OPA_TIMEOUT_MS, or fix the policy that is not terminating").
Definition spawn_error (err : string) : RuntimeError :=
  invocation_failed ("failed to start Rego evaluation thread: " +:+ err).
Definition not_accepted : RuntimeError :=
  invocation_failed "Rego evaluation thread ended before it accepted the query".
Definition no_verdict : RuntimeError :=
  invocation_failed "Rego evaluation thread ended without producing a verdict".

Definition set_run (c : nat) (phase : RunPhase) (p : WorkerPool) : WorkerPool :=
  mkPool (idle p) (abandoned p) (workers p) (<[c := phase]> (runs p)).
Definition set_worker (i : nat) (w : Worker) (p : WorkerPool) : WorkerPool :=
  mkPool (idle p) (abandoned p) (<[i := w]> (workers p)) (runs p).
Definition set_thread (phase : ThreadPhase) (w : Worker) : Worker :=
  mkWorker (w_jobs w) (w_jobs_open w) (w_outcomes w) (w_outcomes_open w) (w_state w) phase.
Definition set_state (state : N) (w : Worker) : Worker :=
  mkWorker (w_jobs w) (w_jobs_open w) (w_outcomes w) (w_outcomes_open w) state (w_thread w).

(** Dropping the [Worker]: both of the caller's channel ends close. *)
Definition drop_worker (w : Worker) : Worker :=
  mkWorker (w_jobs w) false (w_outcomes w) false (w_state w) (w_thread w).

Definition gone (w : Worker) : bool := match w_thread w with Gone => true | _ => false end.

Section pool.
(** What the job of each run returns; [None] is a panic. *)
Variable work : nat → option EvalOutcome.

(** [WorkerPool::release]. *)
Definition release (c i : nat) (outcome : EvalOutcome) (p : WorkerPool) : WorkerPool :=
  if (length (idle p) <? MAX_IDLE_WORKERS)%nat then
    mkPool (i :: idle p) (abandoned p) (workers p) (<[c := Returned (Completed outcome)]> (runs p))
  else set_run c (Dropping i (Completed outcome)) p.

(** The next step of a run; [None] while it is blocked or has returned. *)
Definition run_step (c : nat) (p : WorkerPool) : option WorkerPool :=
  phase ← runs p !! c;
  match phase with
  | Taking =>
      match idle p with
      | i :: rest => Some (mkPool rest (abandoned p) (workers p) (<[c := Submitting i]> (runs p)))
      | [] => Some (set_run c Checking p)
      end
  | Checking =>
      if (MAX_ABANDONED_WORKERS <=? abandoned p)%N
      then Some (set_run c (Returned (Unavailable (limit_error (abandoned p)))) p)
      else Some (set_run c Spawning p)
  | Spawning =>
      Some (mkPool (idle p) (abandoned p) (workers p ++ [worker_new])
        (<[c := Submitting (length (workers p))]> (runs p)))
  | Submitting i =>
      w ← workers p !! i;
      if gone w then Some (set_run c (Dropping i (Unavailable not_accepted)) p)
      else Some (set_run c (Awaiting i) (set_worker i
        (mkWorker (w_jobs w ++ [c]) (w_jobs_open w) (w_outcomes w) (w_outcomes_open w) (w_state w)
          (w_thread w)) p))
  | Awaiting i =>
      w ← workers p !! i;
      match w_outcomes w with
      | outcome :: rest => Some (set_run c (Releasing i outcome) (set_worker i
          (mkWorker (w_jobs w) (w_jobs_open w) rest (w_outcomes_open w) (w_state w) (w_thread w)) p))
      | [] => if gone w then Some (set_run c (Dropping i (Completed (Err no_verdict))) p) else None
      end
  | Releasing i outcome => Some (release c i outcome p)
  | Abandoning i =>
      w ← workers p !! i;
      if (w_state w =? WORKER_RUNNING)%N
      then Some (set_run c (Charging i) (set_worker i (set_state WORKER_ABANDONED w) p))
      else Some (set_run c (Dropping i TimedOut) p)
  | Charging i =>
      Some (mkPool (idle p) (fetch_add_1 (abandoned p)) (workers p) (<[c := Charged i]> (runs p)))
  | Charged i =>
      w ← workers p !! i; Some (set_run c (Returned TimedOut) (set_worker i (drop_worker w) p))
  | Dropping i outcome =>
      w ← workers p !! i; Some (set_run c (Returned outcome) (set_worker i (drop_worker w) p))
  | Returned _ => None
  end.

(** The next step of a thread; [None] while it is blocked or gone. *)
Definition thread_step (i : nat) (p : WorkerPool) : option WorkerPool :=
  w ← workers p !! i;
  match w_thread w with
  | Receiving =>
      match w_jobs w with
      | c :: rest => Some (set_worker i
          (mkWorker rest (w_jobs_open w) (w_outcomes w) (w_outcomes_open w) (w_state w) (Working c)) p)
      | [] => if w_jobs_open w then None else Some (set_worker i (set_thread Leaving w) p)
      end
  | Working c =>
      Some (set_worker i
        (set_thread match work c with Some outcome => Sending outcome | None => Leaving end w) p)
  | Sending outcome =>
      if w_outcomes_open w then Some (set_worker i
        (mkWorker (w_jobs w) (w_jobs_open w) (w_outcomes w ++ [outcome]) true (w_state w) Receiving) p)
      else Some (set_worker i (set_thread Leaving w) p)
  | Leaving =>
      if (w_state w =? WORKER_RUNNING)%N
      then Some (set_worker i (set_thread Gone (set_state WORKER_FINISHED w)) p)
      else Some (set_worker i (set_thread Refunding w) p)
  | Refunding =>
      Some (mkPool (idle p) (fetch_sub_1 (abandoned p)) (<[i := set_thread Gone w]> (workers p)) (runs p))
  | Gone => None
  end.

Inductive Event : Type :=
  | EvStart
  | EvRun (run : nat)
  | EvDeadline (run : nat)
  | EvSpawnFails (run : nat) (err : string)
  | EvThread (worker : nat).

Definition pool_step (e : Event) (p : WorkerPool) : option WorkerPool :=
  match e with
  | EvStart => Some (mkPool (idle p) (abandoned p) (workers p) (runs p ++ [Taking]))
  | EvRun c => run_step c p
  | EvDeadline c =>
      phase ← runs p !! c;
      match phase with
      | Awaiting i =>
          w ← workers p !! i;
          match w_outcomes w with [] => Some (set_run c (Abandoning i) p) | _ => None end
      | _ => None
      end
  | EvSpawnFails c err =>
      phase ← runs p !! c;
      match phase with
      | Spawning => Some (set_run c (Returned (Unavailable (spawn_error err))) p)
      | _ => None
      end
  | EvThread i => thread_step i p
  end.

Definition in_flight (phase : RunPhase) : bool :=
  match phase with Returned _ => false | _ => true end.

Definition count {A} (f : A → bool) (l : list A) : nat := length (List.filter f l).

(** The states a pool can be in when at most [limit] runs are under way at
    a time. *)
Inductive pool_reachable (limit : nat) : WorkerPool → Prop :=
  | pool_reachable_new : pool_reachable limit pool_new
  | pool_reachable_step e p p' :
      pool_reachable limit p → pool_step e p = Some p' → (count in_flight (runs p') ≤ limit)%nat →
      pool_reachable limit p'.

(** A schedule, for samples. *)
Fixpoint pool_run (schedule : list Event) (p : WorkerPool) : option WorkerPool :=
  match schedule with
  | [] => Some p
  | e :: schedule => p ← pool_step e p; pool_run schedule p
  end.
End pool.
