(* ===== verification/WorkersSafety.v ===== *)
(** * The worker pool is safe under every interleaving

    A run that returns an outcome returns its own job's; the abandoned
    counter is the number of abandoned threads still running, up to the
    charges under way; and at most [MAX_ABANDONED_WORKERS - 1] threads more
    than there are runs at a time are ever in use. *)

From S2P Require Import Prelude RustStd Json Errors Cedar Workers.

#[local] Arguments count : simpl never.

(** ** Counting *)

Section counting.
Context {A : Type} (f : A → bool).

Definition one (b : bool) : nat := if b then 1 else 0.

Lemma count_cons x l : count f (x :: l) = (one (f x) + count f l)%nat.
Proof. unfold count, one. cbn. by destruct (f x). Qed.

Lemma count_app l k : count f (l ++ k) = (count f l + count f k)%nat.
Proof. unfold count. by rewrite List.filter_app, length_app. Qed.

Lemma count_insert i x y l :
  l !! i = Some x → (count f (<[i := y]> l) + one (f x) = count f l + one (f y))%nat.
Proof.
  revert i. induction l as [|z l IH]; intros [|i]; try done; cbn [lookup list_lookup].
  - intros [= ->]. change (<[0%nat := y]> (x :: l)) with (y :: l). rewrite !count_cons. lia.
  - intros Hi. change (<[S i := y]> (z :: l)) with (z :: <[i := y]> l). rewrite !count_cons.
    specialize (IH _ Hi). lia.
Qed.

Lemma count_pos i x l : l !! i = Some x → f x = true → (0 < count f l)%nat.
Proof.
  intros Hi Hx. pose proof (count_insert i x x l Hi) as Hc.
  apply list_elem_of_lookup_2, list_elem_of_split in Hi as (l1 & l2 & ->).
  rewrite count_app, count_cons, Hx. cbn. lia.
Qed.
End counting.

Lemma count_zero {A} (f : A → bool) l : (∀ i x, l !! i = Some x → f x = false) → count f l = 0%nat.
Proof.
  induction l as [|x l IH]; [done|]. intros Hl. rewrite count_cons, (Hl 0%nat x eq_refl), IH; [done|].
  intros i. apply (Hl (S i)).
Qed.

Lemma count_le {A} (f g : A → bool) l :
  (∀ i x, l !! i = Some x → f x = true → g x = true) → (count f l ≤ count g l)%nat.
Proof.
  induction l as [|x l IH]; [done|]. intros Hl. rewrite !count_cons.
  specialize (IH (λ i, Hl (S i))). specialize (Hl 0%nat x eq_refl). unfold one.
  destruct (f x); [rewrite Hl by done; lia|]. destruct (g x); lia.
Qed.

(** ** Who holds which worker *)

Definition holder (phase : RunPhase) : option nat :=
  match phase with
  | Submitting i | Awaiting i | Releasing i _ | Abandoning i | Charging i | Charged i | Dropping i _ => Some i
  | Taking | Checking | Spawning | Returned _ => None
  end.

Definition thread_ok (w : Worker) : Prop :=
  match w_thread w with
  | Refunding => w_state w = WORKER_ABANDONED
  | Gone => w_state w = WORKER_ABANDONED ∨ w_state w = WORKER_FINISHED
  | _ => w_state w = WORKER_RUNNING ∨ w_state w = WORKER_ABANDONED
  end.

Section pool.
Context (work : nat → option EvalOutcome).

(** What [run_with_deadline] may return to a run. *)
Definition outcome_ok (c : nat) (outcome : DeadlineOutcome) : Prop :=
  match outcome with
  | Completed result => work c = Some result ∨ (work c = None ∧ result = Err no_verdict)
  | TimedOut => True
  | Unavailable error =>
      (∃ n, (MAX_ABANDONED_WORKERS <= n)%N ∧ error = limit_error n) ∨ (∃ err, error = spawn_error err)
  end.

(** A worker between taking the job of run [c] and giving its outcome. *)
Inductive serving (c : nat) : Worker → Prop :=
  | serving_queued : serving c (mkWorker [c] true [] true WORKER_RUNNING Receiving)
  | serving_working : serving c (mkWorker [] true [] true WORKER_RUNNING (Working c))
  | serving_sending o : work c = Some o → serving c (mkWorker [] true [] true WORKER_RUNNING (Sending o))
  | serving_sent o : work c = Some o → serving c (mkWorker [] true [o] true WORKER_RUNNING Receiving)
  | serving_leaving : work c = None → serving c (mkWorker [] true [] true WORKER_RUNNING Leaving)
  | serving_gone : work c = None → serving c (mkWorker [] true [] true WORKER_FINISHED Gone).

Definition run_ok (ws : list Worker) (c : nat) (phase : RunPhase) : Prop :=
  match phase with
  | Taking | Checking | Spawning => True
  | Submitting i => ws !! i = Some worker_new
  | Awaiting i | Abandoning i => ∃ w, ws !! i = Some w ∧ serving c w
  | Releasing i outcome => ws !! i = Some worker_new ∧ work c = Some outcome
  | Charging i | Charged i => ∃ w, ws !! i = Some w ∧ w_state w = WORKER_ABANDONED ∧ w_jobs_open w = true
  | Dropping i outcome =>
      (∃ w, ws !! i = Some w ∧ w_state w ≠ WORKER_ABANDONED ∧ w_jobs_open w = true) ∧ outcome_ok c outcome
  | Returned outcome => outcome_ok c outcome
  end.

Record pool_ok (p : WorkerPool) : Prop := {
  ok_threads i w : workers p !! i = Some w → thread_ok w;
  ok_idle i : i ∈ idle p → workers p !! i = Some worker_new;
  ok_nodup : NoDup (idle p);
  ok_runs c phase : runs p !! c = Some phase → run_ok (workers p) c phase;
  ok_free c phase i : runs p !! c = Some phase → holder phase = Some i → i ∉ idle p;
  ok_sole c c' phase phase' i :
    runs p !! c = Some phase → runs p !! c' = Some phase' →
    holder phase = Some i → holder phase' = Some i → c = c' }.

Lemma run_ok_frame ws ws' c phase :
  (∀ i, holder phase = Some i → ws' !! i = ws !! i) → run_ok ws c phase → run_ok ws' c phase.
Proof. destruct phase; cbn; intros Hframe; rewrite ?Hframe by done; done. Qed.

Lemma run_ok_holds ws c phase i :
  run_ok ws c phase → holder phase = Some i → is_Some (ws !! i).
Proof. destruct phase; cbn; naive_solver. Qed.

(** A run changes its phase, and the worker it holds. *)
Lemma pool_ok_held p c i phase phase' w w' n :
  pool_ok p → runs p !! c = Some phase → holder phase = Some i → workers p !! i = Some w →
  holder phase' = Some i ∨ holder phase' = None →
  thread_ok w' → run_ok (<[i := w']> (workers p)) c phase' →
  pool_ok (mkPool (idle p) n (<[i := w']> (workers p)) (<[c := phase']> (runs p))).
Proof.
  intros [Hth Hidle Hnd Hruns Hfree Hsole] Hc Hi Hw Hi' Hw' Hok. split; cbn; [| |done| | |].
  - intros j v [(<- & <- & _)|[_ ?]]%list_lookup_insert_Some; eauto.
  - intros j Hj. rewrite list_lookup_insert_ne; [by apply Hidle|]. intros <-. by eapply Hfree.
  - intros c' ph [(<- & <- & _)|[Hne Hc']]%list_lookup_insert_Some; [done|].
    eapply run_ok_frame; [|by apply Hruns]. intros j Hj. apply list_lookup_insert_ne. intros <-. by eapply Hne, Hsole.
  - intros c' ph j [(<- & <- & _)|[Hne Hc']]%list_lookup_insert_Some Hj; [|by eapply Hfree].
    destruct Hi' as [Hi'|Hi']; simplify_eq. by eapply Hfree.
  - intros c1 c2 ph1 ph2 j [(<- & <- & _)|[Hne1 Hc1]]%list_lookup_insert_Some
      [(<- & <- & _)|[Hne2 Hc2]]%list_lookup_insert_Some H1 H2; [done| | |by eapply Hsole];
      destruct Hi' as [Hi'|Hi']; simplify_eq; by eapply Hsole.
Qed.

(** A run that holds nothing changes its phase. *)
Lemma pool_ok_free p c phase phase' n :
  pool_ok p → runs p !! c = Some phase → holder phase = None → holder phase' = None →
  run_ok (workers p) c phase' →
  pool_ok (mkPool (idle p) n (workers p) (<[c := phase']> (runs p))).
Proof.
  intros [Hth Hidle Hnd Hruns Hfree Hsole] Hc Hi Hi' Hok. split; cbn; try done.
  - intros c' ph [(<- & <- & _)|[Hne Hc']]%list_lookup_insert_Some; [done|by apply Hruns].
  - intros c' ph j [(<- & <- & _)|[Hne Hc']]%list_lookup_insert_Some Hj; [congruence|by eapply Hfree].
  - intros c1 c2 ph1 ph2 j [(<- & <- & _)|[Hne1 Hc1]]%list_lookup_insert_Some
      [(<- & <- & _)|[Hne2 Hc2]]%list_lookup_insert_Some H1 H2; try congruence. by eapply Hsole.
Qed.

Lemma pool_ok_take p c i rest n :
  pool_ok p → runs p !! c = Some Taking → idle p = i :: rest →
  pool_ok (mkPool rest n (workers p) (<[c := Submitting i]> (runs p))).
Proof.
  intros [Hth Hidle Hnd Hruns Hfree Hsole] Hc Hrest. rewrite Hrest in *.
  apply NoDup_cons in Hnd as [Hi Hnd]. split; cbn; try done.
  - intros j Hj. apply Hidle. by right.
  - intros c' ph [(<- & <- & _)|[Hne Hc']]%list_lookup_insert_Some; [|by apply Hruns].
    apply Hidle. by left.
  - intros c' ph j [(<- & <- & _)|[Hne Hc']]%list_lookup_insert_Some Hj; [by injection Hj as <-|].
    intros Hin. eapply Hfree; [done..|]. by right.
  - assert (∀ c' ph, runs p !! c' = Some ph → holder ph ≠ Some i) as Hno.
    { intros c' ph Hc' Hj. eapply Hfree; [done..|]. by left. }
    intros c1 c2 ph1 ph2 j [(<- & <- & _)|[Hne1 Hc1]]%list_lookup_insert_Some
      [(<- & <- & _)|[Hne2 Hc2]]%list_lookup_insert_Some H1 H2; [done| | |by eapply Hsole].
    + injection H1 as <-. by destruct (Hno _ _ Hc2).
    + injection H2 as <-. by destruct (Hno _ _ Hc1).
Qed.

Lemma pool_ok_release p c i outcome n :
  pool_ok p → runs p !! c = Some (Releasing i outcome) →
  pool_ok (mkPool (i :: idle p) n (workers p) (<[c := Returned (Completed outcome)]> (runs p))).
Proof.
  intros [Hth Hidle Hnd Hruns Hfree Hsole] Hc. destruct (Hruns _ _ Hc) as [Hi Hwork].
  pose proof (Hfree _ _ i Hc eq_refl) as Hnot. split; cbn; try done.
  - intros j [->|Hj]%elem_of_cons; [done|by apply Hidle].
  - by constructor.
  - intros c' ph [(<- & <- & _)|[Hne Hc']]%list_lookup_insert_Some; [by left|by apply Hruns].
  - intros c' ph j [(<- & <- & _)|[Hne Hc']]%list_lookup_insert_Some Hj; [done|].
    intros [->|Hin]%elem_of_cons; [|by eapply Hfree]. by eapply Hne, Hsole.
  - intros c1 c2 ph1 ph2 j [(<- & <- & _)|[Hne1 Hc1]]%list_lookup_insert_Some
      [(<- & <- & _)|[Hne2 Hc2]]%list_lookup_insert_Some H1 H2; try done. by eapply Hsole.
Qed.

Lemma pool_ok_spawn p c n :
  pool_ok p → runs p !! c = Some Spawning →
  pool_ok (mkPool (idle p) n (workers p ++ [worker_new]) (<[c := Submitting (length (workers p))]> (runs p))).
Proof.
  intros [Hth Hidle Hnd Hruns Hfree Hsole] Hc.
  assert (∀ i, is_Some (workers p !! i) → (workers p ++ [worker_new]) !! i = workers p !! i) as Hold.
  { intros i Hi. by apply lookup_app_l, lookup_lt_is_Some. }
  assert (∀ c' ph, runs p !! c' = Some ph → holder ph ≠ Some (length (workers p))) as Hno.
  { intros c' ph Hc' Hi. destruct (run_ok_holds _ _ _ _ (Hruns _ _ Hc') Hi) as [w Hw].
    apply lookup_lt_Some in Hw. lia. }
  split; cbn; [| |done| | |].
  - intros i w [Hw|[_ Hw]]%lookup_app_Some; [eauto|].
    apply list_lookup_singleton_Some in Hw as [_ <-]. by left.
  - intros i Hi%Hidle. rewrite Hold by done. done.
  - intros c' ph [(<- & <- & _)|[Hne Hc']]%list_lookup_insert_Some.
    + cbn. by apply list_lookup_middle.
    + eapply run_ok_frame; [|by apply Hruns]. intros i Hi. apply Hold. by eapply run_ok_holds; [apply Hruns|].
  - intros c' ph j [(<- & <- & _)|[Hne Hc']]%list_lookup_insert_Some Hj; [|by eapply Hfree].
    injection Hj as <-. intros Hin%Hidle%lookup_lt_Some. lia.
  - intros c1 c2 ph1 ph2 j [(<- & <- & _)|[Hne1 Hc1]]%list_lookup_insert_Some
      [(<- & <- & _)|[Hne2 Hc2]]%list_lookup_insert_Some H1 H2; [done| | |by eapply Hsole].
    + injection H1 as <-. by destruct (Hno _ _ Hc2).
    + injection H2 as <-. by destruct (Hno _ _ Hc1).
Qed.

(** A thread moves its own worker. *)
Lemma pool_ok_thread p i w w' n :
  pool_ok p → workers p !! i = Some w → w ≠ worker_new → thread_ok w' →
  (∀ c phase, runs p !! c = Some phase → holder phase = Some i → run_ok (<[i := w']> (workers p)) c phase) →
  pool_ok (mkPool (idle p) n (<[i := w']> (workers p)) (runs p)).
Proof.
  intros [Hth Hidle Hnd Hruns Hfree Hsole] Hw Hnew Hw' Hheld. split; cbn; [| |done| |done|done].
  - intros j v [(<- & <- & _)|[_ ?]]%list_lookup_insert_Some; eauto.
  - intros j Hj%Hidle. rewrite list_lookup_insert_ne; [done|]. intros <-. congruence.
  - intros c ph Hc. destruct (decide (holder ph = Some i)) as [Hi|Hi]; [by apply Hheld|].
    eapply run_ok_frame; [|by apply Hruns]. intros j Hj. apply list_lookup_insert_ne. congruence.
Qed.

(** What a thread's step does to the run that holds its worker. *)
Lemma held_step ws i w w' c phase :
  ws !! i = Some w → w ≠ worker_new → holder phase = Some i → run_ok ws c phase →
  (serving c w → serving c w') →
  (w_state w = WORKER_ABANDONED → w_state w' = WORKER_ABANDONED) →
  (w_state w ≠ WORKER_ABANDONED → w_state w' ≠ WORKER_ABANDONED) →
  w_jobs_open w' = w_jobs_open w →
  run_ok (<[i := w']> ws) c phase.
Proof.
  intros Hw Hnew Hi Hok Hserve Hab Hnab Hopen.
  assert (<[i := w']> ws !! i = Some w') as Hw' by (eapply list_lookup_insert_eq, lookup_lt_Some, Hw).
  destruct phase; cbn in *; simplify_eq; try congruence.
  1, 3, 4, 5: rewrite Hw'; naive_solver.
  - destruct Hok as [Hok _]. congruence.
  - rewrite Hw'. destruct Hok as [(v & Hv & Hst & Hj) Hout]. simplify_eq.
    split; [|done]. exists w'. rewrite Hopen. auto.
Qed.

(** A run that holds a worker changes its phase only. *)
Lemma pool_ok_phase p c i phase phase' n :
  pool_ok p → runs p !! c = Some phase → holder phase = Some i →
  holder phase' = Some i ∨ holder phase' = None →
  run_ok (workers p) c phase' →
  pool_ok (mkPool (idle p) n (workers p) (<[c := phase']> (runs p))).
Proof.
  intros Hp Hc Hi Hi' Hok.
  destruct (run_ok_holds _ _ _ _ (ok_runs _ Hp _ _ Hc) Hi) as [w Hw].
  pose proof (pool_ok_held p c i phase phase' w w n Hp Hc Hi Hw Hi') as Hheld.
  rewrite !(list_insert_id _ _ _ Hw) in Hheld. apply Hheld; [by eapply ok_threads|done].
Qed.

(** ** Every step keeps it *)

Lemma await_ok c i p p' :
  pool_ok p → runs p !! c = Some (Awaiting i) → run_step c p = Some p' → pool_ok p'.
Proof.
  intros Hp Hc Hstep. destruct (ok_runs _ Hp _ _ Hc) as (w & Hw & Hserve).
  unfold run_step in Hstep. rewrite Hc in Hstep. cbn in Hstep. rewrite Hw in Hstep. cbn in Hstep.
  destruct Hserve; cbn in Hstep; simplify_eq.
  - eapply (pool_ok_held p); try done; [by left|by left|]. cbn.
    by rewrite list_lookup_insert_eq by (by eapply lookup_lt_Some).
  - eapply (pool_ok_phase p); try done; [by left|]. cbn. split; [|by right]. by eexists.
Qed.

Lemma drop_ok c i phase outcome w p :
  pool_ok p → runs p !! c = Some phase → holder phase = Some i → workers p !! i = Some w →
  outcome_ok c outcome →
  pool_ok (set_run c (Returned outcome) (set_worker i (drop_worker w) p)).
Proof.
  intros Hp Hc Hi Hw Hout. eapply (pool_ok_held p); try done; [by right|]. exact (ok_threads _ Hp _ _ Hw).
Qed.

Lemma run_step_ok c p p' : pool_ok p → run_step c p = Some p' → pool_ok p'.
Proof.
  intros Hp Hrun. pose proof Hrun as Hstep. unfold run_step in Hstep.
  destruct (runs p !! c) as [phase|] eqn:Hc; [|done].
  pose proof (ok_runs _ Hp _ _ Hc) as Hok. cbn in Hstep.
  destruct phase as [| | |i|i|i outcome|i|i|i|i outcome|]; cbn in Hok.
  - destruct (idle p) eqn:Hidle; simplify_eq; [by eapply pool_ok_free|by eapply pool_ok_take].
  - destruct (_ <=? _)%N eqn:Hlimit; b2p; simplify_eq; eapply (pool_ok_free p); try done. cbn. left. eauto.
  - simplify_eq. by apply pool_ok_spawn.
  - rewrite Hok in Hstep. cbn in Hstep. simplify_eq. eapply (pool_ok_held p); try done; [by left|by left|].
    cbn. rewrite list_lookup_insert_eq by (by eapply lookup_lt_Some). eexists. split; [done|constructor].
  - by eapply await_ok.
  - simplify_eq. unfold release. destruct (_ <? _)%nat; [by apply pool_ok_release|].
    destruct Hok as [Hw Hwork]. eapply (pool_ok_phase p); try done; [by left|]. cbn. split; [by eexists|by left].
  - destruct Hok as (w & Hw & Hserve). rewrite Hw in Hstep. cbn in Hstep.
    destruct (_ =? _)%N eqn:Hst; b2p; simplify_eq.
    + eapply (pool_ok_held p); try done; [by left| |].
      * destruct Hserve; first [done|by right].
      * cbn. rewrite list_lookup_insert_eq by (by eapply lookup_lt_Some). eexists. split; [done|]. by destruct Hserve.
    + eapply (pool_ok_phase p); try done; [by left|]. cbn. split; [|done]. exists w. by destruct Hserve.
  - simplify_eq. eapply (pool_ok_phase p); try done. by left.
  - destruct Hok as (w & Hw & _). rewrite Hw in Hstep. cbn in Hstep. simplify_eq. by eapply drop_ok.
  - destruct Hok as [(w & Hw & _) Hout]. rewrite Hw in Hstep. cbn in Hstep. simplify_eq. by eapply drop_ok.
  - done.
Qed.

Lemma thread_step_worker i p p' :
  thread_step work i p = Some p' →
  ∃ w w' n, workers p !! i = Some w ∧ w ≠ worker_new ∧
    p' = mkPool (idle p) n (<[i := w']> (workers p)) (runs p) ∧
    (thread_ok w → thread_ok w') ∧ (∀ c, serving c w → serving c w') ∧
    (w_state w = WORKER_ABANDONED → w_state w' = WORKER_ABANDONED) ∧
    (w_state w ≠ WORKER_ABANDONED → w_state w' ≠ WORKER_ABANDONED) ∧
    w_jobs_open w' = w_jobs_open w.
Proof.
  unfold thread_step. intros Hstep. destruct (workers p !! i) as [w|] eqn:Hw; [|done]. cbn in Hstep.
  exists w. unfold set_worker, set_thread in Hstep. destruct w as [jobs open outs oopen st th].
  unfold thread_ok. destruct th as [|c|outcome| | |]; cbn in *.
  - destruct jobs as [|j jobs]; [destruct open; [done|]|]; simplify_eq; eexists _, _; split_and!; try done;
      intros c Hs; inversion Hs; subst; constructor.
  - simplify_eq. eexists _, _. split_and!; try done.
    + intros ?. by destruct (work c).
    + intros c' Hs. inversion Hs; subst. destruct (work _) eqn:?; by constructor.
  - destruct oopen; simplify_eq; eexists _, _; split_and!; try done; intros c Hs; inversion Hs; subst;
      by constructor.
  - destruct (_ =? _)%N eqn:Hst; b2p; simplify_eq; eexists _, _; split_and!; try done; cbn;
      try (by intros _; right); try (by intros [|]); intros c Hs; inversion Hs; subst; first [by constructor|done].
  - simplify_eq. eexists _, _. split_and!; try done; cbn; [by left|]. intros c Hs. inversion Hs.
  - done.
Qed.

Lemma pool_step_ok e p p' : pool_ok p → pool_step work e p = Some p' → pool_ok p'.
Proof.
  intros Hp. destruct e as [|c|c|c err|i]; cbn.
  - intros [= <-]. destruct Hp as [Hth Hidle Hnd Hruns Hfree Hsole].
    assert (∀ c ph, (runs p ++ [Taking]) !! c = Some ph → runs p !! c = Some ph ∨ ph = Taking) as Hold.
    { intros c ph [?|[_ Hc]]%lookup_app_Some; [by left|right].
      by apply list_lookup_singleton_Some in Hc as [_ <-]. }
    split; cbn; try done.
    + intros c ph [?| ->]%Hold; [by apply Hruns|done].
    + intros c ph i [?| ->]%Hold; [by eapply Hfree|done].
    + intros c1 c2 ph1 ph2 i [?| ->]%Hold [?| ->]%Hold; try done. by eapply Hsole.
  - by apply run_step_ok.
  - destruct (runs p !! c) as [phase|] eqn:Hc; [|done]. cbn. destruct phase as [| | |i|i|i ?|i|i|i|i ?|]; try done.
    pose proof (ok_runs _ Hp _ _ Hc) as (w & Hw & Hserve). rewrite Hw. cbn.
    destruct (w_outcomes w); [|done]. intros [= <-]. eapply (pool_ok_phase p); try done; [by left|]. by exists w.
  - destruct (runs p !! c) as [phase|] eqn:Hc; [|done]. cbn. destruct phase; try done. intros [= <-].
    eapply (pool_ok_free p); try done. cbn. right. eauto.
  - intros (w & w' & n & Hw & Hnew & -> & Hth & Hserve & Hab & Hnab & Hopen)%thread_step_worker.
    eapply (pool_ok_thread p); try done; [by eapply Hth, ok_threads|].
    intros c phase Hc Hi. eapply held_step; try done; [by apply Hp|by apply Hserve].
Qed.

Lemma pool_reachable_ok limit p : pool_reachable work limit p → pool_ok p.
Proof.
  induction 1 as [|e p p' _ IH Hstep _]; [|by eapply pool_step_ok].
  split; cbn; try done; [set_solver|constructor].
Qed.

(** ** Threads and charges, counted *)

(** An abandoned thread that has not given its slot back. *)
Definition charged (w : Worker) : bool := (w_state w =? WORKER_ABANDONED)%N && negb (gone w).
(** A worker the pool or a run still holds for use. *)
Definition kept (w : Worker) : bool := w_jobs_open w && negb (w_state w =? WORKER_ABANDONED)%N.

(** An abandoned worker its run has not dropped yet. *)
Definition stranded (w : Worker) : bool := w_jobs_open w && (w_state w =? WORKER_ABANDONED)%N.

Definition charging (phase : RunPhase) : bool := match phase with Charging _ => true | _ => false end.
Definition stranding (phase : RunPhase) : bool :=
  match phase with Charging _ | Charged _ => true | _ => false end.
Definition checking (phase : RunPhase) : bool := match phase with Checking => true | _ => false end.
Definition spawning (phase : RunPhase) : bool := match phase with Spawning => true | _ => false end.
Definition holding (phase : RunPhase) : bool :=
  match phase with
  | Submitting _ | Awaiting _ | Releasing _ _ | Abandoning _ | Dropping _ _ => true
  | _ => false
  end.

Lemma busy_in_flight l :
  (count checking l + count spawning l + count holding l + count charging l ≤ count in_flight l)%nat.
Proof. induction l as [|phase l IH]; [done|]. rewrite !count_cons. destruct phase; cbn; lia. Qed.

Record counts_ok (limit : nat) (p : WorkerPool) : Prop := {
  counts_abandoned :
    Z.of_N (abandoned p) =
    ((Z.of_nat (count charged (workers p)) - Z.of_nat (count charging (runs p))) mod 2 ^ 64)%Z;
  counts_kept : count kept (workers p) = (length (idle p) + count holding (runs p))%nat;
  counts_stranded : count stranded (workers p) = count stranding (runs p);
  counts_limit : (length (idle p) + count checking (runs p) + count spawning (runs p) +
    count holding (runs p) + count charging (runs p) ≤ limit)%nat;
  counts_bound : (count charged (workers p) + count kept (workers p) + count spawning (runs p) ≤ 31 + limit)%nat }.

(** A step that moves run [c]: the new counts from the old. *)
Lemma counts_ok_run limit p c phase phase' ws' n idle' :
  runs p !! c = Some phase → counts_ok limit p →
  (count in_flight (<[c := phase']> (runs p)) ≤ limit)%nat →
  let d (f : RunPhase → bool) := (Z.of_nat (one (f phase')) - Z.of_nat (one (f phase)))%Z in
  Z.of_N n = ((Z.of_nat (count charged ws') - (Z.of_nat (count charging (runs p)) + d charging)) mod 2 ^ 64)%Z →
  (Z.of_nat (count kept ws') - Z.of_nat (count kept (workers p)) =
    Z.of_nat (length idle') - Z.of_nat (length (idle p)) + d holding)%Z →
  (Z.of_nat (count stranded ws') - Z.of_nat (count stranded (workers p)) = d stranding)%Z →
  idle' = [] ∨ (Z.of_nat (length idle') - Z.of_nat (length (idle p)) +
    d checking + d spawning + d holding + d charging <= 0)%Z →
  (Z.of_nat (count charged ws') + Z.of_nat (count kept ws') + Z.of_nat (count spawning (runs p)) + d spawning
    <= 31 + Z.of_nat limit)%Z →
  counts_ok limit (mkPool idle' n ws' (<[c := phase']> (runs p))).
Proof.
  intros Hc [Habandoned Hkept Hstranded Hlimit Hbound] Hflight d Hn Hk Hs Hl Hb.
  pose proof (busy_in_flight (<[c := phase']> (runs p))) as Hbusy.
  assert (∀ f, Z.of_nat (count f (<[c := phase']> (runs p))) = Z.of_nat (count f (runs p)) + d f)%Z as Hcount.
  { intros f. unfold d. pose proof (count_insert f c phase phase' _ Hc). lia. }
  pose proof (Hcount checking); pose proof (Hcount spawning); pose proof (Hcount stranding); pose proof (Hcount holding);
    pose proof (Hcount charging) as Hch.
  split; cbn [idle abandoned workers runs]; [|lia|lia| |lia].
  - by rewrite Hn, Hch.
  - destruct Hl as [->|Hl]; cbn in *; lia.
Qed.

Lemma fetch_add_Z n z :
  Z.of_N n = (z mod 2 ^ 64)%Z → Z.of_N (fetch_add_1 n) = ((z + 1) mod 2 ^ 64)%Z.
Proof.
  intros Hn. unfold fetch_add_1. rewrite N2Z.inj_mod, N2Z.inj_add, Hn. change (Z.of_N (2 ^ 64)) with (2 ^ 64)%Z.
  by rewrite Zplus_mod_idemp_l.
Qed.

Lemma fetch_sub_Z n z :
  Z.of_N n = (z mod 2 ^ 64)%Z → Z.of_N (fetch_sub_1 n) = ((z - 1) mod 2 ^ 64)%Z.
Proof.
  intros Hn. unfold fetch_sub_1. rewrite N2Z.inj_mod, N2Z.inj_add, Hn. change (Z.of_N (2 ^ 64)) with (2 ^ 64)%Z.
  rewrite Zplus_mod_idemp_l. change (Z.of_N (2 ^ 64 - 1)) with (2 ^ 64 - 1)%Z.
  replace (z + (2 ^ 64 - 1))%Z with (z - 1 + 1 * 2 ^ 64)%Z by lia. apply Z_mod_plus_full.
Qed.

Lemma charged_drop w : charged (drop_worker w) = charged w.
Proof. done. Qed.
Lemma kept_drop w : kept (drop_worker w) = false.
Proof. done. Qed.

Lemma stranded_drop w : stranded (drop_worker w) = false.
Proof. done. Qed.

(** Below the limit the counter is the difference itself. *)
Lemma below_limit n z :
  Z.of_N n = (z mod 2 ^ 64)%Z → (- 2 ^ 63 < z < 2 ^ 63)%Z → (n < MAX_ABANDONED_WORKERS)%N → (z <= 31)%Z.
Proof.
  unfold MAX_ABANDONED_WORKERS. intros Hn Hz Hlt. destruct (Z.lt_ge_cases z 0) as [Hneg|Hpos]; [lia|].
  rewrite Z.mod_small in Hn by lia. lia.
Qed.

Ltac moved Hc := intros Hflight; eapply (counts_ok_run _ _ _ _ _ _ _ _ Hc); [done|done| | | | |]; cbn -[Z.pow];
  rewrite ?Z.add_0_r; try done; try lia.

Lemma run_step_counts limit c p p' :
  (Z.of_nat limit < 2 ^ 62)%Z → pool_ok p → counts_ok limit p → run_step c p = Some p' →
  (count in_flight (runs p') ≤ limit)%nat → counts_ok limit p'.
Proof.
  intros Hsmall Hp Hcounts Hstep. pose proof Hcounts as [Ha Hk Hs Hl Hb]. unfold run_step in Hstep.
  destruct (runs p !! c) as [phase|] eqn:Hc; [|done]. pose proof (ok_runs _ Hp _ _ Hc) as Hok. cbn in Hstep.
  pose proof (λ f, count_pos f c phase _ Hc) as Hpos.
  assert (∀ i w w' f, workers p !! i = Some w →
    Z.of_nat (count f (<[i := w']> (workers p))) =
      Z.of_nat (count f (workers p)) + (Z.of_nat (one (f w')) - Z.of_nat (one (f w))))%Z as Hworker.
  { intros i w w' f Hw. pose proof (count_insert f i w w' _ Hw). lia. }
  destruct phase as [| | |i|i|i outcome|i|i|i|i outcome|]; cbn in Hok.
  - destruct (idle p) eqn:Hidle; simplify_eq; moved Hc. all: rewrite ?Hidle in *; cbn in *; try lia. by left.
  - destruct (_ <=? _)%N eqn:Hlimit; b2p; simplify_eq; moved Hc.
    specialize (Hpos checking eq_refl). eapply below_limit in Hlimit; [|exact Ha|]; lia.
  - simplify_eq. moved Hc; rewrite ?count_app; change (count charged [worker_new]) with 0%nat;
      change (count kept [worker_new]) with 1%nat; change (count stranded [worker_new]) with 0%nat; rewrite ?Nat.add_0_r; try done; lia.
  - rewrite Hok in Hstep. cbn in Hstep. simplify_eq.
    moved Hc; rewrite ?(Hworker _ _ _ _ Hok); cbn -[Z.pow]; rewrite ?Z.add_0_r; try done; lia.
  - destruct Hok as (w & Hw & Hserve). rewrite Hw in Hstep. cbn in Hstep.
    destruct Hserve; cbn in Hstep; simplify_eq; moved Hc; rewrite ?(Hworker _ _ _ _ Hw); cbn -[Z.pow];
      rewrite ?Z.add_0_r; try done; lia.
  - simplify_eq. unfold release. destruct (_ <? _)%nat; moved Hc.
  - destruct Hok as (w & Hw & Hserve). rewrite Hw in Hstep. cbn in Hstep.
    destruct (_ =? _)%N eqn:Hst; b2p; simplify_eq; moved Hc; rewrite ?(Hworker _ _ _ _ Hw).
    all: destruct Hserve; cbn -[Z.pow] in *; try done; try lia. all: rewrite Ha; f_equal; lia.
  - simplify_eq. moved Hc. erewrite fetch_add_Z by exact Ha. f_equal. lia.
  - destruct Hok as (w & Hw & Hst & Hopen). rewrite Hw in Hstep. cbn in Hstep. simplify_eq.
    assert (kept w = false ∧ stranded w = true) as [Hkept Hstr] by (unfold kept, stranded; by rewrite Hst, Hopen).
    moved Hc; rewrite ?(Hworker _ _ _ _ Hw), ?charged_drop, ?kept_drop, ?stranded_drop, ?Hkept, ?Hstr; cbn -[Z.pow]; try lia.
    rewrite Ha. f_equal. lia.
  - destruct Hok as [(w & Hw & Hst & Hopen) _]. rewrite Hw in Hstep. cbn in Hstep. simplify_eq.
    assert (kept w = true ∧ stranded w = false) as [Hkept Hstr]
      by (unfold kept, stranded; by rewrite Hopen, (proj2 (N.eqb_neq _ _) Hst)).
    moved Hc; rewrite ?(Hworker _ _ _ _ Hw), ?charged_drop, ?kept_drop, ?stranded_drop, ?Hkept, ?Hstr; cbn -[Z.pow]; try lia.
    rewrite Ha. f_equal. lia.
  - done.
Qed.
Lemma thread_step_counts limit i p p' :
  pool_ok p → counts_ok limit p → thread_step work i p = Some p' → counts_ok limit p'.
Proof.
  intros Hp [Ha Hk Hs Hl Hb] Hstep. unfold thread_step in Hstep.
  destruct (workers p !! i) as [w|] eqn:Hw; [|done]. cbn in Hstep.
  pose proof (ok_threads _ Hp _ _ Hw) as Hth.
  assert (∀ w', charged w' = charged w → kept w' = kept w → stranded w' = stranded w → counts_ok limit (set_worker i w' p)) as Hsame.
  { intros w' Hc Hk' Hs'. pose proof (count_insert charged i w w' _ Hw). pose proof (count_insert kept i w w' _ Hw).
    pose proof (count_insert stranded i w w' _ Hw). rewrite Hc, Hk', Hs' in *. split; cbn [workers runs idle abandoned set_worker]; [|lia|lia|done|lia].
    rewrite Ha. f_equal. lia. }
  unfold thread_ok in Hth. destruct w as [jobs open outs oopen st th].
  destruct th as [|c|outcome| | |]; cbn in *.
  - destruct jobs; [destruct open; [done|]|]; simplify_eq; by apply Hsame.
  - simplify_eq. apply Hsame; [|done|done]. cbn. by destruct (work c).
  - destruct oopen; simplify_eq; by apply Hsame.
  - destruct (_ =? _)%N eqn:Hst; b2p; simplify_eq; by apply Hsame.
  - simplify_eq. match type of Hw with _ = Some ?v => set (w := v) in * end.
    pose proof (count_insert charged i w (set_thread Gone w) _ Hw) as Hc.
    pose proof (count_insert kept i w (set_thread Gone w) _ Hw) as Hkept.
    pose proof (count_insert stranded i w (set_thread Gone w) _ Hw) as Hstr.
    change (one (stranded (set_thread Gone w))) with (one (stranded w)) in Hstr.
    change (one (kept (set_thread Gone w))) with (one (kept w)) in Hkept.
    change (one (charged (set_thread Gone w))) with 0%nat in Hc. change (one (charged w)) with 1%nat in Hc.
    split; cbn [workers runs idle abandoned]; [|lia|lia|done|lia].
    erewrite fetch_sub_Z by exact Ha. f_equal. lia.
  - done.
Qed.

Lemma pool_reachable_counts limit p :
  (Z.of_nat limit < 2 ^ 62)%Z → pool_reachable work limit p → counts_ok limit p.
Proof.
  intros Hsmall. induction 1 as [|e p p' Hreach IH Hstep Hflight]; [split; [done|done|done|apply Nat.le_0_l|apply Nat.le_0_l]|].
  apply pool_reachable_ok in Hreach as Hp.
  destruct e as [|c|c|c err|i]; cbn in Hstep.
  - simplify_eq. destruct IH as [Ha Hk Hs Hl Hb].
    split; cbn [workers runs idle abandoned]; rewrite ?count_app; change (count _ [Taking]) with 0%nat;
      rewrite ?Nat.add_0_r; done.
  - by eapply run_step_counts.
  - destruct (runs p !! c) as [phase|] eqn:Hc; [|done]. cbn in Hstep. destruct phase as [| | |i|i|i ?|i|i|i|i ?|]; try done.
    destruct (workers p !! i) as [w|]; [|done]. cbn in Hstep. destruct (w_outcomes w); [|done].
    pose proof IH as [Ha Hk Hs Hl Hb]. simplify_eq. revert Hflight. moved Hc; rewrite Ha; f_equal; lia.
  - destruct (runs p !! c) as [phase|] eqn:Hc; [|done]. cbn in Hstep. destruct phase; try done.
    pose proof IH as [Ha Hk Hs Hl Hb]. simplify_eq. revert Hflight. moved Hc; rewrite Ha; f_equal; lia.
  - by eapply thread_step_counts.
Qed.

(** ** What the pool promises *)

(** C28: Whatever the interleaving, a run that returns gets what its own job returned, or the fixed error if
    its own job panicked, or a timeout, or a refusal: the limit was reached or the thread could not start.
    No run is ever given another run's outcome, and no idle worker is found dead. *)
Theorem run_gets_own_outcome limit p c outcome :
  pool_reachable work limit p → runs p !! c = Some (Returned outcome) →
  match outcome with
  | Completed result => work c = Some result ∨ (work c = None ∧ result = Err no_verdict)
  | TimedOut => True
  | Unavailable error =>
      (∃ n, (MAX_ABANDONED_WORKERS <= n)%N ∧ error = limit_error n) ∨ (∃ err, error = spawn_error err)
  end.
Proof. intros Hp%pool_reachable_ok Hc. exact (ok_runs _ Hp _ _ Hc). Qed.

(** C29: The abandoned counter, modulo its width, is the number of abandoned threads that still run less the
    charges under way; between calls of [abandon] it is their number, exactly. *)
Theorem abandoned_counter_exact limit p :
  (Z.of_nat limit < 2 ^ 62)%Z → pool_reachable work limit p →
  Z.of_N (abandoned p) =
    ((Z.of_nat (count charged (workers p)) - Z.of_nat (count charging (runs p))) mod 2 ^ 64)%Z ∧
  (count charging (runs p) = 0%nat → abandoned p = N.of_nat (count charged (workers p))).
Proof.
  intros Hsmall Hp%(pool_reachable_counts _ _ Hsmall). destruct Hp as [Ha _ _ _ Hb]. split; [done|].
  intros Hnone. rewrite Hnone, Z.mod_small in Ha by lia. lia.
Qed.

(** With at most [limit] runs at a time there are never more than [MAX_ABANDONED_WORKERS - 1 + limit]
    threads that are abandoned and running or held for use, however the runs and threads interleave and
    whatever the idle list lends out past the limit. *)
Theorem pool_threads_bounded limit p :
  (Z.of_nat limit < 2 ^ 62)%Z → pool_reachable work limit p →
  (length (idle p) ≤ limit)%nat ∧
  (N.of_nat (count charged (workers p)) + N.of_nat (count kept (workers p)) <=
    MAX_ABANDONED_WORKERS - 1 + N.of_nat limit)%N.
Proof.
  intros Hsmall Hp%(pool_reachable_counts _ _ Hsmall). destruct Hp as [_ _ _ Hl Hb].
  change (MAX_ABANDONED_WORKERS - 1)%N with 31%N. split; lia.
Qed.

(** ** The pool comes to rest *)

(** How many steps a thread and a run have left, if no run starts. *)
Definition thread_weight (phase : ThreadPhase) : nat :=
  match phase with
  | Gone => 0 | Refunding => 1 | Leaving => 2 | Receiving => 3 | Sending _ => 4 | Working _ => 5
  end.
Definition worker_weight (w : Worker) : nat := 3 * length (w_jobs w) + thread_weight (w_thread w).
Definition run_weight (phase : RunPhase) : nat :=
  match phase with
  | Returned _ => 0 | Dropping _ _ | Charged _ => 1 | Charging _ | Releasing _ _ => 2 | Abandoning _ => 3
  | Awaiting _ => 4 | Submitting _ => 8 | Spawning => 12 | Checking => 13 | Taking => 14
  end.
Definition pool_weight (p : WorkerPool) : nat :=
  sum_list_with worker_weight (workers p) + sum_list_with run_weight (runs p).

Lemma sum_list_insert {A} (f : A → nat) i x y l :
  l !! i = Some x → (sum_list_with f (<[i := y]> l) + f x = sum_list_with f l + f y)%nat.
Proof.
  revert i. induction l as [|z l IH]; intros [|i]; try done; cbn [lookup list_lookup].
  - intros [= ->]. change (<[0%nat := y]> (x :: l)) with (y :: l). cbn. lia.
  - intros Hi. change (<[S i := y]> (z :: l)) with (z :: <[i := y]> l). cbn. specialize (IH _ Hi). lia.
Qed.

Definition starts (e : Event) : bool := match e with EvStart => true | _ => false end.

Lemma thread_step_lighter i p p' : thread_step work i p = Some p' → (pool_weight p' < pool_weight p)%nat.
Proof.
  unfold thread_step, pool_weight. destruct (workers p !! i) as [w|] eqn:Hw; [|done]. cbn. intros Hstep.
  pose proof (λ w', sum_list_insert worker_weight i w w' _ Hw) as Hsum. unfold worker_weight at 2 4 in Hsum.
  repeat case_match; simplify_eq; cbn [workers runs set_worker];
    match goal with |- context [<[i := ?w']> _] => specialize (Hsum w') end;
    cbn in Hsum; rewrite ?H in Hsum; cbn in Hsum; simplify_eq/=; rewrite ?H0 in Hsum; cbn in Hsum; lia.
Qed.

(** A run steps: its own weight drops by more than its worker's grows. *)
Lemma run_lighter p c phase phase' ws' n idle' :
  runs p !! c = Some phase →
  (sum_list_with worker_weight ws' + run_weight phase' <
    sum_list_with worker_weight (workers p) + run_weight phase)%nat →
  (pool_weight (mkPool idle' n ws' (<[c := phase']> (runs p))) < pool_weight p)%nat.
Proof.
  intros Hc Hlt. pose proof (sum_list_insert run_weight c phase phase' _ Hc).
  unfold pool_weight. cbn [workers runs]. lia.
Qed.

Lemma run_step_lighter c p p' : run_step c p = Some p' → (pool_weight p' < pool_weight p)%nat.
Proof.
  unfold run_step. destruct (runs p !! c) as [phase|] eqn:Hc; [|done]. cbn. intros Hstep.
  assert (∀ i w w', workers p !! i = Some w → (worker_weight w' ≤ worker_weight w + 3)%nat →
    (sum_list_with worker_weight (<[i := w']> (workers p)) ≤ sum_list_with worker_weight (workers p) + 3)%nat) as Hgrow.
  { intros i w w' Hw Hle. pose proof (sum_list_insert worker_weight i w w' _ Hw). lia. }
  assert (∀ i w w', workers p !! i = Some w → worker_weight w' = worker_weight w →
    sum_list_with worker_weight (<[i := w']> (workers p)) = sum_list_with worker_weight (workers p)) as Hkeep.
  { intros i w w' Hw Heq. pose proof (sum_list_insert worker_weight i w w' _ Hw). lia. }
  destruct phase as [| | |i|i|i outcome|i|i|i|i outcome|]; try destruct (workers p !! i) as [w|] eqn:Hw;
    cbn in Hstep; try done; unfold release in *; repeat case_match; simplify_eq;
    apply (run_lighter _ _ _ _ _ _ _ Hc); cbn [run_weight workers set_run set_worker];
    rewrite ?sum_list_with_app; try (rewrite (Hkeep _ _ _ Hw) by done); cbn; try lia.
  eapply Nat.le_lt_trans; [apply Nat.add_le_mono_r, (Hgrow _ _ _ Hw)|lia].
  unfold worker_weight. cbn. rewrite length_app. cbn. lia.
Qed.

Lemma pool_step_lighter e p p' :
  starts e = false → pool_step work e p = Some p' → (pool_weight p' < pool_weight p)%nat.
Proof.
  destruct e as [|c|c|c err|i]; [done|intros _..]; cbn.
  - apply run_step_lighter.
  - destruct (runs p !! c) as [phase|] eqn:Hc; [|done]. cbn. destruct phase; try done.
    destruct (workers p !! _); [|done]. cbn. destruct (w_outcomes _); [|done]. intros [= <-].
    apply (run_lighter _ _ _ _ _ _ _ Hc). cbn. lia.
  - destruct (runs p !! c) as [phase|] eqn:Hc; [|done]. cbn. destruct phase; try done. intros [= <-].
    apply (run_lighter _ _ _ _ _ _ _ Hc). cbn. lia.
  - apply thread_step_lighter.
Qed.

Lemma pool_step_runs e p p' :
  pool_step work e p = Some p' → length (runs p') = (length (runs p) + one (starts e))%nat.
Proof.
  destruct e as [|c|c|c err|i]; cbn.
  - intros [= <-]. cbn. by rewrite length_app.
  - unfold run_step. destruct (runs p !! c) as [phase|]; [|done]. cbn. rewrite Nat.add_0_r.
    destruct phase as [| | |i|i|i outcome|i|i|i|i outcome|]; try destruct (workers p !! i) as [w|];
      cbn; try done; unfold release; repeat case_match; intros; simplify_eq; apply length_insert.
  - destruct (runs p !! c) as [phase|]; [|done]. cbn. destruct phase; try done.
    destruct (workers p !! _); [|done]. cbn. destruct (w_outcomes _); [|done]. intros [= <-].
    cbn. by rewrite length_insert, Nat.add_0_r.
  - destruct (runs p !! c) as [phase|]; [|done]. cbn. destruct phase; try done. intros [= <-].
    cbn. by rewrite length_insert, Nat.add_0_r.
  - intros (w & w' & n & _ & _ & -> & _)%thread_step_worker. by rewrite Nat.add_0_r.
Qed.

(** Nothing can happen but a new run. *)
Definition at_rest (p : WorkerPool) : Prop := ∀ e, starts e = false → pool_step work e p = None.

Lemma rest_returned p c phase :
  pool_ok p → at_rest p → runs p !! c = Some phase → ∃ outcome, phase = Returned outcome.
Proof.
  intros Hp Hrest Hc. pose proof (ok_runs _ Hp _ _ Hc) as Hok.
  pose proof (Hrest (EvRun c) eq_refl) as Hrun. cbn in Hrun. unfold run_step in Hrun. rewrite Hc in Hrun.
  pose proof (Hrest (EvDeadline c) eq_refl) as Hlate. cbn in Hlate. rewrite Hc in Hlate.
  destruct phase as [| | |i|i|i outcome|i|i|i|i outcome|outcome]; cbn in *; try done.
  - by destruct (idle p).
  - by destruct (_ <=? _)%N.
  - by rewrite Hok in Hrun.
  - destruct Hok as (w & Hw & _). rewrite Hw in Hrun, Hlate. cbn in *. by destruct (w_outcomes w).
  - destruct Hok as (w & Hw & _). rewrite Hw in Hrun. cbn in Hrun. by destruct (_ =? _)%N.
  - destruct Hok as (w & Hw & _). by rewrite Hw in Hrun.
  - destruct Hok as [(w & Hw & _) _]. by rewrite Hw in Hrun.
  - by exists outcome.
Qed.

Lemma rest_thread p i w :
  at_rest p → workers p !! i = Some w → gone w = false → w_thread w = Receiving ∧ w_jobs_open w = true.
Proof.
  intros Hrest Hw. pose proof (Hrest (EvThread i) eq_refl) as Hstep. cbn in Hstep. unfold thread_step in Hstep.
  rewrite Hw in Hstep. cbn in Hstep. unfold gone.
  destruct (w_thread w); try done; [|by destruct (w_outcomes_open w)|by destruct (_ =? _)%N].
  by destruct (w_jobs w), (w_jobs_open w).
Qed.

(** C30: If every job ends and no run starts, the pool comes to rest: every schedule is finite, at most
    [pool_weight] steps long, and once nothing more can happen every run has returned, every slot has been
    given back, and no thread is left but the idle ones. *)
Theorem pool_comes_to_rest limit p :
  (Z.of_nat limit < 2 ^ 62)%Z → pool_reachable work limit p →
  (∀ schedule p', Forall (λ e, starts e = false) schedule → pool_run work schedule p = Some p' →
    (length schedule ≤ pool_weight p)%nat) ∧
  (at_rest p →
    (∀ c phase, runs p !! c = Some phase → ∃ outcome, phase = Returned outcome) ∧
    abandoned p = 0%N ∧ (count (λ w, negb (gone w)) (workers p) ≤ length (idle p))%nat).
Proof.
  intros Hsmall Hreach. split.
  { intros schedule. clear Hreach. revert p. induction schedule as [|e schedule IH]; intros p p'; [cbn; lia|].
    intros [He Hall]%Forall_cons. cbn. destruct (pool_step work e p) as [q|] eqn:Hstep; [|done]. cbn. intros Hrun.
    apply pool_step_lighter in Hstep; [|done]. specialize (IH _ _ Hall Hrun). lia. }
  intros Hrest. pose proof (pool_reachable_ok _ _ Hreach) as Hp.
  apply (pool_reachable_counts _ _ Hsmall) in Hreach as [Ha Hk Hs Hl Hb].
  assert (∀ f, (∀ outcome, f (Returned outcome) = false) → count f (runs p) = 0%nat) as Hnone.
  { intros f Hf. apply count_zero. intros c phase Hc. by destruct (rest_returned _ _ _ Hp Hrest Hc) as [? ->]. }
  rewrite !Hnone in * by done.
  assert (count charged (workers p) ≤ count stranded (workers p))%nat as Hcharged.
  { apply count_le. intros i w Hw. unfold charged, stranded. destruct (gone w) eqn:Hg.
    - by rewrite andb_false_r.
    - destruct (rest_thread _ _ _ Hrest Hw Hg) as [_ ->]. by rewrite andb_true_r. }
  split_and!.
  - intros c phase. by apply rest_returned.
  - assert (count charged (workers p) = 0%nat) as Hzero by lia. rewrite Hzero in Ha.
    assert (Z.of_N (abandoned p) = 0%Z) as Hn by (by rewrite Ha). lia.
  - rewrite Nat.add_0_r in Hk. rewrite <- Hk. apply count_le. intros i w Hw Hg.
    apply negb_true_iff in Hg. destruct (rest_thread _ _ _ Hrest Hw Hg) as [_ Hopen].
    unfold kept. rewrite Hopen. cbn. destruct (w_state w =? WORKER_ABANDONED)%N eqn:Hst; [|done].
    assert (stranded w = true) as Hstr by (unfold stranded; by rewrite Hopen).
    pose proof (count_pos stranded i w _ Hw Hstr). lia.
Qed.
End pool.

(** ** Samples *)

Module Demo.
(** Run 0's job panics, run 1's allows. *)
Definition demo_work (c : nat) : option EvalOutcome :=
  match c with 0 => None | _ => Some (Ok (JString "allow")) end.

(** One run after another, to its end. *)
Definition served : list Event :=
  [EvStart; EvRun 0; EvRun 0; EvRun 0; EvRun 0; EvThread 0; EvThread 0; EvThread 0; EvRun 0; EvRun 0;
   EvStart; EvRun 1; EvRun 1; EvRun 1; EvRun 1; EvThread 1; EvThread 1; EvThread 1; EvRun 1; EvRun 1].

(** The deadline of run 0 passes, its job panics between the two steps of [abandon], and run 1 looks at
    the counter then. *)
Definition panicked : list Event :=
  [EvStart; EvRun 0; EvRun 0; EvRun 0; EvRun 0; EvThread 0; EvDeadline 0; EvRun 0;
   EvThread 0; EvThread 0; EvThread 0; EvStart; EvRun 1; EvRun 1].

Lemma pool_run_reachable limit schedule p p' :
  pool_reachable demo_work limit p →
  (length (runs p) + count starts schedule ≤ limit)%nat →
  pool_run demo_work schedule p = Some p' → pool_reachable demo_work limit p'.
Proof.
  revert p. induction schedule as [|e schedule IH]; intros p Hp Hle; cbn; [by intros [= <-]|].
  destruct (pool_step demo_work e p) as [q|] eqn:Hstep; [|done]. cbn. pose proof (pool_step_runs _ _ _ _ Hstep).
  rewrite count_cons in Hle. apply IH; [|lia]. eapply pool_reachable_step; [done..|].
  assert (∀ l, (count in_flight l ≤ length l)%nat) as Hcount
    by (intros l; induction l as [|x l IHl]; rewrite ?count_cons; cbn; unfold one; [done|case_match; lia]).
  specialize (Hcount (runs q)). lia.
Qed.
End Demo.

(** A panic between the two steps of [abandon] makes the counter wrap: no thread is abandoned, and the
    next run is refused for [2 ^ 64 - 1] of them. *)
Lemma phantom_abandonment :
  ∃ p, pool_run Demo.demo_work Demo.panicked pool_new = Some p ∧
    count charged (workers p) = 0%nat ∧ abandoned p = (2 ^ 64 - 1)%N ∧
    runs p !! 1%nat = Some (Returned (Unavailable (limit_error (2 ^ 64 - 1)))).
Proof. eexists. split; [vm_compute; reflexivity|]. vm_compute. auto. Qed.

Section witnesses.
Import Demo.

Lemma served_reachable :
  ∃ p, pool_run demo_work served pool_new = Some p ∧ pool_reachable demo_work 2 p ∧
    runs p = [Returned (Completed (Err no_verdict)); Returned (Completed (Ok (JString "allow")))].
Proof.
  eexists. split; [vm_compute; reflexivity|]. split; [|vm_compute; reflexivity].
  eapply (pool_run_reachable 2 served pool_new); [constructor|apply (bool_decide_unpack _); vm_compute; exact I|].
  vm_compute. reflexivity.
Qed.

Lemma run_gets_own_outcome_witness :
  demo_work 1 = Some (Ok (JString "allow")) ∨
  (demo_work 1 = None ∧ (Ok (JString "allow") : EvalOutcome) = Err no_verdict).
Proof.
  destruct served_reachable as (p & _ & Hreach & Hruns).
  refine (run_gets_own_outcome demo_work 2 p 1 (Completed (Ok (JString "allow"))) Hreach _).
  by rewrite Hruns.
Defined.

Lemma abandoned_counter_exact_witness :
  ∃ p, pool_reachable demo_work 2 p ∧ abandoned p = N.of_nat (count charged (workers p)).
Proof.
  destruct served_reachable as (p & _ & Hreach & Hruns). exists p. split; [exact Hreach|].
  refine (proj2 (abandoned_counter_exact demo_work 2 p ltac:(lia) Hreach) _). by rewrite Hruns.
Defined.

Lemma pool_threads_bounded_witness :
  ∃ p, pool_reachable demo_work 2 p ∧
    (N.of_nat (count charged (workers p)) + N.of_nat (count kept (workers p)) <= 33)%N.
Proof.
  destruct served_reachable as (p & _ & Hreach & _). exists p. split; [exact Hreach|].
  exact (proj2 (pool_threads_bounded demo_work 2 p ltac:(lia) Hreach)).
Defined.

Lemma pool_comes_to_rest_witness :
  ∃ p, pool_reachable demo_work 2 p ∧
    ∀ schedule p', Forall (λ e, starts e = false) schedule → pool_run demo_work schedule p = Some p' →
      (length schedule ≤ pool_weight p)%nat.
Proof.
  destruct served_reachable as (p & _ & Hreach & _). exists p. split; [exact Hreach|].
  exact (proj1 (pool_comes_to_rest demo_work 2 p ltac:(lia) Hreach)).
Defined.
End witnesses.
