(* ===== verification/Rego.v ===== *)
(** * The bundled Rego dispatcher: [engine/src/rego.rs]

    What it reads and loads into a [regorus] engine, the cache of engines,
    and the verdict it makes of an evaluation. The crate is a class and the
    file system an argument: a [Disk] is what it says during one load. The
    worker pool is [Workers]. Durations are nanoseconds. *)

From stdpp Require Import gmap strings.
From S2P Require Import Prelude OrdMap RustStd Json Errors AgentHooks Constants.
From S2P Require Import Pins Policy StdPath PolicyOutput Cedar Workers.

(** ** The [regorus] crate *)

(** [Cut] is what the execution timer makes of an evaluation: whether and
    where it is cut off. Errors are their texts. *)
Class Regorus := {
  Engine : Type;
  Value : Type;
  Cut : Type;
  engine_new : Engine;
  set_strict_builtin_errors : bool → Engine → Engine;
  set_rego_v0 : bool → Engine → Engine;
  set_gather_prints : bool → Engine → Engine;
  (** The limit and the check interval. *)
  set_execution_timer_config : N → N → Engine → Engine;
  (** The name, the arity, and what a call gives. *)
  add_extension : string → N → (list Value → result string Value) → Engine → result string Engine;
  add_policy : string → string → Engine → result string Engine;
  engine_add_data : Value → Engine → result string Engine;
  set_input_json : string → Engine → result string Engine;
  (** [Value::from_json_str] and [from_yaml_str]. *)
  from_json_str : string → result string Value;
  from_yaml_str : string → result string Value;
  (** [matches!(value, Value::Undefined)]. *)
  is_undefined : Value → bool;
  (** [serde_json::to_value]. *)
  to_value : Value → result string JsonValue;
  (** The engine each leaves, compiled. *)
  eval_rule : Cut → string → Engine → Engine * result string Value;
  (** The values of the expressions of each result. *)
  eval_query : Cut → string → Engine → Engine * result string (list (list Value));
}.

(** [Display for serde_json::Value]. *)
Class SerdeDisplay := { value_text : JsonValue → string }.

(** [metadata().is_dir()], the file names of a directory in the order
    [read_dir] gives them, and [read_to_string]; the names are UTF-8. *)
Record Disk := mkDisk {
  metadata_is_dir : string → result string bool;
  read_dir : string → result string (list (result string string));
  read_to_string : string → result string string }.

(** ** Constants *)

Definition REGO_TIMEOUT_ENV : string := "ACS_OPA_TIMEOUT_MS".
Definition REGO_V0_ENV : string := "ACS_REGO_V0".
Definition DEFAULT_REGO_TIMEOUT : N := 5000000000.
Definition TIMER_CHECK_INTERVAL : N := 32.
Definition MAX_BUNDLE_DEPTH : nat := 32.
Definition MAX_CACHED_ENGINES : nat := 64.
Definition REGO_EXTENSION : string := "rego".
Definition DATA_EXTENSIONS : list string := ["json"; "yaml"; "yml"].
Definition NONDETERMINISTIC_BUILTINS : list (string * N) :=
  [("time.now_ns", 0%N); ("rand.intn", 2%N); ("uuid.rfc4122", 1%N); ("opa.runtime", 0%N)].

(** ** The runner *)

(** The cache and the two pools are shared by clones; [policy_cache] is
    whether there is one. *)
Record RegorusRegoRunner := mkRunner {
  data_paths : list string;
  eval_timeout : N;
  strict_builtin_errors : bool;
  rego_v0 : bool;
  hard_deadline : bool;
  policy_cache : bool }.

Definition runner_new : RegorusRegoRunner := mkRunner [] DEFAULT_REGO_TIMEOUT false false true false.

Definition with_eval_timeout (timeout : N) (r : RegorusRegoRunner) : RegorusRegoRunner :=
  mkRunner (data_paths r) timeout (strict_builtin_errors r) (rego_v0 r) (hard_deadline r) (policy_cache r).
Definition with_data_paths (paths : list string) (r : RegorusRegoRunner) : RegorusRegoRunner :=
  mkRunner (data_paths r ++ paths) (eval_timeout r) (strict_builtin_errors r) (rego_v0 r)
    (hard_deadline r) (policy_cache r).
Definition with_data_path (path : string) : RegorusRegoRunner → RegorusRegoRunner := with_data_paths [path].
Definition with_strict_builtin_errors (strict : bool) (r : RegorusRegoRunner) : RegorusRegoRunner :=
  mkRunner (data_paths r) (eval_timeout r) strict (rego_v0 r) (hard_deadline r) (policy_cache r).
Definition with_rego_v0 (v0 : bool) (r : RegorusRegoRunner) : RegorusRegoRunner :=
  mkRunner (data_paths r) (eval_timeout r) (strict_builtin_errors r) v0 (hard_deadline r) (policy_cache r).
Definition with_hard_deadline (hard : bool) (r : RegorusRegoRunner) : RegorusRegoRunner :=
  mkRunner (data_paths r) (eval_timeout r) (strict_builtin_errors r) (rego_v0 r) hard (policy_cache r).
Definition with_policy_cache (enabled : bool) (r : RegorusRegoRunner) : RegorusRegoRunner :=
  mkRunner (data_paths r) (eval_timeout r) (strict_builtin_errors r) (rego_v0 r) (hard_deadline r) enabled.

(** [env] is [std::env::var(name).ok()]. *)
Definition eval_timeout_from_environment (env : string → option string) : option N :=
  value ← env REGO_TIMEOUT_ENV;
  millis ← parse_usize_signed value;
  if (0 <? millis)%N then Some (millis * 1000000)%N else None.

Definition rego_v0_from_environment (env : string → option string) : bool :=
  match env REGO_V0_ENV with
  | Some value => bool_decide (value ∈ ["1"; "true"; "TRUE"])
  | None => false
  end.

Definition from_environment (env : string → option string) : RegorusRegoRunner :=
  let runner := match eval_timeout_from_environment env with
    | Some timeout => with_eval_timeout timeout runner_new | None => runner_new end in
  if rego_v0_from_environment env then with_rego_v0 true runner else runner.

(** [PathBuf] compares by components. *)
Definition runner_eq (a b : RegorusRegoRunner) : bool :=
  bool_decide (components <$> data_paths a = components <$> data_paths b) &&
  bool_decide (eval_timeout a = eval_timeout b) &&
  Bool.eqb (strict_builtin_errors a) (strict_builtin_errors b) &&
  Bool.eqb (rego_v0 a) (rego_v0 b) && Bool.eqb (hard_deadline a) (hard_deadline b) &&
  Bool.eqb (policy_cache a) (policy_cache b).

Definition abandoned_evaluations (workers warm_workers : WorkerPool) : N :=
  (abandoned workers + abandoned warm_workers)%N.

(** ** Cache keys *)

Record EngineKey := mkEngineKey {
  ek_bundle : option string;
  ek_inline_bundle : option InMemoryRegoBundle;
  ek_data_paths : list string;
  ek_strict_builtin_errors : bool;
  ek_rego_v0 : bool }.

(** What [Ord for CacheKey] compares: an in-memory bundle by its digest
    ([DigestKeyed]), a path by its components. *)
Definition key_identity (k : EngineKey) : option string * option string * list (list string) * bool * bool :=
  (ek_bundle k, bundle_digest <$> ek_inline_bundle k, components <$> ek_data_paths k,
   ek_strict_builtin_errors k, ek_rego_v0 k).

Definition cache_key (r : RegorusRegoRunner) (invocation : RegoPolicyInvocation)
  : result RuntimeError EngineKey :=
  paths ← rego_adapter_data_paths (ri_adapter_config invocation);
  Ok (mkEngineKey (ri_bundle invocation) (ri_inline_bundle invocation) (data_paths r ++ paths)
    (strict_builtin_errors r) (rego_v0 r)).

(** ** Files *)

Inductive DataScope := BundleScope | DataPathScope.

(** [Path::file_stem]: the name up to its last dot; a leading dot starts no
    extension. *)
Definition file_stem (path : string) : option string :=
  name ← file_name path;
  match path_extension path with
  | Some extension => Some (str_take (String.length name - String.length extension - 1) name)
  | None => Some name
  end.

Definition accepts_data_file (scope : DataScope) (path : string) : bool :=
  match scope with
  | BundleScope => bool_decide (file_stem path = Some "data")
  | DataPathScope => true
  end.

Definition is_rego_file (path : string) : bool := bool_decide (path_extension path = Some REGO_EXTENSION).

Definition is_data_file (path : string) : bool :=
  match path_extension path with
  | Some extension => bool_decide (extension ∈ DATA_EXTENSIONS)
  | None => false
  end.

Definition str_ends_with (suffix s : string) : bool :=
  (String.length suffix <=? String.length s)%nat &&
  bool_decide (String.substring (String.length s - String.length suffix) (String.length suffix) s = suffix).

Definition is_packaged_bundle (path : string) : bool :=
  let name := match file_name path with Some name => ascii_lowercase name | None => "" end in
  str_ends_with ".tar.gz" name || str_ends_with ".tgz" name || str_ends_with ".tar" name.

(** [Component::Normal]. *)
Definition is_normal (component : string) : bool :=
  negb (bool_decide (component ∈ ["/"; "."; ".."])).

Definition data_mount_path (root file : string) : list string :=
  match path_parent file with
  | Some parent =>
      if path_starts_with parent root
      then filter (λ c, is_normal c = true) (drop (length (components root)) (components parent))
      else []
  | None => []
  end.

(** The order of [PathBuf]s in one directory: they differ in the last
    component only, and that is a name. *)
Definition path_ltb (p q : string) : bool := key_ltb (components p) (components q).

Section rego.
Context `{Regorus} `{SerdeDisplay}.

(** ** Loading *)

(** [mount_data], its [for] loop over the reversed path. *)
Definition mounted_json (mount : list string) (json : JsonValue) : JsonValue :=
  fold_left (λ json key, JObject [(key, json)]) (rev mount) json.

Definition mount_data (value : Value) (mount : list string) : result RuntimeError Value :=
  match mount with
  | [] => Ok value
  | _ =>
      json ← map_err (λ err, invocation_failed ("failed to prepare Rego data for mounting: " +:+ err))
        (to_value value);
      map_err (λ err, invocation_failed ("failed to mount Rego data: " +:+ err))
        (from_json_str (value_text (mounted_json mount json)))
  end.

Definition add_data (value : Value) (display : string) (engine : Engine) : result RuntimeError Engine :=
  map_err (λ err, invocation_failed ("failed to load Rego data file '" +:+ display +:+ "': " +:+ err))
    (engine_add_data value engine).

Definition load_module (name source : string) (engine : Engine) : result RuntimeError Engine :=
  map_err (λ err, invocation_failed ("failed to load in-memory Rego policy '" +:+ name +:+ "': " +:+ err))
    (add_policy name source engine).

Definition load_document (index : N) (entry : MountedRegoData) (engine : Engine) : result RuntimeError Engine :=
  let display :=
    match mount entry with
    | [] => "in-memory data document " +:+ fmt_N index +:+ " at the data root"
    | mount => "in-memory data document " +:+ fmt_N index +:+ " at data." +:+ join "." mount
    end in
  value ← map_err (λ err, invocation_failed ("failed to parse " +:+ display +:+ ": " +:+ err))
    (from_json_str (value_text (document entry)));
  mounted ← mount_data value (mount entry);
  add_data mounted display engine.

Definition load_in_memory_bundle (bundle : InMemoryRegoBundle) (engine : Engine)
  : result RuntimeError Engine :=
  engine ← fold_result (λ engine m, load_module m.1 m.2 engine) engine (bundle_modules bundle);
  fold_result (λ engine e, load_document (N.of_nat e.1) e.2 engine) engine
    (imap pair (bundle_data bundle)).

Definition load_data (parse : string → result string Value) (contents display : string)
  (mount : list string) (engine : Engine) : result RuntimeError Engine :=
  value ← map_err (λ err, invocation_failed ("failed to parse Rego data file '" +:+ display +:+ "': " +:+ err))
    (parse contents);
  mounted ← mount_data value mount;
  add_data mounted display engine.

Definition load_file (disk : Disk) (path label : string) (mount : list string) (engine : Engine)
  : result RuntimeError Engine :=
  contents ← map_err (λ err, invocation_failed ("failed to read Rego " +:+ label +:+ " file '" +:+ path +:+
    "': " +:+ err)) (read_to_string disk path);
  let extension := path_extension path in
  if decide (extension = Some REGO_EXTENSION) then
    map_err (λ err, invocation_failed ("failed to load Rego policy '" +:+ path +:+ "': " +:+ err))
      (add_policy path contents engine)
  else if decide (extension = Some "json") then load_data from_json_str contents path mount engine
  else if decide (extension = Some "yaml" ∨ extension = Some "yml") then
    load_data from_yaml_str contents path mount engine
  else Err (invocation_failed ("Rego " +:+ label +:+ " file '" +:+ path +:+
    "' must be a .rego, .json, .yaml, or .yml file")).

(** [Path::is_dir]: an error is no directory. *)
Definition is_dir (disk : Disk) (path : string) : bool :=
  match metadata_is_dir disk path with Ok b => b | Err _ => false end.

Definition list_directory (disk : Disk) (dir label : string) : result RuntimeError (list string) :=
  let failed err := invocation_failed ("failed to list Rego " +:+ label +:+ " directory '" +:+ dir +:+
    "': " +:+ err) in
  entries ← map_err failed (read_dir disk dir);
  paths ← map_result (λ entry, map_err failed ((λ name, path_join dir name) <$> entry)) entries;
  Ok (sort_by path_ltb paths).

(** One turn of the loop over the sorted paths; [descend] loads a
    directory. The count of loaded files goes along. *)
Definition load_dir_entry (disk : Disk) (root label : string) (scope : DataScope)
  (descend : string → Engine * nat → result RuntimeError (Engine * nat))
  (state : Engine * nat) (path : string) : result RuntimeError (Engine * nat) :=
  let '(engine, loaded) := state in
  if is_dir disk path then descend path state
  else if is_rego_file path then
    engine ← load_file disk path label [] engine; Ok (engine, S loaded)
  else if is_data_file path && accepts_data_file scope path then
    engine ← load_file disk path label (data_mount_path root path) engine; Ok (engine, S loaded)
  else Ok state.

Definition too_deep (dir label : string) : RuntimeError :=
  invocation_failed ("Rego " +:+ label +:+ " '" +:+ dir +:+ "' nests deeper than " +:+
    fmt_N (N.of_nat MAX_BUNDLE_DEPTH) +:+ " directories").

Fixpoint load_directory (fuel : nat) (disk : Disk) (root label : string) (scope : DataScope)
  (depth : nat) (dir : string) (state : Engine * nat) : result RuntimeError (Engine * nat) :=
  match fuel with
  | O => Err (invocation_failed "out of fuel")
  | S fuel =>
      if (MAX_BUNDLE_DEPTH <? depth)%nat then Err (too_deep dir label)
      else
        paths ← list_directory disk dir label;
        fold_result (load_dir_entry disk root label scope
          (load_directory fuel disk root label scope (S depth))) state paths
  end.

(** Enough for a walk to the depth limit and the refusal below it. *)
Definition WALK_FUEL : nat := MAX_BUNDLE_DEPTH + 2.

Definition load_path (disk : Disk) (path label : string) (scope : DataScope) (engine : Engine)
  : result RuntimeError Engine :=
  directory ← map_err (λ err, invocation_failed
    (if is_packaged_bundle path then
      "Rego " +:+ label +:+ " '" +:+ path +:+
      "' looks like a packaged OPA bundle archive; the in-process Rego dispatcher reads a directory or a single .rego/.json/.yaml file. Unpack the bundle, or register the opt-in OpaPolicyDispatcher instead"
    else "failed to read Rego " +:+ label +:+ " '" +:+ path +:+ "': " +:+ err)) (metadata_is_dir disk path);
  if (directory : bool) then
    loaded ← load_directory WALK_FUEL disk path label scope 0 path (engine, 0%nat);
    if bool_decide (loaded.2 = 0%nat) then Err (invocation_failed ("Rego " +:+ label +:+ " '" +:+ path +:+
      "' contains no .rego, .json, .yaml, or .yml files"))
    else Ok loaded.1
  else if is_packaged_bundle path then Err (invocation_failed ("Rego " +:+ label +:+ " '" +:+ path +:+
    "' is a packaged OPA bundle archive; the in-process Rego dispatcher reads a directory or a single .rego/.json/.yaml file. Unpack the bundle, or register the opt-in OpaPolicyDispatcher instead"))
  else load_file disk path label [] engine.

(** ** The engine *)

Definition http_send_unavailable : string :=
  "http.send is not available: the in-process Rego dispatcher evaluates policy offline, and regorus leaves this builtin permanently undefined, which would silently skip any rule gated on it".
Definition nondeterministic_unavailable (name : string) : string :=
  name +:+ " is not available: the in-process Rego dispatcher evaluates policy deterministically, and a decision that depends on the clock, randomness or the runtime cannot be replayed from its input".

Definition shadow_http_send (engine : Engine) : result RuntimeError Engine :=
  map_err (λ err, invocation_failed ("failed to disable the http.send builtin: " +:+ err))
    (add_extension "http.send" 1 (λ _, Err http_send_unavailable) engine).

Definition shadow_nondeterministic_builtins (engine : Engine) : result RuntimeError Engine :=
  fold_result (λ engine builtin,
    map_err (λ err, invocation_failed ("failed to disable the " +:+ builtin.1 +:+ " builtin: " +:+ err))
      (add_extension builtin.1 builtin.2 (λ _, Err (nondeterministic_unavailable builtin.1)) engine))
    engine NONDETERMINISTIC_BUILTINS.

Definition build_engine (disk : Disk) (key : EngineKey) : result RuntimeError Engine :=
  let engine := set_gather_prints true (set_rego_v0 (ek_rego_v0 key)
    (set_strict_builtin_errors (ek_strict_builtin_errors key) engine_new)) in
  engine ← shadow_http_send engine;
  engine ← shadow_nondeterministic_builtins engine;
  engine ← match ek_inline_bundle key with
    | Some bundle => load_in_memory_bundle bundle engine | None => Ok engine end;
  engine ← match ek_bundle key with
    | Some bundle => load_path disk bundle "bundle" BundleScope engine | None => Ok engine end;
  fold_result (λ engine path, load_path disk path "data path" DataPathScope engine) engine
    (ek_data_paths key).

(** ** The shared cache *)

(** [engines_poisoned]: [lock] fails. *)
Record EngineCache := mkEngineCache {
  engines_poisoned : bool;
  engines : gmap (option string * option string * list (list string) * bool * bool) Engine }.

Definition engine_cache_new : EngineCache := mkEngineCache false ∅.

Definition clear_policy_cache (cache : EngineCache) : EngineCache :=
  if engines_poisoned cache then cache else engine_cache_new.

Definition engine_lookup (cache : EngineCache) (key : EngineKey) : option Engine :=
  if engines_poisoned cache then None else engines cache !! key_identity key.

(** One locked [insert], below the cap; [upgrade] also at the cap when the
    key is there. *)
Definition engine_store (upgrade : bool) (cache : EngineCache) (key : EngineKey) (engine : Engine)
  : EngineCache :=
  if engines_poisoned cache then cache
  else if bool_decide (size (engines cache) < MAX_CACHED_ENGINES)%nat
    || (upgrade && bool_decide (is_Some (engines cache !! key_identity key)))
  then mkEngineCache false (<[key_identity key := engine]> (engines cache))
  else cache.

(** [prepared_engine] takes the lock twice, and other threads may use the
    cache in between: [cache] is what the first lock finds and [later] what
    the second does. *)
Definition prepared_engine (r : RegorusRegoRunner) (disk : Disk) (cache later : EngineCache) (key : EngineKey)
  : result RuntimeError Engine * EngineCache :=
  if negb (policy_cache r) then (build_engine disk key, later)
  else
    match engine_lookup cache key with
    | Some engine => (Ok engine, later)
    | None =>
        match build_engine disk key with
        | Err error => (Err error, later)
        | Ok engine => (Ok engine, engine_store false later key engine)
        end
    end.

Definition store_warmed (r : RegorusRegoRunner) (cache : EngineCache) (key : EngineKey) (engine : Engine)
  : EngineCache :=
  if policy_cache r then engine_store true cache key engine else cache.

(** ** Evaluation *)

Definition reject_remote_bundle `{UrlCrate} (invocation : RegoPolicyInvocation) : result RuntimeError () :=
  url ← invocation_bundle_url invocation;
  match url with
  | Some _ => Err (invocation_failed "Regorus does not support bundle_url archives; use the opt-in OPA dispatcher or supply a local directory or in-memory Rego modules")
  | None => Ok ()
  end.

Definition eval_error (detail : string) : RuntimeError :=
  if str_contains "execution exceeded time limit" detail
  then invocation_failed ("Rego eval exceeded timeout: " +:+ detail)
  else invocation_failed ("Rego eval failed: " +:+ detail).

Definition may_retry_after (elapsed timeout : N) : bool := (elapsed <? timeout)%N.

Definition no_result : RuntimeError := invocation_failed "Rego query returned no result".
Definition to_json (value : Value) : result RuntimeError JsonValue :=
  map_err (λ err, invocation_failed ("failed to convert Rego query result to JSON: " +:+ err))
    (to_value value).

Definition rule_value (value : Value) : result RuntimeError JsonValue :=
  if is_undefined value then Err no_result else to_json value.

Definition single_expression_value (results : list (list Value)) : result RuntimeError JsonValue :=
  match results with
  | [] => Err no_result
  | [result] =>
      match result with
      | [expression] => to_json expression
      | [] => Err (invocation_failed "Rego query returned a result with no expression value")
      | _ => Err (invocation_failed
          "Rego query returned multiple expression values; policy query must resolve to one verdict")
      end
  | _ => Err (invocation_failed
      "Rego query returned multiple results; policy query must resolve to one verdict")
  end.

(** What time makes of one evaluation: how [eval_rule] and [eval_query] are
    cut, and how long the first took. *)
Record Pace := mkPace { rule_cut : Cut; rule_elapsed : N; query_cut : Cut }.

Definition evaluate_query (cut : Cut) (query : string) (engine : Engine) : result RuntimeError JsonValue :=
  results ← map_err eval_error (eval_query cut query engine).2;
  single_expression_value results.

(** The closure [evaluate] after the engine is prepared. *)
Definition evaluate_engine (timeout : N) (query input : string) (pace : Pace) (engine : Engine)
  : result RuntimeError JsonValue :=
  let engine := set_execution_timer_config timeout TIMER_CHECK_INTERVAL engine in
  engine ← map_err (λ err, invocation_failed ("failed to set Rego policy input: " +:+ err))
    (set_input_json input engine);
  if is_rule_path query then
    match eval_rule (rule_cut pace) query engine with
    | (_, Ok value) => rule_value value
    | (engine, Err err) =>
        if negb (may_retry_after (rule_elapsed pace) timeout) then Err (eval_error err)
        else evaluate_query (query_cut pace) query engine
    end
  else evaluate_query (query_cut pace) query engine.

(** The closure [evaluate]; the cache is what [prepared_engine] leaves. *)
Definition evaluate_work (r : RegorusRegoRunner) (disk : Disk) (cache later : EngineCache) (key : EngineKey)
  (invocation : RegoPolicyInvocation) (pace : Pace) : EvalOutcome * EngineCache :=
  let '(prepared, cache) := prepared_engine r disk cache later key in
  (engine ← prepared;
   evaluate_engine (eval_timeout r) (ri_query invocation) (ri_canonical_input invocation) pace engine, cache).

(** [RegorusRegoRunner::evaluate]: [own] is what the closure gives for a
    key and [run] what the worker pool answers for it. *)
Definition rego_evaluate `{UrlCrate} (r : RegorusRegoRunner) (own : EngineKey → EvalOutcome)
  (run : EngineKey → DeadlineOutcome) (invocation : RegoPolicyInvocation) : result RuntimeError JsonValue :=
  reject_remote_bundle invocation ;;
  key ← cache_key r invocation;
  if negb (hard_deadline r) then own key
  else
    match run key with
    | Completed outcome => outcome
    | TimedOut => Err (invocation_failed ("Rego eval exceeded timeout of " +:+
        fmt_N (eval_timeout r / 1000000) +:+ " ms"))
    | Unavailable error => Err error
    end.

(** ** Warming *)

(** The closure [work]: [cache], [later] and [last] are what the three
    locks find. *)
Definition warm_work (r : RegorusRegoRunner) (disk : Disk) (cache later : EngineCache)
  (between : EngineCache → EngineCache) (key : EngineKey) (query : string) (cut : Cut)
  : EvalOutcome * EngineCache :=
  match prepared_engine r disk cache later key with
  | (Err error, cache) => (Err error, cache)
  | (Ok engine, cache) =>
      let warmed := set_execution_timer_config (eval_timeout r) TIMER_CHECK_INTERVAL engine in
      match set_input_json "{}" warmed with
      | Err err => (Err (invocation_failed ("failed to set Rego warm-up input: " +:+ err)), between cache)
      | Ok warmed => (Ok JNull, store_warmed r (between cache) key (eval_query cut query warmed).1)
      end
  end.

Definition rego_warm `{UrlCrate} (r : RegorusRegoRunner) (own : EngineKey → EvalOutcome)
  (run : EngineKey → DeadlineOutcome) (invocation : RegoPolicyInvocation) : result RuntimeError () :=
  reject_remote_bundle invocation ;;
  if negb (policy_cache r) then Ok ()
  else
    key ← cache_key r invocation;
    if negb (hard_deadline r) then own key ;; Ok ()
    else
      match run key with
      | Completed outcome => outcome ;; Ok ()
      | TimedOut => Ok ()
      | Unavailable error => Err error
      end.

(** ** The dispatcher *)

(** [PolicyDispatcher for RegorusPolicyDispatcher]. *)
Definition regorus_evaluate `{UrlCrate} (r : RegorusRegoRunner) (own : EngineKey → EvalOutcome)
  (run : EngineKey → DeadlineOutcome) (invocation : PreparedPolicyInvocation) : result RuntimeError JsonValue :=
  match invocation with
  | PreparedRego invocation => rego_evaluate r own run invocation
  | other => Err (invocation_failed ("Rego policy dispatcher only supports Rego invocations; received " +:+
      prepared_engine_type other +:+ " invocation"))
  end.

Definition regorus_warm `{UrlCrate} (r : RegorusRegoRunner) (own : EngineKey → EvalOutcome)
  (run : EngineKey → DeadlineOutcome) (invocation : PreparedPolicyInvocation) : result RuntimeError () :=
  match invocation with
  | PreparedRego invocation => rego_warm r own run invocation
  | _ => Ok ()
  end.
End rego.
