(* ===== verification/RegoLoad.v ===== *)
(** * What a Rego bundle loads

    The walk of a directory ends, loads exactly the documents under it that
    its scope accepts, each once, in path order and mounted where its
    directory says; and whatever is loaded, it is loaded into an engine whose
    network and nondeterministic builtins were shadowed first. *)

From stdpp Require Import gmap strings sorting.
From S2P Require Import Prelude OrdMap RustStd Json Errors AgentHooks Constants.
From S2P Require Import Pins Policy StdPath PolicyOutput Cedar Workers Rego.

Lemma fold_result_ext {E A B} (f g : B → A → result E B) acc l :
  (∀ b x, f b x = g b x) → fold_result f acc l = fold_result g acc l.
Proof.
  intros Hfg. revert acc. induction l as [|x l IH]; intros acc; cbn; [done|]. rewrite Hfg.
  by destruct (g acc x); cbn.
Qed.

Lemma fold_result_app {E A B} (f : B → A → result E B) acc l k :
  fold_result f acc (l ++ k) = (acc' ← fold_result f acc l; fold_result f acc' k).
Proof. revert acc. induction l as [|x l IH]; intros acc; cbn; [done|]. by destruct (f acc x); cbn. Qed.

Lemma fold_result_preserves {E A B} (P : B → Prop) (f : B → A → result E B) l acc r :
  (∀ b x b', P b → f b x = Ok b' → P b') → P acc → fold_result f acc l = Ok r → P r.
Proof.
  intros Hf. revert acc. induction l as [|x l IH]; intros acc Hacc; cbn; [by intros [= <-]|].
  intros (b & Hb & Hr)%bind_Ok. eauto.
Qed.

(** ** The order of paths *)

Lemma list_ltb_app (p x y : list string) : key_ltb (p ++ x) (p ++ y) = key_ltb x y.
Proof.
  change (list_ltb (p ++ x) (p ++ y) = list_ltb x y). induction p as [|c p IH]; [done|]. cbn [app list_ltb].
  by rewrite key_ltb_irrefl, bool_decide_true, IH.
Qed.

Lemma list_ltb_cons (c d : string) x y : key_lt c d → key_lt (c :: x) (d :: y).
Proof. unfold key_lt. intros Hcd. change (key_ltb c d || (bool_decide (c = d) && list_ltb x y) = true). by rewrite Hcd. Qed.

Section rego.
Context `{Regorus} `{SerdeDisplay} (disk : Disk).

(** ** Every walk ends *)

Lemma walk_fuel fuel fuel' root label scope depth dir state :
  (0 < fuel)%nat → (0 < fuel')%nat → (WALK_FUEL ≤ fuel + depth)%nat → (WALK_FUEL ≤ fuel' + depth)%nat →
  load_directory fuel disk root label scope depth dir state =
  load_directory fuel' disk root label scope depth dir state.
Proof.
  unfold WALK_FUEL, MAX_BUNDLE_DEPTH. revert fuel' depth dir state.
  induction fuel as [|fuel IH]; intros [|fuel'] depth dir state; try lia. intros _ _ Hf Hf'. cbn [load_directory].
  destruct (MAX_BUNDLE_DEPTH <? depth)%nat eqn:Hdeep; [done|]. unfold MAX_BUNDLE_DEPTH in Hdeep. b2p.
  destruct (list_directory disk dir label) as [paths|]; cbn; [|done].
  apply fold_result_ext. intros [engine loaded] path. unfold load_dir_entry.
  destruct (is_dir disk path); [|done]. apply IH; lia.
Qed.

(** With the fuel of [load_path] the walk of a directory gives the answer that any more fuel gives, however
    its directories are linked. *)
Theorem walk_terminates extra root label scope dir state :
  load_directory (WALK_FUEL + extra) disk root label scope 0 dir state =
  load_directory WALK_FUEL disk root label scope 0 dir state.
Proof. apply walk_fuel; unfold WALK_FUEL; lia. Qed.

(** ** What a directory holds *)

(** Documented behaviour of [read_dir]: names have no slash, [.] and [..]
    are not listed, and no name twice. *)
Class DiskLaws : Prop := {
  listed_normal dir entries name : read_dir disk dir = Ok entries → Ok name ∈ entries → normal_name name;
  listed_once dir entries : read_dir disk dir = Ok entries → NoDup entries }.

(** Directory [dir], reached by the names [ds] from the root, leads to [dir']
    by the names [ds']. *)
Inductive leads_to : list string → string → list string → string → Prop :=
  | leads_here ds dir : leads_to ds dir ds dir
  | leads_down ds dir entries name ds' dir' :
      read_dir disk dir = Ok entries → Ok name ∈ entries → is_dir disk (path_join dir name) = true →
      leads_to (ds ++ [name]) (path_join dir name) ds' dir' → leads_to ds dir ds' dir'.

Definition is_document (scope : DataScope) (file : string) : bool :=
  is_rego_file file || (is_data_file file && accepts_data_file scope file).

(** A document below [dir]: where its directory is, and its path. *)
Definition document_below (scope : DataScope) (ds : list string) (dir : string) (doc : list string * string) : Prop :=
  ∃ dir' entries name, leads_to ds dir doc.1 dir' ∧ read_dir disk dir' = Ok entries ∧ Ok name ∈ entries ∧
    doc.2 = path_join dir' name ∧ is_dir disk doc.2 = false ∧ is_document scope doc.2 = true.

(** Loading one document where its directory says; a policy has no mount. *)
Definition load_one (label : string) (engine : Engine) (doc : list string * string) : result RuntimeError Engine :=
  load_file disk doc.2 label (if is_rego_file doc.2 then [] else doc.1) engine.

Local Notation before := (λ d e : list string * string, key_lt (components d.2) (components e.2)).

Lemma normal_names_filter ds : Forall normal_name ds → filter (λ c, is_normal c = true) ds = ds.
Proof.
  induction 1 as [|n ds Hn _ IH]; [done|]. rewrite filter_cons_True, IH; [done|].
  unfold is_normal. apply negb_true_iff, bool_decide_eq_false.
  destruct Hn as (Hs & _ & Hdot & Hdots). rewrite !not_elem_of_cons. split_and!; try done; [|apply not_elem_of_nil].
  intros ->. by apply no_slash_cons in Hs as [].
Qed.

Lemma mount_of_directory root dir ds name :
  components dir = components root ++ ds → Forall normal_name ds → normal_name name →
  data_mount_path root (path_join dir name) = ds.
Proof.
  intros Hdir Hds Hname. unfold data_mount_path. destruct (parent_join dir name Hname) as (parent & -> & Hp).
  unfold path_starts_with. rewrite Hp, Hdir, bool_decide_true by (by exists ds).
  by rewrite drop_app_length, normal_names_filter.
Qed.

(** The documents below one entry of a directory. *)
Definition entry_documents (scope : DataScope) (ds : list string) (dir name : string) (doc : list string * string) : Prop :=
  if is_dir disk (path_join dir name) then document_below scope (ds ++ [name]) (path_join dir name) doc
  else doc = (ds, path_join dir name) ∧ is_document scope (path_join dir name) = true.

Lemma document_below_entries scope ds dir entries doc :
  read_dir disk dir = Ok entries →
  document_below scope ds dir doc ↔ ∃ name, Ok name ∈ entries ∧ entry_documents scope ds dir name doc.
Proof.
  intros Hdir. split.
  - intros (dir' & entries' & name & Hlead & Hdir' & Hname & Hdoc & Hfile & Hacc).
    inversion Hlead as [|? ? es n ? ? Hes Hn Hisdir Hrest]; subst.
    + exists name. split; [congruence|]. unfold entry_documents. rewrite <- Hdoc, Hfile.
      split; [by destruct doc|done].
    + exists n. split; [congruence|]. unfold entry_documents. rewrite Hisdir. by exists dir', entries', name.
  - intros (name & Hname & Hdoc). unfold entry_documents in Hdoc. destruct (is_dir disk _) eqn:Hisdir.
    + destruct Hdoc as (dir' & entries' & name' & Hlead & ?). exists dir', entries', name'. split; [|done].
      by eapply leads_down.
    + destruct Hdoc as [-> Hacc]. exists dir, entries, name. split; [constructor|]. auto.
Qed.

Lemma document_components `{!DiskLaws} scope ds dir doc :
  document_below scope ds dir doc → ∃ rest, components doc.2 = components dir ++ rest.
Proof.
  intros (dir' & entries & name & Hlead & Hdir' & Hname & -> & _).
  assert (normal_name name) as Hn by (by eapply listed_normal). rewrite components_join by done. clear Hdir' Hname.
  induction Hlead as [|ds dir es n ds' dir' Hes Hin _ _ IH]; [by eexists|].
  destruct IH as [rest Hrest]. exists (n :: rest). rewrite Hrest, (components_join dir n) by (by eapply listed_normal).
  by rewrite <- app_assoc.
Qed.

Lemma entry_components `{!DiskLaws} scope ds dir name doc :
  normal_name name → entry_documents scope ds dir name doc →
  ∃ rest, components doc.2 = components dir ++ name :: rest.
Proof.
  intros Hname Hdoc. unfold entry_documents in Hdoc. destruct (is_dir disk _).
  - apply document_components in Hdoc as [rest Hrest]. exists rest.
    rewrite Hrest, (components_join dir name Hname). by rewrite <- app_assoc.
  - destruct Hdoc as [-> _]. exists []. cbn [snd]. by rewrite components_join.
Qed.

(** ** What the walk loads *)

(** The documents a step loads, in order, and what it leaves. *)
Definition loads (label : string) (P : list string * string → Prop)
  (state state' : Engine * nat) : Prop :=
  ∃ docs, (∀ doc, doc ∈ docs ↔ P doc) ∧ StronglySorted before docs ∧
    fold_result (load_one label) state.1 docs = Ok state'.1 ∧ state'.2 = (state.2 + length docs)%nat.

Lemma loads_nil label P state : (∀ doc, ¬ P doc) → loads label P state state.
Proof.
  intros HP. exists []. split_and!; [|constructor|done|cbn; lia].
  intros doc. by split; [intros ?%elem_of_nil|intros ?%HP].
Qed.

Lemma loads_app label P Q state mid state' :
  loads label P state mid → loads label Q mid state' → (∀ d e, P d → Q e → before d e) →
  loads label (λ doc, P doc ∨ Q doc) state state'.
Proof.
  intros (docs & Hdocs & Hsorted & Hfold & Hlen) (docs' & Hdocs' & Hsorted' & Hfold' & Hlen') Hbefore.
  exists (docs ++ docs'). split_and!.
  - intros doc. by rewrite elem_of_app, Hdocs, Hdocs'.
  - apply StronglySorted_app. split_and!; [|done|done]. intros d e Hd%Hdocs He%Hdocs'. by apply Hbefore.
  - rewrite fold_result_app, Hfold. cbn. done.
  - rewrite length_app, Hlen', Hlen. lia.
Qed.

Lemma loads_proper label P Q state state' :
  (∀ doc, P doc ↔ Q doc) → loads label P state state' → loads label Q state state'.
Proof. intros HPQ (docs & Hdocs & ?). exists docs. split; [|done]. intros doc. by rewrite Hdocs. Qed.

Section walk.
Context `{!DiskLaws} (root label : string) (scope : DataScope).

(** What loading a directory reached from the root must do. *)
Definition descends (descend : string → Engine * nat → result RuntimeError (Engine * nat)) : Prop :=
  ∀ ds dir state state', components dir = components root ++ ds → Forall normal_name ds →
    descend dir state = Ok state' → loads label (document_below scope ds dir) state state'.

Lemma load_dir_entry_loads descend ds dir name state state' :
  descends descend → components dir = components root ++ ds → Forall normal_name ds → normal_name name →
  load_dir_entry disk root label scope descend state (path_join dir name) = Ok state' →
  loads label (entry_documents scope ds dir name) state state'.
Proof.
  intros Hdescend Hdir Hds Hname. unfold load_dir_entry. destruct state as [engine loaded].
  assert (∀ mount engine', is_document scope (path_join dir name) = true →
    is_dir disk (path_join dir name) = false →
    (if is_rego_file (path_join dir name) then [] else ds) = mount →
    load_file disk (path_join dir name) label mount engine = Ok engine' →
    loads label (entry_documents scope ds dir name) (engine, loaded) (engine', S loaded)) as Hone.
  { intros mount engine' Hacc Hfile Hmount Hload. exists [(ds, path_join dir name)]. split_and!.
    - intros doc. unfold entry_documents. rewrite Hfile, list_elem_of_singleton. naive_solver.
    - by repeat constructor.
    - cbn. unfold load_one. cbn. by rewrite Hmount, Hload.
    - cbn. lia. }
  destruct (is_dir disk (path_join dir name)) eqn:Hisdir.
  { intros Hload. eapply loads_proper, Hdescend; [|by rewrite components_join, Hdir, <- app_assoc|..|exact Hload].
    - intros doc. unfold entry_documents. by rewrite Hisdir.
    - apply Forall_app. split; [done|]. constructor; [done|constructor]. }
  unfold is_document in Hone. destruct (is_rego_file _) eqn:Hrego.
  { intros (engine' & Hload & [= <-])%bind_Ok. by eapply Hone. }
  destruct (is_data_file _ && accepts_data_file scope _) eqn:Hdata.
  { intros (engine' & Hload & [= <-])%bind_Ok. eapply Hone; [done|done| |exact Hload]. by erewrite mount_of_directory. }
  intros [= <-]. apply loads_nil. intros doc. unfold entry_documents, is_document. rewrite Hisdir, Hrego, Hdata.
  by intros [_ ?].
Qed.

(** Documents of different entries are ordered as the entries are. *)
Lemma entries_before ds dir m n d e :
  normal_name m → normal_name n → key_lt (components (path_join dir m)) (components (path_join dir n)) →
  entry_documents scope ds dir m d → entry_documents scope ds dir n e → before d e.
Proof.
  intros Hm Hn Hlt Hd He. rewrite !components_join in Hlt by done.
  destruct (entry_components _ _ _ _ _ Hm Hd) as [r ->], (entry_components _ _ _ _ _ Hn He) as [r' ->].
  unfold key_lt in Hlt |- *. rewrite list_ltb_app in Hlt |- *. apply list_ltb_cons.
  change (key_ltb m n || (bool_decide (m = n) && false) = true) in Hlt. by rewrite andb_false_r, orb_false_r in Hlt.
Qed.

Lemma load_entries_loads descend ds dir names state state' :
  descends descend → components dir = components root ++ ds → Forall normal_name ds → Forall normal_name names →
  StronglySorted (λ m n, key_lt (components (path_join dir m)) (components (path_join dir n))) names →
  fold_result (load_dir_entry disk root label scope descend) state (path_join dir <$> names) = Ok state' →
  loads label (λ doc, ∃ name, name ∈ names ∧ entry_documents scope ds dir name doc) state state'.
Proof.
  intros Hdescend Hdir Hds Hnames Hsorted. revert state. induction Hsorted as [|n names Hsorted IH Hn]; intros state.
  { intros [= <-]. apply loads_nil. intros doc (name & []%elem_of_nil & _). }
  apply Forall_cons in Hnames as [Hname Hnames]. rewrite fmap_cons. cbn [fold_result].
  intros (mid & Hentry & Hrest)%bind_Ok.
  apply (load_dir_entry_loads descend ds dir) in Hentry; [|done..].
  eapply loads_proper, loads_app; [|exact Hentry|by apply IH|].
  - intros doc. setoid_rewrite elem_of_cons. naive_solver.
  - cbn. intros d e Hd (name & Hin & He). rewrite Forall_forall in Hn, Hnames.
    by apply (entries_before ds dir n name); [|apply Hnames|apply Hn|..].
Qed.

Lemma list_directory_names dir entries paths :
  read_dir disk dir = Ok entries → list_directory disk dir label = Ok paths →
  ∃ names, entries = Ok <$> names ∧ Forall normal_name names ∧ paths = sort_by path_ltb (path_join dir <$> names).
Proof.
  intros Hread. unfold list_directory. rewrite Hread. cbn. intros (l & Hl%map_result_Ok & [= <-])%bind_Ok.
  assert (∃ names, entries = Ok <$> names ∧ l = path_join dir <$> names) as (names & -> & ->).
  { clear Hread. induction Hl as [|entry path entries l Hpath _ IH]; [by exists []|].
    destruct IH as (names & -> & ->), entry as [name|]; [|done]. injection Hpath as <-. by exists (name :: names). }
  exists names. split_and!; [done| |done]. apply Forall_forall. intros n Hn.
  eapply listed_normal; [exact Hread|]. by apply list_elem_of_fmap_2.
Qed.

Lemma sorted_names dir names :
  NoDup names → Forall normal_name names →
  ∃ names', names' ≡ₚ names ∧ sort_by path_ltb (path_join dir <$> names) = path_join dir <$> names' ∧
    StronglySorted (λ m n, key_lt (components (path_join dir m)) (components (path_join dir n))) names'.
Proof.
  intros Hnd Hnames.
  destruct (Permutation_map_inv (path_join dir) names (sort_by_Permutation path_ltb _)) as (names' & Hsort & Hperm).
  change (sort_by path_ltb (path_join dir <$> names) = path_join dir <$> names') in Hsort.
  exists names'. split; [by symmetry|]. split; [exact Hsort|].
  assert (NoDup (components <$> (path_join dir <$> names))) as Hkeys.
  { rewrite <- list_fmap_compose. apply NoDup_fmap_2_strong; [|done]. cbn. intros m n Hm Hn.
    rewrite Forall_forall in Hnames. rewrite !components_join by auto. by intros [_ [= ->]]%app_inj_2. }
  pose proof (sort_by_sorted components _ Hkeys) as Hsorted.
  change (sort_by _ (path_join dir <$> names)) with (sort_by path_ltb (path_join dir <$> names)) in Hsorted.
  rewrite Hsort in Hsorted. clear -Hsorted. induction names' as [|n names IH]; [constructor|].
  rewrite fmap_cons in Hsorted. apply StronglySorted_cons in Hsorted as [Hn Hsorted].
  apply StronglySorted_cons. split; [exact (proj1 (Forall_fmap _ _ _) Hn)|by apply IH].
Qed.

Lemma load_directory_descends fuel depth : descends (load_directory fuel disk root label scope depth).
Proof.
  revert depth. induction fuel as [|fuel IH]; intros depth ds dir state state' Hdir Hds; [done|].
  cbn [load_directory]. destruct (MAX_BUNDLE_DEPTH <? depth)%nat; [done|].
  intros (paths & Hlist & Hload)%bind_Ok.
  assert (∃ entries, read_dir disk dir = Ok entries) as [entries Hread].
  { unfold list_directory in Hlist. destruct (read_dir disk dir) as [entries|]; [by exists entries|done]. }
  destruct (list_directory_names _ _ _ Hread Hlist) as (names & -> & Hnames & ->).
  assert (NoDup names) as Hnd by (eapply NoDup_fmap_1, listed_once, Hread).
  destruct (sorted_names dir names Hnd Hnames) as (names' & Hperm & Hsort & Hsorted). rewrite Hsort in Hload.
  eapply loads_proper, load_entries_loads; [|apply (IH (S depth))|done|done| |exact Hsorted|exact Hload].
  - intros doc. rewrite (document_below_entries _ _ _ _ _ Hread). setoid_rewrite Hperm.
    setoid_rewrite list_elem_of_fmap. naive_solver.
  - by rewrite Hperm.
Qed.

(** The names of the documents a scope accepts: policies, and data, which in
    a bundle is [data] only. *)
Definition document_name (name : string) : Prop :=
  ∃ stem extension, stem ≠ "" ∧ name = stem +:+ "." +:+ extension ∧
    (extension = "rego" ∨
     (extension = "json" ∨ extension = "yaml" ∨ extension = "yml") ∧
     match scope with BundleScope => stem = "data" | DataPathScope => True end).

Lemma str_take_app a b : str_take (String.length a) (a +:+ b) = a.
Proof. unfold str_take. induction a as [|c a IH]; [by destruct b|]. cbn in *. by rewrite IH. Qed.

Lemma file_stem_join dir stem extension :
  stem ≠ "" → no_dot extension → normal_name (stem +:+ "." +:+ extension) →
  file_stem (path_join dir (stem +:+ "." +:+ extension)) = Some stem.
Proof.
  intros Hstem Hext Hn. unfold file_stem. rewrite file_name_join by done. cbn [mbind option_bind].
  rewrite (proj2 (path_extension_join dir _ extension Hn)) by (by exists stem).
  rewrite !str_length_app. cbn [String.length].
  replace (String.length stem + (1 + String.length extension) - String.length extension - 1)%nat
    with (String.length stem) by lia. by rewrite str_take_app.
Qed.

Lemma is_document_name dir name :
  normal_name name → is_document scope (path_join dir name) = true ↔ document_name name.
Proof.
  intros Hn. unfold is_document, is_rego_file, is_data_file, accepts_data_file.
  assert (∀ extension, no_dot extension → path_extension (path_join dir name) = Some extension ↔
    ∃ stem, stem ≠ "" ∧ name = stem +:+ "." +:+ extension) as Hext.
  { intros e He. rewrite path_extension_join by done. naive_solver. }
  rewrite orb_true_iff, andb_true_iff, bool_decide_eq_true. split.
  - intros [(stem & ? & ?)%Hext|[Hdata Hscope]]; [exists stem, REGO_EXTENSION; auto|done|].
    destruct (path_extension (path_join dir name)) as [e|] eqn:He; [|done]. apply bool_decide_eq_true in Hdata.
    assert (e = "json" ∨ e = "yaml" ∨ e = "yml") as Hkind.
    { unfold DATA_EXTENSIONS in Hdata. rewrite !elem_of_cons, elem_of_nil in Hdata. naive_solver. }
    assert (no_dot e) as Hdot by (destruct Hkind as [->|[->| ->]]; done).
    destruct (proj1 (Hext e Hdot) eq_refl) as (stem & Hstem & ->).
    exists stem, e. split_and!; try done. right. split; [done|]. destruct scope; [|done].
    apply bool_decide_eq_true in Hscope. rewrite file_stem_join in Hscope by done. by injection Hscope.
  - intros (stem & e & Hstem & -> & [->|[Hkind Hscope]]); [left; apply Hext; [done|by exists stem]|right].
    assert (no_dot e) as Hdot by (destruct Hkind as [->|[->| ->]]; done).
    rewrite (proj2 (Hext e Hdot)) by (by exists stem). split.
    + apply bool_decide_eq_true. unfold DATA_EXTENSIONS. rewrite !elem_of_cons. naive_solver.
    + destruct scope; [|done]. apply bool_decide_eq_true. rewrite file_stem_join by done. by subst stem.
Qed.

(** A document of the root: the names of the directories it is under, and
    its path. *)
Definition document_of_root (doc : list string * string) : Prop :=
  ∃ dir entries name, leads_to [] root doc.1 dir ∧ read_dir disk dir = Ok entries ∧ Ok name ∈ entries ∧
    doc.2 = path_join dir name ∧ is_dir disk doc.2 = false ∧ document_name name.

Lemma document_below_root doc : document_below scope [] root doc ↔ document_of_root doc.
Proof.
  split; intros (dir & entries & name & ? & Hread & Hname & Hdoc & ? & Hacc); exists dir, entries, name;
    split_and!; try done; rewrite Hdoc in *; by apply (is_document_name dir name); [eapply listed_normal|].
Qed.

(** C31: A directory that loads has loaded every document its scope accepts below it, no other and none twice,
    in the order of their paths whatever order the file system lists them in; a policy goes into the
    engine under its path, and data where its directory says. *)
Theorem directory_loaded_exact engine engine' :
  metadata_is_dir disk root = Ok true → load_path disk root label scope engine = Ok engine' →
  ∃ docs, docs ≠ [] ∧ (∀ doc, doc ∈ docs ↔ document_of_root doc) ∧
    StronglySorted before docs ∧ fold_result (load_one label) engine docs = Ok engine'.
Proof.
  intros Hroot. unfold load_path. rewrite Hroot. cbn. intros (loaded & Hload & Hend)%bind_Ok.
  destruct (load_directory_descends WALK_FUEL 0 [] root (engine, 0%nat) loaded) as (docs & Hdocs & Hsorted & Hfold & Hlen);
    [by rewrite app_nil_r|constructor|done|].
  destruct (bool_decide (loaded.2 = 0%nat)) eqn:Hnone; [done|]. injection Hend as <-. b2p.
  exists docs. split_and!; try done; [intros ->; by cbn in Hlen|].
  intros doc. by rewrite Hdocs, document_below_root.
Qed.
End walk.

(** ** Mounting *)

Definition json_member (key : string) (json : JsonValue) : option JsonValue :=
  match json with JObject m => bt_get key m | _ => None end.

(** A mounted document is reached by its path and nothing else is there. *)
Lemma mounted_json_path mount json :
  foldl (λ found key, found ≫= json_member key) (Some (mounted_json mount json)) mount = Some json.
Proof.
  unfold mounted_json. rewrite <- fold_left_rev_right, rev_involutive.
  induction mount as [|key mount IH]; [done|]. cbn. rewrite decide_True by done. exact IH.
Qed.

(** ** Whatever is loaded keeps what policies and data keep *)

Section preserved.
Context (P : Engine → Prop)
  (P_policy : ∀ name source e e', P e → add_policy name source e = Ok e' → P e')
  (P_data : ∀ value e e', P e → engine_add_data value e = Ok e' → P e').

Lemma add_data_preserves value display e e' : P e → add_data value display e = Ok e' → P e'.
Proof. intros He ?%map_err_Ok. eauto. Qed.

Lemma load_data_preserves parse contents display mount e e' :
  P e → load_data parse contents display mount e = Ok e' → P e'.
Proof. intros He (v & _ & (m & _ & ?)%bind_Ok)%bind_Ok. by eapply add_data_preserves. Qed.

Lemma load_file_preserves path label mount e e' : P e → load_file disk path label mount e = Ok e' → P e'.
Proof.
  intros He (contents & _ & Hload)%bind_Ok. cbn zeta in Hload.
  destruct (decide _); [apply map_err_Ok in Hload; eauto|].
  destruct (decide _); [by eapply load_data_preserves|].
  destruct (decide _); [by eapply load_data_preserves|done].
Qed.

Lemma load_directory_preserves fuel root label scope depth dir state state' :
  P state.1 → load_directory fuel disk root label scope depth dir state = Ok state' → P state'.1.
Proof.
  revert depth dir state state'. induction fuel as [|fuel IH]; intros depth dir state state' Hstate; [done|].
  cbn [load_directory]. destruct (_ <? _)%nat; [done|]. intros (paths & _ & Hfold)%bind_Ok. revert Hfold.
  apply (fold_result_preserves (λ state, P state.1)); [|done].
  intros [e n] path [e' n'] He. unfold load_dir_entry. destruct (is_dir disk path); [by apply IH|].
  destruct (is_rego_file path); [|destruct (_ && _)].
  - intros (e2 & Hload & [= <- <-])%bind_Ok. by eapply load_file_preserves.
  - intros (e2 & Hload & [= <- <-])%bind_Ok. by eapply load_file_preserves.
  - by intros [= <- <-].
Qed.

Lemma load_path_preserves path label scope e e' : P e → load_path disk path label scope e = Ok e' → P e'.
Proof.
  intros He (directory & _ & Hload)%bind_Ok. destruct directory.
  - apply bind_Ok in Hload as (loaded & Hwalk & Hend). destruct (bool_decide _); [done|]. injection Hend as <-.
    by eapply load_directory_preserves in Hwalk.
  - destruct (is_packaged_bundle path); [done|]. by eapply load_file_preserves.
Qed.

Lemma load_in_memory_preserves bundle e e' : P e → load_in_memory_bundle bundle e = Ok e' → P e'.
Proof.
  intros He (e1 & Hmodules & Hdata)%bind_Ok.
  assert (P e1) as He1.
  { eapply (fold_result_preserves P); [|exact He|exact Hmodules].
    intros b m b' Hb ?%map_err_Ok. eauto. }
  eapply (fold_result_preserves P); [|exact He1|exact Hdata].
  intros b d b' Hb (v & _ & (m & _ & ?)%bind_Ok)%bind_Ok. by eapply add_data_preserves.
Qed.
End preserved.

(** ** The shadowed builtins *)

(** [engine'] is [engine] after these builtins were replaced, in order, by
    extensions that err on every call. *)
Inductive shadowed : list (string * N) → Engine → Engine → Prop :=
  | shadowed_none engine : shadowed [] engine engine
  | shadowed_one name arity f builtins e e1 e2 :
      (∀ args, is_ok (f args) = false) → add_extension name arity f e = Ok e1 →
      shadowed builtins e1 e2 → shadowed ((name, arity) :: builtins) e e2.

(** The engine before anything is loaded: it prints nothing to the host,
    and no builtin reaches the network, the clock or chance. *)
Definition sealed (key : EngineKey) (engine : Engine) : Prop :=
  shadowed (("http.send", 1%N) :: NONDETERMINISTIC_BUILTINS)
    (set_gather_prints true (set_rego_v0 (ek_rego_v0 key)
      (set_strict_builtin_errors (ek_strict_builtin_errors key) engine_new))) engine.

(** What may have been done to an engine since. *)
Inductive grown (base : Engine) : Engine → Prop :=
  | grown_base : grown base base
  | grown_policy name source e e' : grown base e → add_policy name source e = Ok e' → grown base e'
  | grown_data value e e' : grown base e → engine_add_data value e = Ok e' → grown base e'
  | grown_timer limit interval e : grown base e → grown base (set_execution_timer_config limit interval e)
  | grown_input input e e' : grown base e → set_input_json input e = Ok e' → grown base e'
  | grown_query cut query e : grown base e → grown base (eval_query cut query e).1
  | grown_rule cut query e : grown base e → grown base (eval_rule cut query e).1.

Lemma shadow_builtins_shadowed builtins e e' :
  fold_result (λ engine builtin,
    map_err (λ err, invocation_failed ("failed to disable the " +:+ builtin.1 +:+ " builtin: " +:+ err))
      (add_extension builtin.1 builtin.2 (λ _, Err (nondeterministic_unavailable builtin.1)) engine))
    e builtins = Ok e' → shadowed builtins e e'.
Proof.
  revert e. induction builtins as [|[name arity] builtins IH]; intros e; cbn; [intros [= <-]; constructor|].
  intros (e1 & Hadd%map_err_Ok & Hrest)%bind_Ok. by eapply shadowed_one; [|exact Hadd|apply IH].
Qed.

Lemma build_engine_sealed key engine :
  build_engine disk key = Ok engine → ∃ base, sealed key base ∧ grown base engine.
Proof.
  unfold build_engine. cbn zeta. intros (e1 & Hhttp%map_err_Ok & Hrest)%bind_Ok.
  apply bind_Ok in Hrest as (base & Hbuiltins%shadow_builtins_shadowed & Hrest). exists base.
  split; [by eapply shadowed_one; [|exact Hhttp|]|].
  apply bind_Ok in Hrest as (e2 & Hinline & Hrest). apply bind_Ok in Hrest as (e3 & Hbundle & Hrest).
  pose proof (grown_policy base) as Hp. pose proof (grown_data base) as Hd.
  assert (grown base e2) as H2.
  { destruct (ek_inline_bundle key); [|injection Hinline as <-; constructor].
    by eapply load_in_memory_preserves; [..|exact Hinline]; [| |constructor]. }
  assert (grown base e3) as H3.
  { destruct (ek_bundle key); [|by injection Hbundle as <-].
    by eapply load_path_preserves; [..|exact Hbundle]. }
  eapply (fold_result_preserves (grown base)); [|exact H3|exact Hrest].
  intros b path b' Hb Hload. by eapply load_path_preserves; [..|exact Hload].
Qed.
End rego.

(** ** A demonstration engine

    It keeps its input and allows everything. *)

Module Demo.
#[export] Instance demo_regorus : Regorus := {|
  Engine := string; Value := JsonValue; Cut := ();
  engine_new := "";
  set_strict_builtin_errors _ e := e;
  Rego.set_rego_v0 _ e := e;
  set_gather_prints _ e := e;
  set_execution_timer_config _ _ e := e;
  add_extension _ _ _ := Ok;
  add_policy _ _ := Ok;
  engine_add_data _ := Ok;
  set_input_json input _ := Ok input;
  from_json_str text := Ok (JString text);
  from_yaml_str text := Ok (JString text);
  is_undefined _ := false;
  to_value := Ok;
  eval_rule _ _ e := (e, Ok (JString "allow"));
  eval_query _ _ e := (e, Ok [[JString "allow"]]) |}.

#[export] Instance demo_display : SerdeDisplay := {| value_text _ := "{}" |}.

(** A directory with one policy and one data document. *)
Definition demo_disk : Disk := mkDisk
  (λ path, Ok (bool_decide (path = "/policy" ∨ path = "/policy/limits")))
  (λ path, if decide (path = "/policy") then Ok [Ok "limits"; Ok "acs.rego"; Ok "notes.txt"]
           else if decide (path = "/policy/limits") then Ok [Ok "data.json"] else Err "no directory")
  (λ path, Ok "contents").

#[export] Instance demo_disk_laws : DiskLaws demo_disk.
Proof.
  split; cbn; intros dir entries; repeat case_decide; intros; simplify_eq.
  - repeat match goal with Hin : _ ∈ _ :: _ |- _ => apply elem_of_cons in Hin as [Hin|Hin] end; simplify_eq;
      first [by apply elem_of_nil in H1|split_and!; vm_compute; congruence].
  - repeat match goal with Hin : _ ∈ _ :: _ |- _ => apply elem_of_cons in Hin as [Hin|Hin] end; simplify_eq;
      first [by apply elem_of_nil in H2|split_and!; vm_compute; congruence].
  - apply (bool_decide_unpack _). vm_compute. exact I.
  - apply (bool_decide_unpack _). vm_compute. exact I.
Qed.

End Demo.

Section witnesses.
Import Demo.
#[local] Existing Instances demo_regorus demo_display demo_disk_laws.

Lemma directory_loaded_exact_witness :
  ∃ docs, docs ≠ [] ∧ ∀ doc, doc ∈ docs ↔ document_of_root demo_disk "/policy" BundleScope doc.
Proof.
  destruct (directory_loaded_exact (H := demo_regorus) demo_disk "/policy" "bundle" BundleScope
    ("" : @Engine demo_regorus) ("" : @Engine demo_regorus)) as (docs & Hne & Hdocs & _).
  - reflexivity.
  - vm_compute. reflexivity.
  - exists docs. split; [exact Hne|exact Hdocs].
Defined.
End witnesses.
