(* ===== verification/RegoFacts.v ===== *)
(** * The bundled Rego dispatcher: cache, verdict and deadline

    An evaluation answers only with the one defined value its query has; the
    cache of engines changes no answer and lets no builtin back in; the fast
    path of a rule gives what the query gives; and the worker pool hands a
    run its own verdict or an error. *)

From stdpp Require Import gmap strings sorting.
From S2P Require Import Prelude OrdMap RustStd Json Errors AgentHooks Constants Concrete.
From S2P Require Import Pins Policy StdPath PolicyOutput Cedar CedarFacts Workers WorkersSafety Rego RegoLoad.

(** ** What the crate promises *)

(** Documented behaviour of [regorus]: an engine holds its policies, data,
    extensions and settings; setting a timer or an input and evaluating leave
    those ([alike]) alone, so engines that are alike behave alike once the
    same input is set ([ready]). Cloning is copying. *)
Class RegorusLaws `{Regorus} := {
  alike : Engine → Engine → Prop;
  ready : Engine → Engine → Prop;
  alike_equiv :: Equivalence alike;
  timer_alike limit interval e : alike (set_execution_timer_config limit interval e) e;
  input_alike input e e' : set_input_json input e = Ok e' → alike e' e;
  query_alike cut query e : alike (eval_query cut query e).1 e;
  input_ready input e1 e2 : alike e1 e2 →
    match set_input_json input e1, set_input_json input e2 with
    | Ok e1', Ok e2' => ready e1' e2'
    | Err x, Err y => x = y
    | _, _ => False
    end;
  rule_ready cut query e1 e2 : ready e1 e2 →
    (eval_rule cut query e1).2 = (eval_rule cut query e2).2 ∧
    ready (eval_rule cut query e1).1 (eval_rule cut query e2).1;
  query_ready cut query e1 e2 : ready e1 e2 →
    (eval_query cut query e1).2 = (eval_query cut query e2).2 }.

(** Documented behaviour of [eval_rule] and [eval_query] on the path of a
    rule, where both are given time: the query has no result if the rule is
    undefined, and otherwise one, the rule's value. *)
Class RuleLaws `{Regorus} := {
  rule_query cut cut' query e value results :
    (eval_rule cut query e).2 = Ok value → (eval_query cut' query e).2 = Ok results →
    results = if is_undefined value then [] else [[value]] }.

Section rego.
Context `{Regorus} `{SerdeDisplay}.

(** ** The verdict *)

(** The one value a query has. *)
Definition query_value (e : Engine) (query : string) (value : Value) : Prop :=
  (∃ cut, (eval_rule cut query e).2 = Ok value ∧ is_undefined value = false) ∨
  (∃ cut, (eval_query cut query e).2 = Ok [[value]]).

Lemma single_value_Ok results verdict :
  single_expression_value results = Ok verdict ↔ ∃ value, results = [[value]] ∧ to_value value = Ok verdict.
Proof.
  unfold single_expression_value, to_json. split.
  - intros Hv. repeat case_match; simplify_eq; apply map_err_Ok in Hv; eauto.
  - intros (value & -> & Hv). by apply map_err_Ok.
Qed.

Lemma evaluate_engine_sound timeout query input pace e verdict :
  evaluate_engine timeout query input pace e = Ok verdict →
  ∃ prepared value, set_input_json input (set_execution_timer_config timeout TIMER_CHECK_INTERVAL e) = Ok prepared ∧
    (query_value prepared query value ∨ query_value (eval_rule (rule_cut pace) query prepared).1 query value) ∧
    to_value value = Ok verdict.
Proof.
  unfold evaluate_engine. intros (prepared & Hinput%map_err_Ok & Hverdict)%bind_Ok. exists prepared.
  assert (∀ e', evaluate_query (query_cut pace) query e' = Ok verdict →
    ∃ value, query_value e' query value ∧ to_value value = Ok verdict) as Hquery.
  { intros e' (results & Hresults%map_err_Ok & (value & -> & Hv)%single_value_Ok)%bind_Ok. exists value.
    split; [|done]. right. by eexists. }
  destruct (is_rule_path query).
  - destruct (eval_rule (rule_cut pace) query prepared) as [e' [value|err]] eqn:Hrule.
    + unfold rule_value in Hverdict. destruct (is_undefined value) eqn:Hu; [done|].
      apply map_err_Ok in Hverdict. exists value. split_and!; [done| |done]. left. left.
      exists (rule_cut pace). by rewrite Hrule.
    + destruct (negb _); [done|]. destruct (Hquery _ Hverdict) as (value & ? & ?). exists value. auto.
  - destruct (Hquery _ Hverdict) as (value & ? & ?). exists value. auto.
Qed.

(** ** The cache *)

(** The caches the clones of a runner can reach. [seen] are the states of
    the file system, [used] the keys evaluated and warmed. *)
Inductive engines_reachable (seen : Disk → Prop) (used : EngineKey → Prop) : EngineCache → Prop :=
  | engines_new : engines_reachable seen used engine_cache_new
  | engines_cleared cache :
      engines_reachable seen used cache → engines_reachable seen used (clear_policy_cache cache)
  | engines_prepared r disk cache later key :
      seen disk → used key → engines_reachable seen used cache → engines_reachable seen used later →
      engines_reachable seen used (prepared_engine r disk cache later key).2
  | engines_warmed r disk cache later last key engine warmed cut query :
      seen disk → used key → engines_reachable seen used cache → engines_reachable seen used later →
      engines_reachable seen used last →
      (prepared_engine r disk cache later key).1 = Ok engine →
      set_input_json "{}" (set_execution_timer_config (eval_timeout r) TIMER_CHECK_INTERVAL engine) = Ok warmed →
      engines_reachable seen used (store_warmed r last key (eval_query cut query warmed).1).

Section invariant.
Context (seen : Disk → Prop) (used : EngineKey → Prop).

(** [related built e]: how an engine in the cache comes from one that was
    built. *)
Context (related : Engine → Engine → Prop)
  (related_refl : ∀ e, related e e)
  (related_warm : ∀ built engine r warmed cut query, related built engine →
    set_input_json "{}" (set_execution_timer_config (eval_timeout r) TIMER_CHECK_INTERVAL engine) = Ok warmed →
    related built (eval_query cut query warmed).1).

Definition comes_from (key : EngineKey) (engine : Engine) : Prop :=
  ∃ disk key' built, seen disk ∧ used key' ∧ key_identity key' = key_identity key ∧
    build_engine disk key' = Ok built ∧ related built engine.

Definition engines_ok (cache : EngineCache) : Prop :=
  (size (engines cache) ≤ MAX_CACHED_ENGINES)%nat ∧
  ∀ id engine, engines cache !! id = Some engine → ∃ key, key_identity key = id ∧ comes_from key engine.

Lemma engine_store_ok upgrade cache key engine :
  comes_from key engine → engines_ok cache → engines_ok (engine_store upgrade cache key engine).
Proof.
  intros Hfrom [Hbound Hfound]. unfold engine_store. destruct (engines_poisoned cache); [by split|].
  destruct (bool_decide (size _ < _)%nat || _) eqn:Hroom; [|by split]. split; cbn.
  - apply orb_true_iff in Hroom as [Hroom|[_ Hroom]%andb_true_iff]; apply bool_decide_eq_true in Hroom.
    + rewrite map_size_insert. case_match; cbn; lia.
    + by rewrite map_size_insert_Some.
  - intros id e. rewrite lookup_insert_Some. intros [[<- <-]|[_ Hid]]; [by exists key|by apply Hfound].
Qed.

Lemma prepared_engine_ok r disk cache later key :
  seen disk → used key → engines_ok cache → engines_ok later →
  engines_ok (prepared_engine r disk cache later key).2 ∧
  ∀ engine, (prepared_engine r disk cache later key).1 = Ok engine → comes_from key engine.
Proof.
  intros Hdisk Hkey [_ Hfound] Hlater. unfold prepared_engine.
  assert (∀ engine, build_engine disk key = Ok engine → comes_from key engine) as Hbuilt.
  { intros engine Hbuild. by exists disk, key, engine. }
  destruct (negb _); [by auto|]. destruct (engine_lookup cache key) as [e|] eqn:Hhit.
  - split; [done|]. intros ? [= <-]. unfold engine_lookup in Hhit. destruct (engines_poisoned cache); [done|].
    apply Hfound in Hhit as (key' & Hid & (d & k & b & ? & ? & Heq & ?)). exists d, k, b. by rewrite Heq, Hid.
  - destruct (build_engine disk key) as [engine|]; cbn; [|by split].
    assert (comes_from key engine) by (by apply Hbuilt). split; [by apply engine_store_ok|by intros ? [= <-]].
Qed.

Lemma engines_reachable_ok cache : engines_reachable seen used cache → engines_ok cache.
Proof.
  induction 1 as [|cache _ IH|r disk cache later key Hd Hk _ IHc _ IHl
    |r disk cache later last key engine warmed cut query Hd Hk _ IHc _ IHl _ IHs Hprep Hwarm].
  - split; cbn; [rewrite map_size_empty; lia|]. intros id e. by rewrite lookup_empty.
  - unfold clear_policy_cache. destruct (engines_poisoned cache); [done|].
    split; cbn; [rewrite map_size_empty; lia|]. intros id e. by rewrite lookup_empty.
  - by apply prepared_engine_ok.
  - unfold store_warmed. destruct (policy_cache r); [|done]. apply engine_store_ok; [|done].
    apply prepared_engine_ok in Hprep as (d & k & b & ? & ? & ? & ? & ?); [|done..].
    exists d, k, b. split_and!; try done. by eapply related_warm.
Qed.
End invariant.

Lemma identity_sealed key key' base :
  key_identity key = key_identity key' → sealed key base → sealed key' base.
Proof.
  unfold key_identity, sealed. intros Hid.
  assert (ek_strict_builtin_errors key = ek_strict_builtin_errors key' ∧ ek_rego_v0 key = ek_rego_v0 key') as [-> ->]
    by (injection Hid; auto).
  done.
Qed.

(** However many bundles a host names, the cache keeps at most [MAX_CACHED_ENGINES], and each entry was
    built for its own key from files that were seen. *)
Theorem rego_cache_bounded seen used cache :
  engines_reachable seen used cache →
  (size (engines cache) ≤ MAX_CACHED_ENGINES)%nat ∧
  ∀ id engine, engines cache !! id = Some engine →
    ∃ disk key built, seen disk ∧ used key ∧ key_identity key = id ∧ build_engine disk key = Ok built.
Proof.
  intros [Hbound Hfound]%(engines_reachable_ok seen used (λ _ _, True)); [|done..]. split; [done|].
  intros id engine (key & <- & (d & k & b & ? & ? & ? & ? & _))%Hfound. by exists d, k, b.
Qed.

(** ** Sealed engines *)

Definition engine_grown (built engine : Engine) : Prop := ∀ base, grown base built → grown base engine.

Lemma prepared_engine_sealed seen used r disk cache later key engine :
  engines_reachable seen used cache → engines_reachable seen used later → seen disk → used key →
  (prepared_engine r disk cache later key).1 = Ok engine → ∃ base, sealed key base ∧ grown base engine.
Proof.
  assert (∀ cache, engines_reachable seen used cache → engines_ok seen used engine_grown cache) as Hok.
  { apply engines_reachable_ok; [by intros e base|]. intros built e r' warmed cut query Hrel Hinput base Hbase.
    apply grown_query. eapply grown_input; [|exact Hinput]. by apply grown_timer, Hrel. }
  intros Hcache%Hok Hlater%Hok Hdisk Hkey Hprep.
  destruct (prepared_engine_ok seen used engine_grown (λ _ _ H, H) r disk cache later key) as [_ Hfrom]; [done..|].
  destruct (Hfrom _ Hprep) as (d & k & built & _ & _ & Hid & Hbuild & Hgrown).
  apply build_engine_sealed in Hbuild as (base & Hsealed & Hbase). exists base.
  split; [by eapply identity_sealed|by apply Hgrown].
Qed.

(** What the worker pool returns to a run whose job gives [own]. *)
Definition returned_by_pool (own : EvalOutcome) (outcome : DeadlineOutcome) : Prop :=
  ∃ work limit p c, pool_reachable work limit p ∧ runs p !! c = Some (Returned outcome) ∧ work c = Some own.

Lemma pool_own own outcome result :
  returned_by_pool own outcome → outcome = Completed result → result = own.
Proof.
  intros (work & limit & p & c & Hp%pool_reachable_ok & Hc & Hwork) ->.
  pose proof (ok_runs _ _ Hp _ _ Hc) as [Hown|[Hown _]]; congruence.
Qed.

(** C27: A Rego dispatcher answers only for an invocation that names no remote bundle, and its answer is its own
    evaluation's, never another run's: the JSON of the one defined value the query has, once the canonical
    input is set in an engine into which nothing but policies and data was put after its network, clock,
    randomness and runtime builtins were made to err. No value, several results or several expressions give
    no verdict. *)
Theorem rego_verdict_sound `{UrlCrate} seen used r disk cache later pace run invocation verdict :
  engines_reachable seen used cache → engines_reachable seen used later → seen disk →
  let own key := (evaluate_work r disk cache later key invocation pace).1 in
  (∀ key, cache_key r invocation = Ok key → used key ∧ returned_by_pool (own key) (run key)) →
  rego_evaluate r own run invocation = Ok verdict →
  invocation_bundle_url invocation = Ok None ∧
  ∃ key base loaded prepared value,
    cache_key r invocation = Ok key ∧ sealed key base ∧ grown base loaded ∧
    set_input_json (ri_canonical_input invocation)
      (set_execution_timer_config (eval_timeout r) TIMER_CHECK_INTERVAL loaded) = Ok prepared ∧
    (query_value prepared (ri_query invocation) value ∨
     query_value (eval_rule (rule_cut pace) (ri_query invocation) prepared).1 (ri_query invocation) value) ∧
    to_value value = Ok verdict.
Proof.
  intros Hcache Hlater Hdisk own Hpool. unfold rego_evaluate.
  intros ([] & Hremote & (key & Hkey & Hrun)%bind_Ok)%bind_Ok.
  apply bind_Ok in Hremote as ([url|] & Hurl & Hremote); [done|]. split; [done|].
  destruct (Hpool _ Hkey) as [Hused Hreturned].
  assert (own key = Ok verdict) as Hown.
  { destruct (negb _); [done|]. destruct (run key) as [outcome| |error] eqn:Hout; [|done..].
    by rewrite <- (pool_own _ _ outcome Hreturned). }
  unfold own, evaluate_work in Hown. destruct (prepared_engine _ _ _ _ _) as [loaded cache'] eqn:Hprep.
  cbn in Hown. apply bind_Ok in Hown as (engine & -> & Heval).
  destruct (prepared_engine_sealed seen used r disk cache later key engine) as (base & Hsealed & Hgrown);
    [done..|by rewrite Hprep|].
  apply evaluate_engine_sound in Heval as (prepared & value & ? & ? & ?).
  by exists key, base, engine, prepared, value.
Qed.

(** The fast path of a rule and the query agree wherever both answer. *)
Theorem rule_path_agrees `{!RuleLaws} cut cut' query engine value results :
  (eval_rule cut query engine).2 = Ok value → (eval_query cut' query engine).2 = Ok results →
  rule_value value = single_expression_value results.
Proof.
  intros Hrule Hquery. rewrite (rule_query _ _ _ _ _ _ Hrule Hquery). unfold rule_value.
  by destruct (is_undefined value).
Qed.

(** ** Transparency *)

Section transparent.
Context `{!RegorusLaws}.

#[export] Instance evaluate_engine_alike timeout query input pace :
  Proper (alike ==> eq) (evaluate_engine timeout query input pace).
Proof.
  intros e1 e2 He. unfold evaluate_engine.
  assert (alike (set_execution_timer_config timeout TIMER_CHECK_INTERVAL e1)
    (set_execution_timer_config timeout TIMER_CHECK_INTERVAL e2)) as Htimer by (by rewrite !timer_alike).
  pose proof (input_ready input _ _ Htimer) as Hready.
  destruct (set_input_json input (set_execution_timer_config timeout TIMER_CHECK_INTERVAL e1)) as [p1|],
    (set_input_json input (set_execution_timer_config timeout TIMER_CHECK_INTERVAL e2)) as [p2|];
    try done; cbn; [|by subst].
  assert (∀ cut q1 q2, ready q1 q2 → evaluate_query cut query q1 = evaluate_query cut query q2) as Hquery.
  { intros cut q1 q2 Hq. unfold evaluate_query. by rewrite (query_ready cut query q1 q2 Hq). }
  destruct (is_rule_path query); [|by apply Hquery].
  destruct (rule_ready (rule_cut pace) query _ _ Hready) as [Hvalue Hnext].
  destruct (eval_rule (rule_cut pace) query p1) as [n1 v1], (eval_rule (rule_cut pace) query p2) as [n2 v2].
  cbn in *. subst v2. destruct v1; [done|]. destruct (negb _); [done|]. by apply Hquery.
Qed.

(** The policies in use do not hide behind one another: no two different
    in-memory bundles have one digest, and no data path is spelled in two
    ways (an engine's error quotes the spelling). *)
Record used_faithfully (used : EngineKey → Prop) : Prop := {
  faithful_bundles k k' b b' :
    used k → used k' → ek_inline_bundle k = Some b → ek_inline_bundle k' = Some b' →
    bundle_digest b = bundle_digest b' → b = b';
  faithful_paths k k' p p' :
    used k → used k' → p ∈ ek_data_paths k → p' ∈ ek_data_paths k' → components p = components p' → p = p' }.

Lemma components_faithful (ps ps' : list string) :
  (∀ p p', p ∈ ps → p' ∈ ps' → components p = components p' → p = p') →
  components <$> ps = components <$> ps' → ps = ps'.
Proof.
  revert ps'. induction ps as [|p ps IH]; intros [|p' ps'] Hfaithful Heq; try done.
  injection Heq as Hp Heq. rewrite (Hfaithful p p') by (done || by left). f_equal.
  apply IH; [|done]. intros q q' Hq Hq'. by apply Hfaithful; right.
Qed.

(** Then the cache compares all that building an engine looks at. *)
Lemma identity_faithful used k k' :
  used_faithfully used → used k → used k' → key_identity k = key_identity k' → k = k'.
Proof.
  intros Hfaithful Hk Hk' Hid. pose proof (faithful_bundles _ Hfaithful k k') as Hbundles.
  pose proof (components_faithful (ek_data_paths k) (ek_data_paths k')) as Hpaths.
  specialize (Hpaths (λ p p' Hp Hp', faithful_paths _ Hfaithful k k' p p' Hk Hk' Hp Hp')).
  destruct k as [bundle inline paths strict v0], k' as [bundle' inline' paths' strict' v0']. cbn in *.
  injection Hid as -> Hinline Heq -> ->. rewrite (Hpaths Heq). f_equal.
  destruct inline as [b|], inline' as [b'|]; try done. injection Hinline as Hdigest.
  by rewrite (Hbundles b b').
Qed.

(** What [prepared_engine] gives behaves like the engine built afresh, and
    it fails exactly when building does. *)
Lemma prepared_engine_alike used r disk cache later key :
  used_faithfully used →
  engines_reachable (eq disk) used cache → engines_reachable (eq disk) used later → used key →
  match (prepared_engine r disk cache later key).1, build_engine disk key with
  | Ok engine, Ok built => alike built engine
  | Err e, Err e' => e = e'
  | _, _ => False
  end.
Proof.
  intros Hfaithful Hcache Hlater Hkey.
  assert (∀ cache, engines_reachable (eq disk) used cache →
    engines_ok (eq disk) used (λ built e, alike e built) cache) as Hok.
  { apply engines_reachable_ok; [done|]. intros built e r' warmed cut query Hrel Hinput.
    rewrite query_alike. etrans; [by eapply input_alike|]. by rewrite timer_alike. }
  apply Hok in Hcache, Hlater.
  destruct (prepared_engine_ok (eq disk) used (λ built e, alike e built) (@reflexivity _ alike _)
    r disk cache later key eq_refl Hkey Hcache Hlater) as [_ Hfrom].
  destruct (prepared_engine r disk cache later key) as [[engine|error] cache'] eqn:Hprep; cbn in *.
  - destruct (Hfrom engine eq_refl) as (d & k & built & <- & Hk & Hid & Hbuild & Halike).
    rewrite (identity_faithful _ _ _ Hfaithful Hk Hkey Hid) in Hbuild. by rewrite Hbuild.
  - revert Hprep. unfold prepared_engine. destruct (negb _); [intros [= -> _]; done|].
    destruct (engine_lookup cache key); [done|]. by destruct (build_engine disk key); intros [= <- _].
Qed.

(** The cache is invisible: while the files do not change, and no two keys in use share a digest or differ
    only in how they spell a path, an evaluation through whatever cache the clones of the runner have left
    gives what building the engine afresh gives. *)
Theorem rego_cache_transparent used r disk cache later key invocation pace :
  used_faithfully used →
  engines_reachable (eq disk) used cache → engines_reachable (eq disk) used later → used key →
  (evaluate_work r disk cache later key invocation pace).1 =
  (engine ← build_engine disk key;
   evaluate_engine (eval_timeout r) (ri_query invocation) (ri_canonical_input invocation) pace engine).
Proof.
  intros Hfaithful Hcache Hlater Hkey.
  pose proof (prepared_engine_alike used r disk cache later key Hfaithful Hcache Hlater Hkey) as Hprep.
  unfold evaluate_work. revert Hprep. destruct (prepared_engine r disk cache later key) as [[engine|error] cache'], (build_engine disk key);
    cbn; intros Hprep; try done; [by symmetry; apply evaluate_engine_alike|by subst].
Qed.

(** Readying succeeds exactly when building afresh and setting the empty
    input do, whatever the caches hold. *)
Lemma warm_work_transparent used r disk cache later between key query cut :
  used_faithfully used →
  engines_reachable (eq disk) used cache → engines_reachable (eq disk) used later → used key →
  (warm_work r disk cache later between key query cut).1 =
  (engine ← build_engine disk key;
   map_err (λ err, invocation_failed ("failed to set Rego warm-up input: " +:+ err))
     (set_input_json "{}" (set_execution_timer_config (eval_timeout r) TIMER_CHECK_INTERVAL engine)) ;;
   Ok JNull).
Proof.
  intros Hfaithful Hcache Hlater Hkey.
  pose proof (prepared_engine_alike used r disk cache later key Hfaithful Hcache Hlater Hkey) as Hprep.
  unfold warm_work. revert Hprep. destruct (prepared_engine r disk cache later key) as [[engine|error] cache'],
    (build_engine disk key) as [built|]; cbn; intros Hprep; try done; [|by subst].
  assert (alike (set_execution_timer_config (eval_timeout r) TIMER_CHECK_INTERVAL engine)
    (set_execution_timer_config (eval_timeout r) TIMER_CHECK_INTERVAL built)) as Htimer
    by (by rewrite !timer_alike, Hprep).
  pose proof (input_ready "{}" _ _ Htimer) as Hready. revert Hready.
  destruct (set_input_json "{}" (set_execution_timer_config _ _ engine)), (set_input_json "{}" _); cbn;
    try done. by intros ->.
Qed.

(** What an evaluation leaves is a cache the clones can reach. *)
Lemma engines_prepared_work seen used r disk cache later key invocation pace :
  seen disk → used key → engines_reachable seen used cache → engines_reachable seen used later →
  engines_reachable seen used (evaluate_work r disk cache later key invocation pace).2.
Proof.
  intros Hdisk Hkey Hcache Hlater. unfold evaluate_work.
  pose proof (engines_prepared seen used r disk cache later key Hdisk Hkey Hcache Hlater) as Hprep.
  by destruct (prepared_engine r disk cache later key).
Qed.

(** What readying leaves is a cache the clones can reach. *)
Lemma warm_work_reachable seen used r disk cache later between key query cut :
  seen disk → used key → engines_reachable seen used cache → engines_reachable seen used later →
  (∀ c, engines_reachable seen used c → engines_reachable seen used (between c)) →
  engines_reachable seen used (warm_work r disk cache later between key query cut).2.
Proof.
  intros Hdisk Hkey Hcache Hlater Hbetween.
  pose proof (engines_prepared seen used r disk cache later key Hdisk Hkey Hcache Hlater) as Hprep.
  unfold warm_work. destruct (prepared_engine r disk cache later key) as [[engine|error] cache'] eqn:Heq; [|done].
  cbn in Hprep. cbn zeta. destruct (set_input_json _ _) as [warmed|] eqn:Hinput; cbn; [|by apply Hbetween].
  apply (engines_warmed seen used r disk cache later (between cache') key engine warmed cut query); try done;
    [by apply Hbetween|by rewrite Heq].
Qed.
End transparent.
End rego.

(** ** Witnesses *)

Module Sample.
Import RegoLoad.Demo.
#[export, refine] Instance demo_regorus_laws : RegorusLaws :=
  {| alike _ _ := True; ready := eq |}.
Proof. all: done. Defined.

#[export] Instance demo_rule_laws : RuleLaws.
Proof. split. intros [] [] query e value results [= <-] [= <-]. done. Qed.

Definition demo_rego : RegoPolicyInvocation :=
  mkRegoInvocation "data.acs.verdict" (Some "/policy") None [] sample_policy_input "{}".

Definition demo_pace : Pace := mkPace () 0 ().
Definition cached : RegorusRegoRunner := with_policy_cache true runner_new.
Definition demo_key : EngineKey := mkEngineKey (Some "/policy") None [] false false.

(** What the first evaluation leaves. *)
Definition filled : EngineCache :=
  (prepared_engine cached demo_disk engine_cache_new engine_cache_new demo_key).2.

Lemma demo_faithful : used_faithfully (eq demo_key).
Proof. split; [by intros k k' b b' <- <-|intros k k' p p' <- <- Hp%elem_of_nil; done]. Qed.

Lemma filled_reachable : engines_reachable (eq demo_disk) (eq demo_key) filled.
Proof. apply engines_prepared; constructor || done. Qed.

Example demo_evaluation :
  (evaluate_work cached demo_disk filled filled demo_key demo_rego demo_pace).1 = Ok (JString "allow").
Proof. vm_compute. reflexivity. Qed.
End Sample.

Section witnesses.
Import RegoLoad.Demo Sample.
#[local] Existing Instances demo_regorus demo_display demo_regorus_laws demo_rule_laws Pins.demo_url.

Lemma rego_cache_bounded_witness : (size (engines filled) ≤ MAX_CACHED_ENGINES)%nat.
Proof. exact (proj1 (rego_cache_bounded _ _ _ filled_reachable)). Defined.

Lemma rego_cache_transparent_witness :
  (evaluate_work cached demo_disk filled filled demo_key demo_rego demo_pace).1 =
  (engine ← build_engine demo_disk demo_key;
   evaluate_engine (eval_timeout cached) (ri_query demo_rego) (ri_canonical_input demo_rego) demo_pace engine).
Proof.
  refine (rego_cache_transparent (eq demo_key) cached demo_disk filled filled demo_key demo_rego demo_pace
    demo_faithful filled_reachable filled_reachable eq_refl).
Defined.

Lemma rule_path_agrees_witness :
  rule_value (JString "allow") = single_expression_value [[JString "allow"]].
Proof. exact (rule_path_agrees () () "data.acs.verdict" "{}" _ _ eq_refl eq_refl). Defined.

(** Run 1 of the pool's sample returns its job's verdict. *)
Lemma served_by_pool :
  returned_by_pool (Ok (JString "allow")) (Completed (Ok (JString "allow"))).
Proof.
  destruct served_reachable as (p & _ & Hreach & Hruns).
  exists WorkersSafety.Demo.demo_work, 2%nat, p, 1%nat. split; [exact Hreach|]. by rewrite Hruns.
Qed.

Lemma rego_verdict_sound_witness :
  invocation_bundle_url demo_rego = Ok None ∧
  ∃ prepared value, query_value prepared "data.acs.verdict" value ∧ to_value value = Ok (JString "allow").
Proof.
  destruct (rego_verdict_sound (eq demo_disk) (eq demo_key) cached demo_disk filled filled demo_pace
    (λ _, Completed (Ok (JString "allow"))) demo_rego (JString "allow") filled_reachable filled_reachable eq_refl)
    as [Hurl (key & base & loaded & prepared & value & _ & _ & _ & _ & Hvalue & Hjson)].
  - intros key [= <-]. split; [reflexivity|]. exact served_by_pool.
  - reflexivity.
  - split; [exact Hurl|]. destruct Hvalue as [Hvalue|Hvalue]; eexists _, value; eauto.
Defined.
End witnesses.
