(* ===== verification/Binding.v ===== *)
(** * The dispatchers a binding constructs: [dispatchers/binding.rs] and
    [dispatchers/mod.rs] of [engine/src]

    Each prepared invocation goes to the bundled evaluator of its engine, as
    the build with the default features ([rego] and [cedar]) routes it. *)

From stdpp Require Import gmap strings.
From S2P Require Import Prelude OrdMap RustStd Json Errors AgentHooks Limits.
From S2P Require Import Pins Policy Manifest Cedar CedarBuiltin Workers Rego.

Section binding.
Context `{CedarEngine} `{SerdeValue} `{Regorus} `{SerdeDisplay} `{UrlCrate}.

(** [BindingPolicyDispatcher::with_limits]: the runner. *)
Definition binding_runner (env : string → option string) : RegorusRegoRunner :=
  with_policy_cache true (from_environment env).

Section routes.
(** The Rego evaluation of this call and what the pool returned for it, and
    the files and the cache a Cedar call finds. *)
Context (runner : RegorusRegoRunner) (own : EngineKey → EvalOutcome) (run : EngineKey → DeadlineOutcome)
  (files : Files) (cache later : PreparedCache).

Definition binding_warm (invocation : PreparedPolicyInvocation) : result RuntimeError () :=
  match invocation with
  | PreparedRego _ => regorus_warm runner own run invocation
  | PreparedCedar _ => (builtin_warm files cache invocation).1
  | _ => Ok ()
  end.

Definition binding_evaluate (invocation : PreparedPolicyInvocation) : result RuntimeError JsonValue :=
  match invocation with
  | PreparedRego _ => regorus_evaluate runner own run invocation
  | PreparedCedar _ => (builtin_evaluate files cache later invocation).1
  | PreparedTest test =>
      ok_or (bt_get "verdict" (ti_adapter_config test))
        (invocation_failed "test policy declares no 'verdict' in its configuration")
  | PreparedCustom custom =>
      Err (invocation_failed ("custom policy adapter '" +:+ cu_adapter custom +:+
        "' requires a host-supplied dispatcher; none is available over this binding"))
  end.
End routes.

(** [default_policy_dispatcher_with_limits]: the runner of the dispatcher. *)
Definition default_policy_dispatcher (env : string → option string) (m : Manifest)
  : result RuntimeError RegorusRegoRunner :=
  for_each (λ p : string * PolicyConfig,
    let engine := policy_engine_type p.2 in
    if bool_decide (engine = "rego") then Ok ()
    else Err (invocation_failed ("default policy dispatcher supports only Rego policies; policy '" +:+ p.1 +:+
      "' uses engine '" +:+ engine +:+ "'"))) (policies m) ;;
  Ok (with_policy_cache true (from_environment env)).
End binding.

Section annotators.
Context `{AgentHooks} `{UrlCrate} `{SerdeJson}.

(** [default_annotator_dispatcher_for]: a dispatcher is its limits. *)
Definition default_annotator_dispatcher_for (m : Manifest) (limits : Limits) : result RuntimeError Limits :=
  validate m ;; Ok limits.
End annotators.

(** ** Facts *)

(** The default dispatcher is built exactly for manifests whose policies
    are all Rego, and then it never refuses one for its engine. *)
Lemma default_policy_dispatcher_Ok env m :
  is_ok (default_policy_dispatcher env m) = true ↔
  ∀ name config, (name, config) ∈ policies m → ∃ c, config = PolicyRego c.
Proof.
  unfold default_policy_dispatcher. destruct (for_each _ _) as [[]|e] eqn:Hall; cbn.
  - split; [intros _|done]. apply for_each_Ok in Hall. rewrite Forall_forall in Hall. intros name config Hin.
    specialize (Hall _ Hin). cbn in Hall. destruct config; try done. by eexists.
  - split; [done|]. intros Hrego. apply for_each_Err in Hall as (l1 & [name config] & l2 & Hl & _ & Hx).
    assert ((name, config) ∈ policies m) as Hin by (rewrite Hl; apply elem_of_app; right; by left).
    by destruct (Hrego _ _ Hin) as [c ->].
Qed.
