(* ===== verification/ManifestMerge.v ===== *)
(** * Composing manifests: the merge of [engine/src/manifest.rs]

    A chain of documents becomes one manifest: every field additive or
    identical, with the provenance of each declaration carried along. An
    error abandons the merge, so a function that fails half way returns
    no manifest. *)

From S2P Require Import Prelude OrdMap RustStd Json Errors AgentHooks Constants Paths PolicyInput.
From S2P Require Import Limits Hex Pins Policy Manifest.

(** ** Sources *)

Inductive ManifestLocation : Type :=
  | LocationPath (path : string)
  | LocationUrl (url : string).

#[export] Instance ManifestLocation_eq_dec : EqDecision ManifestLocation.
Proof. solve_decision. Defined.

Definition location_label (l : ManifestLocation) : string :=
  match l with LocationPath path => path | LocationUrl url => url end.

Inductive ManifestSource : Type :=
  | SourceLocation (location : ManifestLocation)
  | ChainEntry (index : nat).

Definition source_label (s : ManifestSource) : string :=
  match s with
  | SourceLocation location => location_label location
  | ChainEntry index => "manifest chain entry " +:+ fmt_N (N.of_nat index)
  end.

Definition manifest_merge_conflict {T} (field : string) (source : ManifestSource)
  : result RuntimeError T :=
  Err (ManifestInvalid ("manifest extends conflict for " +:+ field +:+ " from '" +:+
    source_label source +:+ "': duplicate definitions must be identical or additive")).

(** ** Field by field *)

Definition merge_string_keyed_map {T} `{EqDecision T} (existing incoming : btree string T)
  (map_name : string) (source : ManifestSource) : result RuntimeError (btree string T) :=
  fold_result (λ (existing : btree string T) (e : string * T),
    let (key, value) := e in
    match bt_get key existing with
    | Some existing_value =>
        if decide (existing_value = value) then Ok existing
        else manifest_merge_conflict (map_name +:+ "." +:+ key) source
    | None => Ok (bt_insert key value existing)
    end) existing incoming.

(** [merge_metadata_object], by recursion on the incoming object. *)
Fixpoint merge_metadata_value (incoming : JsonValue) (existing : JsonMap) (path : string)
  (source : ManifestSource) : result RuntimeError JsonMap :=
  match incoming with
  | JObject entries =>
      fold_result (λ (existing : JsonMap) (e : string * JsonValue),
        let (key, value) := e in
        let field := path +:+ "." +:+ key in
        match bt_get key existing with
        | Some existing_value =>
            if decide (existing_value = value) then Ok existing
            else
              match existing_value, value with
              | JObject existing_object, JObject _ =>
                  merged ← merge_metadata_value value existing_object field source;
                  Ok (bt_insert key (JObject merged) existing)
              | _, _ => manifest_merge_conflict field source
              end
        | None => Ok (bt_insert key value existing)
        end) existing entries
  | _ => Ok existing
  end.

Definition merge_metadata (existing incoming : JsonMap) (source : ManifestSource)
  : result RuntimeError JsonMap :=
  if bool_decide (incoming = []) then Ok existing
  else if bool_decide (existing = []) then Ok incoming
  else if decide (existing = incoming) then Ok existing
  else merge_metadata_value (JObject incoming) existing "metadata" source.

Definition merge_approval (existing incoming : option ApprovalSection) (source : ManifestSource)
  : result RuntimeError (option ApprovalSection) :=
  match incoming with
  | None => Ok existing
  | Some value =>
      match existing with
      | Some existing_value =>
          if decide (existing_value = value) then Ok existing
          else manifest_merge_conflict "approval" source
      | None => Ok incoming
      end
  end.

Section merge.
Context `{AgentHooksLaws} `{UrlCrate} `{SerdeJson}.

Definition merge_point_config (point : InterceptionPoint) (existing incoming : InterventionPointConfig)
  (source : ManifestSource) : result RuntimeError InterventionPointConfig :=
  if decide (existing = incoming) then Ok existing
  else
    let point_path := "intervention_points." +:+ point_as_str point in
    let differing := [
      ("policy_target", negb (bool_decide (policy_target existing = policy_target incoming)));
      ("policy_target_kind",
        negb (bool_decide (policy_target_kind existing = policy_target_kind incoming)));
      ("tool_name_from", negb (bool_decide (tool_name_from existing = tool_name_from incoming)));
      ("policy", negb (bool_decide (point_policy existing = point_policy incoming)))] in
    match find (λ d : string * bool, d.2) differing with
    | Some (field, _) =>
        Err (ManifestInvalid ("manifest extends conflict for " +:+ point_path +:+ "." +:+ field +:+
          " from '" +:+ source_label source +:+
          "': only annotations may differ for an intervention point defined in more than one document"))
    | None =>
        merged ← merge_string_keyed_map (point_annotations existing) (point_annotations incoming)
          (point_path +:+ ".annotations") source;
        Ok (mkPoint (policy_target existing) (policy_target_kind existing) (tool_name_from existing)
          merged (point_policy existing))
    end.

Definition merge_intervention_points
  (existing incoming : btree InterceptionPoint InterventionPointConfig) (source : ManifestSource)
  : result RuntimeError (btree InterceptionPoint InterventionPointConfig) :=
  fold_result (λ (existing : btree InterceptionPoint InterventionPointConfig)
      (e : InterceptionPoint * InterventionPointConfig),
    let (point, config) := e in
    match bt_get point existing with
    | Some existing_config =>
        merged ← merge_point_config point existing_config config source;
        Ok (bt_insert point merged existing)
    | None => Ok (bt_insert point config existing)
    end) existing incoming.

(** ** Provenance *)

Record HostWritten := mkHostWritten {
  host_annotators : gset string;
  host_annotations : gset (InterceptionPoint * string) }.

Definition host_written (m : Manifest) : HostWritten :=
  mkHostWritten
    (list_to_set (filter (λ name, name ∉ url_sourced_annotators m) (bt_keys (annotators m))))
    (list_to_set (filter (λ binding, binding ∉ url_sourced_annotations m)
      (point_bindings (intervention_points m)))).

Definition host_extend (a b : HostWritten) : HostWritten :=
  mkHostWritten (host_annotators a ∪ host_annotators b) (host_annotations a ∪ host_annotations b).

(** ** Whole manifests *)

Definition merge_manifest (existing incoming : Manifest) (source : ManifestSource)
  : result RuntimeError Manifest :=
  if negb (bool_decide (trim (spec_version existing) = trim (spec_version incoming)))
  then manifest_merge_conflict "agent_control_specification_version" source
  else
    let host := host_extend (host_written existing) (host_written incoming) in
    metadata' ← merge_metadata (metadata existing) (metadata incoming) source;
    tools' ← merge_string_keyed_map (tools existing) (tools incoming) "tools" source;
    annotators' ← merge_string_keyed_map (annotators existing) (annotators incoming) "annotators" source;
    policies' ← merge_string_keyed_map (policies existing) (policies incoming) "policies" source;
    points' ← merge_intervention_points (intervention_points existing) (intervention_points incoming) source;
    approval' ← merge_approval (approval existing) (approval incoming) source;
    Ok (mkManifest (spec_version existing) metadata' (extends existing) policies' points' tools'
      annotators' approval'
      (merge_url_sources (url_sources existing) (url_sources incoming))
      ((url_sourced_annotators existing ∪ url_sourced_annotators incoming) ∖ host_annotators host)
      ((url_sourced_annotations existing ∪ url_sourced_annotations incoming) ∖ host_annotations host)
      CompositionMerged).

Definition merge_resolved_manifest (resolved : option Manifest) (incoming : Manifest)
  (source : ManifestSource) : result RuntimeError Manifest :=
  match resolved with
  | Some existing => merge_manifest existing incoming source
  | None => Ok incoming
  end.

Definition validate_chain_extends (m : Manifest) (index : nat) : result RuntimeError () :=
  for_each (λ entry,
    if blank (extends_reference entry) then
      Err (ManifestInvalid ("extends entries in manifest chain entry " +:+ fmt_N (N.of_nat index) +:+
        " must not be empty"))
    else validate_extends_trust entry) (extends m).

(** The loop of [merge_chain], from the entry with this index on. *)
Fixpoint merge_chain_from (resolved : option Manifest) (index : nat) (manifests : list Manifest)
  : result RuntimeError (option Manifest) :=
  match manifests with
  | [] => Ok resolved
  | m :: manifests =>
      validate_chain_extends m index ;;
      if negb (bool_decide (extends m = [])) then
        Err (ManifestInvalid ("manifest chain entry " +:+ fmt_N (N.of_nat index) +:+
          " contains unresolved extends"))
      else
        merged ← merge_resolved_manifest resolved m (ChainEntry index);
        merge_chain_from (Some merged) (S index) manifests
  end.

Definition merge_chain (manifests : list Manifest) : result RuntimeError Manifest :=
  if bool_decide (manifests = []) then Err (ManifestInvalid "manifest chain must not be empty")
  else
    resolved ← merge_chain_from None 0 manifests;
    match resolved with
    | Some m => validate m ;; Ok m
    | None => Err (ManifestInvalid "manifest chain must not be empty")
    end.

(** ** Theorems *)

(** Each key of the two maps is in the merge, with its one value. *)
Lemma merge_map_get {T} `{EqDecision T} (existing incoming merged : btree string T) name source :
  merge_string_keyed_map existing incoming name source = Ok merged →
  (∀ k, bt_get k merged = match bt_get k existing with Some v => Some v | None => bt_get k incoming end) ∧
  (∀ k v v', bt_get k existing = Some v → (k, v') ∈ incoming → v = v').
Proof.
  unfold merge_string_keyed_map. revert existing.
  induction incoming as [|[key value] incoming IH]; intros existing Hm; cbn in Hm.
  { injection Hm as <-. split; [|set_solver]. intros k. by destruct (bt_get k existing). }
  apply bind_Ok in Hm as (next & Hnext & Hm). apply IH in Hm as [Hget Hsame].
  destruct (bt_get key existing) as [v|] eqn:Hkey.
  - case_decide; [|done]. subst. injection Hnext as <-. split.
    + intros k. rewrite Hget. cbn. destruct (bt_get k existing) eqn:Hk; [done|].
      rewrite decide_False; [done|]. congruence.
    + intros k v v' Hk [Heq|Hin]%elem_of_cons; [|by eapply Hsame]. injection Heq as -> ->. congruence.
  - injection Hnext as <-. split.
    + intros k. rewrite Hget, bt_get_insert. cbn. case_decide; [subst; by rewrite Hkey|done].
    + intros k v v' Hk [Heq|Hin]%elem_of_cons; [injection Heq as -> ->; congruence|].
      eapply (Hsame k); [|done]. rewrite bt_get_insert. rewrite decide_False; [done|congruence].
Qed.

Lemma merge_map_keys {T} `{EqDecision T} (existing incoming merged : btree string T) name source :
  merge_string_keyed_map existing incoming name source = Ok merged →
  ∀ k, k ∈ bt_keys merged ↔ k ∈ bt_keys existing ∨ k ∈ bt_keys incoming.
Proof.
  intros [Hget _]%merge_map_get k. rewrite <-!bt_contains_keys, !bt_contains_get, Hget.
  destruct (bt_get k existing); naive_solver.
Qed.

Lemma merge_Ok existing incoming source m :
  merge_manifest existing incoming source = Ok m →
  trim (spec_version existing) = trim (spec_version incoming) ∧
  spec_version m = spec_version existing ∧ extends m = extends existing ∧
  merge_string_keyed_map (tools existing) (tools incoming) "tools" source = Ok (tools m) ∧
  merge_string_keyed_map (annotators existing) (annotators incoming) "annotators" source = Ok (annotators m) ∧
  merge_string_keyed_map (policies existing) (policies incoming) "policies" source = Ok (policies m) ∧
  merge_intervention_points (intervention_points existing) (intervention_points incoming) source =
    Ok (intervention_points m) ∧
  merge_approval (approval existing) (approval incoming) source = Ok (approval m) ∧
  url_sources m = merge_url_sources (url_sources existing) (url_sources incoming) ∧
  url_sourced_annotators m = (url_sourced_annotators existing ∪ url_sourced_annotators incoming) ∖
    (host_annotators (host_written existing) ∪ host_annotators (host_written incoming)) ∧
  url_sourced_annotations m = (url_sourced_annotations existing ∪ url_sourced_annotations incoming) ∖
    (host_annotations (host_written existing) ∪ host_annotations (host_written incoming)).
Proof.
  unfold merge_manifest.
  destruct (bool_decide (trim (spec_version existing) = _)) eqn:Hver; [|done]. cbn [negb]. b2p.
  intros Hm. repeat (apply bind_Ok in Hm as (? & ? & Hm)). injection Hm as <-. done.
Qed.

Lemma merge_points_get existing incoming merged source :
  merge_intervention_points existing incoming source = Ok merged →
  NoDup (bt_keys incoming) →
  ∀ point, match bt_get point existing, bt_get point incoming with
    | Some e, Some i => ∃ c, bt_get point merged = Some c ∧ merge_point_config point e i source = Ok c
    | Some e, None => bt_get point merged = Some e
    | None, i => bt_get point merged = i
    end.
Proof.
  unfold merge_intervention_points. revert existing.
  induction incoming as [|[p config] incoming IH]; intros existing Hm Hnd point; cbn in Hm.
  { injection Hm as <-. by destruct (bt_get point existing). }
  apply NoDup_cons in Hnd as [Hp Hnd]. cbn in Hp. apply bind_Ok in Hm as (next & Hnext & Hm).
  specialize (IH next Hm Hnd point). cbn [bt_get].
  assert (bt_get p incoming = None) as Hnone by (by apply bt_get_None).
  destruct (decide (point = p)) as [->|Hne].
  - rewrite Hnone in IH. destruct (bt_get p existing) as [e|] eqn:He.
    + apply bind_Ok in Hnext as (c & Hc & [= <-]). rewrite bt_get_insert_eq in IH. by exists c.
    + injection Hnext as <-. by rewrite bt_get_insert_eq in IH.
  - assert (bt_get point next = bt_get point existing) as Hsame.
    { destruct (bt_get p existing) as [e|].
      - apply bind_Ok in Hnext as (c & _ & [= <-]). by rewrite bt_get_insert_ne.
      - injection Hnext as <-. by rewrite bt_get_insert_ne. }
    by rewrite Hsame in IH.
Qed.

Lemma merge_point_Ok point e i source c :
  merge_point_config point e i source = Ok c →
  policy_target c = policy_target e ∧ policy_target e = policy_target i ∧
  policy_target_kind c = policy_target_kind e ∧ policy_target_kind e = policy_target_kind i ∧
  tool_name_from c = tool_name_from e ∧ tool_name_from e = tool_name_from i ∧
  point_policy c = point_policy e ∧ point_policy e = point_policy i ∧
  (∀ k, bt_get k (point_annotations c) =
    match bt_get k (point_annotations e) with Some a => Some a | None => bt_get k (point_annotations i) end).
Proof.
  unfold merge_point_config. destruct (decide (e = i)) as [->|_].
  { intros [= <-]. split_and!; try done. intros k. by destruct (bt_get k _). }
  cbn [find snd]. repeat case_bool_decide; try done. cbn [negb]. intros Hm.
  apply bind_Ok in Hm as (merged & Hmerged & [= <-]). cbn.
  split_and!; try done. by apply merge_map_get in Hmerged as [Hget _].
Qed.
End merge.
