(* ===== verification/Loader.v ===== *)
(** * The manifest loader: [engine/src/manifest.rs]

    A manifest file and what it extends, fetched, checked and merged into
    one manifest. The loader asks its host for canonical paths, files and
    HTTP responses, and every request is recorded. A method of
    [ManifestLoader] is a step on the host, that record and the loader's
    own state; an error leaves the state as the source leaves it. *)

From S2P Require Import Prelude OrdMap RustStd Json Errors AgentHooks Constants Paths PolicyInput.
From S2P Require Import Limits Hex Pins Policy StdPath Manifest ManifestMerge.

(** ** The host *)

(** [std::io::Error]: its kind, as far as the loader asks, and its text. *)
Record IoError := mkIoError { io_not_found : bool; io_text : string }.

(** A response: its status, and what [take(n).read_to_end] reads of its
    body. *)
Record HttpResponse := mkResponse {
  http_status : N;
  http_read : N → result string (list Ascii.ascii) }.

(** The configuration of the [ureq] agent a document is fetched with. *)
Record HttpsAgent := mkHttpsAgent {
  ag_https_only : bool;
  ag_proxy : option string;
  ag_max_redirects : N;
  ag_timeout_ms : option N;
  ag_http_status_as_error : bool }.

(** The redirect limit is a [usize]: it saturates. *)
Definition https_agent (limits : Limits) : HttpsAgent :=
  mkHttpsAgent true None
    (if (max_manifest_url_redirects limits <=? u32_max)%N then max_manifest_url_redirects limits else u32_max)
    (Some (manifest_url_timeout_ms limits)) false.

Class LoaderHost (W : Type) := {
  (** [fs::canonicalize]. *)
  fs_canonicalize : W → string → W * result IoError string;
  (** [File::open] and [take(n).read_to_end]. *)
  fs_read : W → string → N → W * result string (list Ascii.ascii);
  (** [agent.get(url).call()]. *)
  http_get : W → HttpsAgent → string → W * result string HttpResponse;
  (** [Instant::now().checked_add(timeout).is_some()]. *)
  deadline_fits : W → N → bool }.

(** The parsers and the serializer of a manifest: serde's derived code
    and the YAML reader. *)
Class ManifestFormats := {
  manifest_from_json : string → result string Manifest;
  parse_yaml_str_with_limits : string → Limits → result RuntimeError Manifest;
  (** [serde_json::to_vec], as the number of bytes. *)
  manifest_to_vec : Manifest → result string N }.

(** A request, with the host's answer. *)
Inductive LoadAction : Type :=
  | ActCanonicalize (path : string) (r : result IoError string)
  | ActRead (path : string) (r : result string (list Ascii.ascii))
  | ActGet (agent : HttpsAgent) (url : string) (r : result string HttpResponse).

(** ** The loader's state *)

Record ManifestLoader := mkLoader {
  ld_stack : list ManifestLocation;
  ld_trust_root : option string;
  ld_limits : Limits;
  ld_url_bodies : btree string (list Ascii.ascii);
  ld_url_sources : list string }.

Definition with_limits (limits : Limits) : ManifestLoader := mkLoader [] None limits [] [].

Definition set_stack (l : ManifestLoader) (stack : list ManifestLocation) : ManifestLoader :=
  mkLoader stack (ld_trust_root l) (ld_limits l) (ld_url_bodies l) (ld_url_sources l).
Definition set_trust_root (l : ManifestLoader) (root : option string) : ManifestLoader :=
  mkLoader (ld_stack l) root (ld_limits l) (ld_url_bodies l) (ld_url_sources l).
Definition set_url_bodies (l : ManifestLoader) (bodies : btree string (list Ascii.ascii))
  : ManifestLoader :=
  mkLoader (ld_stack l) (ld_trust_root l) (ld_limits l) bodies (ld_url_sources l).
Definition set_url_sources (l : ManifestLoader) (sources : list string) : ManifestLoader :=
  mkLoader (ld_stack l) (ld_trust_root l) (ld_limits l) (ld_url_bodies l) sources.

Record Load (W : Type) := mkLoad {
  load_world : W;
  load_trace : list LoadAction;
  load_state : ManifestLoader }.
Arguments mkLoad {W}.
Arguments load_world {W}.
Arguments load_trace {W}.
Arguments load_state {W}.

Definition loading (W A : Type) : Type := Load W → Load W * result RuntimeError A.

#[export] Instance loading_ret {W} : MRet (loading W) := λ A a s, (s, Ok a).
#[export] Instance loading_bind {W} : MBind (loading W) := λ A B f m s,
  match m s with (s, Ok a) => f a s | (s, Err e) => (s, Err e) end.

Definition checked {W A} (r : result RuntimeError A) : loading W A := λ s, (s, r).
Definition loader_state {W} : loading W ManifestLoader := λ s, (s, Ok (load_state s)).
Definition update {W} (f : ManifestLoader → ManifestLoader) : loading W () := λ s,
  (mkLoad (load_world s) (load_trace s) (f (load_state s)), Ok ()).

(** ** Locations *)

Inductive ResolvedExtends : Type :=
  | ResolvedPath (path : string)
  | ResolvedUrl (url : string).

Section loader.
Context `{AgentHooksLaws} `{UrlCrate} `{SerdeJson} `{Sha2} `{ManifestFormats}.

(** A parsed document has no provenance yet ([#[serde(skip)]]), and its
    points and every object of its metadata are a [BTreeMap]. *)
Record fresh (m : Manifest) : Prop := {
  fresh_metadata : json_wf (JObject (metadata m));
  fresh_sources : url_sources m = [];
  fresh_annotators : url_sourced_annotators m = ∅;
  fresh_annotations : url_sourced_annotations m = ∅;
  fresh_points : bt_wf (intervention_points m) }.

Class ManifestFormatsLaws : Prop := {
  json_fresh text m : manifest_from_json text = Ok m → fresh m;
  yaml_fresh text limits m : parse_yaml_str_with_limits text limits = Ok m → fresh m }.

Definition location_is_json (l : ManifestLocation) : bool :=
  let extension :=
    match l with
    | LocationPath path => path_extension path
    | LocationUrl raw =>
        match url_parse raw with Ok url => path_extension (url_path url) | Err _ => None end
    end in
  match extension with Some extension => eq_ignore_ascii_case extension "json" | None => false end.

Definition parse_manifest_source (source : string) (location : ManifestLocation) (limits : Limits)
  : result RuntimeError Manifest :=
  if (max_merged_manifest_bytes limits <? str_len source)%N
  then Err (ResourceLimitExceeded "manifest source exceeds the byte limit")
  else if location_is_json location then
    map_err (λ err, ManifestInvalid ("failed to parse manifest '" +:+ location_label location +:+
      "' as JSON: " +:+ err)) (manifest_from_json source)
  else
    map_err (λ err,
      match err with
      | ManifestInvalid detail => ManifestInvalid ("failed to parse manifest '" +:+
          location_label location +:+ "' as YAML: " +:+ detail)
      | other => other
      end) (parse_yaml_str_with_limits source limits).

Definition validate_extends_entries (m : Manifest) (location : ManifestLocation)
  : result RuntimeError () :=
  for_each (λ entry,
    if blank (extends_reference entry)
    then Err (ManifestInvalid ("extends entries in '" +:+ location_label location +:+ "' must not be empty"))
    else validate_extends_trust entry) (extends m).

Definition resolve_url_reference (parent : ManifestLocation) (raw : string)
  : result RuntimeError string :=
  parsed ←
    match url_parse raw with
    | Ok url => Ok url
    | Err RelativeUrlWithoutBase =>
        match parent with
        | LocationUrl base =>
            base_url ← map_err (λ err, ManifestInvalid ("internal manifest URL '" +:+ base +:+
              "' is invalid: " +:+ url_error_text err)) (url_parse base);
            map_err (λ err, ManifestInvalid ("failed to resolve URL extends entry '" +:+ raw +:+
              "' from '" +:+ base +:+ "': " +:+ url_error_text err)) (url_join base_url raw)
        | LocationPath path => Err (ManifestInvalid ("extends URL '" +:+ raw +:+ "' in '" +:+ path +:+
            "' must be absolute HTTPS"))
        end
    | Err err => Err (ManifestInvalid ("extends URL '" +:+ raw +:+ "' is invalid: " +:+ url_error_text err))
    end;
  validate_url_components parsed.

Definition resolve_reference (parent : ManifestLocation) (reference : string)
  : result RuntimeError ResolvedExtends :=
  if has_url_scheme reference then url ← validate_https_url reference; Ok (ResolvedUrl url)
  else
    match parent with
    | LocationPath path =>
        let parent_dir := default "." (path_parent path) in
        if path_is_absolute reference then Ok (ResolvedPath reference)
        else Ok (ResolvedPath (path_join parent_dir reference))
    | LocationUrl _ => url ← resolve_url_reference parent reference; Ok (ResolvedUrl url)
    end.

Definition resolve_extends_entry (parent : ManifestLocation) (entry : ManifestExtends)
  : result RuntimeError ResolvedExtends :=
  match entry with
  | Reference reference => resolve_reference parent reference
  | ExtendsUrl url => url ← resolve_url_reference parent (ue_url url); Ok (ResolvedUrl url)
  end.

(** ** Requests to the host *)

Context `{LoaderHost W}.
Notation loading := (loading W).

Definition canonicalize_manifest_path (path : string) (including_manifest : option string)
  : loading string := λ s,
  let (w, r) := fs_canonicalize (load_world s) path in
  (mkLoad w (load_trace s ++ [ActCanonicalize path r]) (load_state s),
   map_err (λ err,
     match including_manifest with
     | Some including_manifest =>
         let detail := "failed to resolve extends file '" +:+ path +:+ "' from '" +:+
           including_manifest +:+ "': " +:+ io_text err in
         if io_not_found err then ManifestInvalid detail else ManifestUnreadable detail
     | None => ManifestUnreadable ("failed to resolve manifest file '" +:+ path +:+ "': " +:+ io_text err)
     end) r).

Definition saturating_succ (max n : N) : N := N.min max (n + 1).

(** [HttpExtendsFetcher::fetch_body]. *)
Definition fetch_body (url : string) (limits : Limits) (context : string) (require_success : bool)
  : loading (list Ascii.ascii) := λ s,
  let (w, call) := http_get (load_world s) (https_agent limits) url in
  let of_url := context +:+ " URL '" +:+ url +:+ "'" in
  (mkLoad w (load_trace s ++ [ActGet (https_agent limits) url call]) (load_state s),
   response ← map_err (λ err, ManifestUnreadable ("failed to fetch " +:+ of_url +:+ ": " +:+ err)) call;
   if (400 <=? http_status response)%N ||
      (require_success && negb ((200 <=? http_status response) && (http_status response <? 300))%N)
   then Err (ManifestUnreadable ("failed to fetch " +:+ of_url +:+ ": HTTP " +:+
     fmt_N (http_status response)))
   else
     body ← map_err (λ err, ManifestUnreadable ("failed to read " +:+ of_url +:+ " response body: " +:+ err))
       (http_read response (saturating_succ u64_max (max_manifest_url_bytes limits)));
     if (max_manifest_url_bytes limits <? N.of_nat (length body))%N then
       let label := if bool_decide (context = "extends") then "manifest URL extends"
                    else context +:+ " URL" in
       Err (ResourceLimitExceeded (label +:+ " body from '" +:+ url +:+ "' exceeds limit " +:+
         fmt_N (max_manifest_url_bytes limits)))
     else Ok body).

(** [<HttpExtendsFetcher as ExtendsFetcher>::fetch]. *)
Definition fetch (url : string) (limits : Limits) : loading (list Ascii.ascii) :=
  checked (validate_https_url url) ;;
  fetch_body url limits "extends" false.

(** [fetch_pinned_https_bytes] and [fetch_pinned_https_text]: an artifact
    named by a pinned source. *)
Definition fetch_pinned_https_bytes (source : PinnedHttpsSource) (limits : Limits)
  : loading (list Ascii.ascii) := λ s,
  (checked (pinned_validate source) ;;
   if (manifest_url_timeout_ms limits =? 0)%N then
     checked (Err (ResourceLimitExceeded "artifact URL fetch exceeds timeout of 0 ms"))
   else if negb (deadline_fits (load_world s) (manifest_url_timeout_ms limits)) then
     checked (Err (ResourceLimitExceeded "artifact URL timeout is too large for this platform"))
   else
     body ← fetch_body (pin_url source) limits "artifact" true;
     digest ← checked (pinned_digest source);
     if bool_decide (sha256 body = digest) then mret body
     else checked (Err (ManifestInvalid ("SHA-256 pin mismatch for artifact URL '" +:+
       pin_url source +:+ "'")))) s.

Definition fetch_pinned_https_text (source : PinnedHttpsSource) (limits : Limits) : loading string :=
  bytes ← fetch_pinned_https_bytes source limits;
  checked (map_err (λ err, ManifestInvalid ("artifact URL '" +:+ pin_url source +:+ "' is not UTF-8: " +:+ err))
    (from_utf8 bytes)).

Definition fetch_url_body (url : string) : loading (list Ascii.ascii) :=
  l ← loader_state;
  match bt_get url (ld_url_bodies l) with
  | Some body => mret body
  | None =>
      body ← fetch url (ld_limits l);
      if (max_manifest_url_bytes (ld_limits l) <? N.of_nat (length body))%N then
        checked (Err (ResourceLimitExceeded ("manifest URL extends body from '" +:+ url +:+ "' is " +:+
          fmt_N (N.of_nat (length body)) +:+ " bytes, exceeding limit " +:+
          fmt_N (max_manifest_url_bytes (ld_limits l)))))
      else
        update (λ l, set_url_bodies l (bt_insert url body (ld_url_bodies l))) ;;
        mret body
  end.

Definition read_location_body (location : ManifestLocation) : loading (list Ascii.ascii) :=
  match location with
  | LocationPath path => λ s,
      let max := max_merged_manifest_bytes (ld_limits (load_state s)) in
      let (w, r) := fs_read (load_world s) path (saturating_succ usize_max max) in
      (mkLoad w (load_trace s ++ [ActRead path r]) (load_state s),
       body ← map_err (λ err, ManifestUnreadable ("failed to read manifest file '" +:+ path +:+ "': " +:+ err)) r;
       if (max <? N.of_nat (length body))%N
       then Err (ResourceLimitExceeded ("manifest source '" +:+ path +:+ "' exceeds the byte limit"))
       else Ok body)
  | LocationUrl url => fetch_url_body url
  end.

Definition validate_merged_manifest_size (limits : Limits) (resolved : option Manifest)
  : result RuntimeError () :=
  match resolved with
  | None => Ok ()
  | Some m =>
      size ← map_err (λ err, ResourceLimitExceeded
        ("failed to serialize merged manifest for resource limit check: " +:+ err)) (manifest_to_vec m);
      if (max_merged_manifest_bytes limits <? size)%N
      then Err (ResourceLimitExceeded ("merged manifest serialized size " +:+ fmt_N size +:+
        " exceeds limit " +:+ fmt_N (max_merged_manifest_bytes limits)))
      else Ok ()
  end.

(** ** One document *)

(** The depth and the cycle check that open [load_location_with_body]. *)
Definition check_location (location : ManifestLocation) : loading () :=
  l ← loader_state;
  if (max_extends_depth (ld_limits l) <? N.of_nat (length (ld_stack l)) + 1)%N then
    checked (Err (ResourceLimitExceeded ("manifest extends depth exceeds limit " +:+
      fmt_N (max_extends_depth (ld_limits l)) +:+ " at '" +:+ location_label location +:+ "'")))
  else
    match list_find (location =.) (ld_stack l) with
    | Some (start, _) =>
        checked (Err (ManifestInvalid ("manifest extends cycle detected: " +:+
          join " -> " ((location_label <$> drop start (ld_stack l)) ++ [location_label location]))))
    | None => mret ()
    end.

(** The bytes as a parsed document. *)
Definition decode_document (source_bytes : list Ascii.ascii) (location : ManifestLocation)
  (limits : Limits) : result RuntimeError Manifest :=
  source ← map_err (λ err, ManifestInvalid ("manifest '" +:+ location_label location +:+
    "' is not valid UTF-8: " +:+ err)) (from_utf8 source_bytes);
  m ← parse_manifest_source source location limits;
  validate_extends_entries m location ;;
  Ok m.

(** The document itself: read unless it was fetched already, decoded, and
    for a fetched one recorded and gated. *)
Definition read_document (location : ManifestLocation) (body : option (list Ascii.ascii))
  (chain_pinned : bool) : loading Manifest :=
  source_bytes ← match body with Some body => mret body | None => read_location_body location end;
  l ← loader_state;
  m ← checked (decode_document source_bytes location (ld_limits l));
  match location with
  | LocationUrl url =>
      update (λ l, set_url_sources l (push_url_source (ld_url_sources l) url)) ;;
      let m := record_fetched_declarations m in
      checked (reject_fetched_document_local_access m ("remote manifest '" +:+ url +:+ "'") chain_pinned) ;;
      mret m
  | LocationPath path => mret (resolve_relative_paths m (default "." (path_parent path)))
  end.

(** ** The recursion

    [recur] is [load_location_with_body] on a document one level down. *)

Section entries.
Context (recur : ManifestLocation → option (list Ascii.ascii) → bool → loading Manifest).

Definition load_extends_path (include_path including_manifest extends_entry : string)
  : loading Manifest :=
  canonical_path ← canonicalize_manifest_path include_path (Some including_manifest);
  l ← loader_state;
  trust_root ← checked (ok_or (ld_trust_root l)
    (ManifestInvalid "manifest loader trust root was not initialized"));
  if negb (path_starts_with canonical_path trust_root) then
    checked (Err (ManifestInvalid ("extends entry '" +:+ extends_entry +:+ "' in '" +:+
      including_manifest +:+ "' resolves outside manifest root '" +:+ trust_root +:+ "': '" +:+
      canonical_path +:+ "'")))
  else recur (LocationPath canonical_path) None true.

Definition load_extends_url (url : string) (entry : ManifestExtends) (chain_pinned : bool)
  : loading Manifest :=
  normalized ← checked (validate_https_url url);
  body ← fetch_url_body normalized;
  checked (verify_extends_hash entry normalized body) ;;
  recur (LocationUrl normalized) (Some body) chain_pinned.

(** The [match] in the loop body: the included manifest and its source. *)
Definition load_entry (location : ManifestLocation) (chain_pinned : bool) (entry : ManifestExtends)
  : loading (Manifest * ManifestLocation) :=
  resolved ← checked (resolve_extends_entry location entry);
  match resolved with
  | ResolvedPath include_path =>
      including_path ← checked
        match location with
        | LocationPath path => Ok path
        | LocationUrl _ => Err (ManifestInvalid ("remote manifest '" +:+ location_label location +:+
            "' cannot extend local path '" +:+ extends_reference entry +:+ "'"))
        end;
      canonical_path ← canonicalize_manifest_path include_path (Some including_path);
      m ← load_extends_path include_path including_path (extends_reference entry);
      mret (m, LocationPath canonical_path)
  | ResolvedUrl url =>
      normalized ← checked (validate_https_url url);
      let child_pinned := chain_pinned && is_pinned entry in
      m ← load_extends_url normalized entry child_pinned;
      mret (m, LocationUrl normalized)
  end.

(** [merge_resolved_manifest] on [resolved], then the size check. *)
Definition merge_step (resolved : option Manifest) (incoming : Manifest) (source : ManifestLocation)
  : loading (option Manifest) :=
  merged ← checked (merge_resolved_manifest resolved incoming (SourceLocation source));
  l ← loader_state;
  checked (validate_merged_manifest_size (ld_limits l) (Some merged)) ;;
  mret (Some merged).

(** The loop over the entries. *)
Fixpoint load_entries (location : ManifestLocation) (chain_pinned : bool)
  (entries : list ManifestExtends) (resolved : option Manifest) : loading (option Manifest) :=
  match entries with
  | [] => mret resolved
  | entry :: entries =>
      included ← load_entry location chain_pinned entry;
      resolved ← merge_step resolved included.1 included.2;
      load_entries location chain_pinned entries resolved
  end.
End entries.

(** [exhausted] is the answer when the fuel ends; [load_terminates] shows
    that with a level of fuel per level of depth it is never given. *)
Fixpoint load_location_with_body (exhausted : RuntimeError) (fuel : nat) (location : ManifestLocation)
  (body : option (list Ascii.ascii)) (chain_pinned : bool) : loading Manifest :=
  check_location location ;;
  match fuel with
  | O => checked (Err exhausted)
  | S fuel =>
      m ← read_document location body chain_pinned;
      update (λ l, set_stack l (ld_stack l ++ [location])) ;;
      resolved ← load_entries (load_location_with_body exhausted fuel) location chain_pinned
        (extends m) None;
      update (λ l, set_stack l (removelast (ld_stack l))) ;;
      merged ← merge_step resolved (with_extends m []) location;
      checked (ok_or merged (ManifestInvalid "current manifest should always be merged"))
  end.

(** One level of fuel per level of [max_extends_depth]. *)
Definition load_location (location : ManifestLocation) : loading Manifest :=
  l ← loader_state;
  load_location_with_body (ManifestInvalid "out of fuel") (N.to_nat (max_extends_depth (ld_limits l)))
    location None true.

(** [let result = ...; self.trust_root = previous_root; result?]. *)
Definition restoring_root {A} (previous_root : option string) (m : loading A) : loading A := λ s,
  let (s, r) := m s in
  ((update (λ l, set_trust_root l previous_root) s).1, r).

Definition load (path : string) : loading Manifest :=
  canonical_path ← canonicalize_manifest_path path None;
  let trust_root := default "." (path_parent canonical_path) in
  l ← loader_state;
  update (λ l, set_url_sources (set_trust_root l (Some trust_root)) []) ;;
  m ← restoring_root (ld_trust_root l)
    (load_location (LocationPath canonical_path));
  l ← loader_state;
  update (λ l, set_url_sources l []) ;;
  let m := with_composition (with_url_sources m (ld_url_sources l)) CompositionLoaded in
  checked (validate m) ;;
  mret m.

(** [Manifest::from_path_with_limits]. *)
Definition from_path_with_limits (path : string) (limits : Limits) (w : W)
  : Load W * result RuntimeError Manifest :=
  load path (mkLoad w [] (with_limits limits)).
End loader.
