(* ===== verification/Http.v ===== *)
(** * The bundled dispatchers' requests: [engine/src/dispatchers/http.rs],
    [host_env.rs], [resolve.rs] and [endpoint.rs]

    A dispatcher reads the environment, sends requests and reads bounded
    responses. The process environment, the [ureq] client and the clock are
    the host; a run records every read and every request in order. *)

From S2P Require Import Prelude OrdMap RustStd Json Errors AgentHooks Constants Paths Hex.
From S2P Require Import Limits Pins StdPath Policy Manifest Loader.

(** ** Field names and defaults: [constants.rs] *)

Definition ANNOTATOR_TYPE : string := "type".
Definition TYPE_CLASSIFIER : string := "classifier".
Definition TYPE_LLM : string := "llm".
Definition TYPE_ENDPOINT : string := "endpoint".
Definition FIELD_FROM : string := "from".
Definition FIELD_INPUT_FROM : string := "input_from".
Definition FIELD_URL : string := "url".
Definition FIELD_ENDPOINT : string := "endpoint".
Definition FIELD_API_KEY_ENV : string := "api_key_env".
Definition FIELD_API_KEY : string := "api_key".
Definition FIELD_API_KEY_HEADER : string := "api_key_header".
Definition FIELD_TIMEOUT_MS : string := "timeout_ms".
Definition FIELD_HEADERS : string := "headers".
Definition FIELD_PROVIDER_CONFIG : string := "provider_config".
Definition FIELD_AWS_ACCESS_KEY_ID : string := "aws_access_key_id".
Definition FIELD_AWS_SECRET_ACCESS_KEY : string := "aws_secret_access_key".
Definition FIELD_AWS_SESSION_TOKEN : string := "aws_session_token".
Definition FIELD_AWS_ACCESS_KEY_ID_ENV : string := "aws_access_key_id_env".
Definition FIELD_AWS_SECRET_ACCESS_KEY_ENV : string := "aws_secret_access_key_env".
Definition FIELD_AWS_SESSION_TOKEN_ENV : string := "aws_session_token_env".
Definition HEADER_AUTHORIZATION : string := "Authorization".
Definition HEADER_CONTENT_TYPE : string := "Content-Type".
Definition HEADER_ACCEPT : string := "Accept".
Definition CONTENT_TYPE_JSON : string := "application/json".
Definition AUTH_BEARER_PREFIX : string := "Bearer ".
Definition REQUEST_INPUT : string := "input".
Definition REQUEST_FIELDS : string := "fields".
Definition POLICY_INPUT_SNAPSHOT : string := "snapshot".
Definition MAX_RESPONSE_BYTES : N := 1048576.
Definition DEFAULT_TIMEOUT_MS : N := 10000.

(** ** Requests and responses *)

(** One exchange of [http_agent(timeout_ms)]: a POST that follows
    [rq_max_redirects] redirects. The body is sent as its serialization. *)
Record HttpRequest := mkRequest {
  rq_url : string;
  rq_headers : list (string * string);
  rq_body : JsonValue;
  rq_timeout_ms : N;
  rq_max_redirects : N }.

Definition http_agent_post (timeout_ms : N) (url : string) (headers : list (string * string))
  (body : JsonValue) : HttpRequest := mkRequest url headers body timeout_ms 0.

(** A completed exchange: its status, the bytes its body yields, and the
    error that ends them, if any. *)
Record RawResponse := mkRawResponse {
  rs_status : N;
  rs_bytes : list Ascii.ascii;
  rs_error : option string }.

(** [ureq::Error]: the variant, the chain of [source()]s, and its text. An
    [io::Error] is whether its kind is [TimedOut]. *)
Inductive UreqVariant := UreqTimeout | UreqIo (timed_out : bool) | UreqOther.
Record UreqError := mkUreqError {
  ue_variant : UreqVariant;
  ue_sources : list (option bool);
  ue_text : string }.

Class DispatchHost (W : Type) := {
  (** [std::env::var(name).ok()]. *)
  env_var : W → string → option string;
  http_post : W → HttpRequest → W * result UreqError RawResponse;
  (** [SystemTime::now().duration_since(UNIX_EPOCH)], in seconds. *)
  unix_seconds : W → result string N }.

(** [ureq::http::StatusCode::canonical_reason]. *)
Class HttpCrate := { canonical_reason : N → option string }.

Inductive DispatchAction : Type :=
  | ActEnv (name : string)
  | ActPost (request : HttpRequest)
  | ActPromptGet (agent : HttpsAgent) (url : string).

Record Sent (W : Type) := mkSent { sent_world : W; sent_trace : list DispatchAction }.
Arguments mkSent {W}.
Arguments sent_world {W}.
Arguments sent_trace {W}.

Definition sending (W E A : Type) : Type := Sent W → Sent W * result E A.
#[export] Instance sending_ret {W E} : MRet (sending W E) := λ A a s, (s, Ok a).
#[export] Instance sending_bind {W E} : MBind (sending W E) := λ A B f m s,
  match m s with (s, Ok a) => f a s | (s, Err e) => (s, Err e) end.

Definition pure {W E A} (r : result E A) : sending W E A := λ s, (s, r).
Definition sending_err {W E F A} (f : E → F) (m : sending W E A) : sending W F A := λ s,
  let (s, r) := m s in (s, map_err f r).

Notation fields_map := (btree string JsonValue).

(** [resolve::failed]. *)
Definition failed (annotator_name detail : string) : RuntimeError :=
  AnnotationFailed (annotator_name +:+ ": " +:+ detail).

(** ** Fields *)

Definition optional_string_field (fields : fields_map) (name : string) : option string :=
  value ← bt_get name fields ≫= as_str; if str_is_empty value then None else Some value.

Definition required_string_field (annotator_name : string) (fields : fields_map) (name : string)
  : result RuntimeError string :=
  ok_or (optional_string_field fields name) (failed annotator_name ("missing required field '" +:+ name +:+ "'")).

Definition timeout_ms (annotator_name : string) (fields : fields_map) : result RuntimeError N :=
  match bt_get FIELD_TIMEOUT_MS fields with
  | None | Some JNull => Ok DEFAULT_TIMEOUT_MS
  | Some value =>
      ok_or (timeout ← as_u64 value; if (0 <? timeout)%N then Some timeout else None)
        (failed annotator_name "timeout_ms must be a positive integer")
  end.

Definition configured_fields (fields : fields_map) (transport_fields : list string) : JsonValue :=
  JObject (fold_left (λ config e,
    if bool_decide (e.1 ∈ transport_fields) then config else bt_insert e.1 e.2 config) fields []).

Definition ENDPOINT_TRANSPORT_FIELDS : list string :=
  [ANNOTATOR_TYPE; FIELD_FROM; FIELD_INPUT_FROM; FIELD_ENDPOINT; FIELD_URL; FIELD_TIMEOUT_MS;
   FIELD_API_KEY_ENV; FIELD_API_KEY; FIELD_API_KEY_HEADER; FIELD_HEADERS; FIELD_PROVIDER_CONFIG;
   FIELD_AWS_ACCESS_KEY_ID; FIELD_AWS_SECRET_ACCESS_KEY; FIELD_AWS_SESSION_TOKEN;
   FIELD_AWS_ACCESS_KEY_ID_ENV; FIELD_AWS_SECRET_ACCESS_KEY_ENV; FIELD_AWS_SESSION_TOKEN_ENV].

Definition endpoint_payload (input : string) (fields : fields_map) : JsonValue :=
  JObject [(REQUEST_FIELDS, configured_fields fields ENDPOINT_TRANSPORT_FIELDS); (REQUEST_INPUT, JString input)].

(** ** The policy target *)

Definition policy_target_text `{SerdeJson} (annotator_name : string) (annotator : AnnotatorInvocation)
  (preliminary_policy_input : JsonValue) : result RuntimeError string :=
  let field name := bt_get name (invocation_fields annotator) ≫= as_str in
  from ← ok_or
    match input_from annotator with
    | Some from => Some from
    | None => match field FIELD_FROM with Some from => Some from | None => field FIELD_INPUT_FROM end
    end (failed annotator_name "missing from path");
  path ← map_err (λ error, failed annotator_name ("invalid from path: " +:+ path_error_to_string error))
    (parse_with_snapshot_alias from);
  let env :=
    match json_get POLICY_INPUT_SNAPSHOT preliminary_policy_input with
    | None => with_pi preliminary_policy_input
    | Some snapshot => with_pi_and_snap preliminary_policy_input snapshot
    end in
  value ← map_err (λ error, failed annotator_name ("from path failed: " +:+ error_to_string error))
    (resolve path env);
  ok_or (as_str value) (failed annotator_name "from path did not resolve to a string").

(** ** Errors *)

Section describe.
Context `{Sha2} `{HttpCrate}.

Definition describe_error_body (body : string) : string :=
  if str_is_empty body then "empty body"
  else fmt_N (str_len body) +:+ " byte body, sha256 " +:+
    lower (take 8 (sha256 (String.list_ascii_of_string body))).

Definition describe_http_failure (status : N) (body : string) : string :=
  "HTTP request failed with status " +:+ fmt_N status +:+ " (" +:+ default "" (canonical_reason status) +:+
  "); " +:+ describe_error_body body.
End describe.

(** The walk over the [source()]s: the first [io::Error] decides. *)
Fixpoint source_timed_out (sources : list (option bool)) : bool :=
  match sources with
  | [] => false
  | Some timed_out :: _ => timed_out
  | None :: sources => source_timed_out sources
  end.

Definition is_timeout_error (error : UreqError) : bool :=
  match ue_variant error with
  | UreqTimeout | UreqIo true => true
  | UreqIo false | UreqOther => source_timed_out (ue_sources error)
  end.

Definition transport_error (annotator_name : string) (error : UreqError) : RuntimeError :=
  if is_timeout_error error then AnnotationTimeout ("HTTP request timed out: " +:+ ue_text error)
  else failed annotator_name ("HTTP request failed: " +:+ ue_text error).

(** ** Bounded reads *)

(** [take(limit).read_to_string]: the text read, and the error. An [io]
    error keeps the text that came before it; bytes that are not UTF-8 are
    discarded. *)
Definition take_read_to_string (limit : N) (response : RawResponse) : string * option string :=
  let got := take (N.to_nat limit) (rs_bytes response) in
  let io := if (N.of_nat (length (rs_bytes response)) <? limit)%N then rs_error response else None in
  match from_utf8 got with
  | Ok text => (text, io)
  | Err _ => ("", Some (default "stream did not contain valid UTF-8" io))
  end.

Definition read_error_body (response : RawResponse) : string :=
  trim (take_read_to_string MAX_RESPONSE_BYTES response).1.

Definition read_response_body (response : RawResponse) : result string string :=
  match take_read_to_string (MAX_RESPONSE_BYTES + 1) response with
  | (_, Some error) => Err ("HTTP response read failed: " +:+ error)
  | (body, None) =>
      if (MAX_RESPONSE_BYTES <? str_len body)%N then Err "HTTP response exceeded size limit" else Ok body
  end.

Definition parse_response `{SerdeValue} (annotator_name : string) (response : RawResponse)
  : result RuntimeError JsonValue :=
  body ← map_err (failed annotator_name) (read_response_body response);
  map_err (λ error, failed annotator_name ("HTTP response was not valid JSON: " +:+ error))
    (value_from_str body).

Definition success_status (status : N) : bool := ((200 <=? status) && (status <? 300))%N.

(** ** The environment: [host_env.rs] *)

Section host.
Context {W : Type} `{DispatchHost W}.
Notation sending := (sending W).

Definition host_env_refusal (env_name : string) : string :=
  MARKER +:+ " must not read host environment credential '" +:+ env_name +:+
  "'; supply the credential inline on the annotator declaration or declare this annotator in a manifest chain with no URL extends".

(** [read], by [read_with]: the refusal comes before the lookup. *)
Definition host_env_read (url_sourced : bool) (env_name : string) : sending string (option string) := λ s,
  if url_sourced then (s, Err (host_env_refusal env_name))
  else (mkSent (sent_world s) (sent_trace s ++ [ActEnv env_name]), Ok (env_var (sent_world s) env_name)).

Definition host_env_read_optional {E} (url_sourced : bool) (env_name : string)
  : sending E (option string) := λ s,
  let (s, r) := host_env_read url_sourced env_name s in
  (s, Ok match r with Ok value => value | Err _ => None end).

(** ** Posting *)

Definition post (request : HttpRequest) : sending UreqError RawResponse := λ s,
  let (w, r) := http_post (sent_world s) request in
  (mkSent w (sent_trace s ++ [ActPost request]), r).

Record Authorization := mkAuthorization { auth_header : string; auth_header_value : string }.

Definition authorization (fields : fields_map) (key : string) : Authorization :=
  match optional_string_field fields FIELD_API_KEY_HEADER with
  | Some header => mkAuthorization header key
  | None => mkAuthorization HEADER_AUTHORIZATION (AUTH_BEARER_PREFIX +:+ key)
  end.

Definition env_api_key (annotator_name : string) (annotator : AnnotatorInvocation)
  : sending RuntimeError (option Authorization) :=
  let fields := invocation_fields annotator in
  match optional_string_field fields FIELD_API_KEY_ENV with
  | None => mret None
  | Some env_name =>
      found ← sending_err (failed annotator_name)
        (host_env_read (invocation_url_sourced annotator) env_name);
      key ← pure (ok_or found (failed annotator_name
        ("API key environment variable '" +:+ env_name +:+ "' is not set")));
      mret (Some (authorization fields key))
  end.

Context `{Sha2} `{HttpCrate} `{SerdeValue} `{SerdeJson}.

Definition post_json (annotator_name url : string) (payload : JsonValue)
  (credential : option Authorization) (timeout : N) : sending RuntimeError JsonValue :=
  let headers :=
    [(HEADER_CONTENT_TYPE, CONTENT_TYPE_JSON); (HEADER_ACCEPT, CONTENT_TYPE_JSON)] ++
    match credential with Some a => [(auth_header a, auth_header_value a)] | None => [] end in
  response ← sending_err (transport_error annotator_name) (post (http_agent_post timeout url headers payload));
  pure (if success_status (rs_status response) then parse_response annotator_name response
        else Err (failed annotator_name
          (describe_http_failure (rs_status response) (read_error_body response)))).

(** ** The endpoint annotator *)

Definition is_type (annotator : AnnotatorInvocation) (name : string) : bool :=
  bool_decide (bt_get ANNOTATOR_TYPE (invocation_fields annotator) ≫= as_str = Some name).

Definition endpoint_dispatch (annotator_name : string) (annotator : AnnotatorInvocation)
  (preliminary_policy_input : JsonValue) : sending RuntimeError JsonValue :=
  if negb (is_type annotator TYPE_ENDPOINT) then
    pure (Err (failed annotator_name "endpoint dispatcher received a non-endpoint annotator"))
  else
    let fields := invocation_fields annotator in
    url ← pure (ok_or
      match optional_string_field fields FIELD_ENDPOINT with
      | Some url => Some url | None => optional_string_field fields FIELD_URL end
      (failed annotator_name "missing required field 'endpoint' or 'url'"));
    timeout ← pure (timeout_ms annotator_name fields);
    target ← pure (policy_target_text annotator_name annotator preliminary_policy_input);
    output ← post_json annotator_name url (endpoint_payload target fields) None timeout;
    pure (match output with
          | JObject _ => Ok output
          | _ => Err (failed annotator_name "endpoint annotator response must be a JSON object")
          end).
End host.
