(* ===== verification/Calendar.v ===== *)
(** * Dates for request signing: [aws_dates] and [civil_from_days] of
    [engine/src/dispatchers/llm.rs]

    The calendar arithmetic is i64's, whose [/] truncates; that it is the
    Gregorian calendar is proved against day-by-day counting. *)

From Stdlib Require Import ZArith Lia.
From S2P Require Import Prelude RustStd.
#[local] Open Scope Z_scope.

Definition civil_from_days (days_since_epoch : Z) : Z * Z * Z :=
  let z := days_since_epoch + 719468 in
  let era := Z.quot (if 0 <=? z then z else z - 146096) 146097 in
  let doe := z - era * 146097 in
  let yoe := Z.quot (doe - Z.quot doe 1460 + Z.quot doe 36524 - Z.quot doe 146096) 365 in
  let y := yoe + era * 400 in
  let doy := doe - (365 * yoe + Z.quot yoe 4 - Z.quot yoe 100) in
  let mp := Z.quot (5 * doy + 2) 153 in
  let d := doy - Z.quot (153 * mp + 2) 5 + 1 in
  let m := mp + (if mp <? 10 then 3 else -9) in
  let year := y + (if m <=? 2 then 1 else 0) in
  (year, m, d).

(** [{:0width}] of an [i64]. *)
Fixpoint zeros (n : nat) : string := match n with O => "" | S n => String (byte_of 48) (zeros n) end.
Definition pad_left (width : nat) (n : Z) : string :=
  let digits := fmt_N (Z.abs_N n) in
  if n <? 0 then "-" +:+ zeros (width - 1 - String.length digits) +:+ digits
  else zeros (width - String.length digits) +:+ digits.

(** [as_secs() as i64]. *)
Definition wrap_i64 (n : N) : Z :=
  let n := Z.of_N n mod 2 ^ 64 in if n <? 2 ^ 63 then n else n - 2 ^ 64.

(** [aws_dates] of the clock's reading. *)
Definition aws_dates (clock : result string N) : result string (string * string) :=
  match clock with
  | Err error => Err ("system clock is before Unix epoch: " +:+ error)
  | Ok seconds =>
      let secs := wrap_i64 seconds in
      let days := secs / 86400 in
      let seconds_of_day := secs mod 86400 in
      let '(year, month, day) := civil_from_days days in
      let hour := Z.quot seconds_of_day 3600 in
      let minute := Z.quot (Z.rem seconds_of_day 3600) 60 in
      let second := Z.rem seconds_of_day 60 in
      let date := pad_left 4 year +:+ pad_left 2 month +:+ pad_left 2 day in
      Ok (date +:+ "T" +:+ pad_left 2 hour +:+ pad_left 2 minute +:+ pad_left 2 second +:+ "Z", date)
  end.

(** ** The Gregorian calendar, a day at a time *)

Definition leap (y : Z) : bool :=
  ((y mod 4 =? 0) && negb (y mod 100 =? 0)) || (y mod 400 =? 0).

Definition days_in_month (y m : Z) : Z :=
  if m =? 2 then if leap y then 29 else 28
  else if (m =? 4) || (m =? 6) || (m =? 9) || (m =? 11) then 30 else 31.

Definition next_day (date : Z * Z * Z) : Z * Z * Z :=
  let '(y, m, d) := date in
  if d <? days_in_month y m then (y, m, d + 1)
  else if m <? 12 then (y, m + 1, 1) else (y + 1, 1, 1).

(** Years, months and days counted from the first of March. *)
Definition year_start (yoe : Z) : Z := 365 * yoe + yoe / 4 - yoe / 100.
Definition year_length (yoe : Z) : Z := if leap (yoe + 1) then 366 else 365.
Definition month_day (doy : Z) : Z * Z :=
  let mp := (5 * doy + 2) / 153 in
  (mp + (if mp <? 10 then 3 else -9), doy - (153 * mp + 2) / 5 + 1).
Definition march_date (era yoe doy : Z) : Z * Z * Z :=
  let '(m, d) := month_day doy in (yoe + era * 400 + (if m <=? 2 then 1 else 0), m, d).

Lemma year_length_steps yoe :
  0 <= yoe < 400 → year_start (yoe + 1) + (if yoe =? 399 then 1 else 0) = year_start yoe + year_length yoe.
Proof.
  intros H. unfold year_start, year_length, leap.
  destruct (Z.eqb_spec yoe 399) as [->|Hne]; [done|].
  destruct (Z.eqb_spec ((yoe + 1) mod 400) 0); [Z.to_euclidean_division_equations; lia|].
  destruct (Z.eqb_spec ((yoe + 1) mod 4) 0), (Z.eqb_spec ((yoe + 1) mod 100) 0); cbn;
    Z.to_euclidean_division_equations; lia.
Qed.

(** [k] is [n / d]. *)
Lemma div_bounds n d : 0 < d → d * (n / d) <= n < d * (n / d) + d.
Proof. intros. pose proof (Z.div_mod n d). pose proof (Z.mod_pos_bound n d). lia. Qed.

(** The year formula finds the year a day of the era is in. *)
Lemma yoe_spec doe :
  0 <= doe < 146097 →
  let yoe := (doe - doe / 1460 + doe / 36524 - doe / 146096) / 365 in
  0 <= yoe < 400 ∧ year_start yoe <= doe < year_start yoe + year_length yoe.
Proof.
  intros H yoe. destruct (decide (doe = 146096)) as [->|Hne]; [vm_compute; auto|].
  assert (0 <= yoe < 400 ∧ year_start yoe <= doe ∧ doe < year_start (yoe + 1) + (if yoe =? 399 then 1 else 0))
    as (Hyoe & Hlow & Hhigh); [|by rewrite year_length_steps in Hhigh].
  subst yoe. rewrite (Z.div_small doe 146096) by lia. unfold year_start.
  pose proof (div_bounds doe 36524 ltac:(lia)) as Hc. pose proof (div_bounds doe 1460 ltac:(lia)) as Ha.
  assert (doe / 36524 = 0 ∨ doe / 36524 = 1 ∨ doe / 36524 = 2 ∨ doe / 36524 = 3) as Hcases by lia.
  revert Hc Ha Hcases. generalize (doe / 36524) as c, (doe / 1460) as a. intros c a Hc Ha Hcases.
  pose proof (div_bounds (doe - a + c - 0) 365 ltac:(lia)) as Hy. revert Hy.
  generalize ((doe - a + c - 0) / 365) as y. intros y Hy.
  pose proof (div_bounds y 4 ltac:(lia)). pose proof (div_bounds y 100 ltac:(lia)).
  pose proof (div_bounds (y + 1) 4 ltac:(lia)). pose proof (div_bounds (y + 1) 100 ltac:(lia)).
  destruct (Z.eqb_spec y 399); destruct Hcases as [-> | [-> | [-> | ->]]]; lia.
Qed.

Lemma year_start_unique yoe yoe' doe :
  0 <= yoe < 400 → 0 <= yoe' < 400 → year_start yoe <= doe < year_start yoe + year_length yoe →
  year_start yoe' <= doe < year_start yoe' + year_length yoe' → yoe = yoe'.
Proof.
  intros H H'. rewrite <- !year_length_steps by done. unfold year_start.
  pose proof (div_bounds yoe 4 ltac:(lia)). pose proof (div_bounds yoe 100 ltac:(lia)).
  pose proof (div_bounds (yoe + 1) 4 ltac:(lia)). pose proof (div_bounds (yoe + 1) 100 ltac:(lia)).
  pose proof (div_bounds yoe' 4 ltac:(lia)). pose proof (div_bounds yoe' 100 ltac:(lia)).
  pose proof (div_bounds (yoe' + 1) 4 ltac:(lia)). pose proof (div_bounds (yoe' + 1) 100 ltac:(lia)).
  destruct (Z.eqb_spec yoe 399), (Z.eqb_spec yoe' 399); intros; lia.
Qed.

(** A day is its era, its year of the era and its day of the year. *)
Lemma civil_march era yoe doy :
  0 <= yoe < 400 → 0 <= doy < year_length yoe →
  civil_from_days (era * 146097 + year_start yoe + doy - 719468) = march_date era yoe doy.
Proof.
  intros Hyoe Hdoy. unfold civil_from_days.
  assert (0 <= year_start yoe + doy < 146097) as Hdoe.
  { pose proof (year_length_steps yoe Hyoe). unfold year_start in *.
    pose proof (div_bounds yoe 4 ltac:(lia)). pose proof (div_bounds yoe 100 ltac:(lia)).
    pose proof (div_bounds (yoe + 1) 4 ltac:(lia)). pose proof (div_bounds (yoe + 1) 100 ltac:(lia)).
    destruct (Z.eqb_spec yoe 399); lia. }
  replace (era * 146097 + year_start yoe + doy - 719468 + 719468)
    with (era * 146097 + (year_start yoe + doy)) by lia.
  set (doe := year_start yoe + doy) in *.
  assert (Z.quot (if 0 <=? era * 146097 + doe then era * 146097 + doe
                  else era * 146097 + doe - 146096) 146097 = era) as ->.
  { destruct (Z.leb_spec 0 (era * 146097 + doe)); Z.to_euclidean_division_equations; lia. }
  replace (era * 146097 + doe - era * 146097) with doe by lia.
  rewrite !(Z.quot_div_nonneg doe) by lia.
  destruct (yoe_spec doe Hdoe) as [Hy Hin].
  set (y := (doe - doe / 1460 + doe / 36524 - doe / 146096) / 365) in *.
  assert (Z.quot (doe - doe / 1460 + doe / 36524 - doe / 146096) 365 = y) as ->.
  { apply Z.quot_div_nonneg; [|lia]. pose proof (div_bounds doe 1460). pose proof (div_bounds doe 146096).
    pose proof (div_bounds doe 36524). lia. }
  assert (y = yoe) as -> by (eapply year_start_unique; [done..|unfold doe; lia]).
  rewrite (Z.quot_div_nonneg yoe 4), (Z.quot_div_nonneg yoe 100) by lia.
  change (365 * yoe + yoe / 4 - yoe / 100) with (year_start yoe).
  replace (doe - year_start yoe) with doy by (unfold doe; lia).
  assert (0 <= (5 * doy + 2) / 153) by (apply Z.div_pos; lia).
  rewrite (Z.quot_div_nonneg (5 * doy + 2) 153), (Z.quot_div_nonneg _ 5) by lia. reflexivity.
Qed.

(** ** From one day to the next *)

(** March-based days, month by month: 366 cases. *)
Definition march_step (doy : Z) : bool :=
  let '(m, d) := month_day doy in
  let '(m', d') := month_day (doy + 1) in
  if m =? 2 then (d =? doy - 336) && ((365 <=? doy) || ((m' =? 2) && (d' =? d + 1)))
  else negb (m =? 2) && (1 <=? m) && (m <=? 12) &&
    (if d <? days_in_month 1 m then (m' =? m) && (d' =? d + 1)
     else (d' =? 1) && if m <? 12 then (m' =? m + 1) && Bool.eqb (m' <=? 2) (m <=? 2) else m' =? 1).

Lemma march_step_all doy : 0 <= doy < 366 → march_step doy = true.
Proof.
  intros H. assert (forallb (λ n, march_step (Z.of_nat n)) (seq 0 366) = true) as Hall by (vm_compute; reflexivity).
  rewrite forallb_forall in Hall. specialize (Hall (Z.to_nat doy)). rewrite Z2Nat.id in Hall by lia.
  apply Hall. apply in_seq. lia.
Qed.

Lemma leap_period y k : leap (y + k * 400) = leap y.
Proof.
  unfold leap. replace ((y + k * 400) mod 400) with (y mod 400) by (by rewrite Z_mod_plus_full).
  replace ((y + k * 400) mod 4) with (y mod 4) by (Z.to_euclidean_division_equations; lia).
  replace ((y + k * 400) mod 100) with (y mod 100) by (Z.to_euclidean_division_equations; lia). done.
Qed.

Lemma days_in_month_other y m : m ≠ 2 → days_in_month y m = days_in_month 1 m.
Proof. intros Hm. unfold days_in_month. by rewrite (proj2 (Z.eqb_neq m 2)). Qed.

Lemma march_next era yoe doy :
  0 <= yoe < 400 → 0 <= doy < year_length yoe →
  next_day (march_date era yoe doy) =
  if doy + 1 <? year_length yoe then march_date era yoe (doy + 1)
  else if yoe + 1 <? 400 then march_date era (yoe + 1) 0 else march_date (era + 1) 0 0.
Proof.
  intros Hyoe Hdoy. assert (year_length yoe = 365 ∨ year_length yoe = 366) as Hlen
    by (unfold year_length; case_match; auto).
  pose proof (march_step_all doy ltac:(lia)) as Hstep. unfold march_step in Hstep. unfold march_date.
  destruct (month_day doy) as [m d] eqn:Hmd. destruct (month_day (doy + 1)) as [m' d'] eqn:Hmd'.
  change (month_day 0) with (3, 1). cbn [next_day].
  destruct (Z.eqb_spec m 2) as [->|Hm].
  - apply andb_true_iff in Hstep as [Hd%Z.eqb_eq Hnext]. cbn [Z.leb Z.compare Pos.compare Pos.compare_cont].
    assert (days_in_month (yoe + era * 400 + 1) 2 = year_length yoe - 337) as ->.
    { unfold days_in_month, year_length. cbn [Z.eqb Pos.eqb].
      replace (yoe + era * 400 + 1) with (yoe + 1 + era * 400) by lia. rewrite leap_period. by case_match. }
    destruct (Z.ltb_spec d (year_length yoe - 337)), (Z.ltb_spec (doy + 1) (year_length yoe)); try lia.
    + apply orb_true_iff in Hnext as [?%Z.leb_le|[->%Z.eqb_eq ->%Z.eqb_eq]%andb_true_iff]; [lia|done].
    + cbn. destruct (Z.ltb_spec (yoe + 1) 400); [|replace yoe with 399 by lia]; f_equal; f_equal; lia.
  - rewrite !andb_true_iff in Hstep. destruct Hstep as [[[_ ?%Z.leb_le] ?%Z.leb_le] Hstep].
    rewrite days_in_month_other by done.
    assert (doy + 1 < year_length yoe) as Hsame.
    { destruct (decide (doy < 364)); [lia|]. exfalso. apply Hm.
      assert (doy = 364 ∨ doy = 365) as [-> | ->] by lia; vm_compute in Hmd; congruence. }
    rewrite (proj2 (Z.ltb_lt _ _) Hsame).
    destruct (d <? days_in_month 1 m).
    + apply andb_true_iff in Hstep as [->%Z.eqb_eq ->%Z.eqb_eq]. done.
    + apply andb_true_iff in Hstep as [->%Z.eqb_eq Hstep]. destruct (m <? 12) eqn:Hlt.
      * apply andb_true_iff in Hstep as [->%Z.eqb_eq ->%eqb_prop]. done.
      * apply Z.eqb_eq in Hstep as ->. apply Z.ltb_ge in Hlt. replace m with 12 by lia. cbn.
        f_equal. f_equal. lia.
Qed.

(** Every day is in one year of one era. *)
Lemma march_cover n : ∃ era yoe doy,
  0 <= yoe < 400 ∧ 0 <= doy < year_length yoe ∧ n = era * 146097 + year_start yoe + doy - 719468.
Proof.
  pose proof (Z.div_mod (n + 719468) 146097 ltac:(lia)) as Hn.
  pose proof (Z.mod_pos_bound (n + 719468) 146097 ltac:(lia)) as Hdoe. revert Hn Hdoe.
  generalize ((n + 719468) mod 146097) as doe, ((n + 719468) / 146097) as era. intros doe era Hn Hdoe.
  destruct (yoe_spec doe Hdoe) as [Hyoe Hin]. revert Hyoe Hin.
  generalize ((doe - doe / 1460 + doe / 36524 - doe / 146096) / 365) as yoe. intros yoe Hyoe Hin.
  exists era, yoe, (doe - year_start yoe). split; [exact Hyoe|]. lia.
Qed.

(** The date computed from a day count is the Gregorian calendar's: the epoch is the first of January
    1970 and each following day is the next day of the calendar, for every day before or after the epoch. *)
Theorem civil_from_days_calendar n :
  civil_from_days 0 = (1970, 1, 1) ∧ civil_from_days (n + 1) = next_day (civil_from_days n).
Proof.
  split; [vm_compute; reflexivity|].
  destruct (march_cover n) as (era & yoe & doy & Hyoe & Hdoy & ->).
  rewrite civil_march, march_next by done. destruct (Z.ltb_spec (doy + 1) (year_length yoe)) as [Hlt|Hge].
  - rewrite <- civil_march by lia. f_equal. lia.
  - pose proof (year_length_steps yoe Hyoe) as Hlen.
    destruct (Z.ltb_spec (yoe + 1) 400) as [Hlt|Hlast].
    + rewrite (proj2 (Z.eqb_neq yoe 399)) in Hlen by lia. rewrite <- civil_march; [|lia|].
      * f_equal. lia.
      * unfold year_length. case_match; lia.
    + rewrite (proj2 (Z.eqb_eq yoe 399)) in Hlen by lia. assert (yoe = 399) as -> by lia.
      rewrite <- civil_march; [|lia|vm_compute; auto]. f_equal. cbn in *.
      change (year_start 0) with 0. change (year_start (399 + 1)) with 146096 in Hlen. lia.
Qed.
