(* ===== verification/SigV4.v ===== *)
(** * Signed requests: the AWS signature of [engine/src/dispatchers/llm.rs]
    and the transport request of [bundled.rs]

    HMAC-SHA-256 is built from the digest the engine is given; the request
    is put in canonical form, signed, and sent with the signature. *)

From S2P Require Import Prelude OrdMap RustStd Json Errors AgentHooks Concrete Hex StdPath Manifest Http Calendar.

(** ** [TransportRequest] and [TransportResponse] *)

Record TransportRequest := mkTransport {
  tr_method : string;
  tr_url : string;
  tr_headers : btree string string;
  tr_body : JsonValue;
  tr_timeout_ms : N }.

Definition transport_post (url : string) : TransportRequest := mkTransport "POST" url [] JNull 10000.
Definition header (name value : string) (r : TransportRequest) : TransportRequest :=
  mkTransport (tr_method r) (tr_url r) (bt_insert name value (tr_headers r)) (tr_body r) (tr_timeout_ms r).
Definition json (body : JsonValue) (r : TransportRequest) : TransportRequest :=
  mkTransport (tr_method r) (tr_url r) (tr_headers r) body (tr_timeout_ms r).
Definition set_timeout_ms (timeout : N) (r : TransportRequest) : TransportRequest :=
  mkTransport (tr_method r) (tr_url r) (tr_headers r) (tr_body r) timeout.

Record TransportResponse := mkTransportResponse { tp_status : N; tp_body : string }.

(** [http::send_transport_request], through [UreqHttpTransport]. *)
Definition send_transport_request {W} `{DispatchHost W} (request : TransportRequest)
  : sending W string TransportResponse :=
  if negb (bool_decide (tr_method request = "POST")) then
    pure (Err ("unsupported HTTP method '" +:+ tr_method request +:+ "'"))
  else
    response ← sending_err (λ error, "HTTP request failed: " +:+ ue_text error)
      (post (http_agent_post (tr_timeout_ms request) (tr_url request) (tr_headers request) (tr_body request)));
    body ← pure (read_response_body response);
    mret (mkTransportResponse (rs_status response) body).

(** ** HMAC *)

Definition BLOCK_SIZE : nat := 64.
Notation bytes := (list Ascii.ascii).
Definition bytes_of : string → bytes := String.list_ascii_of_string.

Definition xor_byte (a b : Ascii.ascii) : Ascii.ascii :=
  byte_of (N.lxor (Ascii.N_of_ascii a) (Ascii.N_of_ascii b)).

Definition zero_pad (l : bytes) : bytes := l ++ replicate (BLOCK_SIZE - length l) (byte_of 0).

Section sign.
Context `{Sha2}.

Definition key_block (key : bytes) : bytes :=
  if (BLOCK_SIZE <? length key)%nat then zero_pad (sha256 key) else zero_pad key.

Definition hmac_sha256 (key message : bytes) : bytes :=
  let outer := zip_with xor_byte (replicate BLOCK_SIZE (byte_of 92)) (key_block key) in
  let inner := zip_with xor_byte (replicate BLOCK_SIZE (byte_of 54)) (key_block key) in
  sha256 (outer ++ sha256 (inner ++ message)).

Definition hex_sha256 (b : bytes) : string := lower (sha256 b).

Definition aws_signing_key (secret_key date region service : string) : bytes :=
  let k_date := hmac_sha256 (bytes_of ("AWS4" +:+ secret_key)) (bytes_of date) in
  let k_region := hmac_sha256 k_date (bytes_of region) in
  let k_service := hmac_sha256 k_region (bytes_of service) in
  hmac_sha256 k_service (bytes_of "aws4_request").

(** ** Canonical form *)

(** [str::split_whitespace], with the word read so far. *)
Fixpoint split_whitespace_fuel (fuel : nat) (word s : string) : list string :=
  let flush := if str_is_empty word then [] else [word] in
  match fuel with
  | O => flush
  | S fuel =>
      match strip_white s with
      | Some rest => flush ++ split_whitespace_fuel fuel "" rest
      | None =>
          match s with
          | EmptyString => flush
          | String c s => split_whitespace_fuel fuel (word +:+ String c "") s
          end
      end
  end.
(** Each step reads at least one byte and the last one the end. *)
Definition split_whitespace (s : string) : list string :=
  split_whitespace_fuel (S (String.length s)) "" s.

Definition normalize_sigv4_header_value (value : string) : string := join " " (split_whitespace value).

(** [entry(lower).and_modify(push).or_insert(value)]. *)
Definition canonical_entry (normalized : btree string string) (e : string * string)
  : btree string string :=
  let name := ascii_lowercase e.1 in
  let value := normalize_sigv4_header_value e.2 in
  bt_insert name
    match bt_get name normalized with Some existing => existing +:+ "," +:+ value | None => value end
    normalized.

Definition canonical_headers_map (headers : btree string string) : btree string string :=
  fold_left canonical_entry headers [].

Definition newline : string := String (byte_of 10) "".

Definition header_line (e : string * string) : string := e.1 +:+ ":" +:+ e.2 +:+ newline.

Definition canonical_sigv4_headers (headers : btree string string) : string * string :=
  let normalized := canonical_headers_map headers in
  (foldr (λ e text, header_line e +:+ text) "" normalized, join ";" (bt_keys normalized)).

(** [str::split_once] of a character. *)
Fixpoint split_once_char (c : Ascii.ascii) (s : string) : option (string * string) :=
  match s with
  | EmptyString => None
  | String c' s =>
      if decide (c' = c) then Some ("", s)
      else (λ p : string * string, (String c' p.1, p.2)) <$> split_once_char c s
  end.

Definition parse_url_for_signing (url : string) : option (string * string * string) :=
  rest ← match strip_prefix "https://" url with
         | Some rest => Some rest | None => strip_prefix "http://" url end;
  let '(host, path_and_query) :=
    match split_once_char (byte_of 47) rest with
    | Some (host, path) => (host, "/" +:+ path)
    | None => (rest, "/")
    end in
  let '(path, query) := default (path_and_query, "") (split_once_char (byte_of 63) path_and_query) in
  Some (host, path, query).

Definition is_unreserved (c : Ascii.ascii) : bool :=
  in_range 65 90 c || in_range 97 122 c || in_range 48 57 c ||
  bool_decide (c ∈ [byte_of 45; byte_of 95; byte_of 46; byte_of 126]).

Definition upper_hex_digit (n : N) : Ascii.ascii :=
  default (byte_of 0) (String.get (N.to_nat n) "0123456789ABCDEF").

Fixpoint percent_encode_path_segment (value : string) : string :=
  match value with
  | EmptyString => ""
  | String c value =>
      if is_unreserved c then String c (percent_encode_path_segment value)
      else String (byte_of 37) (String (upper_hex_digit (N.shiftr (Ascii.N_of_ascii c) 4))
        (String (upper_hex_digit (N.land (Ascii.N_of_ascii c) 15)) (percent_encode_path_segment value)))
  end.

(** ** Signing *)

Record BedrockSigning := mkSigning {
  sg_region : string;
  sg_access_key : string;
  sg_secret_key : string;
  sg_session_token : option string;
  sg_amz_date_override : option string;
  sg_date_override : option string }.

Context {W : Type} `{DispatchHost W} `{SerdeJson}.

Definition signing_dates (annotator_name : string) (signing : BedrockSigning) (clock : result string N)
  : result RuntimeError (string * string) :=
  match sg_amz_date_override signing, sg_date_override signing with
  | Some amz_date, Some date => Ok (amz_date, date)
  | _, _ => map_err (failed annotator_name) (aws_dates clock)
  end.

(** The headers that are signed. *)
Definition headers_to_sign (host amz_date payload_hash : string) (session_token : option string)
  (headers : btree string string) : btree string string :=
  let headers := bt_insert "host" host headers in
  let headers := bt_insert "x-amz-date" amz_date headers in
  let headers :=
    match session_token with
    | Some token => bt_insert "x-amz-security-token" token headers | None => headers end in
  bt_insert "x-amz-content-sha256" payload_hash headers.

Definition authorization_value (signing : BedrockSigning) (amz_date date_stamp canonical_uri
  canonical_query payload_hash : string) (headers : btree string string) : string :=
  let '(canonical_headers, signed_headers) := canonical_sigv4_headers headers in
  let canonical_request :=
    "POST" +:+ newline +:+ canonical_uri +:+ newline +:+ canonical_query +:+ newline +:+
    canonical_headers +:+ newline +:+ signed_headers +:+ newline +:+ payload_hash in
  let credential_scope := date_stamp +:+ "/" +:+ sg_region signing +:+ "/bedrock/aws4_request" in
  let string_to_sign :=
    "AWS4-HMAC-SHA256" +:+ newline +:+ amz_date +:+ newline +:+ credential_scope +:+ newline +:+
    hex_sha256 (bytes_of canonical_request) in
  let signing_key := aws_signing_key (sg_secret_key signing) date_stamp (sg_region signing) "bedrock" in
  let signature := lower (hmac_sha256 signing_key (bytes_of string_to_sign)) in
  "AWS4-HMAC-SHA256 Credential=" +:+ sg_access_key signing +:+ "/" +:+ credential_scope +:+
  ", SignedHeaders=" +:+ signed_headers +:+ ", Signature=" +:+ signature.

Definition with_headers (r : TransportRequest) (headers : btree string string) : TransportRequest :=
  mkTransport (tr_method r) (tr_url r) headers (tr_body r) (tr_timeout_ms r).

(** [sign_bedrock_request], with the clock read if a date is missing. *)
Definition sign_bedrock_request (annotator_name : string) (clock : result string N)
  (request : TransportRequest) (signing : BedrockSigning) : result RuntimeError TransportRequest :=
  dates ← signing_dates annotator_name signing clock;
  url ← ok_or (parse_url_for_signing (tr_url request))
    (failed annotator_name "bedrock endpoint must be an absolute HTTP URL");
  let '(host, canonical_uri, canonical_query) := url in
  body ← map_err (λ error, failed annotator_name ("failed to serialize bedrock request: " +:+ error))
    (to_string (tr_body request));
  let payload_hash := hex_sha256 (bytes_of body) in
  let headers := headers_to_sign host dates.1 payload_hash (sg_session_token signing) (tr_headers request) in
  Ok (with_headers request (bt_insert HEADER_AUTHORIZATION
    (authorization_value signing dates.1 dates.2 canonical_uri canonical_query payload_hash headers) headers)).
End sign.

(** ** The canonical form that is signed

    Every header that is sent, the signature itself apart, is among the
    signed ones; the canonical list joins the values of a name in order;
    percent encoding loses nothing. *)

(** ** Canonical headers *)

Lemma join_snoc sep l x : l ≠ [] → join sep (l ++ [x]) = join sep l +:+ sep +:+ x.
Proof.
  induction l as [|y l IH]; [done|]. intros _. destruct l as [|z l]; [done|].
  change (join sep ((y :: z :: l) ++ [x])) with (y +:+ sep +:+ join sep ((z :: l) ++ [x])).
  rewrite IH by done. change (join sep (y :: z :: l)) with (y +:+ sep +:+ join sep (z :: l)).
  by rewrite !app_str_assoc.
Qed.

(** The normalized values of the headers named [name], whatever the case. *)
Definition header_values (name : string) (headers : list (string * string)) : list string :=
  omap (λ e, if decide (ascii_lowercase e.1 = name) then Some (normalize_sigv4_header_value e.2) else None) headers.

Definition joined (values : list string) : option string :=
  match values with [] => None | values => Some (join "," values) end.

Lemma joined_snoc l x :
  joined (l ++ [x]) = Some match joined l with Some existing => existing +:+ "," +:+ x | None => x end.
Proof.
  destruct l as [|y l]; [done|]. change (joined ((y :: l) ++ [x])) with (Some (join "," ((y :: l) ++ [x]))).
  by rewrite join_snoc.
Qed.

Lemma canonical_lookup name headers :
  bt_get name (canonical_headers_map headers) = joined (header_values name headers).
Proof.
  unfold canonical_headers_map. induction headers as [|e headers IH] using rev_ind; [done|].
  rewrite fold_left_app. cbn [fold_left]. unfold header_values. rewrite omap_app. cbn [omap list_omap].
  fold (header_values name headers). unfold canonical_entry at 1. rewrite bt_get_insert.
  destruct (decide (ascii_lowercase e.1 = name)) as [->|Hne].
  - by rewrite decide_True, IH, joined_snoc.
  - rewrite decide_False by congruence. rewrite IH. by rewrite app_nil_r.
Qed.

Lemma canonical_wf headers : bt_wf (canonical_headers_map headers).
Proof.
  unfold canonical_headers_map. induction headers as [|e headers IH] using rev_ind; [apply bt_wf_nil|].
  rewrite fold_left_app. cbn [fold_left]. by apply bt_insert_wf.
Qed.

Lemma header_signed n v (headers : btree string string) :
  (n, v) ∈ headers →
  ascii_lowercase n ∈ bt_keys (canonical_headers_map headers) ∧
  normalize_sigv4_header_value v ∈ header_values (ascii_lowercase n) headers.
Proof.
  intros Hin. assert (normalize_sigv4_header_value v ∈ header_values (ascii_lowercase n) headers) as Hv.
  { unfold header_values. apply list_elem_of_omap. exists (n, v). cbn. by rewrite decide_True. }
  split; [|done]. apply bt_contains_keys, bt_contains_get. rewrite canonical_lookup.
  destruct (header_values _ _); [by apply elem_of_nil in Hv|]. by eexists.
Qed.

(** ** Percent encoding *)

Fixpoint percent_decode (fuel : nat) (s : string) : option string :=
  match fuel, s with
  | _, EmptyString => Some ""
  | S fuel, String c s =>
      if decide (c = byte_of 37) then
        match s with
        | String hi (String lo s) => byte ← u8_from_hex hi lo; rest ← percent_decode fuel s; Some (String byte rest)
        | _ => None
        end
      else rest ← percent_decode fuel s; Some (String c rest)
  | O, _ => None
  end.

Definition percent_byte_ok (n : N) : bool :=
  let c := byte_of n in
  if is_unreserved c then negb (bool_decide (c = byte_of 37))
  else bool_decide (u8_from_hex (upper_hex_digit (N.shiftr n 4)) (upper_hex_digit (N.land n 15)) = Some c) &&
    is_unreserved (upper_hex_digit (N.shiftr n 4)) && is_unreserved (upper_hex_digit (N.land n 15)).

Lemma percent_bytes c : percent_byte_ok (Ascii.N_of_ascii c) = true.
Proof. apply byte_cases. vm_compute. reflexivity. Qed.

Lemma percent_byte c :
  if is_unreserved c then c ≠ byte_of 37
  else u8_from_hex (upper_hex_digit (N.shiftr (Ascii.N_of_ascii c) 4))
      (upper_hex_digit (N.land (Ascii.N_of_ascii c) 15)) = Some c ∧
    is_unreserved (upper_hex_digit (N.shiftr (Ascii.N_of_ascii c) 4)) = true ∧
    is_unreserved (upper_hex_digit (N.land (Ascii.N_of_ascii c) 15)) = true.
Proof.
  pose proof (percent_bytes c) as Hc. unfold percent_byte_ok in Hc.
  unfold byte_of in Hc. rewrite Ascii.ascii_N_embedding in Hc. destruct (is_unreserved c).
  - by apply negb_true_iff, bool_decide_eq_false in Hc.
  - rewrite !andb_true_iff, bool_decide_eq_true in Hc. naive_solver.
Qed.

Lemma percent_decode_encode value fuel :
  (String.length (percent_encode_path_segment value) ≤ fuel)%nat →
  percent_decode fuel (percent_encode_path_segment value) = Some value.
Proof.
  revert fuel. induction value as [|c value IH]; intros fuel Hfuel; [by destruct fuel|].
  pose proof (percent_byte c) as Hc. cbn [percent_encode_path_segment] in *.
  destruct (is_unreserved c); cbn in Hfuel; destruct fuel as [|fuel]; try lia; cbn [percent_decode].
  - rewrite decide_False by done. rewrite IH by lia. done.
  - rewrite decide_True by done. destruct Hc as [-> _]. cbn [mbind option_bind]. rewrite IH by lia. done.
Qed.

Lemma percent_encode_bytes value :
  all_bytes (λ c, is_unreserved c || bool_decide (c = byte_of 37)) (percent_encode_path_segment value) = true.
Proof.
  induction value as [|c value IH]; [done|]. pose proof (percent_byte c) as Hc.
  cbn [percent_encode_path_segment]. destruct (is_unreserved c) eqn:Hu; cbn [all_bytes]; [by rewrite Hu|].
  destruct Hc as (_ & -> & ->). done.
Qed.

(** A percent-encoded path segment decodes to the text it was made from, and holds nothing but
    unreserved characters and percent signs, so it cannot leave its segment of the URL. *)
Theorem percent_round_trip value :
  percent_decode (String.length (percent_encode_path_segment value)) (percent_encode_path_segment value) =
    Some value ∧
  all_bytes (λ c, is_unreserved c || bool_decide (c = byte_of 37)) (percent_encode_path_segment value) = true.
Proof. split; [by apply percent_decode_encode|apply percent_encode_bytes]. Qed.

(** ** What is signed *)

Section signing.
Context `{Sha2} `{SerdeJson}.

(** A signed request keeps its method, URL, body and timeout, carries the digest of the body that is
    sent, and every header that is sent, the signature apart, is among the signed ones with its value; the
    signed names ascend and each has the values of its headers in order. *)
Theorem signature_covers_headers name clock request signing signed :
  sign_bedrock_request name clock request signing = Ok signed →
  tr_method signed = tr_method request ∧ tr_url signed = tr_url request ∧
  tr_body signed = tr_body request ∧ tr_timeout_ms signed = tr_timeout_ms request ∧
  ∃ body uri query dates headers,
    to_string (tr_body signed) = Ok body ∧
    bt_get "x-amz-content-sha256" headers = Some (hex_sha256 (bytes_of body)) ∧
    bt_get HEADER_AUTHORIZATION (tr_headers signed) = Some (authorization_value signing dates.1 dates.2 uri query
      (hex_sha256 (bytes_of body)) headers) ∧
    (∀ n v, (n, v) ∈ tr_headers signed → n ≠ HEADER_AUTHORIZATION →
      ascii_lowercase n ∈ bt_keys (canonical_headers_map headers) ∧
      normalize_sigv4_header_value v ∈ header_values (ascii_lowercase n) headers) ∧
    bt_wf (canonical_headers_map headers) ∧
    (∀ n, bt_get n (canonical_headers_map headers) = joined (header_values n headers)).
Proof.
  unfold sign_bedrock_request. intros (dates & _ & Hrest)%bind_Ok.
  apply bind_Ok in Hrest as ([[host uri] query] & _ & Hrest).
  apply bind_Ok in Hrest as (body & Hbody%map_err_Ok & [= <-]). cbn. split_and!; try done.
  eexists body, uri, query, dates, _. split_and!; try done.
  - unfold headers_to_sign. cbn zeta. by rewrite bt_get_insert_eq.
  - by rewrite bt_get_insert_eq.
  - intros n v Hin Hne. apply header_signed.
    by apply elem_of_bt_insert_inv in Hin as [[= -> ->]|Hin].
  - apply canonical_wf.
  - intros n. apply canonical_lookup.
Qed.

(** An [Authorization] header of the configuration is signed and then
    replaced by the signature: what is sent is not what was signed. *)
Lemma stale_authorization_signed host amz_date payload_hash token headers v :
  bt_get HEADER_AUTHORIZATION headers = Some v →
  "authorization" ∈ bt_keys (canonical_headers_map (headers_to_sign host amz_date payload_hash token headers)) ∧
  normalize_sigv4_header_value v ∈
    header_values "authorization" (headers_to_sign host amz_date payload_hash token headers).
Proof.
  intros Hv. apply (header_signed HEADER_AUTHORIZATION v). apply bt_get_Some_elem.
  unfold headers_to_sign. cbn zeta. destruct token; by rewrite !bt_get_insert_ne.
Qed.
End signing.

Section witnesses.
#[local] Existing Instance Concrete.demo_serde.
#[local] Existing Instance Concrete.demo_sha.

Definition demo_signing : BedrockSigning := mkSigning "eu-west-1" "AKID" "secret" None None None.
Definition demo_unsigned : TransportRequest :=
  header "X-Team" "blue  team" (transport_post "https://bedrock-runtime.eu-west-1.amazonaws.com/model/m/converse").

Example demo_signs : is_ok (sign_bedrock_request "judge" (Ok 0%N) demo_unsigned demo_signing) = true.
Proof. vm_compute. reflexivity. Qed.

Lemma signature_covers_headers_witness :
  ∃ signed, sign_bedrock_request "judge" (Ok 0%N) demo_unsigned demo_signing = Ok signed ∧
    tr_url signed = tr_url demo_unsigned.
Proof.
  destruct (sign_bedrock_request "judge" (Ok 0%N) demo_unsigned demo_signing) as [signed|] eqn:Hsigned;
    [|pose proof demo_signs as Hok; by rewrite Hsigned in Hok].
  exists signed. split; [done|].
  exact (proj1 (proj2 (signature_covers_headers _ _ _ _ _ Hsigned))).
Defined.
End witnesses.
