(* ===== verification/Llm.v ===== *)
(** * The LLM annotator: [engine/src/dispatchers/llm.rs]

    Its configuration with every credential the fields or the environment
    give, one request per provider, and the annotation read from the
    answer. *)

From S2P Require Import Prelude OrdMap RustStd Json Errors AgentHooks Constants Paths Hex.
From S2P Require Import Limits Pins StdPath Policy Manifest Loader Http Calendar SigV4.

Definition FIELD_BASE_URL : string := "base_url".
Definition FIELD_MODEL : string := "model".
Definition FIELD_PROMPT : string := "prompt".
Definition FIELD_SYSTEM_PROMPT : string := "system_prompt".
Definition FIELD_LABEL_FIELD : string := "label_field".
Definition FIELD_PROVIDER : string := "provider".
Definition FIELD_DEPLOYMENT : string := "deployment".
Definition FIELD_API_VERSION : string := "api_version".
Definition FIELD_AWS_REGION : string := "aws_region".
Definition FIELD_AWS_AMZ_DATE : string := "aws_amz_date".
Definition FIELD_AWS_DATE : string := "aws_date".
Definition DEFAULT_OPENAI_CHAT_COMPLETIONS_URL : string := "https://api.openai.com/v1/chat/completions".
Definition DEFAULT_OPENAI_API_KEY_ENV : string := "OPENAI_API_KEY".
Definition DEFAULT_AZURE_OPENAI_API_KEY_ENV : string := "AZURE_OPENAI_API_KEY".
Definition DEFAULT_GEMINI_API_KEY_ENV : string := "GEMINI_API_KEY".
Definition DEFAULT_OLLAMA_CHAT_URL : string := "http://localhost:11434/api/chat".
Definition DEFAULT_AWS_ACCESS_KEY_ID_ENV : string := "AWS_ACCESS_KEY_ID".
Definition DEFAULT_AWS_SECRET_ACCESS_KEY_ENV : string := "AWS_SECRET_ACCESS_KEY".
Definition DEFAULT_AWS_SESSION_TOKEN_ENV : string := "AWS_SESSION_TOKEN".
Definition DEFAULT_LABEL_FIELD : string := "label".
Definition DEFAULT_MODEL : string := "gpt-4o-mini".
Definition DEFAULT_SYSTEM_PROMPT : string :=
  "Classify the input and respond with a JSON object containing a label field.".
Definition HEADER_API_KEY : string := "api-key".

Inductive LlmProvider := OpenAi | OpenAiCompatible | AzureOpenAi | Bedrock | Gemini | Ollama.

#[export] Instance LlmProvider_eq_dec : EqDecision LlmProvider.
Proof. solve_decision. Defined.

Definition provider_parse (value : option string) : result string LlmProvider :=
  let name := ascii_lowercase (default "openai" value) in
  if bool_decide (name = "openai") then Ok OpenAi
  else if bool_decide (name ∈ ["openai_compatible"; "openai-compatible"; "compatible"]) then Ok OpenAiCompatible
  else if bool_decide (name ∈ ["azure_openai"; "azure-openai"]) then Ok AzureOpenAi
  else if bool_decide (name ∈ ["bedrock"; "aws_bedrock"; "aws-bedrock"]) then Ok Bedrock
  else if bool_decide (name ∈ ["gemini"; "google_gemini"; "google-gemini"]) then Ok Gemini
  else if bool_decide (name = "ollama") then Ok Ollama
  else Err ("unsupported LLM provider '" +:+ name +:+ "'").

Record LlmConfig := mkLlmConfig {
  lc_provider : LlmProvider;
  lc_endpoint : option string;
  lc_base_url : option string;
  lc_model : string;
  lc_deployment : option string;
  lc_api_version : option string;
  lc_api_key : option string;
  lc_api_key_env : option string;
  lc_api_key_header : option string;
  lc_timeout_ms : N;
  lc_prompt : string;
  lc_label_field : string;
  lc_headers : btree string string;
  lc_provider_config : JsonValue;
  lc_aws_region : option string;
  lc_aws_access_key_id : option string;
  lc_aws_access_key_id_env : option string;
  lc_aws_secret_access_key : option string;
  lc_aws_secret_access_key_env : option string;
  lc_aws_session_token : option string;
  lc_aws_session_token_env : option string;
  lc_aws_amz_date : option string;
  lc_aws_date : option string;
  lc_url_sourced : bool }.

Definition default_model (provider : LlmProvider) : string :=
  match provider with Gemini => "gemini-1.5-flash" | Ollama => "llama3.1" | _ => DEFAULT_MODEL end.

(** [optional_string_map]: the entries in key order. *)
Definition optional_string_map (annotator_name : string) (fields : fields_map) (name : string)
  : result RuntimeError (btree string string) :=
  match bt_get name fields with
  | None => Ok []
  | Some value =>
      object ← ok_or (as_object value)
        (failed annotator_name ("field '" +:+ name +:+ "' must be an object"));
      entries ← map_result (λ e : string * JsonValue,
        text ← ok_or (as_str e.2) (failed annotator_name
          ("field '" +:+ name +:+ "." +:+ e.1 +:+ "' must be a string"));
        Ok (e.1, text)) object;
      Ok (bt_of_list entries)
  end.

Definition require_non_empty (annotator_name field value : string) : result RuntimeError string :=
  if str_is_empty value then Err (failed annotator_name ("missing required field '" +:+ field +:+ "'"))
  else Ok value.

(** [body[key] = value] for every member of the provider's configuration. *)
Definition merge_provider_config (body provider_config : JsonValue) : JsonValue :=
  match provider_config, body with
  | JObject extra, JObject members => JObject (bt_extend members extra)
  | _, _ => body
  end.

(** [trim_end_matches('/')]. *)
Fixpoint trim_end_slashes (s : string) : string :=
  match s with
  | EmptyString => ""
  | String c rest =>
      let rest := trim_end_slashes rest in
      if decide (rest = "" ∧ c = byte_of 47) then "" else String c rest
  end.

Definition auth_value (cfg : LlmConfig) (api_key : string) : string :=
  match lc_api_key_header cfg with Some _ => api_key | None => AUTH_BEARER_PREFIX +:+ api_key end.

Definition base_request (cfg : LlmConfig) (url : string) : TransportRequest :=
  fold_left (λ request e, header e.1 e.2 request) (lc_headers cfg)
    (set_timeout_ms (lc_timeout_ms cfg) (header HEADER_ACCEPT CONTENT_TYPE_JSON
      (header HEADER_CONTENT_TYPE CONTENT_TYPE_JSON (transport_post url)))).

(** Bodies. *)
Definition chat_message (role content : string) : JsonValue :=
  JObject [("content", JString content); ("role", JString role)].
Definition chat_messages (cfg : LlmConfig) (policy_target : string) : JsonValue :=
  JArray [chat_message "system" (lc_prompt cfg); chat_message "user" policy_target].
Definition json_object_format : JsonValue := JObject [("type", JString "json_object")].
Definition text_part (text : string) : JsonValue := JObject [("text", JString text)].

(** ** Credentials *)

Section llm.
Context {W : Type} `{DispatchHost W}.
Notation sending := (sending W RuntimeError).

Definition host_env (annotator_name : string) (url_sourced : bool) (env_name : string)
  : sending (option string) := sending_err (failed annotator_name) (host_env_read url_sourced env_name).

Definition secret_field_or_env (annotator_name : string) (direct env_name : option string)
  (default_env : string) (url_sourced : bool) : sending string :=
  match direct with
  | Some value => mret value
  | None =>
      let env_name := default default_env env_name in
      found ← host_env annotator_name url_sourced env_name;
      pure (ok_or found (failed annotator_name
        ("credential environment variable '" +:+ env_name +:+ "' is not set")))
  end.

Definition secret_from_field_or_env (cfg : LlmConfig) (annotator_name : string)
  (default_env : option string) : sending (option string) :=
  match lc_api_key cfg with
  | Some value => mret (Some value)
  | None =>
      match (match lc_api_key_env cfg with Some name => Some name | None => default_env end) with
      | None => mret None
      | Some env_name =>
          found ← host_env annotator_name (lc_url_sourced cfg) env_name;
          key ← pure (ok_or found (failed annotator_name
            ("API key environment variable '" +:+ env_name +:+ "' is not set")));
          mret (Some key)
      end
  end.

(** The closure [reject_api_key_env]. *)
Definition reject_api_key_env (annotator_name : string) (fields : fields_map) (url_sourced : bool)
  (default_env : option string) : sending () :=
  match optional_string_field fields FIELD_API_KEY with
  | Some _ => mret ()
  | None =>
      match (match optional_string_field fields FIELD_API_KEY_ENV with
             | Some name => Some name | None => default_env end) with
      | Some env_name => host_env annotator_name url_sourced env_name ;; mret ()
      | None => mret ()
      end
  end.

Definition reject_pre_fetch_host_env_access (annotator_name : string) (provider : LlmProvider)
  (fields : fields_map) (url_sourced : bool) : sending () :=
  if negb url_sourced then mret ()
  else
    let reject := reject_api_key_env annotator_name fields url_sourced in
    match provider with
    | OpenAi => reject (Some DEFAULT_OPENAI_API_KEY_ENV)
    | OpenAiCompatible => reject None
    | AzureOpenAi => reject (Some DEFAULT_AZURE_OPENAI_API_KEY_ENV)
    | Gemini => reject (Some DEFAULT_GEMINI_API_KEY_ENV)
    | Ollama => mret ()
    | Bedrock =>
        match optional_string_field fields FIELD_AWS_REGION with
        | None => host_env annotator_name url_sourced "AWS_REGION" ;; mret ()
        | Some _ => mret ()
        end ;;
        secret_field_or_env annotator_name (optional_string_field fields FIELD_AWS_ACCESS_KEY_ID)
          (optional_string_field fields FIELD_AWS_ACCESS_KEY_ID_ENV) DEFAULT_AWS_ACCESS_KEY_ID_ENV url_sourced ;;
        secret_field_or_env annotator_name (optional_string_field fields FIELD_AWS_SECRET_ACCESS_KEY)
          (optional_string_field fields FIELD_AWS_SECRET_ACCESS_KEY_ENV) DEFAULT_AWS_SECRET_ACCESS_KEY_ENV
          url_sourced ;;
        mret ()
    end.

(** ** Configuration *)

Context `{AgentHooksLaws} `{UrlCrate} `{SerdeJson} `{SerdeValue} `{Sha2} `{HttpCrate}.
Context `{LoaderHost W}.

(** [manifest::fetch_pinned_https_text], with the GETs it made. *)
Definition fetch_prompt (source : PinnedHttpsSource) (limits : Limits) : sending string := λ s,
  let (l, r) := fetch_pinned_https_text source limits (mkLoad (sent_world s) [] (with_limits limits)) in
  (mkSent (load_world l) (sent_trace s ++
     omap (λ a, match a with ActGet agent url _ => Some (ActPromptGet agent url) | _ => None end) (load_trace l)), r).

Definition prompt_text (annotator_name : string) (fields : fields_map) (limits : Limits)
  : sending string :=
  source ← pure (map_err (λ err, failed annotator_name (detail err)) (system_prompt_source fields));
  match source with
  | Some source => sending_err (λ err, failed annotator_name (detail err)) (fetch_prompt source limits)
  | None =>
      mret match optional_string_field fields FIELD_SYSTEM_PROMPT with
           | Some prompt => prompt
           | None => default DEFAULT_SYSTEM_PROMPT (optional_string_field fields FIELD_PROMPT)
           end
  end.

(** [LlmConfig::from_fields]. *)
Definition llm_config_from_fields (annotator_name : string) (fields : fields_map) (url_sourced : bool)
  (limits : Limits) : sending LlmConfig :=
  let opt := optional_string_field fields in
  provider ← pure (map_err (failed annotator_name) (provider_parse (opt FIELD_PROVIDER)));
  reject_pre_fetch_host_env_access annotator_name provider fields url_sourced ;;
  prompt ← prompt_text annotator_name fields limits;
  timeout ← pure (timeout_ms annotator_name fields);
  headers ← pure (optional_string_map annotator_name fields FIELD_HEADERS);
  mret (mkLlmConfig provider (opt FIELD_ENDPOINT) (opt FIELD_BASE_URL)
    (default (default_model provider) (opt FIELD_MODEL)) (opt FIELD_DEPLOYMENT) (opt FIELD_API_VERSION)
    (opt FIELD_API_KEY) (opt FIELD_API_KEY_ENV) (opt FIELD_API_KEY_HEADER) timeout prompt
    (default DEFAULT_LABEL_FIELD (opt FIELD_LABEL_FIELD)) headers
    (default JNull (bt_get FIELD_PROVIDER_CONFIG fields)) (opt FIELD_AWS_REGION)
    (opt FIELD_AWS_ACCESS_KEY_ID) (opt FIELD_AWS_ACCESS_KEY_ID_ENV) (opt FIELD_AWS_SECRET_ACCESS_KEY)
    (opt FIELD_AWS_SECRET_ACCESS_KEY_ENV) (opt FIELD_AWS_SESSION_TOKEN) (opt FIELD_AWS_SESSION_TOKEN_ENV)
    (opt FIELD_AWS_AMZ_DATE) (opt FIELD_AWS_DATE) url_sourced).

(** ** Requests *)

Definition openai_request (annotator_name : string) (cfg : LlmConfig) (policy_target : string)
  (require_default_key : bool) : sending TransportRequest :=
  let url := default (default DEFAULT_OPENAI_CHAT_COMPLETIONS_URL (lc_base_url cfg)) (lc_endpoint cfg) in
  let body := merge_provider_config
    (JObject [("messages", chat_messages cfg policy_target); ("model", JString (lc_model cfg));
              ("response_format", json_object_format)]) (lc_provider_config cfg) in
  let request := json body (base_request cfg url) in
  api_key ← secret_from_field_or_env cfg annotator_name
    (if require_default_key then Some DEFAULT_OPENAI_API_KEY_ENV else None);
  mret match api_key with
       | Some api_key =>
           header (default HEADER_AUTHORIZATION (lc_api_key_header cfg)) (auth_value cfg api_key) request
       | None => request
       end.

Definition azure_url (annotator_name : string) (cfg : LlmConfig) : result RuntimeError string :=
  match lc_endpoint cfg with
  | Some endpoint =>
      if str_contains "/chat/completions" endpoint then Ok endpoint
      else
        deployment ← ok_or (lc_deployment cfg) (failed annotator_name
          "azure_openai requires 'deployment' when endpoint is not the full chat completions URL");
        api_version ← ok_or (lc_api_version cfg) (failed annotator_name
          "azure_openai requires 'api_version' when endpoint is not the full chat completions URL");
        Ok (trim_end_slashes endpoint +:+ "/openai/deployments/" +:+ deployment +:+
            "/chat/completions?api-version=" +:+ api_version)
  | None => ok_or (lc_base_url cfg) (failed annotator_name
      "azure_openai requires 'endpoint' or a full 'base_url'")
  end.

Definition azure_openai_request (annotator_name : string) (cfg : LlmConfig) (policy_target : string)
  : sending TransportRequest :=
  url ← pure (azure_url annotator_name cfg);
  found ← secret_from_field_or_env cfg annotator_name (Some DEFAULT_AZURE_OPENAI_API_KEY_ENV);
  api_key ← pure (ok_or found (failed annotator_name "azure_openai requires an API key"));
  let body := merge_provider_config
    (JObject [("messages", chat_messages cfg policy_target); ("response_format", json_object_format)])
    (lc_provider_config cfg) in
  mret (json body (header (default HEADER_API_KEY (lc_api_key_header cfg)) api_key (base_request cfg url))).

Definition gemini_request (annotator_name : string) (cfg : LlmConfig) (policy_target : string)
  : sending TransportRequest :=
  found ← secret_from_field_or_env cfg annotator_name (Some DEFAULT_GEMINI_API_KEY_ENV);
  api_key ← pure (ok_or found (failed annotator_name "gemini requires an API key"));
  let url := default ("https://generativelanguage.googleapis.com/v1beta/models/" +:+ lc_model cfg +:+
    ":generateContent") (lc_endpoint cfg) in
  let body := merge_provider_config
    (JObject [("contents", JArray [JObject [("parts", JArray [text_part policy_target]); ("role", JString "user")]]);
              ("generationConfig", JObject [("responseMimeType", JString "application/json")]);
              ("systemInstruction", JObject [("parts", JArray [text_part (lc_prompt cfg)])])])
    (lc_provider_config cfg) in
  mret (json body (header (default "x-goog-api-key" (lc_api_key_header cfg)) api_key (base_request cfg url))).

Definition ollama_request (cfg : LlmConfig) (policy_target : string) : sending TransportRequest :=
  let url :=
    match lc_endpoint cfg with
    | Some endpoint => endpoint
    | None => default DEFAULT_OLLAMA_CHAT_URL
        ((λ base, trim_end_slashes base +:+ "/api/chat") <$> lc_base_url cfg)
    end in
  let body := merge_provider_config
    (JObject [("format", JString "json"); ("messages", chat_messages cfg policy_target);
              ("model", JString (lc_model cfg)); ("stream", JBool false)]) (lc_provider_config cfg) in
  mret (json body (base_request cfg url)).

Definition bedrock_region (annotator_name : string) (cfg : LlmConfig) : sending string :=
  match lc_aws_region cfg with
  | Some region => mret region
  | None =>
      found ← host_env annotator_name (lc_url_sourced cfg) "AWS_REGION";
      match found with
      | Some region => mret region
      | None =>
          found ← host_env annotator_name (lc_url_sourced cfg) "AWS_DEFAULT_REGION";
          pure (ok_or found (failed annotator_name "bedrock requires 'aws_region' or AWS_REGION"))
      end
  end.

Definition bedrock_session_token (cfg : LlmConfig) : sending (option string) :=
  match lc_aws_session_token cfg with
  | Some token => mret (Some token)
  | None => host_env_read_optional (lc_url_sourced cfg)
      (default DEFAULT_AWS_SESSION_TOKEN_ENV (lc_aws_session_token_env cfg))
  end.

Definition read_clock : sending (result string N) := λ s, (s, Ok (unix_seconds (sent_world s))).

Definition bedrock_request (annotator_name : string) (cfg : LlmConfig) (policy_target : string)
  : sending TransportRequest :=
  region ← bedrock_region annotator_name cfg;
  access_key ← secret_field_or_env annotator_name (lc_aws_access_key_id cfg) (lc_aws_access_key_id_env cfg)
    DEFAULT_AWS_ACCESS_KEY_ID_ENV (lc_url_sourced cfg);
  secret_key ← secret_field_or_env annotator_name (lc_aws_secret_access_key cfg)
    (lc_aws_secret_access_key_env cfg) DEFAULT_AWS_SECRET_ACCESS_KEY_ENV (lc_url_sourced cfg);
  session_token ← bedrock_session_token cfg;
  model ← pure (require_non_empty annotator_name FIELD_MODEL (lc_model cfg));
  let url := default ("https://bedrock-runtime." +:+ region +:+ ".amazonaws.com/model/" +:+
    percent_encode_path_segment model +:+ "/converse") (lc_endpoint cfg) in
  let body := merge_provider_config
    (JObject [("messages", JArray [JObject [("content", JArray [text_part policy_target]); ("role", JString "user")]]);
              ("system", JArray [text_part (lc_prompt cfg)])]) (lc_provider_config cfg) in
  clock ← read_clock;
  pure (sign_bedrock_request annotator_name clock (json body (base_request cfg url))
    (mkSigning region access_key secret_key session_token (lc_aws_amz_date cfg) (lc_aws_date cfg))).

Definition request_for_provider (annotator_name : string) (cfg : LlmConfig) (policy_target : string)
  : sending TransportRequest :=
  match lc_provider cfg with
  | OpenAi => openai_request annotator_name cfg policy_target true
  | OpenAiCompatible => openai_request annotator_name cfg policy_target false
  | AzureOpenAi => azure_openai_request annotator_name cfg policy_target
  | Bedrock => bedrock_request annotator_name cfg policy_target
  | Gemini => gemini_request annotator_name cfg policy_target
  | Ollama => ollama_request cfg policy_target
  end.

(** ** Answers *)

Definition first_of (value : JsonValue) : option JsonValue := as_array value ≫= head.

Definition content_text (value : JsonValue) : option string :=
  match value with
  | JString text => Some text
  | JArray parts =>
      let out := fold_left (λ out part,
        match json_get "text" part ≫= as_str with Some text => out +:+ text | None => out end) parts "" in
      if str_is_empty out then None else Some out
  | _ => None
  end.

Definition extract_openai_content (response : JsonValue) : option string :=
  choices ← json_get "choices" response; first ← first_of choices;
  message ← json_get "message" first; content ← json_get "content" message; content_text content.

Definition extract_gemini_content (response : JsonValue) : option string :=
  candidates ← json_get "candidates" response; first ← first_of candidates;
  content ← json_get "content" first; parts ← json_get "parts" content; content_text parts.

Definition extract_ollama_content (response : JsonValue) : option string :=
  match message ← json_get "message" response; content ← json_get "content" message; content_text content with
  | Some text => Some text
  | None => json_get "response" response ≫= as_str
  end.

Definition extract_bedrock_content (response : JsonValue) : option string :=
  output ← json_get "output" response; message ← json_get "message" output;
  content ← json_get "content" message; content_text content.

Definition annotation_from_json_text (annotator_name label_field raw : string)
  : result RuntimeError JsonValue :=
  parsed ← map_err (λ error, failed annotator_name ("model content was not valid JSON: " +:+ error))
    (value_from_str raw);
  label ← ok_or (json_get label_field parsed ≫= as_str)
    (failed annotator_name ("model JSON missing string field '" +:+ label_field +:+ "'"));
  Ok (JObject [("label", JString label); ("raw", JString raw)]).

Definition annotation_from_provider_response (annotator_name : string) (cfg : LlmConfig)
  (response : JsonValue) : result RuntimeError JsonValue :=
  raw ← ok_or
    match lc_provider cfg with
    | OpenAi | OpenAiCompatible | AzureOpenAi => extract_openai_content response
    | Gemini => extract_gemini_content response
    | Ollama => extract_ollama_content response
    | Bedrock => extract_bedrock_content response
    end (failed annotator_name "LLM response missing text content");
  annotation_from_json_text annotator_name (lc_label_field cfg) raw.

(** [TransportResponseExt::ensure_success]. *)
Definition ensure_success (annotator_name : string) (response : TransportResponse) : result RuntimeError () :=
  if success_status (tp_status response) then Ok ()
  else Err (failed annotator_name (describe_http_failure (tp_status response) (tp_body response))).

(** [dispatch_with_transport]; [transport] is the transport's [send]. *)
Definition llm_dispatch_with_transport
  (transport : TransportRequest → Http.sending W string TransportResponse)
  (annotator_name : string) (annotator : AnnotatorInvocation) (preliminary_policy_input : JsonValue)
  (limits : Limits) : sending JsonValue :=
  if negb (is_type annotator TYPE_LLM) then
    pure (Err (failed annotator_name "LLM dispatcher received a non-LLM annotator"))
  else
    cfg ← llm_config_from_fields annotator_name (invocation_fields annotator)
      (invocation_url_sourced annotator) limits;
    policy_target ← pure (policy_target_text annotator_name annotator preliminary_policy_input);
    request ← request_for_provider annotator_name cfg policy_target;
    response ← sending_err (failed annotator_name) (transport request);
    pure (ensure_success annotator_name response ;;
      response_json ← map_err (λ error, failed annotator_name ("LLM response was not valid JSON: " +:+ error))
        (value_from_str (tp_body response));
      annotation_from_provider_response annotator_name cfg response_json).

(** [ConfiguredLlmAnnotator::dispatch]. *)
Definition llm_dispatch (annotator_name : string) (annotator : AnnotatorInvocation)
  (preliminary_policy_input : JsonValue) (limits : Limits) : sending JsonValue :=
  llm_dispatch_with_transport send_transport_request annotator_name annotator preliminary_policy_input limits.
End llm.
