(* ===== verification/Classifier.v ===== *)
(** * The bundled classifiers: [engine/src/dispatchers/bundled.rs],
    [bundled/*.rs], [classifier.rs] and [default.rs]

    One resolved configuration, one request and one verdict per provider,
    and the dispatcher that routes an annotator by its type. *)

From Stdlib Require Import SpecFloat.
From S2P Require Import Prelude OrdMap RustStd Json Errors AgentHooks Constants Paths Hex Float64.
From S2P Require Import Limits Pins StdPath Policy Manifest Loader Http Calendar SigV4 Llm.

Definition FIELD_THRESHOLD : string := "threshold".
Definition FIELD_CATEGORY_THRESHOLDS : string := "category_thresholds".
Definition FIELD_INPUT_FIELD : string := "input_field".
Definition FIELD_RESPONSE_FIELD : string := "response_field".
Definition DEFAULT_INPUT_FIELD : string := "input".

(** [Value::as_f64] and [json!] of an [f64]. *)
Definition as_f64 (v : JsonValue) : option spec_float :=
  match v with
  | JNumber (PosInt n) => Some (f64_of_Z (Z.of_N n))
  | JNumber (NegInt z) => Some (f64_of_Z z)
  | JNumber (Float bits) => Some (f64_value bits)
  | _ => None
  end.
Definition json_of_f64 (x : spec_float) : JsonValue :=
  match f64_bits x with Some bits => JNumber (Float bits) | None => JNull end.
Definition as_bool (v : JsonValue) : option bool := match v with JBool b => Some b | _ => None end.

Definition f64_half : spec_float := f64_div (f64_of_Z 1) (f64_of_Z 2).
Definition f64_zero : spec_float := f64_of_Z 0.
Definition f64_one : spec_float := f64_of_Z 1.

(** ** Verdicts and configuration *)

Record ClassifierVerdict := mkClassifierVerdict {
  cv_flagged : bool;
  cv_score : spec_float;
  cv_threshold : spec_float;
  cv_label : option string;
  cv_reason : option string;
  cv_category_scores : btree string spec_float }.

Definition json_of_text (text : option string) : JsonValue :=
  match text with Some text => JString text | None => JNull end.

Definition verdict_to_json (v : ClassifierVerdict) : JsonValue :=
  JObject [("category_scores", JObject (prod_map id json_of_f64 <$> cv_category_scores v));
           ("flagged", JBool (cv_flagged v)); ("label", json_of_text (cv_label v));
           ("reason", json_of_text (cv_reason v)); ("score", json_of_f64 (cv_score v));
           ("threshold", json_of_f64 (cv_threshold v));
           ("verdict", JString (if cv_flagged v then "block" else "allow"))].

Record ResolvedClassifierConfig := mkClassifierConfig {
  cc_provider : string;
  cc_endpoint : string;
  cc_api_key : option string;
  cc_timeout_ms : N;
  cc_threshold : spec_float;
  cc_category_thresholds : btree string spec_float;
  cc_extra_headers : btree string string;
  cc_provider_config : JsonValue }.

Definition validate_threshold (name : string) (threshold : spec_float) : result string () :=
  if f64_ge threshold f64_zero && f64_ge f64_one threshold then Ok ()
  else Err ("field '" +:+ name +:+ "' must be between 0 and 1").

(** The entries of an object of the fields, all of one kind. *)
Definition optional_map {A} (read : JsonValue → option A) (kind : string) (fields : fields_map) (name : string)
  : result string (btree string A) :=
  match bt_get name fields with
  | None => Ok []
  | Some value =>
      object ← ok_or (as_object value) ("field '" +:+ name +:+ "' must be an object");
      entries ← map_result (λ e : string * JsonValue,
        v ← ok_or (read e.2) ("field '" +:+ name +:+ "." +:+ e.1 +:+ "' must be a " +:+ kind);
        Ok (e.1, v)) object;
      Ok (bt_of_list entries)
  end.
Definition optional_f64_map : fields_map → string → result string (btree string spec_float) :=
  optional_map as_f64 "number".
Definition classifier_string_map : fields_map → string → result string (btree string string) :=
  optional_map as_str "string".

Definition config_endpoint (fields : fields_map) : string :=
  match optional_string_field fields FIELD_ENDPOINT with
  | Some url => url
  | None =>
      match optional_string_field fields FIELD_BASE_URL with
      | Some url => url
      | None => default "" (optional_string_field fields FIELD_URL)
      end
  end.

Definition with_provider (cfg : ResolvedClassifierConfig) (provider : string) : ResolvedClassifierConfig :=
  mkClassifierConfig provider (cc_endpoint cfg) (cc_api_key cfg) (cc_timeout_ms cfg) (cc_threshold cfg)
    (cc_category_thresholds cfg) (cc_extra_headers cfg) (cc_provider_config cfg).

(** ** Scores *)

(** The loop without category thresholds: the highest score above zero. *)
Definition top_step (top : option string * spec_float) (e : string * spec_float)
  : option string * spec_float :=
  if f64_gt e.2 top.2 then (Some e.1, e.2) else top.

Record FoldState := mkFold {
  fs_flagged : bool; fs_label : option string; fs_score : spec_float; fs_threshold : spec_float;
  fs_reasons : list string }.

(** The loop over the category thresholds. *)
Definition category_step (category_scores : btree string spec_float) (state : FoldState)
  (e : string * spec_float) : FoldState :=
  match bt_get e.1 category_scores with
  | None => state
  | Some score =>
      let state :=
        if f64_ge score e.2 then
          mkFold true (fs_label state) (fs_score state) (fs_threshold state)
            (fs_reasons state ++ [e.1 +:+ " " +:+ fmt_fixed3 score +:+ " >= " +:+ fmt_fixed3 e.2])
        else state in
      if f64_gt score (fs_score state) then mkFold (fs_flagged state) (Some e.1) score e.2 (fs_reasons state)
      else state
  end.

Definition fold_score_verdict (cfg : ResolvedClassifierConfig) (category_scores : btree string spec_float)
  : ClassifierVerdict :=
  match cc_category_thresholds cfg with
  | [] =>
      let top := fold_left top_step category_scores (None, f64_zero) in
      mkClassifierVerdict (f64_ge top.2 (cc_threshold cfg)) top.2 (cc_threshold cfg) top.1 None category_scores
  | thresholds =>
      let state := fold_left (category_step category_scores) thresholds
        (mkFold false None f64_zero (cc_threshold cfg) []) in
      mkClassifierVerdict (fs_flagged state) (fs_score state) (fs_threshold state) (fs_label state)
        match fs_reasons state with [] => None | reasons => Some (join "; " reasons) end category_scores
  end.

(** ** Requests *)

Definition extra_headers (cfg : ResolvedClassifierConfig) (request : TransportRequest) : TransportRequest :=
  fold_left (λ request e, header e.1 e.2 request) (cc_extra_headers cfg) request.

Definition classifier_request (cfg : ResolvedClassifierConfig) (url : string)
  (credential : option (string * string)) (body : JsonValue) : TransportRequest :=
  let request := header HEADER_ACCEPT CONTENT_TYPE_JSON
    (header HEADER_CONTENT_TYPE CONTENT_TYPE_JSON (transport_post url)) in
  let request := match credential with Some c => header c.1 c.2 request | None => request end in
  extra_headers cfg (set_timeout_ms (cc_timeout_ms cfg) (json body request)).

(** An API key that is present and not empty. *)
Definition classifier_key (provider : string) (cfg : ResolvedClassifierConfig) : result string string :=
  ok_or (key ← cc_api_key cfg; if str_is_empty key then None else Some key) (provider +:+ " api key is required").

Definition config_text (cfg : ResolvedClassifierConfig) (name : string) : option string :=
  json_get name (cc_provider_config cfg) ≫= as_str.

(** A list of non-empty strings in the provider's configuration. *)
Definition config_texts (provider label : string) (values : list JsonValue) : result string (list string) :=
  texts ← map_result (λ value, ok_or (text ← as_str value; if str_is_empty text then None else Some text)
    (provider +:+ " provider_config " +:+ label +:+ " must be strings")) values;
  match texts with [] => Err (provider +:+ " " +:+ label +:+ " must not be empty") | _ => Ok texts end.

Section classifier.
Context {W : Type} `{DispatchHost W} `{SerdeValue} `{Sha2} `{HttpCrate}.
Notation sending := (sending W).
Notation Transport := (TransportRequest → sending string TransportResponse).

Definition response_body (provider : string) (response : TransportResponse) : result string JsonValue :=
  if success_status (tp_status response) then
    map_err (λ error, provider +:+ " JSON parse failed " +:+ error) (value_from_str (tp_body response))
  else Err (provider +:+ " HTTP " +:+ fmt_N (tp_status response) +:+ " (" +:+
            describe_error_body (tp_body response) +:+ ")").

(** ** Azure AI Content Safety *)

Definition aacs_DEFAULT_API_VERSION : string := "2024-09-01".
Definition aacs_DEFAULT_CATEGORIES : list string := ["Hate"; "SelfHarm"; "Sexual"; "Violence"].

Definition aacs_analyze_url (endpoint api_version : string) : string :=
  let endpoint := trim_end_slashes endpoint in
  if str_contains "/contentsafety/" endpoint then
    if str_contains "api-version=" endpoint then endpoint
    else if str_contains "?" endpoint then endpoint +:+ "&api-version=" +:+ api_version
    else endpoint +:+ "?api-version=" +:+ api_version
  else endpoint +:+ "/contentsafety/text:analyze?api-version=" +:+ api_version.

(** [categories] and [attributes]: the configured thresholds, else the
    provider's list, else the default. *)
Definition expected_labels (provider label : string) (defaults : list string) (cfg : ResolvedClassifierConfig)
  : result string (list string) :=
  match cc_category_thresholds cfg with
  | [] =>
      match json_get label (cc_provider_config cfg) ≫= as_array with
      | Some values => config_texts provider label values
      | None => Ok defaults
      end
  | thresholds => Ok (bt_keys thresholds)
  end.

Definition aacs_severity (item : JsonValue) : result string (string * spec_float) :=
  category ← ok_or (text ← json_get "category" item ≫= as_str; if str_is_empty text then None else Some text)
    "aacs response item missing category";
  severity ← ok_or (json_get "severity" item ≫= as_u64) "aacs response item missing severity";
  if bool_decide (severity ∈ [0; 2; 4; 6]%N)
  then Ok (category, f64_div (f64_of_Z (Z.of_N severity)) (f64_of_Z 6))
  else Err ("aacs response severity " +:+ fmt_N severity +:+ " is invalid").

Definition aacs_parse_response (cfg : ResolvedClassifierConfig) (value : JsonValue)
  (expected_categories : list string) : result string ClassifierVerdict :=
  analysis ← ok_or (json_get "categoriesAnalysis" value ≫= as_array) "aacs response missing categoriesAnalysis";
  match analysis with
  | [] => Err "aacs response categoriesAnalysis was empty"
  | _ =>
      entries ← map_result aacs_severity analysis;
      let scores := bt_of_list entries in
      for_each (λ category, if bt_contains category scores then Ok ()
        else Err ("aacs response missing category " +:+ category)) expected_categories ;;
      Ok (fold_score_verdict cfg scores)
  end.

Definition aacs_classify (cfg : ResolvedClassifierConfig) (subject : string) (transport : Transport)
  : sending string ClassifierVerdict :=
  api_key ← pure (classifier_key "aacs" cfg);
  (if str_is_empty (cc_endpoint cfg) then pure (Err "aacs endpoint is required") else mret ()) ;;
  let api_version := default aacs_DEFAULT_API_VERSION (config_text cfg "api_version") in
  categories ← pure (expected_labels "aacs" "categories" aacs_DEFAULT_CATEGORIES cfg);
  response ← transport (classifier_request cfg (aacs_analyze_url (cc_endpoint cfg) api_version)
    (Some ("Ocp-Apim-Subscription-Key", api_key))
    (JObject [("categories", JArray (JString <$> categories)); ("outputType", JString "FourSeverityLevels");
              ("text", JString subject)]));
  pure (value ← response_body "aacs" response; aacs_parse_response cfg value categories).

(** ** OpenAI moderation *)

Definition openai_parse_response (cfg : ResolvedClassifierConfig) (value : JsonValue)
  : result string ClassifierVerdict :=
  result ← ok_or ((json_get "results" value ≫= as_array) ≫= head) "openai_moderation response missing results[0]";
  native_flagged ← ok_or (json_get "flagged" result ≫= as_bool) "openai_moderation response missing flagged";
  category_scores ← ok_or (json_get "category_scores" result ≫= as_object)
    "openai_moderation response missing category_scores";
  match category_scores with
  | [] => Err "openai_moderation response category_scores was empty"
  | _ =>
      entries ← map_result (λ e : string * JsonValue,
        score ← ok_or (as_f64 e.2) ("openai_moderation response score " +:+ e.1 +:+ " is not a number");
        Ok (e.1, score)) category_scores;
      let verdict := fold_score_verdict cfg (bt_of_list entries) in
      Ok (if native_flagged && bool_decide (cc_category_thresholds cfg = [])
          then mkClassifierVerdict true (cv_score verdict) (cv_threshold verdict) (cv_label verdict)
                 (cv_reason verdict) (cv_category_scores verdict)
          else verdict)
  end.

Definition endpoint_or (fallback : string) (cfg : ResolvedClassifierConfig) : string :=
  if str_is_empty (cc_endpoint cfg) then fallback else cc_endpoint cfg.

Definition openai_moderation_classify (cfg : ResolvedClassifierConfig) (subject : string)
  (transport : Transport) : sending string ClassifierVerdict :=
  api_key ← pure (classifier_key "openai_moderation" cfg);
  let model := default "omni-moderation-latest"
    (text ← config_text cfg FIELD_MODEL; if str_is_empty text then None else Some text) in
  response ← transport (classifier_request cfg (endpoint_or "https://api.openai.com/v1/moderations" cfg)
    (Some (HEADER_AUTHORIZATION, AUTH_BEARER_PREFIX +:+ api_key))
    (JObject [("input", JString subject); ("model", JString model)]));
  pure (value ← response_body "openai_moderation" response; openai_parse_response cfg value).

(** ** Perspective *)

Definition perspective_analyze_url (endpoint api_key : string) : string :=
  let base := if str_is_empty endpoint
    then "https://commentanalyzer.googleapis.com/v1alpha1/comments:analyze" else endpoint in
  if str_contains "?key=" base || str_contains "&key=" base then base
  else if str_contains "?" base then base +:+ "&key=" +:+ api_key
  else base +:+ "?key=" +:+ api_key.

Definition perspective_parse_response (cfg : ResolvedClassifierConfig) (value : JsonValue)
  (expected_attributes : list string) : result string ClassifierVerdict :=
  attribute_scores ← ok_or (json_get "attributeScores" value ≫= as_object)
    "perspective response missing attributeScores";
  match attribute_scores with
  | [] => Err "perspective response attributeScores was empty"
  | _ =>
      entries ← map_result (λ attribute,
        found ← ok_or (bt_get attribute attribute_scores)
          ("perspective response missing attribute " +:+ attribute);
        score ← ok_or (summary ← json_get "summaryScore" found; v ← json_get "value" summary; as_f64 v)
          ("perspective response attribute " +:+ attribute +:+ " missing score");
        Ok (attribute, score)) expected_attributes;
      Ok (fold_score_verdict cfg (bt_of_list entries))
  end.

Definition perspective_classify (cfg : ResolvedClassifierConfig) (subject : string) (transport : Transport)
  : sending string ClassifierVerdict :=
  api_key ← pure (classifier_key "perspective" cfg);
  attributes ← pure (expected_labels "perspective" "attributes" ["TOXICITY"] cfg);
  response ← transport (classifier_request cfg (perspective_analyze_url (cc_endpoint cfg) api_key) None
    (JObject [("comment", JObject [("text", JString subject)]);
              ("requestedAttributes", JObject (bt_of_list ((λ a, (a, JObject [])) <$> attributes)))]));
  pure (value ← response_body "perspective" response; perspective_parse_response cfg value attributes).

(** ** Llama Guard *)

Definition newline_char : Ascii.ascii := byte_of 10.

Fixpoint split_on (c : Ascii.ascii) (word s : string) : list string :=
  match s with
  | EmptyString => [word]
  | String c' s => if decide (c' = c) then word :: split_on c "" s else split_on c (word +:+ String c' "") s
  end.

(** [content.lines().map(str::trim).filter(non empty)]; the carriage return
    [lines] drops is white space that [trim] drops. *)
Definition trimmed_lines (content : string) : list string :=
  filter (λ line, line ≠ "") (trim <$> split_on newline_char "" content).

(** Split at commas and white space, empty parts dropped. *)
Definition parse_categories (line : string) : list string :=
  mjoin (split_whitespace <$> split_on (byte_of 44) "" line).

Definition llama_parse_response (cfg : ResolvedClassifierConfig) (value : JsonValue)
  : result string ClassifierVerdict :=
  content ← ok_or (choice ← (json_get "choices" value ≫= as_array) ≫= head;
      message ← json_get "message" choice; content ← json_get "content" message; as_str content)
    "llama_guard response missing choices[0].message.content";
  match trimmed_lines content with
  | [] => Err "llama_guard response content was empty"
  | verdict :: lines =>
      let unsafe_verdict := eq_ignore_ascii_case verdict "unsafe" in
      if negb unsafe_verdict && negb (eq_ignore_ascii_case verdict "safe") then
        Err ("llama_guard response first line was not safe or unsafe " +:+ verdict)
      else
        let categories := if unsafe_verdict
          then match lines with line :: _ => parse_categories line | [] => [] end else [] in
        Ok (mkClassifierVerdict unsafe_verdict (if unsafe_verdict then f64_one else f64_zero)
          (cc_threshold cfg)
          (Some (if unsafe_verdict then default "unsafe" (head categories) else "safe"))
          (if unsafe_verdict then match categories with [] => None | _ => Some (join "," categories) end else None)
          (bt_of_list ((λ category, (category, f64_one)) <$> categories)))
  end.

Definition llama_guard_classify (cfg : ResolvedClassifierConfig) (subject : string) (transport : Transport)
  : sending string ClassifierVerdict :=
  api_key ← pure (classifier_key "llama_guard" cfg);
  (if str_is_empty (cc_endpoint cfg) then pure (Err "llama_guard endpoint is required") else mret ()) ;;
  let model := default "meta-llama/Llama-Guard-3-8B" (config_text cfg "model") in
  response ← transport (classifier_request cfg (cc_endpoint cfg)
    (Some (HEADER_AUTHORIZATION, AUTH_BEARER_PREFIX +:+ api_key))
    (JObject [("messages", JArray [chat_message "user" subject]); ("model", JString model)]));
  pure (value ← response_body "llama_guard" response; llama_parse_response cfg value).

(** ** Lakera Guard *)

(** [parse_category_scores] and [parse_category_flags]. *)
Definition result_map {A} (name kind : string) (read : JsonValue → option A) (result : JsonValue)
  : Prelude.result string (btree string A) :=
  match json_get name result with
  | None => Ok []
  | Some values =>
      object ← ok_or (as_object values) ("lakera_guard response " +:+ name +:+ " must be an object");
      entries ← map_result (λ e : string * JsonValue,
        v ← ok_or (read e.2) ("lakera_guard response " +:+ name +:+ "." +:+ e.1 +:+ " must be a " +:+ kind);
        Ok (e.1, v)) object;
      Ok (bt_of_list entries)
  end.

Definition parse_category_scores : JsonValue → result string (btree string spec_float) :=
  result_map "category_scores" "number" as_f64.
Definition parse_category_flags : JsonValue → result string (btree string bool) :=
  result_map "categories" "boolean" as_bool.

Definition lakera_parse_response (cfg : ResolvedClassifierConfig) (value : JsonValue)
  : result string ClassifierVerdict :=
  result ← ok_or ((json_get "results" value ≫= as_array) ≫= head) "lakera_guard response missing results[0]";
  flagged ← ok_or (json_get "flagged" result ≫= as_bool) "lakera_guard response missing flagged";
  category_scores ← parse_category_scores result;
  match category_scores with
  | _ :: _ =>
      let verdict := fold_score_verdict cfg category_scores in
      Ok (if flagged && bool_decide (cc_category_thresholds cfg = [])
          then mkClassifierVerdict true (cv_score verdict) (cv_threshold verdict) (cv_label verdict)
                 (cv_reason verdict) (cv_category_scores verdict)
          else verdict)
  | [] =>
      category_flags ← parse_category_flags result;
      let flagged_categories := (filter (λ e : string * bool, e.2 = true) category_flags).*1 in
      Ok (mkClassifierVerdict flagged (if flagged then f64_one else f64_zero) (cc_threshold cfg)
        (head flagged_categories)
        match flagged_categories with [] => None | _ => Some (join ", " flagged_categories) end
        (prod_map id (λ is_flagged : bool, if is_flagged then f64_one else f64_zero) <$> category_flags))
  end.

Definition lakera_guard_classify (cfg : ResolvedClassifierConfig) (subject : string) (transport : Transport)
  : sending string ClassifierVerdict :=
  api_key ← pure (classifier_key "lakera_guard" cfg);
  response ← transport (classifier_request cfg (endpoint_or "https://api.lakera.ai/v1/guard" cfg)
    (Some (HEADER_AUTHORIZATION, AUTH_BEARER_PREFIX +:+ api_key)) (JObject [("input", JString subject)]));
  pure (value ← response_body "lakera_guard" response; lakera_parse_response cfg value).

(** ** Selection *)

Definition canonical_provider_name (name : string) : string :=
  let name := ascii_lowercase (trim name) in
  if bool_decide (name ∈ ["aacs"; "azure_content_safety"; "azure-content-safety"; "content_safety"; "acs"])
  then "aacs"
  else if bool_decide (name ∈ ["openai_moderation"; "openai-moderation"; "openai"; "moderation"; "openai_moderations"])
  then "openai_moderation"
  else if bool_decide (name ∈ ["perspective"; "perspective_api"; "perspective-api"]) then "perspective"
  else if bool_decide (name ∈ ["llama_guard"; "llama-guard"; "llamaguard"; "llama_guard_3"]) then "llama_guard"
  else if bool_decide (name ∈ ["lakera_guard"; "lakera-guard"; "lakera"]) then "lakera_guard"
  else name.

Definition provider_from_endpoint (endpoint : string) : option string :=
  let url := ascii_lowercase endpoint in
  if str_contains "/contentsafety/" url || str_contains "cognitiveservices" url then Some "aacs"
  else if str_contains "commentanalyzer" url || str_contains "comments:analyze" url then Some "perspective"
  else if str_contains "lakera" url then Some "lakera_guard"
  else if str_contains "/moderations" url then Some "openai_moderation"
  else if str_contains "/chat/completions" url then Some "llama_guard"
  else None.

Definition resolve_target (cfg : ResolvedClassifierConfig) : result string string :=
  match (hint ← config_text cfg "provider"; if blank hint then None else Some hint) with
  | Some hint =>
      let target := canonical_provider_name hint in
      if bool_decide (target = "auto")
      then Err "auto classifier provider_config.provider cannot itself be 'auto'" else Ok target
  | None => ok_or (provider_from_endpoint (cc_endpoint cfg))
      "auto classifier could not determine a provider from the endpoint; set provider_config.provider to one of aacs, openai_moderation, perspective, llama_guard, lakera_guard"
  end.

(** [classify]: the [auto] provider calls it again with the provider it
    resolved. [None] for fuel that ran out. *)
Fixpoint classify_fuel (fuel : nat) (cfg : ResolvedClassifierConfig) (subject : string)
  (transport : Transport) : option (sending string ClassifierVerdict) :=
  match fuel with
  | O => None
  | S fuel =>
      let provider := cc_provider cfg in
      if bool_decide (provider = "aacs") then Some (aacs_classify cfg subject transport)
      else if bool_decide (provider = "openai_moderation") then Some (openai_moderation_classify cfg subject transport)
      else if bool_decide (provider = "perspective") then Some (perspective_classify cfg subject transport)
      else if bool_decide (provider = "llama_guard") then Some (llama_guard_classify cfg subject transport)
      else if bool_decide (provider = "lakera_guard") then Some (lakera_guard_classify cfg subject transport)
      else if bool_decide (provider = "auto") then
        match resolve_target cfg with
        | Err error => Some (pure (Err error))
        | Ok target => classify_fuel fuel (with_provider cfg target) subject transport
        end
      else Some (pure (Err ("unsupported classifier provider '" +:+ provider +:+ "'")))
  end.

(** One level for the provider named and one for the one [auto] resolves. *)
Definition classify (cfg : ResolvedClassifierConfig) (subject : string) (transport : Transport)
  : sending string ClassifierVerdict :=
  default (pure (Err "")) (classify_fuel 2 cfg subject transport).

(** ** The dispatchers *)

(** [ResolvedClassifierConfig::from_fields_with_provenance]. *)
Definition classifier_config_from_fields (fields : fields_map) (url_sourced : bool)
  : sending string ResolvedClassifierConfig :=
  provider ← pure (ok_or (optional_string_field fields FIELD_PROVIDER) "missing required field 'provider'");
  api_key ←
    match optional_string_field fields FIELD_API_KEY_ENV with
    | None => mret None
    | Some env_name =>
        found ← host_env_read url_sourced env_name;
        key ← pure (ok_or found ("API key environment variable '" +:+ env_name +:+ "' is not set"));
        mret (Some key)
    end;
  let threshold := default f64_half (bt_get FIELD_THRESHOLD fields ≫= as_f64) in
  pure (validate_threshold FIELD_THRESHOLD threshold) ;;
  category_thresholds ← pure (optional_f64_map fields FIELD_CATEGORY_THRESHOLDS);
  pure (for_each (λ e : string * spec_float,
    validate_threshold (FIELD_CATEGORY_THRESHOLDS +:+ "." +:+ e.1) e.2) category_thresholds) ;;
  headers ← pure (classifier_string_map fields FIELD_HEADERS);
  mret (mkClassifierConfig (ascii_lowercase provider) (config_endpoint fields) api_key
    (default 10000%N (bt_get FIELD_TIMEOUT_MS fields ≫= as_u64)) threshold category_thresholds headers
    (default JNull (bt_get FIELD_PROVIDER_CONFIG fields))).

Context `{SerdeJson}.

Definition dispatch_bundled_with_transport (annotator_name : string) (annotator : AnnotatorInvocation)
  (policy_target : string) (transport : Transport) : sending RuntimeError JsonValue :=
  cfg ← sending_err (failed annotator_name)
    (classifier_config_from_fields (invocation_fields annotator) (invocation_url_sourced annotator));
  verdict ← sending_err (failed annotator_name) (classify cfg policy_target transport);
  mret (verdict_to_json verdict).

Definition dispatch_generic (annotator_name : string) (annotator : AnnotatorInvocation)
  (policy_target : string) : sending RuntimeError JsonValue :=
  let fields := invocation_fields annotator in
  url ← pure (required_string_field annotator_name fields FIELD_URL);
  let input_field := default DEFAULT_INPUT_FIELD (optional_string_field fields FIELD_INPUT_FIELD) in
  api_key ← env_api_key annotator_name annotator;
  timeout ← pure (timeout_ms annotator_name fields);
  response ← post_json annotator_name url (JObject [(input_field, JString policy_target)]) api_key timeout;
  match optional_string_field fields FIELD_RESPONSE_FIELD with
  | Some field => pure (ok_or (json_get field response)
      (failed annotator_name ("response missing field '" +:+ field +:+ "'")))
  | None => mret response
  end.

(** [ClassifierAnnotator::dispatch]. *)
Definition classifier_dispatch (annotator_name : string) (annotator : AnnotatorInvocation)
  (preliminary_policy_input : JsonValue) : sending RuntimeError JsonValue :=
  if negb (is_type annotator TYPE_CLASSIFIER) then
    pure (Err (failed annotator_name "classifier dispatcher received a non-classifier annotator"))
  else
    policy_target ← pure (policy_target_text annotator_name annotator preliminary_policy_input);
    match optional_string_field (invocation_fields annotator) FIELD_PROVIDER with
    | Some _ => dispatch_bundled_with_transport annotator_name annotator policy_target send_transport_request
    | None => dispatch_generic annotator_name annotator policy_target
    end.
End classifier.

(** ** [default.rs]: routing by type *)

Section default_dispatcher.
Context {W : Type} `{DispatchHost W} `{AgentHooksLaws} `{UrlCrate} `{SerdeJson} `{SerdeValue} `{Sha2} `{HttpCrate}.
Context `{LoaderHost W}.

(** [ConfiguredAnnotatorDispatcher::dispatch]. *)
Definition annotator_dispatch_default (limits : Limits) (annotator_name : string)
  (annotator : AnnotatorInvocation) (preliminary_policy_input : JsonValue)
  : sending W RuntimeError JsonValue :=
  match bt_get ANNOTATOR_TYPE (invocation_fields annotator) ≫= as_str with
  | Some kind =>
      if bool_decide (kind = TYPE_CLASSIFIER)
      then classifier_dispatch annotator_name annotator preliminary_policy_input
      else if bool_decide (kind = TYPE_LLM)
      then llm_dispatch annotator_name annotator preliminary_policy_input limits
      else if bool_decide (kind = TYPE_ENDPOINT)
      then endpoint_dispatch annotator_name annotator preliminary_policy_input
      else pure (Err (failed annotator_name
        ("default annotator dispatcher does not support type '" +:+ kind +:+ "'")))
  | None => pure (Err (failed annotator_name "annotator is missing a 'type' field"))
  end.
End default_dispatcher.
