(* ===== verification/Annotators.v ===== *)
(** * The public annotators and the stub transport:
    [dispatchers/classifier.rs], [llm.rs], [default.rs], [mod.rs] and
    [StubHttpTransport] of [dispatchers/bundled.rs]

    The same dispatches under a host's transport, and the transport tests
    hand them: a queue of responses and the list of requests. *)

From S2P Require Import Prelude OrdMap RustStd Json Errors AgentHooks Constants Paths Hex Float64 Concrete.
From S2P Require Import Limits Pins StdPath Policy Manifest Loader Http Calendar SigV4 Llm Classifier.

(** ** [StubHttpTransport] *)

Record StubHttpTransport := mkStub {
  stub_poisoned : bool;
  stub_responses : list (result string TransportResponse);
  stub_requests : list TransportRequest }.

Definition with_responses (responses : list (result string TransportResponse)) : StubHttpTransport :=
  mkStub false responses [].
Definition with_response (status : N) (body : string) : StubHttpTransport :=
  with_responses [Ok (mkTransportResponse status body)].

Definition last_request (stub : StubHttpTransport) : option TransportRequest :=
  if stub_poisoned stub then None else last (stub_requests stub).
Definition requests_of (stub : StubHttpTransport) : list TransportRequest :=
  if stub_poisoned stub then [] else stub_requests stub.

(** [HttpTransport::send]: the request is recorded even if no response is
    left. *)
Definition stub_send (request : TransportRequest) (stub : StubHttpTransport)
  : StubHttpTransport * result string TransportResponse :=
  if stub_poisoned stub then (stub, Err "stub transport lock poisoned")
  else
    let requests := stub_requests stub ++ [request] in
    match stub_responses stub with
    | [] => (mkStub false [] requests, Err "stub transport response queue exhausted")
    | response :: responses => (mkStub false responses requests, response)
    end.

Fixpoint stub_send_all (requests : list TransportRequest) (stub : StubHttpTransport)
  : StubHttpTransport * list (result string TransportResponse) :=
  match requests with
  | [] => (stub, [])
  | request :: requests =>
      let (stub, response) := stub_send request stub in
      let (stub, responses) := stub_send_all requests stub in (stub, response :: responses)
  end.

(** As the transport of a dispatch whose world carries it. *)
Definition stub_transport {W} (get : W → StubHttpTransport) (set : StubHttpTransport → W → W)
  (request : TransportRequest) : sending W string TransportResponse := λ s,
  let (stub, response) := stub_send request (get (sent_world s)) in
  (mkSent (set stub (sent_world s)) (sent_trace s), response).

(** ** The annotators *)

Definition is_failure (verdict : ClassifierVerdict) : bool := cv_flagged verdict.

Section annotators.
Context {W : Type} `{DispatchHost W} `{AgentHooksLaws} `{UrlCrate} `{SerdeJson} `{SerdeValue} `{Sha2} `{HttpCrate}.
Context `{LoaderHost W}.
Notation Transport := (TransportRequest → sending W string TransportResponse).

(** [ResolvedClassifierConfig::from_fields]. *)
Definition classifier_from_fields (fields : fields_map) : sending W string ResolvedClassifierConfig :=
  classifier_config_from_fields fields false.

(** [ClassifierAnnotator::dispatch_with_transport]. *)
Definition classifier_dispatch_with_transport (annotator_name : string) (annotator : AnnotatorInvocation)
  (preliminary_policy_input : JsonValue) (transport : Transport) : sending W RuntimeError JsonValue :=
  if negb (is_type annotator TYPE_CLASSIFIER) then
    pure (Err (failed annotator_name "classifier dispatcher received a non-classifier annotator"))
  else
    policy_target ← pure (policy_target_text annotator_name annotator preliminary_policy_input);
    match optional_string_field (invocation_fields annotator) FIELD_PROVIDER with
    | None => pure (Err (failed annotator_name "custom transport requires a bundled classifier provider"))
    | Some _ => dispatch_bundled_with_transport annotator_name annotator policy_target transport
    end.

(** [LlmAnnotator], and [ConfiguredLlmAnnotator] with a host's limits. *)
Definition llm_annotator_dispatch_with_transport (annotator_name : string) (annotator : AnnotatorInvocation)
  (preliminary_policy_input : JsonValue) (transport : Transport) : sending W RuntimeError JsonValue :=
  llm_dispatch_with_transport transport annotator_name annotator preliminary_policy_input default_limits.

Definition configured_llm_dispatch_with_transport (limits : Limits) (annotator_name : string)
  (annotator : AnnotatorInvocation) (preliminary_policy_input : JsonValue) (transport : Transport)
  : sending W RuntimeError JsonValue :=
  llm_dispatch_with_transport transport annotator_name annotator preliminary_policy_input limits.

Definition llm_annotator_dispatch (annotator_name : string) (annotator : AnnotatorInvocation)
  (preliminary_policy_input : JsonValue) : sending W RuntimeError JsonValue :=
  llm_annotator_dispatch_with_transport annotator_name annotator preliminary_policy_input send_transport_request.

(** [DefaultAnnotatorDispatcher::dispatch]; a default dispatcher is its
    limits. *)
Definition default_dispatch (annotator_name : string) (annotator : AnnotatorInvocation)
  (preliminary_policy_input : JsonValue) : sending W RuntimeError JsonValue :=
  annotator_dispatch_default default_limits annotator_name annotator preliminary_policy_input.

Definition default_annotator_dispatcher_with_limits (limits : Limits) : Limits := limits.
Definition default_annotator_dispatcher : Limits := default_annotator_dispatcher_with_limits default_limits.

(** ** Facts *)

(** With the client's own transport the public dispatches are the
    dispatcher's. *)
Lemma classifier_transport_agrees annotator_name annotator input s :
  optional_string_field (invocation_fields annotator) FIELD_PROVIDER ≠ None →
  classifier_dispatch_with_transport annotator_name annotator input send_transport_request s =
  classifier_dispatch annotator_name annotator input s.
Proof.
  intros Hprovider. unfold classifier_dispatch_with_transport, classifier_dispatch. destruct (negb _); [done|].
  unfold mbind, sending_bind. cbn. destruct (policy_target_text _ _ _); [|done].
  by destruct (optional_string_field _ _).
Qed.
End annotators.

Lemma stub_send_all_spec requests stub :
  stub_poisoned stub = false →
  stub_send_all requests stub =
  (mkStub false (drop (length requests) (stub_responses stub)) (stub_requests stub ++ requests),
   firstn (length requests) (stub_responses stub) ++
   replicate (length requests - length (stub_responses stub)) (Err "stub transport response queue exhausted")).
Proof.
  revert stub. induction requests as [|request requests IH]; intros [poisoned responses sent] Hp; cbn in Hp; subst; cbn.
  - by rewrite drop_0, app_nil_r.
  - unfold stub_send. cbn. destruct responses as [|response responses]; cbn; rewrite IH by done; cbn.
    + rewrite drop_nil, firstn_nil, <-app_assoc. f_equal. by rewrite Nat.sub_0_r.
    + by rewrite <-app_assoc.
Qed.

(** A fresh stub answers in the order it was given, says so once it is
    exhausted, and has recorded every request in order. *)
Theorem stub_transport_fifo requests responses :
  let '(stub, answers) := stub_send_all requests (with_responses responses) in
  requests_of stub = requests ∧ last_request stub = last requests ∧
  answers = firstn (length requests) responses ++
    replicate (length requests - length responses) (Err "stub transport response queue exhausted").
Proof. by rewrite stub_send_all_spec. Qed.
