(* ===== verification/ClassifierFacts.v ===== *)
(** * Scores and verdicts

    Doubles compare as the integers they scale to, and a verdict is flagged
    exactly when a considered score reaches its threshold. *)

From Stdlib Require Import SpecFloat.
From S2P Require Import Prelude OrdMap RustStd Json Errors AgentHooks Float64.
From S2P Require Import StdPath Manifest Http SigV4 Llm Classifier.

(** ** The order of doubles *)

(** A finite double: a significand of at most 53 bits, all of them used
    above the least exponent. *)
Definition f64_ok (x : spec_float) : Prop :=
  match x with
  | S754_zero _ => True
  | S754_finite _ m e =>
      (Zpos m < 2 ^ 53 ∧ -1074 <= e ∧ (e = -1074 ∨ 2 ^ 52 <= Zpos m))%Z
  | S754_infinity _ | S754_nan => False
  end.

(** Every finite double is a multiple of [2^-1074]. *)
Definition f64_units (x : spec_float) : Z :=
  match x with
  | S754_finite sign m e => ((if sign then -1 else 1) * (Zpos m * 2 ^ (e + 1074)))%Z
  | _ => 0%Z
  end.

Lemma units_pos m e : (-1074 <= e)%Z → (0 < Zpos m * 2 ^ (e + 1074))%Z.
Proof. intros. apply Z.mul_pos_pos; [done|]. apply Z.pow_pos_nonneg; lia. Qed.

Lemma units_below m e m' e' :
  (Zpos m < 2 ^ 53)%Z → (-1074 <= e)%Z → (2 ^ 52 <= Zpos m')%Z → (e < e')%Z →
  (Zpos m * 2 ^ (e + 1074) < Zpos m' * 2 ^ (e' + 1074))%Z.
Proof.
  intros Hm He Hm' Hlt. replace (e' + 1074)%Z with (e + 1074 + 1 + (e' - e - 1))%Z by lia.
  rewrite (Z.pow_add_r 2 (e + 1074 + 1)), (Z.pow_add_r 2 (e + 1074) 1) by lia.
  assert (0 < 2 ^ (e + 1074))%Z by (apply Z.pow_pos_nonneg; lia).
  assert (0 < 2 ^ (e' - e - 1))%Z by (apply Z.pow_pos_nonneg; lia).
  apply (Z.lt_le_trans _ (2 ^ 53 * 2 ^ (e + 1074))); [by apply Z.mul_lt_mono_pos_r|].
  change (2 ^ 53)%Z with (2 ^ 52 * 2)%Z. change (2 ^ 1)%Z with 2%Z.
  set (p := (2 ^ (e + 1074))%Z) in *. set (q := (2 ^ (e' - e - 1))%Z) in *.
  assert (2 ^ 52 * p <= Zpos m' * p)%Z by (apply Z.mul_le_mono_nonneg_r; lia).
  assert (Zpos m' * p * 1 <= Zpos m' * p * q)%Z by (apply Z.mul_le_mono_nonneg_l; lia).
  replace (Zpos m' * (p * 2 * q))%Z with (2 * (Zpos m' * p * q))%Z by ring. lia.
Qed.

Lemma compare_magnitude m e m' e' :
  f64_ok (S754_finite false m e) → f64_ok (S754_finite false m' e') →
  match Z.compare e e' with Lt => Lt | Gt => Gt | Eq => Pos.compare_cont Eq m m' end =
  Z.compare (Zpos m * 2 ^ (e + 1074)) (Zpos m' * 2 ^ (e' + 1074)).
Proof.
  cbn. intros (Hm & He & Hfull) (Hm' & He' & Hfull'). symmetry.
  destruct (Z.compare_spec e e') as [->|Hlt|Hgt].
  - assert (0 < 2 ^ (e' + 1074))%Z by (apply Z.pow_pos_nonneg; lia).
    rewrite <- Zmult_compare_compat_r by lia. reflexivity.
  - apply Z.compare_lt_iff, units_below; lia.
  - apply Z.compare_gt_iff, units_below; lia.
Qed.

Lemma SFcompare_units x y :
  f64_ok x → f64_ok y → SFcompare x y = Some (Z.compare (f64_units x) (f64_units y)).
Proof.
  intros Hx Hy. destruct x as [sx|sx| |sx mx ex], y as [sy|sy| |sy my ey]; try done.
  - destruct Hy as (_ & He & _). pose proof (units_pos my ey He). cbn [SFcompare f64_units].
    destruct sy; f_equal; symmetry; [apply Z.compare_gt_iff|apply Z.compare_lt_iff]; lia.
  - destruct Hx as (_ & He & _). pose proof (units_pos mx ex He). cbn [SFcompare f64_units].
    destruct sx; f_equal; symmetry; [apply Z.compare_lt_iff|apply Z.compare_gt_iff]; lia.
  - pose proof (compare_magnitude mx ex my ey Hx Hy) as Hmag.
    destruct Hx as (_ & Hex & _), Hy as (_ & Hey & _).
    pose proof (units_pos mx ex Hex). pose proof (units_pos my ey Hey). cbn [SFcompare f64_units].
    destruct sx, sy; f_equal.
    + transitivity (CompOpp (Zpos mx * 2 ^ (ex + 1074) ?= Zpos my * 2 ^ (ey + 1074))%Z).
      { rewrite <- Hmag. by destruct (Z.compare ex ey). }
      destruct (Z.compare_spec (Zpos mx * 2 ^ (ex + 1074)) (Zpos my * 2 ^ (ey + 1074))); cbn [CompOpp]; symmetry;
        [apply Z.compare_eq_iff|apply Z.compare_gt_iff|apply Z.compare_lt_iff]; lia.
    + symmetry. apply Z.compare_lt_iff. lia.
    + symmetry. apply Z.compare_gt_iff. lia.
    + by rewrite !Z.mul_1_l.
Qed.

Lemma f64_ge_units x y : f64_ok x → f64_ok y → f64_ge x y = true ↔ (f64_units y <= f64_units x)%Z.
Proof.
  intros Hx Hy. unfold f64_ge. rewrite SFcompare_units by done.
  destruct (Z.compare_spec (f64_units x) (f64_units y)); split; (done || lia).
Qed.

Lemma f64_gt_units x y : f64_ok x → f64_ok y → f64_gt x y = true ↔ (f64_units y < f64_units x)%Z.
Proof.
  intros Hx Hy. unfold f64_gt. rewrite SFcompare_units by done.
  destruct (Z.compare_spec (f64_units x) (f64_units y)); split; (done || lia).
Qed.

(** ** The top score *)

Lemma top_spec l label score :
  f64_ok score → Forall (λ e, f64_ok e.2) l →
  let top := fold_left top_step l (label, score) in
  f64_ok top.2 ∧ (top = (label, score) ∨ ∃ e, e ∈ l ∧ top = (Some e.1, e.2)) ∧
  (f64_units score <= f64_units top.2)%Z ∧ Forall (λ e, (f64_units e.2 <= f64_units top.2)%Z) l.
Proof.
  intros Hscore Hl. cbn zeta. revert label score Hscore.
  induction Hl as [|e l He _ IH]; intros label score Hscore; cbn [fold_left]; [by split_and!; [|left|..]|].
  change (top_step (label, score) e) with (if f64_gt e.2 score then (Some e.1, e.2) else (label, score)).
  destruct (f64_gt e.2 score) eqn:Hgt.
  - apply f64_gt_units in Hgt; [|done..]. destruct (IH (Some e.1) e.2 He) as (Hok & Hwhere & Hle & Hall).
    split_and!; [done| |lia|by constructor].
    right. destruct Hwhere as [->|(e' & He' & ->)]; [exists e|exists e']; (split; [by constructor|done]).
  - destruct (IH label score Hscore) as (Hok & Hwhere & Hle & Hall).
    assert (¬ (f64_units score < f64_units e.2)%Z) by (rewrite <- f64_gt_units by done; congruence).
    split_and!; [done| |lia|constructor; [lia|done]].
    destruct Hwhere as [->|(e' & He' & ->)]; [by left|right]. exists e'. by split; [constructor|].
Qed.

(** ** Category thresholds *)

(** The scored categories that have a threshold, in the order of the thresholds. *)
Definition considered (scores : btree string spec_float) (thresholds : list (string * spec_float))
  : list (string * spec_float) :=
  omap (λ e, (λ score, (e.1, score)) <$> bt_get e.1 scores) thresholds.

Definition reaches (scores : btree string spec_float) (e : string * spec_float) : bool :=
  match bt_get e.1 scores with Some score => f64_ge score e.2 | None => false end.

Lemma category_fold scores thresholds state :
  let folded := fold_left (category_step scores) thresholds state in
  (fs_label folded, fs_score folded) = fold_left top_step (considered scores thresholds) (fs_label state, fs_score state) ∧
  fs_flagged folded = fs_flagged state || existsb (reaches scores) thresholds.
Proof.
  cbn zeta. revert state. induction thresholds as [|e thresholds IH]; intros state; cbn [fold_left existsb].
  { by rewrite orb_false_r. }
  destruct (IH (category_step scores state e)) as [-> ->]. unfold category_step, considered, reaches.
  cbn [omap list_omap]. destruct (bt_get e.1 scores) as [score|]; cbn [fmap option_fmap option_map fold_left].
  - change (top_step (fs_label state, fs_score state) (e.1, score))
      with (if f64_gt score (fs_score state) then (Some e.1, score) else (fs_label state, fs_score state)).
    destruct (f64_ge score e.2), (fs_flagged state) eqn:Hflag; cbn [fs_score fs_flagged fs_label];
      destruct (f64_gt score (fs_score state)); (split; [done|]); cbn [fs_flagged orb]; rewrite ?Hflag, ?orb_true_r; done.
  - done.
Qed.

(** ** The verdict *)

Definition scores_ok (l : list (string * spec_float)) : Prop := Forall (λ e, f64_ok e.2) l.

(** What a configuration's verdict is about: every category, or those with a threshold. *)
Definition judged (cfg : ResolvedClassifierConfig) (scores : btree string spec_float) : list (string * spec_float) :=
  match cc_category_thresholds cfg with [] => scores | thresholds => considered scores thresholds end.

Lemma considered_ok scores thresholds : scores_ok scores → scores_ok (considered scores thresholds).
Proof.
  intros Hscores. apply Forall_forall. intros x Hx. apply list_elem_of_omap in Hx as (e & _ & Hx).
  destruct (bt_get e.1 scores) as [score|] eqn:Hget; [|done]. injection Hx as <-.
  apply bt_get_Some_elem in Hget. unfold scores_ok in Hscores. rewrite Forall_forall in Hscores.
  exact (Hscores _ Hget).
Qed.

Lemma verdict_top cfg scores :
  (cv_label (fold_score_verdict cfg scores), cv_score (fold_score_verdict cfg scores)) =
  fold_left top_step (judged cfg scores) (None, f64_zero).
Proof.
  unfold fold_score_verdict, judged. destruct (cc_category_thresholds cfg) as [|t ts] eqn:Ht.
  - symmetry. apply surjective_pairing.
  - exact (proj1 (category_fold scores (t :: ts) (mkFold false None f64_zero (cc_threshold cfg) []))).
Qed.

Lemma verdict_flagged cfg scores :
  cv_flagged (fold_score_verdict cfg scores) =
  match cc_category_thresholds cfg with
  | [] => f64_ge (cv_score (fold_score_verdict cfg scores)) (cc_threshold cfg)
  | thresholds => existsb (reaches scores) thresholds
  end.
Proof.
  unfold fold_score_verdict. destruct (cc_category_thresholds cfg) as [|t ts]; [done|].
  exact (proj2 (category_fold scores (t :: ts) (mkFold false None f64_zero (cc_threshold cfg) []))).
Qed.

Lemma existsb_reaches scores thresholds :
  existsb (reaches scores) thresholds = true ↔
  ∃ c threshold score, (c, threshold) ∈ thresholds ∧ bt_get c scores = Some score ∧ f64_ge score threshold = true.
Proof.
  rewrite existsb_exists. unfold reaches. split.
  - intros ([c threshold] & Hin%list_elem_of_In & Hreach). cbn in Hreach.
    destruct (bt_get c scores) as [score|] eqn:Hget; [|done]. by exists c, threshold, score.
  - intros (c & threshold & score & Hin & Hget & Hge). exists (c, threshold).
    split; [by apply list_elem_of_In|]. cbn. by rewrite Hget.
Qed.

(** A verdict is flagged exactly when a judged score reaches its threshold, the category's own where
    thresholds per category are configured; its label is a judged category that no other outscores. *)
Theorem score_verdict_exact cfg scores :
  scores_ok scores → f64_ok (cc_threshold cfg) →
  let v := fold_score_verdict cfg scores in
  (cv_flagged v = true ↔
    match cc_category_thresholds cfg with
    | [] => f64_ge f64_zero (cc_threshold cfg) = true ∨
        ∃ c score, (c, score) ∈ scores ∧ f64_ge score (cc_threshold cfg) = true
    | thresholds => ∃ c threshold score, (c, threshold) ∈ thresholds ∧ bt_get c scores = Some score ∧
        f64_ge score threshold = true
    end) ∧
  (∀ c, cv_label v = Some c → (c, cv_score v) ∈ judged cfg scores ∧
    ∀ c' score', (c', score') ∈ judged cfg scores → f64_ge (cv_score v) score' = true).
Proof.
  intros Hscores Hthreshold v.
  assert (scores_ok (judged cfg scores)) as Hjudged.
  { unfold judged. destruct (cc_category_thresholds cfg); [done|by apply considered_ok]. }
  assert (f64_ok f64_zero) as Hzero by done.
  destruct (top_spec (judged cfg scores) None f64_zero Hzero Hjudged) as (Hok & Hwhere & Hle & Hall).
  rewrite <- (verdict_top cfg scores) in Hok, Hwhere, Hle, Hall. fold v in Hok, Hwhere, Hle, Hall.
  cbn [snd] in Hok, Hle, Hall. unfold scores_ok in Hscores, Hjudged. rewrite Forall_forall in Hscores, Hjudged, Hall.
  split.
  - unfold v. rewrite verdict_flagged. fold v. unfold judged in *.
    destruct (cc_category_thresholds cfg) as [|t ts]; [|apply existsb_reaches].
    rewrite f64_ge_units by done. split.
    + intros Hge. destruct Hwhere as [[= _ Hscore]|([c score] & He & [= _ Hscore])]; rewrite Hscore in Hge.
      * left. by apply f64_ge_units.
      * right. exists c, score. split; [done|]. apply f64_ge_units; [exact (Hscores _ He)|done|done].
    + intros [Hge|(c & score & He & Hge)]; apply f64_ge_units in Hge; try done; [lia| |exact (Hscores _ He)].
      specialize (Hall _ He). cbn in Hall. lia.
  - intros c Hc. destruct Hwhere as [[= Hnone _]|([c' score] & He & [= Hlabel Hscore])]; [congruence|].
    assert (c' = c) as -> by congruence. rewrite Hscore in *. split; [done|]. intros c'' score' Hin.
    apply f64_ge_units; [done|exact (Hjudged _ Hin)|exact (Hall _ Hin)].
Qed.

(** ** Witness and a gap *)

Definition demo_config (thresholds : list (string * spec_float)) : ResolvedClassifierConfig :=
  mkClassifierConfig "openai_moderation" "" (Some "key") 1000 f64_half thresholds [] JNull.

Lemma score_verdict_exact_witness :
  scores_ok [("hate", f64_one)] ∧ cv_flagged (fold_score_verdict (demo_config []) [("hate", f64_one)]) = true.
Proof.
  assert (scores_ok [("hate", f64_one)]) as Hscores by (repeat constructor; vm_compute; intuition congruence).
  split; [exact Hscores|].
  apply (proj1 (score_verdict_exact (demo_config []) [("hate", f64_one)] Hscores ltac:(vm_compute; intuition congruence))).
  right. exists "hate", f64_one. split; [left|vm_compute; reflexivity].
Defined.

(** A threshold for a category the provider does not report judges nothing:
    content the provider flagged, and scored 1, is allowed. *)
Lemma unreported_category_allows :
  openai_parse_response (demo_config [("haet", f64_half)])
    (JObject [("results", JArray [JObject [("category_scores", JObject [("hate", json_of_f64 f64_one)]);
      ("flagged", JBool true)]])]) =
  Ok (mkClassifierVerdict false f64_zero f64_half None None [("hate", f64_one)]).
Proof. vm_compute. reflexivity. Qed.
