(* ===== verification/DispatcherFacts.v ===== *)
(** * The bundled annotators: what they read, send and accept

    A URL-sourced invocation never sees the host's environment; every
    dispatch sends at most one request, to one URL, without redirects; and
    an annotation comes from one complete, bounded, successful response. *)

From S2P Require Import Prelude OrdMap RustStd Json Errors AgentHooks Constants Paths Hex Float64.
From S2P Require Import Limits Pins StdPath Policy Manifest Loader Http Calendar SigV4 Llm Classifier.

(** ** Bounded reads are exact *)

Lemma from_utf8_length b text : from_utf8 b = Ok text → str_len text = N.of_nat (length b).
Proof.
  unfold from_utf8. repeat case_match; try done. intros [= <-]. unfold str_len. f_equal.
  clear. induction b as [|c b IH]; cbn; [done|by rewrite IH].
Qed.

Lemma read_response_body_exact response body :
  read_response_body response = Ok body ↔
  (N.of_nat (length (rs_bytes response)) <= MAX_RESPONSE_BYTES)%N ∧ rs_error response = None ∧
  from_utf8 (rs_bytes response) = Ok body.
Proof.
  unfold read_response_body, take_read_to_string.
  destruct (decide (N.of_nat (length (rs_bytes response)) <= MAX_RESPONSE_BYTES)%N) as [Hle|Hgt].
  - rewrite firstn_all2 by lia. rewrite (proj2 (N.ltb_lt _ (MAX_RESPONSE_BYTES + 1))) by lia.
    destruct (from_utf8 (rs_bytes response)) as [text|] eqn:Htext; [|naive_solver].
    apply from_utf8_length in Htext. destruct (rs_error response); [naive_solver|].
    rewrite (proj2 (N.ltb_ge _ _)) by lia. naive_solver.
  - split; [|naive_solver]. rewrite (proj2 (N.ltb_ge _ (MAX_RESPONSE_BYTES + 1))) by lia.
    destruct (from_utf8 _) as [text|] eqn:Htext; [|done]. apply from_utf8_length in Htext.
    rewrite firstn_length_le in Htext by lia. rewrite (proj2 (N.ltb_lt _ _)) by lia. done.
Qed.

(** ** Runs that do not see the environment *)

Definition reads_env (a : DispatchAction) : Prop := match a with ActEnv _ => True | _ => False end.
Definition sends_post (a : DispatchAction) : Prop := match a with ActPost _ => True | _ => False end.

(** [m1] and [m2] are the same run, and it reads no environment variable. *)
Definition blind {W E A} (m1 m2 : sending W E A) : Prop :=
  ∀ s, m1 s = m2 s ∧ ∃ sent, sent_trace (m1 s).1 = sent_trace s ++ sent ∧ Forall (λ a, ¬ reads_env a) sent.

Section blind.
Context {W : Type}.

Lemma blind_pure {E A} (r : result E A) : blind (W := W) (pure r) (pure r).
Proof. intros s. split; [done|]. exists []. by rewrite app_nil_r. Qed.

Lemma blind_ret {E A} (a : A) : blind (W := W) (E := E) (mret a) (mret a).
Proof. exact (blind_pure (Ok a)). Qed.

Lemma blind_bind_if {E A B} (Q : A → Prop) (m1 m2 : sending W E A) (f1 f2 : A → sending W E B) :
  blind m1 m2 → (∀ s s' a, m1 s = (s', Ok a) → Q a) → (∀ a, Q a → blind (f1 a) (f2 a)) →
  blind (mbind f1 m1) (mbind f2 m2).
Proof.
  intros Hm HQ Hf s. unfold mbind, sending_bind. destruct (Hm s) as [<- (sent & Hsent & Hquiet)].
  destruct (m1 s) as [s' [a|e]] eqn:Hrun; cbn in Hsent.
  - destruct (Hf a (HQ _ _ _ Hrun) s') as [<- (more & Hmore & Hquiet')]. split; [done|].
    exists (sent ++ more). rewrite Hmore, Hsent, app_assoc. by split; [|apply Forall_app].
  - split; [done|]. by exists sent.
Qed.

Lemma blind_bind {E A B} (m1 m2 : sending W E A) (f1 f2 : A → sending W E B) :
  blind m1 m2 → (∀ a, blind (f1 a) (f2 a)) → blind (mbind f1 m1) (mbind f2 m2).
Proof. intros Hm Hf. by apply (blind_bind_if (λ _, True)). Qed.

Lemma blind_err {E F A} (f : E → F) (m1 m2 : sending W E A) :
  blind m1 m2 → blind (sending_err f m1) (sending_err f m2).
Proof.
  intros Hm s. unfold sending_err. destruct (Hm s) as [<- Hsent]. by destruct (m1 s) as [s' r].
Qed.

Lemma blind_if {E A} (b : bool) (m1 m2 n1 n2 : sending W E A) :
  blind m1 m2 → blind n1 n2 → blind (if b then m1 else n1) (if b then m2 else n2).
Proof. by destruct b. Qed.

(** Two hosts that differ at most in their environment. *)
Record same_host (h1 h2 : DispatchHost W) : Prop := {
  same_post w request : @http_post W h1 w request = @http_post W h2 w request;
  same_clock w : @unix_seconds W h1 w = @unix_seconds W h2 w }.

Context (h1 h2 : DispatchHost W) (Hsame : same_host h1 h2).

Lemma blind_env (name : string) :
  blind (@host_env_read W h1 true name) (@host_env_read W h2 true name).
Proof. intros s. split; [done|]. exists []. by rewrite app_nil_r. Qed.

Lemma blind_env_optional {E} (name : string) :
  blind (@host_env_read_optional W h1 E true name) (@host_env_read_optional W h2 E true name).
Proof. intros s. split; [done|]. exists []. by rewrite app_nil_r. Qed.

Lemma blind_post request : blind (@post W h1 request) (@post W h2 request).
Proof.
  intros s. unfold post. rewrite (same_post _ _ Hsame). split; [done|].
  destruct (@http_post W h2 _ _) as [w r]. exists [ActPost request]. by rewrite Forall_singleton; split; [|intros []].
Qed.

Lemma blind_clock : blind (@read_clock W h1) (@read_clock W h2).
Proof.
  intros s. unfold read_clock. rewrite (same_clock _ _ Hsame). split; [done|].
  exists []. by rewrite app_nil_r.
Qed.
End blind.

Create HintDb blind.
#[export] Hint Resolve blind_pure blind_ret blind_err blind_env blind_env_optional blind_post blind_clock : blind.

(** Step through a computation that is the same on both sides. *)
Ltac blind_step :=
  match goal with
  | |- blind (mbind _ _) (mbind _ _) => apply blind_bind; [|intros]
  | |- blind (if ?b then _ else _) _ => destruct b
  | |- blind (match ?x with _ => _ end) _ => destruct x
  | |- blind (sending_err _ _) _ => apply blind_err
  | _ => progress (unfold mret, sending_ret; cbn zeta)
  end.
Ltac blind_solve := repeat (first [solve [eauto with blind] | blind_step]).

Section isolation.
Context {W : Type} (h1 h2 : DispatchHost W) (Hsame : same_host h1 h2).
Context `{AgentHooksLaws} `{UrlCrate} `{SerdeJson} `{SerdeValue} `{Sha2} `{HttpCrate} `{LoaderHost W}.

Lemma blind_post_json name url payload credential timeout :
  blind (@post_json W h1 _ _ _ name url payload credential timeout)
    (@post_json W h2 _ _ _ name url payload credential timeout).
Proof. unfold post_json. blind_solve. Qed.

Lemma blind_send request :
  blind (@send_transport_request W h1 request) (@send_transport_request W h2 request).
Proof. unfold send_transport_request. blind_solve. Qed.

Lemma blind_endpoint name annotator input :
  blind (@endpoint_dispatch W h1 _ _ _ _ name annotator input)
    (@endpoint_dispatch W h2 _ _ _ _ name annotator input).
Proof. unfold endpoint_dispatch. blind_solve; apply blind_post_json. Qed.

(** *** The LLM annotator *)

Lemma blind_secret name direct env_name default_env :
  blind (@secret_field_or_env W h1 name direct env_name default_env true)
    (@secret_field_or_env W h2 name direct env_name default_env true).
Proof. unfold secret_field_or_env, host_env. blind_solve. Qed.

Lemma blind_reject_api_key name fields default_env :
  blind (@reject_api_key_env W h1 name fields true default_env)
    (@reject_api_key_env W h2 name fields true default_env).
Proof. unfold reject_api_key_env, host_env. blind_solve. Qed.

Lemma blind_reject name provider fields :
  blind (@reject_pre_fetch_host_env_access W h1 name provider fields true)
    (@reject_pre_fetch_host_env_access W h2 name provider fields true).
Proof.
  unfold reject_pre_fetch_host_env_access. cbn [negb].
  pose proof (blind_reject_api_key name fields) as Hkey. pose proof (blind_secret name) as Hsecret.
  destruct provider; blind_solve; unfold host_env; blind_solve.
Qed.

Lemma blind_prompt name fields limits :
  blind (W := W) (prompt_text name fields limits) (prompt_text name fields limits).
Proof.
  unfold prompt_text. apply blind_bind; [apply blind_pure|]. intros [source|]; [|apply blind_ret].
  apply blind_err. intros s. split; [done|]. unfold fetch_prompt.
  destruct (fetch_pinned_https_text _ _ _) as [l r]. cbn. eexists. split; [reflexivity|].
  apply Forall_forall. intros a Ha. apply list_elem_of_omap in Ha as (x & _ & Hx).
  destruct x; simplify_eq/=; tauto.
Qed.

Lemma blind_config name fields limits :
  blind (@llm_config_from_fields W h1 _ _ _ name fields true limits)
    (@llm_config_from_fields W h2 _ _ _ name fields true limits).
Proof.
  unfold llm_config_from_fields. cbn zeta.
  apply blind_bind; [apply blind_pure|]. intros provider.
  apply blind_bind; [apply blind_reject|]. intros [].
  apply blind_bind; [apply blind_prompt|]. intros prompt. blind_solve.
Qed.

Lemma config_url_sourced (h : DispatchHost W) name fields limits s s' cfg :
  @llm_config_from_fields W h _ _ _ name fields true limits s = (s', Ok cfg) → lc_url_sourced cfg = true.
Proof.
  unfold llm_config_from_fields, mbind, sending_bind. intros Hrun.
  repeat match type of Hrun with
  | context [match ?m with _ => _ end] => destruct m as [? [?|?]]; try done
  end. by injection Hrun as _ <-.
Qed.

Lemma blind_key cfg name default_env :
  lc_url_sourced cfg = true →
  blind (@secret_from_field_or_env W h1 cfg name default_env)
    (@secret_from_field_or_env W h2 cfg name default_env).
Proof. intros Hurl. unfold secret_from_field_or_env, host_env. rewrite Hurl. blind_solve. Qed.

Lemma blind_bedrock name cfg target :
  lc_url_sourced cfg = true →
  blind (@bedrock_request W h1 _ _ name cfg target) (@bedrock_request W h2 _ _ name cfg target).
Proof.
  intros Hurl. unfold bedrock_request, bedrock_region, bedrock_session_token, host_env. rewrite Hurl.
  pose proof (blind_secret name) as Hsecret. blind_solve.
Qed.

Lemma blind_request name cfg target :
  lc_url_sourced cfg = true →
  blind (@request_for_provider W h1 _ _ name cfg target) (@request_for_provider W h2 _ _ name cfg target).
Proof.
  intros Hurl. unfold request_for_provider. pose proof (blind_key cfg name) as Hkey.
  destruct (lc_provider cfg); [..| |]; try by apply blind_bedrock.
  all: unfold openai_request, azure_openai_request, gemini_request, ollama_request; blind_solve.
Qed.

Lemma blind_llm name annotator input limits :
  invocation_url_sourced annotator = true →
  blind (@llm_dispatch W h1 _ _ _ _ _ _ name annotator input limits)
    (@llm_dispatch W h2 _ _ _ _ _ _ name annotator input limits).
Proof.
  intros Hurl. unfold llm_dispatch, llm_dispatch_with_transport. rewrite Hurl.
  apply blind_if; [apply blind_pure|].
  eapply (blind_bind_if (λ cfg, lc_url_sourced cfg = true));
    [apply blind_config|intros s s' cfg; apply config_url_sourced|].
  intros cfg Hcfg. pose proof (blind_request name cfg) as Hrequest. pose proof blind_send as Hsend.
  blind_solve.
Qed.

(** *** The classifiers *)

Lemma blind_env_api_key name annotator :
  invocation_url_sourced annotator = true →
  blind (@env_api_key W h1 name annotator) (@env_api_key W h2 name annotator).
Proof. intros Hurl. unfold env_api_key. rewrite Hurl. blind_solve. Qed.

Lemma blind_classifier_config fields :
  blind (@classifier_config_from_fields W h1 fields true) (@classifier_config_from_fields W h2 fields true).
Proof. unfold classifier_config_from_fields. cbn zeta. blind_solve. Qed.

Section providers.
Context (t1 t2 : TransportRequest → sending W string TransportResponse).
Context (Ht : ∀ request, blind (t1 request) (t2 request)).
#[local] Hint Resolve Ht : blind.

Lemma blind_providers cfg subject :
  blind (aacs_classify cfg subject t1) (aacs_classify cfg subject t2) ∧
  blind (openai_moderation_classify cfg subject t1) (openai_moderation_classify cfg subject t2) ∧
  blind (perspective_classify cfg subject t1) (perspective_classify cfg subject t2) ∧
  blind (llama_guard_classify cfg subject t1) (llama_guard_classify cfg subject t2) ∧
  blind (lakera_guard_classify cfg subject t1) (lakera_guard_classify cfg subject t2).
Proof.
  unfold aacs_classify, openai_moderation_classify, perspective_classify, llama_guard_classify,
    lakera_guard_classify. split_and!; blind_solve.
Qed.

Lemma blind_classify_fuel fuel cfg subject :
  match classify_fuel fuel cfg subject t1, classify_fuel fuel cfg subject t2 with
  | Some m1, Some m2 => blind m1 m2
  | None, None => True
  | _, _ => False
  end.
Proof.
  revert cfg. induction fuel as [|fuel IH]; intros cfg; cbn [classify_fuel]; [done|].
  destruct (blind_providers cfg subject) as (? & ? & ? & ? & ?).
  repeat (case_bool_decide; [try done|]); [|apply blind_pure].
  destruct (resolve_target cfg); [apply IH|apply blind_pure].
Qed.

Lemma blind_classify cfg subject : blind (classify cfg subject t1) (classify cfg subject t2).
Proof.
  unfold classify. pose proof (blind_classify_fuel 2 cfg subject) as Hfuel.
  destruct (classify_fuel 2 cfg subject t1), (classify_fuel 2 cfg subject t2); try done. apply blind_pure.
Qed.
End providers.

Lemma blind_classifier name annotator input :
  invocation_url_sourced annotator = true →
  blind (@classifier_dispatch W h1 _ _ _ _ name annotator input)
    (@classifier_dispatch W h2 _ _ _ _ name annotator input).
Proof.
  intros Hurl. unfold classifier_dispatch. apply blind_if; [apply blind_pure|].
  apply blind_bind; [apply blind_pure|]. intros target.
  destruct (optional_string_field _ _).
  - unfold dispatch_bundled_with_transport. rewrite Hurl.
    apply blind_bind; [apply blind_err, blind_classifier_config|]. intros cfg.
    apply blind_bind; [apply blind_err, blind_classify, blind_send|]. intros verdict. apply blind_ret.
  - unfold dispatch_generic. cbn zeta. pose proof (blind_env_api_key name annotator Hurl) as Hkey.
    pose proof (blind_post_json name) as Hpost. blind_solve.
Qed.

Lemma blind_dispatch limits name annotator input :
  invocation_url_sourced annotator = true →
  blind (@annotator_dispatch_default W h1 _ _ _ _ _ _ limits name annotator input)
    (@annotator_dispatch_default W h2 _ _ _ _ _ _ limits name annotator input).
Proof.
  intros Hurl. unfold annotator_dispatch_default. destruct (_ ≫= as_str) as [kind|]; [|apply blind_pure].
  repeat (apply blind_if; [first [by apply blind_classifier|by apply blind_llm|apply blind_endpoint]|]).
  apply blind_pure.
Qed.
End isolation.

(** What a bundled annotator does for an invocation from a URL-sourced manifest does not depend on the
    host's environment: two hosts that differ only there give the same run and the same answer, and no
    environment variable is read. *)
Theorem url_sourced_environment_free {W} (h1 h2 : DispatchHost W)
  `{UrlCrate} `{SerdeJson} `{SerdeValue} `{Sha2} `{HttpCrate} `{LoaderHost W} limits name annotator input s :
  same_host h1 h2 → invocation_url_sourced annotator = true →
  let run1 := annotator_dispatch_default (H := h1) limits name annotator input s in
  let run2 := annotator_dispatch_default (H := h2) limits name annotator input s in
  run1 = run2 ∧ ∃ sent, sent_trace run1.1 = sent_trace s ++ sent ∧ Forall (λ a, ¬ reads_env a) sent.
Proof. intros Hsame Hurl. exact (blind_dispatch h1 h2 Hsame limits name annotator input Hurl s). Qed.

(** ** The gate before any request *)

(** A credential the invocation would have to take from the environment. *)
Definition needs_host_env (provider : LlmProvider) (fields : fields_map) : bool :=
  let missing name := bool_decide (optional_string_field fields name = None) in
  match provider with
  | OpenAi | AzureOpenAi | Gemini => missing FIELD_API_KEY
  | OpenAiCompatible => missing FIELD_API_KEY && negb (missing FIELD_API_KEY_ENV)
  | Ollama => false
  | Bedrock => missing FIELD_AWS_REGION || missing FIELD_AWS_ACCESS_KEY_ID || missing FIELD_AWS_SECRET_ACCESS_KEY
  end.

Lemma reject_key_exact {W} `{DispatchHost W} name fields default_env s :
  reject_api_key_env name fields true default_env s =
  (s, match optional_string_field fields FIELD_API_KEY,
            (match optional_string_field fields FIELD_API_KEY_ENV with Some n => Some n | None => default_env end) with
      | None, Some env_name => Err (failed name (host_env_refusal env_name))
      | _, _ => Ok ()
      end).
Proof.
  unfold reject_api_key_env. destruct (optional_string_field fields FIELD_API_KEY); [done|].
  by destruct (optional_string_field fields FIELD_API_KEY_ENV); [|destruct default_env].
Qed.

Lemma reject_exact {W} `{DispatchHost W} name provider fields s :
  (reject_pre_fetch_host_env_access name provider fields true s).1 = s ∧
  (is_ok (reject_pre_fetch_host_env_access name provider fields true s).2 = negb (needs_host_env provider fields)).
Proof.
  unfold reject_pre_fetch_host_env_access, needs_host_env. cbn [negb].
  destruct provider; rewrite ?reject_key_exact; cbn [fst snd]; try done.
  1,2,3,5: destruct (optional_string_field fields FIELD_API_KEY), (optional_string_field fields FIELD_API_KEY_ENV); done.
  unfold mbind, sending_bind, secret_field_or_env, host_env, sending_err, host_env_read.
  destruct (optional_string_field fields FIELD_AWS_REGION); [|done].
  destruct (optional_string_field fields FIELD_AWS_ACCESS_KEY_ID); [|done].
  by destruct (optional_string_field fields FIELD_AWS_SECRET_ACCESS_KEY).
Qed.

(** An LLM invocation from a URL-sourced manifest that would need a credential of the host is refused
    before anything is fetched or sent: not the pinned prompt, not the inference request. *)
Theorem refused_before_any_request {W} `{DispatchHost W}
  `{UrlCrate} `{SerdeJson} `{SerdeValue} `{Sha2} `{HttpCrate} `{LoaderHost W} limits name annotator input s provider :
  invocation_url_sourced annotator = true →
  provider_parse (optional_string_field (invocation_fields annotator) FIELD_PROVIDER) = Ok provider →
  needs_host_env provider (invocation_fields annotator) = true →
  ∃ e, llm_dispatch name annotator input limits s = (s, Err e).
Proof.
  intros Hurl Hprovider Hneeds.
  assert (∃ e, llm_config_from_fields name (invocation_fields annotator) true limits s = (s, Err e)) as [e He].
  { destruct (reject_exact name provider (invocation_fields annotator) s) as [Hstate Hres].
    rewrite Hneeds in Hres. destruct (reject_pre_fetch_host_env_access _ _ _ _ _) as [s' [[]|e]] eqn:Hrun; [done|].
    cbn in Hstate. subst s'. exists e. unfold llm_config_from_fields. cbn zeta. rewrite Hprovider.
    unfold mbind, sending_bind, pure. cbn [map_err]. by rewrite Hrun. }
  unfold llm_dispatch, llm_dispatch_with_transport. destruct (negb _); [by eexists|]. rewrite Hurl.
  unfold mbind, sending_bind. rewrite He. by exists e.
Qed.

(** ** Witnesses *)

Module Demo.
Definition demo_host (env : string → option string) : DispatchHost () := {|
  env_var _ := env;
  http_post w _ := (w, Ok (mkRawResponse 200 (String.list_ascii_of_string "{}") None));
  unix_seconds _ := Ok 0%N |}.

#[export] Instance demo_loader_host : LoaderHost () := {|
  fs_canonicalize w p := (w, Ok p);
  fs_read w _ _ := (w, Err "no file");
  http_get w _ _ := (w, Err "no network");
  deadline_fits _ _ := true |}.

#[export] Instance demo_http : HttpCrate := {| canonical_reason _ := None |}.
#[export] Instance demo_json : SerdeValue := {| value_from_str _ := Ok (JObject []) |}.

(** An OpenAI judge of a fetched document, without a credential. *)
Definition demo_judge : AnnotatorInvocation :=
  mkInvocation true [("from", JString "$.input"); ("type", JString "llm")].

Lemma demo_same_host env1 env2 : same_host (demo_host env1) (demo_host env2).
Proof. by split. Qed.
End Demo.

Section witnesses.
Import Demo.
#[local] Existing Instances demo_loader_host demo_http demo_json.
#[local] Existing Instance Concrete.demo_serde.
#[local] Existing Instance Concrete.demo_sha.
#[local] Existing Instance Pins.demo_url.

Lemma url_sourced_environment_free_witness :
  annotator_dispatch_default (H := demo_host (λ _, Some "secret")) Limits.default_limits "judge" demo_judge JNull
    (mkSent () []) =
  annotator_dispatch_default (H := demo_host (λ _, None)) Limits.default_limits "judge" demo_judge JNull (mkSent () []).
Proof.
  exact (proj1 (url_sourced_environment_free (demo_host (λ _, Some "secret")) (demo_host (λ _, None))
    Limits.default_limits "judge" demo_judge JNull (mkSent () []) (demo_same_host _ _) eq_refl)).
Defined.

Lemma refused_before_any_request_witness :
  ∃ e, llm_dispatch (H := demo_host (λ _, Some "secret")) "judge" demo_judge JNull Limits.default_limits
    (mkSent () []) = (mkSent () [], Err e).
Proof.
  apply (refused_before_any_request (H := demo_host (λ _, Some "secret")) Limits.default_limits "judge" demo_judge JNull
    (mkSent () []) OpenAi); vm_compute; reflexivity.
Defined.
End witnesses.
