(* ===== verification/MergeFacts.v ===== *)
(** * Theorems on composition

    Merging is additive, and ownership survives it: what a host document
    wrote stays the host's whatever the order of the chain. *)

From S2P Require Import Prelude OrdMap RustStd Json Errors AgentHooks Constants Paths PolicyInput.
From S2P Require Import Limits Hex Pins Policy Manifest ManifestMerge Concrete Samples.

Section merge_facts.
Context `{AgentHooksLaws} `{UrlCrate} `{SerdeJson}.

(** A map in which each key of either side has its one value. *)
Definition additive {T} (existing incoming merged : btree string T) : Prop :=
  (∀ k, bt_get k merged = match bt_get k existing with Some v => Some v | None => bt_get k incoming end) ∧
  (∀ k v v', bt_get k existing = Some v → (k, v') ∈ incoming → v = v').

(** Merging is additive or it fails. In the merge of two manifests
    every policy, tool and annotator of either side appears with its one
    definition and nothing else does; a point that both sides name has
    the same target, kind, tool path and policy on both sides, and only
    its annotations are the union of the two; the approval section is the
    one either side declares. *)
Theorem merge_additive existing incoming source m :
  merge_manifest existing incoming source = Ok m → NoDup (bt_keys (intervention_points incoming)) →
  additive (policies existing) (policies incoming) (policies m) ∧
  additive (tools existing) (tools incoming) (tools m) ∧
  additive (annotators existing) (annotators incoming) (annotators m) ∧
  (approval m = match approval existing with Some a => Some a | None => approval incoming end) ∧
  ∀ point,
    match bt_get point (intervention_points existing), bt_get point (intervention_points incoming) with
    | Some e, Some i => ∃ c, bt_get point (intervention_points m) = Some c ∧
        policy_target c = policy_target e ∧ policy_target e = policy_target i ∧
        policy_target_kind c = policy_target_kind e ∧ policy_target_kind e = policy_target_kind i ∧
        tool_name_from c = tool_name_from e ∧ tool_name_from e = tool_name_from i ∧
        point_policy c = point_policy e ∧ point_policy e = point_policy i ∧
        (∀ k, bt_get k (point_annotations c) = match bt_get k (point_annotations e) with
          | Some a => Some a | None => bt_get k (point_annotations i) end)
    | Some e, None => bt_get point (intervention_points m) = Some e
    | None, i => bt_get point (intervention_points m) = i
    end.
Proof.
  intros Hm Hnd. apply merge_Ok in Hm as (_ & _ & _ & Htools & Hann & Hpol & Hpts & Happ & _).
  split_and!; try (by eapply merge_map_get).
  - unfold merge_approval in Happ. destruct (approval incoming), (approval existing); try by inv_ok.
    case_decide; by inv_ok.
  - intros point. pose proof (merge_points_get _ _ _ _ Hpts Hnd point) as Hp.
    destruct (bt_get point (intervention_points existing)), (bt_get point (intervention_points incoming)); try done.
    destruct Hp as (c & Hc & Hm). exists c. split; [done|]. by eapply merge_point_Ok.
Qed.

(** ** Ownership *)

Lemma elem_of_dedup x l : x ∈ dedup l ↔ x ∈ l.
Proof.
  induction l as [|y l IH]; [done|]. destruct l as [|z l]; [done|].
  change (dedup (y :: z :: l)) with (if decide (y = z) then dedup (z :: l) else y :: dedup (z :: l)).
  case_decide; set_solver.
Qed.

Lemma elem_of_merge_url_sources x l k : x ∈ merge_url_sources l k ↔ x ∈ l ∨ x ∈ k.
Proof.
  unfold merge_url_sources. rewrite elem_of_dedup. unfold sort_strings.
  by rewrite sort_by_Permutation, elem_of_app.
Qed.

(** The host's own declarations and bindings. *)
Definition owns_annotator (m : Manifest) (name : string) : Prop :=
  name ∈ bt_keys (annotators m) ∧ name ∉ url_sourced_annotators m.
Definition owns_binding (m : Manifest) (b : InterceptionPoint * string) : Prop :=
  b ∈ point_bindings (intervention_points m) ∧ b ∉ url_sourced_annotations m.

(** The provenance sets name only what the document declares, and its maps
    are maps. *)
Record provenance_wf (m : Manifest) : Prop := {
  pw_metadata : json_wf (JObject (metadata m));
  pw_points : bt_wf (intervention_points m);
  pw_annotators : ∀ name, name ∈ url_sourced_annotators m → name ∈ bt_keys (annotators m);
  pw_bindings : ∀ b, b ∈ url_sourced_annotations m → b ∈ point_bindings (intervention_points m) }.

Lemma elem_of_point_bindings points p n :
  bt_wf points →
  (p, n) ∈ point_bindings points ↔ ∃ c, bt_get p points = Some c ∧ n ∈ bt_keys (point_annotations c).
Proof.
  intros Hwf. unfold point_bindings. rewrite list_elem_of_bind. split.
  - intros ([q c] & Hin & Hq). apply list_elem_of_fmap in Hin as (k & [= -> ->] & Hk).
    exists c. split; [by apply bt_elem_get|done].
  - intros (c & Hc & Hn). exists (p, c). split; [|by apply bt_get_Some_elem].
    apply list_elem_of_fmap. by exists n.
Qed.

Lemma merge_points_wf existing incoming merged source :
  merge_intervention_points existing incoming source = Ok merged → bt_wf existing → bt_wf merged.
Proof.
  unfold merge_intervention_points. revert existing.
  induction incoming as [|[p config] incoming IH]; intros existing Hm Hwf; cbn in Hm; [by injection Hm as <-|].
  apply bind_Ok in Hm as (next & Hnext & Hm). apply (IH next Hm).
  destruct (bt_get p existing); [apply bind_Ok in Hnext as (c & _ & [= <-])|injection Hnext as <-];
    by apply bt_insert_wf.
Qed.

Lemma merge_bindings existing incoming merged source b :
  merge_intervention_points existing incoming source = Ok merged →
  bt_wf existing → bt_wf incoming →
  b ∈ point_bindings merged ↔ b ∈ point_bindings existing ∨ b ∈ point_bindings incoming.
Proof.
  destruct b as [p n]. intros Hm He Hi. rewrite !elem_of_point_bindings by (try done; by eapply merge_points_wf).
  pose proof (merge_points_get _ _ _ _ Hm (bt_wf_NoDup _ Hi) p) as Hp.
  destruct (bt_get p existing) as [e|], (bt_get p incoming) as [i|]; try naive_solver.
  destruct Hp as (c & Hc & Hmc). apply merge_point_Ok in Hmc as (_ & _ & _ & _ & _ & _ & _ & _ & Hget).
  assert (n ∈ bt_keys (point_annotations c) ↔
    n ∈ bt_keys (point_annotations e) ∨ n ∈ bt_keys (point_annotations i)) as Hkeys.
  { rewrite <-!bt_contains_keys, !bt_contains_get, Hget. destruct (bt_get n (point_annotations e)); naive_solver. }
  naive_solver.
Qed.

(** ** Metadata *)

(** One key of the two objects: an equal value is kept, and two objects are
    merged in their turn. *)
Lemma merge_metadata_get incoming existing path source merged :
  merge_metadata_value (JObject incoming) existing path source = Ok merged → NoDup (bt_keys incoming) →
  ∀ k, match bt_get k existing, bt_get k incoming with
    | Some e, Some i => bt_get k merged = Some e ∧ e = i ∨
        ∃ eo io mo, e = JObject eo ∧ i = JObject io ∧
          merge_metadata_value i eo (path +:+ "." +:+ k) source = Ok mo ∧ bt_get k merged = Some (JObject mo)
    | Some e, None => bt_get k merged = Some e
    | None, i => bt_get k merged = i
    end.
Proof.
  cbn [merge_metadata_value]. revert existing.
  induction incoming as [|[key value] incoming IH]; intros existing Hm Hnd k; cbn in Hm.
  { injection Hm as <-. by destruct (bt_get k existing). }
  apply NoDup_cons in Hnd as [Hkey Hnd]. cbn in Hkey. apply bind_Ok in Hm as (next & Hnext & Hm).
  specialize (IH next Hm Hnd k). cbn [bt_get].
  assert (bt_get key incoming = None) as Hnone by (by apply bt_get_None).
  destruct (decide (k = key)) as [->|Hne].
  - rewrite Hnone in IH. destruct (bt_get key existing) as [e|] eqn:He.
    + destruct (decide (e = value)) as [->|Hneq].
      { injection Hnext as <-. rewrite He in IH. by left. }
      destruct e as [| | | | |eo]; try done. destruct value as [| | | | |io]; try done.
      apply bind_Ok in Hnext as (mo & Hmo & [= <-]). rewrite bt_get_insert_eq in IH.
      right. by exists eo, io, mo.
    + injection Hnext as <-. by rewrite bt_get_insert_eq in IH.
  - assert (bt_get k next = bt_get k existing) as Hsame.
    { destruct (bt_get key existing) as [e|]; [|injection Hnext as <-; by rewrite bt_get_insert_ne].
      destruct (decide (e = value)); [by injection Hnext as <-|].
      destruct e as [| | | | |eo]; try done. destruct value as [| | | | |io]; try done.
      apply bind_Ok in Hnext as (mo & _ & [= <-]). by rewrite bt_get_insert_ne. }
    by rewrite Hsame in IH.
Qed.

Lemma json_wf_children m k v : json_wf (JObject m) → bt_get k m = Some v → json_wf v.
Proof.
  intros Hwf Hv. inversion Hwf as [| | | | |? _ Hall]; subst. rewrite Forall_forall in Hall.
  by apply (Hall (k, v)), bt_get_Some_elem.
Qed.

Lemma json_wf_insert m k v : json_wf (JObject m) → json_wf v → json_wf (JObject (bt_insert k v m)).
Proof.
  intros Hwf Hv. inversion Hwf as [| | | | |? Hm Hall]; subst. constructor; [by apply bt_insert_wf|].
  apply Forall_forall. intros e [->|Hin]%elem_of_bt_insert_inv; [done|]. rewrite Forall_forall in Hall. by apply Hall.
Qed.

Lemma merge_metadata_wf v existing path source merged :
  merge_metadata_value v existing path source = Ok merged →
  json_wf (JObject existing) → json_wf v → json_wf (JObject merged).
Proof.
  revert existing path merged. induction v as [| | | | |incoming IH] using JsonValue_ind;
    intros existing path merged Hm; cbn [merge_metadata_value] in Hm; try (by injection Hm as <-).
  intros Hwf Hin. inversion Hin as [| | | | |? _ Hall]; subst. clear Hin.
  revert existing Hm Hwf. induction incoming as [|[key value] incoming IHl]; intros existing Hm Hwf; cbn in Hm;
    [by injection Hm as <-|].
  apply Forall_cons in IH as [IHv IH]. apply Forall_cons in Hall as [Hv Hall]. cbn in IHv, Hv.
  apply bind_Ok in Hm as (next & Hnext & Hm). apply (IHl IH Hall next Hm).
  destruct (bt_get key existing) as [e|] eqn:He; [|injection Hnext as <-; by apply json_wf_insert].
  destruct (decide (e = value)); [by injection Hnext as <-|].
  destruct e as [| | | | |eo]; try done. destruct value as [| | | | |io]; try done.
  apply bind_Ok in Hnext as (mo & Hmo & [= <-]). apply json_wf_insert; [done|].
  eapply IHv; [exact Hmo| |done]. by eapply json_wf_children.
Qed.

(** What stands at a path of members: a value, or an object, of which its
    own members say more. *)
Fixpoint member_at (path : list string) (v : JsonValue) : option JsonValue :=
  match path with
  | [] => Some v
  | k :: path => child ← json_get k v; member_at path child
  end.

Definition stands_at (path : list string) (x : option JsonValue) (v : JsonValue) : Prop :=
  ∃ found, member_at path v = Some found ∧ match found with JObject _ => x = None | _ => x = Some found end.

Lemma stands_at_cons k path x m :
  stands_at (k :: path) x (JObject m) ↔ ∃ child, bt_get k m = Some child ∧ stands_at path x child.
Proof.
  unfold stands_at. cbn [member_at json_get]. split.
  - intros (found & Hf & Hx). destruct (bt_get k m) as [child|]; [|done]. exists child. split; [done|]. by exists found.
  - intros (child & -> & Hf). exact Hf.
Qed.

Lemma merge_metadata_stands v existing path source merged at_ x :
  merge_metadata_value v existing path source = Ok merged → json_wf v → (∃ incoming, v = JObject incoming) →
  stands_at at_ x (JObject merged) ↔ stands_at at_ x (JObject existing) ∨ stands_at at_ x v.
Proof.
  revert v existing path merged. induction at_ as [|k at_ IH]; intros v existing path merged Hm Hwf [incoming ->].
  { unfold stands_at. cbn. split; [intros (? & [= <-] & ->); left; by eexists|].
    intros [(? & [= <-] & ->)|(? & [= <-] & ->)]; by eexists. }
  rewrite !stands_at_cons. inversion Hwf as [| | | | |? Hin _]; subst.
  pose proof (merge_metadata_get _ _ _ _ _ Hm (bt_wf_NoDup _ Hin) k) as Hk.
  destruct (bt_get k existing) as [e|] eqn:He, (bt_get k incoming) as [i|] eqn:Hi.
  - destruct Hk as [[-> ->]|(eo & io & mo & -> & -> & Hmo & ->)]; [naive_solver|].
    specialize (IH _ _ _ _ Hmo (json_wf_children _ _ _ Hwf Hi) (ex_intro _ io eq_refl)). naive_solver.
  - rewrite Hk. naive_solver.
  - rewrite Hk. naive_solver.
  - rewrite Hk. naive_solver.
Qed.

(** The metadata of a merge: what stands in either, and nothing else. *)
Lemma merge_metadata_says existing incoming source merged :
  merge_metadata existing incoming source = Ok merged →
  json_wf (JObject existing) → json_wf (JObject incoming) →
  json_wf (JObject merged) ∧ ∀ path x,
    stands_at path x (JObject merged) ↔ stands_at path x (JObject existing) ∨ stands_at path x (JObject incoming).
Proof.
  assert (∀ m path x, stands_at path x (JObject []) → stands_at path x (JObject m)) as Hempty.
  { intros m [|k path] x; [|by intros (? & ? & _)%stands_at_cons].
    intros (? & [= <-] & ->). by eexists. }
  unfold merge_metadata. intros Hm He Hi. repeat case_bool_decide; subst.
  - injection Hm as <-. split; [done|]. naive_solver.
  - injection Hm as <-. split; [done|]. naive_solver.
  - destruct (decide (existing = incoming)) as [->|]; [injection Hm as <-; split; [done|]; naive_solver|].
    split; [by eapply merge_metadata_wf|]. intros path x. eapply merge_metadata_stands; [exact Hm|done|by eexists].
Qed.

Lemma merge_Ok_metadata existing incoming source m :
  merge_manifest existing incoming source = Ok m →
  merge_metadata (metadata existing) (metadata incoming) source = Ok (metadata m).
Proof.
  unfold merge_manifest. destruct (negb _); [done|]. intros Hm.
  repeat (apply bind_Ok in Hm as (? & ? & Hm)). by injection Hm as <-.
Qed.

Lemma merge_ownership existing incoming source m :
  merge_manifest existing incoming source = Ok m → provenance_wf existing → provenance_wf incoming →
  provenance_wf m ∧
  (∀ name, owns_annotator m name ↔ owns_annotator existing name ∨ owns_annotator incoming name) ∧
  (∀ b, owns_binding m b ↔ owns_binding existing b ∨ owns_binding incoming b) ∧
  (∀ s, s ∈ url_sources m ↔ s ∈ url_sources existing ∨ s ∈ url_sources incoming).
Proof.
  intros Hm [Hme Hpe Hae Hbe] [Hmi Hpi Hai Hbi].
  pose proof (merge_metadata_says _ _ _ _ (merge_Ok_metadata _ _ _ _ Hm) Hme Hmi) as [Hmeta _].
  apply merge_Ok in Hm as (_ & _ & _ & _ & Hann & _ & Hpts & _ & Hsrc & Husa & Husb).
  pose proof (λ k, merge_map_keys _ _ _ _ _ Hann k) as Hkeys.
  pose proof (λ b, merge_bindings _ _ _ _ b Hpts Hpe Hpi) as Hbind.
  unfold owns_annotator, owns_binding. cbn [host_written host_annotators host_annotations] in *.
  assert (∀ name, name ∈ url_sourced_annotators m ↔
    (name ∈ url_sourced_annotators existing ∨ name ∈ url_sourced_annotators incoming) ∧
    ¬ owns_annotator existing name ∧ ¬ owns_annotator incoming name) as HA.
  { intros name. rewrite Husa. unfold owns_annotator.
    rewrite elem_of_difference, !elem_of_union, !elem_of_list_to_set, !list_elem_of_filter. tauto. }
  assert (∀ b, b ∈ url_sourced_annotations m ↔
    (b ∈ url_sourced_annotations existing ∨ b ∈ url_sourced_annotations incoming) ∧
    ¬ owns_binding existing b ∧ ¬ owns_binding incoming b) as HB.
  { intros b. rewrite Husb. unfold owns_binding.
    rewrite elem_of_difference, !elem_of_union, !elem_of_list_to_set, !list_elem_of_filter. tauto. }
  unfold owns_annotator, owns_binding in HA, HB. split_and!.
  - split; [done|by eapply merge_points_wf| |].
    + intros name Hn. apply Hkeys. apply HA in Hn as [[?|?] _]; [left; auto|right; auto].
    + intros b Hb. apply Hbind. apply HB in Hb as [[?|?] _]; [left; auto|right; auto].
  - intros name. rewrite HA, Hkeys.
    destruct (decide (name ∈ url_sourced_annotators existing)), (decide (name ∈ url_sourced_annotators incoming)),
      (decide (name ∈ bt_keys (annotators existing))), (decide (name ∈ bt_keys (annotators incoming))); tauto.
  - intros b. rewrite HB, Hbind.
    destruct (decide (b ∈ url_sourced_annotations existing)), (decide (b ∈ url_sourced_annotations incoming)),
      (decide (b ∈ point_bindings (intervention_points existing))),
      (decide (b ∈ point_bindings (intervention_points incoming))); tauto.
  - intros s. rewrite Hsrc. apply elem_of_merge_url_sources.
Qed.

(** ** What a manifest says

    Its version, an entry of its metadata, a definition, a point with its
    policy, a binding of an annotator, or the ownership of a declaration or
    a binding. *)

Inductive statement : Type :=
  | SayVersion (version : string)
  | SayMetadata (path : list string) (x : option JsonValue)
  | SayPolicy (id : string) (config : PolicyConfig)
  | SayTool (name : string) (config : ToolConfig)
  | SayAnnotator (name : string) (config : AnnotatorConfig)
  | SayApproval (section : ApprovalSection)
  | SayPoint (point : InterceptionPoint) (target : string) (kind tool_name : option string)
      (binding : PolicyBinding)
  | SayBinding (point : InterceptionPoint) (name : string) (config : AnnotationConfig)
  | OwnAnnotator (name : string)
  | OwnBinding (point : InterceptionPoint) (name : string).

Definition says (m : Manifest) (x : statement) : Prop :=
  match x with
  | SayVersion version => trim (spec_version m) = version
  | SayMetadata path x => stands_at path x (JObject (metadata m))
  | SayPolicy id config => bt_get id (policies m) = Some config
  | SayTool name config => bt_get name (tools m) = Some config
  | SayAnnotator name config => bt_get name (annotators m) = Some config
  | SayApproval section => approval m = Some section
  | SayPoint point target kind tool_name binding =>
      ∃ c, bt_get point (intervention_points m) = Some c ∧ policy_target c = target ∧
        policy_target_kind c = kind ∧ tool_name_from c = tool_name ∧ point_policy c = binding
  | SayBinding point name config =>
      ∃ c, bt_get point (intervention_points m) = Some c ∧ bt_get name (point_annotations c) = Some config
  | OwnAnnotator name => owns_annotator m name
  | OwnBinding point name => owns_binding m (point, name)
  end.

Lemma additive_says {T} (existing incoming merged : btree string T) k v :
  additive existing incoming merged →
  bt_get k merged = Some v ↔ bt_get k existing = Some v ∨ bt_get k incoming = Some v.
Proof.
  intros [Hget Hsame]. rewrite Hget. destruct (bt_get k existing) as [v'|] eqn:Hk; [|naive_solver].
  split; [by left|]. intros [?|Hi]; [done|]. f_equal. by eapply Hsame, bt_get_Some_elem.
Qed.

Lemma merge_point_says point e i source c name config :
  merge_point_config point e i source = Ok c →
  bt_get name (point_annotations c) = Some config ↔
  bt_get name (point_annotations e) = Some config ∨ bt_get name (point_annotations i) = Some config.
Proof.
  unfold merge_point_config. destruct (decide (e = i)) as [->|_].
  { intros [= <-]. tauto. }
  destruct (find _ _) as [[field b]|]; [done|]. intros (merged & Hm & [= <-])%bind_Ok. cbn.
  apply additive_says. by eapply merge_map_get.
Qed.

Lemma merge_approval_says existing incoming source merged section :
  merge_approval existing incoming source = Ok merged →
  merged = Some section ↔ existing = Some section ∨ incoming = Some section.
Proof.
  unfold merge_approval. destruct incoming as [i|], existing as [e|]; try (intros [= <-]; naive_solver).
  case_decide; [|done]. subst. intros [= <-]. tauto.
Qed.

(** The merge of two manifests says what either says and nothing else. *)
Lemma merge_says existing incoming source m :
  merge_manifest existing incoming source = Ok m → provenance_wf existing → provenance_wf incoming →
  provenance_wf m ∧ ∀ x, says m x ↔ says existing x ∨ says incoming x.
Proof.
  intros Hm He Hi. destruct (merge_ownership _ _ _ _ Hm He Hi) as (Hwf & Hown & Hbind & _).
  destruct (merge_metadata_says _ _ _ _ (merge_Ok_metadata _ _ _ _ Hm) (pw_metadata _ He) (pw_metadata _ Hi)) as [_ Hmeta].
  split; [done|]. apply merge_Ok in Hm as (Hver & Hv & _ & Htools & Hann & Hpol & Hpts & Happ & _).
  assert (∀ point, _) as Hpoint by exact (merge_points_get _ _ _ _ Hpts (bt_wf_NoDup _ (pw_points _ Hi))).
  intros [v|p x|id c|n c|n c|section|point t k n b|point n c|n|point n]; cbn [says].
  - rewrite Hv, <-Hver. tauto.
  - apply Hmeta.
  - apply additive_says. by eapply merge_map_get.
  - apply additive_says. by eapply merge_map_get.
  - apply additive_says. by eapply merge_map_get.
  - by eapply merge_approval_says.
  - specialize (Hpoint point).
    destruct (bt_get point (intervention_points existing)) as [e|],
      (bt_get point (intervention_points incoming)) as [i|]; [|naive_solver..].
    destruct Hpoint as (c & Hc & Hm). apply merge_point_Ok in Hm as (? & ? & ? & ? & ? & ? & ? & ? & _).
    split; [intros (c' & Hc' & ? & ? & ? & ?); left; exists e|intros [(c' & Hc' & ? & ? & ? & ?)|(c' & Hc' & ? & ? & ? & ?)];
      exists c]; simplify_eq; split_and!; congruence.
  - specialize (Hpoint point).
    destruct (bt_get point (intervention_points existing)) as [e|],
      (bt_get point (intervention_points incoming)) as [i|]; [|naive_solver..].
    destruct Hpoint as (d & Hd & Hm). pose proof (merge_point_says _ _ _ _ _ n c Hm) as Hsay. naive_solver.
  - apply Hown.
  - apply Hbind.
Qed.

Lemma exists_in_cons {A} (P : A → Prop) x l : (∃ d, d ∈ x :: l ∧ P d) ↔ P x ∨ ∃ d, d ∈ l ∧ P d.
Proof. setoid_rewrite elem_of_cons. naive_solver. Qed.

Lemma merge_chain_from_ownership manifests : ∀ resolved index m,
  merge_chain_from (Some resolved) index manifests = Ok (Some m) →
  provenance_wf resolved → Forall provenance_wf manifests →
  (∀ name, owns_annotator m name ↔ ∃ d, d ∈ resolved :: manifests ∧ owns_annotator d name) ∧
  (∀ b, owns_binding m b ↔ ∃ d, d ∈ resolved :: manifests ∧ owns_binding d b) ∧
  (∀ s, s ∈ url_sources m ↔ ∃ d, d ∈ resolved :: manifests ∧ s ∈ url_sources d).
Proof.
  induction manifests as [|i manifests IH]; intros resolved index m Hm Hwf Hall; cbn in Hm.
  { injection Hm as <-. repeat setoid_rewrite list_elem_of_singleton. naive_solver. }
  apply bind_Ok in Hm as ([] & _ & Hm). destruct (negb _); [done|].
  apply bind_Ok in Hm as (merged & Hmerge & Hm). apply Forall_cons in Hall as [Hi Hall].
  destruct (merge_ownership _ _ _ _ Hmerge Hwf Hi) as (Hwf' & HA & HB & HS).
  destruct (IH merged (S index) m Hm Hwf' Hall) as (IHA & IHB & IHS). split_and!.
  - intros name. rewrite IHA, !exists_in_cons, HA. tauto.
  - intros b. rewrite IHB, !exists_in_cons, HB. tauto.
  - intros s. rewrite IHS, !exists_in_cons, HS. tauto.
Qed.

(** Ownership survives composition, in whatever order the chain is
    merged. A declaration or a binding of the merged manifest is the
    host's if and only if some document of the chain declares it as the
    host's, so a fetched document that repeats or precedes it cannot take
    it over; and the merged manifest's sources are exactly those of its
    documents, so folding in one fetched document marks the whole. *)
Theorem chain_ownership manifests m :
  merge_chain manifests = Ok m → Forall provenance_wf manifests →
  (∀ name, owns_annotator m name ↔ ∃ d, d ∈ manifests ∧ owns_annotator d name) ∧
  (∀ b, owns_binding m b ↔ ∃ d, d ∈ manifests ∧ owns_binding d b) ∧
  (∀ s, s ∈ url_sources m ↔ ∃ d, d ∈ manifests ∧ s ∈ url_sources d) ∧
  (url_sourced m = true ↔ ∃ d, d ∈ manifests ∧ url_sourced d = true) ∧
  validate m = Ok ().
Proof.
  unfold merge_chain. destruct manifests as [|d manifests]; [done|]. rewrite bool_decide_false by done.
  intros Hm Hall. apply bind_Ok in Hm as (r & Hr & Hm). destruct r as [m'|]; [|done].
  apply bind_Ok in Hm as ([] & Hv & [= <-]). cbn in Hr. apply bind_Ok in Hr as ([] & _ & Hr).
  destruct (negb _); [done|]. cbn in Hr. apply Forall_cons in Hall as [Hd Hall].
  destruct (merge_chain_from_ownership _ _ _ _ Hr Hd Hall) as (HA & HB & HS).
  assert (∀ x, url_sourced x = true ↔ ∃ s, s ∈ url_sources x) as Hsrc.
  { intros x. unfold url_sourced. destruct (url_sources x) as [|s l]; cbn; [set_solver|].
    split; [intros _; exists s; set_solver|done]. }
  split_and!; try done. rewrite Hsrc. setoid_rewrite Hsrc. setoid_rewrite HS. naive_solver.
Qed.
End merge_facts.

(** ** Witnesses *)

Section merge_samples.
#[local] Existing Instance demo_hooks.
#[local] Existing Instance demo_hooks_laws.
#[local] Existing Instance demo_url.
#[local] Existing Instance demo_serde.

(** A fetched document that repeats the host's [scan] declaration. *)
Definition sample_repeat : Manifest :=
  mkManifest "0.5.0-alpha.1" [] [] [] [] [] [("scan", mkAnnotator Classifier [])] None
    ["https://example.com/acs.yaml"] {["scan"]} ∅ CompositionDocument.

Lemma merge_additive_witness :
  ∃ m, merge_manifest sample_repeat sample_manifest (ChainEntry 1) = Ok m ∧
    bt_get "audit" (annotators m) = Some (mkAnnotator Endpoint []).
Proof.
  destruct (merge_manifest sample_repeat sample_manifest (ChainEntry 1)) as [m|e] eqn:Hm;
    [|vm_compute in Hm; discriminate].
  exists m. split; [done|].
  destruct (merge_additive _ _ _ _ Hm) as (_ & _ & [Hget _] & _).
  { apply bt_wf_NoDup. repeat constructor. }
  rewrite Hget. reflexivity.
Defined.

Lemma chain_ownership_witness :
  ∃ m, merge_chain [sample_repeat; sample_manifest] = Ok m ∧ owns_annotator m "scan" ∧
    url_sourced m = true.
Proof.
  destruct (merge_chain [sample_repeat; sample_manifest]) as [m|e] eqn:Hm; [|vm_compute in Hm; discriminate].
  exists m. split; [done|].
  destruct (chain_ownership _ _ Hm) as (HA & _ & _ & Hu & _).
  { apply Forall_cons_2; [|apply Forall_cons_2; [|apply Forall_nil_2]]; split.
    - repeat constructor.
    - constructor.
    - intros name Hn. cbn in Hn. apply elem_of_singleton in Hn as ->. repeat constructor.
    - set_solver.
    - repeat constructor.
    - repeat constructor.
    - set_solver.
    - set_solver. }
  split.
  - apply HA. exists sample_manifest. split; [set_solver|]. split; [vm_compute; repeat constructor|set_solver].
  - apply Hu. exists sample_repeat. split; [set_solver|reflexivity].
Defined.
End merge_samples.
