(* ===== verification/LoaderFacts.v ===== *)
(** * Theorems on the loader: its requests and its end

    What a load asks of its host, whatever the answers, and that it ends. *)

From S2P Require Import Prelude OrdMap RustStd Json Errors AgentHooks Concrete Constants Paths.
From S2P Require Import PolicyInput Limits Hex Pins Policy StdPath Manifest Samples DispatchFacts.
From S2P Require Import ManifestFacts ManifestMerge MergeFacts Loader.

Section loader_facts.
Context `{AgentHooksLaws} `{UrlCrate} `{SerdeJson} `{Sha2} `{ManifestFormats} `{LoaderHost W}.
Notation loading := (loading W).
Implicit Types (s : Load W) (l : ManifestLoader).

(** ** Steps *)

Lemma loading_bind_Ok {A B} (m : loading A) (f : A → loading B) s s' b :
  (m ≫= f) s = (s', Ok b) ↔ ∃ s1 a, m s = (s1, Ok a) ∧ f a s1 = (s', Ok b).
Proof. unfold mbind, loading_bind. destruct (m s) as [s1 [a|e]]; naive_solver. Qed.

Lemma checked_Ok {A} (r : result RuntimeError A) s s' a :
  checked r s = (s', Ok a) ↔ s' = s ∧ r = Ok a.
Proof. unfold checked. naive_solver. Qed.

(** [keeps P I m]: from a state where [P] holds, [m] ends in one where [I]
    holds, whether it succeeds or fails, and [P] again if it succeeds. *)
Definition keeps (I : Load W → Prop) {A} (m : loading A) : Prop := ∀ s, I s → I (m s).1.

Lemma keeps_bind I {A B} (m : loading A) (f : A → loading B) :
  keeps I m → (∀ s s' a, I s' → m s = (s', Ok a) → I (f a s').1) → keeps I (m ≫= f).
Proof.
  intros Hm Hf s Hs. specialize (Hm s Hs). unfold mbind, loading_bind.
  destruct (m s) as [s' [a|e]] eqn:He; [|exact Hm]. by eapply Hf.
Qed.

Lemma keeps_checked I {A} (r : result RuntimeError A) : keeps I (checked r).
Proof. by intros s Hs. Qed.

Lemma keeps_ret I {A} (a : A) : keeps I (mret a).
Proof. by intros s Hs. Qed.

Lemma keeps_state I : keeps I loader_state.
Proof. by intros s Hs. Qed.

Lemma bind_eq {A B} (m : loading A) (f : A → loading B) s :
  (m ≫= f) s = match m s with (s', Ok a) => f a s' | (s', Err e) => (s', Err e) end.
Proof. done. Qed.

(** Binding a step that reads and does nothing else. *)
Lemma bind_state {B} (f : ManifestLoader → loading B) s :
  (loader_state ≫= f) s = f (load_state s) s.
Proof. done. Qed.

Lemma bind_checked {A B} (r : result RuntimeError A) (f : A → loading B) s :
  (checked r ≫= f) s = match r with Ok a => f a s | Err e => (s, Err e) end.
Proof. by destruct r. Qed.

(** The host answered a request of this load with these bytes. *)
Definition served (trace : list LoadAction) (limits : Limits) (location : ManifestLocation)
    (bytes : list Ascii.ascii) : Prop :=
  match location with
  | LocationPath path =>
      ActRead path (Ok bytes) ∈ trace ∧ (N.of_nat (length bytes) <= max_merged_manifest_bytes limits)%N
  | LocationUrl url => ∃ response,
      ActGet (https_agent limits) url (Ok response) ∈ trace ∧ (http_status response < 400)%N ∧
      http_read response (saturating_succ u64_max (max_manifest_url_bytes limits)) = Ok bytes ∧
      (N.of_nat (length bytes) <= max_manifest_url_bytes limits)%N
  end.

#[local] Arguments served : simpl never.

Lemma served_mono trace trace' limits location bytes :
  trace `prefix_of` trace' → served trace limits location bytes → served trace' limits location bytes.
Proof.
  intros [k ->]. unfold served. destruct location as [path|url].
  - intros [Hin ?]. split; [set_solver|done].
  - intros (response & Hin & ?). exists response. split; [set_solver|done].
Qed.

(** What every request leaves alone: the trace only grows, and a body that
    is kept was served. *)
Record same_frame s s' : Prop := {
  sf_stack : ld_stack (load_state s') = ld_stack (load_state s);
  sf_root : ld_trust_root (load_state s') = ld_trust_root (load_state s);
  sf_limits : ld_limits (load_state s') = ld_limits (load_state s);
  sf_trace : load_trace s `prefix_of` load_trace s';
  sf_bodies url bytes : bt_get url (ld_url_bodies (load_state s')) = Some bytes →
    bt_get url (ld_url_bodies (load_state s)) = Some bytes ∨
    served (load_trace s') (ld_limits (load_state s)) (LocationUrl url) bytes }.

Lemma same_frame_state s s' :
  ld_stack (load_state s') = ld_stack (load_state s) → ld_trust_root (load_state s') = ld_trust_root (load_state s) →
  ld_limits (load_state s') = ld_limits (load_state s) → ld_url_bodies (load_state s') = ld_url_bodies (load_state s) →
  load_trace s `prefix_of` load_trace s' → same_frame s s'.
Proof. intros ? ? ? Hb ?. split; try done. rewrite Hb. auto. Qed.

#[export] Instance same_frame_preorder : PreOrder same_frame.
Proof.
  split; [intros s; by apply same_frame_state|]. intros s1 s2 s3 [? ? Hl12 ? Hb12] [? ? ? Ht23 Hb23].
  split; try congruence; [by etrans|]. intros url bytes [Hb|Hs]%Hb23; [|right; by rewrite <-Hl12].
  apply Hb12 in Hb as [?|?]; [by left|right; by eapply served_mono].
Qed.

Lemma canonicalize_frame path including s :
  same_frame s (canonicalize_manifest_path path including s).1 ∧
  ld_url_sources (load_state (canonicalize_manifest_path path including s).1) = ld_url_sources (load_state s).
Proof.
  unfold canonicalize_manifest_path. destruct (fs_canonicalize _ _). split; [|done].
  apply same_frame_state; try done. by apply prefix_app_r.
Qed.

Lemma fetch_body_frame url limits context strict s :
  load_state (fetch_body url limits context strict s).1 = load_state s ∧
  load_trace s `prefix_of` load_trace (fetch_body url limits context strict s).1 ∧
  ∀ bytes, (fetch_body url limits context strict s).2 = Ok bytes →
    served (load_trace (fetch_body url limits context strict s).1) limits (LocationUrl url) bytes.
Proof.
  unfold fetch_body. destruct (http_get _ _ _) as [w call]. cbn [fst snd load_state load_trace]. split; [done|].
  split; [by apply prefix_app_r|]. intros bytes (response & Hcall%map_err_Ok & Hb)%bind_Ok. subst call.
  destruct (N.leb_spec 400 (http_status response)); [done|]. cbn [orb] in Hb. destruct (strict && _); [done|].
  apply bind_Ok in Hb as (body & Hread%map_err_Ok & Hb). destruct (N.ltb_spec (max_manifest_url_bytes limits) (N.of_nat (length body))); [done|].
  injection Hb as ->. exists response. split; [set_solver|done].
Qed.

Lemma fetch_frame url limits s :
  load_state (fetch url limits s).1 = load_state s ∧ load_trace s `prefix_of` load_trace (fetch url limits s).1 ∧
  ∀ bytes, (fetch url limits s).2 = Ok bytes →
    served (load_trace (fetch url limits s).1) limits (LocationUrl url) bytes.
Proof.
  unfold fetch. rewrite bind_checked. destruct (validate_https_url url); [|done]. apply fetch_body_frame.
Qed.

Lemma fetch_url_frame url s :
  same_frame s (fetch_url_body url s).1 ∧
  ld_url_sources (load_state (fetch_url_body url s).1) = ld_url_sources (load_state s).
Proof.
  unfold fetch_url_body. rewrite bind_state. destruct (bt_get url _); [done|].
  unfold mbind, loading_bind. destruct (fetch_frame url (ld_limits (load_state s)) s) as (Hf & Ht & Hs).
  destruct (fetch _ _ s) as [s1 [body|e]]; cbn [fst snd] in *;
    [|split; [apply same_frame_state; congruence|by rewrite Hf]].
  destruct (_ <? _)%N; cbn; [split; [apply same_frame_state; cbn; congruence|by rewrite Hf]|].
  split; [|by rewrite Hf]. split; cbn; rewrite ?Hf; try done. intros u bytes. rewrite bt_get_insert.
  case_decide as Hu; [|by left]. intros [= <-]. right. subst u. by apply Hs.
Qed.

(** What was fetched is kept. *)
Lemma fetch_url_kept url s s' bytes :
  fetch_url_body url s = (s', Ok bytes) → bt_get url (ld_url_bodies (load_state s')) = Some bytes.
Proof.
  unfold fetch_url_body. rewrite bind_state. destruct (bt_get url _) as [body|] eqn:Hb; [by intros [= <- <-]|].
  intros (s1 & body & Hf & Hm)%loading_bind_Ok. destruct (_ <? _)%N; [done|].
  apply loading_bind_Ok in Hm as (s2 & [] & Hu & Hret). injection Hret as <- <-. injection Hu as <-.
  cbn. by rewrite bt_get_insert_eq.
Qed.

Lemma read_location_frame location s :
  same_frame s (read_location_body location s).1 ∧
  ld_url_sources (load_state (read_location_body location s).1) = ld_url_sources (load_state s).
Proof.
  destruct location; cbn; [|apply fetch_url_frame]. destruct (fs_read _ _ _). split; [|done].
  apply same_frame_state; try done. by apply prefix_app_r.
Qed.

(** The bytes of a location are those the host served, if the ones kept
    were. *)
Definition bodies_served s : Prop := ∀ url bytes,
  bt_get url (ld_url_bodies (load_state s)) = Some bytes →
  served (load_trace s) (ld_limits (load_state s)) (LocationUrl url) bytes.

Lemma bodies_served_frame s s' : same_frame s s' → bodies_served s → bodies_served s'.
Proof.
  intros [_ _ Hl Ht Hb] Hs url bytes [Hk|Hk]%Hb; rewrite Hl; [|done]. eapply served_mono; [done|by apply Hs].
Qed.

Lemma read_location_served location s s' bytes :
  bodies_served s → read_location_body location s = (s', Ok bytes) →
  served (load_trace s') (ld_limits (load_state s)) location bytes.
Proof.
  intros Hs Hr. destruct (read_location_frame location s) as [Hf _]. rewrite Hr in Hf. cbn in Hf.
  destruct location as [path|url]; cbn [read_location_body] in Hr.
  - destruct (fs_read _ _ _) as [w r]. injection Hr as <- Hr. apply bind_Ok in Hr as (body & Hbody%map_err_Ok & Hr).
    destruct (N.ltb_spec (max_merged_manifest_bytes (ld_limits (load_state s))) (N.of_nat (length body))); [done|].
    injection Hr as ->. subst r. unfold served. cbn. split; [set_solver|done].
  - apply fetch_url_kept in Hr. rewrite <-(sf_limits _ _ Hf). by apply (bodies_served_frame _ _ Hf Hs).
Qed.


(** ** One entry *)

(** How an entry may lead from a document to the next: a file under the
    trust root, from a file; or an HTTPS document whose bytes match the
    entry's pins. *)
Inductive leads s (location : ManifestLocation) (pinned : bool) (entry : ManifestExtends)
  : ManifestLocation → option (list Ascii.ascii) → bool → Prop :=
  | leads_path parent include path root :
      location = LocationPath parent → resolve_extends_entry location entry = Ok (ResolvedPath include) →
      ActCanonicalize include (Ok path) ∈ load_trace s →
      ld_trust_root (load_state s) = Some root → path_starts_with path root = true →
      leads s location pinned entry (LocationPath path) None true
  | leads_url named raw url bytes :
      resolve_extends_entry location entry = Ok (ResolvedUrl named) → validate_https_url named = Ok raw →
      validate_https_url raw = Ok url → bt_get url (ld_url_bodies (load_state s)) = Some bytes →
      verify_extends_hash entry url bytes = Ok () →
      leads s location pinned entry (LocationUrl url) (Some bytes) (pinned && is_pinned entry).

Definition same_sources s s' : Prop :=
  ld_url_sources (load_state s') = ld_url_sources (load_state s).

(** Nothing was fetched but, perhaps, this location. *)
Definition gets_only s s' (location : ManifestLocation) : Prop := ∀ agent url r,
  ActGet agent url r ∈ load_trace s' → ActGet agent url r ∈ load_trace s ∨ location = LocationUrl url.

Lemma gets_same s s' location : load_trace s' = load_trace s → gets_only s s' location.
Proof. intros Ht agent url r. rewrite Ht. by left. Qed.

Lemma gets_snoc s s' location a :
  load_trace s' = load_trace s ++ [a] →
  match a with ActGet _ url _ => location = LocationUrl url | _ => True end → gets_only s s' location.
Proof.
  intros Ht Ha agent url r. rewrite Ht, elem_of_app, list_elem_of_singleton. intros [?|<-]; auto.
Qed.

Lemma gets_trans s1 s2 s3 location : gets_only s1 s2 location → gets_only s2 s3 location → gets_only s1 s3 location.
Proof. intros H12 H23 agent url r [Hin|?]%H23; [by apply H12|by right]. Qed.

Lemma canonicalize_gets path including s location :
  gets_only s (canonicalize_manifest_path path including s).1 location.
Proof. unfold canonicalize_manifest_path. destruct (fs_canonicalize _ _). by eapply gets_snoc. Qed.

Lemma fetch_url_gets url s : gets_only s (fetch_url_body url s).1 (LocationUrl url).
Proof.
  unfold fetch_url_body. rewrite bind_state. destruct (bt_get url _); [by apply gets_same|].
  unfold mbind, loading_bind, fetch. rewrite bind_checked.
  destruct (validate_https_url url) as [text|e]; [|by apply gets_same].
  unfold fetch_body. destruct (http_get _ _ _) as [w call]. destruct (mbind _ _) as [body|e]; [|by eapply gets_snoc].
  destruct (_ <? _)%N; by eapply gets_snoc.
Qed.

Lemma read_location_gets location s : gets_only s (read_location_body location s).1 location.
Proof.
  destruct location as [path|url]; [|apply fetch_url_gets]. cbn. destruct (fs_read _ _ _). by eapply gets_snoc.
Qed.

Lemma canonicalize_Ok path including s s' p :
  canonicalize_manifest_path path including s = (s', Ok p) →
  same_frame s s' ∧ same_sources s s' ∧ ActCanonicalize path (Ok p) ∈ load_trace s'.
Proof.
  intros Hc. destruct (canonicalize_frame path including s) as [? ?]. rewrite Hc in *. split_and!; [done..|].
  unfold canonicalize_manifest_path in Hc. destruct (fs_canonicalize _ _) as [w r]. injection Hc as <- Hr.
  apply map_err_Ok in Hr as ->. cbn. set_solver.
Qed.

Lemma load_entry_Ok recur location pinned entry s s' m source :
  load_entry recur location pinned entry s = (s', Ok (m, source)) →
  ∃ s1 child body child_pinned, same_frame s s1 ∧ (same_sources s s1 ∧ gets_only s s1 child) ∧
    leads s1 location pinned entry child body child_pinned ∧ recur child body child_pinned s1 = (s', Ok m).
Proof.
  unfold load_entry. intros (s0 & resolved & [-> Hr]%checked_Ok & Hm)%loading_bind_Ok.
  destruct resolved as [include_path|url].
  - apply loading_bind_Ok in Hm as (s1 & including & [-> Hi]%checked_Ok & Hm).
    destruct location as [parent|]; [|done]. injection Hi as <-.
    apply loading_bind_Ok in Hm as (s1 & label & Hc1 & Hm). pose proof (canonicalize_gets include_path (Some parent) s) as Hg1.
    rewrite Hc1 in Hg1. apply canonicalize_Ok in Hc1 as (Hf1 & Hs1 & _).
    apply loading_bind_Ok in Hm as (s2 & m' & Hm & Hret). injection Hret as <- <- <-.
    unfold load_extends_path in Hm.
    apply loading_bind_Ok in Hm as (s3 & path & Hc2 & Hm). pose proof (canonicalize_gets include_path (Some parent) s1) as Hg2.
    rewrite Hc2 in Hg2. apply canonicalize_Ok in Hc2 as (Hf2 & Hs2 & Hcanon).
    rewrite bind_state in Hm. apply loading_bind_Ok in Hm as (s4 & root & [-> Hroot]%checked_Ok & Hm).
    destruct (path_starts_with path root) eqn:Hstart; [|done]. cbn [negb] in Hm.
    exists s3, (LocationPath path), None, true. split; [by etrans|].
    split; [split; [congruence|by eapply gets_trans]|]. split; [|done].
    eapply leads_path; [done|exact Hr|exact Hcanon| |exact Hstart].
    by destruct (ld_trust_root (load_state s3)); [injection Hroot as ->|].
  - apply loading_bind_Ok in Hm as (s1 & normalized & [-> Hn]%checked_Ok & Hm).
    apply loading_bind_Ok in Hm as (s2 & m' & Hm & Hret). injection Hret as <- <- <-.
    unfold load_extends_url in Hm. apply loading_bind_Ok in Hm as (s1 & again & [-> Ha]%checked_Ok & Hm).
    apply loading_bind_Ok in Hm as (s3 & bytes & Hb & Hm).
    apply loading_bind_Ok in Hm as (s4 & [] & [-> Hv]%checked_Ok & Hm).
    destruct (fetch_url_frame again s) as [Hf Hs]. pose proof (fetch_url_gets again s) as Hg. rewrite Hb in Hf, Hs, Hg.
    exists s3, (LocationUrl again), (Some bytes), (pinned && is_pinned entry).
    split; [done|]. split; [done|]. split; [|done].
    eapply leads_url; [exact Hr|exact Hn|exact Ha| |exact Hv]. by eapply fetch_url_kept.
Qed.

Lemma merge_step_Ok resolved incoming source s s' merged :
  merge_step resolved incoming source s = (s', Ok merged) →
  s' = s ∧ ∃ m, merged = Some m ∧ merge_resolved_manifest resolved incoming (SourceLocation source) = Ok m.
Proof.
  unfold merge_step. intros (s0 & m & [-> Hm]%checked_Ok & Hrest)%loading_bind_Ok.
  rewrite bind_state in Hrest. apply loading_bind_Ok in Hrest as (s1 & [] & [-> _]%checked_Ok & Hret).
  injection Hret as <- <-. split; [done|]. by exists m.
Qed.

(** An artifact that was fetched is the one its pin names. *)
Lemma fetch_pinned_exact source limits s s' body :
  fetch_pinned_https_bytes source limits s = (s', Ok body) →
  pinned_digest source = Ok (sha256 body) ∧
  (N.of_nat (length body) <= max_manifest_url_bytes limits)%N ∧
  ∃ text, validate_https_url_with_context (pin_url source) "artifact" = Ok text.
Proof.
  unfold fetch_pinned_https_bytes. rewrite bind_checked. destruct (pinned_validate source) as [[]|] eqn:Hv; [|done].
  destruct (_ =? 0)%N; [done|]. destruct (deadline_fits _ _); [|done]. cbn [negb].
  intros (s1 & bytes & Hf & Hd)%loading_bind_Ok. apply loading_bind_Ok in Hd as (s2 & digest & [-> Hdig]%checked_Ok & Hd).
  case_bool_decide as Heq; [|done]. injection Hd as <- <-. subst digest. split; [done|]. split.
  - unfold fetch_body in Hf. destruct (http_get _ _ _) as [w call]. injection Hf as _ Hf.
    apply bind_Ok in Hf as (response & _ & Hf). destruct (_ || _); [done|].
    apply bind_Ok in Hf as (b & _ & Hf). destruct (_ <? _)%N eqn:Hlen; [done|]. injection Hf as ->. by b2p.
  - unfold pinned_validate in Hv. apply bind_Ok in Hv as (text & Ht & _). by exists text.
Qed.

(** ** The recursion keeps the frame *)

Definition keeps_frame (recur : ManifestLocation → option (list Ascii.ascii) → bool → loading Manifest)
  : Prop :=
  ∀ child body pinned s s' m, recur child body pinned s = (s', Ok m) → same_frame s s'.

Lemma load_entries_frame recur location pinned entries resolved s s' r :
  keeps_frame recur → load_entries recur location pinned entries resolved s = (s', Ok r) → same_frame s s'.
Proof.
  intros Hrec. revert resolved s. induction entries as [|entry entries IH]; intros resolved s; cbn.
  { intros [= <- _]. done. }
  intros (s1 & [m source] & He & Hrest)%loading_bind_Ok.
  apply loading_bind_Ok in Hrest as (s2 & merged & [-> _]%merge_step_Ok & Hrest).
  apply load_entry_Ok in He as (s0 & child & body & cp & Hf & _ & _ & Hm). apply Hrec in Hm.
  apply IH in Hrest. etrans; [exact Hf|]. by etrans.
Qed.

Lemma read_document_frame location body pinned s s' m :
  read_document location body pinned s = (s', Ok m) → same_frame s s'.
Proof.
  unfold read_document. intros (s1 & bytes & Hb & Hm)%loading_bind_Ok.
  assert (same_frame s s1) as Hf.
  { destruct body; [by injection Hb as <- _|].
    destruct (read_location_frame location s) as [Hf _]. by rewrite Hb in Hf. }
  rewrite bind_state in Hm. apply loading_bind_Ok in Hm as (s2 & m1 & [-> _]%checked_Ok & Hm).
  destruct location; [by injection Hm as <- _|].
  apply loading_bind_Ok in Hm as (s2 & [] & Hu & Hm). injection Hu as <-.
  apply loading_bind_Ok in Hm as (s3 & [] & [-> _]%checked_Ok & Hret). injection Hret as <- _.
  etrans; [exact Hf|]. by apply same_frame_state.
Qed.

Lemma check_location_Ok location s s' :
  check_location location s = (s', Ok ()) →
  s' = s ∧ (N.of_nat (length (ld_stack (load_state s))) + 1 <= max_extends_depth (ld_limits (load_state s)))%N ∧
  location ∉ ld_stack (load_state s).
Proof.
  unfold check_location. rewrite bind_state. destruct (_ <? _)%N eqn:Hd; [done|]. apply N.ltb_ge in Hd.
  destruct (list_find _ _) as [[i x]|] eqn:Hfind; [done|]. intros [= <-]. split; [done|]. split; [done|].
  intros Hin. apply list_find_None in Hfind. rewrite Forall_forall in Hfind. by eapply Hfind.
Qed.

(** The steps of a document that was loaded. *)
Lemma load_document_Ok exhausted fuel location body pinned s s' m :
  load_location_with_body exhausted fuel location body pinned s = (s', Ok m) →
  ∃ fuel' s1 s2 parsed resolved, fuel = S fuel' ∧
    (N.of_nat (length (ld_stack (load_state s))) + 1 <= max_extends_depth (ld_limits (load_state s)))%N ∧
    location ∉ ld_stack (load_state s) ∧
    read_document location body pinned s = (s1, Ok parsed) ∧
    load_entries (load_location_with_body exhausted fuel') location pinned (extends parsed) None
      (update (λ l, set_stack l (ld_stack l ++ [location])) s1).1 = (s2, Ok resolved) ∧
    s' = (update (λ l, set_stack l (removelast (ld_stack l))) s2).1 ∧
    merge_resolved_manifest resolved (with_extends parsed []) (SourceLocation location) = Ok m.
Proof.
  destruct fuel as [|fuel]; cbn [load_location_with_body];
    intros (s0 & [] & (-> & Hdepth & Hnew)%check_location_Ok & Hm)%loading_bind_Ok; [done|].
  apply loading_bind_Ok in Hm as (s1 & parsed & Hread & Hm).
  apply loading_bind_Ok in Hm as (s1' & [] & Hu & Hm).
  apply loading_bind_Ok in Hm as (s2 & resolved & Hentries & Hm).
  apply loading_bind_Ok in Hm as (s2' & [] & Hu' & Hm).
  apply loading_bind_Ok in Hm as (s3 & merged & (-> & m' & -> & Hmerge)%merge_step_Ok & Hret).
  apply checked_Ok in Hret as [-> Hret]. injection Hret as ->. injection Hu as <-. injection Hu' as <-.
  exists fuel, s1, s2, parsed, resolved. done.
Qed.

Lemma load_frame exhausted fuel : keeps_frame (load_location_with_body exhausted fuel).
Proof.
  induction fuel as [|fuel IH]; intros location body pinned s s' m Hm;
    apply load_document_Ok in Hm as (fuel' & s1 & s2 & parsed & resolved & Hfuel & _ & _ & Hr & He & -> & _);
    [done|]. injection Hfuel as <-.
  apply read_document_frame in Hr as [Hs1 Hr1 Hl1 Ht1 Hb1].
  apply load_entries_frame in He as [Hs2 Hr2 Hl2 Ht2 Hb2]; [|exact IH].
  cbn in *. split; cbn; [by rewrite Hs2, removelast_last|congruence|congruence|by etrans|].
  intros url bytes [Hk|Hk]%Hb2; [|right; by rewrite <-Hl1].
  apply Hb1 in Hk as [?|?]; [by left|right; by eapply served_mono].
Qed.

(** ** Fuel *)

(** Two recursions that agree where the depth budget is left. *)
Lemma load_entries_agree r1 r2 (P : Load W → Prop) location pinned entries resolved s :
  (∀ s child body cp, P s → r1 child body cp s = r2 child body cp s) →
  keeps_frame r2 → (∀ s s', P s → same_frame s s' → P s') → P s →
  load_entries r1 location pinned entries resolved s = load_entries r2 location pinned entries resolved s.
Proof.
  intros Hagree Hrec Hframe. revert resolved s.
  induction entries as [|entry entries IH]; intros resolved s Hs; [done|]. cbn [load_entries].
  assert (load_entry r1 location pinned entry s = load_entry r2 location pinned entry s) as Hsame.
  { unfold load_entry. rewrite !bind_checked. destruct (resolve_extends_entry location entry) as [[path|url]|e];
      [| |done].
    - rewrite !bind_checked. destruct location as [parent|]; [|done].
      unfold mbind, loading_bind. pose proof (canonicalize_Ok path (Some parent) s) as Hc.
      destruct (canonicalize_manifest_path path (Some parent) s) as [s1 [label|e]]; [|done].
      destruct (Hc _ _ eq_refl) as (Hf1 & _).
      unfold load_extends_path, mbind, loading_bind. pose proof (canonicalize_Ok path (Some parent) s1) as Hc'.
      destruct (canonicalize_manifest_path path (Some parent) s1) as [s2 [p|e]]; [|done].
      destruct (Hc' _ _ eq_refl) as (Hf2 & _). cbn. destruct (ok_or _ _); [|done]. destruct (negb _); [done|].
      rewrite (Hagree s2); [done|]. eapply Hframe; [|exact Hf2]. by eapply Hframe.
    - rewrite !bind_checked. destruct (validate_https_url url) as [u|]; [|done].
      unfold load_extends_url, mbind, loading_bind, checked. destruct (validate_https_url u) as [v|]; [|done].
      destruct (fetch_url_frame v s) as [Hf _]. destruct (fetch_url_body v s) as [s1 [bytes|e]]; [|done].
      cbn in Hf. destruct (verify_extends_hash entry v bytes); [|done].
      rewrite (Hagree s1); [done|]. by eapply Hframe. }
  unfold mbind, loading_bind. rewrite Hsame.
  destruct (load_entry r2 location pinned entry s) as [s1 [[m source]|e]] eqn:He; [|done].
  destruct (merge_step resolved _ _ s1) as [s2 [merged|e]] eqn:Hmerge; [|done].
  apply merge_step_Ok in Hmerge as [-> _].
  apply load_entry_Ok in He as (s0 & child & body & cp & Hf & _ & _ & Hm). apply Hrec in Hm.
  apply IH. eapply Hframe; [|exact Hm]. by eapply Hframe.
Qed.

(** A load has budget left for [fuel] levels. *)
Definition budget (fuel : nat) s : Prop :=
  (max_extends_depth (ld_limits (load_state s)) <= N.of_nat (fuel + length (ld_stack (load_state s))))%N.

Lemma budget_frame fuel s s' : budget fuel s → same_frame s s' → budget fuel s'.
Proof. unfold budget. intros Hb [-> _ -> _ _]. exact Hb. Qed.

Lemma fuel_agree exhausted exhausted' fuel extra location body pinned s :
  budget fuel s →
  load_location_with_body exhausted fuel location body pinned s =
  load_location_with_body exhausted' (fuel + extra)%nat location body pinned s.
Proof.
  revert location body pinned s. induction fuel as [|fuel IH]; intros location body pinned s Hb.
  { assert (∃ e, check_location location s = (s, Err e)) as [e He].
    { unfold check_location. rewrite bind_state. unfold budget in Hb.
      destruct (N.ltb_spec (max_extends_depth (ld_limits (load_state s)))
        (N.of_nat (length (ld_stack (load_state s))) + 1)); [by eexists|lia]. }
    destruct extra; cbn; unfold mbind, loading_bind; by rewrite He. }
  cbn [load_location_with_body Nat.add]. unfold mbind, loading_bind.
  destruct (check_location location s) as [s0 [[]|e]] eqn:Hc; [|done].
  apply check_location_Ok in Hc as (-> & _ & _).
  destruct (read_document location body pinned s) as [s1 [parsed|e]] eqn:Hr; [|done].
  apply read_document_frame in Hr. unfold update at 1 3. cbn [fst snd].
  set (s2 := mkLoad (load_world s1) _ _).
  rewrite (load_entries_agree _ (load_location_with_body exhausted' (fuel + extra)) (budget fuel)); [done|..].
  - intros s' child b cp Hs'. by apply IH.
  - apply load_frame.
  - intros s' s'' Hs' Hf. by eapply budget_frame.
  - apply (budget_frame _ _ _ Hb) in Hr. unfold budget in *. subst s2. cbn. rewrite length_app. cbn. lia.
Qed.

(** C16: a load ends, whatever the host answers. With as many levels of
    fuel as the limits leave below the stack, the loader gives the answer
    it gives with any more, and the answer kept for the end of the fuel is
    never given: it can be replaced by any other. *)
Theorem load_terminates exhausted exhausted' fuel extra location body pinned s :
  (max_extends_depth (ld_limits (load_state s)) <=
    N.of_nat (fuel + length (ld_stack (load_state s))))%N →
  load_location_with_body exhausted fuel location body pinned s =
  load_location_with_body exhausted' (fuel + extra)%nat location body pinned s.
Proof. apply fuel_agree. Qed.

(** ** What a load asks of its host *)

(** The requests a load rooted at [file] may make: it reads that file and
    canonical files under its directory, and fetches HTTPS URLs. *)
Definition action_allowed (file root : string) (trace : list LoadAction) (a : LoadAction) : Prop :=
  match a with
  | ActCanonicalize _ _ => True
  | ActRead p _ => p = file ∨
      (path_starts_with p root = true ∧ ∃ path, ActCanonicalize path (Ok p) ∈ trace)
  | ActGet agent url _ => ag_https_only agent = true ∧ ∃ text, validate_https_url url = Ok text
  end.

Definition confined (file root : string) s : Prop :=
  ld_trust_root (load_state s) = Some root ∧
  Forall (action_allowed file root (load_trace s)) (load_trace s).

(** A file the recursion may be asked to read. *)
Definition location_allowed (file root : string) s (location : ManifestLocation) : Prop :=
  match location with
  | LocationPath p => ∀ r, action_allowed file root (load_trace s) (ActRead p r)
  | LocationUrl _ => True
  end.

Lemma action_allowed_mono file root t t' a :
  t `prefix_of` t' → action_allowed file root t a → action_allowed file root t' a.
Proof.
  intros [k ->]. destruct a as [| |]; cbn; [done| |done].
  intros [?|(? & q & Hq)]; [by left|right]. split; [done|]. exists q. set_solver.
Qed.

Lemma confined_snoc file root s a w l :
  confined file root s → ld_trust_root l = ld_trust_root (load_state s) →
  action_allowed file root (load_trace s) a →
  confined file root (mkLoad w (load_trace s ++ [a]) l).
Proof.
  intros [Hr Ht] Hl Ha. split; cbn; [congruence|]. apply Forall_app. split.
  - eapply Forall_impl; [exact Ht|]. intros x. apply action_allowed_mono. by apply prefix_app_r.
  - constructor; [|constructor]. eapply action_allowed_mono; [|exact Ha]. by apply prefix_app_r.
Qed.

Lemma keeps_canonicalize file root path including :
  keeps (confined file root) (canonicalize_manifest_path path including).
Proof.
  intros s Hs. unfold canonicalize_manifest_path. destruct (fs_canonicalize _ _) as [w r].
  by apply confined_snoc.
Qed.

Lemma keeps_fetch file root url : keeps (confined file root) (fetch_url_body url).
Proof.
  intros s Hs. unfold fetch_url_body. rewrite bind_state. destruct (bt_get url _); [done|].
  unfold fetch, mbind, loading_bind. unfold checked at 1.
  destruct (validate_https_url url) as [text|e] eqn:Hurl; [|done].
  unfold fetch_body. destruct (http_get _ _ _) as [w call].
  assert (confined file root (mkLoad w (load_trace s ++ [ActGet (https_agent (ld_limits (load_state s))) url call]) (load_state s))) as Hs'
    by (apply confined_snoc; [done|done|by split; [|exists text]]).
  destruct (mbind _ _) as [body|e]; [|done]. by destruct (_ <? _)%N.
Qed.

Lemma keeps_read_location file root location s :
  confined file root s → location_allowed file root s location →
  confined file root (read_location_body location s).1.
Proof.
  intros Hs Hl. destruct location as [p|url]; cbn [read_location_body]; [|by apply keeps_fetch].
  destruct (fs_read _ _ _) as [w r]. by apply confined_snoc.
Qed.

Lemma keeps_read_document file root location body pinned s :
  confined file root s → location_allowed file root s location →
  confined file root (read_document location body pinned s).1.
Proof.
  intros Hs Hl. unfold read_document, mbind, loading_bind.
  assert (confined file root
    (match body with Some body => mret body | None => read_location_body location end s).1) as Hb
    by (destruct body; [done|by apply keeps_read_location]).
  destruct (match body with Some body => mret body | None => read_location_body location end s) as [s1 [bytes|e]];
    [|done].
  cbn [fst] in Hb. unfold loader_state, checked at 1. destruct (decode_document _ _ _) as [m|e]; [|done].
  destruct location; [done|]. unfold update, checked. cbv beta iota. by case_match.
Qed.

(** The recursion keeps the confinement at an allowed location. *)
Definition recur_confined file root
    (recur : ManifestLocation → option (list Ascii.ascii) → bool → loading Manifest) : Prop :=
  ∀ child body cp s, confined file root s → location_allowed file root s child →
    confined file root (recur child body cp s).1.

Lemma keeps_entry file root recur location pinned entry :
  recur_confined file root recur → keeps (confined file root) (load_entry recur location pinned entry).
Proof.
  intros Hrec. unfold load_entry. apply keeps_bind; [apply keeps_checked|].
  intros _ s [path|url] Hs _.
  - revert s Hs. apply keeps_bind; [apply keeps_checked|]. intros _ s parent Hs _.
    revert s Hs. apply keeps_bind; [apply keeps_canonicalize|]. intros _ s label Hs _.
    revert s Hs. apply keeps_bind; [|intros _ s m Hs _; by apply keeps_ret].
    intros s Hs. unfold load_extends_path, mbind, loading_bind.
    pose proof (keeps_canonicalize file root path (Some parent) s Hs) as Hc.
    assert (∀ p s', canonicalize_manifest_path path (Some parent) s = (s', Ok p) →
      ActCanonicalize path (Ok p) ∈ load_trace s') as Hin.
    { unfold canonicalize_manifest_path. destruct (fs_canonicalize _ _) as [w [q|e]]; [|done].
      intros p s' [= <- <-]. cbn. set_solver. }
    destruct (canonicalize_manifest_path path (Some parent) s) as [s1 [p|e]]; [|done].
    specialize (Hin p s1 eq_refl). cbn in Hc. cbn. rewrite (proj1 Hc). cbn.
    destruct (path_starts_with p root) eqn:Hstart; [|done]. cbn. apply Hrec; [done|].
    intros r. cbn. right. split; [done|]. by exists path.
  - revert s Hs. apply keeps_bind; [apply keeps_checked|]. intros _ s normalized Hs _.
    revert s Hs. apply keeps_bind; [|intros _ s m Hs _; by apply keeps_ret].
    unfold load_extends_url. apply keeps_bind; [apply keeps_checked|]. intros _ s u Hs _.
    revert s Hs. apply keeps_bind; [apply keeps_fetch|]. intros _ s bytes Hs _.
    revert s Hs. apply keeps_bind; [apply keeps_checked|]. intros _ s [] Hs _. by apply Hrec.
Qed.

Lemma keeps_merge_step file root resolved incoming source :
  keeps (confined file root) (merge_step resolved incoming source).
Proof.
  unfold merge_step. apply keeps_bind; [apply keeps_checked|]. intros _ s m Hs _. revert s Hs.
  apply keeps_bind; [apply keeps_state|]. intros _ s l Hs _. revert s Hs.
  apply keeps_bind; [apply keeps_checked|]. intros _ s [] Hs _. by apply keeps_ret.
Qed.

Lemma keeps_entries file root recur location pinned entries resolved :
  recur_confined file root recur →
  keeps (confined file root) (load_entries recur location pinned entries resolved).
Proof.
  intros Hrec. revert resolved. induction entries as [|entry entries IH]; intros resolved; [apply keeps_ret|].
  cbn [load_entries]. apply keeps_bind; [by apply keeps_entry|]. intros _ s [m source] Hs _. revert s Hs.
  apply keeps_bind; [apply keeps_merge_step|]. intros _ s merged Hs _. by apply IH.
Qed.

Lemma load_confined_at file root exhausted fuel :
  recur_confined file root (load_location_with_body exhausted fuel).
Proof.
  induction fuel as [|fuel IH]; intros location body pinned s Hs Hl;
    cbn [load_location_with_body]; unfold mbind at 1, loading_bind at 1;
    (destruct (check_location location s) as [s0 [[]|e]] eqn:Hc;
      [|unfold check_location in Hc; rewrite bind_state in Hc; destruct (_ <? _)%N;
        [by injection Hc as <- _|]; destruct (list_find _ _) as [[? ?]|]; [by injection Hc as <- _|done]]);
    apply check_location_Ok in Hc as (-> & _ & _); [done|].
  pose proof (keeps_read_document _ _ _ body pinned _ Hs Hl) as Hr.
  unfold mbind at 1, loading_bind at 1. destruct (read_document location body pinned s) as [s1 [parsed|e]]; [|done].
  revert s1 Hr. apply keeps_bind; [by intros s1 [Hr Ht]; split|]. intros _ s1 [] Hs1 _. revert s1 Hs1.
  apply keeps_bind; [by apply keeps_entries|]. intros _ s1 resolved Hs1 _. revert s1 Hs1.
  apply keeps_bind; [by intros s1 [Hr Ht]; split|]. intros _ s1 [] Hs1 _. revert s1 Hs1.
  apply keeps_bind; [apply keeps_merge_step|]. intros _ s1 merged Hs1 _. by apply keeps_checked.
Qed.

(** C14: whatever the files, the URLs and the host's answers, and whether
    it succeeds or fails, a load reads the file it was given, and besides
    it only canonical paths under that file's directory; and it fetches
    only URLs that pass the HTTPS rules. If the file cannot be resolved
    nothing is read at all. *)
Theorem load_confined path limits (w : W) :
  let s := (from_path_with_limits path limits w).1 in
  match (fs_canonicalize w path).2 with
  | Ok file =>
      Forall (action_allowed file (default "." (path_parent file)) (load_trace s)) (load_trace s)
  | Err e => load_trace s = [ActCanonicalize path (Err e)]
  end.
Proof.
  unfold from_path_with_limits, load. cbn zeta. rewrite bind_eq.
  unfold canonicalize_manifest_path. cbn [load_world load_trace load_state].
  destruct (fs_canonicalize w path) as [w1 [file|e]]; cbn [map_err snd fst]; [|done].
  set (root := default "." (path_parent file)). rewrite bind_state, bind_eq. unfold update.
  cbn [load_world load_trace load_state]. set (s0 := mkLoad w1 _ _).
  assert (confined file root s0) as Hs0 by (split; [done|]; cbn; repeat constructor).
  assert (confined file root (load_location (LocationPath file) s0).1) as [_ Hs1].
  { unfold load_location. rewrite bind_state. apply load_confined_at; [done|]. intros r. by left. }
  rewrite bind_eq. unfold restoring_root, update.
  destruct (load_location (LocationPath file) s0) as [s1 [m|e]]; [|exact Hs1].
  rewrite bind_state, bind_eq. cbn [fst snd load_trace load_state].
  rewrite bind_checked. by destruct (validate _) as [[]|e].
Qed.
End loader_facts.

(** ** A sample load *)

Section loader_samples.
#[local] Existing Instance demo_hooks.
#[local] Existing Instance demo_hooks_laws.
#[local] Existing Instance demo_url.
#[local] Existing Instance demo_serde.
#[local] Existing Instance demo_sha.

Definition remote_text : list Ascii.ascii := String.list_ascii_of_string "remote".
Definition remote_url : string := "https://example.com/acs.yaml".

(** Two documents: a file that extends a pinned URL, and what is there. *)
Definition sample_formats : ManifestFormats := {|
  manifest_from_json _ := Err "no JSON here";
  parse_yaml_str_with_limits text _ :=
    if decide (text = "host") then
      Ok (with_extends sample_manifest
        [ExtendsUrl (mkUrlExtends remote_url None (Some (lower (sha256 remote_text))))])
    else Ok (mkManifest "0.5.0-alpha.1" [] [] [] [] [] [("extra", mkAnnotator Classifier [])] None
      [] ∅ ∅ CompositionDocument);
  manifest_to_vec _ := Ok 100%N |}.
#[local] Existing Instance sample_formats.

Lemma sample_formats_laws : ManifestFormatsLaws.
Proof.
  split; [done|]. cbn. intros text limits m. case_decide; intros [= <-]; split; try done; repeat constructor.
Defined.
#[local] Existing Instance sample_formats_laws.

Definition sample_host : LoaderHost unit := {|
  fs_canonicalize w path := (w, Ok path);
  fs_read w _ _ := (w, Ok (String.list_ascii_of_string "host"));
  http_get w _ _ := (w, Ok (mkResponse 200 (λ _, Ok remote_text)));
  deadline_fits _ _ := true |}.
#[local] Existing Instance sample_host.

Definition sample_load : Load unit * result RuntimeError Manifest :=
  from_path_with_limits "/etc/acs/main.yaml" default_limits tt.

Example sample_trace : load_trace sample_load.1 =
  [ActCanonicalize "/etc/acs/main.yaml" (Ok "/etc/acs/main.yaml");
   ActRead "/etc/acs/main.yaml" (Ok (String.list_ascii_of_string "host"));
   ActGet (https_agent default_limits) remote_url (Ok (mkResponse 200 (λ _, Ok remote_text)))].
Proof. vm_compute. reflexivity. Qed.

Example sample_sources :
  map_err (λ _, tt) (url_sources <$> sample_load.2) = Ok [remote_url].
Proof. vm_compute. reflexivity. Qed.

Lemma sample_load_Ok : ∃ s m, sample_load = (s, Ok m) ∧ url_sources m = [remote_url].
Proof.
  pose proof sample_sources as Hs. destruct sample_load as [s [m|e]]; [|done].
  exists s, m. split; [done|]. by injection Hs.
Qed.

Lemma load_confined_witness :
  Forall (action_allowed "/etc/acs/main.yaml" "/etc/acs" (load_trace sample_load.1)) (load_trace sample_load.1).
Proof.
  exact (load_confined "/etc/acs/main.yaml" default_limits tt).
Defined.

Lemma load_terminates_witness :
  load_location_with_body (ManifestInvalid "a") 16 (LocationPath "/etc/acs/main.yaml") None true
    (mkLoad tt [] (with_limits default_limits)) =
  load_location_with_body (ManifestInvalid "b") 20 (LocationPath "/etc/acs/main.yaml") None true
    (mkLoad tt [] (with_limits default_limits)).
Proof.
  apply (load_terminates (ManifestInvalid "a") (ManifestInvalid "b") 16 4 (LocationPath "/etc/acs/main.yaml")
    None true (mkLoad tt [] (with_limits default_limits))).
  vm_compute. discriminate.
Defined.
End loader_samples.
