(* ===== verification/LoaderSound.v ===== *)
(** * Theorems on the loader: the documents behind a manifest

    Which documents a load reads, and from which entry of which document it
    came to each; that the manifest is their merge and nothing else; what
    was checked of each document, and whose its declarations are. *)

From S2P Require Import Prelude OrdMap RustStd Json Errors AgentHooks Concrete Constants Paths.
From S2P Require Import PolicyInput Limits Hex Pins Policy StdPath Manifest Samples DispatchFacts.
From S2P Require Import ManifestFacts ManifestMerge MergeFacts Loader LoaderFacts.

Section loader_facts.
Context `{AgentHooksLaws} `{UrlCrate} `{SerdeJson} `{Sha2} `{ManifestFormats} `{LoaderHost W}.
Notation loading := (loading W).
Implicit Types (s : Load W) (l : ManifestLoader).

(** ** The documents of a load *)

(** A document as it was found: the entries that led to it, each with
    where it led, its bytes and what they parse to. *)
Record Document := mkDocument {
  doc_hops : list (ManifestExtends * ManifestLocation);
  doc_location : ManifestLocation;
  doc_bytes : list Ascii.ascii;
  doc_parsed : Manifest }.

Definition is_path (l : ManifestLocation) : Prop :=
  match l with LocationPath _ => True | LocationUrl _ => False end.

(** Every hop to a URL carries a pin. *)
Definition hops_pinned (hops : list (ManifestExtends * ManifestLocation)) : bool :=
  forallb (λ h, match h.2 with LocationUrl _ => is_pinned h.1 | LocationPath _ => true end) hops.

(** The document as it is merged. *)
Definition doc_merged (d : Document) : Manifest :=
  with_extends
    match doc_location d with
    | LocationUrl _ => record_fetched_declarations (doc_parsed d)
    | LocationPath path => resolve_relative_paths (doc_parsed d) (default "." (path_parent path))
    end [].

(** What the loader checked of a document before it merged it. *)
Record document_ok (limits : Limits) (file : string) (d : Document) : Prop := {
  do_end : last (LocationPath file :: (doc_hops d).*2) = Some (doc_location d);
  do_acyclic : NoDup (LocationPath file :: (doc_hops d).*2);
  do_depth : (N.of_nat (length (doc_hops d)) + 1 <= max_extends_depth limits)%N;
  do_decoded : decode_document (doc_bytes d) (doc_location d) limits = Ok (doc_parsed d);
  do_origin :
    match doc_location d with
    | LocationPath _ => Forall (λ h, is_path h.2) (doc_hops d)
    | LocationUrl url => ∃ before entry raw,
        doc_hops d = before ++ [(entry, LocationUrl url)] ∧ validate_https_url raw = Ok url ∧
        verify_extends_hash entry url (doc_bytes d) = Ok () ∧
        document_confined (hops_pinned (doc_hops d)) (doc_parsed d)
    end }.

(** A document, and the trees its entries led to, in their order. *)
Unset Elimination Schemes.
Inductive DocTree : Type := mkTree (doc : Document) (included : list DocTree).
Set Elimination Schemes.

Definition tree_doc (t : DocTree) : Document := match t with mkTree d _ => d end.

(** The documents of a tree, in the order they are merged: those a document
    extends before itself. *)
Fixpoint documents (t : DocTree) : list Document :=
  match t with mkTree d ts => flat_map documents ts ++ [d] end.

(** An entry of [parent] names the document it led to: a file under the
    root, by the canonical path the host answered with, or an HTTPS
    document with the bytes the entry's pins ask for. *)
Inductive names (trace : list LoadAction) (root : string) (parent : Document) (entry : ManifestExtends)
    (child : Document) : Prop :=
  | names_path file include path :
      doc_location parent = LocationPath file → resolve_extends_entry (LocationPath file) entry = Ok (ResolvedPath include) →
      ActCanonicalize include (Ok path) ∈ trace → path_starts_with path root = true →
      doc_location child = LocationPath path → names trace root parent entry child
  | names_url named raw url :
      resolve_extends_entry (doc_location parent) entry = Ok (ResolvedUrl named) → validate_https_url named = Ok raw →
      validate_https_url raw = Ok url → doc_location child = LocationUrl url →
      verify_extends_hash entry url (doc_bytes child) = Ok () → names trace root parent entry child.

(** The load behind a tree: each document was checked, its bytes are what
    the host answered a request of the load with, and it includes exactly
    the documents its own entries name. *)
Inductive loaded (trace : list LoadAction) (limits : Limits) (file root : string) : DocTree → Prop :=
  | loaded_tree d ts :
      document_ok limits file d → served trace limits (doc_location d) (doc_bytes d) →
      Forall2 (λ entry t, names trace root d entry (tree_doc t) ∧
        doc_hops (tree_doc t) = doc_hops d ++ [(entry, doc_location (tree_doc t))]) (extends (doc_parsed d)) ts →
      Forall (loaded trace limits file root) ts →
      loaded trace limits file root (mkTree d ts).

(** Merging manifests one after the other; a source only names its manifest
    in an error. *)
Inductive merges : option Manifest → list Manifest → option Manifest → Prop :=
  | merges_nil r : merges r [] r
  | merges_cons r m ms source m' r' :
      merge_resolved_manifest r m source = Ok m' → merges (Some m') ms r' → merges r (m :: ms) r'.

(** The manifest of a tree: those its entries led to merged in their order,
    and the document itself merged into them. *)
Inductive assembles : DocTree → Manifest → Prop :=
  | assembles_tree d ts ms resolved m :
      Forall2 assembles ts ms → merges None ms resolved →
      merge_resolved_manifest resolved (doc_merged d) (SourceLocation (doc_location d)) = Ok m →
      assembles (mkTree d ts) m.

(** A manifest that says what some documents say, and nothing else. *)
Definition composed (m : Manifest) (ds : list Manifest) : Prop :=
  provenance_wf m ∧ ∀ x, says m x ↔ ∃ d, d ∈ ds ∧ says d x.

Lemma composed_one m : provenance_wf m → composed m [m].
Proof. intros Hwf. split; [done|]. intros x. setoid_rewrite list_elem_of_singleton. naive_solver. Qed.

Definition composed_opt (r : option Manifest) (ds : list Manifest) : Prop :=
  match r with Some m => composed m ds | None => ds = [] end.

Lemma composed_merge resolved m m' ds ds' source :
  composed_opt resolved ds → composed m ds' →
  merge_resolved_manifest resolved m source = Ok m' → composed m' (ds ++ ds').
Proof.
  intros Hr [Hwf Hsays] Hm. destruct resolved as [e|]; cbn in *.
  - destruct Hr as [Hwf' Hsays']. destruct (merge_says _ _ _ _ Hm Hwf' Hwf) as [Hwf'' Hboth].
    split; [done|]. intros x. rewrite Hboth, Hsays, Hsays'. setoid_rewrite elem_of_app. naive_solver.
  - injection Hm as <-. by subst.
Qed.

Lemma decode_fresh `{!ManifestFormatsLaws} bytes location limits m :
  decode_document bytes location limits = Ok m → fresh m.
Proof.
  unfold decode_document, parse_manifest_source. intros (source & _ & Hd)%bind_Ok.
  apply bind_Ok in Hd as (m' & Hp & Hd). apply bind_Ok in Hd as ([] & _ & [= ->]).
  destruct (_ <? _)%N; [done|]. destruct (location_is_json location); apply map_err_Ok in Hp.
  - by eapply json_fresh.
  - by eapply yaml_fresh.
Qed.

Lemma point_keys_fmap {V V'} (f : InterceptionPoint * V → V') (l : btree InterceptionPoint V) :
  bt_keys ((λ e, (e.1, f e)) <$> l) = bt_keys l.
Proof. unfold bt_keys. rewrite <-list_fmap_compose. by apply list_fmap_ext. Qed.

(** A document enters the merge with its provenance in order: nothing of a
    file's is fetched, and everything of a fetched one's is. *)
Lemma merged_wf d : fresh (doc_parsed d) → provenance_wf (doc_merged d).
Proof.
  intros [Hmeta _ Ha Hb Hp]. unfold doc_merged. destruct (doc_location d) as [path|url]; split; cbn; try done.
  - unfold bt_wf. by rewrite point_keys_fmap.
  - rewrite Ha. set_solver.
  - rewrite Hb. set_solver.
  - rewrite Ha. set_solver.
  - rewrite Hb. set_solver.
Qed.

(** Where the recursion is called: the stack holds the chain of documents
    that led to the location. *)
Record arrives (limits : Limits) (file root : string) (hops : list (ManifestExtends * ManifestLocation)) s
    (location : ManifestLocation) (body : option (list Ascii.ascii)) : Prop := {
  ar_limits : ld_limits (load_state s) = limits;
  ar_root : ld_trust_root (load_state s) = Some root;
  ar_stack : ld_stack (load_state s) ++ [location] = LocationPath file :: hops.*2;
  ar_nodup : NoDup (ld_stack (load_state s));
  ar_bodies : bodies_served s;
  ar_body bytes : body = Some bytes → served (load_trace s) limits location bytes;
  ar_origin :
    match location with
    | LocationPath _ => Forall (λ h, is_path h.2) hops
    | LocationUrl url => ∃ before entry raw bytes,
        hops = before ++ [(entry, LocationUrl url)] ∧ validate_https_url raw = Ok url ∧
        body = Some bytes ∧ verify_extends_hash entry url bytes = Ok ()
    end }.

Lemma read_document_served limits file root hops s location body pinned s' m :
  arrives limits file root hops s location body →
  read_document location body pinned s = (s', Ok m) →
  ∃ bytes, served (load_trace s') limits location bytes ∧ (∀ b, body = Some b → bytes = b) ∧
    same_frame s s' ∧ ∃ parsed, decode_document bytes location limits = Ok parsed ∧
    m = match location with
        | LocationUrl _ => record_fetched_declarations parsed
        | LocationPath path => resolve_relative_paths parsed (default "." (path_parent path))
        end ∧
    (∀ url, location = LocationUrl url → document_confined pinned parsed) ∧ gets_only s s' location ∧
    ∀ u, u ∈ ld_url_sources (load_state s') ↔ u ∈ ld_url_sources (load_state s) ∨ location = LocationUrl u.
Proof.
  intros Harr Hread. pose proof (read_document_frame _ _ _ _ _ _ Hread) as Hframe.
  unfold read_document in Hread. apply loading_bind_Ok in Hread as (s1 & bytes & Hb & Hm). exists bytes.
  assert (same_frame s s1 ∧ same_sources s s1 ∧ served (load_trace s1) limits location bytes ∧
    gets_only s s1 location ∧ (∀ b, body = Some b → bytes = b)) as (Hf & Hsrc & Hserved & Hgets & Hbytes).
  { destruct body as [b|].
    - injection Hb as <- <-. split_and!; [done|done|by apply Harr|by apply gets_same|naive_solver].
    - pose proof (read_location_served _ _ _ _ (ar_bodies _ _ _ _ _ _ _ Harr) Hb) as Hserved.
      rewrite (ar_limits _ _ _ _ _ _ _ Harr) in Hserved.
      pose proof (read_location_gets location s) as Hg.
      destruct (read_location_frame location s) as [Hf Hs]. rewrite Hb in Hf, Hs, Hg. by split_and!. }
  rewrite bind_state, (sf_limits _ _ Hf), (ar_limits _ _ _ _ _ _ _ Harr) in Hm.
  apply loading_bind_Ok in Hm as (s2 & parsed & [-> Hd]%checked_Ok & Hm).
  assert (∀ u, u ∈ ld_url_sources (load_state s1) ↔ u ∈ ld_url_sources (load_state s)) as Hsame by (intros u; by rewrite Hsrc).
  destruct location as [path|url].
  - injection Hm as <- <-. split_and!; [done..|]. exists parsed. split_and!; [done|done|done|done|].
    intros u. rewrite Hsame. naive_solver.
  - apply loading_bind_Ok in Hm as (s2 & [] & Hu & Hm). injection Hu as <-.
    apply loading_bind_Ok in Hm as (s3 & [] & [-> Hgate]%checked_Ok & Hret). injection Hret as <- <-.
    split_and!; [done..|]. exists parsed. split_and!; [done|done| |done|].
    + intros u [= <-]. apply gate_sound in Hgate. by destruct Hgate; split.
    + intros u. cbn. unfold push_url_source. rewrite elem_of_bs_insert, Hsame. naive_solver.
Qed.

Lemma read_document_Ok `{!ManifestFormatsLaws} limits file root hops s location body s' m :
  arrives limits file root hops s location body →
  (N.of_nat (length (ld_stack (load_state s))) + 1 <= max_extends_depth (ld_limits (load_state s)))%N →
  location ∉ ld_stack (load_state s) →
  read_document location body (hops_pinned hops) s = (s', Ok m) →
  ∃ d, document_ok limits file d ∧ served (load_trace s') limits location (doc_bytes d) ∧
    doc_hops d = hops ∧ doc_location d = location ∧ (∀ b, body = Some b → doc_bytes d = b) ∧
    gets_only s s' location ∧ extends m = extends (doc_parsed d) ∧ with_extends m [] = doc_merged d ∧ provenance_wf (doc_merged d) ∧
    ∀ u, u ∈ ld_url_sources (load_state s') ↔
      u ∈ ld_url_sources (load_state s) ∨ location = LocationUrl u.
Proof.
  intros Harr Hdepth Hnew Hread.
  destruct (read_document_served _ _ _ _ _ _ _ _ _ _ Harr Hread)
    as (bytes & Hserved & Hbytes & _ & parsed & Hd & -> & Hconf & Hgets & Hsrc).
  destruct Harr as [Hlim _ Hstack Hnd _ _ Horigin]. set (d := mkDocument hops location bytes parsed). exists d.
  assert (provenance_wf (doc_merged d)) as Hwf by (apply merged_wf; by eapply decode_fresh).
  split_and!; try done; [|by destruct location..].
  split; cbn [doc_hops doc_location doc_bytes doc_parsed d]; [| | |done|].
  - by rewrite <-Hstack, last_snoc.
  - rewrite <-Hstack. apply NoDup_app. split; [done|]. split; [set_solver|]. apply NoDup_singleton.
  - rewrite Hlim in Hdepth. apply (f_equal length) in Hstack. rewrite length_app in Hstack. cbn in Hstack.
    rewrite length_fmap in Hstack. lia.
  - destruct location as [path|url]; [done|].
    destruct Horigin as (before & entry & raw & b & Hh & Hurl & Hbody & Hv). exists before, entry, raw.
    rewrite (Hbytes _ Hbody). split_and!; [done..|]. by apply (Hconf url).
Qed.

(** ** The documents behind a manifest *)

(** The step from [s] to [s'] recorded the fetched ones of [docs], and they
    are all it fetched. *)
Record recorded s s' (docs : list Document) : Prop := {
  rc_sources u : u ∈ ld_url_sources (load_state s') ↔
    u ∈ ld_url_sources (load_state s) ∨ ∃ d, d ∈ docs ∧ doc_location d = LocationUrl u;
  rc_gets agent u r : ActGet agent u r ∈ load_trace s' →
    ActGet agent u r ∈ load_trace s ∨ u ∈ ld_url_sources (load_state s') }.

Lemma recorded_nil s : recorded s s [].
Proof. split; [set_solver|by left]. Qed.

Lemma recorded_app s1 s2 s3 docs docs' :
  recorded s1 s2 docs → recorded s2 s3 docs' → recorded s1 s3 (docs ++ docs').
Proof.
  intros [Hs Hg] [Hs' Hg']. split.
  - intros u. rewrite (Hs' u), (Hs u). setoid_rewrite elem_of_app. naive_solver.
  - intros agent u r [Hin|?]%Hg'; [|by right]. apply Hg in Hin as [?|?]; [by left|right]. apply Hs'. by left.
Qed.

(** A tree that was loaded on the way to [s'], and what it became. *)
Record tree_of (trace : list LoadAction) (limits : Limits) (file root : string)
    (hops : list (ManifestExtends * ManifestLocation)) (location : ManifestLocation)
    (body : option (list Ascii.ascii)) s s' (t : DocTree) (m : Manifest) : Prop := {
  to_loaded : loaded trace limits file root t;
  to_hops : doc_hops (tree_doc t) = hops;
  to_location : doc_location (tree_doc t) = location;
  to_body bytes : body = Some bytes → doc_bytes (tree_doc t) = bytes;
  to_assembles : assembles t m;
  to_composed : composed m (doc_merged <$> documents t);
  to_extends : extends m = [];
  to_recorded : recorded s s' (documents t) }.

(** What [recur] does on a document one level down, in a load whose trace
    is [trace] in the end. *)
Definition recur_folds `{!ManifestFormatsLaws} (trace : list LoadAction) (limits : Limits) (file root : string)
    (recur : ManifestLocation → option (list Ascii.ascii) → bool → loading Manifest) : Prop :=
  ∀ hops location body s s' m,
    arrives limits file root hops s location body → recur location body (hops_pinned hops) s = (s', Ok m) →
    load_trace s' `prefix_of` trace →
    ∃ t, tree_of trace limits file root hops location body s s' t m.

(** A document whose entries are being followed. *)
Record follows (limits : Limits) (file root : string) s (d : Document) : Prop := {
  fw_limits : ld_limits (load_state s) = limits;
  fw_root : ld_trust_root (load_state s) = Some root;
  fw_stack : ld_stack (load_state s) = LocationPath file :: (doc_hops d).*2;
  fw_nodup : NoDup (ld_stack (load_state s));
  fw_bodies : bodies_served s;
  fw_path : is_path (doc_location d) → Forall (λ h, is_path h.2) (doc_hops d) }.

Lemma follows_frame limits file root s s' d :
  same_frame s s' → follows limits file root s d → follows limits file root s' d.
Proof.
  intros Hf [? ? ? ? Hb ?]. destruct (Hf) as [? ? ? _ _]. split; try congruence; [|done].
  by eapply bodies_served_frame.
Qed.

(** The chain one hop further. *)
Lemma arrives_child limits file root s s1 d entry child body pinned :
  follows limits file root s d → same_frame s s1 →
  leads s1 (doc_location d) (hops_pinned (doc_hops d)) entry child body pinned →
  arrives limits file root (doc_hops d ++ [(entry, child)]) s1 child body ∧
  pinned = hops_pinned (doc_hops d ++ [(entry, child)]).
Proof.
  intros Hfw Hf Hleads. destruct (follows_frame _ _ _ _ _ _ Hf Hfw) as [Hlim Hroot Hstack Hnd Hbodies Hpath].
  assert (ld_stack (load_state s1) ++ [child] = LocationPath file :: (doc_hops d ++ [(entry, child)]).*2) as Hstack'
    by (by rewrite Hstack, fmap_app).
  unfold hops_pinned. rewrite forallb_app. cbn.
  destruct Hleads as [parent include path root' Hl _ _ _ _|named raw url bytes _ _ Hurl Hkept Hv].
  - rewrite Hl in Hpath. specialize (Hpath I). split.
    + split; try done. apply Forall_app. split; [done|]. by repeat constructor.
    + rewrite andb_true_r. symmetry. apply forallb_forall.
      intros h Hh%list_elem_of_In. rewrite Forall_forall in Hpath. specialize (Hpath h Hh). by destruct h.2.
  - split; [|by rewrite andb_true_r]. split; try done.
    + intros b [= <-]. rewrite <-Hlim. by apply Hbodies.
    + by exists (doc_hops d), entry, raw, bytes.
Qed.

(** The entry that led to a document names it. *)
Lemma leads_names trace limits file root s s1 d entry child body pinned t s' m :
  follows limits file root s d → same_frame s s1 → load_trace s1 `prefix_of` trace →
  leads s1 (doc_location d) (hops_pinned (doc_hops d)) entry child body pinned →
  tree_of trace limits file root (doc_hops d ++ [(entry, child)]) child body s1 s' t m →
  names trace root d entry (tree_doc t) ∧
  doc_hops (tree_doc t) = doc_hops d ++ [(entry, doc_location (tree_doc t))].
Proof.
  intros Hfw Hf [k ->] Hleads [_ Hhops Hloc Hbody _ _ _ _]. rewrite Hloc. split; [|done].
  destruct Hleads as [parent include path root' Hl Hr Hcanon Hroot Hstart|named raw url bytes Hr Hn Hurl _ Hv].
  - rewrite (fw_root _ _ _ _ _ (follows_frame _ _ _ _ _ _ Hf Hfw)) in Hroot. injection Hroot as <-.
    rewrite Hl in Hr. eapply names_path; [exact Hl|exact Hr| |exact Hstart|exact Hloc]. set_solver.
  - eapply names_url; [exact Hr|exact Hn|exact Hurl|exact Hloc|]. by rewrite (Hbody _ eq_refl).
Qed.

(** The trees of a document's entries, merged one after the other. *)
Record trees_of (trace : list LoadAction) (limits : Limits) (file root : string) (d : Document)
    (entries : list ManifestExtends) (resolved : option Manifest) (ds : list Manifest) s s' (r : option Manifest)
    (ts : list DocTree) : Prop := {
  ts_named : Forall2 (λ entry t, names trace root d entry (tree_doc t) ∧
    doc_hops (tree_doc t) = doc_hops d ++ [(entry, doc_location (tree_doc t))]) entries ts;
  ts_loaded : Forall (loaded trace limits file root) ts;
  ts_merged : ∃ ms, Forall2 assembles ts ms ∧ merges resolved ms r;
  ts_composed : composed_opt r (ds ++ (doc_merged <$> flat_map documents ts));
  ts_extends m : r = Some m → extends m = [];
  ts_recorded : recorded s s' (flat_map documents ts) }.

Lemma load_entries_folds `{!ManifestFormatsLaws} trace limits file root recur d entries :
  recur_folds trace limits file root recur → keeps_frame recur →
  ∀ resolved ds s s' r,
    follows limits file root s d → composed_opt resolved ds → (∀ m, resolved = Some m → extends m = []) →
    load_entries recur (doc_location d) (hops_pinned (doc_hops d)) entries resolved s = (s', Ok r) →
    load_trace s' `prefix_of` trace →
    ∃ ts, trees_of trace limits file root d entries resolved ds s s' r ts.
Proof.
  intros Hfold Hframe. induction entries as [|entry entries IH]; intros resolved ds s s' r Hfw Hds Hext;
    cbn [load_entries].
  { intros [= <- <-] _. exists []. split; try done; [by exists []; split; [|constructor]| |apply recorded_nil].
    by rewrite app_nil_r. }
  intros (s2 & [m source] & He & Hrest)%loading_bind_Ok Htrace.
  apply loading_bind_Ok in Hrest as (s3 & merged & (-> & m' & -> & Hmerge)%merge_step_Ok & Hrest).
  apply load_entry_Ok in He as (s1 & child & body & cp & Hf & [Hsrc Hgets] & Hleads & Hm).
  destruct (arrives_child _ _ _ _ _ _ _ _ _ _ Hfw Hf Hleads) as [Harr ->].
  pose proof (Hframe _ _ _ _ _ _ Hm) as Hf2. pose proof (load_entries_frame _ _ _ _ _ _ _ _ Hframe Hrest) as Hf3.
  assert (load_trace s2 `prefix_of` trace) as Ht2 by (etrans; [apply Hf3|done]).
  destruct (Hfold _ _ _ _ _ _ Harr Hm Ht2) as [t Ht].
  assert (load_trace s1 `prefix_of` trace) as Ht1 by (etrans; [apply Hf2|done]).
  pose proof (leads_names _ _ _ _ _ _ _ _ _ _ _ _ _ _ Hfw Hf Ht1 Hleads Ht) as Hnames.
  destruct Ht as [Hload _ Hloc _ Hass Hcomp Hemp Hrec].
  destruct (IH (Some m') (ds ++ (doc_merged <$> documents t)) s2 s' r) as [ts [Hn Hl (ms & Hms & Hmg) Hc He Hr]].
  - eapply follows_frame; [exact Hf2|]. by eapply follows_frame.
  - by eapply composed_merge.
  - intros x [= <-]. destruct resolved as [e|]; cbn in Hmerge; [|by injection Hmerge as ->].
    apply merge_Ok in Hmerge as (_ & _ & -> & _). by apply Hext.
  - done.
  - done.
  - exists (t :: ts). split; [by constructor|by constructor| | |done|].
    + exists (m :: ms). split; [by constructor|by econstructor].
    + cbn [flat_map]. by rewrite fmap_app, app_assoc.
    + cbn [flat_map]. eapply recorded_app; [|exact Hr]. destruct Hrec as [Hrs Hrg]. split.
      * intros u. by rewrite (Hrs u), Hsrc.
      * intros agent u x Hin. apply Hrg in Hin as [Hin|?]; [|by right]. apply Hgets in Hin as [?| ->]; [by left|right].
        apply Hrs. right. exists (tree_doc t). split; [|done]. destruct t as [d' ts']. cbn. set_solver.
Qed.

Lemma load_folds `{!ManifestFormatsLaws} trace limits file root exhausted fuel :
  recur_folds trace limits file root (load_location_with_body exhausted fuel).
Proof.
  induction fuel as [|fuel IH]; intros hops location body s s' m Harr Hm Htrace;
    apply load_document_Ok in Hm as (fuel' & s1 & s2 & parsed & resolved & Hfuel & Hdepth & Hnew & Hr & He & -> & Hmerge);
    [done|]. injection Hfuel as <-.
  pose proof (read_document_frame _ _ _ _ _ _ Hr) as Hf1.
  destruct (read_document_Ok _ _ _ _ _ _ _ _ _ Harr Hdepth Hnew Hr)
    as (d & Hd & Hserved & Hhops & Hloc & Hbody & Hgets & Hext & Hmerged & Hwf & Hsrc).
  set (s1' := (update (λ l, set_stack l (ld_stack l ++ [location])) s1).1) in *.
  assert (follows limits file root s1' d) as Hfw.
  { destruct Harr as [Hlim Hroot Hstack Hnd Hbodies _ Horigin].
    pose proof (bodies_served_frame _ _ Hf1 Hbodies) as Hb1. destruct Hf1 as [Hs1 Hr1 Hl1 _ _].
    split; [cbn; congruence|cbn; congruence|cbn; congruence| |done|].
    - cbn. rewrite Hs1. apply NoDup_app. split; [done|]. split; [set_solver|]. apply NoDup_singleton.
    - rewrite Hhops, Hloc. by destruct location. }
  rewrite <-Hloc, <-Hhops, Hext in He.
  destruct (load_entries_folds trace limits file root _ d (extends (doc_parsed d)) IH (load_frame exhausted fuel)
    None [] s1' s2 resolved Hfw) as [ts [Hn Hl (ms & Hms & Hmg) Hcomp Hemp Hrec]]; [done|done|done|done|].
  exists (mkTree d ts). split; cbn [tree_doc documents]; [|done|done|done| | | |].
  - constructor; [done| |done|done]. rewrite Hloc. eapply served_mono; [|exact Hserved].
    etrans; [|exact Htrace]. apply (load_entries_frame _ _ _ _ _ _ _ _ (load_frame exhausted fuel) He).
  - rewrite Hmerged in Hmerge. econstructor; [done|done|]. by rewrite Hloc.
  - rewrite fmap_app. rewrite Hmerged in Hmerge. eapply composed_merge; [exact Hcomp| |exact Hmerge]. by apply composed_one.
  - destruct resolved as [e|]; cbn in Hmerge; [|by injection Hmerge as <-].
    apply merge_Ok in Hmerge as (_ & _ & -> & _). by apply Hemp.
  - destruct Hrec as [Hrs Hrg]. split.
    + intros u. cbn. rewrite (Hrs u). cbn. rewrite Hsrc. setoid_rewrite elem_of_app.
      setoid_rewrite list_elem_of_singleton. rewrite <-Hloc. naive_solver.
    + intros agent u x Hin. apply Hrg in Hin as [Hin|?]; [|by right]. apply Hgets in Hin as [?| ->]; [by left|right].
      apply Hrs. left. cbn. apply Hsrc. by right.
Qed.

(** A load that succeeded, from the file on. *)
Lemma load_result `{!ManifestFormatsLaws} path limits (w : W) s m :
  from_path_with_limits path limits w = (s, Ok m) →
  ∃ file t m1, (fs_canonicalize w path).2 = Ok file ∧
    loaded (load_trace s) limits file (default "." (path_parent file)) t ∧
    doc_location (tree_doc t) = LocationPath file ∧ doc_hops (tree_doc t) = [] ∧ assembles t m1 ∧
    m = with_composition (with_url_sources m1 (url_sources m)) CompositionLoaded ∧
    (∀ x, says m x ↔ ∃ d, d ∈ documents t ∧ says (doc_merged d) x) ∧
    (∀ u, u ∈ url_sources m ↔ ∃ d, d ∈ documents t ∧ doc_location d = LocationUrl u) ∧
    (∀ agent u r, ActGet agent u r ∈ load_trace s → u ∈ url_sources m) ∧
    validate m = Ok () ∧ extends m = [] ∧ composition m = CompositionLoaded.
Proof.
  unfold from_path_with_limits, load. intros (s1 & file & Hc & Hm)%loading_bind_Ok.
  rewrite bind_state in Hm. apply loading_bind_Ok in Hm as (s2 & [] & Hu & Hm). injection Hu as <-.
  apply loading_bind_Ok in Hm as (s3 & m1 & Hload & Hm). unfold restoring_root in Hload.
  set (s2 := mkLoad _ _ _) in Hload.
  destruct (load_location (LocationPath file) s2) as [s4 r] eqn:Hl. injection Hload as <- ->.
  rewrite bind_state in Hm. apply loading_bind_Ok in Hm as (s5 & [] & Hu & Hm). injection Hu as <-.
  apply loading_bind_Ok in Hm as (s6 & [] & [-> Hv]%checked_Ok & Hret). injection Hret as <- <-.
  unfold load_location in Hl. rewrite bind_state in Hl.
  unfold canonicalize_manifest_path in Hc. cbn in Hc. destruct (fs_canonicalize w path) as [w1 [f|e]]; [|done].
  injection Hc as <- ->.
  set (root := default "." (path_parent file)) in *.
  assert (arrives limits file root [] s2 (LocationPath file) None) as Harr by (split; done || constructor).
  destruct (load_folds (load_trace s4) limits file root _ _ [] _ _ _ _ _ Harr Hl) as [t [Hload Hhops Hloc _ Hass [_ Hsays] Hext [Hsrc Hgets]]];
    [done|].
  exists file, t, m1. split; [done|]. split; [exact Hload|]. split_and!; try done.
  - intros x. transitivity (says m1 x); [by destruct x|]. rewrite Hsays. split.
    + intros (x' & (d & -> & Hd)%list_elem_of_fmap & Hx). by exists d.
    + intros (d & Hd & Hx). exists (doc_merged d). split; [|done]. apply list_elem_of_fmap. by exists d.
  - intros u. cbn. rewrite (Hsrc u). cbn. set_solver.
  - intros agent u r Hin. apply Hgets in Hin as [Hin|?]; [|done]. cbn in Hin. set_solver.
Qed.

Lemma loaded_documents trace limits file root t :
  loaded trace limits file root t →
  Forall (λ d, document_ok limits file d ∧ served trace limits (doc_location d) (doc_bytes d)) (documents t).
Proof.
  revert t. fix IH 2. intros t [d ts Hd Hs _ Hts]. cbn. apply Forall_app. split; [|by constructor].
  induction Hts as [|t' ts Ht _ IHts]; [constructor|]. cbn. apply Forall_app. split; [by apply IH|exact IHts].
Qed.

(** C12: a load reads a tree of documents and its manifest is their merge.
    The root is the canonical path of the file asked for; every document
    holds bytes the host answered a request of this load with, decoded;
    and the documents below it are exactly those its own [extends] entries
    name, in their order: a file under the root directory, by the path the
    host resolved the entry to, or an HTTPS document whose bytes match
    every pin of the entry. No document repeats on its own chain, none is
    deeper than [max_extends_depth], a file is reached through files
    alone, and a fetched document obeys the rules for one, those of an
    unpinned chain unless every URL hop to it carries a pin. The manifest
    is what merging the trees of the entries and then the document itself
    gives, from the leaves up: it says what a document says, of its
    version, metadata, policies, tools, annotators, approval, points,
    bindings and their owners, and nothing else. It is validated and fully
    composed. *)
Theorem load_documents `{!ManifestFormatsLaws} path limits (w : W) s m :
  from_path_with_limits path limits w = (s, Ok m) →
  ∃ file t m1, (fs_canonicalize w path).2 = Ok file ∧
    loaded (load_trace s) limits file (default "." (path_parent file)) t ∧
    doc_location (tree_doc t) = LocationPath file ∧ doc_hops (tree_doc t) = [] ∧
    assembles t m1 ∧ m = with_composition (with_url_sources m1 (url_sources m)) CompositionLoaded ∧
    (∀ x, says m x ↔ ∃ d, d ∈ documents t ∧ says (doc_merged d) x) ∧
    validate m = Ok () ∧ extends m = [].
Proof.
  intros Hm. destruct (load_result _ _ _ _ _ Hm) as (file & t & m1 & Hf & Hl & Hloc & Hh & Ha & Hm1 & Hs & _ & _ & Hv & He & _).
  by exists file, t, m1.
Qed.

Lemma owns_merged_annotator d name :
  fresh (doc_parsed d) →
  owns_annotator (doc_merged d) name ↔ is_path (doc_location d) ∧ name ∈ bt_keys (annotators (doc_parsed d)).
Proof.
  intros [_ _ Ha _ _]. unfold owns_annotator, doc_merged. destruct (doc_location d); cbn; rewrite Ha; set_solver.
Qed.

Lemma point_bindings_fmap (f : InterceptionPoint * InterventionPointConfig → InterventionPointConfig) points :
  (∀ e, point_annotations (f e) = point_annotations e.2) →
  point_bindings ((λ e, (e.1, f e)) <$> points) = point_bindings points.
Proof.
  intros Hf. unfold point_bindings. induction points as [|e points IH]; [done|]. cbn. rewrite Hf. by f_equal.
Qed.

Lemma owns_merged_binding d b :
  fresh (doc_parsed d) →
  owns_binding (doc_merged d) b ↔
    is_path (doc_location d) ∧ b ∈ point_bindings (intervention_points (doc_parsed d)).
Proof.
  intros [_ _ _ Hb Hp]. unfold owns_binding, doc_merged. destruct b as [p n].
  destruct (doc_location d); cbn; rewrite Hb; [|set_solver].
  rewrite point_bindings_fmap by done. set_solver.
Qed.

(** C15: the loader's provenance is exact. In the tree of documents a load
    read, each named by the [extends] entries of the one above it and
    decoded from what the host answered, the fetched ones are those the
    manifest records as its sources, and these are the URLs the load sent a
    request to: so a manifest is URL sourced exactly when the load fetched
    something. A declared annotator or binding counts as the host's exactly
    when some file of the tree declares it, so no order of documents lets a
    fetched one take a host's declaration over or disown its own. *)
Theorem load_provenance `{!ManifestFormatsLaws} path limits (w : W) s m :
  from_path_with_limits path limits w = (s, Ok m) →
  ∃ file t, (fs_canonicalize w path).2 = Ok file ∧
    loaded (load_trace s) limits file (default "." (path_parent file)) t ∧
    doc_location (tree_doc t) = LocationPath file ∧ doc_hops (tree_doc t) = [] ∧
    (∀ u, u ∈ url_sources m ↔ ∃ d, d ∈ documents t ∧ doc_location d = LocationUrl u) ∧
    (∀ u, u ∈ url_sources m ↔ ∃ r, ActGet (https_agent limits) u r ∈ load_trace s) ∧
    (url_sourced m = true ↔ ∃ agent u r, ActGet agent u r ∈ load_trace s) ∧
    (∀ name, name ∈ bt_keys (annotators m) →
      name ∉ url_sourced_annotators m ↔
      ∃ d, d ∈ documents t ∧ is_path (doc_location d) ∧ name ∈ bt_keys (annotators (doc_parsed d))) ∧
    (∀ b, b ∈ point_bindings (intervention_points m) →
      b ∉ url_sourced_annotations m ↔
      ∃ d, d ∈ documents t ∧ is_path (doc_location d) ∧ b ∈ point_bindings (intervention_points (doc_parsed d))).
Proof.
  intros Hm. destruct (load_result _ _ _ _ _ Hm)
    as (file & t & m1 & Hf & Hl & Hloc & Hh & _ & _ & Hs & Hu & Hg & _).
  exists file, t. pose proof (loaded_documents _ _ _ _ _ Hl) as Hdocs. rewrite Forall_forall in Hdocs.
  assert (∀ d, d ∈ documents t → fresh (doc_parsed d)) as Hfresh.
  { intros d [Hin _]%Hdocs. eapply decode_fresh, do_decoded, Hin. }
  assert (∀ u, u ∈ url_sources m → ∃ r, ActGet (https_agent limits) u r ∈ load_trace s) as Hget.
  { intros u (d & [_ Hserved]%Hdocs & Hd)%Hu. rewrite Hd in Hserved. destruct Hserved as (response & Hin & _). by eexists. }
  split_and!; [done|done|done|done|done| | | |].
  - intros u. split; [apply Hget|]. intros [r Hr]. by eapply Hg.
  - unfold url_sourced. rewrite negb_true_iff, bool_decide_eq_false. split.
    + intros Hne. destruct (url_sources m) as [|u us] eqn:Hus; [done|].
      destruct (Hget u ltac:(set_solver)) as [r Hr]. by exists (https_agent limits), u, r.
    + intros (agent & u & r & Hin) Hnil. apply Hg in Hin. rewrite Hnil in Hin. set_solver.
  - intros name Hname. specialize (Hs (OwnAnnotator name)). cbn in Hs. split.
    + intros Hn. destruct (proj1 Hs ltac:(by split)) as (d & Hin & Ho).
      exists d. split; [done|]. by apply owns_merged_annotator in Ho; [|apply Hfresh].
    + intros (d & Hin & Ho). apply Hs. exists d. split; [done|]. apply owns_merged_annotator; [by apply Hfresh|done].
  - intros [p n] Hb. specialize (Hs (OwnBinding p n)). cbn in Hs. split.
    + intros Hn. destruct (proj1 Hs ltac:(by split)) as (d & Hin & Ho).
      exists d. split; [done|]. by apply owns_merged_binding in Ho; [|apply Hfresh].
    + intros (d & Hin & Ho). apply Hs. exists d. split; [done|]. apply owns_merged_binding; [by apply Hfresh|done].
Qed.
End loader_facts.

(** ** The sample load *)

Section loader_samples.
#[local] Existing Instance demo_hooks.
#[local] Existing Instance demo_hooks_laws.
#[local] Existing Instance demo_url.
#[local] Existing Instance demo_serde.
#[local] Existing Instance demo_sha.

#[local] Existing Instance sample_formats.
#[local] Existing Instance sample_formats_laws.
#[local] Existing Instance sample_host.

Lemma load_documents_witness :
  ∃ s m t, sample_load = (s, Ok m) ∧ validate m = Ok () ∧ extends m = [] ∧
    loaded (load_trace s) default_limits "/etc/acs/main.yaml" "/etc/acs" t ∧
    says m (SayAnnotator "extra" (mkAnnotator Classifier [])).
Proof.
  destruct sample_load_Ok as (s & m & Hm & _).
  assert (says m (SayAnnotator "extra" (mkAnnotator Classifier []))) as Hsays.
  { pose proof (f_equal snd Hm) as Hr. vm_compute in Hr. injection Hr as <-. reflexivity. }
  destruct (load_documents _ _ _ _ _ Hm) as (file & t & m1 & Hfile & Hl & _ & _ & _ & _ & _ & Hv & He).
  injection Hfile as <-. exists s, m, t. split; [done|]. split; [exact Hv|]. split; [exact He|]. split; [exact Hl|exact Hsays].
Defined.

Lemma load_provenance_witness :
  ∃ s m t, sample_load = (s, Ok m) ∧ url_sourced m = true ∧
    loaded (load_trace s) default_limits "/etc/acs/main.yaml" "/etc/acs" t ∧
    ∃ d : Document, d ∈ documents t ∧ doc_location d = LocationUrl remote_url.
Proof.
  destruct sample_load_Ok as (s & m & Hm & Hs).
  destruct (load_provenance _ _ _ _ _ Hm) as (file & t & Hfile & Hl & _ & _ & Hu & _).
  injection Hfile as <-. exists s, m, t. split; [done|].
  split; [unfold url_sourced; by rewrite Hs|]. split; [exact Hl|]. apply Hu. rewrite Hs. by apply list_elem_of_singleton.
Defined.
End loader_samples.
