(* ===== verification/DispatcherSafety.v ===== *)
(** * The requests of a dispatch

    Every bundled annotator reads first, an [llm] one perhaps with a GET for
    its prompt, then sends at most one POST, which follows no redirect, and
    returns an annotation only for a complete 2xx answer within the byte
    limit. *)

From S2P Require Import Prelude OrdMap RustStd Json Errors AgentHooks Constants Paths Hex Float64.
From S2P Require Import Limits Pins StdPath Policy Manifest Loader Http Calendar SigV4 Llm Classifier DispatcherFacts LoaderFacts.

(** A complete answer: all of its body was read. *)
Definition complete (raw : RawResponse) : Prop :=
  (N.of_nat (length (rs_bytes raw)) <= MAX_RESPONSE_BYTES)%N ∧ rs_error raw = None.

Definition accepted (raw : RawResponse) : Prop := complete raw ∧ success_status (rs_status raw) = true.

Section safety.
Context {W : Type} `{DispatchHost W}.

(** The GETs among some actions. *)
Definition prompt_gets (actions : list DispatchAction) : list (HttpsAgent * string) :=
  omap (λ a, match a with ActPromptGet agent url => Some (agent, url) | _ => None end) actions.

(** Reads of the environment, and of GETs at most these. *)
Definition only_reads (gets : list (HttpsAgent * string)) (reads : list DispatchAction) : Prop :=
  Forall (λ a, ¬ sends_post a) reads ∧ prompt_gets reads `sublist_of` gets.

Lemma only_reads_nil gets : only_reads gets [].
Proof. split; [constructor|apply sublist_nil_l]. Qed.

Lemma only_reads_app gets reads more : only_reads [] reads → only_reads gets more → only_reads gets (reads ++ more).
Proof.
  intros [Hr Hg] [Hr' Hg']. split; [by apply Forall_app|]. unfold prompt_gets in *. rewrite omap_app.
  apply sublist_nil_r in Hg as ->. exact Hg'.
Qed.

Lemma only_reads_app_l gets reads more : only_reads gets reads → only_reads [] more → only_reads gets (reads ++ more).
Proof.
  intros [Hr Hg] [Hr' Hg']. split; [by apply Forall_app|]. unfold prompt_gets in *. rewrite omap_app.
  apply sublist_nil_r in Hg' as ->. by rewrite app_nil_r.
Qed.

Lemma only_reads_weaken gets gets' reads : gets `sublist_of` gets' → only_reads gets reads → only_reads gets' reads.
Proof. intros Hs [Hr Hg]. split; [done|]. by etrans. Qed.

(** No POST is sent, only reads, and of GETs at most [gets]. *)
Definition reading_with (gets : list (HttpsAgent * string)) {E A} (m : sending W E A) : Prop :=
  ∀ s, ∃ reads, sent_trace (m s).1 = sent_trace s ++ reads ∧ only_reads gets reads.

(** Nothing but the environment is read. *)
Notation reading := (reading_with []).

(** After reads with at most these GETs at most one POST is sent; [Q] holds
    of a result and the answer it came from. *)
Definition posts_once (gets : list (HttpsAgent * string)) {E A} (m : sending W E A) (Q : A → RawResponse → Prop) : Prop :=
  ∀ s, ∃ reads, only_reads gets reads ∧
    ((sent_trace (m s).1 = sent_trace s ++ reads ∧ ∃ e, (m s).2 = Err e) ∨
     ∃ rq, sent_trace (m s).1 = sent_trace s ++ reads ++ [ActPost rq] ∧ rq_max_redirects rq = 0%N ∧
       ∀ a, (m s).2 = Ok a → ∃ w w' raw, http_post w rq = (w', Ok raw) ∧ Q a raw).

Lemma reading_pure {E A} (r : result E A) : reading (pure r).
Proof. intros s. exists []. rewrite app_nil_r. split; [done|apply only_reads_nil]. Qed.
Lemma reading_ret {E A} (a : A) : reading (mret (M := sending W E) a).
Proof. exact (reading_pure (Ok a)). Qed.

Lemma reading_bind {E A B} (m : sending W E A) (f : A → sending W E B) :
  reading m → (∀ a, reading (f a)) → reading (mbind f m).
Proof.
  intros Hm Hf s. unfold mbind, sending_bind. destruct (Hm s) as (reads & Hreads & Hquiet).
  destruct (m s) as [s' [a|e]]; cbn in Hreads; [|by exists reads].
  destruct (Hf a s') as (more & -> & Hmore). exists (reads ++ more). rewrite Hreads, app_assoc.
  by split; [|apply only_reads_app].
Qed.

Lemma reading_with_bind gets {E A B} (m : sending W E A) (f : A → sending W E B) :
  reading_with gets m → (∀ a, reading (f a)) → reading_with gets (mbind f m).
Proof.
  intros Hm Hf s. unfold mbind, sending_bind. destruct (Hm s) as (reads & Hreads & Hquiet).
  destruct (m s) as [s' [a|e]]; cbn in Hreads; [|by exists reads].
  destruct (Hf a s') as (more & -> & Hmore). exists (reads ++ more). rewrite Hreads, app_assoc.
  by split; [|apply only_reads_app_l].
Qed.

Lemma reading_then gets {E A B} (m : sending W E A) (f : A → sending W E B) :
  reading m → (∀ a, reading_with gets (f a)) → reading_with gets (mbind f m).
Proof.
  intros Hm Hf s. unfold mbind, sending_bind. destruct (Hm s) as (reads & Hreads & Hquiet).
  destruct (m s) as [s' [a|e]]; cbn in Hreads;
    [|exists reads; split; [done|eapply only_reads_weaken; [apply sublist_nil_l|done]]].
  destruct (Hf a s') as (more & -> & Hmore). exists (reads ++ more). rewrite Hreads, app_assoc.
  by split; [|apply only_reads_app].
Qed.

Lemma reading_err gets {E F A} (f : E → F) (m : sending W E A) :
  reading_with gets m → reading_with gets (sending_err f m).
Proof. intros Hm s. unfold sending_err. specialize (Hm s). by destruct (m s). Qed.

Lemma reading_env url_sourced name : reading (host_env_read url_sourced name).
Proof.
  intros s. unfold host_env_read. destruct url_sourced; cbn;
    [exists []; rewrite app_nil_r; split; [done|apply only_reads_nil]|].
  exists [ActEnv name]. split; [done|]. split; [by rewrite Forall_singleton; intros []|apply sublist_nil_l].
Qed.

Lemma reading_env_optional {E} url_sourced name : reading (host_env_read_optional (E := E) url_sourced name).
Proof.
  intros s. unfold host_env_read_optional. pose proof (reading_env url_sourced name s) as Hread.
  by destruct (host_env_read url_sourced name s).
Qed.

Lemma reading_clock : reading read_clock.
Proof. intros s. exists []. rewrite app_nil_r. split; [done|apply only_reads_nil]. Qed.

Lemma once_fail gets {E A} (e : E) (Q : A → RawResponse → Prop) : posts_once gets (pure (Err e)) Q.
Proof. intros s. exists []. split; [apply only_reads_nil|]. left. rewrite app_nil_r. eauto. Qed.

Lemma once_after_with gets {E A B} (m : sending W E A) (f : A → sending W E B) Q :
  reading_with gets m → (∀ a, posts_once [] (f a) Q) → posts_once gets (mbind f m) Q.
Proof.
  intros Hm Hf s. unfold mbind, sending_bind. destruct (Hm s) as (reads & Hreads & Hquiet).
  destruct (m s) as [s' [a|e]]; cbn in Hreads; [|by exists reads; split; [|left; eauto]].
  destruct (Hf a s') as (more & Hmore & Hcases). exists (reads ++ more).
  split; [by apply only_reads_app_l|]. rewrite !Hreads in Hcases.
  destruct Hcases as [[Htrace He]|(rq & Htrace & Hrq)]; [left|right; exists rq];
    by rewrite Htrace, <- !app_assoc.
Qed.

Lemma once_after {E A B} (m : sending W E A) (f : A → sending W E B) Q :
  reading m → (∀ a, posts_once [] (f a) Q) → posts_once [] (mbind f m) Q.
Proof. apply once_after_with. Qed.

Lemma once_then gets {E A B} (m : sending W E A) (f : A → sending W E B) (Q : A → RawResponse → Prop) Q' :
  posts_once gets m Q → (∀ a s, sent_trace (f a s).1 = sent_trace s) →
  (∀ a s b raw, Q a raw → (f a s).2 = Ok b → Q' b raw) → posts_once gets (mbind f m) Q'.
Proof.
  intros Hm Hquiet Hf s. unfold mbind, sending_bind. destruct (Hm s) as (reads & Hreads & Hcases).
  exists reads. split; [done|].
  destruct Hcases as [[Htrace [e He]]|(rq & Htrace & Hrq & Hok)].
  - left. destruct (m s) as [s' r]. cbn in *. subst r. eauto.
  - right. exists rq. destruct (m s) as [s' [a|e]]; cbn in *; [rewrite Hquiet|]; split_and!; try done.
    intros b Hb. destruct (Hok a eq_refl) as (w & w' & raw & Hpost & HQ). exists w, w', raw. eauto.
Qed.

Lemma once_err gets {E F A} (f : E → F) (m : sending W E A) Q :
  posts_once gets m Q → posts_once gets (sending_err f m) Q.
Proof.
  intros Hm s. unfold sending_err. destruct (Hm s) as (reads & Hquiet & Hcases). exists reads. split; [done|].
  destruct (m s) as [s' r]. cbn in *. destruct Hcases as [[? [e ->]]|(rq & ? & ? & Hok)]; [left; eauto|right].
  exists rq. split_and!; try done. destruct r as [a|]; cbn; [|done]. intros a' [= <-]. by apply Hok.
Qed.

Lemma once_weaken gets {E A} (m : sending W E A) (Q : A → RawResponse → Prop) :
  posts_once [] m Q → posts_once gets m Q.
Proof.
  intros Hm s. destruct (Hm s) as (reads & Hquiet & Hcases). exists reads. split; [|done].
  eapply only_reads_weaken; [apply sublist_nil_l|done].
Qed.

Lemma once_post timeout url headers body :
  posts_once [] (post (http_agent_post timeout url headers body)) (λ raw raw', raw = raw').
Proof.
  intros s. exists []. split; [apply only_reads_nil|]. right. exists (http_agent_post timeout url headers body).
  unfold post. destruct (http_post _ _) as [w r] eqn:Hpost. cbn. split_and!; [done|done|].
  intros raw ->. exists (sent_world s), w, raw. by split.
Qed.
End safety.

Notation reading := (reading_with []).

Create HintDb once.
#[export] Hint Resolve reading_pure reading_ret reading_err reading_env reading_env_optional reading_clock : once.
#[export] Hint Resolve once_fail once_err : once.

Ltac reading_solve :=
  repeat (first
    [ solve [eauto with once]
    | match goal with
      | |- reading_with [] (mbind _ _) => apply reading_bind; [|intros]
      | |- reading_with _ (if ?b then _ else _) => destruct b
      | |- reading_with _ (match ?x with _ => _ end) => destruct x
      | |- reading_with _ (sending_err _ _) => apply reading_err
      | _ => progress (unfold mret, sending_ret; cbn zeta)
      end ]).

Section dispatchers.
Context {W : Type} `{DispatchHost W}.
Context `{AgentHooksLaws} `{UrlCrate} `{SerdeJson} `{SerdeValue} `{Sha2} `{HttpCrate} `{LoaderHost W}.

Lemma once_post_json name url payload credential timeout :
  posts_once [] (post_json name url payload credential timeout) (λ _ raw, accepted raw).
Proof.
  unfold post_json. eapply once_then; [apply once_err, once_post|done|]. intros raw s v raw' <-. cbn.
  destruct (success_status (rs_status raw)) eqn:Hstatus; [|done]. unfold parse_response. rewrite bind_Ok.
  intros (body & Hbody%map_err_Ok%read_response_body_exact & _). destruct Hbody as (? & ? & _). by repeat split.
Qed.

(** What the transport returns is what the answer said, completely read. *)
Definition delivered (response : TransportResponse) (raw : RawResponse) : Prop :=
  complete raw ∧ tp_status response = rs_status raw.

Lemma once_send request : posts_once [] (send_transport_request request) delivered.
Proof.
  unfold send_transport_request. destruct (negb _); [apply once_fail|].
  eapply once_then; [apply once_err, once_post| |]; intros raw s; unfold mbind, sending_bind, pure.
  - by destruct (read_response_body raw).
  - intros response raw' <-. destruct (read_response_body raw) as [body|] eqn:Hbody; [|done].
    intros [= <-]. by apply read_response_body_exact in Hbody as (? & ? & _).
Qed.

Lemma reading_secret name direct env_name default_env url_sourced :
  reading (secret_field_or_env name direct env_name default_env url_sourced).
Proof. unfold secret_field_or_env, host_env. reading_solve. Qed.

Lemma reading_key cfg name default_env : reading (secret_from_field_or_env cfg name default_env).
Proof. unfold secret_from_field_or_env, host_env. reading_solve. Qed.

Lemma reading_request name cfg target : reading (request_for_provider name cfg target).
Proof.
  unfold request_for_provider, openai_request, azure_openai_request, gemini_request, ollama_request,
    bedrock_request, bedrock_region, bedrock_session_token, host_env.
  pose proof (reading_key cfg name). pose proof (reading_secret name). reading_solve.
Qed.

Lemma reading_reject name provider fields url_sourced :
  reading (reject_pre_fetch_host_env_access name provider fields url_sourced).
Proof.
  unfold reject_pre_fetch_host_env_access, reject_api_key_env, host_env.
  pose proof (reading_secret name). reading_solve.
Qed.

(** A pinned fetch sends one GET at most, for the URL that is pinned. *)
Lemma fetch_pinned_gets source limits w :
  let trace := load_trace (fetch_pinned_https_text source limits (mkLoad w [] (with_limits limits))).1 in
  trace = [] ∨ ∃ r, trace = [ActGet (https_agent limits) (pin_url source) r].
Proof.
  cbn zeta. unfold fetch_pinned_https_text, fetch_pinned_https_bytes. rewrite bind_eq.
  set (s := mkLoad w [] _). rewrite bind_checked. destruct (pinned_validate source) as [[]|e]; [|by left].
  destruct (_ =? 0)%N; [by left|]. destruct (negb _); [by left|].
  unfold mbind, loading_bind, fetch_body. cbn [load_world load_trace load_state s].
  destruct (http_get w (https_agent limits) (pin_url source)) as [w' r].
  right. exists r. destruct (_ ≫= _) as [body|e]; [|done]. unfold checked.
  destruct (pinned_digest source); [|done]. by case_bool_decide.
Qed.

(** The one GET an [llm] annotator may send: for the prompt it names by a
    pinned URL, with the agent a manifest is fetched with. *)
Definition prompt_get (fields : fields_map) (limits : Limits) : list (HttpsAgent * string) :=
  match system_prompt_source fields with
  | Ok (Some source) => [(https_agent limits, pin_url source)]
  | _ => []
  end.

Lemma reading_prompt name fields limits :
  reading_with (W := W) (prompt_get fields limits) (prompt_text name fields limits).
Proof.
  unfold prompt_text, prompt_get. destruct (system_prompt_source fields) as [[source|]|e];
    [|exact (reading_ret _)|exact (reading_pure (Err _))].
  change (reading_with [(https_agent limits, pin_url source)]
    (sending_err (λ err, failed name (detail err)) (fetch_prompt source limits))).
  apply reading_err. intros s. unfold fetch_prompt.
  pose proof (fetch_pinned_gets source limits (sent_world s)) as Hgets.
  destruct (fetch_pinned_https_text _ _ _) as [l r]. cbn in *. eexists. split; [reflexivity|].
  destruct Hgets as [-> |[x ->]]; cbn; [apply only_reads_nil|].
  split; [by rewrite Forall_singleton; intros []|done].
Qed.

Lemma reading_config name fields url_sourced limits :
  reading_with (prompt_get fields limits) (llm_config_from_fields name fields url_sourced limits).
Proof.
  unfold llm_config_from_fields. pose proof (reading_reject name). cbn zeta.
  apply reading_then; [apply reading_pure|]. intros provider.
  apply reading_then; [by apply reading_reject|]. intros _.
  apply reading_with_bind; [apply reading_prompt|]. intros prompt. reading_solve.
Qed.

Lemma ensure_success_Ok name response :
  ensure_success name response = Ok () → success_status (tp_status response) = true.
Proof. unfold ensure_success. by destruct (success_status _). Qed.

Lemma once_llm name annotator input limits :
  posts_once (prompt_get (invocation_fields annotator) limits) (llm_dispatch name annotator input limits)
    (λ _ raw, accepted raw).
Proof.
  unfold llm_dispatch, llm_dispatch_with_transport. destruct (negb _); [apply once_fail|].
  apply once_after_with; [apply reading_config|]. intros cfg.
  apply once_after; [apply reading_pure|]. intros target.
  apply once_after; [apply reading_request|]. intros request.
  eapply once_then; [apply once_err, once_send|done|]. intros response s v raw [Hcomplete Hstatus]. cbn.
  rewrite bind_Ok. intros ([] & Hsuccess%ensure_success_Ok & _). split; [done|by rewrite <- Hstatus].
Qed.

Lemma once_endpoint name annotator input :
  posts_once [] (endpoint_dispatch name annotator input) (λ _ raw, accepted raw).
Proof.
  unfold endpoint_dispatch. destruct (negb _); [apply once_fail|]. cbn zeta.
  do 3 (apply once_after; [apply reading_pure|]; intros ?).
  eapply once_then; [apply once_post_json|done|]. by intros.
Qed.

Lemma response_body_Ok provider response value :
  response_body provider response = Ok value → success_status (tp_status response) = true.
Proof. unfold response_body. by destruct (success_status _). Qed.

(** The last step of every provider. *)
Lemma once_provider {A} provider request (parse : JsonValue → result string A) :
  posts_once [] (mbind (λ response, pure (value ← response_body provider response; parse value))
    (send_transport_request request)) (λ _ raw, accepted raw).
Proof.
  eapply once_then; [apply once_send|done|]. intros response s v raw [Hcomplete Hstatus]. cbn.
  rewrite bind_Ok. intros (value & Hsuccess%response_body_Ok & _). split; [done|by rewrite <- Hstatus].
Qed.

Lemma once_classify_fuel fuel cfg subject m :
  classify_fuel fuel cfg subject send_transport_request = Some m → posts_once [] m (λ _ raw, accepted raw).
Proof.
  revert cfg. induction fuel as [|fuel IH]; intros cfg; cbn [classify_fuel]; [done|].
  repeat case_bool_decide.
  6: { destruct (resolve_target cfg); [apply IH|]. intros [= <-]. apply once_fail. }
  all: intros [= <-]; try apply once_fail.
  all: unfold aacs_classify, openai_moderation_classify, perspective_classify, llama_guard_classify,
    lakera_guard_classify; cbn zeta.
  all: repeat first [apply once_provider | apply once_after; [reading_solve|intros ?]].
Qed.

Lemma once_classifier name annotator input :
  posts_once [] (classifier_dispatch name annotator input) (λ _ raw, accepted raw).
Proof.
  unfold classifier_dispatch. destruct (negb _); [apply once_fail|].
  apply once_after; [apply reading_pure|]. intros target. destruct (optional_string_field _ _).
  - unfold dispatch_bundled_with_transport. apply once_after.
    { unfold classifier_config_from_fields. cbn zeta. reading_solve. }
    intros cfg. eapply (once_then _ _ _ (λ _ raw, accepted raw)); [apply once_err|done|by intros].
    unfold classify. destruct (classify_fuel 2 _ _ _) eqn:Hfuel; [by eapply once_classify_fuel|apply once_fail].
  - unfold dispatch_generic. cbn zeta.
    apply once_after; [apply reading_pure|]. intros url.
    apply once_after; [unfold env_api_key; reading_solve|]. intros api_key.
    apply once_after; [apply reading_pure|]. intros timeout.
    eapply once_then; [apply once_post_json| |].
    + intros response s. by destruct (optional_string_field _ _).
    + by intros.
Qed.

(** C24: The requests of a bundled annotator's dispatch. It reads the
    environment, and an [llm] annotator that names its prompt by a pinned
    URL may send one GET for it, with the HTTPS agent and the redirects
    [limits] gives the fetch of a manifest; no other annotator sends a GET.
    Then it sends at most one POST, which follows no redirect, and nothing
    after it; an annotation was read from that request's answer, a complete
    body of at most [MAX_RESPONSE_BYTES] with a 2xx status, and without a
    POST there is only an error. *)
Theorem dispatch_one_request limits name annotator input s :
  let run := annotator_dispatch_default limits name annotator input s in
  let fields := invocation_fields annotator in
  ∃ reads, Forall (λ a, ¬ sends_post a) reads ∧
    (prompt_gets reads = [] ∨ ∃ source, bt_get ANNOTATOR_TYPE fields = Some (JString TYPE_LLM) ∧
      system_prompt_source fields = Ok (Some source) ∧
      prompt_gets reads = [(https_agent limits, pin_url source)]) ∧
    ((sent_trace run.1 = sent_trace s ++ reads ∧ ∃ e, run.2 = Err e) ∨
     ∃ rq, sent_trace run.1 = sent_trace s ++ reads ++ [ActPost rq] ∧ rq_max_redirects rq = 0%N ∧
       ∀ v, run.2 = Ok v → ∃ w w' raw, http_post w rq = (w', Ok raw) ∧
         (N.of_nat (length (rs_bytes raw)) <= MAX_RESPONSE_BYTES)%N ∧ rs_error raw = None ∧
         success_status (rs_status raw) = true).
Proof.
  set (fields := invocation_fields annotator).
  set (gets := if bool_decide (bt_get ANNOTATOR_TYPE fields ≫= as_str = Some TYPE_LLM) then prompt_get fields limits else []).
  assert (posts_once gets (annotator_dispatch_default limits name annotator input) (λ _ raw, accepted raw)) as Honce.
  { unfold annotator_dispatch_default, gets. fold fields. destruct (_ ≫= as_str) as [kind|]; [|apply once_fail].
    repeat case_bool_decide; subst; simplify_eq; try apply once_fail; try (by apply once_weaken, once_classifier);
      try (by apply once_weaken, once_endpoint); try done; try apply once_llm. }
  destruct (Honce s) as (reads & [Hreads Hgets] & Hcases). exists reads. split; [done|]. split.
  - unfold gets in Hgets. case_bool_decide as Hkind; [|left; by apply sublist_nil_r].
    unfold prompt_get in Hgets. destruct (system_prompt_source fields) as [[source|]|e]; try (left; by apply sublist_nil_r).
    inversion Hgets as [| |? ? ? Hnil]; subst; [right|left; by apply sublist_nil_r].
    exists source. split; [|split; [done|]].
    + destruct (bt_get ANNOTATOR_TYPE fields) as [[]|]; simplify_eq/=; done.
    + f_equal. by apply sublist_nil_r.
  - destruct Hcases as [?|(rq & ? & ? & Hok)]; [by left|right]. exists rq. split_and!; try done.
    intros v Hv. destruct (Hok v Hv) as (w & w' & raw & ? & [] & ?). by exists w, w', raw.
Qed.
End dispatchers.
