(* ===== verification/Opa.v ===== *)
(** * The [opa] command line dispatcher: [engine/src/opa.rs]

    What it fetches and stages, the process it runs, how it waits, and the
    verdict it reads from the output. The operating system is the host, of
    any state [W]; every call on it is recorded in order. Durations are
    nanoseconds. *)

From S2P Require Import Prelude OrdMap RustStd Json Errors AgentHooks Constants Limits.
From S2P Require Import Pins Policy StdPath Manifest Cedar Loader.

Definition OPA_PATH_ENV : string := "ACS_OPA_PATH".
Definition OPA_TIMEOUT_ENV : string := "ACS_OPA_TIMEOUT_MS".
Definition DEFAULT_OPA_TIMEOUT : N := 5000000000.
Definition ERROR_OUTPUT_LIMIT : nat := 4096.
Definition BUNDLE_CLEANUP_ATTEMPTS : nat := 3.
Definition BUNDLE_CLEANUP_RETRY_DELAY : N := 50000000.
Definition POLL_DELAY : N := 10000000.

(** ** The operating system *)

(** An exit status: [success()] and its [Display]. *)
Record ExitStatus := mkExitStatus { status_success : bool; status_text : string }.
Record Output := mkOutput { output_status : ExitStatus; output_stdout : list Ascii.ascii; output_stderr : list Ascii.ascii }.

Class OpaHost (W : Type) := {
  Child : Type;
  os_env : W → string → option string;
  os_is_dir : W → string → bool;
  (** A fresh directory with this prefix, for the owner alone. *)
  os_temp_dir : W → string → W * result string string;
  (** [create_new] and [write_all]. *)
  os_write_new : W → string → list Ascii.ascii → W * result string ();
  os_remove_dir_all : W → string → W * result IoError ();
  os_stderr : W → string → W;
  os_sleep : W → N → W;
  os_now : W → N;
  (** The status of a command run to its end. *)
  os_run : W → string → list string → W * option ExitStatus;
  (** [io_not_found]: the kind or the errno says so. *)
  os_spawn : W → string → list string → W * result IoError Child;
  (** [write_all] on the child's stdin, and closing it. *)
  os_write_stdin : W → Child → string → W * result string ();
  os_try_wait : W → Child → W * result string (option ExitStatus);
  os_kill : W → Child → W;
  os_wait : W → Child → W;
  (** [join] of the two reader threads; [None] if the thread panicked. *)
  os_stdout : W → Child → W * option (result string (list Ascii.ascii));
  os_stderr_of : W → Child → W * option (result string (list Ascii.ascii)) }.

Inductive OpaAction : Type :=
  | ActFetch (url : string)
  | ActStaged (directory : string)
  | ActRemove (directory : string) (removed : bool)
  | ActWarn (directory : string)
  | ActSpawn (executable : string) (args : list string)
  | ActKill.

Record OpaRun (W : Type) := mkOpaRun { opa_world : W; opa_trace : list OpaAction }.
Arguments mkOpaRun {W}.
Arguments opa_world {W}.
Arguments opa_trace {W}.

Definition running (W E A : Type) : Type := OpaRun W → OpaRun W * result E A.
#[export] Instance running_ret {W E} : MRet (running W E) := λ A a s, (s, Ok a).
#[export] Instance running_bind {W E} : MBind (running W E) := λ A B f m s,
  match m s with (s, Ok a) => f a s | (s, Err e) => (s, Err e) end.

Definition returning {W E A} (r : result E A) : running W E A := λ s, (s, r).
Definition run_err {W E F A} (f : E → F) (m : running W E A) : running W F A := λ s,
  let (s, r) := m s in (s, map_err f r).
Definition calling {W A} (f : W → W * A) (note : A → list OpaAction) : OpaRun W → OpaRun W * A := λ s,
  let (w, a) := f (opa_world s) in (mkOpaRun w (opa_trace s ++ note a), a).
Definition silent {W} (f : W → W) (s : OpaRun W) : OpaRun W := mkOpaRun (f (opa_world s)) (opa_trace s).
Definition noting {W} (a : OpaAction) (s : OpaRun W) : OpaRun W := mkOpaRun (opa_world s) (opa_trace s ++ [a]).

(** ** The runner *)

Record OpaRegoRunner := mkOpaRunner {
  op_executable : string; op_data_paths : list string; op_eval_timeout : N; op_limits : Limits }.

Definition opa_runner_new : OpaRegoRunner := mkOpaRunner "opa" [] DEFAULT_OPA_TIMEOUT default_limits.
Definition opa_with_executable (path : string) (r : OpaRegoRunner) : OpaRegoRunner :=
  mkOpaRunner path (op_data_paths r) (op_eval_timeout r) (op_limits r).
Definition opa_with_eval_timeout (timeout : N) (r : OpaRegoRunner) : OpaRegoRunner :=
  mkOpaRunner (op_executable r) (op_data_paths r) timeout (op_limits r).
Definition opa_with_limits (limits : Limits) (r : OpaRegoRunner) : OpaRegoRunner :=
  mkOpaRunner (op_executable r) (op_data_paths r) (op_eval_timeout r) limits.
Definition opa_with_data_path (path : string) (r : OpaRegoRunner) : OpaRegoRunner :=
  mkOpaRunner (op_executable r) (op_data_paths r ++ [path]) (op_eval_timeout r) (op_limits r).
Definition opa_with_data_paths (paths : list string) (r : OpaRegoRunner) : OpaRegoRunner :=
  mkOpaRunner (op_executable r) (op_data_paths r ++ paths) (op_eval_timeout r) (op_limits r).

Definition opa_eval_timeout_from_environment (env : string → option string) : option N :=
  value ← env OPA_TIMEOUT_ENV;
  millis ← parse_usize_signed value;
  if (0 <? millis)%N then Some (millis * 1000000)%N else None.

Definition opa_binary_name : string := "opa".
Definition resolve_opa_executable_hint (is_dir : string → bool) (hint : string) : string :=
  if is_dir hint then path_join hint opa_binary_name else hint.

Definition opa_from_environment (env : string → option string) (is_dir : string → bool) : OpaRegoRunner :=
  let runner :=
    match env OPA_PATH_ENV with
    | Some value =>
        if str_is_empty value then opa_runner_new
        else opa_with_executable (resolve_opa_executable_hint is_dir value) opa_runner_new
    | None => opa_runner_new
    end in
  match opa_eval_timeout_from_environment env with
  | Some timeout => opa_with_eval_timeout timeout runner
  | None => runner
  end.

(** ** Reading the output *)

Record OpaEvalError := mkOpaError { oe_code : option string; oe_message : string }.
Record OpaEvalResponse := mkOpaResponse {
  or_result : list (list JsonValue);  (** the expressions' values of each result *)
  or_errors : list OpaEvalError }.

(** The derived deserializer. *)
Class OpaFormats := { response_from_slice : list Ascii.ascii → result string OpaEvalResponse }.

Definition format_opa_errors (errors : list OpaEvalError) : string :=
  join "; " ((λ error, match oe_code error with
    | Some code => code +:+ ": " +:+ oe_message error | None => oe_message error end) <$> errors).

Definition parse_opa_eval_output `{OpaFormats} (stdout : list Ascii.ascii) : result RuntimeError JsonValue :=
  response ← map_err (λ err, invocation_failed ("failed to parse OPA JSON output: " +:+ err))
    (response_from_slice stdout);
  if negb (bool_decide (length (or_errors response) = 0%nat))
  then Err (invocation_failed ("OPA returned errors: " +:+ format_opa_errors (or_errors response)))
  else
    match or_result response with
    | [] => Err (invocation_failed "OPA query returned no result")
    | [result] =>
        match result with
        | [value] => Ok value
        | [] => Err (invocation_failed "OPA query returned a result with no expression value")
        | _ => Err (invocation_failed
            "OPA query returned multiple expression values; policy query must resolve to one verdict")
        end
    | _ => Err (invocation_failed
        "OPA query returned multiple results; policy query must resolve to one verdict")
    end.

Definition truncate (value : string) : string :=
  let '(truncated, more) := chars_take ERROR_OUTPUT_LIMIT value in
  if (more : bool) then truncated +:+ str_of_bytes [226; 128; 166]%N else truncated.

Definition process_error_output (output : Output) : string :=
  let stderr := trim (from_utf8_lossy (output_stderr output)) in
  let detail := if str_is_empty stderr then trim (from_utf8_lossy (output_stdout output)) else stderr in
  if str_is_empty detail then "OPA produced no error output" else truncate detail.

(** ** The command *)

(** [strip_windows_verbatim_prefix], which runs on every system. *)
Definition opa_command_path_arg (path : string) : string :=
  match strip_prefix "\\?\UNC\" path with
  | Some stripped => "\\" +:+ stripped
  | None => match strip_prefix "\\?\" path with Some stripped => stripped | None => path end
  end.

(** The arguments of [opa], in order. *)
Definition opa_args (r : OpaRegoRunner) (invocation : RegoPolicyInvocation) (remote : option string)
  (adapter_data_paths : list string) : list string :=
  let flagged flag (path : string) := [flag; opa_command_path_arg path] in
  ["eval"; "--format"; "json"; "--stdin-input"] ++
  (match ri_bundle invocation with Some bundle => flagged "--bundle" bundle | None => [] end) ++
  (match remote with Some bundle => flagged "--bundle" bundle | None => [] end) ++
  (op_data_paths r ≫= flagged "--data") ++ (adapter_data_paths ≫= flagged "--data") ++
  [ri_query invocation].

Definition reject_in_memory_bundle `{UrlCrate} (invocation : RegoPolicyInvocation) : result RuntimeError () :=
  invocation_bundle_url invocation ;;
  if bool_decide (is_Some (ri_inline_bundle invocation)) then
    Err (invocation_failed "this policy supplies Rego modules in memory, which the `opa` CLI dispatcher cannot evaluate because it passes policy to a subprocess as paths. Use the in-process Rego dispatcher, or stage the modules to a directory and point `bundle` at it")
  else Ok ().

Section host.
Context {W : Type} `{OpaHost W} `{LoaderHost W}.
Context `{AgentHooks} `{UrlCrate} `{SerdeJson} `{Sha2} `{OpaFormats}.

(** ** Staging *)

Definition bundle_path (directory : string) : string := path_join directory "bundle.tar.gz".

(** [cleanup_bundle_directory]: the attempts left of
    [BUNDLE_CLEANUP_ATTEMPTS]. *)
Fixpoint cleanup_attempts (attempts : nat) (directory : string) (s : OpaRun W) : OpaRun W :=
  match attempts with
  | O => s
  | S more =>
      let '(s, r) := calling (λ w, os_remove_dir_all w directory) (λ r, [ActRemove directory (is_ok r)]) s in
      match r with
      | Ok _ => s
      | Err error =>
          if io_not_found error then s
          else
            match more with
            | O => noting (ActWarn directory) (silent (λ w, os_stderr w
                ("ACS warning: failed to remove staged OPA bundle directory '" +:+ directory +:+ "' after " +:+
                 fmt_N (N.of_nat BUNDLE_CLEANUP_ATTEMPTS) +:+ " attempts: " +:+ io_text error +:+
                 ". The policy result is unchanged; the host must reclaim this directory when it is no longer in use.")) s)
            | S _ => cleanup_attempts more directory (silent (λ w, os_sleep w BUNDLE_CLEANUP_RETRY_DELAY) s)
            end
      end
  end.

(** [StagedBundle::cleanup], which runs once: at the end of the run or when
    the bundle is dropped on an early return. *)
Definition cleanup (directory : string) : OpaRun W → OpaRun W :=
  cleanup_attempts BUNDLE_CLEANUP_ATTEMPTS directory.

(** [StagedBundle::new], as the directory it owns. *)
Definition stage_bundle (bytes : list Ascii.ascii) : running W RuntimeError string := λ s,
  let failed err := Err (invocation_failed
    ("failed to stage pinned OPA bundle in the temporary directory: " +:+ err)) in
  let '(s, created) := calling (λ w, os_temp_dir w "acs-opa-bundle-")
    (λ r, match r with Ok directory => [ActStaged directory] | Err _ => [] end) s in
  match created with
  | Err err => (s, failed err)
  | Ok directory =>
      let '(s, written) := calling (λ w, os_write_new w (bundle_path directory) bytes) (λ _, []) s in
      match written with
      | Err err => (cleanup directory s, failed err)
      | Ok _ => (s, Ok directory)
      end
  end.

(** [fetch_pinned_https_bytes], with the GETs it made. *)
Definition fetch_bundle (source : PinnedHttpsSource) (limits : Limits) : running W RuntimeError (list Ascii.ascii) := λ s,
  let (l, r) := fetch_pinned_https_bytes source limits (mkLoad (opa_world s) [] (with_limits limits)) in
  (mkOpaRun (load_world l) (opa_trace s ++ omap (λ a, match a with ActGet _ url _ => Some (ActFetch url) | _ => None end)
    (load_trace l)), map_err (λ err, invocation_failed (detail err)) r).

(** ** Waiting *)

(** [wait_for_exit_or_timeout], its loop; [None] is out of fuel. *)
Fixpoint wait_for_exit (fuel : nat) (child : Child) (timeout deadline : N) (s : OpaRun W)
  : OpaRun W * option (result string ExitStatus) :=
  match fuel with
  | O => (s, None)
  | S fuel =>
      let '(s, status) := calling (λ w, os_try_wait w child) (λ _, []) s in
      match status with
      | Err err => (s, Some (Err err))
      | Ok (Some status) => (s, Some (Ok status))
      | Ok None =>
          if (deadline <=? os_now (opa_world s))%N then
            (silent (λ w, os_wait w child) (noting ActKill (silent (λ w, os_kill w child) s)),
             Some (Err ("OPA eval exceeded timeout of " +:+ fmt_N (timeout / 1000000) +:+ " ms")))
          else wait_for_exit fuel child timeout deadline (silent (λ w, os_sleep w POLL_DELAY) s)
      end
  end.

(** One poll per [POLL_DELAY], and the last. *)
Definition wait_fuel (timeout : N) : nat := N.to_nat (timeout / POLL_DELAY) + 2.

Definition wait_for_exit_or_timeout (child : Child) (timeout : N) : running W string ExitStatus := λ s,
  match wait_for_exit (wait_fuel timeout) child timeout (os_now (opa_world s) + timeout)%N s with
  | (s, Some r) => (s, r)
  | (s, None) => (s, Err "out of fuel")
  end.

Definition join_reader (join : W → W * option (result string (list Ascii.ascii)))
  : running W string (list Ascii.ascii) := λ s,
  let '(s, joined) := calling join (λ _, []) s in
  (s, match joined with Some read => read | None => Err "OPA output reader thread panicked" end).

(** [wait_with_timeout]: the readers drain the pipes while it waits, and
    are joined if the wait ends well. *)
Definition wait_with_timeout (child : Child) (timeout : N) : running W string Output :=
  status ← wait_for_exit_or_timeout child timeout;
  stdout ← join_reader (λ w, os_stdout w child);
  stderr ← join_reader (λ w, os_stderr_of w child);
  mret (mkOutput status stdout stderr).

(** ** Running *)

Definition opa_spawn_error (path_env : option string) (executable : string) (err : IoError) : RuntimeError :=
  if io_not_found err then
    match path_env with
    | Some value =>
        if str_is_empty value then invocation_failed ("OPA executable '" +:+ executable +:+
          "' was not found; install OPA or configure OpaRegoRunner::with_executable(...)")
        else invocation_failed ("default policy dispatcher could not execute OPA from $" +:+ OPA_PATH_ENV +:+
          ": '" +:+ executable +:+ "'; explicit OPA paths do not fall back to PATH")
    | None => invocation_failed ("OPA executable '" +:+ executable +:+
        "' was not found; install OPA or configure OpaRegoRunner::with_executable(...)")
    end
  else invocation_failed ("failed to start OPA executable '" +:+ executable +:+ "': " +:+ io_text err).

(** The part of [run_opa_eval] after the bundle is staged. The stdin pipe
    is there: it was asked for. *)
Definition run_command (r : OpaRegoRunner) (invocation : RegoPolicyInvocation) (args : list string)
  : running W RuntimeError Output := λ s,
  let path_env := os_env (opa_world s) OPA_PATH_ENV in
  (child ← run_err (opa_spawn_error path_env (op_executable r))
     (calling (λ w, os_spawn w (op_executable r) args) (λ _, [ActSpawn (op_executable r) args]));
   (λ s, let '(s, written) := calling (λ w, os_write_stdin w child (ri_canonical_input invocation)) (λ _, []) s in
     match written with
     | Ok _ => (s, Ok ())
     | Err err => (silent (λ w, os_wait w child) s,
         Err (invocation_failed ("failed to write OPA stdin input: " +:+ err)))
     end) ;;
   run_err (λ err, invocation_failed ("failed to read OPA output: " +:+ err))
     (wait_with_timeout child (op_eval_timeout r))) s.

(** The same with a staged bundle, which is removed however it ends. *)
Definition run_staged (r : OpaRegoRunner) (invocation : RegoPolicyInvocation) (paths : list string)
  (directory : string) : running W RuntimeError Output := λ s,
  let '(s, result) := run_command r invocation
    (opa_args r invocation (Some (bundle_path directory)) paths) s in
  (cleanup directory s, result).

Definition run_opa_eval (r : OpaRegoRunner) (invocation : RegoPolicyInvocation) : running W RuntimeError Output :=
  adapter_data_paths ← returning (rego_adapter_data_paths (ri_adapter_config invocation));
  source ← returning (invocation_bundle_url invocation);
  match source with
  | None => run_command r invocation (opa_args r invocation None adapter_data_paths)
  | Some source =>
      bytes ← fetch_bundle source (op_limits r);
      directory ← stage_bundle bytes;
      run_staged r invocation adapter_data_paths directory
  end.

(** [OpaRegoRunner::evaluate]. *)
Definition opa_evaluate (r : OpaRegoRunner) (invocation : RegoPolicyInvocation) : running W RuntimeError JsonValue :=
  returning (reject_in_memory_bundle invocation) ;;
  output ← run_opa_eval r invocation;
  if negb (status_success (output_status output)) then
    returning (Err (invocation_failed ("opa eval failed with " +:+ status_text (output_status output) +:+ ": " +:+
      process_error_output output)))
  else returning (parse_opa_eval_output (output_stdout output)).

Definition opa_is_available (r : OpaRegoRunner) (w : W) : bool :=
  match (os_run w (op_executable r) ["version"]).2 with
  | Some status => status_success status
  | None => false
  end.

(** [PolicyDispatcher for OpaPolicyDispatcher]. *)
Definition opa_dispatch (r : OpaRegoRunner) (invocation : PreparedPolicyInvocation)
  : running W RuntimeError JsonValue :=
  match invocation with
  | PreparedRego invocation => opa_evaluate r invocation
  | other => returning (Err (invocation_failed ("OPA policy dispatcher only supports Rego invocations; received " +:+
      prepared_engine_type other +:+ " invocation")))
  end.
End host.
