(* ===== verification/OpaFacts.v ===== *)
(** * The [opa] dispatcher: waiting, cleaning up, and the verdict

    The wait for the process ends, a staged bundle is removed however the
    run ends and without changing its result, and a verdict is the one value
    a successful run printed. *)

From S2P Require Import Prelude OrdMap RustStd Json Errors AgentHooks Constants Limits Concrete.
From S2P Require Import Pins Policy StdPath Manifest Cedar CedarFacts Loader Opa.

Section host.
Context {W : Type} `{OpaHost W} `{LoaderHost W}.
Context `{AgentHooks} `{UrlCrate} `{SerdeJson} `{Sha2} `{OpaFormats}.

(** ** The wait *)

(** Documented behaviour of the clock: it does not go back, and a sleep
    takes at least its time. *)
Class ClockLaws : Prop := {
  clock_sleep w d : (os_now w + d <= os_now (os_sleep w d))%N;
  clock_try_wait w child : (os_now w <= os_now (os_try_wait w child).1)%N }.

(** A poll that does not end the wait sleeps, before the deadline. *)
Lemma wait_for_exit_poll fuel child timeout deadline s :
  let polled := calling (λ w, os_try_wait w child) (λ _, []) s in
  is_Some (wait_for_exit (S fuel) child timeout deadline s).2 ∨
  ((os_now (opa_world polled.1) < deadline)%N ∧
   wait_for_exit (S fuel) child timeout deadline s =
   wait_for_exit fuel child timeout deadline (silent (λ w, os_sleep w POLL_DELAY) polled.1)).
Proof.
  cbn [wait_for_exit]. destruct (calling _ _ s) as [s' [[status|]|err]]; cbn; [by left| |by left].
  destruct (deadline <=? os_now (opa_world s'))%N eqn:Hdeadline; [by left|right]. b2p. by split.
Qed.

Lemma wait_for_exit_ends `{!ClockLaws} fuel child timeout deadline s :
  (deadline <= os_now (opa_world s) + N.of_nat fuel * POLL_DELAY)%N →
  is_Some (wait_for_exit (S fuel) child timeout deadline s).2.
Proof.
  revert s. induction fuel as [|fuel IH]; intros s Hfuel.
  all: pose proof (clock_try_wait (opa_world s) child) as Hclock.
  all: match goal with |- is_Some (wait_for_exit (S ?n) _ _ _ _).2 =>
    destruct (wait_for_exit_poll n child timeout deadline s) as [?|[Hlt ->]]; [done|] end.
  all: unfold calling in *; destruct (os_try_wait (opa_world s) child) as [w r]; cbn in Hlt, Hclock.
  - lia.
  - apply IH. cbn. pose proof (clock_sleep w POLL_DELAY). lia.
Qed.

(** The wait for the process always ends within one poll per ten milliseconds of the timeout and one
    more: with the exit status, an error of the system, or a kill at the deadline. *)
Theorem opa_wait_ends `{!ClockLaws} child timeout s :
  (wait_for_exit_or_timeout child timeout s).2 =
    match (wait_for_exit (wait_fuel timeout) child timeout (os_now (opa_world s) + timeout)%N s).2 with
    | Some r => r
    | None => Err "out of fuel"
    end ∧
  is_Some (wait_for_exit (wait_fuel timeout) child timeout (os_now (opa_world s) + timeout)%N s).2.
Proof.
  split; [unfold wait_for_exit_or_timeout; by destruct (wait_for_exit _ _ _ _ _) as [? []]|].
  unfold wait_fuel. rewrite Nat.add_comm. cbn [Nat.add]. apply wait_for_exit_ends.
  pose proof (N.div_mod timeout POLL_DELAY ltac:(done)). pose proof (N.mod_lt timeout POLL_DELAY ltac:(done)). lia.
Qed.

(** ** What a run does *)

#[local] Arguments cleanup : simpl never.

(** Removing [directory]: up to [BUNDLE_CLEANUP_ATTEMPTS] attempts, of which
    the last succeeds, finds nothing, or is reported. *)
Definition removal (directory : string) (actions : list OpaAction) : Prop :=
  ∃ failed ending, actions = replicate failed (ActRemove directory false) ++ ending ∧
    ((ending = [ActRemove directory true] ∧ (failed < BUNDLE_CLEANUP_ATTEMPTS)%nat) ∨
     (ending = [] ∧ (0 < failed ≤ BUNDLE_CLEANUP_ATTEMPTS)%nat) ∨
     (ending = [ActWarn directory] ∧ failed = BUNDLE_CLEANUP_ATTEMPTS)).

(** Neither staging nor removing. *)
Definition outside (a : OpaAction) : Prop :=
  match a with ActStaged _ | ActRemove _ _ | ActWarn _ => False | _ => True end.

(** What a step adds to the trace. *)
Definition adds {E A} (m : running W E A) (P : list OpaAction → Prop) : Prop :=
  ∀ s, ∃ more, opa_trace (m s).1 = opa_trace s ++ more ∧ P more.

Lemma cleanup_attempts_removal n done directory s :
  (0 < n)%nat → (done + n = BUNDLE_CLEANUP_ATTEMPTS)%nat →
  ∃ more, opa_trace (cleanup_attempts n directory s) = opa_trace s ++ more ∧
    removal directory (replicate done (ActRemove directory false) ++ more).
Proof.
  revert done s. induction n as [|n IH]; intros done s Hn Hdone; [lia|]. cbn [cleanup_attempts]. unfold calling.
  assert (∀ k l, replicate k (ActRemove directory false) ++ ActRemove directory false :: l =
    replicate (S k) (ActRemove directory false) ++ l) as Hrep.
  { intros k l. induction k as [|k IHk]; [done|]. cbn. by rewrite IHk. }
  destruct (os_remove_dir_all (opa_world s) directory) as [w [[]|error]]; cbn.
  - eexists. split; [done|]. exists done, [ActRemove directory true]. split; [done|]. left. split; [done|lia].
  - destruct (io_not_found error); cbn.
    { eexists. split; [done|]. rewrite Hrep. exists (S done), []. split; [by rewrite app_nil_r|]. right. left. split; [done|lia]. }
    destruct n as [|n].
    + cbn. eexists. rewrite <- app_assoc. split; [done|]. cbn [app]. rewrite Hrep.
      exists (S done), [ActWarn directory]. split; [done|]. right. right. split; [done|lia].
    + destruct (IH (S done) (silent (λ w, os_sleep w BUNDLE_CLEANUP_RETRY_DELAY)
        (mkOpaRun w (opa_trace s ++ [ActRemove directory false])))) as (more & Htrace & Hremoval); [lia..|].
      exists (ActRemove directory false :: more). rewrite Htrace. cbn. rewrite <- app_assoc. split; [done|].
      by rewrite Hrep.
Qed.

Lemma cleanup_removal directory s :
  ∃ more, opa_trace (cleanup directory s) = opa_trace s ++ more ∧ removal directory more.
Proof. apply (cleanup_attempts_removal BUNDLE_CLEANUP_ATTEMPTS 0); unfold BUNDLE_CLEANUP_ATTEMPTS; lia. Qed.

Local Notation quiet m := (adds m (Forall outside)).

Lemma quiet_returning {E A} (r : result E A) : quiet (returning r : running W E A).
Proof. intros s. exists []. by rewrite app_nil_r. Qed.

Lemma quiet_calling {E A} (f : W → W * result E A) note :
  (∀ a, Forall outside (note a)) → quiet (calling f note).
Proof. intros Hnote s. unfold calling. destruct (f (opa_world s)) as [w a]. by exists (note a). Qed.

Lemma quiet_err {E F A} (f : E → F) (m : running W E A) : quiet m → quiet (run_err f m).
Proof. intros Hm s. destruct (Hm s) as (more & Hmore & ?). exists more. unfold run_err. by destruct (m s). Qed.

Lemma quiet_bind {E A B} (m : running W E A) (f : A → running W E B) :
  quiet m → (∀ a, quiet (f a)) → quiet (m ≫= f).
Proof.
  intros Hm Hf s. unfold mbind, running_bind. destruct (Hm s) as (more & Hmore & Hout).
  destruct (m s) as [s1 [a|e]]; [|by exists more]. cbn in Hmore.
  destruct (Hf a s1) as (more' & Hmore' & Hout'). exists (more ++ more').
  rewrite Hmore', Hmore, app_assoc. split; [done|by apply Forall_app].
Qed.

Lemma wait_for_exit_quiet fuel child timeout deadline s :
  ∃ more, opa_trace (wait_for_exit fuel child timeout deadline s).1 = opa_trace s ++ more ∧ Forall outside more.
Proof.
  revert s. induction fuel as [|fuel IH]; intros s; cbn [wait_for_exit]; [exists []; by rewrite app_nil_r|].
  unfold calling. destruct (os_try_wait (opa_world s) child) as [w [[status|]|err]]; cbn;
    rewrite ?app_nil_r; [by exists []; rewrite app_nil_r| |by exists []; rewrite app_nil_r].
  destruct (_ <=? _)%N; [by exists [ActKill]; split; [|repeat constructor]|].
  destruct (IH (silent (λ w, os_sleep w POLL_DELAY) (mkOpaRun w (opa_trace s)))) as (more & ? & ?). by exists more.
Qed.

Lemma join_reader_quiet join : quiet (join_reader join).
Proof. intros s. exists []. unfold join_reader, calling. destruct (join _) as [w joined]. by split. Qed.

Lemma wait_with_timeout_quiet child timeout : quiet (wait_with_timeout child timeout).
Proof.
  apply quiet_bind.
  { intros s. unfold wait_for_exit_or_timeout.
    destruct (wait_for_exit_quiet (wait_fuel timeout) child timeout (os_now (opa_world s) + timeout)%N s) as (more & ? & ?).
    exists more. destruct (wait_for_exit _ _ _ _ s) as [s' [r|]]; done. }
  intros status. apply quiet_bind; [apply join_reader_quiet|]. intros out.
  apply quiet_bind; [apply join_reader_quiet|]. intros err. apply quiet_returning.
Qed.

Lemma run_command_quiet r invocation args : quiet (run_command r invocation args).
Proof.
  intros s. unfold run_command. cbn zeta. generalize (os_env (opa_world s) OPA_PATH_ENV) as path_env. intros path_env.
  refine (quiet_bind _ _ _ _ s).
  - apply quiet_err, quiet_calling. intros a. repeat constructor.
  - intros child. refine (quiet_bind _ _ _ _).
    + intros s'. unfold calling. destruct (os_write_stdin _ _ _) as [w [[]|err]]; cbn; rewrite ?app_nil_r;
        exists []; by rewrite app_nil_r.
    + intros _. apply quiet_err, wait_with_timeout_quiet.
Qed.

Lemma fetch_bundle_quiet source limits : quiet (fetch_bundle source limits).
Proof.
  intros s. unfold fetch_bundle. destruct (fetch_pinned_https_bytes _ _ _) as [l r]. cbn.
  eexists. split; [done|]. apply Forall_forall. intros a (b & _ & Hb)%list_elem_of_omap.
  destruct b; simplify_eq. exact I.
Qed.

(** A run stages nothing, or one directory, which it removes last. *)
Definition reclaimed (actions : list OpaAction) : Prop :=
  Forall outside actions ∨
  ∃ directory before during after, actions = before ++ ActStaged directory :: during ++ after ∧
    Forall outside before ∧ Forall outside during ∧ removal directory after.

Lemma quiet_reclaimed {E A} (m : running W E A) : quiet m → adds m reclaimed.
Proof. intros Hm s. destruct (Hm s) as (more & ? & ?). exists more. split; [done|by left]. Qed.

Lemma quiet_then_reclaimed {E A B} (m : running W E A) (f : A → running W E B) :
  quiet m → (∀ a, adds (f a) reclaimed) → adds (m ≫= f) reclaimed.
Proof.
  intros Hm Hf s. unfold mbind, running_bind. destruct (Hm s) as (more & Hmore & Hout).
  destruct (m s) as [s1 [a|e]]; [|by exists more; split; [|left]]. cbn in Hmore.
  destruct (Hf a s1) as (more' & Hmore' & Hre). exists (more ++ more'). rewrite Hmore', Hmore, app_assoc.
  split; [done|]. destruct Hre as [Hout'|(d & b & m' & a' & -> & ? & ? & ?)]; [left; by apply Forall_app|].
  right. exists d, (more ++ b), m', a'. rewrite app_assoc. split_and!; try done. by apply Forall_app.
Qed.

Lemma reclaimed_then_quiet {E A B} (m : running W E A) (f : A → running W E B) :
  adds m reclaimed → (∀ a s, (f a s).1 = s) → adds (m ≫= f) reclaimed.
Proof.
  intros Hm Hf s. unfold mbind, running_bind. destruct (Hm s) as (more & Hmore & Hre). exists more.
  destruct (m s) as [s1 [a|e]]; [|done]. by rewrite Hf.
Qed.

Lemma staged_reclaimed r invocation paths bytes :
  adds (directory ← stage_bundle bytes; run_staged r invocation paths directory) reclaimed.
Proof.
  intros s. unfold mbind, running_bind, stage_bundle, calling.
  destruct (os_temp_dir (opa_world s) "acs-opa-bundle-") as [w [directory|err]]; cbn.
  2: { exists []. rewrite app_nil_r. split; [done|by left]. }
  destruct (os_write_new w (bundle_path directory) bytes) as [w' [[]|err]]; cbn; rewrite ?app_nil_r.
  - unfold run_staged. set (args := opa_args _ _ _ _).
    destruct (run_command_quiet r invocation args (mkOpaRun w' (opa_trace s ++ [ActStaged directory])))
      as (during & Hduring & Hout).
    destruct (run_command r invocation args _) as [s1 result]. cbn in *.
    destruct (cleanup_removal directory s1) as (after & Hafter & Hremoval).
    exists (ActStaged directory :: during ++ after). rewrite Hafter, Hduring, <- !app_assoc. split; [done|].
    right. by exists directory, [], during, after.
  - destruct (cleanup_removal directory (mkOpaRun w' (opa_trace s ++ [ActStaged directory]))) as (after & Hafter & Hremoval).
    exists (ActStaged directory :: after). rewrite Hafter. cbn. rewrite <- app_assoc. split; [done|].
    right. by exists directory, [], [], after.
Qed.

(** However an evaluation ends, a verdict, an error of any step, a timeout, the temporary directory it staged
    a remote bundle in is removed as its last act: up to three attempts, the last of which succeeds, finds
    nothing left, or is reported; and there is one such directory at most. *)
Theorem opa_bundle_reclaimed r invocation : adds (opa_evaluate r invocation) reclaimed.
Proof.
  apply quiet_then_reclaimed; [apply quiet_returning|]. intros _. apply reclaimed_then_quiet.
  - apply quiet_then_reclaimed; [apply quiet_returning|]. intros paths.
    apply quiet_then_reclaimed; [apply quiet_returning|]. intros [source|].
    + apply quiet_then_reclaimed; [apply fetch_bundle_quiet|]. intros bytes. apply staged_reclaimed.
    + apply quiet_reclaimed, run_command_quiet.
  - intros output s. by destruct (negb _).
Qed.

(** ** The verdict *)

Lemma running_bind_Ok {E A B} (m : running W E A) (f : A → running W E B) s s' b :
  (m ≫= f) s = (s', Ok b) ↔ ∃ s1 a, m s = (s1, Ok a) ∧ f a s1 = (s', Ok b).
Proof.
  unfold mbind, running_bind. destruct (m s) as [s1 [a|e]]; split; [by eexists _, _| | |].
  - by intros (? & ? & [= -> ->] & ?).
  - done.
  - by intros (? & ? & ? & _).
Qed.

(** A verdict is the single value of a run that exited well and reported no error, of policies that are
    all on disk. *)
Theorem opa_verdict_sound r invocation s s' verdict :
  opa_evaluate r invocation s = (s', Ok verdict) →
  ri_inline_bundle invocation = None ∧
  ∃ output response, status_success (output_status output) = true ∧
    response_from_slice (output_stdout output) = Ok response ∧
    or_errors response = [] ∧ or_result response = [[verdict]].
Proof.
  intros (s1 & [] & Hreject & (s2 & output & _ & Hverdict)%running_bind_Ok)%running_bind_Ok.
  injection Hreject as _ Hreject. split.
  { unfold reject_in_memory_bundle in Hreject. apply bind_Ok in Hreject as (url & _ & Hinline).
    by destruct (ri_inline_bundle invocation). }
  exists output. destruct (status_success (output_status output)); cbn in Hverdict; [|done].
  injection Hverdict as _ Hverdict. unfold parse_opa_eval_output in Hverdict.
  apply bind_Ok in Hverdict as (response & Hresponse%map_err_Ok & Hverdict). exists response.
  destruct (or_errors response) as [|error errors]; [|done]. cbn in Hverdict.
  split_and!; try done. repeat case_match; simplify_eq; done.
Qed.
End host.

(** ** A demonstration host

    Its world is the clock; [opa] exits well at once. *)

Module Demo.
#[export] Instance demo_opa : OpaHost N := {|
  Child := ();
  os_env _ _ := None; os_is_dir _ _ := false;
  os_temp_dir w _ := (w, Ok "/tmp/acs-opa-bundle-1");
  os_write_new w _ _ := (w, Ok ());
  os_remove_dir_all w _ := (w, Ok ());
  os_stderr w _ := w;
  os_sleep w d := (w + d)%N;
  os_now w := w;
  os_run w _ _ := (w, None);
  os_spawn w _ _ := (w, Ok ());
  os_write_stdin w _ _ := (w, Ok ());
  os_try_wait w _ := (w, Ok (Some (mkExitStatus true "exit status: 0")));
  os_kill w _ := w; os_wait w _ := w;
  os_stdout w _ := (w, Some (Ok [])); os_stderr_of w _ := (w, Some (Ok [])) |}.

#[export] Instance demo_clock : ClockLaws.
Proof. split; cbn; lia. Qed.

#[export] Instance demo_loader : LoaderHost N := {|
  fs_canonicalize w p := (w, Ok p);
  fs_read w _ _ := (w, Err "no file");
  http_get w _ _ := (w, Err "no network");
  deadline_fits _ _ := true |}.

#[export] Instance demo_formats : OpaFormats :=
  {| response_from_slice _ := Ok (mkOpaResponse [[JString "allow"]] []) |}.

Definition demo_invocation : RegoPolicyInvocation :=
  mkRegoInvocation "data.acs.verdict" (Some "/policy") None [] sample_policy_input "{}".

Definition start : OpaRun N := mkOpaRun 0%N [].
End Demo.

Section witnesses.
Import Demo.
#[local] Existing Instances Concrete.demo_hooks Concrete.demo_serde Concrete.demo_sha Pins.demo_url.

Lemma opa_wait_ends_witness :
  is_Some (wait_for_exit (wait_fuel 50000000) ()  50000000 (os_now (opa_world start) + 50000000)%N start).2.
Proof. exact (proj2 (opa_wait_ends () 50000000 start)). Defined.

Example opa_demo_verdict :
  (opa_evaluate opa_runner_new demo_invocation start).2 = Ok (JString "allow").
Proof. vm_compute. reflexivity. Qed.

Lemma opa_verdict_sound_witness :
  ∃ output response, status_success (output_status output) = true ∧
    response_from_slice (output_stdout output) = Ok response ∧ or_result response = [[JString "allow"]].
Proof.
  destruct (opa_verdict_sound opa_runner_new demo_invocation start
    (opa_evaluate opa_runner_new demo_invocation start).1 (JString "allow"))
    as (_ & output & response & Hok & Hresponse & _ & Hresult).
  - pose proof opa_demo_verdict as Hverdict. destruct (opa_evaluate _ _ _) as [s r]. cbn in *. by rewrite Hverdict.
  - by exists output, response.
Defined.
End witnesses.
