(* ===== verification/CodingAgent.v ===== *)
(** * The coding agent's annotators: [examples/coding_agent/app/src/main.rs]

    The checks a host registers with the engine in the example: labels for
    the input, for shell commands and written paths, and a scan for secrets,
    with the guard of its shell tool. The flows around them drive a library
    that is not in the repository. *)

From S2P Require Import Prelude OrdMap RustStd Json Errors AgentHooks Constants Paths.
From S2P Require Import Limits Pins StdPath Policy Manifest Cedar Rego Loader Opa.

(** ** Searching text *)

(** [str::find] of a non-empty pattern: the byte it starts at. *)
Fixpoint find_in (p s : string) : option nat :=
  if starts_with p s then Some 0%nat
  else match s with EmptyString => None | String _ s => S <$> find_in p s end.

Fixpoint str_drop (n : nat) (s : string) : string :=
  match n, s with
  | O, s => s
  | S n, String _ s => str_drop n s
  | S _, EmptyString => EmptyString
  end.

(** The closure of [find] in [secret_spans]: white space, a comma or a
    semicolon starts here. *)
Definition ends_token (s : string) : bool :=
  match s with
  | EmptyString => false
  | String c _ => bool_decide (c = byte_of 44) || bool_decide (c = byte_of 59)
  end || bool_decide (is_Some (strip_white s)).

(** [tail.find(..).unwrap_or(tail.len())]. *)
Fixpoint token_len (tail : string) : nat :=
  match tail with
  | EmptyString => 0
  | String _ rest => if ends_token tail then 0%nat else S (token_len rest)
  end.

Definition SECRET_MARKERS : list string := ["TOKEN="; "SECRET="; "sk-"].

Definition byte_to_char (text : string) (byte_index : nat) : N := chars_count (str_take byte_index text).

(** The [while let] loop for one marker, in bytes. *)
Fixpoint marker_spans (fuel : nat) (marker text : string) (offset : nat) : list (nat * nat) :=
  match fuel with
  | O => []
  | S fuel =>
      match find_in marker (str_drop offset text) with
      | None => []
      | Some found =>
          let start_byte := (offset + found)%nat in
          let end_byte := (start_byte + token_len (str_drop start_byte text))%nat in
          (start_byte, end_byte) :: marker_spans fuel marker text end_byte
      end
  end.

(** A turn per byte, and the last. *)
Definition marker_fuel (text : string) : nat := S (String.length text).

Definition span_ltb (x y : N * N) : bool := key_ltb x y.

(** [Vec::dedup]: equal neighbours. *)
Fixpoint dedup {A} `{EqDecision A} (l : list A) : list A :=
  match l with
  | x :: (y :: _) as l' => if decide (x = y) then dedup l' else x :: dedup l'
  | l => l
  end.

Definition byte_spans (text : string) : list (nat * nat) :=
  SECRET_MARKERS ≫= λ marker, marker_spans (marker_fuel text) marker text 0.

Definition secret_spans (text : string) : list (N * N) :=
  dedup (sort_by span_ltb ((λ span, (byte_to_char text span.1, byte_to_char text span.2)) <$> byte_spans text)).

Definition contains_secret (text : string) : bool := negb (bool_decide (secret_spans text = [])).

(** ** Labels *)

(** [str::to_lowercase], by the tables of Unicode. *)
Class UnicodeCase := { to_lowercase : string → string }.

(** [value[key]]: anything but a member of an object is null. *)
Definition value_index (key : string) (v : JsonValue) : JsonValue := default JNull (json_get key v).
Definition text_at (key : string) (v : JsonValue) : string := default "" (as_str (value_index key v)).

Section labels.
Context `{UnicodeCase} `{SerdeDisplay}.

Definition classify_input (target : JsonValue) : string :=
  let text := to_lowercase (text_at "text" target) in
  if str_contains "exfiltrate" text || str_contains "ignore previous" text then "prompt_injection"
  else if str_contains "secret" text then "secret_exfiltration"
  else "benign".

Definition classify_shell_command (target : JsonValue) : string :=
  let command := to_lowercase (text_at "command" target) in
  if str_contains "rm -rf" command || str_contains "shutdown" command || str_contains "mkfs" command
  then "destructive"
  else if str_contains "../" command || str_contains "/etc/" command || str_contains "/var/" command
  then "outside_workspace_write"
  else if str_contains " install " command || starts_with "apt " command || starts_with "npm install" command
  then "package_install"
  else "safe".

Definition classify_write_path (target : JsonValue) : string :=
  let path := text_at "path" target in
  if starts_with "/" path || str_contains ".." path then "outside_workspace" else "workspace".

Definition target_to_text (value : JsonValue) : string :=
  match value with
  | JString text => text
  | JObject m => match bt_get "text" m ≫= as_str with Some text => text | None => value_text value end
  | _ => value_text value
  end.

(** [CodingAgentAnnotators::dispatch]. *)
Definition coding_dispatch (annotator_name : string) (preliminary_policy_input : JsonValue)
  : result RuntimeError JsonValue :=
  let target := value_index "value" (value_index "policy_target" preliminary_policy_input) in
  let tool_name := text_at "name" (value_index "tool" preliminary_policy_input) in
  label ←
    (if decide (annotator_name = "input_risk") then Ok (classify_input target)
     else if decide (annotator_name = "shell_command_risk") then
       Ok (if bool_decide (tool_name = "run_shell") then classify_shell_command target else "safe")
     else if decide (annotator_name = "write_path_risk") then
       Ok (if bool_decide (tool_name = "write_file") then classify_write_path target else "workspace")
     else if decide (annotator_name = "secret_scan") then
       Ok (if contains_secret (target_to_text target) then "secret_present" else "clean")
     else Err (AnnotationFailed ("unknown annotator " +:+ annotator_name)));
  Ok (JString label).
End labels.

(** [CompletingOpaPolicy::evaluate], over the opa runner's call. *)
Definition coding_policy (evaluate : RegoPolicyInvocation → result RuntimeError JsonValue)
  (invocation : PreparedPolicyInvocation) : result RuntimeError JsonValue :=
  match invocation with
  | PreparedRego rego => evaluate rego
  | _ => Err (invocation_failed "coding demo only supports Rego policies")
  end.

(** [run_shell_tool]: what needs approval is simulated; [shell] is the
    output of running the command, or why it could not run. *)
Definition run_shell_tool (shell : string → result string string) (workspace : string) (args : JsonValue) : JsonValue :=
  let command := text_at "command" args in
  if str_contains "../" command || str_contains " install " command then
    JString ("simulated approved shell action in " +:+ workspace +:+ ": " +:+ command)
  else
    match shell command with
    | Ok text => JString text
    | Err err => JString ("shell failed: " +:+ err)
    end.

(** The file tools: [fs] is the call on the joined path, and says why it
    failed; [json!] makes a sorted object. *)
Definition read_file_tool (read_to_string : string → result string string) (workspace : string) (args : JsonValue)
  : JsonValue :=
  let relative := text_at "path" args in
  match read_to_string (path_join workspace relative) with
  | Ok content => JObject [("content", JString content); ("path", JString relative)]
  | Err err => JObject [("error", JString err); ("path", JString relative)]
  end.

Definition write_file_tool {W} (write : W → string → string → W * result string ()) (w : W) (workspace : string)
  (args : JsonValue) : W * JsonValue :=
  let relative := text_at "path" args in
  let content := text_at "content" args in
  let '(w, written) := write w (path_join workspace relative) content in
  (w, match written with
      | Ok _ => JObject [("path", JString relative); ("status", JString "written")]
      | Err err => JObject [("error", JString err); ("path", JString relative)]
      end).

(** [opa_path] and [find_on_path]; [split_paths] cuts at colons. *)
Fixpoint split_paths (paths : string) : list string :=
  match paths with
  | EmptyString => [""]
  | String c rest =>
      if bool_decide (c = byte_of 58) then "" :: split_paths rest
      else match split_paths rest with
           | dir :: dirs => String c dir :: dirs
           | [] => [String c ""]
           end
  end.

Definition find_on_path (env : string → option string) (is_file : string → bool) (name : string) : option string :=
  paths ← env "PATH";
  head (filter (λ candidate, is_file candidate = true) ((λ dir, path_join dir name) <$> split_paths paths)).

Definition opa_path (env : string → option string) (is_file : string → bool) : string :=
  match head (omap env ["OPA"; "OPA_PATH"]) with
  | Some value => value
  | None =>
      match find_on_path env is_file "opa" with
      | Some path => path
      | None => path_join (default "." (env "HOME")) ".local/bin/opa"
      end
  end.

(** ** The scan finds every marker *)

Lemma drop_app_str a b : str_drop (String.length a) (a +:+ b) = b.
Proof. induction a as [|c a IH]; [by destruct b|exact IH]. Qed.

Lemma take_drop_str n s : str_take n s +:+ str_drop n s = s.
Proof.
  unfold str_take. revert n. induction s as [|c s IH]; intros [|n]; cbn; [done..|]. f_equal. apply IH.
Qed.

Lemma str_drop_0 s : str_drop 0 s = s.
Proof. by destruct s. Qed.

Lemma str_drop_add n k s : str_drop (n + k) s = str_drop k (str_drop n s).
Proof. revert s. induction n as [|n IH]; intros [|c s]; cbn; [by destruct k|done|by destruct k|apply IH]. Qed.

Lemma find_in_None p s i : find_in p s = None → starts_with p (str_drop i s) = false.
Proof.
  revert i. induction s as [|c s IH]; intros i; cbn.
  - destruct (starts_with p "") eqn:Hp; [done|]. by destruct i.
  - destruct (starts_with p (String c s)) eqn:Hp; [done|]. intros Hf. destruct i as [|i]; cbn; [done|].
    apply IH. by destruct (find_in p s).
Qed.

Lemma find_in_Some p s found :
  find_in p s = Some found →
  starts_with p (str_drop found s) = true ∧ ∀ i, (i < found)%nat → starts_with p (str_drop i s) = false.
Proof.
  revert found. induction s as [|c s IH]; intros found; cbn.
  - destruct (starts_with p "") eqn:Hp; [|done]. intros [= <-]. split; [done|]. intros i. lia.
  - destruct (starts_with p (String c s)) eqn:Hp.
    + intros [= <-]. split; [done|]. intros i. lia.
    + destruct (find_in p s) as [n|] eqn:Hf; [|done]. intros [= <-]. destruct (IH n eq_refl) as [Hn Hlt].
      split; [done|]. intros [|i] Hi; cbn; [done|]. apply Hlt. lia.
Qed.

(** A byte that ends no token lengthens it. *)
Lemma token_len_pos c s :
  bool_decide (c = byte_of 44) || bool_decide (c = byte_of 59) || white_lead c = false →
  (0 < token_len (String c s))%nat.
Proof.
  intros [Hc Hw]%orb_false_iff. cbn [token_len]. unfold ends_token. rewrite Hc, strip_white_None by done. cbn. lia.
Qed.

(** A marker starts no token that ends at once. *)
Lemma marker_token marker s :
  marker ∈ SECRET_MARKERS → starts_with marker s = true → (0 < token_len s)%nat.
Proof.
  intros Hm (rest & ->)%starts_with_true. unfold SECRET_MARKERS in Hm.
  repeat (apply elem_of_cons in Hm as [->|Hm]; [apply token_len_pos; vm_compute; reflexivity|]). by apply elem_of_nil in Hm.
Qed.

(** Every place a marker starts lies in a span, and nothing else begins
    one. *)
Lemma marker_spans_cover fuel marker text offset i :
  marker ∈ SECRET_MARKERS → (String.length text < fuel + offset)%nat → (offset <= i)%nat →
  starts_with marker (str_drop i text) = true →
  ∃ a b, (a, b) ∈ marker_spans fuel marker text offset ∧ (a <= i < b)%nat.
Proof.
  intros Hm. revert offset. induction fuel as [|fuel IH]; intros offset Hfuel Hi Hstart.
  - exfalso. replace i with (String.length text + (i - String.length text))%nat in Hstart by lia.
    rewrite str_drop_add in Hstart.
    assert (str_drop (String.length text) text = "") as Hnil.
    { clear. induction text as [|c s IHs]; [done|exact IHs]. }
    rewrite Hnil in Hstart. assert (∀ n, str_drop n "" = "") as Hd by (by intros [|n]). rewrite Hd in Hstart.
    unfold SECRET_MARKERS in Hm. repeat (apply elem_of_cons in Hm as [->|Hm]; [done|]). by apply elem_of_nil in Hm.
  - cbn [marker_spans]. destruct (find_in marker (str_drop offset text)) as [found|] eqn:Hfound.
    + destruct (find_in_Some _ _ _ Hfound) as [Hhere Hbefore]. rewrite <-str_drop_add in Hhere. cbn zeta.
      pose proof (marker_token _ _ Hm Hhere) as Hlen.
      destruct (decide (i < offset + found + token_len (str_drop (offset + found) text))%nat) as [Hin|Hout].
      * do 2 eexists. split; [left|]. split; [|exact Hin]. destruct (decide (offset + found <= i)%nat); [done|exfalso].
        specialize (Hbefore (i - offset)%nat ltac:(lia)). rewrite <-str_drop_add in Hbefore.
        replace (offset + (i - offset))%nat with i in Hbefore by lia. congruence.
      * destruct (IH (offset + found + token_len (str_drop (offset + found) text))%nat) as (a & b & Hab & ?); [lia..|done|].
        exists a, b. split; [by right|done].
    + exfalso. pose proof (find_in_None _ _ (i - offset) Hfound) as Hno. rewrite <-str_drop_add in Hno.
      replace (offset + (i - offset))%nat with i in Hno by lia. congruence.
Qed.

Lemma marker_spans_start fuel marker text offset a b :
  (a, b) ∈ marker_spans fuel marker text offset → starts_with marker (str_drop a text) = true.
Proof.
  revert offset. induction fuel as [|fuel IH]; intros offset; cbn; [by intros ?%elem_of_nil|].
  destruct (find_in marker (str_drop offset text)) as [found|] eqn:Hfound; [|by intros ?%elem_of_nil]. cbn zeta.
  intros [[= -> ->]|Hin]%elem_of_cons; [|by eapply IH].
  apply find_in_Some in Hfound as [Hhere _]. by rewrite str_drop_add.
Qed.

Lemma dedup_nil {A} `{EqDecision A} (l : list A) : dedup l = [] ↔ l = [].
Proof.
  induction l as [|x l IH]; [done|]. split; [|done]. destruct l as [|y l]; [done|]. cbn.
  destruct (decide (x = y)); [|done]. intros Hd%IH. done.
Qed.

(** The scan says a text holds a secret exactly when one of the markers is
    in it, wherever it is. *)
Theorem contains_secret_exact text :
  contains_secret text = true ↔ ∃ marker, marker ∈ SECRET_MARKERS ∧ str_contains marker text = true.
Proof.
  assert (contains_secret text = true ↔ byte_spans text ≠ []) as ->.
  { unfold contains_secret. rewrite negb_true_iff, bool_decide_eq_false. unfold secret_spans. rewrite dedup_nil.
    split; intros Hne Heq; apply Hne; [by rewrite Heq|].
    apply (f_equal length) in Heq. rewrite (Permutation_length (sort_by_Permutation _ _)), length_fmap in Heq.
    by apply nil_length_inv. }
  split.
  - intros Hspans. destruct (byte_spans text) as [|[a b] spans] eqn:Hb; [done|].
    assert ((a, b) ∈ byte_spans text) as Hin by (rewrite Hb; left). unfold byte_spans in Hin.
    apply list_elem_of_bind in Hin as (marker & Hin & Hm). exists marker. split; [done|].
    apply marker_spans_start, starts_with_true in Hin as (rest & Hrest). apply str_contains_true.
    exists (str_take a text), rest. rewrite <-Hrest. symmetry. apply take_drop_str.
  - intros (marker & Hm & (before & rest & ->)%str_contains_true) Hnil.
    destruct (marker_spans_cover (marker_fuel (before +:+ marker +:+ rest)) marker (before +:+ marker +:+ rest) 0
      (String.length before)) as (a & b & Hab & _); [done|unfold marker_fuel; lia|lia| |].
    + rewrite drop_app_str. by apply starts_with_true; exists rest.
    + assert ((a, b) ∈ byte_spans (before +:+ marker +:+ rest)) as Hin.
      { apply list_elem_of_bind. by exists marker. }
      rewrite Hnil in Hin. by apply elem_of_nil in Hin.
Qed.

Example split_secret_found :
  secret_spans "The deploy token is TOKEN=abc123 - keep it safe." = [(20, 32)]%N.
Proof. vm_compute. reflexivity. Qed.

(** The path of a write the annotator labels [workspace] is the workspace's
    with the argument below it: nothing absolute replaces it, and no
    component of the argument leads up. *)
Theorem labelled_write_stays workspace args :
  classify_write_path args = "workspace" →
  str_contains ".." (text_at "path" args) = false ∧
  ∃ base, path_join workspace (text_at "path" args) = base +:+ text_at "path" args ∧
    (base = workspace ∨ base = workspace +:+ "/").
Proof.
  unfold classify_write_path. cbn zeta. destruct (starts_with "/" (text_at "path" args)) eqn:Habs; [done|].
  destruct (str_contains ".." (text_at "path" args)) eqn:Hup; [done|]. intros _. split; [done|].
  unfold path_join, path_is_absolute. rewrite Habs.
  destruct (_ || _); [exists workspace; by auto|exists (workspace +:+ "/")]. split; [|by auto].
  generalize (text_at "path" args). intros rest. clear. induction workspace as [|c w IH]; [done|].
  change (String c (w +:+ "/" +:+ rest) = String c ((w +:+ "/") +:+ rest)). by rewrite IH.
Qed.
