(* ===== verification/Yaml.v ===== *)
(** * YAML manifests: the scalar rules of [engine/src/manifest.rs]

    Before a YAML manifest is deserialized, [preserve_scalar_types] runs
    the parser over it once and rewrites the scalars YAML dialects disagree
    about in place: numeric-looking strings become quoted, spellings of
    booleans become the canonical one, explicitly tagged scalars become
    plain ones. The parser is not part of the repository: a document's
    events, each with the place it was read at, are a parameter. *)

From Stdlib Require Import SpecFloat.
From S2P Require Import Prelude OrdMap RustStd Json Errors AgentHooks Constants Float64 StdPath.
From S2P Require Import Limits Hex Pins Policy PolicyInput Paths Manifest ManifestMerge Loader.

(** ** Slices of a string *)

(** [str.get(start..stop)]: [None] out of range, across, or inside a
    character. *)
Definition str_get (start stop : nat) (s : string) : option string :=
  if (start <=? stop)%nat && (stop <=? String.length s)%nat &&
     is_char_boundary s start && is_char_boundary s stop
  then Some (String.substring start (stop - start) s) else None.

(** What follows the first [n] bytes. *)
Definition str_drop (n : nat) (s : string) : string := String.substring n (String.length s - n) s.

(** [str.find(char::is_whitespace)]: white space has no encoding that
    starts inside another character. *)
Fixpoint find_white (s : string) : option nat :=
  match strip_white s, s with
  | Some _, _ => Some 0%nat
  | None, EmptyString => None
  | None, String _ s => S <$> find_white s
  end.

(** [str.find] of an ASCII character, and how often one occurs. *)
Fixpoint find_char (c : Ascii.ascii) (s : string) : option nat :=
  match s with
  | EmptyString => None
  | String d s => if decide (c = d) then Some 0%nat else S <$> find_char c s
  end.
Fixpoint count_char (c : Ascii.ascii) (s : string) : nat :=
  match s with
  | EmptyString => 0%nat
  | String d s => ((if decide (c = d) then 1 else 0) + count_char c s)%nat
  end.

(** [repeat_n(c, n)] collected. *)
Fixpoint repeat_char (c : Ascii.ascii) (n : nat) : string :=
  match n with O => "" | S n => String c (repeat_char c n) end.

Definition newline : Ascii.ascii := byte_of 10.
Definition space : Ascii.ascii := byte_of 32.

(** [strip_prefix(\['+', '-'\]).unwrap_or(value)]. *)
Definition strip_sign (value : string) : string :=
  match strip_prefix "+" value with
  | Some rest => rest
  | None => default value (strip_prefix "-" value)
  end.

(** ** Numerals *)

(** [char::is_digit(radix)], for the radixes in use. *)
Definition is_radix_digit (radix : N) (c : Ascii.ascii) : bool :=
  if (radix <=? 10)%N then in_range 48 (47 + radix) c
  else is_ascii_digit c || in_range 65 (54 + radix) c || in_range 97 (86 + radix) c.
Definition radix_value (c : Ascii.ascii) : N :=
  let n := Ascii.N_of_ascii c in
  if (n <? 58)%N then (n - 48)%N else if (n <? 91)%N then (n - 55)%N else (n - 87)%N.

(** [u64::from_str_radix] on digits: each step checks the product and the
    sum. *)
Fixpoint radix_digits (radix acc : N) (s : string) : option N :=
  match s with
  | EmptyString => Some acc
  | String c s =>
      let acc := (acc * radix + radix_value c)%N in
      if (acc <=? u64_max)%N then radix_digits radix acc s else None
  end.
Definition u64_from_str_radix (radix : N) (digits : string) : option N :=
  if str_is_empty digits || negb (all_bytes (is_radix_digit radix) digits) then None
  else radix_digits radix 0 digits.

(** ** The parser *)

(** A tag as the code asks about it. *)
Record Tag := mkTag {
  tag_handle : string;
  tag_suffix : string;
  core_suffix : option string;
  is_yaml_core_schema_tag : string → bool }.

Inductive ScalarStyle := Plain | SingleQuoted | DoubleQuoted | Literal | Folded.
#[export] Instance ScalarStyle_eq_dec : EqDecision ScalarStyle.
Proof. solve_decision. Defined.

Inductive YamlEvent : Type :=
  | DocumentStart
  | Scalar (value : string) (style : ScalarStyle) (tag : option Tag)
  | MappingStart (tag : option Tag)
  | SequenceStart (tag : option Tag)
  | OtherEvent.

(** Where an event was read: the start's line and column, the bytes, and
    the byte its tag starts at. *)
Record YamlSpan := mkSpanAt {
  span_line : N;
  span_col : N;
  byte_range : option (nat * nat);
  tag_start : option nat }.

Record ScanError := mkScanError { recursion_limit_exceeded : bool; scan_error_text : string }.

(** The parser's iterator over a text, by its flow and block nesting
    limits. *)
Class GranitParser := {
  granit_events : string → N → N → list (result ScanError (YamlEvent * YamlSpan)) }.

(** [serde_json::to_string] of an [f64] and of a [str]. *)
Class SerdeScalar := {
  f64_to_string : spec_float → result string string;
  str_to_string : string → result string string }.

Definition manifest_limit_message (kind : string) (count : N) (field : string) (limit : N) : string :=
  "manifest " +:+ kind +:+ " " +:+ fmt_N count +:+ " exceeds " +:+ field +:+ " limit " +:+ fmt_N limit.

Definition saturating_succ (n : N) : N := N.min usize_max (n + 1).

(** [invalid]: the message and the place of the scalar. *)
Definition invalid_at (span : YamlSpan) (message : string) : RuntimeError :=
  ManifestInvalid (message +:+ " at line " +:+ fmt_N (span_line span) +:+ ", column " +:+
    fmt_N (span_col span + 1)).

(** ** One scalar *)

Section scalar.
Context `{SerdeScalar}.

Definition boolean_spelling (value : string) : option string :=
  if bool_decide (value ∈ ["true"; "True"; "TRUE"]) then Some "true"
  else if bool_decide (value ∈ ["false"; "False"; "FALSE"]) then Some "false"
  else None.
Definition null_spelling (value : string) : bool :=
  bool_decide (value ∈ [""; "~"; "null"; "Null"; "NULL"]).

Definition mixed_keyword (boolean : option string) (value : string) : bool :=
  (bool_decide (boolean = None) &&
     (eq_ignore_ascii_case value "true" || eq_ignore_ascii_case value "false")) ||
  (eq_ignore_ascii_case value "null" && negb (bool_decide (value ∈ ["null"; "Null"; "NULL"]))).

Definition leading_zero (unsigned : string) : bool :=
  (1 <? str_len unsigned)%N && starts_with "0" unsigned && all_bytes is_ascii_digit unsigned.

Definition radix_split (unsigned : string) : string * N :=
  match strip_prefix "0x" unsigned with
  | Some digits => (digits, 16%N)
  | None =>
      match strip_prefix "0o" unsigned with
      | Some digits => (digits, 8%N)
      | None =>
          match strip_prefix "0b" unsigned with
          | Some digits => (digits, 2%N)
          | None => (unsigned, 10%N)
          end
      end
  end.

Definition separated_number (unsigned : string) : bool :=
  str_contains "_" unsigned &&
  match unsigned with
  | String c _ => is_ascii_digit c || bool_decide (c = byte_of 46)
  | EmptyString => false
  end && bool_decide (find_white unsigned = None).

Definition legacy_prefix (unsigned : string) : bool :=
  existsb (λ e,
    match strip_prefix e.1 unsigned with
    | Some digits => negb (str_is_empty digits) && all_bytes (is_radix_digit e.2) digits
    | None => false
    end) [("0X", 16%N); ("0O", 8%N); ("0B", 2%N)].

Definition integer_range_error : RuntimeError :=
  ManifestInvalid "YAML integer exceeds the supported 64-bit range".

(** The check of a plain integer, which gives the text of an explicitly
    tagged one. *)
Definition integer_check (string_tag float_tag integer_tag : bool) (value : string)
  : result RuntimeError (option string) :=
  let unsigned := strip_sign value in
  let '(digits, radix) := radix_split unsigned in
  if negb string_tag && negb float_tag && negb (leading_zero unsigned) &&
     negb (str_is_empty digits) && all_bytes (is_radix_digit radix) digits
  then
    magnitude ← ok_or (u64_from_str_radix radix digits) integer_range_error;
    if starts_with "-" value && (9223372036854775808 <? magnitude)%N then Err integer_range_error
    else Ok (if integer_tag
             then Some (if starts_with "-" value then "-" +:+ fmt_N magnitude else fmt_N magnitude)
             else None)
  else Ok None.

Definition float_check (span : YamlSpan) (value : string) : result RuntimeError string :=
  number ← ok_or (parse_f64 value) (invalid_at span "invalid YAML float");
  if f64_is_finite number
  then map_err (λ _, invalid_at span "invalid YAML float") (f64_to_string number)
  else Err (invalid_at span "YAML numbers must be finite").

(** What the code replaces a scalar with: explicit text, a boolean, or the
    value as a JSON string. *)
Record Replacement := mkReplacement {
  explicit_scalar : option string;
  boolean : option string }.

(** The checks of one scalar, in the source's order; [None] is its
    [continue]. *)
Definition scalar_check (span : YamlSpan) (value : string) (style : ScalarStyle) (tag : option Tag)
  : result RuntimeError (option (bool * Replacement)) :=
  let boolean_tag := match tag with Some t => is_yaml_core_schema_tag t "bool" | None => false end in
  let kind := tag ≫= core_suffix in
  let string_tag := bool_decide (kind = Some "str") in
  let integer_tag := bool_decide (kind = Some "int") in
  let float_tag := bool_decide (kind = Some "float") in
  let null_tag := bool_decide (kind = Some "null") in
  if bool_decide (is_Some tag) && negb boolean_tag && negb string_tag && negb integer_tag &&
     negb float_tag && negb null_tag
  then Err (invalid_at span "unsupported YAML scalar tag")
  else if negb (bool_decide (style = Plain)) && (bool_decide (tag = None) || string_tag) then Ok None
  else
    let boolean :=
      if match tag with Some t => is_yaml_core_schema_tag t "bool" | None => true end
      then boolean_spelling value else None in
    if boolean_tag && bool_decide (boolean = None) then Err (invalid_at span "invalid YAML boolean")
    else
      explicit_null ← (if null_tag
        then if null_spelling value then Ok (Some "null") else Err (invalid_at span "invalid YAML null")
        else Ok None);
      explicit_float ← (if float_tag then Some <$> float_check span value else Ok explicit_null);
      let unsigned := strip_sign value in
      explicit_int ← integer_check string_tag float_tag integer_tag value;
      let explicit := match explicit_int with Some text => Some text | None => explicit_float end in
      if integer_tag && bool_decide (explicit = None) then Err (invalid_at span "invalid YAML integer")
      else if negb (leading_zero unsigned) && negb (separated_number unsigned) &&
              negb (legacy_prefix unsigned) && bool_decide (boolean = None) &&
              negb (mixed_keyword boolean value) && negb string_tag && bool_decide (explicit = None)
      then Ok None
      else Ok (Some (string_tag, mkReplacement explicit boolean)).
End scalar.

(** ** The rewriting *)

Section splice.
Context (input : string).

(** The header of a block scalar, searched from [cursor]: past white
    space, comments and anchors to the indicator. Each turn moves the
    cursor, so the length of the input is enough fuel. *)
Fixpoint block_header (fuel : nat) (span : YamlSpan) (cursor stop : nat) : result RuntimeError nat :=
  match fuel with
  | O => Err (invalid_at span "out of fuel")
  | S fuel =>
      remaining ← ok_or (str_get cursor stop input) (invalid_at span "invalid YAML block scalar range");
      match remaining with
      | EmptyString => Err (invalid_at span "missing YAML block scalar header")
      | String c _ =>
          if bool_decide (c = byte_of 124) || bool_decide (c = byte_of 62) then Ok cursor
          else if bool_decide (c = byte_of 35) then
            block_header fuel span
              (cursor + default (String.length remaining) (find_char newline remaining))%nat stop
          else if bool_decide (c = byte_of 38) then
            skip ← ok_or (find_white remaining) (invalid_at span "invalid YAML block scalar properties");
            block_header fuel span (cursor + skip)%nat stop
          else
            match strip_white remaining with
            | Some rest =>
                block_header fuel span (cursor + (String.length remaining - String.length rest))%nat stop
            | None => Err (invalid_at span "invalid YAML block scalar header")
            end
      end
  end.

Definition range_error (message : string) : RuntimeError := ManifestInvalid message.

(** The blanking of a tag that the replacement makes superfluous: the text
    up to the tag, as many spaces as the tag is long, and where the text
    after it starts. *)
Definition blank_tag (span : YamlSpan) (copied start : nat) : result RuntimeError (string * nat) :=
  tag_at ← ok_or (tag_start span) (range_error "missing YAML tag source range");
  prefix ← ok_or (str_get copied tag_at input) (range_error "invalid YAML tag source range");
  tag_source ← ok_or (str_get tag_at start input) (range_error "invalid YAML tag source range");
  let length := default (String.length tag_source) (find_white tag_source) in
  Ok (prefix +:+ repeat_char space length, (tag_at + length)%nat).

(** What is kept of a replaced block: line breaks for its lines, then the
    white space it ends with. *)
Definition block_tail (replaced : string) : string :=
  let tail := str_drop (String.length (trim_end replaced)) replaced in
  repeat_char newline (count_char newline replaced - count_char newline tail) +:+ tail.

Definition is_block (style : ScalarStyle) : bool :=
  match style with Literal | Folded => true | _ => false end.

Context `{SerdeScalar}.

(** The text of a replacement; an empty string scalar has no source to
    stand in, so a space separates it from its tag. *)
Definition replacement_text (string_tag empty : bool) (value : string) (r : Replacement)
  : result RuntimeError string :=
  let gap := if string_tag && empty then " " else "" in
  match explicit_scalar r, boolean r with
  | Some text, _ => Ok (gap +:+ text)
  | None, Some text => Ok (gap +:+ text)
  | None, None =>
      text ← map_err ManifestInvalid (str_to_string (if string_tag && empty then "" else value));
      Ok (gap +:+ text)
  end.

(** One replaced scalar: the output so far and how much of the input it
    stands for. *)
Definition splice (span : YamlSpan) (value : string) (style : ScalarStyle) (tag : option Tag)
  (string_tag : bool) (r : Replacement) (state : string * nat) : result RuntimeError (string * nat) :=
  let '(output, copied) := state in
  range ← ok_or (byte_range span) (range_error "missing YAML scalar source range");
  let '(start, stop) := range in
  blanked ← (if bool_decide (is_Some tag) && negb string_tag then blank_tag span copied start
             else Ok ("", copied));
  let '(before, prefix_start) := blanked in
  replacement_start ← (if is_block style
    then block_header (S (String.length input)) span prefix_start stop else Ok start);
  prefix ← ok_or (str_get prefix_start replacement_start input)
    (range_error "invalid YAML scalar source range");
  text ← replacement_text string_tag (stop <=? start)%nat value r;
  after ← (if is_block style
    then block_tail <$> ok_or (str_get replacement_start stop input)
           (invalid_at span "invalid YAML block scalar range")
    else Ok "");
  Ok (output +:+ before +:+ prefix +:+ text +:+ after, stop).
End splice.

(** ** The pass over the document *)

Section preserve.
Context `{GranitParser} `{SerdeScalar}.

Definition event_tag (event : YamlEvent) : option Tag :=
  match event with
  | Scalar _ _ tag | MappingStart tag | SequenceStart tag => tag
  | _ => None
  end.

Definition non_specific (tag : option Tag) : bool :=
  match tag with
  | Some tag => str_is_empty (tag_handle tag) && bool_decide (tag_suffix tag = "!")
  | None => false
  end.

Definition scan_error (limits : Limits) (error : ScanError) : RuntimeError :=
  if recursion_limit_exceeded error then
    ResourceLimitExceeded ("manifest depth exceeds max_manifest_depth limit " +:+
      fmt_N (max_manifest_depth limits))
  else ManifestInvalid (scan_error_text error).

(** One event, at its index: the documents started and the rewriting so
    far. *)
Definition event_step (input : string) (span : YamlSpan) (event : YamlEvent)
  (state : N * (string * nat)) : result RuntimeError (N * (string * nat)) :=
  let '(documents, rewriting) := state in
  let documents := match event with DocumentStart => (documents + 1)%N | _ => documents end in
  if match event with DocumentStart => (1 <? documents)%N | _ => false end
  then Err (ManifestInvalid "expected exactly one YAML document")
  else if non_specific (event_tag event)
  then Err (invalid_at span "non-specific YAML tags are not supported")
  else
    match event with
    | Scalar value style tag =>
        checked ← scalar_check span value style tag;
        match checked with
        | None => Ok (documents, rewriting)
        | Some (string_tag, r) =>
            rewriting ← splice input span value style tag string_tag r rewriting;
            Ok (documents, rewriting)
        end
    | _ => Ok (documents, rewriting)
    end.

(** The loop over the parser's events, numbered from [index]. *)
Fixpoint scan (input : string) (limits : Limits) (index : N)
  (events : list (result ScanError (YamlEvent * YamlSpan))) (state : N * (string * nat))
  : result RuntimeError (N * (string * nat)) :=
  match events with
  | [] => Ok state
  | event :: events =>
      if (max_manifest_events limits <=? index)%N
      then Err (ResourceLimitExceeded (manifest_limit_message "events" (saturating_succ index)
             "max_manifest_events" (max_manifest_events limits)))
      else
        e ← map_err (scan_error limits) event;
        state ← event_step input e.2 e.1 state;
        scan input limits (index + 1) events state
  end.

Definition parser_events (input : string) (limits : Limits) :=
  let nesting := saturating_succ (max_manifest_depth limits) in
  granit_events input nesting nesting.

(** [preserve_scalar_types]; [None] is the panic of its last slice. *)
Definition preserve_scalar_types (input : string) (limits : Limits)
  : option (result RuntimeError string) :=
  match scan input limits 0 (parser_events input limits) (0%N, ("", 0%nat)) with
  | Err e => Some (Err e)
  | Ok (_, (output, copied)) =>
      if (copied =? 0)%nat then Some (Ok input)
      else
        rest ← str_get copied (String.length input) input;
        Some (Ok (output +:+ rest))
  end.
End preserve.

(** ** Deserializing *)

(** [serde_path_to_error]'s path to where an error happened. *)
Inductive PathSegment : Type :=
  | SegUnknown
  | SegSeq (index : N)
  | SegMap (key : string)
  | SegEnum (key : string).

Fixpoint manifest_error_path_from (output : string) (path : list PathSegment) : string :=
  match path with
  | [] => output
  | SegUnknown :: path => manifest_error_path_from output path
  | SegSeq index :: path => manifest_error_path_from (output +:+ "[" +:+ fmt_N index +:+ "]") path
  | SegMap key :: path | SegEnum key :: path =>
      manifest_error_path_from
        ((if str_is_empty output then output else output +:+ ".") +:+ key) path
  end.
Definition manifest_error_path (path : list PathSegment) : string := manifest_error_path_from "" path.

(** The deserializer's budget report. *)
Inductive BudgetBreach : Type :=
  | BreachEvents (events : N)
  | BreachAliases (aliases : N)
  | BreachAnchors (anchors : N)
  | BreachDepth (depth : N)
  | BreachNodes (nodes : N)
  | BreachScalarBytes (total_scalar_bytes : N)
  | BreachRecordedAnchorEvents (recorded_anchor_events : N)
  | BreachRecordedAnchorBytes (recorded_anchor_bytes : N)
  | BreachOther.

(** Its error: the variants the code tells apart, the location and the
    text the user formatter renders. *)
Inductive SaphyrErrorKind : Type :=
  | Budget (breach : BudgetBreach)
  | AliasReplayLimitExceeded (total_replayed_events max_total_replayed_events : N)
  | AliasExpansionLimitExceeded (expansions max_expansions_per_anchor : N)
  | AliasReplayStackDepthExceeded (depth max_depth : N)
  | SaphyrOther.
Record SaphyrError := mkSaphyrError {
  saphyr_kind : SaphyrErrorKind;
  saphyr_location : option (N * N);
  saphyr_rendered : string }.

(** The options the code sets. *)
Record SaphyrOptions := mkSaphyrOptions {
  strict_booleans : bool;
  no_schema : bool;
  reject_unsupported_tags : bool;
  reject_non_finite : bool;
  reject_duplicate_keys : bool;
  merge_keys_ordinary : bool;
  with_snippet : bool;
  max_total_replayed_events : N;
  max_replay_stack_depth : N;
  max_alias_expansions_per_anchor : N;
  budget_max_depth : N;
  budget_flow_nesting_limit : N;
  budget_max_nodes : N;
  budget_max_events : N;
  budget_max_aliases : N;
  budget_max_anchors : N;
  budget_enforce_alias_anchor_ratio : bool;
  budget_max_documents : N;
  budget_simple_key_max_lookahead : N;
  budget_max_total_scalar_bytes : N;
  budget_max_recorded_anchor_bytes : N;
  budget_max_recorded_anchor_events : N }.

Definition manifest_options (limits : Limits) : SaphyrOptions := {|
  strict_booleans := true;
  no_schema := true;
  reject_unsupported_tags := true;
  reject_non_finite := true;
  reject_duplicate_keys := true;
  merge_keys_ordinary := true;
  with_snippet := false;
  max_total_replayed_events := max_manifest_events limits;
  max_replay_stack_depth := max_manifest_depth limits;
  max_alias_expansions_per_anchor := max_manifest_aliases limits;
  budget_max_depth := max_manifest_depth limits;
  budget_flow_nesting_limit := saturating_succ (max_manifest_depth limits);
  budget_max_nodes := max_manifest_nodes limits;
  budget_max_events := max_manifest_events limits;
  budget_max_aliases := max_manifest_aliases limits;
  budget_max_anchors := max_manifest_anchors limits;
  budget_enforce_alias_anchor_ratio := false;
  budget_max_documents := 1;
  budget_simple_key_max_lookahead := 1024;
  budget_max_total_scalar_bytes := max_merged_manifest_bytes limits;
  budget_max_recorded_anchor_bytes := max_merged_manifest_bytes limits;
  budget_max_recorded_anchor_events := max_manifest_anchor_events limits |}.

(** What the deserializer leaves behind: its answer, the path tracked to
    an error, and the breach its budget reported. *)
Record Deserialized := mkDeserialized {
  de_answer : result SaphyrError Manifest;
  de_path : list PathSegment;
  de_breached : option BudgetBreach }.

(** The deserializer with serde's derived code for [Manifest]. *)
Class Saphyr := { deserialize_manifest : string → SaphyrOptions → Deserialized }.

Definition breach_message (limits : Limits) (breach : BudgetBreach) : string :=
  match breach with
  | BreachEvents events =>
      manifest_limit_message "events" events "max_manifest_events" (max_manifest_events limits)
  | BreachAliases aliases =>
      manifest_limit_message "aliases" aliases "max_manifest_aliases" (max_manifest_aliases limits)
  | BreachAnchors anchors =>
      manifest_limit_message "anchors" anchors "max_manifest_anchors" (max_manifest_anchors limits)
  | BreachDepth depth =>
      manifest_limit_message "depth" depth "max_manifest_depth" (max_manifest_depth limits)
  | BreachNodes nodes =>
      manifest_limit_message "nodes" nodes "max_manifest_nodes" (max_manifest_nodes limits)
  | BreachScalarBytes total =>
      manifest_limit_message "expanded scalar bytes" total "max_merged_manifest_bytes"
        (max_merged_manifest_bytes limits)
  | BreachRecordedAnchorEvents events =>
      manifest_limit_message "retained anchor events" events "max_manifest_anchor_events"
        (max_manifest_anchor_events limits)
  | BreachRecordedAnchorBytes bytes =>
      manifest_limit_message "retained anchor bytes" bytes "max_merged_manifest_bytes"
        (max_merged_manifest_bytes limits)
  | BreachOther => "manifest exceeds a parser resource limit"
  end.

Definition manifest_budget_message (error : SaphyrError) (reported : option BudgetBreach)
  (limits : Limits) : option string :=
  let breach :=
    match reported, saphyr_kind error with
    | Some breach, _ => Some breach
    | None, Budget breach => Some breach
    | None, _ => None
    end in
  match breach, saphyr_kind error with
  | Some breach, _ => Some (breach_message limits breach)
  | None, AliasReplayLimitExceeded total limit =>
      Some (manifest_limit_message "replayed events" total "max_manifest_events" limit)
  | None, AliasExpansionLimitExceeded expansions limit =>
      Some (manifest_limit_message "anchor expansions" expansions "max_manifest_aliases" limit)
  | None, AliasReplayStackDepthExceeded depth limit =>
      Some (manifest_limit_message "alias replay depth" depth "max_manifest_depth" limit)
  | None, _ => None
  end.

Definition deserialize_error (limits : Limits) (d : Deserialized) (err : SaphyrError) : RuntimeError :=
  let path := manifest_error_path (de_path d) in
  let prefix := if str_is_empty path then "" else path +:+ ": " in
  match manifest_budget_message err (de_breached d) limits with
  | Some message =>
      let location :=
        match saphyr_location err with
        | Some (line, column) => " at line " +:+ fmt_N line +:+ ", column " +:+ fmt_N column
        | None => ""
        end in
      ResourceLimitExceeded (prefix +:+ message +:+ location)
  | None => ManifestInvalid (prefix +:+ saphyr_rendered err)
  end.

Section yaml.
Context `{GranitParser} `{SerdeScalar} `{Saphyr}.

(** [yaml_str_with_limits]; [None] is a panic. *)
Definition yaml_str_with_limits (input : string) (limits : Limits)
  : option (result RuntimeError Manifest) :=
  if (max_merged_manifest_bytes limits <? str_len input)%N
  then Some (Err (ResourceLimitExceeded (manifest_limit_message "source bytes" (str_len input)
         "max_merged_manifest_bytes" (max_merged_manifest_bytes limits))))
  else
    normalized ← preserve_scalar_types input limits;
    Some (normalized ← normalized;
          let d := deserialize_manifest normalized (manifest_options limits) in
          map_err (deserialize_error limits d) (de_answer d)).
End yaml.

(** ** The constructors of a manifest *)

Section constructors.
Context `{AgentHooksLaws} `{UrlCrate} `{SerdeJson} `{Sha2} `{ManifestFormats}.

Definition parse_yaml_str (input : string) : result RuntimeError Manifest :=
  parse_yaml_str_with_limits input default_limits.

Definition from_yaml_str_with_limits (input : string) (limits : Limits) : result RuntimeError Manifest :=
  m ← parse_yaml_str_with_limits input limits;
  validate m ;;
  Ok m.
Definition from_yaml_str (input : string) : result RuntimeError Manifest :=
  from_yaml_str_with_limits input default_limits.

Definition from_json_str (input : string) : result RuntimeError Manifest :=
  m ← map_err ManifestInvalid (manifest_from_json input);
  validate m ;;
  Ok m.

(** One entry of a chain, at its index. *)
Definition chain_entry (limits : Limits) (entry : nat * string) : result RuntimeError Manifest :=
  map_err (λ err,
    match err with
    | ManifestInvalid detail => ManifestInvalid ("failed to parse manifest chain entry " +:+
        fmt_N (N.of_nat entry.1) +:+ " as YAML: " +:+ detail)
    | other => other
    end) (parse_yaml_str_with_limits entry.2 limits).

Definition from_yaml_chain_with_limits (inputs : list string) (limits : Limits)
  : result RuntimeError Manifest :=
  if bool_decide (inputs = []) then Err (ManifestInvalid "manifest yaml chain must not be empty")
  else
    manifests ← map_result (chain_entry limits) (imap pair inputs);
    m ← merge_chain manifests;
    validate_merged_manifest_size limits (Some m) ;;
    Ok m.
Definition from_yaml_chain (inputs : list string) : result RuntimeError Manifest :=
  from_yaml_chain_with_limits inputs default_limits.
End constructors.
