(* ===== verification/YamlFacts.v ===== *)
(** * YAML manifests: what the scalar rewriting does

    The rewriting of a document is exact: outside the scalars it replaces
    and the tags it blanks nothing moves, every scalar is either kept or
    replaced by the text its own tag and spelling ask for, and integers fit
    in 64 bits. Whatever budget is exceeded, the answer is a resource
    limit. *)

From Stdlib Require Import SpecFloat.
From S2P Require Import Prelude OrdMap RustStd Json Errors AgentHooks Concrete Constants Float64 StdPath.
From S2P Require Import Limits Hex Pins Policy PolicyInput Paths Manifest ManifestMerge Loader Yaml.

(** ** Slices *)

Lemma substring_split s : ∀ a n, (a + n <= String.length s)%nat →
  ∃ p q, s = p +:+ String.substring a n s +:+ q ∧ String.length p = a ∧
    String.length (String.substring a n s) = n.
Proof.
  induction s as [|c s IH]; intros a n Hle; cbn in Hle.
  - exists "", "". destruct a, n; cbn in *; [done|lia..].
  - destruct a as [|a]; [destruct n as [|n]|].
    + by exists "", (String c s).
    + destruct (IH 0%nat n) as (p & q & Heq & Hp & Hl); [lia|].
      destruct p as [|? ?]; [|done]. exists "", q. cbn in *. split; [by f_equal|]. split; [done|lia].
    + destruct (IH a n) as (p & q & Heq & Hp & Hl); [lia|].
      exists (String c p), q. cbn. split; [by f_equal|]. split; [lia|done].
Qed.

Lemma str_get_Some a b s t :
  str_get a b s = Some t →
  (a <= b <= String.length s)%nat ∧ is_char_boundary s a = true ∧ is_char_boundary s b = true ∧
  ∃ p q, s = p +:+ t +:+ q ∧ String.length p = a ∧ String.length t = (b - a)%nat.
Proof.
  unfold str_get. destruct (_ && _) eqn:Hc; [|done]. intros [= <-].
  apply andb_true_iff in Hc as [Hc Hb]. apply andb_true_iff in Hc as [Hc Ha].
  apply andb_true_iff in Hc as [Hab Hbl]. apply Nat.leb_le in Hab, Hbl.
  split; [lia|]. split; [done|]. split; [done|].
  destruct (substring_split s a (b - a)) as (p & q & Heq & Hp & Hl); [lia|]. by exists p, q.
Qed.

Lemma str_get_le a b s : is_Some (str_get a b s) → (a <= b <= String.length s)%nat.
Proof. by intros [t (Ht & _)%str_get_Some]. Qed.

Lemma str_get_full a s :
  (a <= String.length s)%nat → is_char_boundary s a = true → is_Some (str_get a (String.length s) s).
Proof.
  intros Hle Hb. unfold str_get. rewrite Hb, (proj2 (Nat.leb_le _ _) Hle), Nat.leb_refl.
  assert (is_char_boundary s (String.length s) = true) as -> by (clear; induction s; done).
  by eexists.
Qed.

Lemma app_str_inj p p' t t' : String.length p = String.length p' → p +:+ t = p' +:+ t' → p = p' ∧ t = t'.
Proof.
  revert p'. induction p as [|c p IH]; intros [|c' p'] Hlen Heq; try done.
  injection Heq as -> Heq. injection Hlen as Hlen. by destruct (IH _ Hlen Heq) as [-> ->].
Qed.

Lemma str_get_intro a b s p t q :
  s = p +:+ t +:+ q → String.length p = a → b = (a + String.length t)%nat →
  is_char_boundary s a = true → is_char_boundary s b = true → str_get a b s = Some t.
Proof.
  intros Hs Ha -> Hba Hbb. assert (a + String.length t <= String.length s)%nat as Hle.
  { rewrite Hs, !str_length_app. lia. }
  unfold str_get. rewrite Hba, Hbb, (proj2 (Nat.leb_le _ _) Hle), (proj2 (Nat.leb_le a _)) by lia. cbn.
  replace (a + String.length t - a)%nat with (String.length t) by lia. f_equal.
  destruct (substring_split s a (String.length t) Hle) as (p' & q' & Hs' & Hp' & Hl').
  rewrite Hs in Hs' at 1. apply app_str_inj in Hs' as [_ Hs']; [|congruence].
  by destruct (app_str_inj _ _ _ _ (eq_sym Hl') Hs') as [<- _].
Qed.

(** The slice that starts later, and the one that ends there. *)
Lemma str_get_split a b s x y z :
  str_get a b s = Some (x +:+ y) → str_get (a + String.length x) b s = Some z →
  z = y ∧ str_get a (a + String.length x) s = Some x.
Proof.
  intros (_ & Ha & _ & p & q & Hs & Hp & Hl)%str_get_Some (_ & Hx & _ & p' & q' & Hs' & Hp' & Hl')%str_get_Some.
  split; [|eapply str_get_intro; [rewrite Hs; by rewrite <- app_str_assoc|done..]].
  rewrite str_length_app in Hl. rewrite Hs in Hs'. rewrite <- app_str_assoc, app_str_assoc in Hs'.
  apply app_str_inj in Hs' as [_ Hs']; [|rewrite str_length_app; lia].
  apply app_str_inj in Hs' as [-> _]; [done|lia].
Qed.

Lemma str_get_app a b c s x y :
  str_get a b s = Some x → str_get b c s = Some y → str_get a c s = Some (x +:+ y).
Proof.
  intros (Hab & Ha & _ & p & q & Hs & Hp & Hl)%str_get_Some (Hbc & _ & Hc & p' & q' & Hs' & Hp' & Hl')%str_get_Some.
  assert (p' = p +:+ x ∧ y +:+ q' = q) as [-> <-].
  { rewrite Hs in Hs'. rewrite app_str_assoc in Hs'.
    apply app_str_inj in Hs' as [-> ->]; [done|rewrite str_length_app; lia]. }
  apply (str_get_intro _ _ _ p (x +:+ y) q'); [by rewrite Hs, <- app_str_assoc|done| |done..]. rewrite str_length_app. lia.
Qed.

Lemma find_char_Some c s k :
  find_char c s = Some k → ∃ pre post, s = pre +:+ String c post ∧ String.length pre = k ∧ find_char c pre = None.
Proof.
  revert k. induction s as [|d s IH]; intros k; cbn; [done|]. destruct (decide (c = d)) as [<-|Hne].
  - intros [= <-]. by exists "", s.
  - destruct (find_char c s) as [n|]; [|done]. intros [= <-].
    destruct (IH n eq_refl) as (pre & post & -> & <- & Hpre). exists (String d pre), post. cbn.
    by rewrite decide_False, Hpre.
Qed.

Lemma strip_white_elem s rest : strip_white s = Some rest → ∃ w, w ∈ white_space ∧ s = w +:+ rest.
Proof.
  unfold strip_white. intros Hh%head_Some_elem_of.
  apply list_elem_of_omap in Hh as (w & Hw & ->%strip_prefix_Some). by exists w.
Qed.

Lemma strip_white_starts w s : w ∈ white_space → is_Some (strip_white (w +:+ s)).
Proof.
  intros Hw. unfold strip_white. destruct (omap _ white_space) as [|r l] eqn:Hl; [exfalso|by eexists].
  assert (s ∈ omap (λ w', strip_prefix w' (w +:+ s)) white_space) as Hin; [|rewrite Hl in Hin; by apply elem_of_nil in Hin].
  apply list_elem_of_omap. exists w. split; [done|]. by apply strip_prefix_Some.
Qed.

Lemma find_white_Some s k :
  find_white s = Some k →
  ∃ pre post, s = pre +:+ post ∧ String.length pre = k ∧ find_white pre = None ∧ is_Some (strip_white post).
Proof.
  revert k. induction s as [|c s IH]; intros k; cbn [find_white].
  - destruct (strip_white "") eqn:Hw; [|done]. apply strip_white_elem in Hw as (w & Hw & Heq).
    exfalso. revert Hw. destruct w; [|done]. apply (bool_decide_unpack (¬ _)). vm_compute. exact I.
  - destruct (strip_white (String c s)) as [rest|] eqn:Hw.
    + intros [= <-]. exists "", (String c s). by split_and!.
    + destruct (find_white s) as [n|]; [|done]. intros [= <-].
      destruct (IH n eq_refl) as (pre & post & -> & <- & Hpre & Hpost). exists (String c pre), post. split_and!; try done.
      cbn [find_white]. destruct (strip_white (String c pre)) as [r|] eqn:Hs; [|by rewrite Hpre].
      apply strip_white_elem in Hs as (w & Hin & Heq).
      destruct (strip_white_starts w (r +:+ post) Hin) as [x Hx].
      rewrite app_str_assoc, <- Heq in Hx. cbn in Hx. congruence.
Qed.

(** ** Numerals *)

(** The number a digit string stands for, of any size. *)
Fixpoint radix_number (radix acc : N) (s : string) : N :=
  match s with
  | EmptyString => acc
  | String c s => radix_number radix (acc * radix + radix_value c) s
  end.

(** The integer a scalar's text stands for, unbounded: a sign, a prefix
    and digits of that radix, without a leading zero. *)
Definition integer_value (value : string) : option Z :=
  let unsigned := strip_sign value in
  let '(digits, radix) := radix_split unsigned in
  if leading_zero unsigned || str_is_empty digits || negb (all_bytes (is_radix_digit radix) digits)
  then None
  else
    let n := Z.of_N (radix_number radix 0 digits) in
    Some (if starts_with "-" value then (- n)%Z else n).

Definition fits_64 (z : Z) : Prop := (- 2 ^ 63 <= z < 2 ^ 64)%Z.

Lemma radix_number_mono radix acc s : (1 <= radix)%N → (acc <= radix_number radix acc s)%N.
Proof.
  intros Hr. revert acc. induction s as [|c s IH]; intros acc; cbn [radix_number]; [lia|].
  etrans; [|apply IH]. nia.
Qed.

(** The checked accumulation fails exactly when the number is too large. *)
Lemma radix_digits_exact radix acc s :
  (1 <= radix)%N → (acc <= u64_max)%N →
  radix_digits radix acc s =
    if (radix_number radix acc s <=? u64_max)%N then Some (radix_number radix acc s) else None.
Proof.
  intros Hr. revert acc. induction s as [|c s IH]; intros acc Hacc; cbn [radix_digits radix_number].
  - by rewrite (proj2 (N.leb_le _ _) Hacc).
  - destruct (N.leb_spec (acc * radix + radix_value c) u64_max) as [Hle|Hgt]; [by apply IH|].
    pose proof (radix_number_mono radix (acc * radix + radix_value c) s Hr).
    by rewrite (proj2 (N.leb_gt _ _)) by lia.
Qed.

Lemma from_str_radix_exact radix digits :
  (1 <= radix)%N → str_is_empty digits = false → all_bytes (is_radix_digit radix) digits = true →
  u64_from_str_radix radix digits =
    if (radix_number radix 0 digits <=? u64_max)%N then Some (radix_number radix 0 digits) else None.
Proof.
  intros Hr He Ha. unfold u64_from_str_radix. rewrite He, Ha. cbn [negb orb].
  by apply radix_digits_exact.
Qed.

Lemma radix_split_pos unsigned digits radix :
  radix_split unsigned = (digits, radix) → (1 <= radix)%N.
Proof. unfold radix_split. repeat case_match; intros [= <- <-]; lia. Qed.

(** A signed text as [format!] writes it. *)
Definition signed_text (value : string) (n : N) : string :=
  if starts_with "-" value then "-" +:+ fmt_N n else fmt_N n.

(** The check accepts an integer exactly when it fits in 64 bits. *)
Lemma integer_check_exact string_tag float_tag integer_tag value :
  integer_check string_tag float_tag integer_tag value =
    match (if string_tag || float_tag then None else integer_value value) with
    | None => Ok None
    | Some z =>
        if bool_decide (fits_64 z)
        then Ok (if integer_tag then Some (signed_text value (Z.to_N (Z.abs z))) else None)
        else Err integer_range_error
    end.
Proof.
  unfold integer_check, integer_value. destruct (radix_split (strip_sign value)) as [digits radix] eqn:Hs.
  destruct string_tag, float_tag; try done. cbn [negb orb andb].
  destruct (leading_zero (strip_sign value)); [done|]. cbn [negb orb andb].
  destruct (str_is_empty digits) eqn:He; [done|]. cbn [negb orb andb].
  destruct (all_bytes (is_radix_digit radix) digits) eqn:Ha; [|done]. cbn [negb].
  rewrite (from_str_radix_exact _ _ (radix_split_pos _ _ _ Hs) He Ha).
  set (n := radix_number radix 0 digits). unfold signed_text.
  destruct (N.leb_spec n u64_max) as [Hle|Hgt]; unfold u64_max in *; cbn [ok_or mbind result_bind].
  - destruct (starts_with "-" value); cbn [andb].
    + destruct (N.ltb_spec 9223372036854775808 n) as [Hb|Hb].
      * rewrite bool_decide_eq_false_2; [done|]. unfold fits_64. lia.
      * rewrite bool_decide_eq_true_2 by (unfold fits_64; lia).
        by replace (Z.to_N (Z.abs (- Z.of_N n))) with n by lia.
    + rewrite bool_decide_eq_true_2 by (unfold fits_64; lia).
      by replace (Z.to_N (Z.abs (Z.of_N n))) with n by lia.
  - rewrite bool_decide_eq_false_2; [done|]. unfold fits_64. destruct (starts_with _ _); lia.
Qed.

(** The text written for an integer stands for that integer. *)
Lemma radix_value_digit d : (d < 10)%N → radix_value (digit_char d) = d.
Proof.
  intros Hd. unfold radix_value, digit_char. rewrite N_of_byte_of by lia.
  rewrite (proj2 (N.ltb_lt _ _)) by lia. lia.
Qed.

Lemma radix_number_fmt fuel n acc :
  (n < 2 ^ N.of_nat fuel)%N → radix_number 10 0 (fmt_fuel fuel n acc) = radix_number 10 n acc.
Proof.
  revert n acc. induction fuel as [|fuel IH]; intros n acc Hf.
  - cbn in Hf. by replace n with 0%N by lia.
  - cbn [fmt_fuel]. destruct (N.ltb_spec n 10).
    + cbn [radix_number]. by rewrite radix_value_digit by lia.
    + assert (n mod 10 < 10)%N by (by apply N.mod_lt).
      rewrite IH.
      * cbn [radix_number]. rewrite radix_value_digit by done. f_equal.
        rewrite N.mul_comm. symmetry. by apply N.div_mod.
      * apply N.Div0.div_lt_upper_bound. rewrite Nat2N.inj_succ, N.pow_succ_r' in Hf.
        clear -Hf. revert Hf. generalize (2 ^ N.of_nat fuel)%N. intros; lia.
Qed.

Lemma fmt_fuel_head fuel n acc :
  (0 < n < 2 ^ N.of_nat fuel)%N →
  ∃ d rest, fmt_fuel fuel n acc = String (digit_char d) rest ∧ (1 <= d < 10)%N.
Proof.
  revert n acc. induction fuel as [|fuel IH]; intros n acc [Hn Hf]; [cbn in Hf; lia|].
  cbn [fmt_fuel]. destruct (N.ltb_spec n 10) as [|Hge]; [exists n, acc; split; [done|lia]|].
  apply IH. split.
  - apply N.div_str_pos. lia.
  - apply N.Div0.div_lt_upper_bound. rewrite Nat2N.inj_succ, N.pow_succ_r' in Hf.
    clear -Hf. revert Hf. generalize (2 ^ N.of_nat fuel)%N. intros; lia.
Qed.

Lemma fmt_N_fuel n : (n < 2 ^ N.of_nat (S (N.to_nat (N.log2 n))))%N.
Proof.
  rewrite Nat2N.inj_succ, N2Nat.id. destruct (N.eq_dec n 0%N) as [->|Hn]; [done|].
  apply N.log2_spec. lia.
Qed.

Lemma fmt_N_number n : radix_number 10 0 (fmt_N n) = n.
Proof. unfold fmt_N. by rewrite radix_number_fmt by apply fmt_N_fuel. Qed.

Lemma fmt_N_head n : ∃ d rest, fmt_N n = String (digit_char d) rest ∧ (d < 10)%N ∧
  (rest = "" ∨ (1 <= d)%N).
Proof.
  destruct (N.eq_dec n 0%N) as [->|Hn].
  - exists 0%N, "". cbn. split; [done|]. split; [lia|by left].
  - destruct (fmt_fuel_head (S (N.to_nat (N.log2 n))) n "") as (d & rest & Heq & Hd).
    { split; [lia|]. apply fmt_N_fuel. }
    exists d, rest. split; [done|]. split; [lia|right; lia].
Qed.

Lemma digit_char_lt d c : (d < 10)%N → digit_char d = c → (48 <= Ascii.N_of_ascii c < 58)%N.
Proof. intros Hd <-. unfold digit_char. rewrite N_of_byte_of by lia. lia. Qed.

Lemma strip_prefix_head p c rest s :
  strip_prefix (String c p) s = Some rest → ∃ t, s = String c t.
Proof. intros Hs. apply strip_prefix_Some in Hs as ->. by eexists. Qed.

Lemma fmt_N_prefix n c p :
  (Ascii.N_of_ascii c < 48)%N ∨ (57 < Ascii.N_of_ascii c)%N → strip_prefix (String c p) (fmt_N n) = None.
Proof.
  intros Hc. destruct (strip_prefix _ _) as [rest|] eqn:Hs; [|done]. exfalso.
  apply strip_prefix_head in Hs as [t Ht].
  destruct (fmt_N_head n) as (d & r & Heq & Hd & _). rewrite Heq in Ht. injection Ht as Hdc _.
  apply digit_char_lt in Hdc; [|done]. lia.
Qed.

Lemma fmt_N_zero_prefix n c : (57 < Ascii.N_of_ascii c)%N → strip_prefix (String (digit_char 0%N) (String c "")) (fmt_N n) = None.
Proof.
  intros Hc. destruct (strip_prefix _ _) as [rest|] eqn:Hs; [|done]. exfalso.
  apply strip_prefix_Some in Hs. pose proof (fmt_N_digits n) as Hd. rewrite Hs in Hd.
  cbn [all_bytes String.append] in Hd. apply andb_true_iff in Hd as [_ Hd]. apply andb_true_iff in Hd as [Hd _].
  unfold is_ascii_digit, in_range in Hd.
  apply andb_true_iff in Hd as [_ Hd]. apply N.leb_le in Hd. lia.
Qed.

Lemma fmt_N_leading n : leading_zero (fmt_N n) = false.
Proof.
  destruct (fmt_N_head n) as (d & rest & -> & Hd & [->|Hpos]); [done|].
  unfold leading_zero. destruct (starts_with "0" _) eqn:Hs; [|by rewrite andb_false_r].
  exfalso. unfold starts_with in Hs. destruct (strip_prefix "0" _) eqn:Hp; [|done].
  apply strip_prefix_head in Hp as [t Ht]. injection Ht as Hc _.
  assert (Ascii.N_of_ascii (digit_char d) = 48%N) as Hn by (by rewrite Hc).
  unfold digit_char in Hn. rewrite N_of_byte_of in Hn by lia. lia.
Qed.

Lemma fmt_N_split n : radix_split (fmt_N n) = (fmt_N n, 10%N).
Proof.
  unfold radix_split.
  by rewrite !(fmt_N_zero_prefix n) by (vm_compute; done).
Qed.

Lemma signed_text_value value n :
  integer_value (signed_text value n) = Some (if starts_with "-" value then - Z.of_N n else Z.of_N n)%Z.
Proof.
  assert (strip_sign (signed_text value n) = fmt_N n) as Hs.
  { unfold signed_text, strip_sign. destruct (starts_with "-" value); [done|].
    by rewrite !fmt_N_prefix by (left; vm_compute; done). }
  unfold integer_value. rewrite Hs, fmt_N_split, fmt_N_leading.
  destruct (str_is_empty (fmt_N n)) eqn:He; [by apply str_is_empty_true, fmt_N_nonempty in He|].
  rewrite (all_bytes_impl is_ascii_digit) by (done || apply fmt_N_digits).
  cbn [orb negb]. rewrite fmt_N_number. f_equal. unfold signed_text.
  destruct (starts_with "-" value) eqn:Hv; [done|].
  unfold starts_with. by rewrite fmt_N_prefix by (left; vm_compute; done).
Qed.

(** ** What a scalar is replaced with *)

Section canonical.
Context `{SerdeScalar}.

(** The spellings YAML dialects read as something else than a string:
    numbers with a leading zero, digit separators or a capital prefix, and
    keywords in mixed case. *)
Definition ambiguous (value : string) : bool :=
  let unsigned := strip_sign value in
  leading_zero unsigned || separated_number unsigned || legacy_prefix unsigned ||
  mixed_keyword (boolean_spelling value) value.

Definition integer_fits (value : string) : Prop :=
  ∀ z, integer_value value = Some z → fits_64 z.

(** The text a scalar is to be read as, by its style, its tag and its
    value; [None] when the source stays. [empty] is whether it has no
    source. *)
Inductive canonical (style : ScalarStyle) (empty : bool) (value : string)
  : option Tag → option string → Prop :=
  | canonical_quoted : style ≠ Plain → canonical style empty value None None
  | canonical_quoted_string tag :
      style ≠ Plain → core_suffix tag = Some "str" → canonical style empty value (Some tag) None
  | canonical_plain :
      style = Plain → boolean_spelling value = None → ambiguous value = false → integer_fits value →
      canonical style empty value None None
  | canonical_ambiguous text :
      style = Plain → boolean_spelling value = None → ambiguous value = true → integer_fits value →
      str_to_string value = Ok text → canonical style empty value None (Some text)
  | canonical_untagged_boolean text :
      style = Plain → boolean_spelling value = Some text → canonical style empty value None (Some text)
  | canonical_boolean tag text :
      core_suffix tag = Some "bool" → boolean_spelling value = Some text →
      canonical style empty value (Some tag) (Some text)
  | canonical_null tag :
      core_suffix tag = Some "null" → null_spelling value = true →
      canonical style empty value (Some tag) (Some "null")
  | canonical_integer tag text z :
      core_suffix tag = Some "int" → integer_value value = Some z → fits_64 z →
      integer_value text = Some z → canonical style empty value (Some tag) (Some text)
  | canonical_float tag number text :
      core_suffix tag = Some "float" → parse_f64 value = Some number → f64_is_finite number = true →
      f64_to_string number = Ok text → canonical style empty value (Some tag) (Some text)
  | canonical_string tag text :
      style = Plain → core_suffix tag = Some "str" →
      str_to_string (if empty then "" else value) = Ok text →
      canonical style empty value (Some tag) (Some ((if empty then " " else "") +:+ text)).

Definition tag_wf (tag : Tag) : Prop :=
  ∀ name, is_yaml_core_schema_tag tag name = bool_decide (core_suffix tag = Some name).

(** The checks that only read the spelling never see an integer. *)
Lemma boolean_not_integer value text : boolean_spelling value = Some text → integer_value value = None.
Proof.
  unfold boolean_spelling. intros Hb.
  repeat case_bool_decide; try done; set_unfold;
    repeat match goal with H : _ ∨ _ |- _ => destruct H | H : False |- _ => destruct H end; subst; done.
Qed.

Lemma signed_text_integer value z :
  integer_value value = Some z →
  integer_value (signed_text value (Z.to_N (Z.abs z))) = Some z.
Proof.
  intros Hz. rewrite signed_text_value. f_equal. unfold integer_value in Hz.
  destruct (radix_split _) as [digits radix]. destruct (_ || _); [done|]. injection Hz as <-.
  destruct (starts_with "-" value); lia.
Qed.

Lemma integer_check_Ok string_tag float_tag integer_tag value r :
  integer_check string_tag float_tag integer_tag value = Ok r →
  string_tag = false → float_tag = false →
  integer_fits value ∧
  (integer_tag = true → ∀ text, r = Some text →
     ∃ z, integer_value value = Some z ∧ fits_64 z ∧ integer_value text = Some z) ∧
  (integer_tag = false → r = None).
Proof.
  rewrite integer_check_exact. intros Hr -> ->. cbn [orb] in Hr. unfold integer_fits.
  destruct (integer_value value) as [z|] eqn:Hz.
  - case_bool_decide as Hfit; [|done]. injection Hr as <-. split; [by intros ? [= <-]|].
    split; [|by intros ->]. intros -> text [= <-]. exists z. split; [done|]. split; [done|].
    by apply signed_text_integer.
  - injection Hr as <-. done.
Qed.

(** A tag is one of the five, or none of them. *)
Lemma tag_flags tag name :
  core_suffix tag = Some name → name ∈ ["bool"; "str"; "int"; "float"; "null"] →
  ∀ other, bool_decide (core_suffix tag = Some other) = bool_decide (name = other).
Proof. intros -> _ other. apply bool_decide_ext. naive_solver. Qed.

Lemma scalar_check_untagged span value style empty r :
  scalar_check span value style None = Ok r →
  match r with
  | None => canonical style empty value None None
  | Some (string_tag, rep) => string_tag = false ∧ style = Plain ∧
      ∀ text, replacement_text false empty value rep = Ok text → canonical style empty value None (Some text)
  end.
Proof.
  unfold scalar_check. cbn [mbind option_bind]. rewrite !(bool_decide_eq_false_2 (None = Some _)) by done.
  rewrite (bool_decide_eq_false_2 (is_Some None)) by (by intros []).
  rewrite (bool_decide_eq_true_2 (None = None)) by done. cbn [negb andb orb].
  case_bool_decide as Hstyle; cbn [negb]; [|intros [= <-]; by apply canonical_quoted].
  rewrite andb_true_r. cbn [mbind result_bind].
  destruct (integer_check false false false value) as [i|] eqn:Hi; cbn [mbind result_bind]; [|done].
  apply integer_check_Ok in Hi as (Hfits & _ & Hnone); [|done..]. rewrite (Hnone eq_refl).
  destruct (negb (leading_zero _) && _ && _ && _ && _) eqn:Hkeep; intros [= <-].
  - repeat (apply andb_true_iff in Hkeep as [Hkeep ?]). apply bool_decide_eq_true in H1.
    apply canonical_plain; [done..| |done]. unfold ambiguous. rewrite H1 in *.
    destruct (leading_zero _), (separated_number _), (legacy_prefix _), (mixed_keyword _ _); done.
  - split; [done|]. split; [done|]. unfold replacement_text. cbn [explicit_scalar boolean].
    intros text. destruct (boolean_spelling value) as [b|] eqn:Hb.
    + intros [= <-]. by apply canonical_untagged_boolean.
    + cbn. destruct (str_to_string value) as [t|] eqn:Ht; cbn; [|done]. intros [= <-].
      apply canonical_ambiguous; [done..| |done|done]. unfold ambiguous. rewrite Hb.
      rewrite bool_decide_eq_true_2, !andb_true_r in Hkeep by done.
      destruct (leading_zero _), (separated_number _), (legacy_prefix _), (mixed_keyword _ _); done.
Qed.

(** What the checks of a scalar tagged [tag] may answer. *)
Definition checked_ok (style : ScalarStyle) (empty : bool) (value : string) (tag : Tag)
  (r : option (bool * Replacement)) : Prop :=
  match r with
  | None => canonical style empty value (Some tag) None
  | Some (string_tag, rep) => string_tag = bool_decide (core_suffix tag = Some "str") ∧
      (string_tag = true → style = Plain) ∧
      ∀ text, replacement_text string_tag empty value rep = Ok text →
        canonical style empty value (Some tag) (Some text)
  end.

(** The checks with the tag's name decided. *)
Ltac check_tag Hwf Hn :=
  unfold scalar_check, checked_ok; cbn [mbind option_bind]; rewrite Hwf;
  rewrite (bool_decide_eq_true_2 (is_Some (Some _))) by (by eexists);
  rewrite (bool_decide_eq_false_2 (Some _ = None)) by done;
  rewrite !(tag_flags _ _ Hn) by set_solver;
  match type of Hn with _ = Some ?name =>
    rewrite (bool_decide_eq_true_2 (name = name)) by done;
    rewrite !(bool_decide_eq_false_2 (name = _)) by done
  end;
  cbn [negb andb orb mbind result_bind]; rewrite ?andb_false_r.

Lemma checked_string span value style empty tag r :
  tag_wf tag → core_suffix tag = Some "str" → scalar_check span value style (Some tag) = Ok r →
  checked_ok style empty value tag r.
Proof.
  intros Hwf Hn. check_tag Hwf Hn. case_bool_decide as Hstyle; cbn [negb andb mbind result_bind].
  - rewrite integer_check_exact. cbn [orb mbind result_bind]. intros [= <-].
    split; [done|]. split; [done|]. unfold replacement_text. cbn [explicit_scalar boolean andb].
    intros text. destruct (str_to_string _) as [t|] eqn:Ht; cbn [map_err mbind result_bind]; [|done].
    intros [= <-]. by apply canonical_string.
  - intros [= <-]. by apply canonical_quoted_string.
Qed.

Lemma checked_boolean span value style empty tag r :
  tag_wf tag → core_suffix tag = Some "bool" → scalar_check span value style (Some tag) = Ok r →
  checked_ok style empty value tag r.
Proof.
  intros Hwf Hn. check_tag Hwf Hn. destruct (boolean_spelling value) as [b|] eqn:Hb; [|done].
  rewrite (bool_decide_eq_false_2 (Some b = None)) by done. cbn [mbind result_bind].
  rewrite integer_check_exact. cbn [orb]. rewrite (boolean_not_integer _ _ Hb).
  cbn [mbind result_bind andb]. rewrite !andb_false_r. cbn [andb]. intros [= <-].
  split; [done|]. split; [done|]. unfold replacement_text. cbn [explicit_scalar boolean andb].
  intros text [= <-]. by apply canonical_boolean.
Qed.

Lemma checked_null span value style empty tag r :
  tag_wf tag → core_suffix tag = Some "null" → scalar_check span value style (Some tag) = Ok r →
  checked_ok style empty value tag r.
Proof.
  intros Hwf Hn. check_tag Hwf Hn. destruct (null_spelling value) eqn:Hv; cbn [mbind result_bind]; [|done].
  destruct (integer_check false false false value) as [i|] eqn:Hi; cbn [mbind result_bind]; [|done].
  apply integer_check_Ok in Hi as (_ & _ & Hnone); [|done..]. rewrite (Hnone eq_refl).
  rewrite (bool_decide_eq_false_2 (Some _ = None)) by done. rewrite andb_false_r. intros [= <-].
  split; [done|]. split; [done|]. unfold replacement_text. cbn [explicit_scalar].
  intros text [= <-]. by apply canonical_null.
Qed.

Lemma checked_integer span value style empty tag r :
  tag_wf tag → core_suffix tag = Some "int" → scalar_check span value style (Some tag) = Ok r →
  checked_ok style empty value tag r.
Proof.
  intros Hwf Hn. check_tag Hwf Hn.
  destruct (integer_check false false true value) as [i|] eqn:Hi; cbn [mbind result_bind]; [|done].
  apply integer_check_Ok in Hi as (_ & Hint & _); [|done..].
  destruct i as [i|]; [|done]. rewrite (bool_decide_eq_false_2 (Some _ = None)) by done.
  rewrite andb_false_r. intros [= <-]. split; [done|]. split; [done|].
  unfold replacement_text. cbn [explicit_scalar]. intros text [= <-].
  destruct (Hint eq_refl i eq_refl) as (z & Hz & Hfit & Hback). by eapply canonical_integer.
Qed.

Lemma checked_float span value style empty tag r :
  tag_wf tag → core_suffix tag = Some "float" → scalar_check span value style (Some tag) = Ok r →
  checked_ok style empty value tag r.
Proof.
  intros Hwf Hn. check_tag Hwf Hn. unfold float_check.
  destruct (parse_f64 value) as [number|] eqn:Hp; cbn [ok_or mbind result_bind fmap result_fmap]; [|done].
  destruct (f64_is_finite number) eqn:Hfin; [|done].
  destruct (f64_to_string number) as [t|] eqn:Ht; cbn [map_err fmap result_fmap mbind result_bind]; [|done].
  rewrite integer_check_exact. cbn [orb mbind result_bind].
  rewrite (bool_decide_eq_false_2 (Some _ = None)) by done. rewrite andb_false_r. intros [= <-].
  split; [done|]. split; [done|]. unfold replacement_text. cbn [explicit_scalar].
  intros text [= <-]. by eapply canonical_float.
Qed.

Lemma checked_tagged span value style empty tag r :
  tag_wf tag → scalar_check span value style (Some tag) = Ok r → checked_ok style empty value tag r.
Proof.
  intros Hwf Hr.
  destruct (decide (core_suffix tag = Some "str")); [by eapply checked_string|].
  destruct (decide (core_suffix tag = Some "bool")); [by eapply checked_boolean|].
  destruct (decide (core_suffix tag = Some "null")); [by eapply checked_null|].
  destruct (decide (core_suffix tag = Some "int")); [by eapply checked_integer|].
  destruct (decide (core_suffix tag = Some "float")); [by eapply checked_float|].
  exfalso. revert Hr. unfold scalar_check. cbn [mbind option_bind]. rewrite Hwf.
  by rewrite (bool_decide_eq_true_2 (is_Some (Some _))), !bool_decide_eq_false_2 by (by eexists || done).
Qed.
End canonical.

(** ** The rewritten document *)

(** One edit: the bytes it stands for and the text it puts there. *)
Record Edit := mkEdit { edit_start : nat; edit_stop : nat; edit_text : string }.

(** The input up to [copied], with the edits made and everything between
    them as it was. *)
Inductive covers (input : string) : list Edit → string → nat → Prop :=
  | covers_start : covers input [] "" 0
  | covers_edit edits output copied e between :
      covers input edits output copied →
      str_get copied (edit_start e) input = Some between →
      (edit_start e <= edit_stop e)%nat →
      covers input (edits ++ [e]) (output +:+ between +:+ edit_text e) (edit_stop e).

(** What may stand between a tag and the indicator of its block: white
    space, comments to the end of their lines, and anchors. *)
Inductive header_gap : string → Prop :=
  | gap_end : header_gap ""
  | gap_white w gap : w ∈ white_space → header_gap gap → header_gap (w +:+ gap)
  | gap_comment text gap :
      find_char newline text = None → header_gap (String newline gap) →
      header_gap (String (byte_of 35) text +:+ String newline gap)
  | gap_anchor name gap :
      find_white name = None → is_Some (strip_white gap) → header_gap gap →
      header_gap (String (byte_of 38) name +:+ gap).

Definition is_indicator (c : Ascii.ascii) : Prop := c = byte_of 124 ∨ c = byte_of 62.

(** The blanking of a tag that no longer applies, by spaces, and where it
    ends. *)
Inductive tag_edits (input : string) (span : YamlSpan) (start : nat)
  : option Tag → list Edit → option nat → Prop :=
  | tag_absent : tag_edits input span start None [] None
  | tag_kept tag : core_suffix tag = Some "str" → tag_edits input span start (Some tag) [] None
  | tag_blanked tag at_ source length :
      core_suffix tag ≠ Some "str" → tag_start span = Some at_ →
      str_get at_ start input = Some source →
      length = default (String.length source) (find_white source) →
      tag_edits input span start (Some tag) [mkEdit at_ (at_ + length) (repeat_char space length)] (Some (at_ + length)%nat).

(** The replaced scalar. A block scalar is replaced from its indicator on,
    which only a gap separates from the blanked tag; the white space it
    ends with stays, and so do the line breaks of its lines. *)
Inductive scalar_edit (input : string) (tag_end : option nat) (start stop : nat) (style : ScalarStyle) (text : string)
  : Edit → Prop :=
  | edit_flow :
      is_block style = false → scalar_edit input tag_end start stop style text (mkEdit start stop text)
  | edit_block after from gap c rest tail lines :
      is_block style = true → tag_end = Some after →
      str_get after from input = Some gap → header_gap gap →
      str_get from stop input = Some (String c rest) → is_indicator c →
      tail = str_drop (String.length (trim_end (String c rest))) (String c rest) →
      (lines + count_char newline tail = count_char newline (String c rest))%nat →
      scalar_edit input tag_end start stop style text
        (mkEdit from stop (text +:+ repeat_char newline lines +:+ tail)).

Inductive event_edits `{SerdeScalar} (input : string) : YamlEvent * YamlSpan → list Edit → Prop :=
  | edits_other event span :
      (match event with Scalar _ _ _ => False | _ => True end) → event_edits input (event, span) []
  | edits_kept value style tag span :
      (∀ empty, canonical style empty value tag None) → event_edits input (Scalar value style tag, span) []
  | edits_scalar value style tag span start stop text blanks tag_end e :
      byte_range span = Some (start, stop) →
      canonical style (stop <=? start)%nat value tag (Some text) →
      tag_edits input span start tag blanks tag_end → scalar_edit input tag_end start stop style text e →
      event_edits input (Scalar value style tag, span) (blanks ++ [e]).

Lemma find_white_length s n : find_white s = Some n → (n < String.length s)%nat.
Proof.
  revert n. induction s as [|c s IH]; intros n; cbn [find_white String.length].
  - by destruct (strip_white "") eqn:Hw.
  - destruct (strip_white (String c s)); [intros [= <-]; lia|].
    destruct (find_white s) as [k|]; [|done]. intros [= <-]. specialize (IH k eq_refl). lia.
Qed.

Lemma tag_length_le source : (default (String.length source) (find_white source) <= String.length source)%nat.
Proof. destruct (find_white source) as [n|] eqn:Hn; cbn; [apply find_white_length in Hn; lia|lia]. Qed.

Section splice.
Context `{SerdeScalar}.

Lemma blank_tag_Ok input span copied start before from :
  blank_tag input span copied start = Ok (before, from) →
  ∃ at_ between source length, tag_start span = Some at_ ∧
    str_get copied at_ input = Some between ∧ str_get at_ start input = Some source ∧
    length = default (String.length source) (find_white source) ∧
    before = between +:+ repeat_char space length ∧ from = (at_ + length)%nat.
Proof.
  unfold blank_tag. intros Hb. apply bind_Ok in Hb as (at_ & Ha%ok_or_Ok & Hb).
  apply bind_Ok in Hb as (between & Hp%ok_or_Ok & Hb).
  apply bind_Ok in Hb as (source & Hs%ok_or_Ok & [= <- <-]). by eexists _, _, _, _.
Qed.

(** A gap before an indicator has the white space its end needs. *)
Lemma gap_starts_white gap c rest :
  header_gap gap → is_indicator c → is_Some (strip_white (gap +:+ String c rest)) → is_Some (strip_white gap).
Proof.
  intros Hgap Hc [x Hx]. destruct Hgap as [|w gap Hw|text gap|name gap].
  - cbn in Hx. rewrite strip_white_None in Hx; [done|]. by destruct Hc as [->| ->].
  - by apply strip_white_starts.
  - cbn in Hx. by rewrite strip_white_None in Hx.
  - cbn in Hx. by rewrite strip_white_None in Hx.
Qed.

(** The search stops at the indicator after such a gap. *)
Lemma block_header_exact input fuel span cursor stop from :
  block_header input fuel span cursor stop = Ok from →
  ∃ gap c rest, str_get cursor from input = Some gap ∧ header_gap gap ∧
    str_get from stop input = Some (String c rest) ∧ is_indicator c.
Proof.
  revert cursor. induction fuel as [|fuel IH]; intros cursor; [done|]. cbn [block_header].
  intros (remaining & Hr%ok_or_Ok & Hb)%bind_Ok. destruct remaining as [|c rest]; [done|].
  assert (∀ x y, String c rest = x +:+ y → block_header input fuel span (cursor + String.length x)%nat stop = Ok from →
    ∃ gap c' rest', str_get cursor from input = Some (x +:+ gap) ∧ header_gap gap ∧ y = gap +:+ String c' rest' ∧
      str_get from stop input = Some (String c' rest') ∧ is_indicator c') as Hstep.
  { intros x y Hxy Hnext. destruct (IH _ Hnext) as (gap & c' & rest' & Hgap & Hg & Hfrom & Hc').
    pose proof (str_get_app _ _ _ _ _ _ Hgap Hfrom) as Hrest. rewrite Hxy in Hr.
    destruct (str_get_split _ _ _ _ _ _ Hr Hrest) as [<- Hx].
    exists gap, c', rest'. split; [by eapply str_get_app|]. by split_and!. }
  destruct (_ || _) eqn:Hind.
  { injection Hb as <-. exists "", c, rest. split.
    - pose proof Hr as (_ & Ha & _ & p & q & Hs & Hp & _)%str_get_Some.
      apply (str_get_intro _ _ _ p "" (String c rest +:+ q)); [done|done|cbn; lia|done|done].
    - split; [constructor|]. split; [done|]. apply orb_true_iff in Hind as [Hi|Hi];
        apply bool_decide_eq_true in Hi; unfold is_indicator; auto. }
  destruct (bool_decide (c = byte_of 35)) eqn:Hcomment; [|destruct (bool_decide (c = byte_of 38)) eqn:Hanchor].
  - apply bool_decide_eq_true in Hcomment as ->. destruct (find_char newline _) as [k|] eqn:Hk; cbn [default] in Hb.
    + pose proof Hk as (pre & post & Hpre & <- & Hnone)%find_char_Some.
      destruct (Hstep _ _ Hpre Hb) as (gap & c' & rest' & Hget & Hg & Hy & Hfrom & Hc').
      destruct pre as [|d text]; [assert (byte_of 35 = newline) as [=] by (injection Hpre; congruence)|].
      injection Hpre as <- _. cbn [find_char] in Hnone. rewrite decide_False in Hnone by done.
      destruct (find_char newline text) eqn:Htext; [done|clear Hnone].
      destruct gap as [|d gap]; [cbn in Hy; injection Hy as <- _; by destruct Hc'|].
      cbn in Hy. injection Hy as <- _. exists (String (byte_of 35) text +:+ String newline gap), c', rest'.
      split_and!; try done. by apply gap_comment.
    + exfalso. destruct (Hstep (String (byte_of 35) rest) "") as (gap & c' & rest' & _ & _ & Hy & _);
        [by rewrite app_str_nil_r|exact Hb|]. by destruct gap.
  - apply bool_decide_eq_true in Hanchor as ->.
    apply bind_Ok in Hb as (k & Hk%ok_or_Ok & Hb).
    apply find_white_Some in Hk as (pre & post & Hpre & <- & Hnone & Hwhite).
    destruct (Hstep _ _ Hpre Hb) as (gap & c' & rest' & Hget & Hg & -> & Hfrom & Hc').
    destruct pre as [|d name].
    { cbn in Hpre. rewrite <- Hpre in Hwhite. rewrite strip_white_None in Hwhite by done. by destruct Hwhite. }
    injection Hpre as <- _. cbn [find_white] in Hnone. rewrite strip_white_None in Hnone by done.
    destruct (find_white name) eqn:Hname; [done|].
    exists (String (byte_of 38) name +:+ gap), c', rest'. split_and!; try done.
    apply gap_anchor; [done| |done]. by eapply gap_starts_white.
  - destruct (strip_white (String c rest)) as [tail|] eqn:Hw; [|done].
    apply strip_white_elem in Hw as (w & Hin & Heq).
    assert (String.length (String c rest) - String.length tail = String.length w)%nat as Hlen
      by (rewrite Heq, str_length_app; lia). rewrite Hlen in Hb.
    destruct (Hstep _ _ Heq Hb) as (gap & c' & rest' & Hget & Hg & _ & Hfrom & Hc').
    exists (w +:+ gap), c', rest'. split_and!; try done. by apply gap_white.
Qed.

Lemma count_char_app c s s' : count_char c (s +:+ s') = (count_char c s + count_char c s')%nat.
Proof. induction s as [|d s IH]; cbn; [done|]. rewrite IH. lia. Qed.

Lemma str_drop_count c n s : (count_char c (str_drop n s) <= count_char c s)%nat.
Proof.
  unfold str_drop. destruct (Nat.le_gt_cases n (String.length s)) as [Hle|Hgt].
  - destruct (substring_split s n (String.length s - n)) as (p & q & Heq & _ & _); [lia|].
    rewrite Heq at 3. rewrite !count_char_app. lia.
  - replace (String.length s - n)%nat with 0%nat by lia.
    destruct (String.substring n 0 s) as [|d r] eqn:Hs; [cbn; lia|exfalso].
    revert n Hgt Hs. induction s as [|e s IH]; intros [|n] Hgt Hs; try done. eapply (IH n); [cbn in Hgt; lia|done].
Qed.

(** The flag the checks give agrees with the tag. *)
Definition flag_of (tag : option Tag) (string_tag : bool) : Prop :=
  string_tag = match tag with Some t => bool_decide (core_suffix t = Some "str") | None => false end.

Lemma blank_covers input span tag string_tag edits output copied start before from :
  flag_of tag string_tag → covers input edits output copied →
  (if bool_decide (is_Some tag) && negb string_tag then blank_tag input span copied start
   else Ok ("", copied)) = Ok (before, from) →
  ∃ blanks tag_end, tag_edits input span start tag blanks tag_end ∧
    covers input (edits ++ blanks) (output +:+ before) from ∧
    (is_Some tag → string_tag = false → tag_end = Some from).
Proof.
  intros Hflag Hcov Hblank. assert (tag_edits input span start tag [] None → before = "" → from = copied →
    (is_Some tag → string_tag = false → None = Some from) →
    ∃ blanks tag_end, tag_edits input span start tag blanks tag_end ∧
      covers input (edits ++ blanks) (output +:+ before) from ∧
      (is_Some tag → string_tag = false → tag_end = Some from)) as Hnone.
  { intros Ht -> -> Hend. exists [], None. rewrite app_nil_r, app_str_nil_r. done. }
  destruct tag as [tag|]; [|rewrite bool_decide_eq_false_2 in Hblank by (by intros []); cbn in Hblank;
    injection Hblank as <- <-; apply Hnone; [apply tag_absent|done|done|by intros []]].
  rewrite bool_decide_eq_true_2 in Hblank by (by eexists). unfold flag_of in Hflag. subst string_tag.
  case_bool_decide as Hstr; cbn [negb andb] in Hblank.
  { injection Hblank as <- <-. by apply Hnone; [apply tag_kept|..]. }
  apply blank_tag_Ok in Hblank as (at_ & between & source & length & Ht & Hb & Hs & Hl & -> & ->).
  exists [mkEdit at_ (at_ + length) (repeat_char space length)], (Some (at_ + length)%nat).
  split; [by eapply tag_blanked|]. split; [|done].
  apply (covers_edit _ _ _ _ (mkEdit _ _ _) _ Hcov Hb). cbn. lia.
Qed.

Lemma replaced_edit input span tag_end style start stop from header text after :
  (is_block style = true → tag_end = Some from) →
  (if is_block style then block_header input (S (String.length input)) span from stop else Ok start) = Ok header →
  (if is_block style then block_tail <$> ok_or (str_get header stop input)
     (invalid_at span "invalid YAML block scalar range") else Ok "") = Ok after →
  (start <= stop)%nat →
  (header <= stop)%nat ∧ scalar_edit input tag_end start stop style text (mkEdit header stop (text +:+ after)).
Proof.
  intros Hend. destruct (is_block style) eqn:Hblock.
  - intros Hheader Hafter _. apply block_header_exact in Hheader as (gap & c & rest & Hgap & Hg & Hrest & Hc).
    rewrite Hrest in Hafter. injection Hafter as <-. split; [apply str_get_Some in Hrest; lia|].
    eapply edit_block; [done|by apply Hend|done..|].
    pose proof (str_drop_count newline (String.length (trim_end (String c rest))) (String c rest)) as Hcount.
    revert Hcount. generalize (count_char newline (String c rest)). lia.
  - intros [= <-] [= <-] Hle. split; [done|]. rewrite app_str_nil_r. by apply edit_flow.
Qed.

(** One replaced scalar adds its edits and nothing else. *)
Lemma splice_covers input span value style tag string_tag rep edits output copied output' copied' :
  flag_of tag string_tag →
  (is_block style = true → is_Some tag ∧ string_tag = false) →
  (∀ empty text, replacement_text string_tag empty value rep = Ok text →
     canonical style empty value tag (Some text)) →
  (∀ start stop, byte_range span = Some (start, stop) → (start <= stop)%nat) →
  covers input edits output copied →
  splice input span value style tag string_tag rep (output, copied) = Ok (output', copied') →
  ∃ new start, event_edits input (Scalar value style tag, span) new ∧
    covers input (edits ++ new) output' copied' ∧ byte_range span = Some (start, copied').
Proof.
  intros Hflag Hblock Hcanon Hspan Hcov. unfold splice. rewrite bind_Ok.
  intros ([start stop] & Hrange%ok_or_Ok & Hrest). pose proof (Hspan _ _ Hrange) as Hle.
  apply bind_Ok in Hrest as ([before from] & Hblank & Hrest).
  apply bind_Ok in Hrest as (header & Hheader & Hrest).
  apply bind_Ok in Hrest as (prefix & Hprefix%ok_or_Ok & Hrest).
  apply bind_Ok in Hrest as (text & Htext & Hrest).
  apply bind_Ok in Hrest as (after & Hafter & [= <- <-]).
  destruct (blank_covers _ _ _ _ _ _ _ _ _ _ Hflag Hcov Hblank) as (blanks & tag_end & Hblanks & Hcov' & Hend).
  destruct (replaced_edit _ _ tag_end _ _ _ _ _ text _ (λ Hb, Hend (proj1 (Hblock Hb)) (proj2 (Hblock Hb))) Hheader Hafter Hle)
    as [Hhs He].
  exists (blanks ++ [mkEdit header stop (text +:+ after)]), start.
  split; [by eapply edits_scalar; eauto|]. split; [|done].
  rewrite app_assoc, (app_str_assoc output before).
  by apply (covers_edit _ _ _ _ (mkEdit _ _ _) _ Hcov' Hprefix).
Qed.
End splice.

(** ** The pass *)

Section laws.
Context `{GranitParser}.

(** What the pass relies on: a scalar's bytes are a slice of the text, one
    with a tag or a plain value has at least one byte before its end, and
    a tag answers for its own name. *)
Class GranitLaws : Prop := {
  granit_slices input flow block event span start stop :
    Ok (event, span) ∈ granit_events input flow block → byte_range span = Some (start, stop) →
    is_Some (str_get start stop input);
  granit_sourced input flow block value style tag span start stop :
    Ok (Scalar value style tag, span) ∈ granit_events input flow block →
    byte_range span = Some (start, stop) → tag ≠ None ∨ (style = Plain ∧ value ≠ "") → (0 < stop)%nat;
  granit_tags input flow block event span tag :
    Ok (event, span) ∈ granit_events input flow block → event_tag event = Some tag → tag_wf tag }.
End laws.

Section pass.
Context `{SerdeScalar}.

(** What the laws say of one event of a text. *)
Record event_wf (input : string) (event : YamlEvent) (span : YamlSpan) : Prop := {
  wf_slices start stop : byte_range span = Some (start, stop) → is_Some (str_get start stop input);
  wf_sourced value style tag start stop : event = Scalar value style tag →
    byte_range span = Some (start, stop) → tag ≠ None ∨ (style = Plain ∧ value ≠ "") → (0 < stop)%nat;
  wf_tag tag : event_tag event = Some tag → tag_wf tag }.

(** The rewriting so far: nothing is written before something is
    replaced, and what is copied ends between characters. *)
Record rewriting_ok (input : string) (edits : list Edit) (rw : string * nat) : Prop := {
  rw_covers : covers input edits rw.1 rw.2;
  rw_start : rw.2 = 0%nat → edits = [] ∧ rw.1 = "";
  rw_boundary : rw.2 = 0%nat ∨ is_char_boundary input rw.2 = true;
  rw_length : (rw.2 <= String.length input)%nat }.

Lemma rewriting_start input : rewriting_ok input [] ("", 0%nat).
Proof. split; cbn; [constructor|done|by left|lia]. Qed.

(** An empty plain scalar without a tag is kept. *)
Lemma scalar_check_empty span p : scalar_check span "" Plain None ≠ Ok (Some p).
Proof. by intros [=]. Qed.

(** A scalar that is not plain is replaced for its tag's sake only. *)
Lemma scalar_check_quoted span value style tag p :
  scalar_check span value style tag = Ok (Some p) → style ≠ Plain → ∃ t, tag = Some t ∧ core_suffix t ≠ Some "str".
Proof.
  intros Hr Hstyle. revert Hr. unfold scalar_check. rewrite (bool_decide_eq_false_2 (style = Plain)) by done.
  case_match; [done|]. cbn [negb andb]. destruct tag as [tag|]; [|done]. cbn [mbind option_bind].
  destruct (bool_decide (core_suffix tag = Some "str")) eqn:Hstr; [done|]. intros _. exists tag.
  split; [done|]. by apply bool_decide_eq_false in Hstr.
Qed.

(** The checks of a scalar against the law about its tag. *)
Lemma scalar_checked span value style tag r :
  (∀ t, tag = Some t → tag_wf t) → scalar_check span value style tag = Ok r →
  match r with
  | None => ∀ empty, canonical style empty value tag None
  | Some (string_tag, rep) => flag_of tag string_tag ∧
      (tag ≠ None ∨ (style = Plain ∧ value ≠ "")) ∧
      (is_block style = true → is_Some tag ∧ string_tag = false) ∧
      ∀ empty text, replacement_text string_tag empty value rep = Ok text →
        canonical style empty value tag (Some text)
  end.
Proof.
  intros Hwf Hr.
  assert (∀ st rep, r = Some (st, rep) → flag_of tag st → is_block style = true → is_Some tag ∧ st = false) as Hblock.
  { intros st rep -> -> Hb. destruct (scalar_check_quoted _ _ _ _ _ Hr) as (t & -> & Hstr); [by intros ->|].
    split; [by eexists|]. by apply bool_decide_eq_false. }
  destruct tag as [tag|].
  - pose proof (λ empty, checked_tagged span value style empty tag r (Hwf tag eq_refl) Hr) as Hok.
    destruct r as [[string_tag rep]|]; [|done].
    split; [exact (proj1 (Hok false))|]. split; [by left|]. split; [by eapply Hblock; [|apply (Hok false)]|]. intros empty. apply Hok.
  - pose proof (λ empty, scalar_check_untagged span value style empty r Hr) as Hok.
    destruct r as [[string_tag rep]|]; [|done].
    destruct (Hok false) as (-> & Hplain & _). split; [done|]. split.
    + right. split; [done|]. intros ->. subst style. by apply scalar_check_empty in Hr.
    + split; [by eapply Hblock; [|apply (Hok false)]|]. intros empty. apply Hok.
Qed.

(** One event keeps the rewriting exact. *)
Lemma event_step_ok input span event documents rw documents' rw' edits :
  event_wf input event span → rewriting_ok input edits rw →
  event_step input span event (documents, rw) = Ok (documents', rw') →
  ∃ new, event_edits input (event, span) new ∧ rewriting_ok input (edits ++ new) rw'.
Proof.
  intros Hwf Hrw. unfold event_step. cbn zeta.
  case_match eqn:Hdocs; [done|]. clear Hdocs. destruct (non_specific _); [done|].
  assert (rewriting_ok input (edits ++ []) rw) as Hsame by (by rewrite app_nil_r).
  destruct event as [|value style tag|tag|tag|]; try (intros [= <- <-]; exists []; split; [by constructor|done]).
  rewrite bind_Ok. intros (r & Hr & Hrest). apply scalar_checked in Hr; [|by apply Hwf].
  destruct r as [[string_tag rep]|].
  2:{ injection Hrest as <- <-. exists []. split; [by apply edits_kept|done]. }
  destruct Hr as (Hflag & Hsourced & Hblock & Hcanon).
  apply bind_Ok in Hrest as ([output' copied'] & Hsplice & [= <- <-]). destruct rw as [output copied].
  destruct (splice_covers _ _ _ _ _ _ _ _ _ _ _ _ Hflag Hblock Hcanon
    (λ a b Hab, proj1 (str_get_le _ _ _ (wf_slices _ _ _ Hwf a b Hab))) (rw_covers _ _ _ Hrw) Hsplice)
    as (new & start & Hnew & Hcov & Hrange).
  exists new. split; [done|]. destruct (wf_slices _ _ _ Hwf _ _ Hrange) as [t Ht].
  apply str_get_Some in Ht as ([? ?] & _ & Hb & _).
  split; cbn; [done| |by right|done].
  intros ->. pose proof (wf_sourced _ _ _ Hwf _ _ _ _ _ eq_refl Hrange Hsourced). lia.
Qed.
End pass.

Section document.
Context `{GranitLaws} `{SerdeScalar}.

(** How many documents a stream of events starts. *)
Definition starts_document (e : result ScanError (YamlEvent * YamlSpan)) : bool :=
  match e with Ok (DocumentStart, _) => true | _ => false end.
Definition document_starts (events : list (result ScanError (YamlEvent * YamlSpan))) : nat :=
  length (filter (λ e, starts_document e = true) events).

Lemma event_step_documents input span event documents rw documents' rw' :
  (documents <= 1)%N → event_step input span event (documents, rw) = Ok (documents', rw') →
  documents' = (documents + if starts_document (Ok (event, span)) then 1 else 0)%N ∧
  (documents' <= 1)%N ∧ non_specific (event_tag event) = false.
Proof.
  unfold event_step. cbn zeta. intros Hd. case_match eqn:Hmany; [done|].
  destruct (non_specific _); [done|]. destruct event as [|value style tag|tag|tag|]; cbn [starts_document].
  2:{ rewrite bind_Ok. intros (r & _ & Hrest). destruct r as [[b rep]|].
      - apply bind_Ok in Hrest as (rw1 & _ & [= <- _]). split; [lia|]. split; [lia|done].
      - injection Hrest as <- _. split; [lia|]. split; [lia|done]. }
  all: intros [= <- _]; split; [lia|]; split; [|done]; try lia.
  by apply N.ltb_ge in Hmany.
Qed.

(** The pass accepts events within the budget only, and its rewriting is
    exact. *)
Lemma scan_ok input limits events index documents rw documents' rw' edits :
  (∀ event span, Ok (event, span) ∈ events → event_wf input event span) →
  rewriting_ok input edits rw → (documents <= 1)%N →
  scan input limits index events (documents, rw) = Ok (documents', rw') →
  ∃ news,
    Forall2 (λ e new, ∃ event span, e = Ok (event, span) ∧ non_specific (event_tag event) = false ∧
      event_edits input (event, span) new) events news ∧
    rewriting_ok input (edits ++ concat news) rw' ∧
    (N.of_nat (length events) + index <= N.max index (max_manifest_events limits))%N ∧
    (documents + N.of_nat (document_starts events) <= 1)%N.
Proof.
  revert index documents rw edits. induction events as [|e events IH];
    intros index documents rw edits Hwf Hrw Hd.
  - intros [= <- <-]. exists []. rewrite app_nil_r. split; [done|]. split; [done|]. cbn. lia.
  - cbn [scan]. destruct (N.leb_spec (max_manifest_events limits) index); [done|].
    rewrite bind_Ok. intros ([event span] & He & Hrest). apply map_err_Ok in He as ->.
    apply bind_Ok in Hrest as ([documents1 rw1] & Hstep & Hrest).
    destruct (event_step_documents _ _ _ _ _ _ _ Hd Hstep) as (Hd1 & Hd1' & Htag).
    edestruct event_step_ok as (new & Hnew & Hrw1); [|exact Hrw|exact Hstep|].
    { by apply Hwf; left. }
    apply (IH _ _ _ (edits ++ new)) in Hrest as (news & Hnews & Hrw' & Hlen & Hstarts);
      [|set_solver|done|done].
    exists (new :: news). split; [constructor; [by eexists _, _|done]|].
    split; [by cbn; rewrite app_assoc|]. split; [cbn [length]; lia|].
    revert Hstarts. unfold document_starts. rewrite filter_cons, Hd1.
    destruct (starts_document _); [rewrite decide_True by done|rewrite decide_False by done]; cbn [length]; lia.
Qed.

Lemma parser_events_wf input limits event span :
  Ok (event, span) ∈ parser_events input limits → event_wf input event span.
Proof.
  intros He. split.
  - intros start stop. by eapply granit_slices.
  - intros value style tag start stop ->. by eapply granit_sourced.
  - intros tag. by eapply granit_tags.
Qed.

(** The last slice is in range, so the pass never panics. *)
Lemma preserve_returns input limits : is_Some (preserve_scalar_types input limits).
Proof.
  unfold preserve_scalar_types.
  destruct (scan _ _ _ _ _) as [[documents [output copied]]|e] eqn:Hscan; [|by eexists].
  apply scan_ok with (edits := []) in Hscan as (news & _ & Hrw & _);
    [|intros ??; apply parser_events_wf|apply rewriting_start|done].
  destruct (Nat.eqb_spec copied 0) as [|Hn]; [by eexists|].
  destruct Hrw as [_ _ [|Hb] Hlen]; [done|]. cbn in *.
  destruct (str_get_full copied input) as [rest ->]; [done..|]. by eexists.
Qed.

Lemma substring_whole s : String.substring 0 (String.length s) s = s.
Proof. induction s as [|c s IH]; cbn; [done|by f_equal]. Qed.

(** C37: The rewriting of an accepted document is exact. It has one document
    and at most the budget's events, none of its tags is [!], and the
    output is the input with nothing changed but, for every scalar that is
    to be read as something else than its source says, its bytes, and the
    bytes of the tag that said so. Of a block scalar those are the bytes from
    its indicator on: the comments and anchors between the tag and the
    indicator stay, and so do its line breaks. A scalar that is no block
    loses the line breaks it is written over ([Demo.lines_lost]). *)
Theorem rewriting_exact input limits output :
  preserve_scalar_types input limits = Some (Ok output) →
  ∃ news copied written,
    Forall2 (λ e new, ∃ event span, e = Ok (event, span) ∧ non_specific (event_tag event) = false ∧
      event_edits input (event, span) new) (parser_events input limits) news ∧
    covers input (concat news) written copied ∧ output = written +:+ str_drop copied input ∧
    (N.of_nat (length (parser_events input limits)) <= max_manifest_events limits)%N ∧
    (document_starts (parser_events input limits) <= 1)%nat.
Proof.
  unfold preserve_scalar_types.
  destruct (scan _ _ _ _ _) as [[documents [written copied]]|e] eqn:Hscan; [|done].
  apply scan_ok with (edits := []) in Hscan as (news & Hnews & Hrw & Hlen & Hstarts);
    [|intros ??; apply parser_events_wf|apply rewriting_start|done].
  intros Hout. exists news, copied, written. split; [done|]. split; [by apply Hrw|].
  split; [|split; lia].
  destruct (Nat.eqb_spec copied 0) as [->|Hn].
  - injection Hout as <-. destruct (rw_start _ _ _ Hrw eq_refl) as [_ Hw]. cbn in Hw. subst written. cbn.
    unfold str_drop. by rewrite Nat.sub_0_r, substring_whole.
  - cbn [mbind option_bind] in Hout. unfold str_get in Hout. case_match; [|done].
    by injection Hout as <-.
Qed.
End document.

(** ** Refusals *)

(** The manifest's fault. *)
Definition blames_manifest (e : RuntimeError) : Prop :=
  match e with ManifestInvalid _ => True | _ => False end.
Definition blames_limit (e : RuntimeError) : Prop :=
  match e with ResourceLimitExceeded _ => True | _ => False end.

Section refusals.
Context `{GranitParser} `{SerdeScalar} `{Saphyr}.

Lemma integer_check_refuses string_tag float_tag integer_tag value :
  errs blames_manifest (integer_check string_tag float_tag integer_tag value).
Proof. unfold integer_check. solve_errs. Qed.

Lemma float_check_refuses span value : errs blames_manifest (float_check span value).
Proof. unfold float_check. solve_errs. Qed.

#[local] Hint Resolve integer_check_refuses float_check_refuses : core.

Lemma scalar_check_refuses span value style tag : errs blames_manifest (scalar_check span value style tag).
Proof. unfold scalar_check. cbn zeta. solve_errs. Qed.

Lemma block_header_refuses input fuel span cursor stop :
  errs blames_manifest (block_header input fuel span cursor stop).
Proof. revert cursor. induction fuel as [|fuel IH]; intros cursor; cbn [block_header]; solve_errs. Qed.

Lemma blank_tag_refuses input span copied start : errs blames_manifest (blank_tag input span copied start).
Proof. unfold blank_tag. solve_errs. Qed.

Lemma replacement_refuses string_tag empty value r :
  errs blames_manifest (replacement_text string_tag empty value r).
Proof. unfold replacement_text. solve_errs. Qed.

#[local] Hint Resolve scalar_check_refuses block_header_refuses blank_tag_refuses replacement_refuses : core.

Lemma splice_refuses input span value style tag string_tag r state :
  errs blames_manifest (splice input span value style tag string_tag r state).
Proof. unfold splice. solve_errs. Qed.
#[local] Hint Resolve splice_refuses : core.

Lemma event_step_refuses input span event state : errs blames_manifest (event_step input span event state).
Proof. unfold event_step. cbn zeta. solve_errs. Qed.

(** The pass exceeds a budget: after the events before it were accepted,
    an event is one too many, or the parser's nesting limit was hit. *)
Inductive scan_exceeds (input : string) (limits : Limits)
  : N → list (result ScanError (YamlEvent * YamlSpan)) → N * (string * nat) → Prop :=
  | exceeds_events index e events state :
      (max_manifest_events limits <= index)%N → scan_exceeds input limits index (e :: events) state
  | exceeds_depth index err events state :
      (index < max_manifest_events limits)%N → recursion_limit_exceeded err = true →
      scan_exceeds input limits index (Err err :: events) state
  | exceeds_later index event span events state state' :
      (index < max_manifest_events limits)%N → event_step input span event state = Ok state' →
      scan_exceeds input limits (index + 1) events state' →
      scan_exceeds input limits index (Ok (event, span) :: events) state.

Lemma scan_refuses input limits index events state e :
  scan input limits index events state = Err e →
  (blames_limit e ∧ scan_exceeds input limits index events state) ∨
  (blames_manifest e ∧ ¬ scan_exceeds input limits index events state).
Proof.
  revert index state. induction events as [|event events IH]; intros index state; [done|]. cbn [scan].
  destruct (N.leb_spec (max_manifest_events limits) index) as [Hle|Hlt].
  { intros [= <-]. left. split; [exact I|]. by apply exceeds_events. }
  destruct event as [[event span]|err]; cbn [map_err mbind result_bind fst snd].
  - destruct (event_step input span event state) as [state'|e'] eqn:Hstep; cbn [mbind result_bind].
    + intros [[Hb Hex]|[Hb Hex]]%IH; [left|right]; (split; [done|]).
      * by eapply exceeds_later.
      * inversion 1 as [| |? ? ? ? ? state1 _ Hstep1 Hex1]; subst; [lia|]. apply Hex. congruence.
    + intros [= <-]. right. split; [by eapply event_step_refuses|]. inversion 1; subst; [lia|]. congruence.
  - intros [= <-]. unfold scan_error. destruct (recursion_limit_exceeded err) eqn:Hrec.
    + left. split; [exact I|]. by apply exceeds_depth.
    + right. split; [exact I|]. inversion 1; subst; [lia|congruence].
Qed.

(** The deserializer exceeded a budget: its report names a breach, or its
    error is one. *)
Definition deserialize_exceeds (d : Deserialized) : Prop :=
  ∃ err, de_answer d = Err err ∧ (de_breached d ≠ None ∨ saphyr_kind err ≠ SaphyrOther).

Lemma deserialize_refuses limits d e :
  map_err (deserialize_error limits d) (de_answer d) = Err e →
  (blames_limit e ∧ deserialize_exceeds d) ∨ (blames_manifest e ∧ ¬ deserialize_exceeds d).
Proof.
  rewrite map_err_Err. intros (err & Herr & ->). unfold deserialize_error.
  destruct (manifest_budget_message err (de_breached d) limits) as [message|] eqn:Hm;
    [left|right]; (split; [exact I|]); unfold manifest_budget_message in Hm.
  - exists err. split; [done|]. destruct (de_breached d); [by left|]. right. intros Hk. by rewrite Hk in Hm.
  - intros (err' & Herr' & Hor). rewrite Herr in Herr'. injection Herr' as <-.
    destruct (de_breached d), (saphyr_kind err); naive_solver.
Qed.

(** Some budget of a manifest's limits was exceeded: the size of its
    text, the events or the nesting of the pass over it, or the
    deserializer's own. *)
Definition exceeds_budget (input : string) (limits : Limits) : Prop :=
  (max_merged_manifest_bytes limits < str_len input)%N ∨
  scan_exceeds input limits 0 (parser_events input limits) (0%N, ("", 0%nat)) ∨
  ∃ text, preserve_scalar_types input limits = Some (Ok text) ∧
    deserialize_exceeds (deserialize_manifest text (manifest_options limits)).

Lemma scan_accepts input limits index events state state' :
  scan input limits index events state = Ok state' → ¬ scan_exceeds input limits index events state.
Proof.
  revert index state. induction events as [|event events IH]; intros index state; [inversion 2|].
  cbn [scan]. destruct (N.leb_spec (max_manifest_events limits) index) as [|Hlt]; [done|].
  rewrite bind_Ok. intros ([ev span] & He & Hrest). apply map_err_Ok in He as ->.
  apply bind_Ok in Hrest as (state1 & Hstep & Hrest). apply IH in Hrest.
  inversion 1 as [| |? ? ? ? ? state2 _ Hstep2 Hex]; subst; [lia|]. apply Hrest. cbn in Hstep. congruence.
Qed.

(** No document panics. *)
Lemma yaml_returns `{!GranitLaws} input limits : is_Some (yaml_str_with_limits input limits).
Proof.
  unfold yaml_str_with_limits. destruct (_ <? _)%N; [by eexists|].
  destruct (preserve_returns input limits) as [r ->]. by eexists.
Qed.

(** C38: Every answer but acceptance blames either a limit or the document: a
    limit exactly when a budget was exceeded, and an accepted manifest
    exceeded none. *)
Theorem yaml_refusals_exact `{!GranitLaws} input limits :
  ∃ r, yaml_str_with_limits input limits = Some r ∧
    match r with
    | Ok _ => ¬ exceeds_budget input limits
    | Err e => blames_limit e ∧ exceeds_budget input limits ∨
        blames_manifest e ∧ ¬ exceeds_budget input limits
    end.
Proof.
  unfold yaml_str_with_limits, exceeds_budget.
  destruct (N.ltb_spec (max_merged_manifest_bytes limits) (str_len input)) as [Hlt|Hle].
  { eexists. split; [done|]. left. split; [exact I|by left]. }
  destruct (preserve_returns input limits) as [r Hr]. rewrite Hr. cbn [mbind option_bind].
  eexists. split; [done|]. unfold preserve_scalar_types in Hr.
  destruct (scan _ _ _ _ _) as [[documents [output copied]]|e] eqn:Hscan.
  - apply scan_accepts in Hscan.
    assert (∃ text, r = Ok text) as [text ->].
    { destruct (copied =? 0)%nat; [injection Hr as <-; by eexists|].
      destruct (str_get _ _ _); [injection Hr as <-; by eexists|done]. }
    cbn [mbind result_bind]. set (d := deserialize_manifest text (manifest_options limits)).
    assert (¬ deserialize_exceeds d → ¬ (max_merged_manifest_bytes limits < str_len input ∨
      scan_exceeds input limits 0 (parser_events input limits) (0, ("", 0%nat)) ∨
      ∃ t, Some (Ok text) = Some (Ok (E:=RuntimeError) t) ∧
        deserialize_exceeds (deserialize_manifest t (manifest_options limits)))%N) as Hnot.
    { intros Hd [?|[?|(t & [= <-] & Ht)]]; [lia|done|done]. }
    destruct (map_err _ (de_answer d)) as [m|e] eqn:Hm.
    + apply Hnot. intros (err & Herr & _). by rewrite Herr in Hm.
    + apply deserialize_refuses in Hm as [[Hb Hex]|[Hb Hex]]; [left|right]; (split; [done|]); [|by apply Hnot].
      right. right. by exists text.
  - injection Hr as <-. cbn [mbind result_bind].
    apply scan_refuses in Hscan as [[Hb Hex]|[Hb Hex]]; [left|right]; (split; [done|]).
    + right. by left.
    + intros [?|[?|(t & [=] & _)]]; [lia|done].
Qed.
End refusals.

(** ** The header of a block scalar is found *)

Lemma strip_white_shorter s rest : strip_white s = Some rest → (String.length rest < String.length s)%nat.
Proof.
  unfold strip_white. intros Hh.
  assert (rest ∈ omap (λ w, strip_prefix w s) white_space) as Hin.
  { destruct (omap _ _); [done|]. injection Hh as ->. by left. }
  apply list_elem_of_omap in Hin as (w & Hw & ->%strip_prefix_Some).
  rewrite str_length_app. assert (w ≠ "") as Hne.
  { intros ->. revert Hw. clear. apply (bool_decide_unpack (¬ _)). vm_compute. exact I. }
  destruct w; [done|cbn; lia].
Qed.

(** Each turn of the search moves past at least one byte of the input, so
    more fuel than bytes gives the same answer. *)
Lemma block_header_fuel input span stop fuel fuel' cursor :
  (String.length input - cursor < fuel)%nat → (String.length input - cursor < fuel')%nat →
  block_header input fuel span cursor stop = block_header input fuel' span cursor stop.
Proof.
  revert fuel' cursor. induction fuel as [|fuel IH]; intros [|fuel'] cursor Hf Hf'; try lia.
  cbn [block_header]. destruct (str_get cursor stop input) as [remaining|] eqn:Hr; [|done].
  cbn [ok_or mbind result_bind]. destruct remaining as [|c rest]; [done|].
  apply str_get_Some in Hr as (Hle & _ & _ & p & q & Heq & Hp & Hlen).
  assert (0 < String.length (String c rest))%nat as Hpos by (cbn; lia).
  destruct (_ || _) eqn:Hind; [done|]. destruct (bool_decide (c = byte_of 35)) eqn:Hc.
  { apply bool_decide_eq_true in Hc as ->. apply IH; cbn [find_char];
      (rewrite decide_False by done; destruct (find_char newline rest); cbn; lia). }
  destruct (bool_decide (c = byte_of 38)) eqn:Ha.
  { apply bool_decide_eq_true in Ha as ->. cbn [find_white].
    rewrite strip_white_None by done. destruct (find_white rest); cbn; [apply IH; lia|done]. }
  destruct (strip_white (String c rest)) as [tail|] eqn:Hw; [|done].
  apply strip_white_shorter in Hw. apply IH; lia.
Qed.

(** ** The loader's YAML parser *)

Section formats.
Context `{AgentHooksLaws} `{GranitLaws} `{SerdeScalar} `{Saphyr}.

(** The answer of [yaml_str_with_limits], which always gives one. *)
Definition yaml_answer (input : string) (limits : Limits) : result RuntimeError Manifest :=
  match yaml_str_with_limits input limits as o return is_Some o → result RuntimeError Manifest with
  | Some r => λ _, r
  | None => λ Hnone, False_rect _ (is_Some_None Hnone)
  end (yaml_returns input limits).

(** With the other formats of the loader, the formats it loads manifests
    by. *)
Definition yaml_formats (json : string → result string Manifest) (to_vec : Manifest → result string N)
  : ManifestFormats :=
  {| manifest_from_json := json; parse_yaml_str_with_limits := yaml_answer; manifest_to_vec := to_vec |}.

Lemma yaml_answer_eq input limits : yaml_str_with_limits input limits = Some (yaml_answer input limits).
Proof.
  unfold yaml_answer. destruct (yaml_returns input limits) as [r Hr]. revert Hr.
  generalize (yaml_str_with_limits input limits). by intros ? ->.
Qed.

(** The loader's laws follow from those of the deserializers. *)
Lemma yaml_formats_laws json to_vec :
  (∀ text m, json text = Ok m → fresh m) →
  (∀ text options m, de_answer (deserialize_manifest text options) = Ok m → fresh m) →
  let _ := yaml_formats json to_vec in ManifestFormatsLaws.
Proof.
  intros Hjson Hyaml. split; [done|]. cbn. intros text limits m Hm.
  pose proof (yaml_answer_eq text limits) as Heq. rewrite Hm in Heq. revert Heq.
  unfold yaml_str_with_limits. destruct (_ <? _)%N; [done|].
  destruct (preserve_scalar_types text limits) as [[t|e]|]; cbn; [|done..].
  intros [= Hd]. apply map_err_Ok in Hd. by eapply Hyaml.
Qed.
End formats.

(** ** A sample *)

Module Demo.

Definition nl : string := String newline "".
Definition text : string :=
  "a: !!int " +:+ quoted "7" +:+ nl +:+ "b: 0777" +:+ nl +:+ "c: True" +:+ nl +:+ "d: !!str 1" +:+ nl +:+
  "e: !!int |-" +:+ nl +:+ "  5" +:+ nl +:+ "f: x" +:+ nl.
Definition rewritten : string :=
  "a:       7" +:+ nl +:+ "b: " +:+ quoted "0777" +:+ nl +:+ "c: true" +:+ nl +:+
  "d: !!str " +:+ quoted "1" +:+ nl +:+ "e:       5" +:+ nl +:+ nl +:+ "f: x" +:+ nl.

Definition core (name : string) : Tag :=
  mkTag "tag:yaml.org,2002:" name (Some name) (λ other, bool_decide (Some name = Some other)).

Definition at_ (start stop : nat) (tag : option nat) : YamlSpan := mkSpanAt 1 0 (Some (start, stop)) tag.

Definition events : list (result ScanError (YamlEvent * YamlSpan)) :=
  Ok <$> [(DocumentStart, at_ 0 0 None); (MappingStart None, at_ 0 0 None);
    (Scalar "a" Plain None, at_ 0 1 None); (Scalar "7" DoubleQuoted (Some (core "int")), at_ 9 12 (Some 3%nat));
    (Scalar "b" Plain None, at_ 13 14 None); (Scalar "0777" Plain None, at_ 16 20 None);
    (Scalar "c" Plain None, at_ 21 22 None); (Scalar "True" Plain None, at_ 24 28 None);
    (Scalar "d" Plain None, at_ 29 30 None); (Scalar "1" Plain (Some (core "str")), at_ 38 39 (Some 32%nat));
    (Scalar "e" Plain None, at_ 40 41 None); (Scalar "5" Literal (Some (core "int")), at_ 49 56 (Some 43%nat));
    (Scalar "f" Plain None, at_ 56 57 None); (Scalar "x" Plain None, at_ 59 60 None);
    (OtherEvent, at_ 61 61 None)].

(** A parser that knows one document, and calls anything else broken. *)
Definition demo_granit : GranitParser := {|
  granit_events input _ _ :=
    if decide (input = text) then events else [Err (mkScanError false "unknown document")] |}.
#[local] Existing Instance demo_granit.

Definition demo_scalar : SerdeScalar := {|
  f64_to_string x := Ok (fmt_fixed3 x);
  str_to_string s := Ok (quoted s) |}.
#[local] Existing Instance demo_scalar.

Lemma demo_rewrites : preserve_scalar_types text default_limits = Some (Ok rewritten).
Proof. vm_compute. reflexivity. Qed.

Definition event_check (e : result ScanError (YamlEvent * YamlSpan)) : bool :=
  match e with
  | Ok (event, span) =>
      match byte_range span with
      | Some (start, stop) =>
          bool_decide (is_Some (str_get start stop text)) &&
          match event with Scalar _ _ _ => (0 <? stop)%nat | _ => true end
      | None => true
      end
  | Err _ => true
  end.

Lemma core_wf name : tag_wf (core name).
Proof. done. Qed.

Lemma demo_checked e : e ∈ events → event_check e = true.
Proof. revert e. apply Forall_forall. vm_compute. repeat constructor. Qed.

Lemma demo_tags event span tag : Ok (event, span) ∈ events → event_tag event = Some tag → tag_wf tag.
Proof.
  intros He. apply list_elem_of_fmap in He as (p & [= <-] & Hp). revert Hp. clear.
  assert (∀ n, tag_wf (core n)) as Hc by apply core_wf.
  intros Hp Ht. repeat (apply elem_of_cons in Hp as [[= -> ->]|Hp]; [by simplify_eq/=; apply Hc|]).
  by apply elem_of_nil in Hp.
Qed.

Lemma demo_known input flow block event span :
  Ok (event, span) ∈ granit_events input flow block → input = text ∧ Ok (event, span) ∈ events.
Proof.
  cbn. case_decide; [done|]. intros He. apply list_elem_of_singleton in He. done.
Qed.

#[local] Instance demo_laws : GranitLaws.
Proof.
  split.
  - intros input flow block event span start stop [-> He]%demo_known Hr.
    apply demo_checked in He. cbn in He. rewrite Hr in He. apply andb_true_iff in He as [He _].
    by apply bool_decide_eq_true in He.
  - intros input flow block value style tag span start stop [-> He]%demo_known Hr _.
    apply demo_checked in He. cbn in He. rewrite Hr in He. apply andb_true_iff in He as [_ He].
    destruct stop; [done|lia].
  - intros input flow block event span tag [-> He]%demo_known. by eapply demo_tags.
Qed.

Definition empty_manifest : Manifest :=
  mkManifest "0.5.0-alpha.1" [] [] [] [] [] [] None [] ∅ ∅ CompositionDocument.

(** A deserializer that ran out of its budget of nodes. *)
Definition demo_saphyr : Saphyr := {|
  deserialize_manifest text _ :=
    mkDeserialized (if decide (text = rewritten) then Err (mkSaphyrError SaphyrOther None "alias")
                    else Ok empty_manifest)
      [SegMap "policies"; SegSeq 1; SegMap "type"] (Some (BreachNodes 100001)) |}.
#[local] Existing Instance demo_saphyr.

(** A plain [!!str] scalar over two lines is replaced by one line, so what
    the deserializer reports of the lines after it is one line short. *)
Definition folded : string := "a: !!str x" +:+ nl +:+ "  y" +:+ nl +:+ "b: z" +:+ nl.
Definition folded_granit : GranitParser := {|
  granit_events _ _ _ := Ok <$>
    [(DocumentStart, at_ 0 0 None); (MappingStart None, at_ 0 0 None); (Scalar "a" Plain None, at_ 0 1 None);
     (Scalar "x y" Plain (Some (core "str")), at_ 9 14 (Some 3%nat)); (Scalar "b" Plain None, at_ 15 16 None);
     (Scalar "z" Plain None, at_ 18 19 None); (OtherEvent, at_ 20 20 None)] |}.

Example lines_lost :
  @preserve_scalar_types folded_granit demo_scalar folded default_limits =
    Some (Ok ("a: !!str " +:+ quoted "x y" +:+ nl +:+ "b: z" +:+ nl)) ∧
  count_char newline folded = 3%nat.
Proof. vm_compute. split; reflexivity. Qed.
End Demo.

#[local] Existing Instances Demo.demo_granit Demo.demo_scalar Demo.demo_laws Demo.demo_saphyr.

Lemma rewriting_exact_witness :
  preserve_scalar_types Demo.text default_limits = Some (Ok Demo.rewritten) ∧
  ∃ news copied written, covers Demo.text (concat news) written copied ∧ Demo.rewritten = written +:+ str_drop copied Demo.text.
Proof.
  split; [vm_compute; reflexivity|].
  destruct (rewriting_exact Demo.text default_limits Demo.rewritten Demo.demo_rewrites) as (news & copied & written & _ & Hc & Ho & _).
  by exists news, copied, written.
Defined.

Lemma yaml_refusals_exact_witness :
  yaml_str_with_limits Demo.text default_limits =
    Some (Err (ResourceLimitExceeded
      "policies[1].type: manifest nodes 100001 exceeds max_manifest_nodes limit 100000")) ∧
  exceeds_budget Demo.text default_limits.
Proof.
  assert (yaml_str_with_limits Demo.text default_limits =
    Some (Err (ResourceLimitExceeded
      "policies[1].type: manifest nodes 100001 exceeds max_manifest_nodes limit 100000"))) as Hr
    by (vm_compute; reflexivity).
  split; [exact Hr|]. destruct (yaml_refusals_exact Demo.text default_limits) as (r & Heq & Hmatch).
  rewrite Hr in Heq. injection Heq as <-. destruct Hmatch as [[_ H]|[[] _]]. exact H.
Defined.

