(* ===== verification/Telemetry.v ===== *)
(** * Telemetry: [engine/src/telemetry.rs], [perf_telemetry.rs]

    The events the runtime emits and the level that gates some of them.
    A duration is the bit pattern of the double the source computes. *)

From S2P Require Import Prelude OrdMap RustStd Json AgentHooks.

Inductive TelemetryEventType : Type :=
  | EventDecision
  | EventAnnotatorDispatch
  | EventPolicyEvaluation
  | EventEvaluationTiming
  | EventInterventionPointTransformed
  | EventAnnotatorFailed
  | EventPolicyFailed.

#[export] Instance TelemetryEventType_eq_dec : EqDecision TelemetryEventType.
Proof. solve_decision. Defined.

Definition event_type_as_str (t : TelemetryEventType) : string :=
  match t with
  | EventDecision => "decision"
  | EventAnnotatorDispatch => "annotator_dispatch"
  | EventPolicyEvaluation => "policy_evaluation"
  | EventEvaluationTiming => "evaluation_timing"
  | EventInterventionPointTransformed => "intervention_point.transformed"
  | EventAnnotatorFailed => "annotator_failed"
  | EventPolicyFailed => "policy_failed"
  end.

Record TelemetryEvent := mkEvent {
  e_type : TelemetryEventType;
  e_point : InterceptionPoint;
  e_decision : option Decision;
  e_reason_code : option string;
  e_error_class : option string;
  e_policy_id : option string;
  e_annotators : list string;
  e_enforcement_mode : option EnforcementMode;
  e_duration_ms : option N;
  e_evidence_artefact : option string;
  e_evidence_keys : list string;
  e_action_identity : option string;
  e_metadata : btree string string }.

Definition event_new (t : TelemetryEventType) (p : InterceptionPoint) : TelemetryEvent :=
  mkEvent t p None None None None [] None None None [] None [].

(** The builder methods: [self] with one member set. *)
Definition with_decision (d : Decision) (e : TelemetryEvent) : TelemetryEvent :=
  mkEvent (e_type e) (e_point e) (Some d) (e_reason_code e) (e_error_class e) (e_policy_id e)
    (e_annotators e) (e_enforcement_mode e) (e_duration_ms e) (e_evidence_artefact e)
    (e_evidence_keys e) (e_action_identity e) (e_metadata e).
Definition with_optional_reason_code (r : option string) (e : TelemetryEvent) : TelemetryEvent :=
  mkEvent (e_type e) (e_point e) (e_decision e) r (e_error_class e) (e_policy_id e)
    (e_annotators e) (e_enforcement_mode e) (e_duration_ms e) (e_evidence_artefact e)
    (e_evidence_keys e) (e_action_identity e) (e_metadata e).
Definition with_reason_code (r : string) : TelemetryEvent → TelemetryEvent :=
  with_optional_reason_code (Some r).
Definition with_optional_error_class (c : option string) (e : TelemetryEvent) : TelemetryEvent :=
  mkEvent (e_type e) (e_point e) (e_decision e) (e_reason_code e) c (e_policy_id e)
    (e_annotators e) (e_enforcement_mode e) (e_duration_ms e) (e_evidence_artefact e)
    (e_evidence_keys e) (e_action_identity e) (e_metadata e).
Definition with_error_class (c : string) : TelemetryEvent → TelemetryEvent :=
  with_optional_error_class (Some c).
Definition with_optional_policy_id (p : option string) (e : TelemetryEvent) : TelemetryEvent :=
  mkEvent (e_type e) (e_point e) (e_decision e) (e_reason_code e) (e_error_class e) p
    (e_annotators e) (e_enforcement_mode e) (e_duration_ms e) (e_evidence_artefact e)
    (e_evidence_keys e) (e_action_identity e) (e_metadata e).
Definition with_policy_id (p : string) : TelemetryEvent → TelemetryEvent :=
  with_optional_policy_id (Some p).
Definition with_annotators (names : list string) (e : TelemetryEvent) : TelemetryEvent :=
  mkEvent (e_type e) (e_point e) (e_decision e) (e_reason_code e) (e_error_class e) (e_policy_id e)
    names (e_enforcement_mode e) (e_duration_ms e) (e_evidence_artefact e)
    (e_evidence_keys e) (e_action_identity e) (e_metadata e).
(** [with_annotator] pushes. *)
Definition with_annotator (name : string) (e : TelemetryEvent) : TelemetryEvent :=
  with_annotators (e_annotators e ++ [name]) e.
Definition with_enforcement_mode (m : EnforcementMode) (e : TelemetryEvent) : TelemetryEvent :=
  mkEvent (e_type e) (e_point e) (e_decision e) (e_reason_code e) (e_error_class e) (e_policy_id e)
    (e_annotators e) (Some m) (e_duration_ms e) (e_evidence_artefact e)
    (e_evidence_keys e) (e_action_identity e) (e_metadata e).
Definition with_duration_ms (d : N) (e : TelemetryEvent) : TelemetryEvent :=
  mkEvent (e_type e) (e_point e) (e_decision e) (e_reason_code e) (e_error_class e) (e_policy_id e)
    (e_annotators e) (e_enforcement_mode e) (Some d) (e_evidence_artefact e)
    (e_evidence_keys e) (e_action_identity e) (e_metadata e).
Definition with_optional_action_identity (a : option string) (e : TelemetryEvent) : TelemetryEvent :=
  mkEvent (e_type e) (e_point e) (e_decision e) (e_reason_code e) (e_error_class e) (e_policy_id e)
    (e_annotators e) (e_enforcement_mode e) (e_duration_ms e) (e_evidence_artefact e)
    (e_evidence_keys e) a (e_metadata e).
Definition with_action_identity (a : string) : TelemetryEvent → TelemetryEvent :=
  with_optional_action_identity (Some a).
Definition with_evidence (a : option string) (keys : list string) (e : TelemetryEvent) : TelemetryEvent :=
  mkEvent (e_type e) (e_point e) (e_decision e) (e_reason_code e) (e_error_class e) (e_policy_id e)
    (e_annotators e) (e_enforcement_mode e) (e_duration_ms e) a keys
    (e_action_identity e) (e_metadata e).
Definition with_metadata (key value : string) (e : TelemetryEvent) : TelemetryEvent :=
  mkEvent (e_type e) (e_point e) (e_decision e) (e_reason_code e) (e_error_class e) (e_policy_id e)
    (e_annotators e) (e_enforcement_mode e) (e_duration_ms e) (e_evidence_artefact e)
    (e_evidence_keys e) (e_action_identity e) (bt_insert key value (e_metadata e)).

(** ** The performance level *)

Inductive PerfTelemetry : Type := PerfOff | PerfExternal | PerfFull.

Definition emit_external_events (p : PerfTelemetry) : bool :=
  match p with PerfOff => false | _ => true end.
Definition emit_stage_events (p : PerfTelemetry) : bool :=
  match p with PerfFull => true | _ => false end.
Definition perf_as_u8 (p : PerfTelemetry) : N :=
  match p with PerfOff => 0 | PerfExternal => 1 | PerfFull => 2 end.
Definition perf_from_u8 (value : N) : option PerfTelemetry :=
  if (value =? 0)%N then Some PerfOff
  else if (value =? 1)%N then Some PerfExternal
  else if (value =? 2)%N then Some PerfFull
  else None.

(** ** Reason codes: [runtime.rs] *)

Definition is_identifier_reason_code (reason : string) : bool :=
  negb (str_is_empty reason) && (str_len reason <=? 96)%N &&
  all_bytes (λ b, is_ascii_alphanumeric b || in_range 95 95 b || in_range 45 45 b ||
    in_range 46 46 b || in_range 58 58 b || in_range 47 47 b) reason.

Definition safe_telemetry_reason_code (reason : option string) : option string :=
  match reason with
  | None => None
  | Some reason =>
      if is_identifier_reason_code reason then Some reason else Some "policy_reason"
  end.

Definition telemetry_error_class (reason : option string) : option string :=
  match reason with
  | Some reason => if starts_with "runtime_error:" reason then Some "runtime_error" else None
  | None => None
  end.

Lemma perf_round_trip p : perf_from_u8 (perf_as_u8 p) = Some p.
Proof. by destruct p. Qed.
