(* ===== verification/Runtime.v ===== *)
(** * The runtime: [engine/src/runtime.rs]

    Evaluation calls the host: the annotator dispatcher, the policy
    dispatcher, the telemetry sink and the clock. The host is a state [W]
    the calls thread, and every call is recorded, with its outcome, in a
    trace; a panic of a dispatcher is an outcome, as [catch_unwind] makes
    it. *)

From S2P Require Import Prelude OrdMap RustStd Json Errors AgentHooks Constants Paths PolicyInput.
From S2P Require Import Limits Hex Pins Policy PolicyOutput Manifest Telemetry.

(** ** The host *)

(** [Returned] is a value of the dispatcher, [Panicked] the message of its
    panic, if the payload was a string. *)
Inductive CallOutcome : Type :=
  | Returned (r : result RuntimeError JsonValue)
  | Panicked (payload : option string).

Class Host (W : Type) := {
  annotator_dispatch : W → string → AnnotatorInvocation → JsonValue → W * CallOutcome;
  policy_evaluate : W → PreparedPolicyInvocation → W * CallOutcome;
  telemetry_emit : W → TelemetryEvent → W;
  (** [Instant::now] and [elapsed().as_secs_f64() * 1000.0]. *)
  instant_now : W → N;
  elapsed_ms : W → N → N;
}.

Inductive Action : Type :=
  | ActDispatch (name : string) (invocation : AnnotatorInvocation) (input : JsonValue)
      (outcome : CallOutcome)
  | ActPolicy (invocation : PreparedPolicyInvocation) (outcome : CallOutcome)
  | ActEmit (event : TelemetryEvent).

Record Run (W : Type) := mkRun { world : W; trace : list Action }.
Arguments mkRun {W} world trace.
Arguments world {W} r.
Arguments trace {W} r.

(** A step of the engine: it moves the run and returns or fails. *)
Definition eff (W E A : Type) : Type := Run W → Run W * result E A.

#[export] Instance eff_ret {W E} : MRet (eff W E) := λ A a s, (s, Ok a).
#[export] Instance eff_bind {W E} : MBind (eff W E) := λ A B f m s,
  match m s with (s, Ok a) => f a s | (s, Err e) => (s, Err e) end.

Definition lift {W E A} (r : result E A) : eff W E A := λ s, (s, r).
(** [map_err], and [inspect_err] with an effect on the error. *)
Definition map_error {W E F A} (f : E → F) (m : eff W E A) : eff W F A :=
  λ s, match m s with (s, Ok a) => (s, Ok a) | (s, Err e) => (s, Err (f e)) end.
Definition on_error {W E A} (h : E → eff W E ()) (m : eff W E A) : eff W E A :=
  λ s, match m s with
       | (s, Ok a) => (s, Ok a)
       | (s, Err e) => ((h e s).1, Err e)
       end.

(** ** The runtime *)

Record AnnotationDependencies := mkDependencies { dep_names : list string; dep_metadata : string }.

Record AnnotationPlan := mkPlan {
  plan_order : list string;
  plan_dependencies : btree string AnnotationDependencies }.

Record Runtime := mkRuntime {
  rt_manifest : Manifest;
  annotation_plans : btree InterceptionPoint AnnotationPlan;
  perf_telemetry : PerfTelemetry;
  rt_limits : Limits }.

Record EvaluationResult := mkResult {
  er_verdict : Verdict;
  er_policy_input : option JsonValue }.

Record EvaluationFailure := mkFailure {
  ef_error : RuntimeError;
  ef_policy_input : option JsonValue }.

Definition panic_detail (payload : option string) : string := default "unknown panic" payload.

Definition annotator_error_detail (annotator_name detail : string) : string :=
  if str_is_empty detail || bool_decide (detail = annotator_name) then annotator_name
  else if starts_with (annotator_name +:+ ":") detail then detail
  else annotator_name +:+ ": " +:+ detail.

Definition normalize_annotator_error (annotator_name : string) (error : RuntimeError) : RuntimeError :=
  match error with
  | AnnotationTimeout detail => AnnotationTimeout (annotator_error_detail annotator_name detail)
  | AnnotationFailed detail => AnnotationFailed (annotator_error_detail annotator_name detail)
  | other => AnnotationFailed (annotator_name +:+ ": " +:+ error_to_string other)
  end.

Section runtime.
Context `{AgentHooksLaws} `{UrlCrate} `{SerdeJson} `{Sha2}.

Definition plan_prepare (point : InterceptionPoint) (config : InterventionPointConfig) (m : Manifest)
  : result RuntimeError AnnotationPlan :=
  order ← annotation_dispatch_order point config m;
  dependencies ← fold_result (λ (deps : btree string AnnotationDependencies) (e : string * AnnotationConfig),
    let (name, annotation) := e in
    names ← annotation_dependencies m annotation;
    if bool_decide (names = []) then Ok deps
    else
      metadata ← map_err (λ error, ManifestInvalid
        ("cannot serialize dependencies for annotation '" +:+ name +:+ "': " +:+ error))
        (to_string (JArray (JString <$> names)));
      Ok (bt_insert name (mkDependencies names metadata) deps)) [] (point_annotations config);
  Ok (mkPlan order dependencies).

(** [with_telemetry_perf_and_limits], which every constructor calls. *)
Definition runtime_new (m : Manifest) (perf : PerfTelemetry) (limits : Limits)
  : result RuntimeError Runtime :=
  validate m ;;
  if negb (bool_decide (extends m = [])) then
    Err (ManifestInvalid "manifest 'extends' was not resolved; an enforcing runtime requires a fully composed manifest. Compose with Manifest::from_path, Manifest::from_yaml_chain, acs_builder_from_path, or acs_builder_from_yaml_chain; single-string loaders must be given an already-merged manifest")
  else
    plans ← map_result (λ e : InterceptionPoint * InterventionPointConfig,
      plan ← plan_prepare e.1 e.2 m; Ok (e.1, plan)) (intervention_points m);
    Ok (mkRuntime m (bt_of_list plans) perf limits).

(** The other constructors: the defaults are no telemetry level and the
    default limits. [new], [with_perf_telemetry] and [with_limits] leave the
    sink to [NoopTelemetrySink], which is [noop_sink] of a host. *)
Definition with_telemetry_and_perf (m : Manifest) (perf : PerfTelemetry) : result RuntimeError Runtime :=
  runtime_new m perf default_limits.
Definition with_telemetry (m : Manifest) : result RuntimeError Runtime := with_telemetry_and_perf m PerfOff.
Definition with_perf_telemetry (m : Manifest) (perf : PerfTelemetry) : result RuntimeError Runtime :=
  with_telemetry_and_perf m perf.
Definition runtime_with_limits (m : Manifest) (limits : Limits) : result RuntimeError Runtime :=
  runtime_new m PerfOff limits.
Definition new_runtime (m : Manifest) : result RuntimeError Runtime := with_telemetry_and_perf m PerfOff.

Definition noop_sink {W} (host : Host W) : Host W := {|
  annotator_dispatch := annotator_dispatch;
  policy_evaluate := policy_evaluate;
  telemetry_emit w _ := w;
  instant_now := instant_now;
  elapsed_ms := elapsed_ms |}.

Definition with_perf_telemetry_level (rt : Runtime) (perf : PerfTelemetry) : Runtime :=
  mkRuntime (rt_manifest rt) (annotation_plans rt) perf (rt_limits rt).

Definition policy_id_for (rt : Runtime) (point : InterceptionPoint) : option string :=
  config ← bt_get point (intervention_points (rt_manifest rt)); Some (binding_id (point_policy config)).

Definition annotators_for (rt : Runtime) (point : InterceptionPoint) : list string :=
  match bt_get point (intervention_points (rt_manifest rt)) with
  | Some config => bt_keys (point_annotations config)
  | None => []
  end.

Definition annotation_needs (rt : Runtime) (point : InterceptionPoint) (name : string) : option string :=
  plan ← bt_get point (annotation_plans rt);
  dependencies ← bt_get name (plan_dependencies plan);
  Some (dep_metadata dependencies).

Context `{Host W}.
Notation eff := (eff W).

(** ** Events *)

Definition emit_event {E} (event : TelemetryEvent) : eff E () := λ s,
  (mkRun (telemetry_emit (world s) event) (trace s ++ [ActEmit event]), Ok ()).

Definition now {E} : eff E N := λ s, (s, Ok (instant_now (world s))).
Definition elapsed {E} (start : N) : eff E N := λ s, (s, Ok (elapsed_ms (world s) start)).

(** The event common to the decision and the transformation. *)
Definition verdict_event (t : TelemetryEventType) (point : InterceptionPoint) (verdict : Verdict)
  (policy_id : option string) (names : list string) (duration : N) (identity : option string)
  : TelemetryEvent :=
  let '(evidence_artefact, evidence_keys) :=
    match v_evidence verdict with
    | Some evidence => (artefact evidence, bt_keys (verification_pointers evidence))
    | None => (None, [])
    end in
  let evidence_truncated := existsb
    (λ warning, bool_decide (w_reason warning = Some EVIDENCE_TRUNCATED_REASON)) (v_warnings verdict) in
  let event :=
    with_evidence evidence_artefact evidence_keys
      (with_optional_action_identity identity
        (with_duration_ms duration
          (with_annotators names
            (with_optional_policy_id policy_id
              (with_optional_error_class (telemetry_error_class (v_reason verdict))
                (with_optional_reason_code (safe_telemetry_reason_code (v_reason verdict))
                  (with_decision (v_decision verdict) (event_new t point)))))))) in
  if evidence_truncated then with_metadata EVIDENCE_TRUNCATED_REASON "true" event else event.

Definition emit_decision_event {E} (point : InterceptionPoint) (verdict : Verdict)
  (policy_id : option string) (names : list string) (duration : N) (identity : option string)
  : eff E () :=
  emit_event (verdict_event EventDecision point verdict policy_id names duration identity) ;;
  if bool_decide (v_decision verdict = Rewrite) then
    emit_event (verdict_event EventInterventionPointTransformed point verdict policy_id names
      duration identity)
  else mret ().

Definition emit_annotator_failed {E} (rt : Runtime) (point : InterceptionPoint) (name : string)
  (error : RuntimeError) : eff E () :=
  let event :=
    with_optional_error_class (telemetry_error_class (Some (reason error)))
      (with_reason_code (reason error)
        (with_annotator name (event_new EventAnnotatorFailed point))) in
  emit_event (match annotation_needs rt point name with
              | Some needs => with_metadata annotation_NEEDS needs event
              | None => event
              end).

Definition emit_policy_failed {E} (point : InterceptionPoint) (policy_id : string)
  (config : PolicyConfig) (error : RuntimeError) : eff E () :=
  emit_event (with_metadata "policy_type" (policy_engine_type config)
    (with_optional_error_class (telemetry_error_class (Some (reason error)))
      (with_reason_code (reason error)
        (with_policy_id policy_id (event_new EventPolicyFailed point))))).

Definition emit_annotator_external_event {E} (rt : Runtime) (point : InterceptionPoint)
  (name : string) (reason_code : option string) (duration : N) : eff E () :=
  if negb (emit_external_events (perf_telemetry rt)) then mret ()
  else
    let event :=
      with_duration_ms duration
        (with_optional_error_class (telemetry_error_class reason_code)
          (with_optional_reason_code (safe_telemetry_reason_code reason_code)
            (with_annotator name (event_new EventAnnotatorDispatch point)))) in
    emit_event (match annotation_needs rt point name with
                | Some needs => with_metadata annotation_NEEDS needs event
                | None => event
                end).

Definition emit_policy_external_event {E} (rt : Runtime) (point : InterceptionPoint)
  (policy_id : string) (config : PolicyConfig) (reason_code : option string) (duration : N)
  : eff E () :=
  if negb (emit_external_events (perf_telemetry rt)) then mret ()
  else
    emit_event (with_metadata "policy_type" (policy_engine_type config)
      (with_duration_ms duration
        (with_optional_error_class (telemetry_error_class reason_code)
          (with_optional_reason_code (safe_telemetry_reason_code reason_code)
            (with_policy_id policy_id (event_new EventPolicyEvaluation point)))))).

(** ** Calls *)

Definition call_annotator (name : string) (invocation : AnnotatorInvocation) (input : JsonValue)
  : eff RuntimeError JsonValue := λ s,
  let (w, outcome) := annotator_dispatch (world s) name invocation input in
  let s := mkRun w (trace s ++ [ActDispatch name invocation input outcome]) in
  match outcome with
  | Returned r => (s, r)
  | Panicked payload =>
      (s, Err (AnnotationFailed ("annotator dispatcher panicked: " +:+ panic_detail payload)))
  end.

Definition call_policy (invocation : PreparedPolicyInvocation) : eff RuntimeError JsonValue := λ s,
  let (w, outcome) := policy_evaluate (world s) invocation in
  let s := mkRun w (trace s ++ [ActPolicy invocation outcome]) in
  match outcome with
  | Returned (Ok output) => (s, Ok output)
  | Returned (Err err) => (s, Err (PolicyInvocationFailed (error_to_string err)))
  | Panicked payload =>
      (s, Err (PolicyInvocationFailed ("policy dispatcher panicked: " +:+ panic_detail payload)))
  end.

(** ** Annotations *)

(** [inspect_err] with the failure event of the annotator. *)
Definition failing {A} (rt : Runtime) (point : InterceptionPoint) (name : string)
  (r : result RuntimeError A) : eff RuntimeError A :=
  on_error (emit_annotator_failed rt point name) (lift r).

(** The input of one dispatch: the preliminary policy input, or the staged
    copy with the results of the declared dependencies; with the staged
    copy as it is left. *)
Definition stage_input (rt : Runtime) (point : InterceptionPoint) (plan : AnnotationPlan)
  (name : string) (preliminary : JsonValue) (outputs : JsonMap) (staged : option JsonValue)
  : eff RuntimeError (JsonValue * option JsonValue) :=
  match bt_get name (plan_dependencies plan) with
  | None => mret (preliminary, staged)
  | Some dependencies =>
      visible ← failing rt point name (fold_result (λ (visible : JsonMap) need,
        output ← ok_or (bt_get need outputs)
          (ManifestInvalid ("annotator '" +:+ name +:+ "' needs '" +:+ need +:+ "', which has not run"));
        Ok (bt_insert need output visible)) [] (dep_names dependencies));
      object ← failing rt point name (ok_or (as_object (default preliminary staged))
        (ManifestInvalid "preliminary policy input is not an object"));
      failing rt point name (validate_policy_annotations (rt_limits rt) (JObject visible)) ;;
      let staged := JObject (bt_insert pi_ANNOTATIONS (JObject visible) object) in
      mret (staged, Some staged)
  end.

(** The [from] path must resolve in the dispatch input. *)
Definition check_input_from (rt : Runtime) (point : InterceptionPoint) (name : string)
  (invocation : AnnotatorInvocation) (dispatch_input : JsonValue) : eff RuntimeError () :=
  match input_from invocation with
  | None => mret ()
  | Some path_text =>
      path ← failing rt point name (map_err (λ err, ManifestInvalid
          ("invalid from path for annotator '" +:+ name +:+ "': " +:+ path_error_to_string err))
        (parse_with_snapshot_alias path_text));
      snapshot ← lift (ok_or (json_get pi_SNAPSHOT dispatch_input)
        (ManifestInvalid "preliminary policy input missing snapshot"));
      failing rt point name (resolve path (with_pi_and_snap dispatch_input snapshot)) ;;
      mret ()
  end.

(** The dispatch, its events, and the check of its output. *)
Definition dispatch_annotator (rt : Runtime) (point : InterceptionPoint) (name : string)
  (invocation : AnnotatorInvocation) (dispatch_input : JsonValue) : eff RuntimeError JsonValue :=
  start ← now;
  output ← on_error (λ error,
      duration ← elapsed start;
      emit_annotator_external_event rt point name (Some (reason error)) duration ;;
      emit_annotator_failed rt point name error)
    (map_error (normalize_annotator_error name) (call_annotator name invocation dispatch_input));
  failing rt point name (validate_annotator_output (rt_limits rt) name output) ;;
  duration ← elapsed start;
  emit_annotator_external_event rt point name None duration ;;
  mret output.

(** The body of the loop over the plan. *)
Definition annotate_step (rt : Runtime) (point : InterceptionPoint)
  (config : InterventionPointConfig) (plan : AnnotationPlan) (preliminary : JsonValue)
  (name : string) (state : JsonMap * option JsonValue)
  : eff RuntimeError (JsonMap * option JsonValue) :=
  let '(outputs, staged) := state in
  annotation ← failing rt point name
    (ok_or (bt_get name (point_annotations config)) (ManifestInvalid name));
  annotator ← failing rt point name
    (ok_or (bt_get name (annotators (rt_manifest rt))) (ManifestInvalid name));
  let invocation := from_annotation_in (rt_manifest rt) annotator annotation in
  staging ← stage_input rt point plan name preliminary outputs staged;
  let '(dispatch_input, staged) := staging in
  check_input_from rt point name invocation dispatch_input ;;
  output ← dispatch_annotator rt point name invocation dispatch_input;
  mret (bt_insert name output outputs, staged).

Fixpoint annotate_all (rt : Runtime) (point : InterceptionPoint)
  (config : InterventionPointConfig) (plan : AnnotationPlan) (preliminary : JsonValue)
  (names : list string) (state : JsonMap * option JsonValue)
  : eff RuntimeError (JsonMap * option JsonValue) :=
  match names with
  | [] => mret state
  | name :: names =>
      state ← annotate_step rt point config plan preliminary name state;
      annotate_all rt point config plan preliminary names state
  end.

Definition collect_annotations (rt : Runtime) (point : InterceptionPoint)
  (config : InterventionPointConfig) (preliminary : JsonValue) : eff RuntimeError JsonValue :=
  let count := N.of_nat (length (point_annotations config)) in
  if (max_annotators_per_point (rt_limits rt) <? count)%N then
    lift (Err (ResourceLimitExceeded ("intervention point " +:+ point_as_str point +:+ " invokes " +:+
      fmt_N count +:+ " annotators, limit " +:+ fmt_N (max_annotators_per_point (rt_limits rt)))))
  else
    plan ← lift (ok_or (bt_get point (annotation_plans rt))
      (ManifestInvalid ("missing annotation plan for " +:+ point_as_str point)));
    state ← annotate_all rt point config plan preliminary (plan_order plan) ([], None);
    mret (JObject state.1).

(** ** Evaluation *)

(** [From<RuntimeError> for EvaluationFailure], and the failures that
    carry the policy input. *)
Definition bare_failure (error : RuntimeError) : EvaluationFailure := mkFailure error None.
Definition failure_with (policy_input : JsonValue) (error : RuntimeError) : EvaluationFailure :=
  mkFailure error (Some policy_input).

(** [map_err] with the policy's failure event. *)
Definition policy_failing {A} (point : InterceptionPoint) (policy_id : string)
  (config : PolicyConfig) (policy_input : JsonValue) (r : result RuntimeError A)
  : eff EvaluationFailure A :=
  map_error (failure_with policy_input)
    (on_error (emit_policy_failed point policy_id config) (lift r)).

(** From the annotations to the verdict. *)
Definition decide_policy (rt : Runtime) (point : InterceptionPoint) (binding : PolicyBinding)
  (final : JsonValue) : eff EvaluationFailure Verdict :=
  let policy_id := binding_id binding in
  lift (map_err bare_failure (validate_policy_input (rt_limits rt) final)) ;;
  config ← lift (map_err bare_failure (ok_or (bt_get policy_id (policies (rt_manifest rt)))
    (ManifestInvalid ("intervention point " +:+ point_as_str point +:+
      " references unknown policy '" +:+ policy_id +:+ "'"))));
  invocation ← policy_failing point policy_id config final
    (prepare_policy_invocation config binding final);
  start ← now;
  output ← map_error (failure_with final) (on_error (λ error,
      duration ← elapsed start;
      emit_policy_external_event rt point policy_id config (Some (reason error)) duration ;;
      emit_policy_failed point policy_id config error)
    (call_policy invocation));
  duration ← elapsed start;
  emit_policy_external_event rt point policy_id config None duration ;;
  policy_failing point policy_id config final (validate_policy_output (rt_limits rt) output) ;;
  policy_failing point policy_id config final (normalize_policy_output output).

(** The documents before any call to the host: the point's configuration,
    the policy target and the projected tool. *)
Definition prepare_input (rt : Runtime) (point : InterceptionPoint) (snapshot : JsonValue)
  : result RuntimeError (InterventionPointConfig * JsonValue * JsonValue) :=
  config ← ok_or (bt_get point (intervention_points (rt_manifest rt)))
    (InterventionPointUnknown (point_as_str point));
  validate_snapshot (rt_limits rt) snapshot ;;
  target_path ← map_err (λ err, ManifestInvalid
      ("invalid policy_target for intervention point " +:+ point_as_str point +:+ ": " +:+
       path_error_to_string err)) (parse_with_snapshot_alias (policy_target config));
  target ← resolve target_path (with_snap snapshot);
  tool ← project_tool (rt_manifest rt) point config snapshot;
  Ok (config, target, tool).

Definition policy_input_of (point : InterceptionPoint) (config : InterventionPointConfig)
  (target snapshot annotations tool : JsonValue) : JsonValue :=
  build_policy_input point (policy_target config) (policy_target_kind config) target snapshot
    annotations tool.

Definition evaluate_inner (rt : Runtime) (point : InterceptionPoint) (snapshot : JsonValue)
  : eff EvaluationFailure EvaluationResult :=
  prepared ← lift (map_err bare_failure (prepare_input rt point snapshot));
  let '(config, target, tool) := prepared in
  let preliminary := policy_input_of point config target snapshot (JObject []) tool in
  lift (map_err bare_failure (validate_policy_input (rt_limits rt) preliminary)) ;;
  annotations ← map_error (failure_with preliminary)
    (collect_annotations rt point config preliminary);
  let final := policy_input_of point config target snapshot annotations tool in
  verdict ← decide_policy rt point (point_policy config) final;
  mret (mkResult verdict (Some final)).

Definition timing_event (point : InterceptionPoint) (verdict : Verdict) (policy_id : option string)
  (duration : N) : TelemetryEvent :=
  with_optional_action_identity None
    (with_duration_ms duration
      (with_optional_error_class (telemetry_error_class (v_reason verdict))
        (with_optional_policy_id policy_id
          (with_optional_reason_code (safe_telemetry_reason_code (v_reason verdict))
            (with_decision (v_decision verdict) (event_new EventEvaluationTiming point)))))).

(** [Runtime::evaluate_point]: total, whatever the host does. *)
Definition evaluate_point (rt : Runtime) (point : InterceptionPoint) (snapshot : JsonValue)
  (s : Run W) : Run W * EvaluationResult :=
  let start := instant_now (world s) in
  let policy_id := policy_id_for rt point in
  let names := annotators_for rt point in
  let (s, outcome) := evaluate_inner rt point snapshot s in
  let result :=
    match outcome with
    | Ok result => result
    | Err failure => mkResult (runtime_error_verdict (ef_error failure)) (ef_policy_input failure)
    end in
  let duration := elapsed_ms (world s) start in
  let emit_all : eff () () :=
    emit_decision_event point (er_verdict result) policy_id names duration None ;;
    if emit_stage_events (perf_telemetry rt)
    then emit_event (timing_event point (er_verdict result) policy_id duration) else mret () in
  ((emit_all s).1, result).

(** [Runtime::evaluate]. *)
Definition evaluate (rt : Runtime) (snapshot : JsonValue) (s : Run W) : Run W * EvaluationResult :=
  match mbind (M := option) point_from_str (mbind (M := option) as_str
          (json_get "interception_point" snapshot)) with
  | Some point => evaluate_point rt point snapshot s
  | None => (s, mkResult (runtime_error_verdict
      (InterventionPointUnknown "context carries no valid interception_point")) None)
  end.
End runtime.
