(* ===== verification/RuntimeWorld.v ===== *)
(** * What an evaluation does to its host

    An evaluation touches the world only through the host's operations: a
    relation they keep, it keeps. *)

From S2P Require Import Prelude OrdMap RustStd Json Errors AgentHooks Constants Paths PolicyInput.
From S2P Require Import Limits Hex Pins Policy PolicyOutput Manifest Telemetry Runtime.

Section world.
Context `{AgentHooksLaws} `{UrlCrate} `{SerdeJson} `{Sha2} `{Host W}.
Context (R : W → W → Prop) `{!PreOrder R}.
Notation eff := (eff W).

(** The host's operations keep the relation. *)
Class HostKeeps : Prop := {
  keeps_annotator w name invocation input : R w (annotator_dispatch w name invocation input).1;
  keeps_policy w invocation : R w (policy_evaluate w invocation).1;
  keeps_telemetry w event : R w (telemetry_emit w event) }.
Context `{!HostKeeps}.

Definition stays {E A} (m : eff E A) : Prop := ∀ s, R (world s) (world (m s).1).

Lemma stays_lift {E A} (r : result E A) : stays (lift r : eff E A).
Proof. intros s. cbn. reflexivity. Qed.

Lemma stays_ret {E A} (a : A) : stays (mret a : eff E A).
Proof. intros s. cbn. reflexivity. Qed.

Lemma stays_bind {E A B} (m : eff E A) (f : A → eff E B) : stays m → (∀ a, stays (f a)) → stays (m ≫= f).
Proof.
  intros Hm Hf s. specialize (Hm s). unfold mbind, eff_bind. destruct (m s) as [s1 [a|e]]; cbn in *; [|done].
  etrans; [exact Hm|apply Hf].
Qed.

Lemma stays_map_error {E F A} (g : E → F) (m : eff E A) : stays m → stays (map_error g m).
Proof. intros Hm s. specialize (Hm s). unfold map_error. by destruct (m s) as [s1 [a|e]]. Qed.

Lemma stays_on_error {E A} (h : E → eff E ()) (m : eff E A) :
  stays m → (∀ e, stays (h e)) → stays (on_error h m).
Proof.
  intros Hm Hh s. specialize (Hm s). unfold on_error. destruct (m s) as [s1 [a|e]]; cbn in *; [done|].
  etrans; [exact Hm|apply Hh].
Qed.

Lemma stays_emit {E} event : stays (emit_event event : eff E ()).
Proof. intros s. cbn. apply keeps_telemetry. Qed.

Lemma stays_now {E} : stays (now : eff E N).
Proof. intros s. cbn. reflexivity. Qed.

Lemma stays_elapsed {E} start : stays (elapsed start : eff E N).
Proof. intros s. cbn. reflexivity. Qed.

Lemma stays_call_annotator name invocation input : stays (call_annotator name invocation input).
Proof.
  intros s. unfold call_annotator. pose proof (keeps_annotator (world s) name invocation input) as Hk.
  destruct (annotator_dispatch _ _ _ _) as [w []]; exact Hk.
Qed.

Lemma stays_call_policy invocation : stays (call_policy invocation).
Proof.
  intros s. unfold call_policy. pose proof (keeps_policy (world s) invocation) as Hk.
  destruct (policy_evaluate _ _) as [w [[]|]]; exact Hk.
Qed.

Ltac solve_stays :=
  repeat first
    [ solve [auto] | apply stays_lift | apply stays_ret | apply stays_emit | apply stays_now
    | apply stays_elapsed | apply stays_call_annotator | apply stays_call_policy
    | apply stays_bind; [|intros] | apply stays_map_error | apply stays_on_error; [|intros]
    | match goal with
      | |- stays (match ?x with _ => _ end) => destruct x
      | |- stays (if ?b then _ else _) => destruct b
      end ].

Lemma stays_decision {E} point verdict policy_id names duration identity :
  stays (emit_decision_event point verdict policy_id names duration identity : eff E ()).
Proof. unfold emit_decision_event. solve_stays. Qed.

Lemma stays_failed {E} rt point name error : stays (emit_annotator_failed rt point name error : eff E ()).
Proof. unfold emit_annotator_failed. solve_stays. Qed.

Lemma stays_policy_failed {E} point id config error : stays (emit_policy_failed point id config error : eff E ()).
Proof. unfold emit_policy_failed. solve_stays. Qed.

Lemma stays_annotator_external {E} rt point name code duration :
  stays (emit_annotator_external_event rt point name code duration : eff E ()).
Proof. unfold emit_annotator_external_event. cbn zeta. solve_stays. Qed.

Lemma stays_policy_external {E} rt point id config code duration :
  stays (emit_policy_external_event rt point id config code duration : eff E ()).
Proof. unfold emit_policy_external_event. solve_stays. Qed.

Lemma stays_failing {A} rt point name (r : result RuntimeError A) : stays (failing rt point name r).
Proof. unfold failing. apply stays_on_error; [apply stays_lift|]. intros. apply stays_failed. Qed.

Lemma stays_policy_failing {A} point id config input (r : result RuntimeError A) :
  stays (policy_failing point id config input r).
Proof.
  unfold policy_failing. apply stays_map_error, stays_on_error; [apply stays_lift|].
  intros. apply stays_policy_failed.
Qed.

#[local] Hint Resolve stays_failed stays_policy_failed stays_annotator_external stays_policy_external
  stays_failing stays_policy_failing stays_decision : core.

Lemma stays_annotate_step rt point config plan preliminary name state :
  stays (annotate_step rt point config plan preliminary name state).
Proof.
  unfold annotate_step, stage_input, check_input_from, dispatch_annotator. destruct state as [outputs staged].
  cbn zeta. solve_stays.
Qed.

Lemma stays_annotate_all rt point config plan preliminary names state :
  stays (annotate_all rt point config plan preliminary names state).
Proof.
  revert state. induction names as [|name names IH]; intros state; cbn [annotate_all]; [apply stays_ret|].
  apply stays_bind; [apply stays_annotate_step|]. intros. apply IH.
Qed.
#[local] Hint Resolve stays_annotate_all : core.

Lemma stays_evaluate_inner rt point snapshot : stays (evaluate_inner rt point snapshot).
Proof. unfold evaluate_inner, collect_annotations, decide_policy. cbn zeta. solve_stays. Qed.

(** The two evaluations keep the relation, whatever they answer. *)
Lemma evaluate_point_keeps rt point snapshot s :
  R (world s) (world (evaluate_point rt point snapshot s).1).
Proof.
  unfold evaluate_point. pose proof (stays_evaluate_inner rt point snapshot s) as Hinner.
  destruct (evaluate_inner rt point snapshot s) as [s1 outcome]. cbn [fst] in Hinner |- *.
  etrans; [exact Hinner|].
  match goal with |- R _ (world (?m s1).1) => assert (stays m) as Hm end; [|apply Hm].
  apply stays_bind; [apply stays_decision|]. intros _. solve_stays.
Qed.

Lemma evaluate_keeps rt snapshot s : R (world s) (world (evaluate rt snapshot s).1).
Proof. unfold evaluate. case_match; [apply evaluate_point_keeps|reflexivity]. Qed.
End world.

(** ** Two hosts, one evaluation

    An evaluation sees its host only through the host's operations: hosts
    whose operations answer alike on related worlds are answered alike, and
    are left in related worlds. The two worlds may be of different types,
    and the operations need to agree only on the invocations the runtime's
    own manifest gives rise to. *)

(** The invocations a runtime can hand to its dispatchers at a point. *)
Definition annotator_invocations (m : Manifest) (point : InterceptionPoint)
  (invocation : AnnotatorInvocation) : Prop :=
  ∃ config name annotation annotator,
    bt_get point (intervention_points m) = Some config ∧
    bt_get name (point_annotations config) = Some annotation ∧
    bt_get name (annotators m) = Some annotator ∧
    invocation = from_annotation_in m annotator annotation.

Definition policy_invocations `{UrlCrate} `{SerdeJson} (m : Manifest) (point : InterceptionPoint)
  (invocation : PreparedPolicyInvocation) : Prop :=
  ∃ config policy input,
    bt_get point (intervention_points m) = Some config ∧
    bt_get (binding_id (point_policy config)) (policies m) = Some policy ∧
    prepare_policy_invocation policy (point_policy config) input = Ok invocation.

Section simulation.
Context `{AgentHooksLaws} `{UrlCrate} `{SerdeJson} `{Sha2}.
Context {W1 W2 : Type} (h1 : Host W1) (h2 : Host W2) (R : W1 → W2 → Prop).
Context (asked : AnnotatorInvocation → Prop) (decided : PreparedPolicyInvocation → Prop).

(** The operations answer alike on related worlds. *)
Class HostSim : Prop := {
  sim_annotator w1 w2 name invocation input :
    R w1 w2 → asked invocation →
    R (@annotator_dispatch W1 h1 w1 name invocation input).1 (@annotator_dispatch W2 h2 w2 name invocation input).1 ∧
    (@annotator_dispatch W1 h1 w1 name invocation input).2 = (@annotator_dispatch W2 h2 w2 name invocation input).2;
  sim_policy w1 w2 invocation :
    R w1 w2 → decided invocation →
    R (@policy_evaluate W1 h1 w1 invocation).1 (@policy_evaluate W2 h2 w2 invocation).1 ∧
    (@policy_evaluate W1 h1 w1 invocation).2 = (@policy_evaluate W2 h2 w2 invocation).2;
  sim_telemetry w1 w2 event :
    R w1 w2 → R (@telemetry_emit W1 h1 w1 event) (@telemetry_emit W2 h2 w2 event);
  sim_now w1 w2 : R w1 w2 → @instant_now W1 h1 w1 = @instant_now W2 h2 w2;
  sim_elapsed w1 w2 start : R w1 w2 → @elapsed_ms W1 h1 w1 start = @elapsed_ms W2 h2 w2 start }.
Context `{!HostSim}.

(** Runs that recorded the same actions in related worlds. *)
Definition run_rel (s1 : Run W1) (s2 : Run W2) : Prop :=
  R (world s1) (world s2) ∧ trace s1 = trace s2.

Definition matched {E A} (m1 : eff W1 E A) (m2 : eff W2 E A) : Prop :=
  ∀ s1 s2, run_rel s1 s2 → run_rel (m1 s1).1 (m2 s2).1 ∧ (m1 s1).2 = (m2 s2).2.

Lemma matched_lift {E A} (r : result E A) : matched (lift r) (lift r).
Proof. by intros s1 s2. Qed.

Lemma matched_ret {E A} (a : A) : matched (E := E) (mret a) (mret a).
Proof. by intros s1 s2. Qed.

(** The continuations need to match only on the answers that can come. *)
Lemma matched_bind_if {E A B} (Q : A → Prop) (m1 : eff W1 E A) (m2 : eff W2 E A) (f1 : A → eff W1 E B) (f2 : A → eff W2 E B) :
  matched m1 m2 → (∀ s a, (m1 s).2 = Ok a → Q a) → (∀ a, Q a → matched (f1 a) (f2 a)) →
  matched (m1 ≫= f1) (m2 ≫= f2).
Proof.
  intros Hm HQ Hf s1 s2 Hs. pose proof (Hm s1 s2 Hs) as [Hrun Heq]. pose proof (HQ s1) as HQ1. unfold mbind, eff_bind.
  destruct (m1 s1) as [s1' [a|e]], (m2 s2) as [s2' r2]; cbn in *; subst r2; [|done].
  apply Hf; auto.
Qed.

Lemma matched_bind {E A B} (m1 : eff W1 E A) (m2 : eff W2 E A) (f1 : A → eff W1 E B) (f2 : A → eff W2 E B) :
  matched m1 m2 → (∀ a, matched (f1 a) (f2 a)) → matched (m1 ≫= f1) (m2 ≫= f2).
Proof. intros Hm Hf. by apply (matched_bind_if (λ _, True)). Qed.

Lemma matched_map_error {E F A} (g : E → F) (m1 : eff W1 E A) (m2 : eff W2 E A) :
  matched m1 m2 → matched (map_error g m1) (map_error g m2).
Proof.
  intros Hm s1 s2 Hs. pose proof (Hm s1 s2 Hs) as [Hrun Heq]. unfold map_error.
  destruct (m1 s1) as [s1' [a|e]], (m2 s2) as [s2' r2]; cbn in *; by subst r2.
Qed.

Lemma matched_on_error {E A} (g1 : E → eff W1 E ()) (g2 : E → eff W2 E ()) (m1 : eff W1 E A) (m2 : eff W2 E A) :
  matched m1 m2 → (∀ e, matched (g1 e) (g2 e)) → matched (on_error g1 m1) (on_error g2 m2).
Proof.
  intros Hm Hg s1 s2 Hs. pose proof (Hm s1 s2 Hs) as [Hrun Heq]. unfold on_error.
  destruct (m1 s1) as [s1' [a|e]], (m2 s2) as [s2' r2]; cbn in *; subst r2; [done|].
  split; [|done]. apply (Hg e s1' s2' Hrun).
Qed.

Lemma matched_emit {E} event : matched (E := E) (emit_event event) (emit_event event).
Proof. intros s1 s2 [Hw Ht]. split; [|done]. split; cbn; [by apply sim_telemetry|by rewrite Ht]. Qed.

Lemma matched_now {E} : matched (E := E) now now.
Proof. intros s1 s2 [Hw Ht]. split; [done|]. cbn. by rewrite (sim_now _ _ Hw). Qed.

Lemma matched_elapsed {E} start : matched (E := E) (elapsed start) (elapsed start).
Proof. intros s1 s2 [Hw Ht]. split; [done|]. cbn. by rewrite (sim_elapsed _ _ start Hw). Qed.

Lemma matched_call_annotator name invocation input :
  asked invocation → matched (call_annotator name invocation input) (call_annotator name invocation input).
Proof.
  intros Hasked s1 s2 [Hw Ht]. unfold call_annotator.
  destruct (sim_annotator _ _ name invocation input Hw Hasked) as [Hnext Hout].
  destruct (@annotator_dispatch W1 _ _ _ _ _) as [w1 out1], (@annotator_dispatch W2 _ _ _ _ _) as [w2 out2].
  cbn in Hnext, Hout. subst out2. destruct out1; split; try done; split; cbn; (done || by rewrite Ht).
Qed.

Lemma matched_call_policy invocation :
  decided invocation → matched (call_policy invocation) (call_policy invocation).
Proof.
  intros Hdecided s1 s2 [Hw Ht]. unfold call_policy.
  destruct (sim_policy _ _ invocation Hw Hdecided) as [Hnext Hout].
  destruct (@policy_evaluate W1 _ _ _) as [w1 out1], (@policy_evaluate W2 _ _ _) as [w2 out2].
  cbn in Hnext, Hout. subst out2. destruct out1 as [[]|]; split; try done; split; cbn; (done || by rewrite Ht).
Qed.

#[local] Hint Resolve matched_lift matched_ret matched_emit matched_now matched_elapsed matched_call_annotator
  matched_call_policy : matched.

Ltac matched_step :=
  match goal with
  | |- matched (_ ≫= _) (_ ≫= _) => apply matched_bind; [|intros]
  | |- matched (map_error _ _) _ => apply matched_map_error
  | |- matched (on_error _ _) _ => apply matched_on_error; [|intros]
  | |- matched (match ?x with _ => _ end) _ => destruct x
  | |- matched (if ?b then _ else _) _ => destruct b
  end.
Ltac solve_matched := repeat first [solve [eauto with matched] | matched_step].

(** ** The engine's steps *)

Lemma matched_decision {E} point verdict policy_id names duration identity :
  matched (E := E) (emit_decision_event point verdict policy_id names duration identity)
    (emit_decision_event point verdict policy_id names duration identity).
Proof. unfold emit_decision_event. solve_matched. Qed.

Lemma matched_failed {E} rt point name error :
  matched (E := E) (emit_annotator_failed rt point name error) (emit_annotator_failed rt point name error).
Proof. unfold emit_annotator_failed. solve_matched. Qed.

Lemma matched_policy_failed {E} point id config error :
  matched (E := E) (emit_policy_failed point id config error) (emit_policy_failed point id config error).
Proof. unfold emit_policy_failed. solve_matched. Qed.

Lemma matched_annotator_external {E} rt point name code duration :
  matched (E := E) (emit_annotator_external_event rt point name code duration)
    (emit_annotator_external_event rt point name code duration).
Proof. unfold emit_annotator_external_event. cbn zeta. solve_matched. Qed.

Lemma matched_policy_external {E} rt point id config code duration :
  matched (E := E) (emit_policy_external_event rt point id config code duration)
    (emit_policy_external_event rt point id config code duration).
Proof. unfold emit_policy_external_event. solve_matched. Qed.
#[local] Hint Resolve matched_decision matched_failed matched_policy_failed matched_annotator_external
  matched_policy_external : matched.

Lemma matched_failing {A} rt point name (r : result RuntimeError A) :
  matched (failing rt point name r) (failing rt point name r).
Proof. unfold failing. solve_matched. Qed.

Lemma matched_policy_failing {A} point id config input (r : result RuntimeError A) :
  matched (policy_failing point id config input r) (policy_failing point id config input r).
Proof. unfold policy_failing. solve_matched. Qed.
#[local] Hint Resolve matched_failing matched_policy_failing : matched.

Lemma failing_Ok {A} rt point name (r : result RuntimeError A) (s : Run W1) a :
  (failing rt point name r s).2 = Ok a → r = Ok a.
Proof. unfold failing, on_error, lift. by destruct r. Qed.

Lemma policy_failing_Ok {A} point id config input (r : result RuntimeError A) (s : Run W1) a :
  (policy_failing point id config input r s).2 = Ok a → r = Ok a.
Proof. unfold policy_failing, map_error, on_error, lift. destruct r; cbn; congruence. Qed.

(** ** The evaluation *)

Section evaluation.
Context (rt : Runtime) (point : InterceptionPoint).
Context (Hasked : ∀ invocation, annotator_invocations (rt_manifest rt) point invocation → asked invocation).
Context (Hdecided : ∀ invocation, policy_invocations (rt_manifest rt) point invocation → decided invocation).

Lemma matched_dispatch name invocation input :
  asked invocation →
  matched (dispatch_annotator rt point name invocation input) (dispatch_annotator rt point name invocation input).
Proof. intros Hi. unfold dispatch_annotator. solve_matched. Qed.

Lemma matched_annotate_step config plan preliminary name state :
  bt_get point (intervention_points (rt_manifest rt)) = Some config →
  matched (annotate_step rt point config plan preliminary name state)
    (annotate_step rt point config plan preliminary name state).
Proof.
  intros Hconfig. unfold annotate_step. destruct state as [outputs staged].
  eapply matched_bind_if; [apply matched_failing|intros s a Ha; exact (proj1 (ok_or_Ok _ _ _) (failing_Ok _ _ _ _ _ _ Ha))|].
  intros annotation Hannotation.
  eapply matched_bind_if; [apply matched_failing|intros s a Ha; exact (proj1 (ok_or_Ok _ _ _) (failing_Ok _ _ _ _ _ _ Ha))|].
  intros annotator Hannotator. cbn zeta.
  assert (asked (from_annotation_in (rt_manifest rt) annotator annotation)) as Hi
    by (apply Hasked; by exists config, name, annotation, annotator).
  unfold stage_input, check_input_from. apply matched_bind; [solve_matched|]. intros [input staged'].
  apply matched_bind; [solve_matched|]. intros []. apply matched_bind; [by apply matched_dispatch|]. solve_matched.
Qed.

Lemma matched_annotate_all config plan preliminary names state :
  bt_get point (intervention_points (rt_manifest rt)) = Some config →
  matched (annotate_all rt point config plan preliminary names state)
    (annotate_all rt point config plan preliminary names state).
Proof.
  intros Hconfig. revert state. induction names as [|name names IH]; intros state; cbn [annotate_all]; [apply matched_ret|].
  apply matched_bind; [by apply matched_annotate_step|exact IH].
Qed.

Lemma matched_collect config preliminary :
  bt_get point (intervention_points (rt_manifest rt)) = Some config →
  matched (collect_annotations rt point config preliminary) (collect_annotations rt point config preliminary).
Proof.
  intros Hconfig. unfold collect_annotations. cbn zeta. destruct (_ <? _)%N; [apply matched_lift|].
  apply matched_bind; [apply matched_lift|]. intros plan.
  apply matched_bind; [by apply matched_annotate_all|solve_matched].
Qed.

Lemma matched_decide config final :
  bt_get point (intervention_points (rt_manifest rt)) = Some config →
  matched (decide_policy rt point (point_policy config) final) (decide_policy rt point (point_policy config) final).
Proof.
  intros Hconfig. unfold decide_policy. cbn zeta. apply matched_bind; [apply matched_lift|]. intros [].
  eapply matched_bind_if; [apply matched_lift|intros s a Ha; exact (proj1 (ok_or_Ok _ _ _) (proj1 (map_err_Ok _ _ _) Ha))|].
  intros policy Hpolicy.
  eapply matched_bind_if; [apply matched_policy_failing|intros s a Ha; exact (policy_failing_Ok _ _ _ _ _ _ _ Ha)|].
  intros invocation Hprepared.
  assert (decided invocation) as Hi by (apply Hdecided; by exists config, policy, final).
  solve_matched.
Qed.

Lemma matched_evaluate_inner snapshot :
  matched (evaluate_inner rt point snapshot) (evaluate_inner rt point snapshot).
Proof.
  unfold evaluate_inner.
  eapply (matched_bind_if (λ p, bt_get point (intervention_points (rt_manifest rt)) = Some p.1.1));
    [apply matched_lift| |].
  - intros s p Hp%(proj1 (map_err_Ok _ _ _)). unfold prepare_input in Hp.
    apply bind_Ok in Hp as (config & Hconfig & Hp). apply ok_or_Ok in Hconfig.
    apply bind_Ok in Hp as ([] & _ & Hp). apply bind_Ok in Hp as (? & _ & Hp).
    apply bind_Ok in Hp as (? & _ & Hp). apply bind_Ok in Hp as (? & _ & [= <-]). done.
  - intros [[config target] tool] Hconfig. cbn in Hconfig. cbn zeta.
    apply matched_bind; [apply matched_lift|]. intros [].
    apply matched_bind; [by apply matched_map_error, matched_collect|]. intros annotations.
    apply matched_bind; [by apply matched_decide|solve_matched].
Qed.

(** Related worlds stay related, the actions recorded are the same, and so
    is the result. *)
Lemma evaluate_point_sim snapshot s1 s2 :
  run_rel s1 s2 →
  run_rel (@evaluate_point _ _ _ _ W1 h1 rt point snapshot s1).1 (@evaluate_point _ _ _ _ W2 h2 rt point snapshot s2).1 ∧
  (@evaluate_point _ _ _ _ W1 h1 rt point snapshot s1).2 = (@evaluate_point _ _ _ _ W2 h2 rt point snapshot s2).2.
Proof.
  intros Hs. unfold evaluate_point. cbn zeta. rewrite (sim_now _ _ (proj1 Hs)).
  destruct (matched_evaluate_inner snapshot s1 s2 Hs) as [Hrun Hout].
  destruct (@evaluate_inner _ _ _ _ W1 _ _ _ _ s1) as [s1' out1], (@evaluate_inner _ _ _ _ W2 _ _ _ _ s2) as [s2' out2].
  cbn [fst snd] in *. subst out2. split; [|done].
  rewrite (sim_elapsed _ _ (@instant_now W2 h2 (world s2)) (proj1 Hrun)).
  match goal with |- run_rel (?m1 s1').1 (?m2 s2').1 => assert (matched m1 m2) as Hm end; [solve_matched|].
  by apply Hm.
Qed.
End evaluation.

(** [Runtime::evaluate], whatever point the context names. *)
Lemma evaluate_sim rt snapshot s1 s2 :
  (∀ point invocation, annotator_invocations (rt_manifest rt) point invocation → asked invocation) →
  (∀ point invocation, policy_invocations (rt_manifest rt) point invocation → decided invocation) →
  run_rel s1 s2 →
  run_rel (@evaluate _ _ _ _ W1 h1 rt snapshot s1).1 (@evaluate _ _ _ _ W2 h2 rt snapshot s2).1 ∧
  (@evaluate _ _ _ _ W1 h1 rt snapshot s1).2 = (@evaluate _ _ _ _ W2 h2 rt snapshot s2).2.
Proof.
  intros Hasked Hdecided Hs. unfold evaluate. case_match; [|by split].
  apply evaluate_point_sim; [by apply Hasked|by apply Hdecided|done].
Qed.
End simulation.
