(* ===== verification/RuntimeFacts.v ===== *)
(** * The runtime: what an evaluation calls, sees and returns

    A small logic of traces for the engine's steps, the trace of an
    evaluation, and the theorems read off it: fail-closed verdicts, the
    dispatch discipline, dependency isolation and the decision events. *)

From S2P Require Import Prelude OrdMap RustStd Json Errors AgentHooks Concrete Constants Paths.
From S2P Require Import PolicyInput Limits Hex Pins Policy PolicyFacts PolicyOutput.
From S2P Require Import PolicyOutputFacts Manifest Samples DispatchFacts ManifestFacts Telemetry.
From S2P Require Import Runtime.

(** ** Traces *)

Definition is_call (a : Action) : bool := match a with ActEmit _ => false | _ => true end.

(** The calls to the dispatchers, without the events. *)
Definition calls (l : list Action) : list Action := filter (λ a, is_call a = true) l.

(** The events that close an evaluation. *)
Definition closing (t : TelemetryEventType) : bool :=
  match t with
  | EventDecision | EventInterventionPointTransformed | EventEvaluationTiming => true
  | _ => false
  end.
(** A reason code that names a reason and quotes nothing. *)
Definition identifier_code (code : option string) : Prop :=
  ∀ c, code = Some c → is_identifier_reason_code c = true.
Definition body_action (a : Action) : Prop :=
  match a with
  | ActEmit e => closing (e_type e) = false ∧ identifier_code (e_reason_code e)
  | _ => True
  end.
Definition body (l : list Action) : Prop := Forall body_action l.

Lemma calls_app l k : calls (l ++ k) = calls l ++ calls k.
Proof. apply filter_app. Qed.

Lemma body_app l k : body (l ++ k) ↔ body l ∧ body k.
Proof. apply Forall_app. Qed.

Lemma safe_code_identifier r : identifier_code (safe_telemetry_reason_code r).
Proof.
  intros c Hc. unfold safe_telemetry_reason_code in Hc. destruct r as [r|]; [|done].
  destruct (is_identifier_reason_code r) eqn:Hr; injection Hc as <-; [done|by vm_compute].
Qed.

Lemma reason_identifier e : identifier_code (Some (reason e)).
Proof. intros c [= <-]. by destruct e. Qed.

(** [spec m P]: whatever the run, [m] extends the trace with actions that
    satisfy [P] together with its result. *)
Definition spec {W E A} (m : eff W E A) (P : list Action → result E A → Prop) : Prop :=
  ∀ s, ∃ new, trace (m s).1 = trace s ++ new ∧ P new (m s).2.

Section rules.
Context {W : Type}.
Notation eff := (eff W).

Lemma spec_weaken {E A} (m : eff E A) P Q :
  spec m Q → (∀ new r, Q new r → P new r) → spec m P.
Proof. intros Hm HPQ s. destruct (Hm s) as (new & ? & ?). exists new. auto. Qed.

Lemma spec_lift {E A} (r : result E A) (P : list Action → result E A → Prop) :
  P [] r → spec (lift r : eff E A) P.
Proof. intros HP s. exists []. by rewrite app_nil_r. Qed.

Lemma spec_ret {E A} (a : A) (P : list Action → result E A → Prop) :
  P [] (Ok a) → spec (mret a : eff E A) P.
Proof. intros HP s. exists []. by rewrite app_nil_r. Qed.

Lemma spec_bind {E A B} (m : eff E A) (f : A → eff E B) Q P :
  spec m Q →
  (∀ new e, Q new (Err e) → P new (Err e)) →
  (∀ new a, Q new (Ok a) → spec (f a) (λ new' r, P (new ++ new') r)) →
  spec (m ≫= f) P.
Proof.
  intros Hm Herr Hok s. unfold mbind, eff_bind. destruct (Hm s) as (new & Ht & HQ).
  destruct (m s) as [s1 [a|e]]; cbn in *; [|by exists new; auto].
  destruct (Hok _ _ HQ s1) as (new' & Ht' & HP). exists (new ++ new').
  by rewrite Ht', Ht, app_assoc.
Qed.

Lemma spec_map_error {E F A} (g : E → F) (m : eff E A) Q P :
  spec m Q → (∀ new r, Q new r → P new (map_err g r)) → spec (map_error g m) P.
Proof.
  intros Hm HP s. unfold map_error. destruct (Hm s) as (new & Ht & HQ). exists new.
  destruct (m s) as [s1 [a|e]]; (split; [done|]); exact (HP _ _ HQ).
Qed.

Lemma spec_on_error {E A} (h : E → eff E ()) (m : eff E A) Q P :
  spec m Q →
  (∀ new a, Q new (Ok a) → P new (Ok a)) →
  (∀ new e, Q new (Err e) → spec (h e) (λ new' _, P (new ++ new') (Err e))) →
  spec (on_error h m) P.
Proof.
  intros Hm Hok Herr s. unfold on_error. destruct (Hm s) as (new & Ht & HQ).
  destruct (m s) as [s1 [a|e]]; cbn in *; [by exists new; auto|].
  destruct (Herr _ _ HQ s1) as (new' & Ht' & HP). exists (new ++ new').
  by rewrite Ht', Ht, app_assoc.
Qed.
End rules.

(** Events only, none of them closing. *)
Definition quiet (l : list Action) : Prop := body l ∧ calls l = [].

Lemma quiet_nil : quiet [].
Proof. split; [constructor|done]. Qed.

Lemma quiet_app l k : quiet l → quiet k → quiet (l ++ k).
Proof.
  intros [Hl Hcl] [Hk Hck]. split; [by apply body_app|]. by rewrite calls_app, Hcl, Hck.
Qed.

#[export] Hint Resolve quiet_nil quiet_app : acs.

Ltac solve_quiet :=
  cbn [app]; rewrite ?app_nil_r; repeat first [apply quiet_nil | assumption | apply quiet_app].

Ltac solve_body :=
  repeat (apply body_app; split); try assumption; constructor.

Section runtime_facts.
Context `{AgentHooksLaws} `{UrlCrate} `{SerdeJson} `{Sha2} `{Host W}.
Notation eff := (eff W).

(** ** The events of a failure are quiet *)

Lemma emit_spec {E} (event : TelemetryEvent) :
  closing (e_type event) = false → identifier_code (e_reason_code event) →
  spec (emit_event event : eff E ()) (λ new r, quiet new ∧ r = Ok ()).
Proof.
  intros He Hc s. exists [ActEmit event]. split; [done|]. split; [|done].
  split; [by repeat constructor|done].
Qed.

Lemma annotator_failed_spec {E} rt point name error :
  spec (emit_annotator_failed rt point name error : eff E ()) (λ new r, quiet new ∧ r = Ok ()).
Proof.
  apply emit_spec; destruct (annotation_needs rt point name); try done; apply reason_identifier.
Qed.

Lemma policy_failed_spec {E} point id config error :
  spec (emit_policy_failed point id config error : eff E ()) (λ new r, quiet new ∧ r = Ok ()).
Proof. apply emit_spec; [done|apply reason_identifier]. Qed.

Lemma annotator_external_spec {E} rt point name code duration :
  spec (emit_annotator_external_event rt point name code duration : eff E ())
    (λ new r, quiet new ∧ r = Ok ()).
Proof.
  unfold emit_annotator_external_event.
  destruct (emit_external_events _); cbn [negb]; [|apply spec_ret; auto with acs].
  apply emit_spec; destruct (annotation_needs rt point name); try done; apply safe_code_identifier.
Qed.

Lemma policy_external_spec {E} rt point id config code duration :
  spec (emit_policy_external_event rt point id config code duration : eff E ())
    (λ new r, quiet new ∧ r = Ok ()).
Proof.
  unfold emit_policy_external_event.
  destruct (emit_external_events _); cbn [negb]; [|apply spec_ret; auto with acs].
  apply emit_spec; [done|apply safe_code_identifier].
Qed.

Lemma now_spec {E} : spec (now : eff E N) (λ new r, new = [] ∧ is_ok r = true).
Proof. intros s. exists []. by rewrite app_nil_r. Qed.

Lemma elapsed_spec {E} start : spec (elapsed start : eff E N) (λ new r, new = [] ∧ is_ok r = true).
Proof. intros s. exists []. by rewrite app_nil_r. Qed.

(** The two events of a failed call. *)
Lemma failed_call_spec {E} start (external : N → eff E ()) (failed : eff E ()) :
  (∀ duration, spec (external duration) (λ new r, quiet new ∧ r = Ok ())) →
  spec failed (λ new r, quiet new ∧ r = Ok ()) →
  spec (duration ← elapsed start; external duration ;; failed) (λ new _, quiet new).
Proof.
  intros Hext Hfail. eapply spec_bind; [apply elapsed_spec|by intros ? ? []|].
  intros new duration [-> _]. eapply spec_bind; [apply Hext|by intros ? ? []|].
  intros new' [] [Hq _]. eapply spec_weaken; [exact Hfail|].
  intros new'' r [Hq' _]. solve_quiet.
Qed.

Lemma failing_spec {A} rt point name (r : result RuntimeError A) :
  spec (failing rt point name r : eff RuntimeError A) (λ new r', quiet new ∧ r' = r).
Proof.
  eapply spec_on_error with (Q := λ new r', new = [] ∧ r' = r); [by apply spec_lift| |].
  - intros new a [-> ->]. auto with acs.
  - intros new e [-> <-]. eapply spec_weaken; [apply annotator_failed_spec|].
    by intros new r' [? _].
Qed.

Lemma policy_failing_spec {A} point id config final (r : result RuntimeError A) :
  spec (policy_failing point id config final r : eff EvaluationFailure A)
    (λ new r', quiet new ∧ r' = map_err (failure_with final) r).
Proof.
  eapply spec_map_error with (Q := λ new r', quiet new ∧ r' = r);
    [|by intros new r' [? ->]].
  eapply spec_on_error with (Q := λ new r', new = [] ∧ r' = r); [by apply spec_lift| |].
  - intros new a [-> ->]. auto with acs.
  - intros new e [-> <-]. eapply spec_weaken; [apply policy_failed_spec|].
    by intros new r' [? _].
Qed.

(** ** One dispatch *)

(** The needs of an annotator in a plan. *)
Definition plan_needs (plan : AnnotationPlan) (name : string) : list string :=
  match bt_get name (plan_dependencies plan) with Some d => dep_names d | None => [] end.

(** [visible] is [outputs] cut down to [needs], all of which have one. *)
Definition restricts (needs : list string) (outputs visible : JsonMap) : Prop :=
  bt_wf visible ∧
  (∀ k, bt_get k visible = if decide (k ∈ needs) then bt_get k outputs else None) ∧
  (∀ k, k ∈ needs → is_Some (bt_get k outputs)).

Lemma visible_spec (e : string → RuntimeError) needs (outputs acc visible : JsonMap) :
  fold_result (λ (visible : JsonMap) need,
    output ← ok_or (bt_get need outputs) (e need); Ok (bt_insert need output visible)) acc needs
  = Ok visible →
  bt_wf acc →
  bt_wf visible ∧
  (∀ k, bt_get k visible = if decide (k ∈ needs) then bt_get k outputs else bt_get k acc) ∧
  (∀ k, k ∈ needs → is_Some (bt_get k outputs)).
Proof.
  revert acc. induction needs as [|n needs IH]; intros acc Hf Hacc; cbn [fold_result] in Hf.
  - inv_ok. split_and!; [done| |set_solver]. intros k. by rewrite decide_False by set_solver.
  - apply bind_Ok in Hf as (acc' & Ha & Hf). apply bind_Ok in Ha as (o & Ho & [= <-]).
    destruct (bt_get n outputs) as [o'|] eqn:Hn; [|done]. injection Ho as ->.
    apply IH in Hf as (Hwf & Hget & Hall); [|by apply bt_insert_wf]. split_and!; [done| |].
    + intros k. rewrite Hget, bt_get_insert. destruct (decide (k = n)) as [->|Hne].
      * rewrite (decide_True (P := n ∈ n :: needs)) by set_solver. by case_decide.
      * destruct (decide (k ∈ needs)) as [Hin|Hin];
          [by rewrite decide_True by set_solver|by rewrite decide_False by set_solver].
    + intros k [->|Hk]%elem_of_cons; eauto.
Qed.

Section point.
Context (rt : Runtime) (point : InterceptionPoint) (config : InterventionPointConfig)
  (target snapshot tool : JsonValue) (plan : AnnotationPlan).

(** The policy input with given annotations. *)
Notation pi annotations := (policy_input_of point config target snapshot annotations tool).

(** What the dispatcher is given for [name] when [outputs] have been
    collected: the invocation of its two configurations, and the policy
    input whose annotations are exactly the outputs it needs. *)
Definition dispatch_ok (outputs : JsonMap) (name : string) (invocation : AnnotatorInvocation)
  (input : JsonValue) : Prop :=
  (∃ annotation annotator,
    bt_get name (point_annotations config) = Some annotation ∧
    bt_get name (annotators (rt_manifest rt)) = Some annotator ∧
    invocation = from_annotation_in (rt_manifest rt) annotator annotation) ∧
  ∃ visible, restricts (plan_needs plan name) outputs visible ∧ input = pi (JObject visible).

Definition staged_ok (staged : option JsonValue) : Prop :=
  ∀ v, staged = Some v → ∃ annotations, v = pi annotations.

(** Successful dispatches of [names] from [outputs] to [final]. *)
Inductive dispatched : JsonMap → list string → list Action → JsonMap → Prop :=
  | dispatched_nil outputs : dispatched outputs [] [] outputs
  | dispatched_cons outputs name names invocation input output acts final :
      dispatch_ok outputs name invocation input →
      dispatched (bt_insert name output outputs) names acts final →
      dispatched outputs (name :: names)
        (ActDispatch name invocation input (Returned (Ok output)) :: acts) final.

(** At most one more dispatch, of the first of [names]. *)
Definition last_dispatch (outputs : JsonMap) (names : list string) (last : list Action) : Prop :=
  last = [] ∨ ∃ name names' invocation input outcome,
    names = name :: names' ∧ last = [ActDispatch name invocation input outcome] ∧
    dispatch_ok outputs name invocation input.

Lemma stage_input_spec name outputs staged :
  staged_ok staged →
  spec (stage_input rt point plan name (pi (JObject [])) outputs staged
        : eff RuntimeError (JsonValue * option JsonValue))
    (λ new r, quiet new ∧ ∀ input staged', r = Ok (input, staged') →
      staged_ok staged' ∧
      ∃ visible, restricts (plan_needs plan name) outputs visible ∧ input = pi (JObject visible)).
Proof.
  intros Hst. unfold stage_input, plan_needs.
  destruct (bt_get name (plan_dependencies plan)) as [d|].
  - eapply spec_bind; [apply failing_spec|by intros new e [? _]|].
    intros new visible [Hq Hvis]. symmetry in Hvis. apply visible_spec in Hvis; [|apply bt_wf_nil].
    eapply spec_bind; [apply failing_spec| |].
    { intros new' e [Hq' _]. split; [solve_quiet|done]. }
    intros new' object [Hq' Hobj].
    assert (∃ ann, default (pi (JObject [])) staged = pi ann) as [ann Hann].
    { destruct staged as [v|]; cbn; [by apply Hst|by eexists]. }
    rewrite Hann in Hobj. unfold policy_input_of in Hobj.
    rewrite build_policy_input_members in Hobj. injection Hobj as ->.
    eapply spec_bind; [apply failing_spec| |].
    { intros new'' e [Hq'' _]. split; [solve_quiet|done]. }
    intros new'' [] [Hq'' _]. apply spec_ret. split; [solve_quiet|].
    intros input staged' [= <- <-]. split.
    + intros v [= <-]. exists (JObject visible). unfold policy_input_of.
      by rewrite build_policy_input_members.
    + exists visible. split; [exact Hvis|]. unfold policy_input_of.
      by rewrite build_policy_input_members.
  - apply spec_ret. split; [auto with acs|]. intros input staged' [= <- <-].
    split; [done|]. exists []. split; [|done]. split_and!; [apply bt_wf_nil| |set_solver].
    intros k. by rewrite decide_False by set_solver.
Qed.

Lemma check_input_from_spec name invocation input :
  spec (check_input_from rt point name invocation input : eff RuntimeError ()) (λ new _, quiet new).
Proof.
  unfold check_input_from. destruct (input_from invocation); [|apply spec_ret; auto with acs].
  eapply spec_bind; [apply failing_spec|by intros ? ? [? _]|]. intros new path [Hq _].
  eapply spec_bind with (Q := λ new _, new = []); [by apply spec_lift| |].
  { intros new' e ->. solve_quiet. }
  intros new' snap ->. eapply spec_bind; [apply failing_spec| |].
  { intros new' e [? _]. solve_quiet. }
  intros new' v [? _]. apply spec_ret. solve_quiet.
Qed.

(** One dispatch in the trace, and what its result says of its outcome. *)
Definition one_dispatch (name : string) (invocation : AnnotatorInvocation) (input : JsonValue)
  (new : list Action) (r : result RuntimeError JsonValue) : Prop :=
  body new ∧ ∃ outcome, calls new = [ActDispatch name invocation input outcome] ∧
    ∀ output, r = Ok output → outcome = Returned (Ok output).

Lemma one_dispatch_quiet name invocation input new r q r' :
  one_dispatch name invocation input new r → quiet q → (∀ o, r' = Ok o → r = Ok o) →
  one_dispatch name invocation input (new ++ q) r'.
Proof.
  intros (Hb & outcome & Hc & Ho) [Hqb Hqc] Hr. split; [by apply body_app|].
  exists outcome. rewrite calls_app, Hc, Hqc. split; [done|]. eauto.
Qed.

Lemma call_annotator_spec name invocation input :
  spec (call_annotator name invocation input : eff RuntimeError JsonValue)
    (one_dispatch name invocation input).
Proof.
  intros s. unfold call_annotator. destruct (annotator_dispatch _ _ _ _) as [w outcome].
  exists [ActDispatch name invocation input outcome].
  destruct outcome as [r|payload]; (split; [done|]); (split; [by repeat constructor|]).
  - exists (Returned r). split; [done|]. cbn. by intros output ->.
  - by exists (Panicked payload).
Qed.

Lemma dispatch_annotator_spec name invocation input :
  spec (dispatch_annotator rt point name invocation input : eff RuntimeError JsonValue)
    (one_dispatch name invocation input).
Proof.
  unfold dispatch_annotator.
  eapply spec_bind; [apply now_spec|by intros ? ? []|]. intros ? start [-> _].
  eapply spec_bind with (Q := one_dispatch name invocation input).
  - eapply spec_on_error with (Q := one_dispatch name invocation input); [| |].
    + eapply spec_map_error; [apply call_annotator_spec|]. intros new r Hr.
      rewrite <-(app_nil_r new). eapply one_dispatch_quiet; [exact Hr|apply quiet_nil|].
      by intros o Ho%map_err_Ok.
    + done.
    + intros new e Hnew. eapply spec_weaken.
      * apply failed_call_spec; [intros; apply annotator_external_spec|apply annotator_failed_spec].
      * intros q r Hq. by eapply one_dispatch_quiet.
  - done.
  - intros new output Hnew. eapply spec_bind; [apply failing_spec| |].
    { intros q e [Hq _]. cbn [app]. by eapply one_dispatch_quiet. }
    intros q [] [Hq _]. eapply spec_bind; [apply elapsed_spec|by intros ? ? []|].
    intros ? duration [-> _]. eapply spec_bind; [apply annotator_external_spec|by intros ? ? []|].
    intros q' [] [Hq' _]. apply spec_ret. cbn [app].
    eapply one_dispatch_quiet; [exact Hnew| |done].
    solve_quiet.
Qed.

(** ** The loop *)

(** The calls of one step of the loop. *)
Definition step_calls (outputs : JsonMap) (name : string) (new : list Action)
  (r : result RuntimeError (JsonMap * option JsonValue)) : Prop :=
  body new ∧
  match r with
  | Ok (outputs', staged') => staged_ok staged' ∧ ∃ invocation input output,
      calls new = [ActDispatch name invocation input (Returned (Ok output))] ∧
      dispatch_ok outputs name invocation input ∧ outputs' = bt_insert name output outputs
  | Err _ => last_dispatch outputs [name] (calls new)
  end.

Lemma step_calls_quiet outputs name new e : quiet new → step_calls outputs name new (Err e).
Proof. intros [Hb Hc]. split; [done|]. by left. Qed.

Lemma step_calls_prefix outputs name q new r :
  quiet q → step_calls outputs name new r → step_calls outputs name (q ++ new) r.
Proof.
  intros [Hqb Hqc] [Hb Hr]. split; [by apply body_app|]. by rewrite calls_app, Hqc.
Qed.

Lemma annotate_step_spec name outputs staged :
  staged_ok staged →
  spec (annotate_step rt point config plan (pi (JObject [])) name (outputs, staged)
        : eff RuntimeError (JsonMap * option JsonValue)) (step_calls outputs name).
Proof.
  intros Hst. unfold annotate_step.
  eapply spec_bind; [apply failing_spec|by intros ? ? [? _]; apply step_calls_quiet|].
  intros q1 annotation [Hq1 Hann]. eapply spec_bind; [apply failing_spec| |].
  { intros q ? [? _]; apply step_calls_quiet; solve_quiet. }
  intros q2 annotator [Hq2 Htor].
  eapply spec_bind; [by apply stage_input_spec| |].
  { intros q ? [? _]; apply step_calls_quiet; solve_quiet. }
  intros q3 [input staged'] [Hq3 Hin]. destruct (Hin _ _ eq_refl) as (Hst' & Hvis). clear Hin.
  eapply spec_bind; [apply check_input_from_spec| |].
  { intros q ? ?; apply step_calls_quiet; solve_quiet. }
  intros q4 [] Hq4.
  assert (dispatch_ok outputs name (from_annotation_in (rt_manifest rt) annotator annotation) input)
    as Hok.
  { split; [|done]. exists annotation, annotator.
    destruct (bt_get name (point_annotations config)), (bt_get name (annotators (rt_manifest rt)));
      try done. by injection Hann as ->; injection Htor as ->. }
  eapply spec_bind; [apply dispatch_annotator_spec| |].
  - intros new e (Hb & outcome & Hc & _). rewrite !app_assoc.
    apply step_calls_prefix; [solve_quiet|]. split; [done|]. rewrite Hc. right.
    by eexists _, _, _, _, _; split_and!; [done|done|exact Hok].
  - intros new output (Hb & outcome & Hc & Ho). apply spec_ret. rewrite app_nil_r, !app_assoc.
    apply step_calls_prefix; [solve_quiet|]. split; [done|]. split; [done|].
    rewrite Hc, (Ho _ eq_refl).
    by eexists _, _, _; split_and!; [done|exact Hok|done].
Qed.

(** The calls of the loop. *)
Definition loop_calls (outputs : JsonMap) (names : list string) (new : list Action)
  (r : result RuntimeError (JsonMap * option JsonValue)) : Prop :=
  body new ∧
  match r with
  | Ok (outputs', _) => dispatched outputs names (calls new) outputs'
  | Err _ => ∃ before after acts outputs' last,
      names = before ++ after ∧ calls new = acts ++ last ∧
      dispatched outputs before acts outputs' ∧ last_dispatch outputs' after last
  end.

Lemma annotate_all_spec names outputs staged :
  staged_ok staged →
  spec (annotate_all rt point config plan (pi (JObject [])) names (outputs, staged)
        : eff RuntimeError (JsonMap * option JsonValue)) (loop_calls outputs names).
Proof.
  revert outputs staged. induction names as [|name names IH]; intros outputs staged Hst.
  { apply spec_ret. split; [constructor|]. cbn. constructor. }
  cbn [annotate_all]. eapply spec_bind; [by apply annotate_step_spec| |].
  - intros new e [Hb Hlast]. split; [done|]. exists [], (name :: names), [], outputs, (calls new).
    split_and!; [done|done|constructor|].
    destruct Hlast as [->|(? & ? & ? & ? & ? & [= <- <-] & -> & ?)]; [by left|].
    right. by eexists _, _, _, _, _; split_and!.
  - intros new [outputs' staged'] (Hb & Hst' & inv & input & output & Hc & Hok & ->).
    eapply spec_weaken; [by apply IH|]. intros new' r [Hb' Hr].
    split; [by apply body_app|]. rewrite calls_app, Hc. destruct r as [[outs ?]|e].
    + by econstructor.
    + destruct Hr as (before & after & acts & outs & last & -> & -> & Hd & Hl).
      exists (name :: before), after, (ActDispatch name inv input (Returned (Ok output)) :: acts), outs, last.
      split_and!; [done|done|by econstructor|done].
Qed.
End point.

(** ** The policy *)

(** The invocation made from a binding and a policy input. *)
Definition prepared_for (rt : Runtime) (binding : PolicyBinding) (final : JsonValue)
  (invocation : PreparedPolicyInvocation) : Prop :=
  ∃ policy, bt_get (binding_id binding) (policies (rt_manifest rt)) = Some policy ∧
    prepare_policy_invocation policy binding final = Ok invocation.

(** The policy call of an evaluation with its result: none or one, and a
    verdict only out of a normalized output of the dispatcher. *)
Definition policy_calls (rt : Runtime) (binding : PolicyBinding) (final : JsonValue)
  (last : list Action) {E} (r : result E Verdict) : Prop :=
  match r with
  | Ok verdict => ∃ invocation output,
      last = [ActPolicy invocation (Returned (Ok output))] ∧
      prepared_for rt binding final invocation ∧ normalize_policy_output output = Ok verdict
  | Err _ => last = [] ∨ ∃ invocation outcome,
      last = [ActPolicy invocation outcome] ∧ prepared_for rt binding final invocation
  end.

Definition one_policy_call (invocation : PreparedPolicyInvocation) {E}
  (new : list Action) (r : result E JsonValue) : Prop :=
  body new ∧ ∃ outcome, calls new = [ActPolicy invocation outcome] ∧
    ∀ output, r = Ok output → outcome = Returned (Ok output).

Lemma one_policy_call_quiet invocation {E E'} new (r : result E JsonValue) q (r' : result E' JsonValue) :
  one_policy_call invocation new r → quiet q → (∀ o, r' = Ok o → r = Ok o) →
  one_policy_call invocation (new ++ q) r'.
Proof.
  intros (Hb & outcome & Hc & Ho) [Hqb Hqc] Hr. split; [by apply body_app|].
  exists outcome. rewrite calls_app, Hc, Hqc. split; [done|]. eauto.
Qed.

Lemma call_policy_spec invocation :
  spec (call_policy invocation : eff RuntimeError JsonValue) (one_policy_call invocation).
Proof.
  intros s. unfold call_policy. destruct (policy_evaluate _ _) as [w outcome].
  exists [ActPolicy invocation outcome].
  destruct outcome as [[output|err]|payload]; (split; [done|]); (split; [by repeat constructor|]);
    eexists; (split; [reflexivity|]); by intros ? [= <-].
Qed.

Lemma evaluate_policy_spec rt point id config final invocation start :
  spec (map_error (failure_with final) (on_error (λ error,
      duration ← elapsed start;
      emit_policy_external_event rt point id config (Some (reason error)) duration ;;
      emit_policy_failed point id config error)
    (call_policy invocation)) : eff EvaluationFailure JsonValue) (one_policy_call invocation).
Proof.
  eapply spec_map_error with (Q := one_policy_call invocation).
  - eapply spec_on_error; [apply call_policy_spec|done|]. intros new e Hnew. eapply spec_weaken.
    + apply failed_call_spec; [intros; apply policy_external_spec|apply policy_failed_spec].
    + intros q r Hq. by eapply one_policy_call_quiet.
  - intros new r Hr. rewrite <-(app_nil_r new).
    eapply one_policy_call_quiet; [exact Hr|apply quiet_nil|]. by intros o Ho%map_err_Ok.
Qed.

Definition decided (rt : Runtime) (binding : PolicyBinding) (final : JsonValue) {E}
  (new : list Action) (r : result E Verdict) : Prop :=
  body new ∧ policy_calls rt binding final (calls new) r.

Lemma decided_quiet rt binding final {E} new (e : E) : quiet new → decided rt binding final new (Err e).
Proof. intros [Hb Hc]. split; [done|]. by left. Qed.

Lemma decide_policy_spec rt point binding final :
  spec (decide_policy rt point binding final : eff EvaluationFailure Verdict)
    (decided rt binding final).
Proof.
  unfold decide_policy.
  eapply spec_bind with (Q := λ new _, new = []); [by apply spec_lift| |].
  { intros new e ->. apply decided_quiet, quiet_nil. }
  intros ? [] ->. eapply spec_bind with (Q := λ new r, new = [] ∧ ∀ policy, r = Ok policy →
    bt_get (binding_id binding) (policies (rt_manifest rt)) = Some policy).
  { apply spec_lift. split; [done|]. intros policy Hp%map_err_Ok.
    by destruct (bt_get _ _); inv_ok. }
  { intros new e [-> _]. apply decided_quiet, quiet_nil. }
  intros ? policy [-> Hpolicy]. specialize (Hpolicy _ eq_refl).
  eapply spec_bind; [apply policy_failing_spec| |].
  { intros new e [? _]. apply decided_quiet. solve_quiet. }
  intros q invocation [Hq Hinv]. symmetry in Hinv. apply map_err_Ok in Hinv.
  assert (prepared_for rt binding final invocation) as Hprep by (by exists policy).
  eapply spec_bind; [apply now_spec|by intros ? ? []|]. intros ? start [-> _].
  eapply spec_bind; [apply evaluate_policy_spec| |].
  { intros new e (Hb & outcome & Hc & _). cbn [app]. destruct Hq as [Hqb Hqc].
    split; [by apply body_app|]. right. exists invocation, outcome. split; [|done].
    by rewrite (calls_app q new), Hqc. }
  intros new output (Hb & outcome & Hc & Ho). rewrite (Ho _ eq_refl) in Hc. cbn [app]. clear Ho.
  eapply spec_bind; [apply elapsed_spec|by intros ? ? []|]. intros ? duration [-> _].
  eapply spec_bind; [apply policy_external_spec|by intros ? ? []|]. intros q1 [] [[Hq1b Hq1c] _].
  destruct Hq as [Hqb Hqc].
  eapply spec_bind; [apply policy_failing_spec| |].
  { intros q2 e [[Hq2b Hq2c] _]. split; [solve_body|].
    cbn [app]. rewrite !calls_app, Hqc, Hc, Hq1c, Hq2c. right. by eexists _, _. }
  intros q2 [] [[Hq2b Hq2c] _]. eapply spec_weaken; [apply policy_failing_spec|].
  intros q3 r [[Hq3b Hq3c] ->]. split; [solve_body|].
  cbn [app]. rewrite !calls_app, Hqc, Hc, Hq1c, Hq2c, Hq3c.
  destruct (normalize_policy_output output) as [v|e] eqn:Hn; [by eexists _, _|].
  right. by eexists _, _.
Qed.

(** ** The evaluation *)

(** The calls of an evaluation, read off its trace: a prefix of the plan's
    dispatches, then, when the plan is complete, at most one policy call. *)
Inductive evaluation (rt : Runtime) (point : InterceptionPoint) (snapshot : JsonValue)
  : list Action → result EvaluationFailure EvaluationResult → Prop :=
  | evaluation_refused failure : evaluation rt point snapshot [] (Err failure)
  | evaluation_stopped config target tool plan before after acts outputs last failure :
      prepare_input rt point snapshot = Ok (config, target, tool) →
      bt_get point (annotation_plans rt) = Some plan →
      plan_order plan = before ++ after →
      dispatched rt point config target snapshot tool plan [] before acts outputs →
      last_dispatch rt point config target snapshot tool plan outputs after last →
      evaluation rt point snapshot (acts ++ last) (Err failure)
  | evaluation_decided config target tool plan acts outputs last (verdict : result EvaluationFailure Verdict) :
      prepare_input rt point snapshot = Ok (config, target, tool) →
      bt_get point (annotation_plans rt) = Some plan →
      dispatched rt point config target snapshot tool plan [] (plan_order plan) acts outputs →
      policy_calls rt (point_policy config)
        (policy_input_of point config target snapshot (JObject outputs) tool) last verdict →
      evaluation rt point snapshot (acts ++ last)
        ((λ v, mkResult v
          (Some (policy_input_of point config target snapshot (JObject outputs) tool))) <$> verdict).

Definition collected (rt : Runtime) (point : InterceptionPoint) (config : InterventionPointConfig)
  (target snapshot tool : JsonValue) {E} (new : list Action) (r : result E JsonValue) : Prop :=
  body new ∧ ((calls new = [] ∧ is_ok r = false) ∨
    ∃ plan, bt_get point (annotation_plans rt) = Some plan ∧
    match r with
    | Ok annotations => ∃ outputs, annotations = JObject outputs ∧
        dispatched rt point config target snapshot tool plan [] (plan_order plan) (calls new) outputs
    | Err _ => ∃ before after acts outputs last,
        plan_order plan = before ++ after ∧ calls new = acts ++ last ∧
        dispatched rt point config target snapshot tool plan [] before acts outputs ∧
        last_dispatch rt point config target snapshot tool plan outputs after last
    end).

Lemma collect_annotations_spec rt point config target snapshot tool :
  spec (collect_annotations rt point config
          (policy_input_of point config target snapshot (JObject []) tool) : eff RuntimeError JsonValue)
    (collected rt point config target snapshot tool).
Proof.
  unfold collect_annotations. destruct (_ <? _)%N.
  { apply spec_lift. split; [constructor|]. by left. }
  destruct (bt_get point (annotation_plans rt)) as [plan|] eqn:Hplan; cbn [ok_or].
  2: { eapply spec_bind with (Q := λ new r, new = [] ∧ is_ok r = false); [by apply spec_lift| |by intros ? ? []].
       intros ? e [-> _]. split; [constructor|]. by left. }
  eapply spec_bind with (Q := λ new r, new = [] ∧ r = Ok plan); [by apply spec_lift|by intros ? ? []|].
  intros ? ? [-> [= ->]]. eapply spec_bind; [apply annotate_all_spec; by intros ? [=]| |].
  - intros new e [Hb Hl]. split; [done|]. right. exists plan. split; [done|]. exact Hl.
  - intros new [outputs staged] [Hb Hd]. apply spec_ret. cbn [app]. rewrite app_nil_r.
    split; [done|]. right. exists plan. split; [done|]. by exists outputs.
Qed.

Lemma evaluate_inner_spec rt point snapshot :
  spec (evaluate_inner rt point snapshot : eff EvaluationFailure EvaluationResult)
    (λ new r, body new ∧ evaluation rt point snapshot (calls new) r).
Proof.
  unfold evaluate_inner.
  eapply spec_bind with (Q := λ new r, new = [] ∧ r = map_err bare_failure (prepare_input rt point snapshot));
    [by apply spec_lift| |].
  { intros ? e [-> _]. split; constructor. }
  intros ? [[config target] tool] [-> Hprep]. symmetry in Hprep. apply map_err_Ok in Hprep.
  eapply spec_bind with (Q := λ new _, new = []); [by apply spec_lift| |].
  { intros ? e ->. split; constructor. }
  intros ? [] ->. eapply spec_bind.
  { eapply spec_map_error with (P := collected rt point config target snapshot tool);
      [apply collect_annotations_spec|]. by intros new [annotations|e]. }
  - intros new e (Hb & Hr). cbn [app]. split; [done|].
    destruct Hr as [[-> _]|(plan & Hplan & before & after & acts & outs & last & Ho & -> & Hd & Hl)];
      by econstructor.
  - intros new annotations (Hb & Hr).
    destruct Hr as [[_ [=]]|(plan & Hplan & outputs & -> & Hd)].
    eapply spec_bind; [apply decide_policy_spec| |].
    + intros new' e [Hb' Hp]. cbn [app]. split; [by apply body_app|]. rewrite calls_app.
      exact (evaluation_decided rt point snapshot _ _ _ _ _ _ _ (Err e) Hprep Hplan Hd Hp).
    + intros new' v [Hb' Hp]. apply spec_ret. cbn [app]. rewrite app_nil_r.
      split; [by apply body_app|]. rewrite calls_app.
      exact (evaluation_decided rt point snapshot _ _ _ _ _ _ _ (Ok v) Hprep Hplan Hd Hp).
Qed.
End runtime_facts.
