(* ===== verification/RuntimeRefines.v ===== *)
(** * What an evaluation is, without its telemetry

    The specification of [Runtime::evaluate_point]: the dispatchers are
    asked in the prepared order, each annotator about the policy input with
    the results it needs, and the verdict is the normalized output of the
    policy. It knows no sink, no clock and no telemetry level; the runtime
    refines it on every host whose telemetry the dispatchers cannot see. *)

From S2P Require Import Prelude OrdMap RustStd Json Errors AgentHooks Constants Paths PolicyInput Concrete.
From S2P Require Import Limits Hex Pins Policy PolicyOutput Manifest Samples Telemetry Runtime RuntimeFacts.

(** The dispatchers, over a state of their own. *)
Class Dispatchers (V : Type) := {
  ask_annotator : V → string → AnnotatorInvocation → JsonValue → V * CallOutcome;
  ask_policy : V → PreparedPolicyInvocation → V * CallOutcome }.

(** A run of the specification: the state, and the calls made. *)
Record Asked (V : Type) := mkAsked { dispatchers : V; asked_calls : list Action }.
Arguments mkAsked {V}.
Arguments dispatchers {V}.
Arguments asked_calls {V}.

Definition asking (V E A : Type) : Type := Asked V → Asked V * result E A.
#[export] Instance asking_ret {V E} : MRet (asking V E) := λ A a s, (s, Ok a).
#[export] Instance asking_bind {V E} : MBind (asking V E) := λ A B f m s,
  match m s with (s, Ok a) => f a s | (s, Err e) => (s, Err e) end.
Definition told {V E A} (r : result E A) : asking V E A := λ s, (s, r).
Definition asking_err {V E F A} (f : E → F) (m : asking V E A) : asking V F A := λ s,
  let (s, r) := m s in (s, map_err f r).

Section spec.
Context `{AgentHooksLaws} `{UrlCrate} `{SerdeJson} `{Sha2} `{Dispatchers V}.
Notation asking := (asking V).

(** What an outcome of a dispatcher says. *)
Definition annotator_answer (name : string) (outcome : CallOutcome) : result RuntimeError JsonValue :=
  map_err (normalize_annotator_error name)
    match outcome with
    | Returned r => r
    | Panicked payload => Err (AnnotationFailed ("annotator dispatcher panicked: " +:+ panic_detail payload))
    end.

Definition policy_answer (outcome : CallOutcome) : result RuntimeError JsonValue :=
  match outcome with
  | Returned r => map_err (λ err, PolicyInvocationFailed (error_to_string err)) r
  | Panicked payload => Err (PolicyInvocationFailed ("policy dispatcher panicked: " +:+ panic_detail payload))
  end.

Definition annotate_with (name : string) (invocation : AnnotatorInvocation) (input : JsonValue)
  : asking RuntimeError JsonValue := λ s,
  let (v, outcome) := ask_annotator (dispatchers s) name invocation input in
  (mkAsked v (asked_calls s ++ [ActDispatch name invocation input outcome]), annotator_answer name outcome).

Definition decide_with (invocation : PreparedPolicyInvocation) : asking RuntimeError JsonValue := λ s,
  let (v, outcome) := ask_policy (dispatchers s) invocation in
  (mkAsked v (asked_calls s ++ [ActPolicy invocation outcome]), policy_answer outcome).

(** An annotator sees the policy input with the results of its needs, and
    nothing else of the other annotators. *)
Definition input_for (limits : Limits) (plan : AnnotationPlan) (name : string) (preliminary : JsonValue)
  (outputs : JsonMap) : result RuntimeError JsonValue :=
  match bt_get name (plan_dependencies plan) with
  | None => Ok preliminary
  | Some dependencies =>
      visible ← fold_result (λ (visible : JsonMap) need,
        output ← ok_or (bt_get need outputs)
          (ManifestInvalid ("annotator '" +:+ name +:+ "' needs '" +:+ need +:+ "', which has not run"));
        Ok (bt_insert need output visible)) [] (dep_names dependencies);
      object ← ok_or (as_object preliminary) (ManifestInvalid "preliminary policy input is not an object");
      validate_policy_annotations limits (JObject visible) ;;
      Ok (JObject (bt_insert pi_ANNOTATIONS (JObject visible) object))
  end.

(** What its [from] path names must be there. *)
Definition from_resolves (name : string) (invocation : AnnotatorInvocation) (input : JsonValue)
  : result RuntimeError () :=
  match input_from invocation with
  | None => Ok ()
  | Some path_text =>
      path ← map_err (λ err, ManifestInvalid
          ("invalid from path for annotator '" +:+ name +:+ "': " +:+ path_error_to_string err))
        (parse_with_snapshot_alias path_text);
      snapshot ← ok_or (json_get pi_SNAPSHOT input) (ManifestInvalid "preliminary policy input missing snapshot");
      resolve path (with_pi_and_snap input snapshot) ;;
      Ok ()
  end.

Definition annotate_one (rt : Runtime) (config : InterventionPointConfig) (plan : AnnotationPlan)
  (preliminary : JsonValue) (name : string) (outputs : JsonMap) : asking RuntimeError JsonMap :=
  annotation ← told (ok_or (bt_get name (point_annotations config)) (ManifestInvalid name));
  annotator ← told (ok_or (bt_get name (annotators (rt_manifest rt))) (ManifestInvalid name));
  let invocation := from_annotation_in (rt_manifest rt) annotator annotation in
  input ← told (input_for (rt_limits rt) plan name preliminary outputs);
  told (from_resolves name invocation input) ;;
  output ← annotate_with name invocation input;
  told (validate_annotator_output (rt_limits rt) name output) ;;
  mret (bt_insert name output outputs).

(** One name after the other. *)
Fixpoint in_order {E A} (one : string → A → asking E A) (names : list string) (state : A) : asking E A :=
  match names with
  | [] => mret state
  | name :: names => state ← one name state; in_order one names state
  end.

Definition annotate_in_order (rt : Runtime) (config : InterventionPointConfig) (plan : AnnotationPlan)
  (preliminary : JsonValue) : list string → JsonMap → asking RuntimeError JsonMap :=
  in_order (annotate_one rt config plan preliminary).

Definition annotations_of (rt : Runtime) (point : InterceptionPoint) (config : InterventionPointConfig)
  (preliminary : JsonValue) : asking RuntimeError JsonValue :=
  let count := N.of_nat (length (point_annotations config)) in
  if (max_annotators_per_point (rt_limits rt) <? count)%N then
    told (Err (ResourceLimitExceeded ("intervention point " +:+ point_as_str point +:+ " invokes " +:+
      fmt_N count +:+ " annotators, limit " +:+ fmt_N (max_annotators_per_point (rt_limits rt)))))
  else
    plan ← told (ok_or (bt_get point (annotation_plans rt))
      (ManifestInvalid ("missing annotation plan for " +:+ point_as_str point)));
    outputs ← annotate_in_order rt config plan preliminary (plan_order plan) [];
    mret (JObject outputs).

(** The policy's verdict on the final input. Its failures carry the input,
    but not those of a check before the policy was prepared. *)
Definition verdict_on (rt : Runtime) (point : InterceptionPoint) (binding : PolicyBinding) (final : JsonValue)
  : asking EvaluationFailure Verdict :=
  let policy_id := binding_id binding in
  told (map_err bare_failure (validate_policy_input (rt_limits rt) final)) ;;
  config ← told (map_err bare_failure (ok_or (bt_get policy_id (policies (rt_manifest rt)))
    (ManifestInvalid ("intervention point " +:+ point_as_str point +:+
      " references unknown policy '" +:+ policy_id +:+ "'"))));
  asking_err (failure_with final)
    (invocation ← told (prepare_policy_invocation config binding final);
     output ← decide_with invocation;
     told (validate_policy_output (rt_limits rt) output) ;;
     told (normalize_policy_output output)).

Definition decision (rt : Runtime) (point : InterceptionPoint) (snapshot : JsonValue)
  : asking EvaluationFailure EvaluationResult :=
  prepared ← told (map_err bare_failure (prepare_input rt point snapshot));
  let '(config, target, tool) := prepared in
  let preliminary := policy_input_of point config target snapshot (JObject []) tool in
  told (map_err bare_failure (validate_policy_input (rt_limits rt) preliminary)) ;;
  annotations ← asking_err (failure_with preliminary) (annotations_of rt point config preliminary);
  let final := policy_input_of point config target snapshot annotations tool in
  verdict ← verdict_on rt point (point_policy config) final;
  mret (mkResult verdict (Some final)).

(** Every failure is a denial. *)
Definition decide_point (rt : Runtime) (point : InterceptionPoint) (snapshot : JsonValue) (s : Asked V)
  : Asked V * EvaluationResult :=
  let (s, outcome) := decision rt point snapshot s in
  (s, match outcome with
      | Ok result => result
      | Err failure => mkResult (runtime_error_verdict (ef_error failure)) (ef_policy_input failure)
      end).
End spec.

(** ** The runtime refines its specification

    On a host whose dispatchers cannot see the telemetry, evaluating is
    deciding: the same calls, the same result, whatever the sink, the clock
    and the telemetry level do. *)

Lemma bt_insert_insert {K V} `{EqDecision K, !KeyOrder K} (k : K) (v v' : V) (m : btree K V) :
  bt_insert k v (bt_insert k v' m) = bt_insert k v m.
Proof.
  induction m as [|[k' w] m IH]; cbn; [by rewrite decide_True|].
  destruct (decide (k = k')) as [<-|Hk]; [cbn; by rewrite decide_True|].
  destruct (key_ltb k k') eqn:Hlt; cbn; [by rewrite decide_True|]. by rewrite decide_False, Hlt, IH.
Qed.

Section refinement.
Context `{AgentHooksLaws} `{UrlCrate} `{SerdeJson} `{Sha2} {W V : Type} `{Host W} `{Dispatchers V}.
Context (R : W → V → Prop).

(** The host's dispatchers are those of the specification, and telemetry
    does not reach them. *)
Class TelemetryInvisible : Prop := {
  invisible_annotator w v name invocation input :
    R w v →
    R (annotator_dispatch w name invocation input).1 (ask_annotator v name invocation input).1 ∧
    (annotator_dispatch w name invocation input).2 = (ask_annotator v name invocation input).2;
  invisible_policy w v invocation :
    R w v →
    R (policy_evaluate w invocation).1 (ask_policy v invocation).1 ∧
    (policy_evaluate w invocation).2 = (ask_policy v invocation).2;
  invisible_event w v event : R w v → R (telemetry_emit w event) v }.
Context `{!TelemetryInvisible}.

Definition stands_for (s : Run W) (a : Asked V) : Prop :=
  R (world s) (dispatchers a) ∧ calls (trace s) = asked_calls a.

(** A step of the engine against one of the specification; [Q] relates what
    they give. *)
Definition refines {E A B} (Q : A → B → Prop) (m : eff W E A) (spec : asking V E B) : Prop :=
  ∀ s a, stands_for s a →
    stands_for (m s).1 (spec a).1 ∧
    match (m s).2, (spec a).2 with Ok x, Ok y => Q x y | Err e, Err e' => e = e' | _, _ => False end.

(** A step the specification does not have. *)
Definition silent {E A} (m : eff W E A) : Prop :=
  ∀ s a, stands_for s a → stands_for (m s).1 a ∧ is_ok (m s).2 = true.

Lemma refines_told {E A B} (Q : A → B → Prop) (r : result E A) (r' : result E B) :
  match r, r' with Ok x, Ok y => Q x y | Err e, Err e' => e = e' | _, _ => False end →
  refines Q (lift r) (told r').
Proof. intros Hr s a Hs. by split. Qed.

Lemma refines_lift {E A} (r : result E A) : refines eq (lift r) (told r).
Proof. apply refines_told. by destruct r. Qed.

Lemma refines_ret {E A B} (Q : A → B → Prop) (x : A) (y : B) : Q x y → refines (E := E) Q (mret x) (mret y).
Proof. intros HQ s a Hs. by split. Qed.

Lemma refines_bind {E A A' B B'} (P : A → A' → Prop) (Q : B → B' → Prop) (m : eff W E A) (spec : asking V E A') f g :
  refines P m spec → (∀ x y, P x y → refines Q (f x) (g y)) → refines Q (m ≫= f) (spec ≫= g).
Proof.
  intros Hm Hf s a Hs. destruct (Hm s a Hs) as [Hs' Hr]. unfold mbind, eff_bind, asking_bind.
  destruct (m s) as [s' [x|e]], (spec a) as [a' [y|e']]; cbn in *; try done. by apply Hf.
Qed.

Lemma refines_silent_l {E A B B'} (Q : B → B' → Prop) (m : eff W E A) f (spec : asking V E B') :
  silent m → (∀ x, refines Q (f x) spec) → refines Q (m ≫= f) spec.
Proof.
  intros Hm Hf s a Hs. destruct (Hm s a Hs) as [Hs' Hok]. unfold mbind, eff_bind.
  destruct (m s) as [s' [x|e]]; [by apply Hf|done].
Qed.

Lemma refines_told_bind {E A B B'} (Q : B → B' → Prop) (m : eff W E B) (r : result E A) (f : A → result E B') :
  refines Q m (told r ≫= λ x, told (f x)) → refines Q m (told (r ≫= f)).
Proof. intros Hm s a Hs. specialize (Hm s a Hs). by destruct r. Qed.

Lemma refines_map_error {E F A B} (Q : A → B → Prop) (h : E → F) (m : eff W E A) (spec : asking V E B) :
  refines Q m spec → refines Q (map_error h m) (asking_err h spec).
Proof.
  intros Hm s a Hs. destruct (Hm s a Hs) as [Hs' Hr]. unfold map_error, asking_err.
  destruct (m s) as [s' [x|e]], (spec a) as [a' [y|e']]; cbn in *; try done. by subst.
Qed.

Lemma refines_on_error {E A B} (Q : A → B → Prop) (h : E → eff W E ()) (m : eff W E A) (spec : asking V E B) :
  refines Q m spec → (∀ e, silent (h e)) → refines Q (on_error h m) spec.
Proof.
  intros Hm Hh s a Hs. destruct (Hm s a Hs) as [Hs' Hr]. unfold on_error.
  destruct (m s) as [s' [x|e]], (spec a) as [a' [y|e']]; cbn in *; try done. split; [|done]. by apply Hh.
Qed.

(** ** Telemetry is silent *)

Lemma silent_ret {E A} (x : A) : silent (E := E) (mret x).
Proof. by intros s a Hs. Qed.

Lemma silent_bind {E A B} (m : eff W E A) (f : A → eff W E B) : silent m → (∀ x, silent (f x)) → silent (m ≫= f).
Proof.
  intros Hm Hf s a Hs. destruct (Hm s a Hs) as [Hs' Hok]. unfold mbind, eff_bind.
  destruct (m s) as [s' [x|e]]; [by apply Hf|done].
Qed.

Lemma silent_emit {E} event : silent (E := E) (emit_event event).
Proof.
  intros s a [Hw Ht]. split; [|done]. split; cbn; [by apply invisible_event|]. rewrite calls_app. cbn.
  by rewrite app_nil_r.
Qed.

Lemma silent_now {E} : silent (E := E) now.
Proof. by intros s a Hs. Qed.

Lemma silent_elapsed {E} start : silent (E := E) (elapsed start).
Proof. by intros s a Hs. Qed.
#[local] Hint Resolve silent_ret silent_emit silent_now silent_elapsed : silent.

Ltac solve_silent :=
  repeat first
    [ solve [eauto with silent] | apply silent_bind; [|intros]
    | match goal with |- silent (if ?b then _ else _) => destruct b | |- silent (match ?x with _ => _ end) => destruct x end ].

Lemma silent_failed {E} rt point name error : silent (E := E) (emit_annotator_failed rt point name error).
Proof. unfold emit_annotator_failed. solve_silent. Qed.

Lemma silent_policy_failed {E} point id config error : silent (E := E) (emit_policy_failed point id config error).
Proof. unfold emit_policy_failed. solve_silent. Qed.

Lemma silent_annotator_external {E} rt point name code duration :
  silent (E := E) (emit_annotator_external_event rt point name code duration).
Proof. unfold emit_annotator_external_event. cbn zeta. solve_silent. Qed.

Lemma silent_policy_external {E} rt point id config code duration :
  silent (E := E) (emit_policy_external_event rt point id config code duration).
Proof. unfold emit_policy_external_event. solve_silent. Qed.

Lemma silent_decision {E} point verdict id names duration identity :
  silent (E := E) (emit_decision_event point verdict id names duration identity).
Proof. unfold emit_decision_event. solve_silent. Qed.
#[local] Hint Resolve silent_failed silent_policy_failed silent_annotator_external silent_policy_external
  silent_decision : silent.

Lemma refines_failing {A} rt point name (r : result RuntimeError A) :
  refines eq (failing rt point name r) (told r).
Proof. apply refines_on_error; [apply refines_lift|]. intros e. solve_silent. Qed.

Lemma refines_policy_failing {A} point id config input (r : result RuntimeError A) :
  refines eq (policy_failing point id config input r) (asking_err (failure_with input) (told r)).
Proof. apply refines_map_error, refines_on_error; [apply refines_lift|]. intros e. solve_silent. Qed.

(** ** The calls *)

Lemma refines_call_annotator name invocation input :
  refines eq (map_error (normalize_annotator_error name) (call_annotator name invocation input))
    (annotate_with name invocation input).
Proof.
  intros s a [Hw Ht]. unfold map_error, call_annotator, annotate_with.
  destruct (invisible_annotator (world s) (dispatchers a) name invocation input Hw) as [Hnext Hout].
  destruct (annotator_dispatch _ _ _ _) as [w out], (ask_annotator _ _ _ _) as [v out']. cbn in Hnext, Hout. subst out'.
  destruct out as [[x|e]|payload]; cbn; (split; [|done]); split; cbn; try done; by rewrite calls_app, Ht.
Qed.

Lemma refines_call_policy invocation : refines eq (call_policy invocation) (decide_with invocation).
Proof.
  intros s a [Hw Ht]. unfold call_policy, decide_with.
  destruct (invisible_policy (world s) (dispatchers a) invocation Hw) as [Hnext Hout].
  destruct (policy_evaluate _ _) as [w out], (ask_policy _ _) as [v out']. cbn in Hnext, Hout. subst out'.
  destruct out as [[x|e]|payload]; cbn; (split; [|done]); split; cbn; try done; by rewrite calls_app, Ht.
Qed.

(** ** The annotators *)

(** The staged copy is the preliminary input with other annotations. *)
Definition staged_from (preliminary : JsonValue) (staged : option JsonValue) : Prop :=
  match staged with
  | None => True
  | Some copy => ∃ object annotations,
      preliminary = JObject object ∧ copy = JObject (bt_insert pi_ANNOTATIONS annotations object)
  end.

Lemma staged_object preliminary staged :
  staged_from preliminary staged →
  match as_object (default preliminary staged), as_object preliminary with
  | Some copy, Some object => ∀ v, bt_insert pi_ANNOTATIONS v copy = bt_insert pi_ANNOTATIONS v object
  | None, None => True
  | _, _ => False
  end.
Proof.
  destruct staged as [copy|]; [|intros _; cbn; by destruct (as_object preliminary)].
  intros (object & annotations & -> & ->). cbn. intros v. apply bt_insert_insert.
Qed.

Lemma refines_stage rt point plan name preliminary outputs staged :
  staged_from preliminary staged →
  refines (λ x y, x.1 = y ∧ staged_from preliminary x.2)
    (stage_input rt point plan name preliminary outputs staged)
    (told (input_for (rt_limits rt) plan name preliminary outputs)).
Proof.
  intros Hstaged. unfold stage_input, input_for. destruct (bt_get name (plan_dependencies plan)) as [dependencies|];
    [|by apply refines_ret].
  apply refines_told_bind. eapply refines_bind; [apply refines_failing|]. intros visible ? <-.
  pose proof (staged_object _ _ Hstaged) as Hobject. apply refines_told_bind.
  apply (refines_bind (λ copy object, as_object preliminary = Some object ∧
    ∀ v, bt_insert pi_ANNOTATIONS v copy = bt_insert pi_ANNOTATIONS v object)).
  { apply refines_on_error; [|intros e; solve_silent]. apply refines_told.
    destruct (as_object (default preliminary staged)), (as_object preliminary); cbn; done. }
  intros copy object [Hpreliminary Hsame]. apply refines_told_bind.
  eapply refines_bind; [apply refines_failing|]. intros [] [] _. cbn zeta. rewrite Hsame. apply refines_ret. split; [done|].
  exists object, (JObject visible). split; [|done]. by destruct preliminary; simplify_eq/=.
Qed.

Lemma refines_check_from rt point name invocation input :
  refines eq (check_input_from rt point name invocation input) (told (from_resolves name invocation input)).
Proof.
  unfold check_input_from, from_resolves. destruct (input_from invocation) as [text|]; [|by apply refines_ret].
  apply refines_told_bind. eapply refines_bind; [apply refines_failing|]. intros path ? <-.
  apply refines_told_bind. eapply refines_bind; [apply refines_lift|]. intros snapshot ? <-.
  apply refines_told_bind. eapply refines_bind; [apply refines_failing|]. intros ? ? _. by apply refines_ret.
Qed.

Lemma refines_dispatch rt point name invocation input :
  refines eq (dispatch_annotator rt point name invocation input)
    (output ← annotate_with name invocation input;
     told (validate_annotator_output (rt_limits rt) name output) ;; mret output).
Proof.
  unfold dispatch_annotator. apply refines_silent_l; [apply silent_now|]. intros start.
  eapply refines_bind; [apply refines_on_error; [apply refines_call_annotator|intros e; solve_silent]|]. intros output ? <-.
  eapply refines_bind; [apply refines_failing|]. intros [] [] _.
  apply refines_silent_l; [apply silent_elapsed|]. intros duration.
  apply refines_silent_l; [solve_silent|]. intros []. by apply refines_ret.
Qed.

Lemma refines_annotate_one rt point config plan preliminary name outputs staged :
  staged_from preliminary staged →
  refines (λ x y, x.1 = y ∧ staged_from preliminary x.2)
    (annotate_step rt point config plan preliminary name (outputs, staged))
    (annotate_one rt config plan preliminary name outputs).
Proof.
  intros Hstaged. unfold annotate_step, annotate_one.
  eapply refines_bind; [apply refines_failing|]. intros annotation ? <-.
  eapply refines_bind; [apply refines_failing|]. intros annotator ? <-. cbn zeta.
  eapply refines_bind; [by apply refines_stage|]. intros [input staged'] ? [<- Hstaged']. cbn [fst snd] in *.
  eapply refines_bind; [apply refines_check_from|]. intros [] [] _.
  intros s a Hs. pose proof (refines_dispatch rt point name
    (from_annotation_in (rt_manifest rt) annotator annotation) input s a Hs) as [Hs' Hr].
  revert Hs' Hr. unfold mbind, eff_bind, asking_bind.
  destruct (dispatch_annotator _ _ _ _ _ s) as [s1 [x|e]], (annotate_with _ _ _ a) as [a1 [y|e']]; cbn; try done.
  all: destruct (validate_annotator_output _ _ y) as [[]|e'']; cbn; try done. intros Hs1 <-. by split.
Qed.

Lemma refines_annotate_all rt point config plan preliminary names outputs staged :
  staged_from preliminary staged →
  refines (λ x y, x.1 = y) (annotate_all rt point config plan preliminary names (outputs, staged))
    (annotate_in_order rt config plan preliminary names outputs).
Proof.
  revert outputs staged. induction names as [|name names IH]; intros outputs staged Hstaged; unfold annotate_in_order in *; cbn [annotate_all in_order].
  - by apply refines_ret.
  - eapply refines_bind; [by apply refines_annotate_one|]. intros [outputs' staged'] ? [<- Hstaged']. by apply IH.
Qed.

Lemma refines_annotations rt point config preliminary :
  refines eq (collect_annotations rt point config preliminary) (annotations_of rt point config preliminary).
Proof.
  unfold collect_annotations, annotations_of. cbn zeta. destruct (_ <? _)%N; [apply refines_lift|].
  eapply refines_bind; [apply refines_lift|]. intros plan ? <-.
  eapply refines_bind; [by apply refines_annotate_all|]. intros [outputs staged] ? <-. by apply refines_ret.
Qed.

(** ** The decision *)

(** [map_err] of a sequence. *)
Lemma refines_err_bind {E F A B B'} (h : E → F) (Q : B → B' → Prop) (m : eff W F B) (spec : asking V E A) g :
  refines Q m (asking_err h spec ≫= λ x, asking_err h (g x)) → refines Q m (asking_err h (spec ≫= g)).
Proof.
  intros Hm s a Hs. specialize (Hm s a Hs). unfold mbind, asking_bind, asking_err in *.
  by destruct (spec a) as [a' [x|e]].
Qed.

Lemma refines_verdict rt point binding final :
  refines eq (decide_policy rt point binding final) (verdict_on rt point binding final).
Proof.
  unfold decide_policy, verdict_on. cbn zeta.
  eapply refines_bind; [apply refines_lift|]. intros [] [] _.
  eapply refines_bind; [apply refines_lift|]. intros config ? <-.
  apply refines_err_bind. eapply refines_bind; [apply refines_policy_failing|]. intros invocation ? <-.
  apply refines_silent_l; [apply silent_now|]. intros start.
  apply refines_err_bind. eapply refines_bind.
  { apply refines_map_error, refines_on_error; [apply refines_call_policy|]. intros e. solve_silent. }
  intros output ? <-. apply refines_silent_l; [apply silent_elapsed|]. intros duration.
  apply refines_silent_l; [solve_silent|]. intros []. apply refines_err_bind.
  eapply refines_bind; [apply refines_policy_failing|]. intros [] [] _. apply refines_policy_failing.
Qed.

Lemma refines_decision rt point snapshot :
  refines eq (evaluate_inner rt point snapshot) (decision rt point snapshot).
Proof.
  unfold evaluate_inner, decision.
  eapply refines_bind; [apply refines_lift|]. intros [[config target] tool] ? <-. cbn zeta.
  eapply refines_bind; [apply refines_lift|]. intros [] [] _.
  eapply refines_bind; [apply refines_map_error, refines_annotations|]. intros annotations ? <-.
  eapply refines_bind; [apply refines_verdict|]. intros verdict ? <-. by apply refines_ret.
Qed.

Lemma silent_closing rt point verdict id names duration :
  silent (E := ()) (emit_decision_event point verdict id names duration None ;;
    if emit_stage_events (perf_telemetry rt) then emit_event (timing_event point verdict id duration) else mret ()).
Proof. solve_silent. Qed.

(** The specification does not read the telemetry level. *)
Lemma decide_point_level rt perf point snapshot (a : Asked V) :
  decide_point (with_perf_telemetry_level rt perf) point snapshot a = decide_point rt point snapshot a.
Proof. by destruct rt. Qed.

(** C2: An evaluation is what its specification says: at every telemetry level, and on every host whose telemetry
    the dispatchers cannot see, the runtime asks the dispatchers the same questions in the same order and gives
    the same result as the specification, which has no sink, no clock and no level, and leaves the dispatchers
    as the specification leaves them. *)
Theorem evaluate_refines_decision rt perf point snapshot s a :
  stands_for s a →
  let run := evaluate_point (with_perf_telemetry_level rt perf) point snapshot s in
  let spec := decide_point rt point snapshot a in
  run.2 = spec.2 ∧ R (world run.1) (dispatchers spec.1) ∧ calls (trace run.1) = asked_calls spec.1.
Proof.
  intros Hs. rewrite <-(decide_point_level rt perf). unfold evaluate_point, decide_point. cbn zeta.
  destruct (refines_decision (with_perf_telemetry_level rt perf) point snapshot s a Hs) as [Hs' Hr].
  destruct (evaluate_inner _ point snapshot s) as [s1 out], (decision _ point snapshot a) as [a1 out'].
  assert (out = out') as <- by (by destruct out, out'; cbn in Hr; subst). cbn [fst snd] in Hs' |- *.
  split; [done|]. by apply silent_closing.
Qed.
End refinement.

(** ** Witnesses *)

Section witnesses.
#[local] Existing Instances demo_hooks demo_hooks_laws demo_url demo_serde demo_sha.

(** Dispatchers that count their calls, and a sink that keeps its events. *)
#[local] Instance counting : Dispatchers N := {|
  ask_annotator n _ _ _ := ((n + 1)%N, Returned (Ok JNull));
  ask_policy n _ := ((n + 1)%N, Returned (Ok (JObject [("decision", JString "allow")]))) |}.

#[local] Instance counting_host : Host (N * list TelemetryEvent) := {|
  annotator_dispatch w _ _ _ := (((w.1 + 1)%N, w.2), Returned (Ok JNull));
  policy_evaluate w _ := (((w.1 + 1)%N, w.2), Returned (Ok (JObject [("decision", JString "allow")])));
  telemetry_emit w event := (w.1, w.2 ++ [event]);
  instant_now w := N.of_nat (length w.2);
  elapsed_ms w start := (N.of_nat (length w.2) - start)%N |}.

#[local] Instance counting_invisible : TelemetryInvisible (λ (w : N * list TelemetryEvent) n, w.1 = n).
Proof. by split; cbn; intros; subst. Qed.

Lemma evaluate_refines_decision_witness :
  ∃ rt, runtime_new sample_manifest PerfOff default_limits = Ok rt ∧
    (evaluate_point (with_perf_telemetry_level rt PerfFull) Input (JObject [("text", JString "hello")])
       (mkRun (0%N, []) [])).2 =
    (decide_point rt Input (JObject [("text", JString "hello")]) (mkAsked 0%N [])).2.
Proof.
  destruct (runtime_new sample_manifest PerfOff default_limits) as [rt|e] eqn:Hrt; [|by vm_compute in Hrt].
  exists rt. split; [done|].
  exact (proj1 (evaluate_refines_decision (λ (w : N * list TelemetryEvent) n, w.1 = n) rt PerfFull Input
    (JObject [("text", JString "hello")]) (mkRun (0%N, []) []) (mkAsked 0%N []) (conj eq_refl eq_refl))).
Defined.
End witnesses.
