(* ===== verification/RuntimeSafety.v ===== *)
(** * The runtime: the theorems

    Fail-closed verdicts, the dispatch discipline, dependency isolation and
    the closing events, read off the trace of an evaluation. *)

From S2P Require Import Prelude OrdMap RustStd Json Errors AgentHooks Concrete Constants Paths.
From S2P Require Import PolicyInput Limits Hex Pins Policy PolicyFacts PolicyOutput.
From S2P Require Import PolicyOutputFacts Manifest Samples DispatchFacts ManifestFacts Telemetry.
From S2P Require Import Runtime RuntimeFacts.

(** ** Reading the calls *)

(** The annotator a call dispatches. *)
Definition dispatch_name (a : Action) : option string :=
  match a with ActDispatch name _ _ _ => Some name | _ => None end.

(** The value a call returned. *)
Definition returned (a : Action) : option JsonValue :=
  match a with
  | ActDispatch _ _ _ (Returned (Ok output)) | ActPolicy _ (Returned (Ok output)) => Some output
  | _ => None
  end.

(** The outputs of the annotators after some calls. *)
Definition add_output (outputs : JsonMap) (a : Action) : JsonMap :=
  match a with
  | ActDispatch name _ _ (Returned (Ok output)) => bt_insert name output outputs
  | _ => outputs
  end.
Definition outputs_after (acts : list Action) : JsonMap := fold_left add_output acts [].

Section runtime_safety.
Context `{AgentHooksLaws} `{UrlCrate} `{SerdeJson} `{Sha2} `{Host W}.

(** The dispatch order prepared for a point. *)
Definition order_at (rt : Runtime) (point : InterceptionPoint) : list string :=
  match bt_get point (annotation_plans rt) with Some plan => plan_order plan | None => [] end.

(** The events that close an evaluation. *)
Definition closing_events (rt : Runtime) (point : InterceptionPoint) (verdict : Verdict)
  (duration : N) : list Action :=
  let event t := verdict_event t point verdict (policy_id_for rt point) (annotators_for rt point)
    duration None in
  [ActEmit (event EventDecision)] ++
  (if bool_decide (v_decision verdict = Rewrite)
   then [ActEmit (event EventInterventionPointTransformed)] else []) ++
  (if emit_stage_events (perf_telemetry rt)
   then [ActEmit (timing_event point verdict (policy_id_for rt point) duration)] else []).

Definition result_of (r : result EvaluationFailure EvaluationResult) : EvaluationResult :=
  match r with
  | Ok result => result
  | Err failure => mkResult (runtime_error_verdict (ef_error failure)) (ef_policy_input failure)
  end.

Lemma evaluate_point_trace rt point snapshot s :
  ∃ new r duration, body new ∧ evaluation rt point snapshot (calls new) r ∧
    trace (evaluate_point rt point snapshot s).1 =
      trace s ++ new ++ closing_events rt point (er_verdict (result_of r)) duration ∧
    (evaluate_point rt point snapshot s).2 = result_of r.
Proof.
  destruct (evaluate_inner_spec rt point snapshot s) as (new & Ht & Hb & Hev).
  exists new, (evaluate_inner rt point snapshot s).2.
  exists (elapsed_ms (world (evaluate_inner rt point snapshot s).1) (instant_now (world s))).
  split; [done|]. split; [done|]. unfold evaluate_point.
  destruct (evaluate_inner rt point snapshot s) as [s1 r]. cbn [fst snd] in *. split; [|done].
  rewrite app_assoc, <-Ht. unfold closing_events, emit_decision_event. fold (result_of r).
  case_bool_decide; destruct (emit_stage_events (perf_telemetry rt)); cbn [app];
    unfold mbind, eff_bind, emit_event, mret, eff_ret; cbn [fst trace]; by rewrite <-?app_assoc.
Qed.

Lemma calls_closing rt point verdict duration : calls (closing_events rt point verdict duration) = [].
Proof.
  unfold closing_events. case_bool_decide; by destruct (emit_stage_events (perf_telemetry rt)).
Qed.

(** The calls of an evaluation. *)
Lemma evaluate_point_calls rt point snapshot s :
  ∃ new r, trace (evaluate_point rt point snapshot s).1 = trace s ++ new ∧
    (evaluate_point rt point snapshot s).2 = result_of r ∧ evaluation rt point snapshot (calls new) r.
Proof.
  destruct (evaluate_point_trace rt point snapshot s) as (new & r & duration & Hb & Hev & Ht & Hr).
  eexists _, r. split; [exact Ht|]. split; [done|]. by rewrite calls_app, calls_closing, app_nil_r.
Qed.

(** ** Sequences of dispatches *)

Section sequences.
Context (rt : Runtime) (point : InterceptionPoint) (config : InterventionPointConfig)
  (target snapshot tool : JsonValue) (plan : AnnotationPlan).
Notation dispatched := (dispatched rt point config target snapshot tool plan).
Notation dispatch_ok := (dispatch_ok rt point config target snapshot tool plan).
Notation last_dispatch := (last_dispatch rt point config target snapshot tool plan).

Lemma dispatched_names outputs names acts final :
  dispatched outputs names acts final →
  omap dispatch_name acts = names ∧ Forall (λ a, is_Some (returned a) ∧ is_Some (dispatch_name a)) acts ∧
  final = fold_left add_output acts outputs.
Proof.
  induction 1 as [|outputs name names inv input output acts final Hok _ (Hn & Hr & ->)]; [done|].
  split_and!; [by rewrite <-Hn|by constructor; [split; eauto|]|done].
Qed.

Lemma dispatched_split outputs names acts final before name inv input outcome after :
  dispatched outputs names acts final →
  acts = before ++ ActDispatch name inv input outcome :: after →
  dispatch_ok (fold_left add_output before outputs) name inv input.
Proof.
  intros Hd. revert before. induction Hd as [|outputs n names i v o acts final Hok Hd IH];
    intros before Hacts; [by destruct before|].
  destruct before as [|a before]; simplify_eq/=; [done|]. by apply IH.
Qed.

Lemma dispatched_keys outputs names acts final k :
  dispatched outputs names acts final →
  is_Some (bt_get k final) ↔ k ∈ names ∨ is_Some (bt_get k outputs).
Proof.
  induction 1 as [|outputs name names inv input output acts final Hok _ IH]; [set_solver|].
  rewrite IH, bt_get_insert, elem_of_cons. case_decide; naive_solver.
Qed.

Lemma last_dispatch_names outputs names last :
  last_dispatch outputs names last →
  omap dispatch_name last `prefix_of` names ∧ (length last ≤ 1)%nat ∧
  Forall (λ a, is_Some (dispatch_name a)) last.
Proof.
  intros [->|(name & names' & inv & input & outcome & -> & -> & _)]; cbn.
  - split_and!; [apply prefix_nil|lia|constructor].
  - split_and!; [by apply prefix_cons, prefix_nil|lia|]. by repeat constructor.
Qed.
End sequences.

Lemma split_last {A} (ds last before after : list A) a :
  (length last ≤ 1)%nat → ds ++ last = before ++ a :: after →
  (∃ after', ds = before ++ a :: after' ∧ after = after' ++ last) ∨
  (before = ds ∧ last = [a] ∧ after = []).
Proof.
  intros Hl. revert before. induction ds as [|d ds IH]; intros before Heq.
  - right. cbn in Heq. destruct before as [|b before]; cbn in Heq; subst; cbn in Hl.
    + destruct after; cbn in *; [done|lia].
    + rewrite length_app in Hl. cbn in Hl. lia.
  - destruct before as [|b before]; cbn in Heq; simplify_eq.
    + left. by exists ds.
    + destruct (IH before) as [(after' & -> & ->)|(-> & -> & ->)]; [done|left; eauto|by right].
Qed.

(** The shape of every evaluation that made a call. *)
Definition shape (rt : Runtime) (point : InterceptionPoint) (snapshot : JsonValue)
  (acts : list Action) : Prop :=
  ∃ config target tool plan before after dispatches outputs last,
    prepare_input rt point snapshot = Ok (config, target, tool) ∧
    bt_get point (annotation_plans rt) = Some plan ∧ plan_order plan = before ++ after ∧
    acts = dispatches ++ last ∧
    dispatched rt point config target snapshot tool plan [] before dispatches outputs ∧
    (last_dispatch rt point config target snapshot tool plan outputs after last ∨
     after = [] ∧ ∃ invocation outcome, last = [ActPolicy invocation outcome] ∧
       prepared_for rt (point_policy config)
         (policy_input_of point config target snapshot (JObject outputs) tool) invocation).

Lemma evaluation_shape rt point snapshot acts r :
  evaluation rt point snapshot acts r → acts = [] ∨ shape rt point snapshot acts.
Proof.
  intros [failure|config target tool plan before after ds outputs last failure Hp Hplan Ho Hd Hl
    |config target tool plan ds outputs last verdict Hp Hplan Hd Hv]; [by left| |]; right.
  - exists config, target, tool, plan, before, after, ds, outputs, last.
    split_and!; try done. by left.
  - exists config, target, tool, plan, (plan_order plan), [], ds, outputs, last.
    split_and!; try done; [by rewrite app_nil_r|].
    destruct verdict as [v|e]; cbn in Hv.
    + destruct Hv as (inv & output & -> & Hprep & _). right. split; [done|]. by eexists _, _.
    + destruct Hv as [->|(inv & outcome & -> & Hprep)]; [by left; left|].
      right. split; [done|]. by eexists _, _.
Qed.

(** ** Fail closed *)

(** C1: the engine fails closed. Whatever the host's dispatchers return, raise or
    panic with, evaluating a context either denies with the reserved
    reason of a runtime error, or returns the verdict normalized from what
    the policy dispatcher returned during this evaluation, for the
    invocation prepared from the binding of the context's own point and
    the policy input the result carries. *)
Theorem evaluate_fail_closed rt snapshot s :
  ∃ new, trace (evaluate rt snapshot s).1 = trace s ++ new ∧
    let r := (evaluate rt snapshot s).2 in
    (v_decision (er_verdict r) = Deny ∧ ∃ error, er_verdict r = runtime_error_verdict error) ∨
    (∃ name point config final invocation output,
      json_get "interception_point" snapshot = Some (JString name) ∧
      point_from_str name = Some point ∧
      bt_get point (intervention_points (rt_manifest rt)) = Some config ∧
      er_policy_input r = Some final ∧ prepared_for rt (point_policy config) final invocation ∧
      ActPolicy invocation (Returned (Ok output)) ∈ new ∧
      normalize_policy_output output = Ok (er_verdict r)).
Proof.
  unfold evaluate.
  destruct (json_get "interception_point" snapshot) as [v|];
    [|by exists []; split; [rewrite app_nil_r|left; split; [|eexists]]].
  destruct v as [| | |name| |]; cbn [mbind option_bind as_str];
    try by exists []; split; [rewrite app_nil_r|left; split; [|eexists]].
  destruct (point_from_str name) as [point|] eqn:Hpoint;
    [|by exists []; split; [rewrite app_nil_r|left; split; [|eexists]]].
  destruct (evaluate_point_calls rt point snapshot s) as (new & r & Ht & -> & Hev).
  exists new. split; [done|]. destruct r as [result|failure]; [|by left; split; [|eexists]].
  right. inversion Hev as [| |config target tool plan ds outputs last verdict Hp Hplan Hd Hv Hnew Hres]; subst.
  destruct verdict as [v|]; [|done]. injection Hres as <-.
  destruct Hv as (inv & output & -> & Hprep & Hnorm).
  assert (ActPolicy inv (Returned (Ok output)) ∈ calls new) as Hin by (rewrite <-Hnew; set_solver).
  apply list_elem_of_filter in Hin as [_ Hin].
  assert (bt_get point (intervention_points (rt_manifest rt)) = Some config) as Hc.
  { unfold prepare_input in Hp. by destruct (bt_get point _); inv_ok. }
  by exists name, point, config, (policy_input_of point config target snapshot (JObject outputs) tool), inv, output.
Qed.

(** ** The dispatch discipline *)

(** C9: annotators are dispatched in the prepared order, none skipped or
    repeated, the first failing call ends the evaluation, and the policy
    is called at most once, last, and only when every annotator of the
    plan has returned an output. *)
Theorem dispatch_discipline rt point snapshot s :
  ∃ new, trace (evaluate_point rt point snapshot s).1 = trace s ++ new ∧
    omap dispatch_name (calls new) `prefix_of` order_at rt point ∧
    (∀ before a after, calls new = before ++ a :: after → after ≠ [] → is_Some (returned a)) ∧
    (∀ before invocation outcome after, calls new = before ++ ActPolicy invocation outcome :: after →
      after = [] ∧ omap dispatch_name before = order_at rt point).
Proof.
  destruct (evaluate_point_calls rt point snapshot s) as (new & r & Ht & _ & Hev).
  exists new. split; [done|]. apply evaluation_shape in Hev as [->|Hev].
  { split_and!; [apply prefix_nil|by intros []|by intros []]. }
  destruct Hev as (config & target & tool & plan & b & a & ds & outputs & last & _ & Hplan & Ho & -> & Hd & Hl).
  unfold order_at. rewrite Hplan, Ho. apply dispatched_names in Hd as (Hn & Hr & _).
  rewrite Forall_forall in Hr.
  assert ((length last ≤ 1)%nat) as Hlen.
  { destruct Hl as [Hl|(_ & ? & ? & -> & _)]; [by apply last_dispatch_names in Hl as (_ & ? & _)|cbn; lia]. }
  split_and!.
  - rewrite omap_app, Hn. apply prefix_app. destruct Hl as [Hl|(-> & ? & ? & -> & _)].
    + by apply last_dispatch_names in Hl as (? & _).
    + apply prefix_nil.
  - intros before x after [(after' & -> & ->)|(-> & -> & ->)]%split_last Hne; [|done|done].
    apply Hr. set_solver.
  - intros before inv outcome after [(after' & -> & ->)|(-> & -> & ->)]%split_last; [| |done].
    + destruct (Hr (ActPolicy inv outcome)) as [_ [? [=]]]; set_solver.
    + split; [done|]. destruct Hl as [Hl|(-> & _)]; [|by rewrite app_nil_r].
      apply last_dispatch_names in Hl as (_ & _ & Hl). by apply Forall_cons in Hl as [[? [=]] _].
Qed.

(** ** Isolation *)

(** C10: an annotator sees the context and the outputs it declared a need
    for, and nothing else of the other annotators: its input is the policy
    input whose annotations are exactly the earlier outputs of the names
    in its [needs], each of which has run; its invocation is made from its
    own annotator and its own binding at this point. *)
Theorem dispatch_isolation rt point snapshot s :
  ∃ new, trace (evaluate_point rt point snapshot s).1 = trace s ++ new ∧
    ∀ before name invocation input outcome after,
      calls new = before ++ ActDispatch name invocation input outcome :: after →
      ∃ config target tool plan annotation annotator visible,
        prepare_input rt point snapshot = Ok (config, target, tool) ∧
        bt_get point (annotation_plans rt) = Some plan ∧
        bt_get name (point_annotations config) = Some annotation ∧
        bt_get name (annotators (rt_manifest rt)) = Some annotator ∧
        invocation = from_annotation_in (rt_manifest rt) annotator annotation ∧
        input = policy_input_of point config target snapshot (JObject visible) tool ∧
        restricts (plan_needs plan name) (outputs_after before) visible.
Proof.
  destruct (evaluate_point_calls rt point snapshot s) as (new & r & Ht & _ & Hev).
  exists new. split; [done|]. intros before name inv input outcome after Hcalls.
  apply evaluation_shape in Hev as [Hnil|Hev]; [by rewrite Hnil in Hcalls; destruct before|].
  destruct Hev as (config & target & tool & plan & b & a & ds & outputs & last & Hp & Hplan & Ho & Heq & Hd & Hl).
  assert ((length last ≤ 1)%nat) as Hlen.
  { destruct Hl as [Hl|(_ & ? & ? & -> & _)]; [by apply last_dispatch_names in Hl as (_ & ? & _)|cbn; lia]. }
  rewrite Heq in Hcalls.
  assert (dispatch_ok rt point config target snapshot tool plan (outputs_after before) name inv input)
    as ((annotation & annotator & Ha & Hb & ->) & visible & Hvis & ->).
  { apply split_last in Hcalls as [(after' & -> & ->)|(-> & -> & ->)]; [| |done].
    - by eapply dispatched_split.
    - destruct Hl as [[|(? & ? & ? & ? & ? & -> & [= <- <- <- <-] & Hok)]|(_ & ? & ? & [=] & _)]; [done|].
      apply dispatched_names in Hd as (_ & _ & ->). exact Hok. }
  by exists config, target, tool, plan, annotation, annotator, visible.
Qed.

(** The policy decides over every annotation: its invocation is
    prepared from the point's own binding and the policy input whose
    annotations are exactly the outputs the annotators returned, one for
    every name of the plan. *)
Theorem policy_sees_annotations rt point snapshot s :
  ∃ new, trace (evaluate_point rt point snapshot s).1 = trace s ++ new ∧
    ∀ before invocation outcome after,
      calls new = before ++ ActPolicy invocation outcome :: after →
      ∃ config target tool,
        prepare_input rt point snapshot = Ok (config, target, tool) ∧
        prepared_for rt (point_policy config)
          (policy_input_of point config target snapshot (JObject (outputs_after before)) tool) invocation ∧
        ∀ k, is_Some (bt_get k (outputs_after before)) ↔ k ∈ order_at rt point.
Proof.
  destruct (evaluate_point_calls rt point snapshot s) as (new & r & Ht & _ & Hev).
  exists new. split; [done|]. intros before inv outcome after Hcalls.
  apply evaluation_shape in Hev as [Hnil|Hev]; [by rewrite Hnil in Hcalls; destruct before|].
  destruct Hev as (config & target & tool & plan & b & a & ds & outputs & last & Hp & Hplan & Ho & Heq & Hd & Hl).
  assert ((length last ≤ 1)%nat) as Hlen.
  { destruct Hl as [Hl|(_ & ? & ? & -> & _)]; [by apply last_dispatch_names in Hl as (_ & ? & _)|cbn; lia]. }
  rewrite Heq in Hcalls. unfold order_at. rewrite Hplan, Ho. clear Ho.
  pose proof Hd as (Hn & Hr & Hout)%dispatched_names. rewrite Forall_forall in Hr.
  apply split_last in Hcalls as [(after' & -> & ->)|(-> & -> & ->)]; [| |done].
  { destruct (Hr (ActPolicy inv outcome)) as [_ [? [=]]]; set_solver. }
  destruct Hl as [Hl|(-> & ? & ? & [= <- <-] & Hprep)].
  { apply last_dispatch_names in Hl as (_ & _ & Hl). by apply Forall_cons in Hl as [[? [=]] _]. }
  exists config, target, tool. split; [done|]. unfold outputs_after. rewrite <-Hout.
  split; [done|]. intros k. rewrite app_nil_r. apply (dispatched_keys _ _ _ _ _ _ _ _ _ _ _ k) in Hd.
  rewrite Hd. cbn. split; [intros [?|[? [=]]]; done|by left].
Qed.

(** ** Events *)

Definition events (l : list Action) : list TelemetryEvent :=
  omap (λ a, match a with ActEmit e => Some e | _ => None end) l.
Definition events_of (t : TelemetryEventType) (l : list Action) : list TelemetryEvent :=
  filter (λ e, e_type e = t) (events l).

Lemma body_events l : body l → Forall (λ e, closing (e_type e) = false ∧ identifier_code (e_reason_code e)) (events l).
Proof.
  induction 1 as [|a l Ha _ IH]; [constructor|]. unfold events. cbn.
  destruct a as [| |e]; [done|done|]. by constructor.
Qed.

Lemma closing_event_codes rt point verdict duration :
  Forall (λ e, identifier_code (e_reason_code e)) (events (closing_events rt point verdict duration)).
Proof.
  unfold closing_events, events. rewrite !omap_app. apply Forall_app. split; [|apply Forall_app; split].
  - constructor; [|constructor]. unfold verdict_event. destruct (v_evidence verdict), (existsb _ _); apply safe_code_identifier.
  - case_bool_decide; constructor; [|constructor]. unfold verdict_event.
    destruct (v_evidence verdict), (existsb _ _); apply safe_code_identifier.
  - destruct (emit_stage_events _); constructor; [|constructor]. apply safe_code_identifier.
Qed.

Lemma events_of_app t l k : events_of t (l ++ k) = events_of t l ++ events_of t k.
Proof. unfold events_of, events. by rewrite omap_app, filter_app. Qed.

Lemma events_of_emit t e : events_of t [ActEmit e] = if decide (e_type e = t) then [e] else [].
Proof. unfold events_of, events. cbn. by case_decide. Qed.

Lemma verdict_event_type t point verdict id names duration identity :
  e_type (verdict_event t point verdict id names duration identity) = t.
Proof. unfold verdict_event. by destruct (v_evidence verdict), (existsb _ _). Qed.

(** The closing events of each type. *)
Lemma closing_of t rt point verdict duration :
  let event t := verdict_event t point verdict (policy_id_for rt point) (annotators_for rt point)
    duration None in
  events_of t (closing_events rt point verdict duration) =
  match t with
  | EventDecision => [event EventDecision]
  | EventInterventionPointTransformed =>
      if bool_decide (v_decision verdict = Rewrite) then [event t] else []
  | EventEvaluationTiming =>
      if emit_stage_events (perf_telemetry rt)
      then [timing_event point verdict (policy_id_for rt point) duration] else []
  | _ => []
  end.
Proof.
  cbn zeta. unfold closing_events. rewrite !events_of_app, events_of_emit, verdict_event_type.
  destruct (bool_decide _), (emit_stage_events _); rewrite ?events_of_emit, ?verdict_event_type;
    by destruct t.
Qed.

Lemma events_of_body t l k :
  body l → closing t = true → events_of t (l ++ k) = events_of t k.
Proof.
  intros Hb%body_events Ht. rewrite events_of_app. unfold events_of at 1. induction Hb as [|e es [He _] _ IH]; [done|].
  rewrite filter_cons_False; [done|]. intros <-. congruence.
Qed.

(** Every evaluation is audited exactly once. Whatever happened, the
    trace ends with one decision event for the verdict returned, with the
    point's policy and annotators; a transformed event when and only when
    the verdict is a transform; and a timing event when and only when the
    level asks for stages; no dispatcher is called after them. No event
    of the evaluation carries a reason code that is not an identifier, so
    a policy's free text never reaches telemetry through it. *)
Theorem evaluation_events rt point snapshot s :
  ∃ new closing_ duration,
    let verdict := er_verdict (evaluate_point rt point snapshot s).2 in
    let event t := verdict_event t point verdict (policy_id_for rt point) (annotators_for rt point)
      duration None in
    trace (evaluate_point rt point snapshot s).1 = trace s ++ new ++ closing_ ∧
    calls closing_ = [] ∧ events_of EventDecision new = [] ∧
    events_of EventDecision closing_ = [event EventDecision] ∧
    events_of EventInterventionPointTransformed (new ++ closing_) =
      (if bool_decide (v_decision verdict = Rewrite)
       then [event EventInterventionPointTransformed] else []) ∧
    events_of EventEvaluationTiming (new ++ closing_) =
      (if emit_stage_events (perf_telemetry rt)
       then [timing_event point verdict (policy_id_for rt point) duration] else []) ∧
    Forall (λ e, identifier_code (e_reason_code e)) (events (new ++ closing_)).
Proof.
  destruct (evaluate_point_trace rt point snapshot s) as (new & r & duration & Hb & Hev & Ht & ->).
  exists new, (closing_events rt point (er_verdict (result_of r)) duration), duration.
  cbn zeta. split; [done|]. split; [apply calls_closing|]. split.
  { rewrite <-(app_nil_r new). by rewrite events_of_body. }
  rewrite !events_of_body by done.
  split; [exact (closing_of EventDecision _ _ _ _)|].
  split; [exact (closing_of EventInterventionPointTransformed _ _ _ _)|].
  split; [exact (closing_of EventEvaluationTiming _ _ _ _)|].
  unfold events. rewrite omap_app. apply Forall_app. split; [|apply closing_event_codes].
  eapply Forall_impl; [by apply body_events|]. by intros e [_ ?].
Qed.
End runtime_safety.

(** ** Samples *)

Section runtime_safety_samples.
#[local] Existing Instance demo_hooks.
#[local] Existing Instance demo_hooks_laws.
#[local] Existing Instance demo_url.
#[local] Existing Instance demo_serde.
#[local] Existing Instance demo_sha.

(** A host whose annotators return the annotations they were shown and
    whose policy returns [output]; the world counts the dispatches. *)
Definition demo_host (output : CallOutcome) : Host N := {|
  annotator_dispatch w name invocation input :=
    ((w + 1)%N, Returned (Ok (default JNull (json_get "annotations" input))));
  policy_evaluate w invocation := (w, output);
  telemetry_emit w e := w;
  instant_now w := w;
  elapsed_ms w start := (w - start)%N |}.

Definition sample_context : JsonValue :=
  JObject [("interception_point", JString "input"); ("text", JString "hello")].

Definition sample_runtime : Runtime :=
  match runtime_new sample_manifest PerfFull default_limits with
  | Ok rt => rt
  | Err _ => mkRuntime sample_manifest [] PerfOff default_limits
  end.

Definition allow_output : JsonValue := JObject [("decision", JString "allow")].

#[local] Instance sample_host : Host N := demo_host (Returned (Ok allow_output)).

Lemma evaluate_fail_closed_witness :
  ∃ new invocation output,
    trace (evaluate sample_runtime sample_context (mkRun 0%N [])).1 = new ∧
    ActPolicy invocation (Returned (Ok output)) ∈ new ∧
    normalize_policy_output output =
      Ok (er_verdict (evaluate sample_runtime sample_context (mkRun 0%N [])).2).
Proof.
  destruct (evaluate_fail_closed sample_runtime sample_context (mkRun 0%N [])) as (new & Ht & Hr).
  destruct Hr as [[Hd _]|(name & point & config & final & inv & output & _ & _ & _ & _ & _ & Hin & Hn)].
  - exfalso. vm_compute in Hd. discriminate Hd.
  - exists new, inv, output. split; [exact Ht|split; [exact Hin|exact Hn]].
Defined.

Lemma dispatch_discipline_witness :
  ∃ new, trace (evaluate_point sample_runtime Input sample_context (mkRun 0%N [])).1 = new ∧
    omap dispatch_name (calls new) `prefix_of` ["scan"; "summary"; "audit"].
Proof.
  destruct (dispatch_discipline sample_runtime Input sample_context (mkRun 0%N [])) as (new & Ht & Hp & _).
  exists new. split; [exact Ht|exact Hp].
Defined.

(** [audit] sees the output of [summary] and nothing else. *)
Lemma dispatch_isolation_witness :
  ∃ new, trace (evaluate_point sample_runtime Input sample_context (mkRun 0%N [])).1 = new ∧
    ∀ before invocation input outcome after,
      calls new = before ++ ActDispatch "audit" invocation input outcome :: after →
      ∃ visible, json_get "annotations" input = Some (JObject visible) ∧
        restricts ["summary"] (outputs_after before) visible.
Proof.
  destruct (dispatch_isolation sample_runtime Input sample_context (mkRun 0%N [])) as (new & Ht & Hall).
  exists new. split; [exact Ht|]. intros before inv input outcome after Hc.
  destruct (Hall _ _ _ _ _ _ Hc)
    as (config & target & tool & plan & annotation & annotator & visible & _ & Hp & _ & _ & _ & -> & Hv).
  exists visible. split; [reflexivity|]. vm_compute in Hp. injection Hp as <-. exact Hv.
Defined.

Lemma policy_sees_annotations_witness :
  ∃ new, trace (evaluate_point sample_runtime Input sample_context (mkRun 0%N [])).1 = new ∧
    ∀ before invocation outcome after, calls new = before ++ ActPolicy invocation outcome :: after →
      is_Some (bt_get "audit" (outputs_after before)).
Proof.
  destruct (policy_sees_annotations sample_runtime Input sample_context (mkRun 0%N [])) as (new & Ht & Hall).
  exists new. split; [exact Ht|]. intros before inv outcome after Hc.
  destruct (Hall _ _ _ _ Hc) as (config & target & tool & _ & _ & Hk).
  apply Hk. vm_compute. repeat constructor.
Defined.

Lemma evaluation_events_witness :
  ∃ new closing_,
    trace (evaluate_point sample_runtime Input sample_context (mkRun 0%N [])).1 = new ++ closing_ ∧
    length (events_of EventDecision closing_) = 1 ∧
    length (events_of EventEvaluationTiming (new ++ closing_)) = 1.
Proof.
  destruct (evaluation_events sample_runtime Input sample_context (mkRun 0%N []))
    as (new & closing_ & duration & Ht & _ & _ & Hd & _ & Htm & _).
  exists new, closing_. split; [exact Ht|]. split; [by rewrite Hd|]. by rewrite Htm.
Defined.
End runtime_safety_samples.
