(* ===== verification/RuntimeSound.v ===== *)
(** * A constructed runtime never blames its manifest

    Construction checks once what every evaluation relies on: the paths
    parse, the tables are complete, the needs of an annotator have run.
    After it, no evaluation fails with [ManifestInvalid]. *)

From S2P Require Import Prelude OrdMap RustStd Json Errors AgentHooks Concrete Constants Paths.
From S2P Require Import PolicyInput Limits Hex Pins Policy PolicyFacts PolicyOutput.
From S2P Require Import PolicyOutputFacts Manifest Samples DispatchFacts ManifestFacts Telemetry.
From S2P Require Import Runtime RuntimeFacts RuntimeSafety.

(** Not the manifest's fault. *)
Definition blameless (e : RuntimeError) : Prop :=
  match e with ManifestInvalid _ => False | _ => True end.

Section blameless_outputs.
Context `{AgentHooks} `{Sha2} `{SerdeJson}.

Lemma resolve_blameless p env : errs blameless (resolve p env).
Proof.
  unfold resolve. apply errs_bind; [by apply errs_ok_or|]. intros v _. apply errs_fold_result.
  intros acc segment. unfold resolve_segment. solve_errs.
Qed.

Lemma depth_blameless v depth max context : errs blameless (validate_json_depth_at v depth max context).
Proof. by intros e ->%validate_depth_error. Qed.

Lemma snapshot_blameless l v : errs blameless (validate_snapshot l v).
Proof. unfold validate_snapshot, validate_json_depth. pose proof depth_blameless. solve_errs. Qed.

Lemma output_limits_blameless l v : errs blameless (validate_policy_output l v).
Proof. unfold validate_policy_output, validate_json_depth. solve_errs. apply depth_blameless. Qed.

Lemma annotator_output_blameless l name v : errs blameless (validate_annotator_output l name v).
Proof. unfold validate_annotator_output. solve_errs. Qed.

Lemma unknown_members_blameless object allowed location :
  errs blameless (reject_unknown_members object allowed location).
Proof. unfold reject_unknown_members. solve_errs. Qed.

Lemma string_field_blameless object key : errs blameless (string_field object key).
Proof. unfold string_field. solve_errs. Qed.

Lemma check_reserved_blameless reason error : errs blameless (check_reserved reason error).
Proof. unfold check_reserved. solve_errs. Qed.

Lemma prefix_search_blameless fuel within fits too_many :
  (∀ n, errs blameless (within n)) → errs blameless (prefix_search fuel within fits too_many).
Proof.
  intros Hw. revert fits too_many. induction fuel as [|fuel IH]; intros fits too_many;
    cbn [prefix_search]; [apply errs_Ok|].
  destruct (1 <? _)%nat; [|apply errs_Ok]. apply errs_bind; [done|]. intros [] _; apply IH.
Qed.

Lemma degrade_blameless evidence cap : errs blameless (degrade_evidence evidence cap).
Proof.
  unfold degrade_evidence. unfold evidence_within_cap, canonical_evidence.
  apply errs_bind; [solve_errs|]. intros full _. destruct (_ <=? _)%N; [solve_errs|].
  apply errs_bind; [solve_errs|]. intros fits _.
  apply errs_bind; [|intros; solve_errs]. apply prefix_search_blameless. intros. solve_errs.
Qed.

Lemma normalize_blameless output : errs blameless (normalize_policy_output output).
Proof.
  unfold normalize_policy_output, reason_field, warnings_field, warning_entry, result_labels_field,
    approval_field, evidence_field, pointers_field, transform_of, transform_field, decide_intent.
  pose proof unknown_members_blameless. pose proof string_field_blameless.
  pose proof check_reserved_blameless. pose proof degrade_blameless.
  solve_errs.
Qed.
End blameless_outputs.

(** ** The tables of a constructed runtime *)

Section constructed.
Context `{AgentHooksLaws} `{UrlCrate} `{SerdeJson} `{Sha2}.

(** The maps of a manifest are maps, and [from], a named member of a
    binding, is never among its other members. *)
Record manifest_wf (m : Manifest) : Prop := {
  mw_points : bt_wf (intervention_points m);
  mw_annotations : ∀ point config,
    (point, config) ∈ intervention_points m → bt_wf (point_annotations config);
  mw_from : ∀ point config name a, (point, config) ∈ intervention_points m →
    (name, a) ∈ point_annotations config → bt_get annotation_FROM (annotation_fields a) = None }.

Lemma plan_deps_spec m (l : btree string AnnotationConfig) acc deps :
  NoDup (bt_keys l) →
  fold_result (λ (deps : btree string AnnotationDependencies) (e : string * AnnotationConfig),
    let (name, annotation) := e in
    names ← annotation_dependencies m annotation;
    if bool_decide (names = []) then Ok deps
    else
      metadata ← map_err (λ error, ManifestInvalid
        ("cannot serialize dependencies for annotation '" +:+ name +:+ "': " +:+ error))
        (to_string (JArray (JString <$> names)));
      Ok (bt_insert name (mkDependencies names metadata) deps)) acc l = Ok deps →
  (∀ n, n ∉ bt_keys l → bt_get n deps = bt_get n acc) ∧
  (∀ n a needs, bt_get n l = Some a → annotation_dependencies m a = Ok needs →
    bt_get n acc = None →
    match bt_get n deps with Some d => dep_names d | None => [] end = needs).
Proof.
  revert acc. induction l as [|[k a] l IH]; intros acc Hnd Hf; cbn [fold_result] in Hf.
  { inv_ok. by split. }
  unfold bt_keys in Hnd. cbn in Hnd. apply NoDup_cons in Hnd as [Hk Hnd].
  apply bind_Ok in Hf as (acc' & Ha & Hf). apply IH in Hf as [Hout Hin]; [|done].
  apply bind_Ok in Ha as (names & Hnames & Ha).
  assert (∀ n, n ≠ k → bt_get n acc' = bt_get n acc) as Hacc.
  { intros n Hn. destruct (bool_decide (names = [])); inv_ok; [done|].
    by rewrite bt_get_insert, decide_False. }
  assert (bt_get k acc = None →
    match bt_get k acc' with Some d => dep_names d | None => [] end = names) as Hk'.
  { intros Hnone. case_bool_decide; inv_ok; [by rewrite Hnone|].
    by rewrite bt_get_insert, decide_True. }
  split.
  - intros n Hn. unfold bt_keys in Hn. cbn in Hn. rewrite Hout by (unfold bt_keys; set_solver).
    apply Hacc. set_solver.
  - intros n b needs Hb Hneeds Hnone. cbn in Hb. case_decide as Hnk.
    + subst n. injection Hb as ->. rewrite Hout by done. rewrite Hneeds in Hnames.
      injection Hnames as <-. auto.
    + eapply Hin; [done|done|]. by rewrite Hacc.
Qed.

Lemma plan_prepare_Ok point config m plan :
  bt_wf (point_annotations config) → plan_prepare point config m = Ok plan →
  annotation_dispatch_order point config m = Ok (plan_order plan) ∧
  ∀ n a needs, bt_get n (point_annotations config) = Some a →
    annotation_dependencies m a = Ok needs → plan_needs plan n = needs.
Proof.
  intros Hwf Hp. unfold plan_prepare in Hp. apply bind_Ok in Hp as (order & Hor & Hp).
  apply bind_Ok in Hp as (deps & Hdeps & [= <-]). split; [done|].
  intros n a needs Ha Hneeds. apply plan_deps_spec in Hdeps as [_ Hd]; [|by apply bt_wf_NoDup].
  unfold plan_needs. cbn. by eapply Hd.
Qed.

Lemma runtime_new_Ok m perf limits rt :
  bt_wf (intervention_points m) → runtime_new m perf limits = Ok rt →
  validate m = Ok () ∧ rt_manifest rt = m ∧
  ∀ point config, bt_get point (intervention_points m) = Some config →
    ∃ plan, bt_get point (annotation_plans rt) = Some plan ∧ plan_prepare point config m = Ok plan.
Proof.
  intros Hwf Hnew. unfold runtime_new in Hnew. apply bind_Ok in Hnew as ([] & Hv & Hnew).
  destruct (negb _); [done|]. apply bind_Ok in Hnew as (plans & Hplans & [= <-]).
  split_and!; [done|done|]. cbn. intros point config Hc. apply map_result_Ok in Hplans.
  assert (bt_keys plans = bt_keys (intervention_points m)) as Hkeys.
  { clear -Hplans. unfold bt_keys. induction Hplans as [|[p c] e l k He _ IH]; [done|].
    apply bind_Ok in He as (plan & _ & [= <-]). cbn. by rewrite IH. }
  assert (NoDup (bt_keys plans)) as Hnd by (rewrite Hkeys; by apply bt_wf_NoDup).
  apply bt_get_Some_elem in Hc. apply list_elem_of_lookup_1 in Hc as (i & Hi).
  eapply Forall2_lookup_l in Hplans as ([p plan] & Hpi & He); [|exact Hi].
  apply bind_Ok in He as (plan' & Hplan & [= <- <-]). exists plan'. split; [|done].
  rewrite bt_of_list_get by done. apply bt_elem_get_NoDup; [done|].
  by eapply list_elem_of_lookup_2.
Qed.

(** ** Steps that fail with blameless errors only *)

Context `{Host W}.
Notation eff := (eff W).

Definition faultless {E A} (P : E → Prop) (m : eff E A) : Prop := spec m (λ _ r, errs P r).

Lemma spec_and {E A} (m : eff E A) P Q : spec m P → spec m Q → spec m (λ new r, P new r ∧ Q new r).
Proof.
  intros HP HQ s. destruct (HP s) as (new & Ht & HPn). destruct (HQ s) as (new' & Ht' & HQn).
  exists new. rewrite Ht in Ht'. apply app_inv_head in Ht' as <-. auto.
Qed.

Lemma faultless_bind {E A B} (P : E → Prop) (m : eff E A) (f : A → eff E B) Q :
  spec m Q → (∀ new r, Q new r → errs P r) → (∀ new a, Q new (Ok a) → faultless P (f a)) →
  faultless P (m ≫= f).
Proof.
  intros Hm He Hf. eapply spec_bind; [exact Hm| |].
  - intros new e HQ e' [= <-]. by eapply He.
  - intros new a HQ. eapply spec_weaken; [by eapply Hf|]. by intros.
Qed.

Lemma faultless_ret {E A} (P : E → Prop) (a : A) : faultless P (mret a : eff E A).
Proof. by apply spec_ret, errs_Ok. Qed.

Lemma failing_faultless {A} rt point name (r : result RuntimeError A) :
  errs blameless r →
  spec (failing rt point name r : eff RuntimeError A) (λ _ r', r' = r ∧ errs blameless r').
Proof. intros Hr. eapply spec_weaken; [apply failing_spec|]. by intros new r' [_ ->]. Qed.

Lemma normalize_annotator_blameless name e : blameless (normalize_annotator_error name e).
Proof. by destruct e. Qed.

Lemma dispatch_annotator_faultless rt point name invocation input :
  faultless blameless (dispatch_annotator rt point name invocation input).
Proof.
  unfold dispatch_annotator.
  eapply faultless_bind; [apply now_spec|by intros ? [] [_ ?]|]. intros _ start _.
  eapply faultless_bind with (Q := λ _ r, errs blameless r); [|done|].
  - eapply spec_on_error with (Q := λ _ r, errs blameless r); [|done|].
    + eapply spec_map_error; [apply call_annotator_spec|]. intros new r _.
      apply errs_map_err, normalize_annotator_blameless.
    + intros new e He. eapply spec_weaken; [|intros ? ? _; exact He].
      apply failed_call_spec; [intros; apply annotator_external_spec|apply annotator_failed_spec].
  - intros _ output _.
    eapply faultless_bind; [apply failing_faultless, annotator_output_blameless|by intros ? ? [_ ?]|].
    intros _ [] _. eapply faultless_bind; [apply elapsed_spec|by intros ? [] [_ ?]|].
    intros _ duration _. eapply faultless_bind; [apply annotator_external_spec| |].
    + by intros ? ? [_ ->].
    + intros. apply faultless_ret.
Qed.

Section at_point.
Context (rt : Runtime) (point : InterceptionPoint) (config : InterventionPointConfig)
  (target snapshot tool : JsonValue) (plan : AnnotationPlan).
Notation pi annotations := (policy_input_of point config target snapshot annotations tool).

Lemma visible_blameless (e : string → RuntimeError) needs (outputs acc : JsonMap) :
  (∀ k, k ∈ needs → is_Some (bt_get k outputs)) →
  errs blameless (fold_result (λ (visible : JsonMap) need,
    output ← ok_or (bt_get need outputs) (e need); Ok (bt_insert need output visible)) acc needs).
Proof.
  revert acc. induction needs as [|n needs IH]; intros acc Hn; cbn [fold_result]; [apply errs_Ok|].
  destruct (Hn n) as [o ->]; [set_solver|]. cbn. apply IH. set_solver.
Qed.

Lemma stage_input_faultless name outputs staged :
  staged_ok point config target snapshot tool staged →
  (∀ k, k ∈ plan_needs plan name → is_Some (bt_get k outputs)) →
  faultless blameless (stage_input rt point plan name (pi (JObject [])) outputs staged
    : eff RuntimeError (JsonValue * option JsonValue)).
Proof.
  intros Hst Hneeds. unfold stage_input. unfold plan_needs in Hneeds.
  destruct (bt_get name (plan_dependencies plan)) as [d|]; [|apply faultless_ret].
  eapply faultless_bind; [by apply failing_faultless, visible_blameless|by intros ? ? [_ ?]|].
  intros _ visible _. eapply faultless_bind; [apply failing_faultless|by intros ? ? [_ ?]|].
  { assert (∃ ann, default (pi (JObject [])) staged = pi ann) as [ann ->].
    { destruct staged as [v|]; cbn; [by apply Hst|by eexists]. }
    unfold policy_input_of. rewrite build_policy_input_members. apply errs_Ok. }
  intros _ object _. eapply faultless_bind; [apply failing_faultless, depth_blameless|by intros ? ? [_ ?]|].
  intros _ [] _. apply faultless_ret.
Qed.

Lemma check_input_from_faultless name invocation text annotations p :
  input_from invocation = Some text → parse_with_snapshot_alias text = Ok p →
  faultless blameless (check_input_from rt point name invocation (pi annotations) : eff RuntimeError ()).
Proof.
  intros Hfrom Hparse. unfold check_input_from. rewrite Hfrom, Hparse.
  eapply faultless_bind; [apply failing_faultless, errs_Ok|by intros ? ? [_ ?]|]. intros _ path _.
  eapply faultless_bind with (Q := λ _ r, errs blameless r); [|done|].
  { apply spec_lift. unfold policy_input_of. rewrite build_policy_input_members. apply errs_Ok. }
  intros _ snap _.
  eapply faultless_bind; [apply failing_faultless, resolve_blameless|by intros ? ? [_ ?]|].
  intros. apply faultless_ret.
Qed.

(** What construction settles about one annotator of the plan. *)
Definition step_ok (name : string) : Prop :=
  ∃ annotation annotator p,
    bt_get name (point_annotations config) = Some annotation ∧
    bt_get name (annotators (rt_manifest rt)) = Some annotator ∧
    input_from (from_annotation_in (rt_manifest rt) annotator annotation) =
      Some (annotation_from annotation) ∧
    parse_with_snapshot_alias (annotation_from annotation) = Ok p.

Lemma annotate_step_faultless name outputs staged :
  step_ok name → staged_ok point config target snapshot tool staged →
  (∀ k, k ∈ plan_needs plan name → is_Some (bt_get k outputs)) →
  faultless blameless (annotate_step rt point config plan (pi (JObject [])) name (outputs, staged)
    : eff RuntimeError (JsonMap * option JsonValue)).
Proof.
  intros (annotation & annotator & p & Ha & Hb & Hfrom & Hp) Hst Hneeds. unfold annotate_step.
  rewrite Ha, Hb. cbn [ok_or].
  eapply faultless_bind; [apply failing_faultless, errs_Ok|by intros ? ? [_ ?]|].
  intros _ a [[= ->] _].
  eapply faultless_bind; [apply failing_faultless, errs_Ok|by intros ? ? [_ ?]|].
  intros _ b [[= ->] _].
  eapply faultless_bind;
    [apply spec_and; [by apply stage_input_faultless|by apply stage_input_spec]|by intros ? ? [? _]|].
  intros _ [input staged'] (_ & _ & Hin). destruct (Hin _ _ eq_refl) as (_ & visible & _ & ->).
  eapply faultless_bind; [by eapply check_input_from_faultless|done|]. intros _ [] _.
  eapply faultless_bind; [apply dispatch_annotator_faultless|done|]. intros. apply faultless_ret.
Qed.

Lemma annotate_all_faultless names done_ outputs staged :
  (∀ name, name ∈ names → step_ok name) → staged_ok point config target snapshot tool staged →
  (∀ k, k ∈ done_ → is_Some (bt_get k outputs)) →
  (∀ i name, names !! i = Some name → plan_needs plan name ⊆ done_ ++ take i names) →
  faultless blameless (annotate_all rt point config plan (pi (JObject [])) names (outputs, staged)
    : eff RuntimeError (JsonMap * option JsonValue)).
Proof.
  revert done_ outputs staged. induction names as [|name names IH];
    intros done_ outputs staged Hok Hst Hdone Hneeds; cbn [annotate_all]; [apply faultless_ret|].
  eapply faultless_bind.
  - apply spec_and; [|by apply (annotate_step_spec rt point config target snapshot tool plan)].
    apply annotate_step_faultless; [apply Hok; set_solver|done|].
    intros k Hk. apply Hdone. specialize (Hneeds O name eq_refl). rewrite app_nil_r in Hneeds. auto.
  - by intros ? ? [? _].
  - intros new [outputs' staged'] (_ & _ & Hst' & inv & input & output & _ & _ & ->).
    apply (IH (done_ ++ [name])); [set_solver|done| |].
    + intros k Hk. rewrite bt_get_insert. case_decide; [eauto|]. apply Hdone. set_solver.
    + intros i n Hi. rewrite <-app_assoc. exact (Hneeds (S i) n Hi).
Qed.
End at_point.

(** ** The evaluation of a constructed runtime *)

Lemma input_from_binding m annotator annotation :
  bt_get annotation_FROM (annotation_fields annotation) = None →
  input_from (from_annotation_in m annotator annotation) = Some (annotation_from annotation).
Proof.
  intros Hnone. unfold from_annotation_in. unfold from_annotation.
  unfold input_from. cbn [invocation_fields].
  set (fields := bt_extend _ (annotation_fields annotation)).
  assert (bt_get annotation_FROM fields = Some (JString (annotation_from annotation))) as Hget.
  { unfold fields. rewrite bt_get_extend.
    assert (bt_get annotation_FROM (reverse (annotation_fields annotation)) = None) as ->.
    { apply bt_get_None. apply bt_get_None in Hnone. unfold bt_keys in *.
      by rewrite fmap_reverse, elem_of_reverse. }
    by rewrite bt_get_insert, decide_True. }
  clearbody fields. destruct (annotation_chaining_enabled m); [|by rewrite Hget].
  rewrite bt_get_remove, decide_False by done. by rewrite Hget.
Qed.

Lemma prepare_input_blameless rt point snapshot :
  (∀ config, bt_get point (intervention_points (rt_manifest rt)) = Some config →
    point_ok (rt_manifest rt) point config) →
  errs blameless (prepare_input rt point snapshot).
Proof.
  intros Hok. unfold prepare_input.
  destruct (bt_get point (intervention_points (rt_manifest rt))) as [config|]; [|by apply errs_Err].
  cbn [ok_or mbind result_bind map_err].
  destruct (Hok config eq_refl) as [(p & -> & _) Htool _ _ _]. cbn [mbind result_bind map_err].
  apply errs_bind; [apply snapshot_blameless|]. intros _ _.
  apply errs_bind; [apply resolve_blameless|]. intros target _.
  apply errs_bind; [|intros; apply errs_Ok]. unfold project_tool.
  destruct (tool_name_from config) as [t|]; [|apply errs_Ok].
  destruct (Htool t eq_refl) as (-> & q & -> & _). cbn [negb mbind result_bind map_err].
  apply errs_bind; [apply resolve_blameless|]. intros v _. solve_errs.
Qed.

Definition blameless_failure (f : EvaluationFailure) : Prop := blameless (ef_error f).

Lemma errs_failure {A} (g : RuntimeError → EvaluationFailure) (r : result RuntimeError A) :
  (∀ e, ef_error (g e) = e) → errs blameless r → errs blameless_failure (map_err g r).
Proof.
  intros Hg Hr f (e & -> & ->)%map_err_Err. unfold blameless_failure. rewrite Hg. by apply Hr.
Qed.

Lemma policy_failing_faultless {A} point id config final (r : result RuntimeError A) :
  errs blameless r →
  spec (policy_failing point id config final r : eff EvaluationFailure A)
    (λ _ r', r' = map_err (failure_with final) r ∧ errs blameless_failure r').
Proof.
  intros Hr. eapply spec_weaken; [apply policy_failing_spec|].
  intros new r' [_ ->]. split; [done|]. by apply errs_failure.
Qed.

Lemma call_policy_faultless point id config final invocation rt start :
  faultless blameless_failure (map_error (failure_with final) (on_error (λ error,
      duration ← elapsed start;
      emit_policy_external_event rt point id config (Some (reason error)) duration ;;
      emit_policy_failed point id config error)
    (call_policy invocation)) : eff EvaluationFailure JsonValue).
Proof.
  eapply spec_map_error with (Q := λ _ r, errs blameless r);
    [|by intros; apply errs_failure].
  eapply spec_on_error with (Q := λ _ r, errs blameless r); [|done|].
  - intros s. unfold call_policy. destruct (policy_evaluate _ _) as [w outcome].
    eexists. split; [by destruct outcome as [[]|]|].
    destruct outcome as [[o|e]|payload]; [apply errs_Ok|by apply errs_Err|by apply errs_Err].
  - intros new e He. eapply spec_weaken; [|intros ? ? _; exact He].
    apply failed_call_spec; [intros; apply policy_external_spec|apply policy_failed_spec].
Qed.

Lemma prepare_blameless point binding config input :
  validate_policy_binding point binding config = Ok () →
  errs blameless (prepare_policy_invocation config binding input).
Proof.
  intros Hv. destruct (canonical_json input) as [text|e] eqn:Htext.
  - destruct (prepare_validated_binding point binding config input text Hv Htext) as (inv & -> & _).
    apply errs_Ok.
  - unfold prepare_policy_invocation, canonical_policy_input. rewrite Htext. cbn [map_err].
    unfold validate_policy_binding in Hv. destruct (blank (binding_id binding)); [done|].
    apply bind_Ok in Hv as ([] & _ & Hv).
    destruct config as [c|c|c|c]; try by apply errs_Err.
    apply bind_Ok in Hv as (source & _ & Hv).
    destruct (opt_or (binding_query binding) (rego_query c)); [by apply errs_Err|done].
Qed.

Lemma decide_policy_faultless rt point binding final :
  (∃ policy, bt_get (binding_id binding) (policies (rt_manifest rt)) = Some policy ∧
    validate_policy_binding point binding policy = Ok ()) →
  faultless blameless_failure (decide_policy rt point binding final : eff EvaluationFailure Verdict).
Proof.
  intros (policy & Hpolicy & Hv). unfold decide_policy. rewrite Hpolicy. cbn [ok_or].
  eapply faultless_bind with (Q := λ _ r, errs blameless_failure r); [|done|].
  { apply spec_lift, errs_failure; [done|apply depth_blameless]. }
  intros _ [] _. eapply faultless_bind with (Q := λ _ r, r = Ok policy); [by apply spec_lift| |].
  { by intros ? ? ->; apply errs_Ok. }
  intros _ ? [= ->].
  eapply faultless_bind; [by eapply policy_failing_faultless, prepare_blameless|by intros ? ? [_ ?]|].
  intros _ inv _. eapply faultless_bind; [apply now_spec|by intros ? [] [_ ?]|]. intros _ start _.
  eapply faultless_bind; [apply call_policy_faultless|done|]. intros _ output _.
  eapply faultless_bind; [apply elapsed_spec|by intros ? [] [_ ?]|]. intros _ duration _.
  eapply faultless_bind; [apply policy_external_spec|by intros ? ? [_ ->]; apply errs_Ok|].
  intros _ [] _.
  eapply faultless_bind; [apply policy_failing_faultless, output_limits_blameless|by intros ? ? [_ ?]|].
  intros _ [] _. eapply spec_weaken; [apply policy_failing_faultless, normalize_blameless|].
  by intros ? ? [_ ?].
Qed.

Lemma collect_annotations_faultless rt point config target snapshot tool plan :
  bt_get point (annotation_plans rt) = Some plan →
  (∀ name, name ∈ plan_order plan → step_ok rt config name) →
  (∀ i name, plan_order plan !! i = Some name → plan_needs plan name ⊆ take i (plan_order plan)) →
  faultless blameless (collect_annotations rt point config
    (policy_input_of point config target snapshot (JObject []) tool)).
Proof.
  intros Hplan Hok Hneeds. unfold collect_annotations. rewrite Hplan. cbn [ok_or].
  destruct (_ <? _)%N; [by apply spec_lift, errs_Err|].
  eapply faultless_bind with (Q := λ _ r, r = Ok plan); [by apply spec_lift| |].
  { by intros ? ? ->; apply errs_Ok. }
  intros _ ? [= ->].
  eapply faultless_bind with (Q := λ _ r, errs blameless r); [|done|intros; apply faultless_ret].
  apply annotate_all_faultless with (done_ := []); [done|by intros ? [=]|set_solver|done].
Qed.

Lemma evaluate_inner_faultless m perf limits rt point snapshot :
  manifest_wf m → runtime_new m perf limits = Ok rt →
  faultless blameless_failure (evaluate_inner rt point snapshot).
Proof.
  intros Hwf Hnew. destruct (runtime_new_Ok _ _ _ _ (mw_points _ Hwf) Hnew) as (Hv & Hm & Hplans).
  assert (∀ config, bt_get point (intervention_points (rt_manifest rt)) = Some config →
    point_ok (rt_manifest rt) point config) as Hpoint.
  { rewrite Hm. intros config Hc. apply validate_Ok in Hv as (_ & _ & _ & Hpoints & _).
    apply validate_point_config_Ok, Hpoints. by apply bt_get_Some_elem. }
  unfold evaluate_inner.
  eapply faultless_bind with (Q := λ _ r, r = map_err bare_failure (prepare_input rt point snapshot));
    [by apply spec_lift| |].
  { intros _ r ->. by apply errs_failure, prepare_input_blameless. }
  intros _ [[config target] tool] Hprep. symmetry in Hprep. apply map_err_Ok in Hprep.
  assert (bt_get point (intervention_points (rt_manifest rt)) = Some config) as Hc.
  { unfold prepare_input in Hprep. by destruct (bt_get point _); inv_ok. }
  pose proof (Hpoint config Hc) as Hok. rewrite Hm in Hc, Hok.
  destruct (Hplans point config Hc) as (plan & Hplan & Hpp).
  pose proof (bt_get_Some_elem _ _ _ Hc) as Hin.
  pose proof (mw_annotations _ Hwf _ _ Hin) as Hwa.
  destruct (plan_prepare_Ok _ _ _ _ Hwa Hpp) as [Horder Hneeds].
  destruct (validated_order m point config Hv Hin Hwa) as (order & Ho & Hperm & Hall).
  rewrite Horder in Ho. injection Ho as <-.
  eapply faultless_bind with (Q := λ _ r, errs blameless_failure r); [|done|].
  { apply spec_lift, errs_failure; [done|apply depth_blameless]. }
  intros _ [] _. eapply faultless_bind with (Q := λ _ r, errs blameless_failure r); [|done|].
  - eapply spec_map_error; [|by intros ? ?; apply errs_failure].
    eapply collect_annotations_faultless; [exact Hplan| |].
    + intros name (i & Hi)%list_elem_of_lookup_1.
      destruct (Hall i name Hi) as (a & annotator & p & Ha & Hann & Hp & _ & _).
      exists a, annotator, p. rewrite Hm. split_and!; try done. apply input_from_binding.
      apply (mw_from _ Hwf point config name); [done|by apply bt_get_Some_elem].
    + intros i name Hi. destruct (Hall i name Hi) as (a & annotator & p & Ha & Hann & Hp & Hn & _).
      destruct (validate_annotation_Ok _ _ _ _ _ (po_annotations _ _ _ Hok _ _ (bt_get_Some_elem _ _ _ Ha)))
        as (_ & _ & _ & needs & Hdeps & _).
      rewrite (Hneeds name a needs Ha Hdeps). by apply Hn.
  - intros _ annotations _.
    eapply faultless_bind with (Q := λ _ r, errs blameless_failure r); [|done|intros; apply faultless_ret].
    apply decide_policy_faultless. rewrite Hm. apply (po_policy _ _ _ Hok).
Qed.

(** C32: construction settles what evaluation relies on. A runtime that
    was built never denies for an invalid manifest, whatever the context
    and whatever the dispatchers do: every path of the point parses, the
    plan exists, every annotator it dispatches is declared and its needs
    have run, and the policy binding prepares. *)
Theorem constructed_never_blames m perf limits rt point snapshot s :
  manifest_wf m → runtime_new m perf limits = Ok rt →
  v_reason (er_verdict (evaluate_point rt point snapshot s).2) ≠ Some "runtime_error:manifest_invalid".
Proof.
  intros Hwf Hnew Hreason.
  pose proof (spec_and _ _ _ (evaluate_inner_faultless m perf limits rt point snapshot Hwf Hnew)
    (evaluate_inner_spec rt point snapshot)) as Hspec.
  destruct (Hspec s) as (new & _ & Herrs & _ & Hev). revert Hreason Herrs Hev. unfold evaluate_point.
  destruct (evaluate_inner rt point snapshot s) as [s1 [result|failure]]; cbn [fst snd];
    intros Hreason Herrs Hev.
  - inversion Hev as [| |config target tool plan ds outputs last verdict Hp Hpl Hd Hv Hcl Hres]; subst.
    destruct verdict as [v|]; [|done]. injection Hres as <-.
    destruct Hv as (inv & output & _ & _ & Hnorm).
    apply normalize_Ok in Hnorm as (_ & _ & _ & _ & _ & _ & _ & _ & _ & Hun & _).
    cbn [er_verdict] in Hreason. specialize (Hun _ Hreason). by inversion Hun.
  - specialize (Herrs failure eq_refl). unfold blameless_failure in Herrs.
    destruct (ef_error failure); cbn in Hreason; done.
Qed.
End constructed.

(** ** Samples *)

Section runtime_samples.
#[local] Existing Instance demo_hooks.
#[local] Existing Instance demo_hooks_laws.
#[local] Existing Instance demo_url.
#[local] Existing Instance demo_serde.
#[local] Existing Instance demo_sha.

Definition sample_run (output : CallOutcome) (limits : Limits) : result RuntimeError (list string * Verdict) :=
  rt ← runtime_new sample_manifest PerfOff limits;
  let (s, r) := @evaluate _ _ _ _ N (demo_host output) rt sample_context (mkRun 0%N []) in
  Ok (omap dispatch_name (trace s), er_verdict r).

Example sample_allowed :
  sample_run (Returned (Ok (JObject [("decision", JString "allow")]))) default_limits =
  Ok (["scan"; "summary"; "audit"], bare_verdict Allow).
Proof. vm_compute. reflexivity. Qed.

Example sample_panicked :
  (λ x, v_reason x.2) <$> sample_run (Panicked None) default_limits =
  Ok (Some "runtime_error:policy_invocation_failed").
Proof. vm_compute. reflexivity. Qed.

Lemma sample_manifest_wf : manifest_wf sample_manifest.
Proof.
  split.
  - repeat constructor.
  - intros point config Hin. cbn in Hin. apply list_elem_of_singleton in Hin as [= -> ->].
    apply sample_annotations_wf.
  - intros point config name a Hin Ha. cbn in Hin. apply list_elem_of_singleton in Hin as [= -> ->].
    cbn in Ha. repeat (apply elem_of_cons in Ha as [[= -> ->]|Ha]; [reflexivity|]).
    by apply not_elem_of_nil in Ha.
Qed.

Lemma constructed_never_blames_witness :
  ∃ rt, runtime_new sample_manifest PerfOff default_limits = Ok rt ∧
    v_reason (er_verdict (@evaluate_point _ _ _ _ N (demo_host (Panicked None)) rt Input
      sample_context (mkRun 0%N [])).2) ≠ Some "runtime_error:manifest_invalid".
Proof.
  eexists. split; [vm_compute; reflexivity|].
  apply (constructed_never_blames sample_manifest PerfOff default_limits); [apply sample_manifest_wf|].
  vm_compute. reflexivity.
Defined.
End runtime_samples.
