(* ===== verification/Wire.v ===== *)
(** * Wire shapes: [engine/src/wire.rs]

    The JSON every language binding answers with, and the two readers:
    limits and stream configurations. *)

From S2P Require Import Prelude OrdMap RustStd Json Errors AgentHooks Limits Stream Telemetry.

(** [json!({ ... })]: an object of named members. *)
Definition json_object (members : list (string * JsonValue)) : JsonValue :=
  JObject (bt_of_list members).
Definition json_u64 (n : N) : JsonValue := JNumber (PosInt n).
Definition json_option {A} (f : A → JsonValue) (o : option A) : JsonValue :=
  match o with Some a => f a | None => JNull end.
Definition json_strings (l : list string) : JsonValue := JArray (JString <$> l).

(** [json!] of a double: [null] unless it is finite. *)
Definition json_f64 (bits : N) : JsonValue :=
  if (N.land (N.shiftr bits 52) 2047 =? 2047)%N then JNull
  else JNumber (Float (if (bits =? 2 ^ 63)%N then 0%N else bits)).

(** ** Performance levels *)

Definition parse_perf_telemetry (value : string) : result RuntimeError PerfTelemetry :=
  if decide (value = "off") then Ok PerfOff
  else if decide (value = "external") then Ok PerfExternal
  else if decide (value = "full") then Ok PerfFull
  else Err (ManifestInvalid ("unknown perf telemetry level '" +:+ value +:+ "'")).

Definition perf_telemetry_str (level : PerfTelemetry) : string :=
  match level with PerfOff => "off" | PerfExternal => "external" | PerfFull => "full" end.

(** ** Limits *)

Definition LIMIT_FIELDS : list string :=
  ["max_snapshot_bytes"; "max_policy_input_depth"; "max_annotators_per_point";
   "max_annotator_output_bytes"; "max_policy_output_bytes"; "max_extends_depth";
   "max_merged_manifest_bytes"; "max_manifest_depth"; "max_manifest_nodes";
   "max_manifest_events"; "max_manifest_aliases"; "max_manifest_anchors";
   "max_manifest_anchor_events"; "max_manifest_url_bytes"; "manifest_url_timeout_ms";
   "max_manifest_url_redirects"].

(** The closure [read]. *)
Definition read_limit (fields : JsonMap) (key : string) : result RuntimeError (option N) :=
  match bt_get key fields with
  | None | Some JNull => Ok None
  | Some found =>
      n ← ok_or (as_u64 found) (ManifestInvalid (key +:+ " must be a non negative integer"));
      Ok (Some n)
  end.

(** The macro [apply!]: the field overridden, or as it was. *)
Definition apply_limit (fields : JsonMap) (key : string) (old : N) : result RuntimeError N :=
  found ← read_limit fields key; Ok (default old found).

Definition limits_from_json (value : JsonValue) : result RuntimeError Limits :=
  fields ← ok_or (as_object value) (ManifestInvalid "limits must be a JSON object");
  let d := default_limits in
  a ← apply_limit fields "max_snapshot_bytes" (max_snapshot_bytes d);
  b ← apply_limit fields "max_policy_input_depth" (max_policy_input_depth d);
  c ← apply_limit fields "max_annotators_per_point" (max_annotators_per_point d);
  e ← apply_limit fields "max_annotator_output_bytes" (max_annotator_output_bytes d);
  f ← apply_limit fields "max_policy_output_bytes" (max_policy_output_bytes d);
  g ← apply_limit fields "max_extends_depth" (max_extends_depth d);
  h ← apply_limit fields "max_merged_manifest_bytes" (max_merged_manifest_bytes d);
  i ← apply_limit fields "max_manifest_depth" (max_manifest_depth d);
  j ← apply_limit fields "max_manifest_nodes" (max_manifest_nodes d);
  k ← apply_limit fields "max_manifest_events" (max_manifest_events d);
  l ← apply_limit fields "max_manifest_aliases" (max_manifest_aliases d);
  m ← apply_limit fields "max_manifest_anchors" (max_manifest_anchors d);
  n ← apply_limit fields "max_manifest_anchor_events" (max_manifest_anchor_events d);
  o ← apply_limit fields "max_manifest_url_bytes" (max_manifest_url_bytes d);
  p ← apply_limit fields "manifest_url_timeout_ms" (manifest_url_timeout_ms d);
  q ← apply_limit fields "max_manifest_url_redirects" (max_manifest_url_redirects d);
  let unknown := filter (λ key, key ∉ LIMIT_FIELDS) (bt_keys fields) in
  if bool_decide (unknown = []) then Ok (mkLimits a b c e f g h i j k l m n o p q)
  else Err (ManifestInvalid ("unknown limit field(s): " +:+ join ", " unknown)).

(** The values of the fields in declaration order. *)
Definition limit_values (l : Limits) : list N :=
  [max_snapshot_bytes l; max_policy_input_depth l; max_annotators_per_point l;
   max_annotator_output_bytes l; max_policy_output_bytes l; max_extends_depth l;
   max_merged_manifest_bytes l; max_manifest_depth l; max_manifest_nodes l;
   max_manifest_events l; max_manifest_aliases l; max_manifest_anchors l;
   max_manifest_anchor_events l; max_manifest_url_bytes l; manifest_url_timeout_ms l;
   max_manifest_url_redirects l].

Definition limits_json (l : Limits) : JsonValue :=
  json_object (zip LIMIT_FIELDS (json_u64 <$> limit_values l)).

(** ** Diagnostics *)

Definition DIAGNOSTIC_FIELDS : list string :=
  ["agent_control_specification_version"; "policy_target_kind"; "policy_target"; "tool_name_from";
   "annotations"; "annotators"; "intervention_points"; "intervention point"; "extends"; "policies";
   "policy.id"; "approval"; "metadata"; "tools"].

(** Longest first; the sort is stable. *)
Definition diagnostic_field (message : string) : option string :=
  let ordered := sort_by (λ a b, (str_len b <? str_len a)%N) DIAGNOSTIC_FIELDS in
  find (λ field, str_contains field message) ordered.

Definition diagnostic_json (error : RuntimeError) : JsonValue :=
  let message := detail error in
  json_object [("code", JString (reason error)); ("message", JString message);
    ("severity", JString "error"); ("field", json_option JString (diagnostic_field message))].

Definition diagnostics_json (errors : list RuntimeError) : JsonValue :=
  JArray (diagnostic_json <$> errors).

(** ** Streams *)

Definition end_reason_json (r : StreamEndReason) : JsonValue :=
  let ended kind track task range := json_object
    [("kind", JString kind); ("track", JString (track_as_str track)); ("task", JString task);
     ("start", json_u64 (r_start range)); ("end", json_u64 (r_end range))] in
  match r with
  | EndComplete => json_object [("kind", JString "complete")]
  | EndDenied track task range => ended "denied" track task range
  | EndRewritten track task range => ended "rewritten" track task range
  | EndFailed error => json_object
      [("kind", JString "failed"); ("reason", JString (stream_error_reason error));
       ("message", JString (stream_error_to_string error))]
  end.

Definition watermark_json (track : StreamTrack) (mark : StreamWatermark) : JsonValue :=
  json_object [("track", JString (track_as_str track)); ("confirmed", json_u64 (wm_confirmed mark));
    ("received", json_u64 (wm_received mark)); ("pending", json_u64 (watermark_pending mark));
    ("tasks", json_strings (watermark_tasks mark))].

Definition completion_json (c : StreamCompletion) : JsonValue :=
  json_object [("reason", end_reason_json (c_reason c)); ("transformed", JBool (c_transformed c));
    ("is_clean", JBool (is_clean (c_reason c)))].

Definition stream_config_json (c : StreamSessionConfig) : JsonValue :=
  json_object [("safety_level", JString (safety_level_as_str (safety_level c)));
    ("request_start_rune_offset", json_u64 (request_start_rune_offset c));
    ("response_start_rune_offset", json_u64 (response_start_rune_offset c));
    ("request_tasks", json_strings (request_tasks c));
    ("response_tasks", json_strings (response_tasks c))].

Definition stream_session_state_json (s : StreamSession) : JsonValue :=
  json_object [("is_ended", JBool (is_ended s)); ("transformed", JBool (transformed s));
    ("end_reason", json_option end_reason_json (s_ended s));
    ("config", stream_config_json (s_config s))].

(** The closures [offset] and [tasks]. *)
Definition read_offset (fields : JsonMap) (key : string) : result StreamError N :=
  match bt_get key fields with
  | None | Some JNull => Ok 0%N
  | Some found =>
      ok_or (match as_u64 found with
             | Some n => if (n <=? u32_max)%N then Some n else None
             | None => None
             end) (UnknownSourceType (key +:+ " is not a rune offset"))
  end.

Definition read_tasks (fields : JsonMap) (key : string) : result StreamError (list string) :=
  match bt_get key fields with
  | None | Some JNull => Ok []
  | Some (JArray items) =>
      map_result (λ item, ok_or (as_str item)
        (UnknownSourceType (key +:+ " holds a non string task name"))) items
  | Some _ => Err (UnknownSourceType (key +:+ " is not an array of task names"))
  end.

Definition stream_config_from_json (value : JsonValue) : result StreamError StreamSessionConfig :=
  let fields := default [] (as_object value) in
  level ← safety_level_parse (default "blocking"
    (mbind (M := option) as_str (bt_get "safety_level" fields)));
  request_offset ← read_offset fields "request_start_rune_offset";
  response_offset ← read_offset fields "response_start_rune_offset";
  request ← read_tasks fields "request_tasks";
  response ← read_tasks fields "response_tasks";
  Ok (mkConfig level request_offset response_offset request response).

(** ** Telemetry *)

Definition enforcement_mode_str (mode : EnforcementMode) : string :=
  match mode with Enforce => "enforce" | EvaluateOnly => "evaluate_only" end.

Definition telemetry_event_json `{AgentHooks} (e : TelemetryEvent) : JsonValue :=
  json_object [("event_type", JString (event_type_as_str (e_type e)));
    ("intervention_point", JString (point_as_str (e_point e)));
    ("decision", json_option (λ d, JString (decision_as_str d)) (e_decision e));
    ("reason_code", json_option JString (e_reason_code e));
    ("error_class", json_option JString (e_error_class e));
    ("policy_id", json_option JString (e_policy_id e));
    ("annotators", json_strings (e_annotators e));
    ("enforcement_mode", json_option (λ m, JString (enforcement_mode_str m)) (e_enforcement_mode e));
    ("duration_ms", json_option json_f64 (e_duration_ms e));
    ("evidence_artefact", json_option JString (e_evidence_artefact e));
    ("evidence_verification_pointer_keys", json_strings (e_evidence_keys e));
    ("action_identity", json_option JString (e_action_identity e));
    ("metadata", JObject ((λ m, (m.1, JString m.2)) <$> e_metadata e))].

(** ** Theorems *)

Lemma perf_names_round_trip level : parse_perf_telemetry (perf_telemetry_str level) = Ok level.
Proof. by destruct level. Qed.

(** What a document says of one field: nothing, or a count. *)
Definition limit_stated (fields : JsonMap) (key : string) (old new : N) : Prop :=
  match bt_get key fields with
  | None | Some JNull => new = old
  | Some (JNumber (PosInt n)) => new = n
  | Some _ => False
  end.

Lemma apply_limit_Ok fields key old new :
  apply_limit fields key old = Ok new ↔ limit_stated fields key old new.
Proof.
  unfold apply_limit, read_limit, limit_stated.
  destruct (bt_get key fields) as [[| |[]| | |]|]; cbn; naive_solver.
Qed.

Lemma unknown_fields (fields : JsonMap) :
  filter (λ key, key ∉ LIMIT_FIELDS) (bt_keys fields) = [] ↔ bt_keys fields ⊆ LIMIT_FIELDS.
Proof.
  split.
  - intros Hf key Hk. destruct (decide (key ∈ LIMIT_FIELDS)) as [|Hn]; [done|].
    exfalso. apply (not_elem_of_nil key). rewrite <-Hf. by apply list_elem_of_filter.
  - intros Hsub. apply elem_of_nil_inv. intros key Hk%list_elem_of_filter.
    destruct Hk as [Hn Hk]. by apply Hn, Hsub.
Qed.

(** A host gets exactly the limits it asked for. The reader accepts an
    object whose members are all limits, each absent, null or a count, and
    the result has the stated count in each stated field and the default in
    every other; and writing limits and reading them back gives the same
    limits. *)
Theorem limits_read_exact fields l :
  (limits_from_json (JObject fields) = Ok l ↔
    bt_keys fields ⊆ LIMIT_FIELDS ∧
    Forall2 (λ e new, limit_stated fields e.1 e.2 new)
      (zip LIMIT_FIELDS (limit_values default_limits)) (limit_values l)) ∧
  limits_from_json (limits_json l) = Ok l.
Proof.
  split; [split|].
  - intros H. unfold limits_from_json in H. cbn [as_object ok_or mbind result_bind] in H.
    repeat (apply bind_Ok in H as (? & ?%apply_limit_Ok & H)).
    case_bool_decide as Hk; [|done]. injection H as <-. split.
    + by apply unknown_fields.
    + cbn [zip LIMIT_FIELDS limit_values zip_with fst snd].
      repeat (apply Forall2_cons; split; [assumption|]). constructor.
  - intros [Hk Hl]. destruct l. cbn [zip LIMIT_FIELDS limit_values zip_with] in Hl.
    unfold limits_from_json. cbn [as_object ok_or mbind result_bind].
    repeat (apply Forall2_cons in Hl as [?%apply_limit_Ok Hl]; cbn [fst snd] in * ).
    repeat match goal with H : apply_limit _ _ _ = Ok _ |- _ => rewrite H; clear H; cbn [mbind result_bind] end.
    rewrite bool_decide_true; [done|]. by apply unknown_fields.
  - destruct l. unfold limits_json, limits_from_json. reflexivity.
Qed.

Lemma read_offset_Ok fields key n :
  read_offset fields key = Ok n →
  (n <= u32_max)%N ∧ match bt_get key fields with
                     | None | Some JNull => n = 0%N
                     | Some v => v = json_u64 n
                     end.
Proof.
  unfold read_offset. destruct (bt_get key fields) as [[| |[m| |]| | |]|]; cbn; intros Hn; try discriminate Hn;
    try (injection Hn as <-; by split).
  destruct (N.leb_spec m u32_max); [|discriminate Hn]. by injection Hn as <-.
Qed.

Lemma read_offset_u64 fields key n :
  bt_get key fields = Some (json_u64 n) → (n <= u32_max)%N → read_offset fields key = Ok n.
Proof. intros Hg Hn. unfold read_offset. rewrite Hg. cbn. by rewrite (proj2 (N.leb_le _ _) Hn). Qed.

Lemma read_tasks_strings fields key l :
  bt_get key fields = Some (json_strings l) → read_tasks fields key = Ok l.
Proof.
  intros Hg. unfold read_tasks. rewrite Hg. cbn. by apply map_result_fmap.
Qed.

(** A stream configuration survives the wire, and nothing wider than
    the engine's offsets gets in. Writing a configuration of 32-bit offsets
    and reading it back gives the same configuration; every configuration
    the reader produces has 32-bit offsets; and a document that says
    nothing opens the strictest level, blocking, with no tasks, which no
    session accepts. *)
Theorem stream_config_wire c :
  (request_start_rune_offset c <= u32_max)%N → (response_start_rune_offset c <= u32_max)%N →
  stream_config_from_json (stream_config_json c) = Ok c ∧
  (∀ value c', stream_config_from_json value = Ok c' →
    (request_start_rune_offset c' <= u32_max)%N ∧ (response_start_rune_offset c' <= u32_max)%N ∧
    (as_object value = None ∨ as_object value = Some [] →
      safety_level c' = Blocking ∧ session_new c' = Err NoTracksMediated)).
Proof.
  intros Hreq Hresp. split.
  - destruct c as [level ro po rt pt]. unfold stream_config_from_json. cbn [stream_config_json].
    set (fields := default [] (as_object _)).
    rewrite (read_offset_u64 fields "request_start_rune_offset" ro) by done.
    rewrite (read_offset_u64 fields "response_start_rune_offset" po) by done.
    rewrite (read_tasks_strings fields "request_tasks" rt) by done.
    rewrite (read_tasks_strings fields "response_tasks" pt) by done.
    by destruct level.
  - intros value c' Hc. unfold stream_config_from_json in Hc.
    apply bind_Ok in Hc as (level & Hlevel & Hc). apply bind_Ok in Hc as (ro & Hro & Hc).
    apply bind_Ok in Hc as (po & Hpo & Hc). apply bind_Ok in Hc as (rt & Hrt & Hc).
    apply bind_Ok in Hc as (pt & Hpt & Hc). injection Hc as <-.
    apply read_offset_Ok in Hro as [Hro _]. apply read_offset_Ok in Hpo as [Hpo _].
    split_and!; [done|done|]. intros Hempty.
    assert (default [] (as_object value) = []) as Hf by (destruct Hempty as [-> | ->]; done).
    rewrite Hf in *. injection Hlevel as <-. injection Hrt as <-. by injection Hpt as <-.
Qed.

(** The field a diagnostic names is the longest the message contains. *)
Lemma diagnostic_longest message :
  match diagnostic_field message with
  | Some field => field ∈ DIAGNOSTIC_FIELDS ∧ str_contains field message = true ∧
      ∀ other, other ∈ DIAGNOSTIC_FIELDS → str_contains other message = true →
        (str_len other <= str_len field)%N
  | None => ∀ other, other ∈ DIAGNOSTIC_FIELDS → str_contains other message = false
  end.
Proof.
  unfold diagnostic_field.
  set (ordered := sort_by _ DIAGNOSTIC_FIELDS).
  assert (ordered ≡ₚ DIAGNOSTIC_FIELDS) as Hperm by apply sort_by_Permutation.
  assert (StronglySorted (λ a b, (str_len b <= str_len a)%N) ordered) as Hs.
  { subst ordered.
    match goal with |- context [sort_by ?f ?l] =>
      let v := eval vm_compute in (sort_by f l) in change (sort_by f l) with v end.
    repeat (apply SSorted_cons || apply SSorted_nil || apply Forall_cons_2 || apply Forall_nil_2);
      vm_compute; discriminate. }
  clearbody ordered.
  assert (∀ l, StronglySorted (λ a b, (str_len b <= str_len a)%N) l →
    match find (λ field, str_contains field message) l with
    | Some field => field ∈ l ∧ str_contains field message = true ∧
        ∀ other, other ∈ l → str_contains other message = true → (str_len other <= str_len field)%N
    | None => ∀ other, other ∈ l → str_contains other message = false
    end) as Hfind.
  { induction 1 as [|a l Hl IH Ha]; cbn; [set_solver|].
    destruct (str_contains a message) eqn:Hc.
    - split_and!; [set_solver|done|]. intros other [->|Ho]%elem_of_cons _; [done|].
      rewrite Forall_forall in Ha. by apply Ha.
    - destruct (find _ l) as [field|].
      + destruct IH as (? & ? & IH). split_and!; [set_solver|done|].
        intros other [->|Ho]%elem_of_cons Hco; [congruence|auto].
      + intros other [->|Ho]%elem_of_cons; [done|auto]. }
  specialize (Hfind ordered Hs). destruct (find _ ordered); setoid_rewrite Hperm in Hfind; exact Hfind.
Qed.

Lemma stream_config_wire_witness :
  stream_config_from_json (stream_config_json (mkConfig Deferred 0 7 [] ["pii"; "toxicity"])) =
  Ok (mkConfig Deferred 0 7 [] ["pii"; "toxicity"]).
Proof. apply stream_config_wire; vm_compute; discriminate. Defined.
