(* ===== verification/Activation.v ===== *)
(** * Activation: [engine/src/activation.rs], [interceptor.rs]

    A runtime readied point by point, the manifest built from memory, and
    the interceptor's inline path. *)

From S2P Require Import Prelude OrdMap RustStd Json Errors AgentHooks Constants Paths PolicyInput.
From S2P Require Import Limits Hex Pins Policy PolicyOutput Manifest ManifestMerge Loader Yaml.
From S2P Require Import Telemetry Runtime Cedar CedarBuiltin Workers Rego Binding.

(** [PolicyDispatcher::warm]; the default is [Ok]. *)
Class WarmHost (W : Type) := {
  policy_warm : W → PreparedPolicyInvocation → W * result RuntimeError () }.

Record ActivatedPolicy := mkActivated {
  activated_runtime : Runtime;
  activated_points : list InterceptionPoint }.

(** Where an interceptor's runtime came from. *)
Inductive RuntimeSource : Type :=
  | SourceOwned (rt : Runtime)
  | SourceActivated (policy : ActivatedPolicy).

Record AcsInterceptor := mkInterceptor {
  interceptor_source : RuntimeSource;
  interceptor_name : string }.

Definition source_runtime (source : RuntimeSource) : Runtime :=
  match source with
  | SourceOwned rt => rt
  | SourceActivated policy => activated_runtime policy
  end.

Definition interceptor_new (rt : Runtime) : AcsInterceptor := mkInterceptor (SourceOwned rt) "acs".
Definition from_activated (policy : ActivatedPolicy) : AcsInterceptor :=
  mkInterceptor (SourceActivated policy) "acs".
Definition with_name (i : AcsInterceptor) (name : string) : AcsInterceptor :=
  mkInterceptor (interceptor_source i) name.

Section activation.
Context `{AgentHooksLaws} `{UrlCrate} `{SerdeJson} `{Sha2}.

(** The warm-up invocations are recorded in a log. *)
Definition warming (W A : Type) : Type :=
  W * list PreparedPolicyInvocation → (W * list PreparedPolicyInvocation) * result RuntimeError A.

Definition warm_point `{WarmHost W} (rt : Runtime) (point : InterceptionPoint) : warming W () := λ s,
  match bt_get point (intervention_points (rt_manifest rt)) with
  | None => (s, Ok ())
  | Some config =>
      let binding := point_policy config in
      match bt_get (binding_id binding) (policies (rt_manifest rt)) with
      | None => (s, Ok ())
      | Some policy =>
          match prepare_policy_invocation policy binding (JObject []) with
          | Err e => (s, Err e)
          | Ok invocation =>
              let (w, r) := policy_warm s.1 invocation in ((w, s.2 ++ [invocation]), r)
          end
      end
  end.

(** The loop over the points. *)
Fixpoint warm_points `{WarmHost W} (rt : Runtime) (points : list InterceptionPoint)
  : warming W () := λ s,
  match points with
  | [] => (s, Ok ())
  | point :: points =>
      match warm_point rt point s with
      | (s, Ok ()) => warm_points rt points s
      | (s, Err e) => (s, Err e)
      end
  end.

Definition activate `{WarmHost W} (rt : Runtime) : warming W ActivatedPolicy := λ s,
  let points := bt_keys (intervention_points (rt_manifest rt)) in
  match warm_points rt points s with
  | (s, Ok ()) => (s, Ok (mkActivated rt points))
  | (s, Err e) => (s, Err e)
  end.

Definition governs (policy : ActivatedPolicy) (point : InterceptionPoint) : bool :=
  bool_decide (point ∈ activated_points policy).

Definition activated_evaluate `{Host W} (policy : ActivatedPolicy) (point : InterceptionPoint)
  (snapshot : JsonValue) (s : Run W) : Run W * EvaluationResult :=
  evaluate_point (activated_runtime policy) point snapshot s.

Definition activated_interceptor (policy : ActivatedPolicy) : AcsInterceptor := from_activated policy.

(** [intercept] on a thread with no tokio runtime: the context is an
    object, and the verdict of its evaluation is the answer. *)
Definition intercept `{Host W} (i : AcsInterceptor) (context : JsonMap) (s : Run W)
  : Run W * Verdict :=
  let (s, r) := evaluate (source_runtime (interceptor_source i)) (JObject context) s in
  (s, er_verdict r).

(** [manifest_from_memory] on the manifest [Manifest::parse_yaml_str]
    returned: attach the bundles, then refuse relative paths. *)
Definition manifest_from_memory (parsed : result RuntimeError Manifest)
  (bundles : btree string InMemoryRegoBundle) : result RuntimeError Manifest :=
  m ← parsed;
  m ← fold_result (λ m (e : string * InMemoryRegoBundle), set_rego_bundle_in_memory m e.1 e.2) m bundles;
  let unresolved := unresolved_relative_rego_paths m in
  if bool_decide (unresolved = []) then Ok m
  else
    let one := Nat.eqb (length unresolved) 1 in
    Err (ManifestInvalid ("activating from memory, but rego " +:+
      (if one then "policy" else "policies") +:+ " " +:+
      join ", " ((λ id, "'" +:+ id +:+ "'") <$> unresolved) +:+
      " still point at a relative bundle or data path, which has no manifest directory to resolve against. Supply modules for " +:+
      (if one then "it" else "them") +:+ ", or write the path as absolute")).

(** The constructors, each over the runtime it builds: [activate_with] and
    [activate_from_memory_with] for a host's dispatchers,
    [activate_manifest] and [activate_from_memory] for the default ones. *)
Section constructors.
Context `{ManifestFormats} `{WarmHost W}.

Definition activate_built (built : result RuntimeError Runtime) : warming W ActivatedPolicy := λ s,
  match built with Ok rt => activate rt s | Err e => (s, Err e) end.

Definition activate_with (m : Manifest) : warming W ActivatedPolicy :=
  activate_built (runtime_new m PerfOff default_limits).

Definition parsed_from_memory (manifest_yaml : string) (bundles : btree string InMemoryRegoBundle)
  : result RuntimeError Manifest :=
  manifest_from_memory (parse_yaml_str manifest_yaml) bundles.

Definition activate_from_memory_with_telemetry_perf_and_limits (manifest_yaml : string)
  (bundles : btree string InMemoryRegoBundle) (perf : PerfTelemetry) (limits : Limits)
  : warming W ActivatedPolicy :=
  activate_built (m ← parsed_from_memory manifest_yaml bundles; runtime_new m perf limits).

Definition activate_from_memory_with (manifest_yaml : string) (bundles : btree string InMemoryRegoBundle)
  : warming W ActivatedPolicy :=
  activate_from_memory_with_telemetry_perf_and_limits manifest_yaml bundles PerfOff default_limits.

(** [env] is the process environment the default dispatcher reads its
    settings from. *)
Definition activate_manifest (env : string → option string) (m : Manifest) : warming W ActivatedPolicy :=
  activate_built (default_policy_dispatcher env m ;; runtime_new m PerfOff default_limits).

Definition activate_from_memory (env : string → option string) (manifest_yaml : string)
  (bundles : btree string InMemoryRegoBundle) : warming W ActivatedPolicy := λ s,
  match parsed_from_memory manifest_yaml bundles with
  | Ok m => activate_manifest env m s
  | Err e => (s, Err e)
  end.

Definition activate_from_path `{LoaderHost W} (env : string → option string) (path : string)
  : warming W ActivatedPolicy := λ s,
  let (l, r) := from_path_with_limits path default_limits s.1 in
  match r with
  | Ok m => activate_manifest env m (load_world l, s.2)
  | Err e => ((load_world l, s.2), Err e)
  end.
End constructors.
End activation.
