(* ===== verification/ActivationFacts.v ===== *)
(** * Activation: the theorems

    What activation warms, and what the in-memory gate does and does not
    keep from reaching the working directory. *)

From S2P Require Import Prelude OrdMap RustStd Json Errors AgentHooks Concrete Constants Paths.
From S2P Require Import PolicyInput Limits Hex Pins Policy PolicyFacts PolicyOutput Manifest Samples.
From S2P Require Import DispatchFacts ManifestFacts MergeFacts Telemetry Runtime RuntimeFacts.
From S2P Require Import RuntimeSafety RuntimeSound Activation.

Section activation_facts.
Context `{AgentHooksLaws} `{UrlCrate} `{SerdeJson} `{Sha2}.

(** ** Warming *)

(** The warm-up invocation of a bound point: its own policy and binding,
    on an empty policy input. *)
Definition warm_invocation (m : Manifest) (config : InterventionPointConfig)
  (invocation : PreparedPolicyInvocation) : Prop :=
  ∃ policy, bt_get (binding_id (point_policy config)) (policies m) = Some policy ∧
    prepare_policy_invocation policy (point_policy config) (JObject []) = Ok invocation.

Lemma warm_point_spec `{WarmHost W} rt point config invocation (s : W * list PreparedPolicyInvocation) :
  bt_get point (intervention_points (rt_manifest rt)) = Some config →
  warm_invocation (rt_manifest rt) config invocation →
  warm_point rt point s =
    (((policy_warm s.1 invocation).1, s.2 ++ [invocation]), (policy_warm s.1 invocation).2).
Proof.
  intros Hc (policy & Hp & Hinv). unfold warm_point. rewrite Hc, Hp, Hinv.
  by destruct (policy_warm s.1 invocation).
Qed.

Lemma warm_points_spec `{WarmHost W} rt (points : btree InterceptionPoint InterventionPointConfig)
    invocations (s : W * list PreparedPolicyInvocation) :
  (∀ point config, (point, config) ∈ points →
    bt_get point (intervention_points (rt_manifest rt)) = Some config) →
  Forall2 (λ e invocation, warm_invocation (rt_manifest rt) e.2 invocation) points invocations →
  let '(s', r) := warm_points rt (bt_keys points) s in
  ∃ warmed, s'.2 = s.2 ++ warmed ∧ warmed `prefix_of` invocations ∧
    match r with
    | Ok () => warmed = invocations
    | Err e => ∃ w before invocation, warmed = before ++ [invocation] ∧
        (policy_warm w invocation).2 = Err e
    end.
Proof.
  intros Hget Hall. revert s. induction Hall as [|[point config] invocation points invocations Hinv _ IH];
    intros s; cbn [bt_keys warm_points fmap list_fmap fst].
  { exists []. by rewrite app_nil_r. }
  change (bt_keys ((point, config) :: points)) with (point :: bt_keys points). cbn [warm_points].
  rewrite (warm_point_spec rt point config invocation) by (done || (apply Hget; set_solver)).
  destruct (policy_warm s.1 invocation) as [w r] eqn:Hw. cbn [fst snd]. destruct r as [[]|e].
  - specialize (IH ltac:(set_solver) (w, s.2 ++ [invocation])).
    destruct (warm_points rt (bt_keys points) (w, s.2 ++ [invocation])) as [s' r].
    destruct IH as (warmed & Hs & Hp & Hr). cbn in Hs. exists (invocation :: warmed).
    split; [by rewrite Hs, <-app_assoc|]. split; [by apply prefix_cons|].
    destruct r as [[]|e]; [by subst|]. destruct Hr as (w' & before & inv & -> & He).
    by exists w', (invocation :: before), inv.
  - exists [invocation]. split; [done|]. split; [by apply prefix_cons, prefix_nil|].
    exists s.1, [], invocation. by rewrite Hw.
Qed.

(** Activation readies every bound point once, in manifest order,
    with the invocation of its own policy and binding on an empty input;
    it fails only with the error of the warm-up that stopped it, and an
    activated policy governs exactly the points its manifest binds. *)
Theorem activate_exact `{WarmHost W} m perf limits rt text (w : W) :
  bt_wf (intervention_points m) → runtime_new m perf limits = Ok rt →
  canonical_json (JObject []) = Ok text →
  ∃ invocations,
    Forall2 (λ e invocation, warm_invocation m e.2 invocation) (intervention_points m) invocations ∧
    let '(s, r) := activate rt (w, []) in
    s.2 `prefix_of` invocations ∧
    match r with
    | Ok policy => s.2 = invocations ∧ activated_runtime policy = rt ∧
        ∀ point, governs policy point = true ↔ is_Some (bt_get point (intervention_points m))
    | Err e => ∃ w before invocation, s.2 = before ++ [invocation] ∧
        (policy_warm w invocation).2 = Err e
    end.
Proof.
  intros Hwf Hnew Htext. destruct (runtime_new_Ok _ _ _ _ Hwf Hnew) as (Hv & Hm & _).
  assert (∃ invocations, Forall2 (λ e invocation, warm_invocation m e.2 invocation)
    (intervention_points m) invocations) as [invocations Hall].
  { apply Forall2_choice. intros [point config] Hin. cbn.
    apply validate_Ok in Hv as (_ & _ & _ & Hpoints & _).
    destruct (po_policy _ _ _ (validate_point_config_Ok _ _ _ (Hpoints _ _ Hin))) as (policy & Hp & Hb).
    destruct (prepare_validated_binding point _ _ _ _ Hb Htext) as (inv & Hinv & _).
    by exists inv, policy. }
  exists invocations. split; [done|]. unfold activate. rewrite Hm.
  assert (Hspec := warm_points_spec rt (intervention_points m) invocations (w, [])).
  rewrite Hm in Hspec.
  specialize (Hspec (λ point config Hin, bt_elem_get point config _ Hwf Hin) Hall).
  destruct (warm_points rt (bt_keys (intervention_points m)) (w, [])) as [s r].
  destruct Hspec as (warmed & Hs & Hp & Hr). cbn in Hs. subst warmed.
  destruct r as [[]|e]; [|by split]. split; [done|]. split; [done|]. split; [done|].
  intros point. unfold governs. cbn [activated_points].
  rewrite bool_decide_eq_true. rewrite <-bt_contains_keys. apply bt_contains_get.
Qed.

(** ** The data paths of a configuration *)

Lemma push_data_path_collect key acc path paths :
  push_data_path key path acc = Ok paths ↔
  ∃ own, push_data_path key path [] = Ok own ∧ paths = acc ++ own.
Proof. unfold push_data_path. destruct (blank path); naive_solver. Qed.

Lemma push_collect key acc v paths :
  push_adapter_data_paths key v acc = Ok paths ↔
  ∃ own, push_adapter_data_paths key v [] = Ok own ∧ paths = acc ++ own.
Proof.
  destruct v as [|b|n|path|items|o]; try (cbn; naive_solver).
  - cbn. split; [intros [= <-]; exists []|intros (own & [= <-] & ->)]; by rewrite app_nil_r.
  - apply push_data_path_collect.
  - cbn [push_adapter_data_paths]. set (f := λ paths item, _).
    assert (∀ acc x r, f acc x = Ok r ↔ ∃ own, f [] x = Ok own ∧ r = acc ++ own) as Hf.
    { intros a [] r; try naive_solver; apply push_data_path_collect. }
    rewrite (fold_result_collect f items acc paths Hf). split.
    + intros (each & Heach & ->). exists (mjoin each). split; [|done].
      apply (fold_result_collect f items [] _ Hf). by exists each.
    + intros (own & (each & Heach & ->)%(fold_result_collect f items [] _ Hf) & ->). by exists each.
Qed.

(** The paths one key of a configuration names. *)
Definition key_paths (config : adapter) (key : string) : result RuntimeError (list string) :=
  match bt_get key config with
  | Some v => push_adapter_data_paths key v []
  | None => Ok []
  end.

Lemma data_paths_keys config paths :
  rego_adapter_data_paths config = Ok paths ↔
  ∃ each, Forall2 (λ key own, key_paths config key = Ok own) DATA_PATH_KEYS each ∧ paths = mjoin each.
Proof.
  apply (fold_result_collect (λ paths key,
    match bt_get key config with
    | Some value => push_adapter_data_paths key value paths
    | None => Ok paths
    end) DATA_PATH_KEYS []).
  intros acc key r. destruct (bt_get key config); [apply push_collect|].
  split; [intros [= <-]; exists []|intros (own & [= <-] & ->)]; by rewrite app_nil_r.
Qed.

(** Paths that resolve against no directory. *)
Definition anchored (paths : list string) : Prop :=
  Forall (λ path, path_is_absolute path = true) paths.

(** A key of a merged configuration is a key of one of its sides. *)
Lemma merged_data_paths base overrides own_base own_over :
  NoDup (bt_keys overrides) →
  rego_adapter_data_paths base = Ok own_base → rego_adapter_data_paths overrides = Ok own_over →
  anchored own_base → anchored own_over →
  ∃ paths, rego_adapter_data_paths (merge_adapter_config base overrides) = Ok paths ∧ anchored paths.
Proof.
  intros Hnd Hb Ho Hab Hao. apply data_paths_keys in Hb as (eb & Hfb & ->).
  apply data_paths_keys in Ho as (eo & Hfo & ->). unfold anchored in *.
  assert (∃ each, Forall2 (λ key ps, key_paths (merge_adapter_config base overrides) key = Ok ps ∧
    Forall (λ path, path_is_absolute path = true) ps) DATA_PATH_KEYS each) as [each Hf].
  { apply Forall2_choice. intros key Hkey. apply list_elem_of_lookup_1 in Hkey as [i Hi].
    destruct (Forall2_lookup_l _ _ _ _ _ Hfb Hi) as (pb & Hib & Hpb).
    destruct (Forall2_lookup_l _ _ _ _ _ Hfo Hi) as (po & Hio & Hpo).
    apply list_elem_of_lookup_2 in Hib, Hio. unfold key_paths, merge_adapter_config in *.
    rewrite Forall_forall in Hab, Hao. setoid_rewrite Forall_forall.
    rewrite bt_get_extend, bt_get_reverse by done. destruct (bt_get key overrides).
    - exists po. split; [done|]. intros p Hp. apply Hao, list_elem_of_join. eauto.
    - exists pb. split; [done|]. intros p Hp. apply Hab, list_elem_of_join. eauto. }
  exists (mjoin each). split.
  - apply data_paths_keys. exists each. split; [|done]. eapply Forall2_impl; [exact Hf|]. by intros ?? [].
  - apply Forall_forall. intros p Hp. apply list_elem_of_join in Hp as (ps & Hps & Hin).
    apply list_elem_of_lookup_1 in Hin as [i Hi]. eapply Forall2_lookup_r in Hf as (key & _ & _ & Hall); [|exact Hi].
    by eapply Forall_forall in Hall.
Qed.

(** ** The in-memory gate *)

Lemma relative_data_anchored config paths :
  relative_data config = false → rego_adapter_data_paths config = Ok paths → anchored paths.
Proof.
  unfold relative_data. intros Hrel Hp. rewrite Hp in Hrel. apply Forall_forall. intros p Hin.
  destruct (path_is_absolute p) eqn:Ha; [done|]. exfalso.
  assert (existsb path_is_relative paths = true) as Hc; [|by rewrite Hrel in Hc].
  apply existsb_exists. exists p. split; [by apply list_elem_of_In|]. unfold path_is_relative. by rewrite Ha.
Qed.

Lemma relative_path_anchored value path :
  relative value = false → value = Some path → path = "" ∨ path_is_absolute path = true.
Proof.
  intros Hrel ->. unfold relative, path_is_relative in Hrel.
  destruct path; [by left|right]. by apply negb_false_iff in Hrel.
Qed.

(** What the gate read of one policy and of one binding. *)
Lemma unresolved_nil m :
  unresolved_relative_rego_paths m = [] →
  (∀ id c, (id, PolicyRego c) ∈ policies m →
    relative (rego_bundle c) = false ∧ relative_data (rego_adapter_config c) = false) ∧
  (∀ point config c, (point, config) ∈ intervention_points m →
    bt_get (binding_id (point_policy config)) (policies m) = Some (PolicyRego c) →
    relative_data (binding_adapter_config (point_policy config)) = false).
Proof.
  intros Hnil. assert (∀ id, id ∉ unresolved_relative_rego_paths m) as Hno by (rewrite Hnil; set_solver).
  clear Hnil. unfold unresolved_relative_rego_paths in Hno. setoid_rewrite elem_of_dedup in Hno.
  unfold sort_strings in Hno. setoid_rewrite sort_by_Permutation in Hno.
  set (step := λ ids (e : InterceptionPoint * InterventionPointConfig), _) in Hno.
  assert (∀ points ids x, x ∈ ids → x ∈ fold_left step points ids) as Hmono.
  { induction points as [|e points IH]; intros l x Hx; cbn; [done|]. apply IH. unfold step.
    destruct (_ && _); set_solver. }
  split.
  - intros id c Hin. apply orb_false_elim. apply not_true_is_false. intros Hor.
    apply (Hno id), Hmono, list_elem_of_omap. exists (id, PolicyRego c). split; [done|]. cbn. by rewrite Hor.
  - intros point config c Hin Hc. apply not_true_is_false. intros Hrel.
    apply (Hno (binding_id (point_policy config))).
    assert (∀ points ids, (point, config) ∈ points →
      binding_id (point_policy config) ∈ fold_left step points ids) as Hl; [|by apply Hl].
    induction points as [|e points IH]; intros l; [set_solver|].
    intros [<-|Hin']%elem_of_cons; [|by apply IH]. cbn [fold_left]. apply Hmono. unfold step. cbn.
    rewrite Hc, Hrel. cbn. case_bool_decide; cbn; set_solver.
Qed.

(** ** Attaching the bundles *)

Lemma attach_one m id bundle m' :
  set_rego_bundle_in_memory m id bundle = Ok m' →
  ∃ c, bt_get id (policies m) = Some (PolicyRego c) ∧
    m' = with_policies m (bt_insert id (PolicyRego (mkRego (rego_query c) None (Some bundle)
      (bt_remove "bundle_url" (rego_adapter_config c)))) (policies m)).
Proof.
  unfold set_rego_bundle_in_memory. destruct (bt_get id (policies m)) as [[c|c|c|c]|]; cbn; try done.
  intros Hs. apply bind_Ok in Hs as ([] & _ & [= <-]). by exists c.
Qed.

(** The policy a bundle was attached to: nothing but the modules is read. *)
Definition in_memory (bundle : InMemoryRegoBundle) (policy : option PolicyConfig) : Prop :=
  ∃ c, policy = Some (PolicyRego c) ∧ rego_bundle c = None ∧ rego_inline_bundle c = Some bundle ∧
    bt_get "bundle_url" (rego_adapter_config c) = None.

Lemma attach_all bundles m m' :
  NoDup (bt_keys bundles) →
  fold_result (λ m (e : string * InMemoryRegoBundle), set_rego_bundle_in_memory m e.1 e.2) m bundles = Ok m' →
  m' = with_policies m (policies m') ∧
  ∀ id, match bt_get id bundles with
        | Some bundle => in_memory bundle (bt_get id (policies m'))
        | None => bt_get id (policies m') = bt_get id (policies m)
        end.
Proof.
  intros Hnd. revert m. induction bundles as [|[id bundle] bundles IH]; intros m; cbn [fold_result fst snd].
  { intros [= <-]. by destruct m. }
  apply NoDup_cons in Hnd as [Hfresh Hnd]. intros (m1 & Hone & Hrest)%bind_Ok.
  apply attach_one in Hone as (c & Hc & ->). apply IH in Hrest as [Hm Hget]; [|done].
  split; [done|]. intros id'. specialize (Hget id'). cbn [bt_get]. cbn [policies with_policies] in Hget.
  rewrite bt_get_insert in Hget. case_decide; [|done]. subst id'.
  cbn in Hfresh. apply bt_get_None in Hfresh. rewrite Hfresh in Hget. rewrite Hget. eexists. split; [done|]. cbn.
  split_and!; [done|done|]. by rewrite bt_get_remove, decide_True.
Qed.

(** A manifest built from memory reads what the host supplied. Every
    supplied bundle becomes the only module source of its policy and no
    other policy changes; and for every point bound to a Rego policy, the
    policy's own bundle path is absent, empty or absolute, and so is every
    data path its prepared invocation hands the evaluator, provided the
    data paths of the policy and of the binding are each well formed. *)
Theorem memory_gate m0 bundles m :
  NoDup (bt_keys bundles) →
  manifest_from_memory (Ok m0) bundles = Ok m →
  m = with_policies m0 (policies m) ∧
  (∀ id, match bt_get id bundles with
         | Some bundle => in_memory bundle (bt_get id (policies m))
         | None => bt_get id (policies m) = bt_get id (policies m0)
         end) ∧
  ∀ point config c own over input invocation,
    (point, config) ∈ intervention_points m →
    bt_get (binding_id (point_policy config)) (policies m) = Some (PolicyRego c) →
    NoDup (bt_keys (binding_adapter_config (point_policy config))) →
    rego_adapter_data_paths (rego_adapter_config c) = Ok own →
    rego_adapter_data_paths (binding_adapter_config (point_policy config)) = Ok over →
    prepare_policy_invocation (PolicyRego c) (point_policy config) input = Ok (PreparedRego invocation) →
    (∀ path, ri_bundle invocation = Some path → path = "" ∨ path_is_absolute path = true) ∧
    ∃ paths, rego_adapter_data_paths (ri_adapter_config invocation) = Ok paths ∧ anchored paths.
Proof.
  intros Hnd Hm. unfold manifest_from_memory in Hm. cbn [mbind result_bind] in Hm.
  apply bind_Ok in Hm as (m1 & Hattach & Hm). case_bool_decide as Hnil; [|done]. injection Hm as ->.
  apply attach_all in Hattach as [Hsame Hget]; [|done]. split; [done|]. split; [done|].
  apply unresolved_nil in Hnil as [Hpol Hbind].
  intros point config c own over input invocation Hin Hc Hndb Hown Hover Hprep.
  destruct (Hpol _ _ (bt_get_Some_elem _ _ _ Hc)) as [Hbundle Hdata].
  apply bind_Ok in Hprep as (query & _ & Hprep). apply bind_Ok in Hprep as (text & _ & Hprep).
  apply bind_Ok in Hprep as (source & _ & [= <-]). cbn. split.
  - intros path Hpath. by eapply relative_path_anchored.
  - eapply merged_data_paths; [done|exact Hown|exact Hover| |].
    + by eapply relative_data_anchored.
    + eapply relative_data_anchored; [|exact Hover]. by eapply Hbind.
Qed.
End activation_facts.

(** ** Samples *)

Section activation_samples.
#[local] Existing Instance demo_hooks.
#[local] Existing Instance demo_hooks_laws.
#[local] Existing Instance demo_url.
#[local] Existing Instance demo_serde.
#[local] Existing Instance demo_sha.

(** A dispatcher with nothing to warm. *)
Definition demo_warm : WarmHost unit := {| policy_warm w _ := (w, Ok ()) |}.
#[local] Existing Instance demo_warm.

Lemma activate_exact_witness :
  ∃ invocations,
    Forall2 (λ e invocation, warm_invocation sample_manifest e.2 invocation)
      (intervention_points sample_manifest) invocations ∧
    let '(s, r) := activate sample_runtime (tt, []) in
    s.2 `prefix_of` invocations ∧
    match r with
    | Ok policy => s.2 = invocations ∧ activated_runtime policy = sample_runtime ∧
        ∀ point, governs policy point = true ↔ is_Some (bt_get point (intervention_points sample_manifest))
    | Err e => ∃ w before invocation, s.2 = before ++ [invocation] ∧
        (policy_warm w invocation).2 = Err e
    end.
Proof.
  eapply (activate_exact sample_manifest PerfFull default_limits
    sample_runtime _ tt).
  - repeat constructor.
  - vm_compute. reflexivity.
  - vm_compute. reflexivity.
Defined.

(** A manifest with one Rego policy whose data document is absolute, and
    modules for it. *)
Definition memory_binding (config : adapter) : InterventionPointConfig :=
  mkPoint "$snap" None None [] (mkBinding "rules" None config).

Definition memory_manifest (own over : adapter) : Manifest :=
  mkManifest "0.5.0-alpha.1" [] []
    [("rules", PolicyRego (mkRego (Some "data.acs.decision") (Some "rules/") None own))]
    [(Input, memory_binding over)] [] [] None [] ∅ ∅ CompositionDocument.

Definition memory_modules : InMemoryRegoBundle := mkBundle [("a.rego", "package acs")] [] "00".

Lemma memory_gate_witness :
  ∃ m, manifest_from_memory (Ok (memory_manifest [("data", JString "/abs.json")] []))
         [("rules", memory_modules)] = Ok m ∧
    in_memory memory_modules (bt_get "rules" (policies m)).
Proof.
  destruct (manifest_from_memory (Ok (memory_manifest [("data", JString "/abs.json")] []))
    [("rules", memory_modules)]) as [m|e] eqn:Hm; [|by vm_compute in Hm].
  exists m. split; [done|].
  destruct (memory_gate _ _ _ (NoDup_singleton "rules" : NoDup (bt_keys [("rules", memory_modules)])) Hm)
    as (_ & Hget & _).
  exact (Hget "rules").
Defined.

(** What the in-memory gate lets through. It ignores a malformed data
    path, expecting the preparation to report it; but the merge of a
    binding's settings over a policy's replaces the malformed key and
    keeps the others, so a manifest passes the gate and validation, its
    invocation prepares, and the evaluator is handed a relative data
    path. *)
Theorem memory_gate_gap :
  ∃ m config c invocation,
    manifest_from_memory
      (Ok (memory_manifest [("data", JNumber (PosInt 5)); ("data_paths", JString "rel.json")]
            [("data", JString "/abs.json")])) [("rules", memory_modules)] = Ok m ∧
    validate m = Ok () ∧
    bt_get Input (intervention_points m) = Some config ∧
    bt_get "rules" (policies m) = Some (PolicyRego c) ∧
    prepare_policy_invocation (PolicyRego c) (point_policy config) (JObject []) = Ok (PreparedRego invocation) ∧
    rego_adapter_data_paths (ri_adapter_config invocation) = Ok ["/abs.json"; "rel.json"].
Proof.
  do 4 eexists. split; [vm_compute; reflexivity|]. split; [vm_compute; reflexivity|].
  split; [vm_compute; reflexivity|]. split; [vm_compute; reflexivity|].
  split; [vm_compute; reflexivity|]. vm_compute. reflexivity.
Qed.
End activation_samples.

(** ** Readying a policy keeps what its host's [warm] keeps *)

Section warming.
Context `{AgentHooksLaws} `{UrlCrate} `{SerdeJson} `{Sha2} `{WarmHost W}.
Context (R : W → W → Prop) `{!PreOrder R}.
Context (keeps_warm : ∀ w invocation, R w (policy_warm w invocation).1).

Lemma warm_point_keeps rt point s : R s.1 (warm_point rt point s).1.1.
Proof.
  unfold warm_point. destruct (bt_get point _) as [config|]; [|reflexivity]. cbn zeta.
  destruct (bt_get _ _) as [policy|]; [|reflexivity].
  destruct (prepare_policy_invocation _ _ _) as [invocation|]; [|reflexivity].
  pose proof (keeps_warm s.1 invocation) as Hk. by destruct (policy_warm s.1 invocation).
Qed.

Lemma warm_points_keeps rt points s : R s.1 (warm_points rt points s).1.1.
Proof.
  revert s. induction points as [|point points IH]; intros s; [reflexivity|]. cbn.
  pose proof (warm_point_keeps rt point s) as Hp. destruct (warm_point rt point s) as [s1 [[]|e]]; cbn in *; [|done].
  etrans; [exact Hp|apply IH].
Qed.

Lemma activate_keeps rt s : R s.1 (activate rt s).1.1.
Proof.
  unfold activate. pose proof (warm_points_keeps rt (bt_keys (intervention_points (rt_manifest rt))) s) as Hp.
  by destruct (warm_points _ _ s) as [s1 [[]|e]].
Qed.

Lemma activate_built_keeps built s : R s.1 (activate_built built s).1.1.
Proof. destruct built as [rt|e]; [apply activate_keeps|reflexivity]. Qed.
End warming.
