(* ===== verification/Interceptor.v ===== *)
(** * The interceptor's worker path: [engine/src/interceptor.rs]

    With the [tokio] feature [evaluate_snapshot] is a future. Polled on a
    thread with a runtime, it hands the evaluation to a blocking worker and
    waits for it; otherwise it evaluates where it is. The emitter may drop
    the future when its own timeout fires, and the runtime may shut down
    before a worker took the task. *)

From S2P Require Import Prelude OrdMap RustStd Json Errors AgentHooks Constants Paths PolicyInput Concrete.
From S2P Require Import Limits Hex Pins Policy PolicyOutput Manifest Samples Telemetry Runtime Activation.

(** What an evaluation ends with: its verdict, or a panic that unwinds with
    its payload, if that is a string. *)
Inductive Evaluated : Type :=
  | Answered (verdict : Verdict)
  | Unwound (payload : option string).

(** Which evaluations panic, and what they leave. Dispatcher panics are
    caught by the engine and are not among them. *)
Class EngineFaults (W : Type) := {
  evaluation_panics : Runtime → JsonValue → Run W → option (Run W * option string) }.

(** [tokio::runtime::Handle::try_current]. *)
Class Tokio (W : Type) := { try_current : W → bool }.

Definition WORKER_CANCELLED : string := "ACS evaluation worker was cancelled by runtime shutdown".

(** [RuntimeSource::runtime]; [shared_runtime] is the same runtime. *)
Definition interceptor_runtime (i : AcsInterceptor) : Runtime := source_runtime (interceptor_source i).
(** [Interceptor::name]. *)
Definition intercept_name (i : AcsInterceptor) : option string := Some (interceptor_name i).

Section interceptor.
Context `{AgentHooksLaws} `{UrlCrate} `{SerdeJson} `{Sha2} {W : Type} (host : Host W).
Context `{EngineFaults W} `{Tokio W}.

(** [runtime.evaluate(&snapshot).verdict]. *)
Definition engine_call (rt : Runtime) (snapshot : JsonValue) (s : Run W) : Run W * Evaluated :=
  match evaluation_panics rt snapshot s with
  | Some (s, payload) => (s, Unwound payload)
  | None => let (s, r) := evaluate (H4 := host) rt snapshot s in (s, Answered (er_verdict r))
  end.

(** The task given to [spawn_blocking]. *)
Inductive Task : Type :=
  | Queued
  | Finished (outcome : Evaluated)
  | Cancelled.

(** The future [intercept] returns. *)
Inductive InterceptFuture : Type :=
  | Unpolled
  | OnWorker                        (** at [.await] *)
  | Ready (outcome : Evaluated)
  | Dropped.

Record Emission := mkEmission {
  em_future : InterceptFuture;
  em_task : option Task;
  em_run : Run W }.

Definition intercept_start (s : Run W) : Emission := mkEmission Unpolled None s.

(** The [match] on the joined task. *)
Definition join_outcome (task : option Task) : option Evaluated :=
  match task with
  | Some (Finished outcome) => Some outcome
  | Some Cancelled => Some (Unwound (Some WORKER_CANCELLED))
  | _ => None
  end.

Inductive EmissionEvent : Type :=
  | EvPoll                          (** the emitter polls the future *)
  | EvWorker                        (** a blocking thread runs the task *)
  | EvShutdown                      (** the runtime drops the queued task *)
  | EvDrop.                         (** the emitter drops the future *)

(** [evaluate_snapshot] and what happens around it, an event at a time;
    [None] where the event cannot happen. *)
Definition emission_step (i : AcsInterceptor) (snapshot : JsonValue) (e : EmissionEvent) (m : Emission)
  : option Emission :=
  match e with
  | EvPoll =>
      match em_future m with
      | Unpolled =>
          if try_current (world (em_run m)) then Some (mkEmission OnWorker (Some Queued) (em_run m))
          else
            let (s, outcome) := engine_call (interceptor_runtime i) snapshot (em_run m) in
            Some (mkEmission (Ready outcome) None s)
      | OnWorker =>
          match join_outcome (em_task m) with
          | Some outcome => Some (mkEmission (Ready outcome) (em_task m) (em_run m))
          | None => Some m
          end
      | _ => None
      end
  | EvWorker =>
      match em_task m with
      | Some Queued =>
          let (s, outcome) := engine_call (interceptor_runtime i) snapshot (em_run m) in
          Some (mkEmission (em_future m) (Some (Finished outcome)) s)
      | _ => None
      end
  | EvShutdown =>
      match em_task m with
      | Some Queued => Some (mkEmission (em_future m) (Some Cancelled) (em_run m))
      | _ => None
      end
  | EvDrop =>
      match em_future m with
      | Unpolled | OnWorker => Some (mkEmission Dropped (em_task m) (em_run m))
      | _ => None
      end
  end.

(** A schedule, where every event can happen. *)
Fixpoint emission_run (i : AcsInterceptor) (snapshot : JsonValue) (es : list EmissionEvent) (m : Emission)
  : option Emission :=
  match es with
  | [] => Some m
  | e :: es => m ← emission_step i snapshot e m; emission_run i snapshot es m
  end.

(** [intercept]: the context is the object the future evaluates. *)
Definition intercept_run (i : AcsInterceptor) (context : JsonMap) (es : list EmissionEvent) (s : Run W)
  : option Emission := emission_run i (JObject context) es (intercept_start s).

(** The future has an answer or nobody waits for it. *)
Definition emission_over (m : Emission) : bool :=
  match em_future m with Ready _ | Dropped => true | _ => false end.

(** ** Facts *)

Section facts.
Context (i : AcsInterceptor) (snapshot : JsonValue) (s0 : Run W).
Notation inline := (engine_call (interceptor_runtime i) snapshot s0).

(** Where an emission started in [s0] can be: the evaluation has not run,
    or it has run once, whole, from [s0]. *)
Record emission_ok (m : Emission) : Prop := {
  ok_effect : em_run m = s0 ∨ em_run m = inline.1;
  ok_task : match em_task m with
            | Some (Finished outcome) => outcome = inline.2 ∧ em_run m = inline.1
            | Some _ => em_run m = s0 ∧ try_current (world s0) = true
            | None => match em_future m with Unpolled | Dropped => em_run m = s0 | _ => True end
            end;
  ok_future : match em_future m with
              | Ready outcome =>
                  outcome = inline.2 ∧ em_run m = inline.1 ∨
                  outcome = Unwound (Some WORKER_CANCELLED) ∧ em_task m = Some Cancelled
              | OnWorker => is_Some (em_task m)
              | Unpolled => em_task m = None
              | Dropped => True
              end }.

Lemma emission_start_ok : emission_ok (intercept_start s0).
Proof. split; cbn; auto. Qed.

Lemma emission_step_ok e m m' :
  emission_ok m → emission_step i snapshot e m = Some m' → emission_ok m'.
Proof.
  destruct m as [future task run]. intros [Heff Htask Hfuture] Hstep. cbn in *. destruct e; cbn in Hstep.
  - destruct future as [| |outcome|]; try done.
    + subst task. cbn in Htask. subst run. destruct (try_current (world s0)) eqn:Hcurrent.
      * injection Hstep as <-. split; cbn; auto.
      * destruct inline as [s outcome] eqn:Hinline. injection Hstep as <-. split; cbn; rewrite ?Hinline; auto.
    + destruct (join_outcome task) as [outcome|] eqn:Hjoin; injection Hstep as <-; [|by split].
      split; cbn; [done|by destruct task as [[]|]|]. destruct task as [[|done|]|]; try done; cbn in Hjoin; simplify_eq; auto.
  - destruct task as [[| |]|]; try done. destruct Htask as [-> Hcurrent].
    destruct inline as [s outcome] eqn:Hinline. injection Hstep as <-. split; cbn; rewrite ?Hinline; auto.
    destruct future as [| |[]|]; try done; naive_solver.
  - destruct task as [[| |]|]; try done. injection Hstep as <-. split; cbn; auto.
    destruct future as [| |[]|]; try done; naive_solver.
  - destruct future as [| |outcome|]; try done; injection Hstep as <-; split; cbn; try done.
    by destruct task as [[]|].
Qed.

Lemma emission_run_ok es m m' :
  emission_ok m → emission_run i snapshot es m = Some m' → emission_ok m'.
Proof.
  revert m. induction es as [|e es IH]; intros m Hm; cbn; [by intros [= <-]|].
  destruct (emission_step i snapshot e m) as [m1|] eqn:Hstep; [|done]. cbn. apply IH. by eapply emission_step_ok.
Qed.
End facts.

(** C33: Handing an evaluation to a worker changes no answer: in whatever order the emitter polls, drops the
    future, a worker runs the task or the runtime shuts down, the engine runs the evaluation at most once and
    as a whole, also after the future was dropped, and an answered future has exactly the verdict or the panic
    the inline evaluation of that context has, or the panic of a task that the shutdown cancelled before the
    evaluation began. *)
Theorem worker_answers_as_inline i context es s m :
  intercept_run i context es s = Some m →
  let inline := engine_call (interceptor_runtime i) (JObject context) s in
  (em_run m = s ∨ em_run m = inline.1) ∧
  (∀ outcome, em_future m = Ready outcome →
    outcome = inline.2 ∧ em_run m = inline.1 ∨
    outcome = Unwound (Some WORKER_CANCELLED) ∧ em_task m = Some Cancelled ∧ em_run m = s) ∧
  (∀ outcome, em_task m = Some (Finished outcome) → outcome = inline.2 ∧ em_run m = inline.1).
Proof.
  intros Hrun inline. pose proof (emission_run_ok i (JObject context) s es _ m (emission_start_ok _ _ _) Hrun) as [He Ht Hf].
  split_and!; [exact He|..].
  - intros outcome Hready. rewrite Hready in Hf. destruct Hf as [Hf|[-> Hcancelled]]; [by left|right].
    rewrite Hcancelled in Ht. split_and!; [done..|apply Ht].
  - intros outcome Hdone. by rewrite Hdone in Ht.
Qed.

(** As long as nobody has cancelled the task or dropped the future, at most
    three events answer it: polling, the worker, polling. *)
Theorem intercept_completes i context es s m :
  intercept_run i context es s = Some m → emission_over m = false → em_task m ≠ Some Cancelled →
  ∃ more m', (length more ≤ 3)%nat ∧ EvDrop ∉ more ∧ EvShutdown ∉ more ∧
    emission_run i (JObject context) more m = Some m' ∧
    em_future m' = Ready (engine_call (interceptor_runtime i) (JObject context) s).2.
Proof.
  intros Hrun Hover Hcancelled.
  pose proof (emission_run_ok i (JObject context) s es _ m (emission_start_ok _ _ _) Hrun) as [_ Ht Hf].
  destruct m as [future task run]. cbn in *. destruct future as [| |outcome|]; try done.
  - subst task. cbn in Ht. subst run. destruct (try_current (world s)) eqn:Hcurrent.
    + exists [EvPoll; EvWorker; EvPoll]. cbn. rewrite Hcurrent. cbn.
      destruct (engine_call _ _ s) as [s' outcome] eqn:Hcall. cbn. eexists.
      split_and!; [lia|set_solver..|reflexivity|done].
    + exists [EvPoll]. cbn. rewrite Hcurrent. destruct (engine_call _ _ s) as [s' outcome] eqn:Hcall. cbn. eexists.
      split_and!; [lia|set_solver..|reflexivity|done].
  - destruct task as [[|outcome|]|]; [..|done|by destruct Hf].
    + destruct Ht as [-> _]. exists [EvWorker; EvPoll]. cbn. destruct (engine_call _ _ s) as [s' outcome]. cbn. eexists.
      split_and!; [lia|set_solver..|reflexivity|done].
    + destruct Ht as [-> _]. exists [EvPoll]. cbn. eexists. split_and!; [lia|set_solver..|reflexivity|done].
Qed.

(** On a thread without a runtime, and with an engine that does not panic,
    the future is the inline path at its first poll. *)
Lemma intercept_inline i context s :
  try_current (world s) = false → evaluation_panics (interceptor_runtime i) (JObject context) s = None →
  intercept_run i context [EvPoll] s =
  let '(s, verdict) := intercept (H4 := host) i context s in Some (mkEmission (Ready (Answered verdict)) None s).
Proof.
  intros Hcurrent Hpanics. unfold intercept_run, intercept. cbn. rewrite Hcurrent. unfold engine_call. rewrite Hpanics.
  unfold interceptor_runtime. by destruct (evaluate (H4 := host) _ _ s).
Qed.
End interceptor.

(** ** Witnesses *)

Section witnesses.
#[local] Existing Instances demo_hooks demo_hooks_laws demo_url demo_serde demo_sha.

Definition allowing_host : Host () := {|
  annotator_dispatch w _ _ _ := (w, Returned (Ok JNull));
  policy_evaluate w _ := (w, Returned (Ok (JObject [("decision", JString "allow")])));
  telemetry_emit w _ := w;
  instant_now _ := 0%N;
  elapsed_ms _ _ := 0%N |}.

#[local] Instance no_faults : EngineFaults () := {| evaluation_panics _ _ _ := None |}.
#[local] Instance on_runtime : Tokio () := {| try_current _ := true |}.

Definition sample_interceptor : AcsInterceptor :=
  interceptor_new (mkRuntime sample_manifest [] PerfOff default_limits).

(** The emitter gives up, and the worker runs all the same. *)
Lemma worker_answers_as_inline_witness :
  ∃ m, intercept_run allowing_host sample_interceptor [] [EvPoll; EvDrop; EvWorker] (mkRun () []) = Some m ∧
    em_future m = Dropped ∧
    ∃ outcome, em_task m = Some (Finished outcome) ∧
      outcome = (engine_call allowing_host (interceptor_runtime sample_interceptor) (JObject []) (mkRun () [])).2.
Proof.
  destruct (intercept_run allowing_host sample_interceptor [] [EvPoll; EvDrop; EvWorker] (mkRun () [])) as [m|] eqn:Hrun;
    [|by vm_compute in Hrun].
  destruct (worker_answers_as_inline allowing_host sample_interceptor [] [EvPoll; EvDrop; EvWorker] (mkRun () []) m
    Hrun) as (_ & _ & Hfinished).
  exists m. split; [done|]. vm_compute in Hrun. injection Hrun as <-. split; [done|]. eexists. split; [reflexivity|].
  exact (proj1 (Hfinished _ eq_refl)).
Defined.

Lemma intercept_completes_witness :
  ∃ more m', (length more ≤ 3)%nat ∧
    emission_run allowing_host sample_interceptor (JObject []) more (intercept_start (mkRun () [])) = Some m' ∧
    emission_over m' = true.
Proof.
  destruct (intercept_completes allowing_host sample_interceptor [] [] (mkRun () []) _ eq_refl eq_refl)
    as (more & m' & Hlen & _ & _ & Hrun & Hready); [done|].
  exists more, m'. split_and!; [exact Hlen|exact Hrun|]. unfold emission_over. by rewrite Hready.
Defined.
End witnesses.
