(* ===== verification/Deployment.v ===== *)
(** * A deployment: the runtime on the dispatchers the bindings construct

    The annotators are the bundled ones of [dispatchers/default.rs], the
    policies go to [BindingPolicyDispatcher] with its two caches and its
    worker pool. What is around the process is a world the calls thread:
    the network, the environment and the clock, how fast an evaluation is
    and what other threads do to the shared caches meanwhile. *)

From stdpp Require Import gmap strings.
From S2P Require Import Prelude OrdMap RustStd Json Errors AgentHooks Constants Paths PolicyInput.
From S2P Require Import Limits Hex Pins StdPath Policy PolicyOutput Manifest Cedar CedarBuiltin Workers Rego.
From S2P Require Import Binding Http Loader Llm Classifier Telemetry Runtime Activation.

(** What happens around a call. The clones of a dispatcher share its caches,
    so before each of a call's locks other threads may change them: the
    number says which lock is taken next. The worker pool answers with the outcome, a timeout or an error, and a
    closure whose run timed out may not have reached the cache yet. *)
Class Surroundings `{CedarEngine} `{Regorus} (W : Type) := {
  telemetry_sink : W → TelemetryEvent → W;
  clock_now : W → N;
  clock_elapsed : W → N → N;
  evaluation_pace : W → Pace;
  warm_cut : W → Cut;
  pool_answer : W → EvalOutcome → DeadlineOutcome;
  closure_finished : W → bool;
  other_engines : W → nat → EngineCache → EngineCache;
  other_prepared : W → nat → PreparedCache → PreparedCache;
  policy_passes : W → PreparedPolicyInvocation → W }.

Section deployment.
Context `{AgentHooksLaws} `{UrlCrate} `{SerdeJson} `{SerdeValue} `{Sha2} `{HttpCrate}.
Context `{CedarEngine} `{Regorus} `{SerdeDisplay}.
Context {W : Type} `{!Surroundings W} `{LoaderHost W}.

(** ** With the caches *)

Record Deployed := mkDeployed {
  outside : W;
  requests : list DispatchAction;
  prepared_cache : PreparedCache;
  engine_cache : EngineCache }.

Definition set_outside (w : W) (d : Deployed) : Deployed :=
  mkDeployed w (requests d) (prepared_cache d) (engine_cache d).

(** [ConfiguredAnnotatorDispatcher] on its host. *)
Definition dispatch_bundled (host : DispatchHost W) (limits : Limits) (d : Deployed) (name : string)
  (invocation : AnnotatorInvocation) (input : JsonValue) : Deployed * CallOutcome :=
  let '(s, r) := annotator_dispatch_default (H := host) limits name invocation input
    (mkSent (outside d) (requests d)) in
  (mkDeployed (sent_world s) (sent_trace s) (prepared_cache d) (engine_cache d), Returned r).

Section policies.
Context (runner : RegorusRegoRunner) (files : Files) (disk : Disk).

(** What the first and the second lock of a call find. *)
Definition engines_found (d : Deployed) : EngineCache := other_engines (outside d) 0 (engine_cache d).
Definition engines_later (d : Deployed) : EngineCache := other_engines (outside d) 1 (engines_found d).
Definition prepared_found (d : Deployed) : PreparedCache := other_prepared (outside d) 0 (prepared_cache d).
Definition prepared_later (d : Deployed) : PreparedCache := other_prepared (outside d) 1 (prepared_found d).

(** The closure a Rego evaluation runs, and the cache it leaves. *)
Definition rego_closure (d : Deployed) (invocation : PreparedPolicyInvocation) (key : EngineKey)
  : EvalOutcome * EngineCache :=
  match invocation with
  | PreparedRego rego =>
      evaluate_work runner disk (engines_found d) (engines_later d) key rego (evaluation_pace (outside d))
  | _ => (Ok JNull, engines_found d)
  end.

Definition warm_closure (d : Deployed) (invocation : PreparedPolicyInvocation) (key : EngineKey)
  : EvalOutcome * EngineCache :=
  match invocation with
  | PreparedRego rego =>
      warm_work runner disk (engines_found d) (engines_later d) (other_engines (outside d) 2) key (ri_query rego)
        (warm_cut (outside d))
  | _ => (Ok JNull, engines_found d)
  end.

(** Whether the closure has stored its engine when the call returns. *)
Definition finished (w : W) : bool := negb (hard_deadline runner) || closure_finished w.

(** The engine cache after a call whose closure is [closure]. *)
Definition engines_after (d : Deployed) (invocation : PreparedPolicyInvocation)
  (closure : EngineKey → EvalOutcome * EngineCache) : EngineCache :=
  match invocation with
  | PreparedRego rego =>
      match reject_remote_bundle rego ;; cache_key runner rego with
      | Ok key => if finished (outside d) then (closure key).2 else engines_later d
      | Err _ => engines_found d
      end
  | _ => engines_found d
  end.

(** [BindingPolicyDispatcher::evaluate]. *)
Definition evaluate_deployed (d : Deployed) (invocation : PreparedPolicyInvocation) : Deployed * CallOutcome :=
  let closure := rego_closure d invocation in
  let r := binding_evaluate runner (λ key, (closure key).1) (λ key, pool_answer (outside d) (closure key).1)
    files (prepared_found d) (prepared_later d) invocation in
  let prepared := match invocation with
    | PreparedCedar _ => (builtin_evaluate files (prepared_found d) (prepared_later d) invocation).2
    | _ => prepared_found d
    end in
  (mkDeployed (policy_passes (outside d) invocation) (requests d) prepared (engines_after d invocation closure),
   Returned r).

(** [BindingPolicyDispatcher::warm]; a runner without a cache warms
    nothing. *)
Definition warm_deployed (d : Deployed) (invocation : PreparedPolicyInvocation)
  : Deployed * result RuntimeError () :=
  let closure := warm_closure d invocation in
  let r := binding_warm runner (λ key, (closure key).1) (λ key, pool_answer (outside d) (closure key).1)
    files (prepared_found d) invocation in
  let prepared := (builtin_warm files (prepared_found d) invocation).2 in
  let engines := if policy_cache runner then engines_after d invocation closure else engines_found d in
  (mkDeployed (policy_passes (outside d) invocation) (requests d) prepared engines, r).

Definition deployed_host (host : DispatchHost W) (limits : Limits) : Host Deployed := {|
  annotator_dispatch := dispatch_bundled host limits;
  policy_evaluate := evaluate_deployed;
  telemetry_emit d event := set_outside (telemetry_sink (outside d) event) d;
  instant_now d := clock_now (outside d);
  elapsed_ms d := clock_elapsed (outside d) |}.

Definition deployed_warm : WarmHost Deployed := {| policy_warm := warm_deployed |}.

(** ** Without: the specification

    Every policy is read, parsed and compiled again for every decision, on
    the same world, at the same pace. *)

Record Plain := mkPlain { around : W; sent_so_far : list DispatchAction }.

Definition dispatch_plain (host : DispatchHost W) (limits : Limits) (p : Plain) (name : string)
  (invocation : AnnotatorInvocation) (input : JsonValue) : Plain * CallOutcome :=
  let '(s, r) := annotator_dispatch_default (H := host) limits name invocation input
    (mkSent (around p) (sent_so_far p)) in
  (mkPlain (sent_world s) (sent_trace s), Returned r).

Definition rego_afresh (w : W) (invocation : PreparedPolicyInvocation) (key : EngineKey) : EvalOutcome :=
  match invocation with
  | PreparedRego rego =>
      engine ← build_engine disk key;
      evaluate_engine (eval_timeout runner) (ri_query rego) (ri_canonical_input rego) (evaluation_pace w) engine
  | _ => Ok JNull
  end.

Definition evaluate_plain (p : Plain) (invocation : PreparedPolicyInvocation) : Plain * CallOutcome :=
  let own := rego_afresh (around p) invocation in
  (mkPlain (policy_passes (around p) invocation) (sent_so_far p),
   Returned (binding_evaluate runner own (λ key, pool_answer (around p) (own key)) files cache_new cache_new
     invocation)).

(** Readying only checks that the policy can be readied. *)
Definition rego_check (key : EngineKey) : EvalOutcome :=
  engine ← build_engine disk key;
  map_err (λ err, invocation_failed ("failed to set Rego warm-up input: " +:+ err))
    (set_input_json "{}" (set_execution_timer_config (eval_timeout runner) TIMER_CHECK_INTERVAL engine)) ;;
  Ok JNull.

Definition warm_plain (p : Plain) (invocation : PreparedPolicyInvocation) : Plain * result RuntimeError () :=
  (mkPlain (policy_passes (around p) invocation) (sent_so_far p),
   binding_warm runner rego_check (λ key, pool_answer (around p) (rego_check key)) files cache_new invocation).

Definition plain_host (host : DispatchHost W) (limits : Limits) : Host Plain := {|
  annotator_dispatch := dispatch_plain host limits;
  policy_evaluate := evaluate_plain;
  telemetry_emit p event := mkPlain (telemetry_sink (around p) event) (sent_so_far p);
  instant_now p := clock_now (around p);
  elapsed_ms p := clock_elapsed (around p) |}.

Definition plain_warm : WarmHost Plain := {| policy_warm := warm_plain |}.
End policies.

(** ** What a host does with a runtime *)

Inductive Operation : Type :=
  | OpActivate (rt : Runtime)
  | OpEvaluate (rt : Runtime) (snapshot : JsonValue)
  | OpEvaluatePoint (rt : Runtime) (point : InterceptionPoint) (snapshot : JsonValue).

Inductive Answer : Type :=
  | AnsActivated (warmed : list PreparedPolicyInvocation) (r : result RuntimeError ActivatedPolicy)
  | AnsEvaluated (r : EvaluationResult).

Definition operation_runtime (op : Operation) : Runtime :=
  match op with OpActivate rt | OpEvaluate rt _ | OpEvaluatePoint rt _ _ => rt end.

Section serving.
Context {S : Type} (host : Host S) (warm : WarmHost S).

Definition perform (op : Operation) (s : Run S) : Run S * Answer :=
  match op with
  | OpActivate rt =>
      let '(next, r) := activate rt (world s, []) in
      (mkRun next.1 (trace s), AnsActivated next.2 r)
  | OpEvaluate rt snapshot => let '(s, r) := evaluate rt snapshot s in (s, AnsEvaluated r)
  | OpEvaluatePoint rt point snapshot =>
      let '(s, r) := evaluate_point rt point snapshot s in (s, AnsEvaluated r)
  end.

Fixpoint serve (ops : list Operation) (s : Run S) : Run S * list Answer :=
  match ops with
  | [] => (s, [])
  | op :: ops =>
      let '(s, answer) := perform op s in
      let '(s, answers) := serve ops s in (s, answer :: answers)
  end.
End serving.
End deployment.
Arguments Deployed {_ _} W.
Arguments Plain W : clear implicits.
