(* ===== verification/DeploymentFacts.v ===== *)
(** * Deployments: the caches are invisible and fetched policy is blind

    What a process answers through the dispatchers the bindings construct is
    what it would answer if every policy were read and compiled afresh, and
    a fetched manifest's decisions do not depend on the environment. *)

From stdpp Require Import gmap strings.
From S2P Require Import Prelude OrdMap RustStd Json Errors AgentHooks Constants Paths PolicyInput Concrete.
From S2P Require Import Limits Hex Pins StdPath Policy PolicyOutput Manifest Cedar CedarFacts CedarBuiltin CedarBuiltinFacts.
From S2P Require Import Workers Rego RegoLoad RegoFacts Binding Http Loader Llm Classifier DispatcherFacts Telemetry.
From S2P Require Import Runtime Activation Deployment RuntimeWorld.

(** ** Activation and service on two hosts *)

Section serving.
Context `{AgentHooksLaws} `{UrlCrate} `{SerdeJson} `{Sha2}.
Context {S1 S2 : Type} (h1 : Host S1) (h2 : Host S2) (k1 : WarmHost S1) (k2 : WarmHost S2) (R : S1 → S2 → Prop).
Context (asked : AnnotatorInvocation → Prop) (decided : PreparedPolicyInvocation → Prop).

Class WarmSim : Prop := {
  sim_warm s1 s2 invocation :
    R s1 s2 → decided invocation →
    R (@policy_warm S1 k1 s1 invocation).1 (@policy_warm S2 k2 s2 invocation).1 ∧
    (@policy_warm S1 k1 s1 invocation).2 = (@policy_warm S2 k2 s2 invocation).2 }.
Context `{!HostSim h1 h2 R asked decided} `{!WarmSim}.

(** Warming under way: related worlds, the same invocations so far. *)
Definition warming_rel (s1 : S1 * list PreparedPolicyInvocation) (s2 : S2 * list PreparedPolicyInvocation) : Prop :=
  R s1.1 s2.1 ∧ s1.2 = s2.2.

Lemma warm_point_sim rt point s1 s2 :
  (∀ invocation, policy_invocations (rt_manifest rt) point invocation → decided invocation) →
  warming_rel s1 s2 →
  warming_rel (@warm_point _ _ S1 k1 rt point s1).1 (@warm_point _ _ S2 k2 rt point s2).1 ∧
  (@warm_point _ _ S1 k1 rt point s1).2 = (@warm_point _ _ S2 k2 rt point s2).2.
Proof.
  intros Hdecided [Hs Hlog]. unfold warm_point.
  destruct (bt_get point _) as [config|] eqn:Hconfig; [|by split]. cbn zeta.
  destruct (bt_get (binding_id _) _) as [policy|] eqn:Hpolicy; [|by split].
  destruct (prepare_policy_invocation _ _ _) as [invocation|] eqn:Hprepared; [|by split].
  assert (decided invocation) as Hi by (apply Hdecided; by exists config, policy, (JObject [])).
  destruct (sim_warm _ _ invocation Hs Hi) as [Hnext Hr].
  destruct (@policy_warm S1 k1 s1.1 invocation) as [w1 r1], (@policy_warm S2 k2 s2.1 invocation) as [w2 r2].
  cbn in *. subst r2. split; [|done]. split; cbn; [done|by rewrite Hlog].
Qed.

Lemma warm_points_sim rt points s1 s2 :
  (∀ point invocation, policy_invocations (rt_manifest rt) point invocation → decided invocation) →
  warming_rel s1 s2 →
  warming_rel (@warm_points _ _ S1 k1 rt points s1).1 (@warm_points _ _ S2 k2 rt points s2).1 ∧
  (@warm_points _ _ S1 k1 rt points s1).2 = (@warm_points _ _ S2 k2 rt points s2).2.
Proof.
  intros Hdecided. revert s1 s2. induction points as [|point points IH]; intros s1 s2 Hs; [by split|]. cbn [warm_points].
  destruct (warm_point_sim rt point s1 s2 (Hdecided point) Hs) as [Hnext Hr].
  destruct (@warm_point _ _ S1 k1 rt point s1) as [s1' [[]|e]], (@warm_point _ _ S2 k2 rt point s2) as [s2' r2];
    cbn in Hnext, Hr; subst r2; [by apply IH|by split].
Qed.

Lemma activate_sim rt s1 s2 :
  (∀ point invocation, policy_invocations (rt_manifest rt) point invocation → decided invocation) →
  warming_rel s1 s2 →
  warming_rel (@activate _ _ S1 k1 rt s1).1 (@activate _ _ S2 k2 rt s2).1 ∧
  (@activate _ _ S1 k1 rt s1).2 = (@activate _ _ S2 k2 rt s2).2.
Proof.
  intros Hdecided Hs. unfold activate. cbn zeta.
  destruct (warm_points_sim rt (bt_keys (intervention_points (rt_manifest rt))) s1 s2 Hdecided Hs) as [Hnext Hr].
  destruct (@warm_points _ _ S1 k1 _ _ s1) as [s1' [[]|e]], (@warm_points _ _ S2 k2 _ _ s2) as [s2' r2];
    cbn in Hnext, Hr; by subst r2.
Qed.

(** The runtime of an operation stays within what the hosts agree on. *)
Definition served (op : Operation) : Prop :=
  ∀ point,
    (∀ invocation, annotator_invocations (rt_manifest (operation_runtime op)) point invocation → asked invocation) ∧
    (∀ invocation, policy_invocations (rt_manifest (operation_runtime op)) point invocation → decided invocation).

Lemma perform_sim op s1 s2 :
  served op → run_rel R s1 s2 →
  run_rel R (perform h1 k1 op s1).1 (perform h2 k2 op s2).1 ∧ (perform h1 k1 op s1).2 = (perform h2 k2 op s2).2.
Proof.
  intros Hop Hs.
  assert (∀ rt, operation_runtime op = rt →
    (∀ p i, annotator_invocations (rt_manifest rt) p i → asked i) ∧
    (∀ p i, policy_invocations (rt_manifest rt) p i → decided i)) as Hrt by (intros rt <-; by split; intros p; apply (Hop p)).
  destruct op as [rt|rt snapshot|rt point snapshot]; destruct (Hrt rt eq_refl) as [Ha Hd]; cbn [perform].
  - destruct Hs as [Hw Ht]. destruct (activate_sim rt (world s1, []) (world s2, []) Hd) as [[Hnext Hlog] Hr]; [by split|].
    destruct (@activate _ _ S1 k1 rt _) as [n1 r1], (@activate _ _ S2 k2 rt _) as [n2 r2]. cbn in *. subst.
    by rewrite Hlog.
  - destruct (evaluate_sim h1 h2 R asked decided rt snapshot s1 s2 Ha Hd Hs) as [Hnext Hr].
    destruct (@evaluate _ _ _ _ S1 h1 rt _ _), (@evaluate _ _ _ _ S2 h2 rt _ _). cbn in *. by subst.
  - destruct (evaluate_point_sim h1 h2 R asked decided rt point (Ha point) (Hd point) snapshot s1 s2 Hs) as [Hnext Hr].
    destruct (@evaluate_point _ _ _ _ S1 h1 rt _ _ _), (@evaluate_point _ _ _ _ S2 h2 rt _ _ _). cbn in *. by subst.
Qed.

Lemma serve_sim ops s1 s2 :
  Forall served ops → run_rel R s1 s2 →
  run_rel R (serve h1 k1 ops s1).1 (serve h2 k2 ops s2).1 ∧ (serve h1 k1 ops s1).2 = (serve h2 k2 ops s2).2.
Proof.
  intros Hops. revert s1 s2. induction Hops as [|op ops Hop _ IH]; intros s1 s2 Hs; [by split|]. cbn [serve].
  destruct (perform_sim op s1 s2 Hop Hs) as [Hnext Hr].
  destruct (perform h1 k1 op s1) as [s1' a1], (perform h2 k2 op s2) as [s2' a2]. cbn in Hnext, Hr. subst a2.
  destruct (IH _ _ Hnext) as [Hlast Hrs].
  destruct (serve h1 k1 ops s1'), (serve h2 k2 ops s2'). cbn in *. by subst.
Qed.
End serving.

(** ** The caches *)

Section caches.
Context `{AgentHooksLaws} `{UrlCrate} `{SerdeJson} `{SerdeValue} `{Sha2} `{HttpCrate}.
Context `{CedarEngine} `{Regorus} `{SerdeDisplay} `{!RegorusLaws}.
Context {W : Type} `{!Surroundings W} `{LoaderHost W}.
Context (runner : RegorusRegoRunner) (files : Files) (disk : Disk) (used : EngineKey → Prop).

Notation engines_fine := (engines_reachable (eq disk) used).
Notation prepared_fine := (cache_reachable (λ seen, seen = files)).

(** Other threads do to the caches what this one may do. *)
Record others_fair : Prop := {
  fair_engines w lock cache : engines_fine cache → engines_fine (other_engines w lock cache);
  fair_prepared w lock cache : prepared_fine cache → prepared_fine (other_prepared w lock cache) }.
Context (Hfair : others_fair) (Hfaithful : used_faithfully used).

(** The deployment is in the world of the specification, with caches its
    clones can reach. *)
Record deployed_as (d : Deployed W) (p : Plain W) : Prop := {
  as_world : outside d = around p;
  as_requests : requests d = sent_so_far p;
  as_engines : engines_fine (engine_cache d);
  as_prepared : prepared_fine (prepared_cache d) }.

(** Invocations whose key is in use. *)
Definition keyed (invocation : PreparedPolicyInvocation) : Prop :=
  ∀ rego key, invocation = PreparedRego rego → cache_key runner rego = Ok key → used key.

Section call.
Context (d : Deployed W) (p : Plain W) (Hd : deployed_as d p).

Lemma found_fine : engines_fine (engines_found d) ∧ engines_fine (engines_later d).
Proof. by split; repeat apply (fair_engines Hfair); apply (as_engines _ _ Hd). Qed.

Lemma prepared_found_fine : prepared_fine (prepared_found d) ∧ prepared_fine (prepared_later d).
Proof. by split; repeat apply (fair_prepared Hfair); apply (as_prepared _ _ Hd). Qed.

Lemma engines_after_fine invocation closure :
  (∀ rego key, invocation = PreparedRego rego → cache_key runner rego = Ok key → engines_fine (closure key).2) →
  engines_fine (engines_after runner d invocation closure).
Proof.
  intros Hclosure. unfold engines_after. destruct found_fine as [Hfound Hlater].
  destruct invocation as [rego|c|t|c]; try done.
  destruct (reject_remote_bundle rego ;; cache_key runner rego) as [key|] eqn:Hkey; [|done].
  apply bind_Ok in Hkey as ([] & _ & Hkey). destruct (finished runner _); [by eapply Hclosure|done].
Qed.

Lemma rego_closure_afresh invocation rego key :
  invocation = PreparedRego rego → used key →
  (rego_closure runner disk d invocation key).1 = rego_afresh runner disk (around p) invocation key.
Proof.
  intros -> Hkey. destruct found_fine as [Hfound Hlater]. cbn. rewrite (as_world _ _ Hd).
  by apply (rego_cache_transparent used).
Qed.

Lemma warm_closure_afresh invocation rego key :
  invocation = PreparedRego rego → used key →
  (warm_closure runner disk d invocation key).1 = rego_check runner disk key.
Proof. intros -> Hkey. destruct found_fine as [Hfound Hlater]. by apply (warm_work_transparent used). Qed.

(** One decision. *)
Lemma evaluate_as invocation :
  keyed invocation →
  deployed_as (evaluate_deployed runner files disk d invocation).1 (evaluate_plain runner files disk p invocation).1 ∧
  (evaluate_deployed runner files disk d invocation).2 = (evaluate_plain runner files disk p invocation).2.
Proof.
  intros Hkeyed. destruct found_fine as [Hfound Hlater], prepared_found_fine as [Hpfound Hplater]. split.
  - split; cbn; [by rewrite (as_world _ _ Hd)|apply (as_requests _ _ Hd)| |].
    + apply engines_after_fine. intros rego key -> Hkey. apply engines_prepared_work; [done|by eapply Hkeyed|done..].
    + destruct invocation; try done. by apply (reachable_evaluate _ files).
  - unfold evaluate_deployed, evaluate_plain. cbn [snd]. f_equal.
    destruct invocation as [rego|cedar|test|custom]; [..|done|done]; cbn [binding_evaluate].
    + unfold regorus_evaluate, rego_evaluate. destruct (reject_remote_bundle rego) as [[]|]; [|done]. cbn [mbind result_bind].
      destruct (cache_key runner rego) as [key|] eqn:Hkey; [|done]. cbn [mbind result_bind].
      rewrite (rego_closure_afresh (PreparedRego rego) rego key eq_refl) by (by eapply Hkeyed).
      by rewrite (as_world _ _ Hd).
    + rewrite !builtin_cache_transparent; [done|constructor|done].
Qed.

(** One readying. *)
Lemma warm_as invocation :
  keyed invocation →
  deployed_as (warm_deployed runner files disk d invocation).1 (warm_plain runner files disk p invocation).1 ∧
  (warm_deployed runner files disk d invocation).2 = (warm_plain runner files disk p invocation).2.
Proof.
  intros Hkeyed. destruct found_fine as [Hfound Hlater], prepared_found_fine as [Hpfound Hplater]. split.
  - split; cbn; [by rewrite (as_world _ _ Hd)|apply (as_requests _ _ Hd)| |by apply (reachable_warm _ files)].
    destruct (policy_cache runner); [|done]. apply engines_after_fine. intros rego key -> Hkey.
    apply warm_work_reachable; [done|by eapply Hkeyed|done..|]. intros c. by apply (fair_engines Hfair).
  - unfold warm_deployed, warm_plain. cbn [snd].
    destruct invocation as [rego|cedar|test|custom]; [..|done|done]; cbn [binding_warm].
    + unfold regorus_warm, rego_warm. destruct (reject_remote_bundle rego) as [[]|]; [|done]. cbn [mbind result_bind].
      destruct (negb (policy_cache runner)); [done|].
      destruct (cache_key runner rego) as [key|] eqn:Hkey; [|done]. cbn [mbind result_bind].
      rewrite (warm_closure_afresh (PreparedRego rego) rego key eq_refl) by (by eapply Hkeyed).
      by rewrite (as_world _ _ Hd).
    + unfold builtin_warm, refresh. by destruct (prepared_load files cedar).
Qed.
End call.

#[export] Instance deployed_host_sim host limits :
  HostSim (deployed_host runner files disk host limits) (plain_host runner files disk host limits) deployed_as
    (λ _, True) keyed.
Proof.
  split.
  - intros d p name invocation input Hd _. cbn. unfold dispatch_bundled, dispatch_plain.
    rewrite (as_world _ _ Hd), (as_requests _ _ Hd). destruct (annotator_dispatch_default _ _ _ _ _) as [s r].
    split; [|done]. split; cbn; [done..|apply (as_engines _ _ Hd)|apply (as_prepared _ _ Hd)].
  - intros d p invocation Hd Hkeyed. by apply evaluate_as.
  - intros d p event Hd. cbn. split; cbn; [by rewrite (as_world _ _ Hd)|apply (as_requests _ _ Hd)
      |apply (as_engines _ _ Hd)|apply (as_prepared _ _ Hd)].
  - intros d p Hd. cbn. by rewrite (as_world _ _ Hd).
  - intros d p start Hd. cbn. by rewrite (as_world _ _ Hd).
Qed.

#[export] Instance deployed_warm_sim :
  WarmSim (deployed_warm runner files disk) (plain_warm runner files disk) deployed_as keyed.
Proof. split. intros d p invocation Hd Hkeyed. by apply warm_as. Qed.
End caches.

(** ** Refinement *)

Section refinement.
Context `{AgentHooksLaws} `{UrlCrate} `{SerdeJson} `{SerdeValue} `{Sha2} `{HttpCrate}.
Context `{CedarEngine} `{Regorus} `{SerdeDisplay}.
Context {W : Type} `{!Surroundings W} `{LoaderHost W}.

(** The engine keys the Rego policies of the operations' runtimes have. *)
Definition keys_of (runner : RegorusRegoRunner) (ops : list Operation) (key : EngineKey) : Prop :=
  ∃ op point rego, op ∈ ops ∧
    policy_invocations (rt_manifest (operation_runtime op)) point (PreparedRego rego) ∧
    cache_key runner rego = Ok key.

(** C3: Whatever runtimes a process readies and serves, in whatever order, through the dispatchers the bindings
    construct, and while the policy files do not change, its verdicts, its readying's answers, its telemetry and
    its requests are those of a process that reads, parses and compiles every policy afresh for every decision:
    no state of the caches its dispatchers share, and nothing other threads do to them before any lock, shows.
    An edited file is not read again, which is the staleness the cache trades for. No two in-memory bundles in
    use may share a digest, and no data path may be spelled in two ways. *)
Theorem deployment_refines_afresh `{!RegorusLaws} runner files disk used host limits ops d t :
  (∀ key, keys_of runner ops key → used key) → used_faithfully used → others_fair files disk used →
  engines_reachable (eq disk) used (engine_cache d) →
  cache_reachable (λ seen, seen = files) (prepared_cache d) →
  let run := serve (deployed_host runner files disk host limits) (deployed_warm runner files disk) ops (mkRun d t) in
  let spec := serve (plain_host runner files disk host limits) (plain_warm runner files disk) ops
    (mkRun (mkPlain (outside d) (requests d)) t) in
  run.2 = spec.2 ∧ trace run.1 = trace spec.1 ∧
  outside (world run.1) = around (world spec.1) ∧ requests (world run.1) = sent_so_far (world spec.1).
Proof.
  intros Hkeys Hfaithful Hfair Hengines Hprepared run spec.
  pose proof (deployed_host_sim runner files disk used Hfair Hfaithful host limits) as Hhosts.
  pose proof (deployed_warm_sim runner files disk used Hfair Hfaithful) as Hwarms.
  destruct (serve_sim (deployed_host runner files disk host limits) (plain_host runner files disk host limits)
    (deployed_warm runner files disk) (plain_warm runner files disk) (deployed_as files disk used) (λ _, True) (keyed runner used) ops
    (mkRun d t) (mkRun (mkPlain (outside d) (requests d)) t)) as [[Hworld Htrace] Hanswers].
  - apply Forall_forall. intros op Hop point. split; [done|]. intros invocation Hinv rego key -> Hkey.
    apply Hkeys. by exists op, point, rego.
  - by split.
  - by destruct Hworld.
Qed.


End refinement.

(** ** Witnesses *)

Module DeploymentSample.
Import RegoLoad.Demo RegoFacts.Sample CedarBuiltinFacts.Demo DispatcherFacts.Demo.
#[export] Existing Instances demo_hooks demo_hooks_laws demo_url demo_serde demo_sha demo_http demo_json
  demo_loader_host demo_engine demo_regorus demo_display demo_regorus_laws.

(** A quiet process: nothing happens around its calls. *)
#[export] Instance demo_surroundings : Surroundings () := {|
  telemetry_sink w _ := w;
  clock_now _ := 0%N;
  clock_elapsed _ _ := 0%N;
  evaluation_pace _ := demo_pace;
  warm_cut _ := ();
  pool_answer _ own := Completed own;
  closure_finished _ := true;
  other_engines _ _ cache := cache;
  other_prepared _ _ cache := cache;
  policy_passes w _ := w |}.

Definition demo_others files disk used : others_fair files disk used := {|
  fair_engines _ _ _ Hc := Hc; fair_prepared _ _ _ Hc := Hc |}.

(** One Rego policy in a directory, behind one point. *)
Definition served_manifest (sources : list string) : Manifest :=
  mkManifest "0.5.0-alpha.1" [] [] [("main", PolicyRego (mkRego (Some "data.acs.verdict") (Some "/policy") None []))]
    [(Input, mkPoint "$.text" None None [] (mkBinding "main" None []))] [] [] None sources ∅ ∅ CompositionMerged.

Definition served_runtime (sources : list string) : Runtime :=
  mkRuntime (served_manifest sources) [(Input, mkPlan [] [])] PerfOff default_limits.

Definition served_context : JsonValue :=
  JObject [("interception_point", JString "input"); ("text", JString "hello")].

Definition served_ops (sources : list string) : list Operation :=
  [OpActivate (served_runtime sources); OpEvaluate (served_runtime sources) served_context;
   OpEvaluatePoint (served_runtime sources) Input JNull].

Example served_constructed :
  runtime_new (served_manifest []) PerfOff default_limits = Ok (served_runtime []).
Proof. vm_compute. reflexivity. Qed.

Lemma served_keys sources key : keys_of cached (served_ops sources) key → demo_key = key.
Proof.
  intros (op & point & rego & Hop & (config & policy & input & Hconfig & Hpolicy & Hprepared) & Hkey).
  assert (operation_runtime op = served_runtime sources) as Hrt.
  { repeat (apply elem_of_cons in Hop as [->|Hop]; [done|]). by apply elem_of_nil in Hop. }
  rewrite Hrt in Hconfig, Hpolicy. destruct point; vm_compute in Hconfig; try done. injection Hconfig as <-.
  vm_compute in Hpolicy. injection Hpolicy as <-.
  cbn [prepare_policy_invocation] in Hprepared. apply bind_Ok in Hprepared as (query & _ & Hprepared).
  apply bind_Ok in Hprepared as (canonical & _ & Hprepared). apply bind_Ok in Hprepared as (url & _ & [= <-]).
  vm_compute in Hkey. by injection Hkey.
Qed.

Definition served_world : Deployed () := mkDeployed () [] cache_new filled.
End DeploymentSample.

Section witnesses.
Import RegoLoad.Demo RegoFacts.Sample CedarBuiltinFacts.Demo DispatcherFacts.Demo DeploymentSample.

Lemma deployment_refines_afresh_witness :
  (serve (deployed_host cached no_files demo_disk (demo_host (λ _, None)) default_limits)
     (deployed_warm cached no_files demo_disk) (served_ops []) (mkRun served_world [])).2 =
  (serve (plain_host cached no_files demo_disk (demo_host (λ _, None)) default_limits)
     (plain_warm cached no_files demo_disk) (served_ops []) (mkRun (mkPlain () []) [])).2.
Proof.
  refine (proj1 (deployment_refines_afresh cached no_files demo_disk (eq demo_key) (demo_host (λ _, None))
    default_limits (served_ops []) served_world [] (served_keys []) demo_faithful (demo_others _ _ _) filled_reachable _)).
  constructor.
Defined.

End witnesses.
