(* ===== verification/Ffi.v ===== *)
(** * The C ABI: [sdk/ffi/src/lib.rs]

    The entry points a binding calls, over the memory they share with it:
    strings and handles on both sides' heaps, and the slots error messages
    are written to. An access outside what the contract of an entry point
    allows is recorded as undefined behaviour, and a panic is an outcome,
    so that what [catch_unwind] catches is visible. The engine behind the
    entry points is the one of this development. *)

From stdpp Require Import gmap fin_sets strings.
From S2P Require Import Prelude OrdMap RustStd Json Errors AgentHooks Constants Stream Paths PolicyInput.
From S2P Require Import Limits Hex Pins Policy PolicyOutput Manifest ManifestMerge Loader Yaml.
From S2P Require Import Telemetry Runtime Cedar CedarBuiltin Workers Rego Wire Activation.

(** ** Memory *)

(** A raw pointer; [None] is null. *)
Definition Ptr : Type := option positive.
#[export] Instance Ptr_eq_dec : EqDecision Ptr.
Proof. solve_decision. Defined.

(** Which allocator a string came from: the engine's, or the host's. *)
Inductive Allocator := EngineAlloc | HostAlloc.
#[export] Instance Allocator_eq_dec : EqDecision Allocator.
Proof. solve_decision. Defined.

(** [HostCtx]: the host's opaque context and its free callback. *)
Record HostCtx := mkHostCtx { host_ctx : Ptr; host_free : option positive }.

(** What a runtime of the C ABI calls: the host's functions where it
    registered them, else the bundled dispatchers with these limits. *)
Record Hooks := mkHooks {
  hook_annotator : option (HostCtx * positive);
  hook_policy : option (HostCtx * positive);
  hook_telemetry : option (HostCtx * positive);
  hook_limits : Limits }.

(** The handles' contents: [AcsInterceptor], [AcsActivatedPolicy] and
    [AcsStreamSession] of this crate. A session is behind a lock, which an
    earlier panic may have poisoned. *)
Record FfiInterceptor := mkFfiInterceptor {
  fi_runtime : Runtime;
  fi_hooks : Hooks;
  fi_name : string }.

Record FfiPolicy := mkFfiPolicy { fp_policy : ActivatedPolicy; fp_hooks : Hooks }.

Record FfiSession := mkFfiSession { fs_poisoned : bool; fs_session : StreamSession }.

Inductive Cell : Type :=
  | CellString (alloc : Allocator) (bytes : string)
  | CellBytes (bytes : string)
  | CellSlot (p : Ptr)
  | CellInterceptor (i : FfiInterceptor)
  | CellPolicy (p : FfiPolicy)
  | CellSession (s : FfiSession).

(** The memory both sides see, whether anything undefined happened, and
    the world the engine asks its questions of. *)
Record State (W : Type) := mkState {
  cells : gmap positive Cell;
  undefined : bool;
  ffi_world : W }.
Arguments mkState {W}.
Arguments cells {W}.
Arguments undefined {W}.
Arguments ffi_world {W}.

(** ** Strings of C *)

Definition nul : Ascii.ascii := byte_of 0.

(** What [CStr::from_ptr] reads: the bytes before the first NUL. *)
Fixpoint until_nul (s : string) : string :=
  match s with
  | EmptyString => ""
  | String c s => if decide (c = nul) then "" else String c (until_nul s)
  end.

Fixpoint has_nul (s : string) : bool :=
  match s with EmptyString => false | String c s => bool_decide (c = nul) || has_nul s end.

(** U+FFFD in UTF-8, and [replace('\0', "\u{fffd}")]. *)
Definition replacement_character : string := str_of_bytes [239; 191; 189]%N.
Fixpoint replace_nul (s : string) : string :=
  match s with
  | EmptyString => ""
  | String c s => (if decide (c = nul) then replacement_character else String c "") +:+ replace_nul s
  end.

(** [CString::new]. *)
Definition cstring_new (s : string) : option string := if has_nul s then None else Some s.

(** [CStr::to_str] and [str::from_utf8]. *)
Definition utf8 (bytes : string) : result string string := from_utf8 (String.list_ascii_of_string bytes).

(** ** Steps *)

Inductive Outcome (A : Type) : Type :=
  | Done (a : A)
  | Unwinds.
Arguments Done {A}.
Arguments Unwinds {A}.

Section ffi.
Context {W : Type}.
Notation State := (State W).

Definition ffi (A : Type) : Type := State → State * Outcome A.

#[export] Instance ffi_ret : MRet ffi := λ A a st, (st, Done a).
#[export] Instance ffi_bind : MBind ffi := λ A B f m st,
  match m st with (st, Done a) => f a st | (st, Unwinds) => (st, Unwinds) end.

(** A closure with early returns: [None] after an error was reported. *)
Notation closure A := (ffi (option A)).
Definition reported {A} : closure A := mret None.
Definition and_then {A B} (m : closure A) (f : A → closure B) : closure B :=
  m ≫= λ r, match r with Some a => f a | None => mret None end.

Definition get {A} (f : State → A) : ffi A := λ st, (st, Done (f st)).
Definition undefined_behaviour : ffi () := λ st, (mkState (cells st) true (ffi_world st), Done ()).
Definition set_cell (p : positive) (c : Cell) : ffi () := λ st,
  (mkState (<[p := c]> (cells st)) (undefined st) (ffi_world st), Done ()).
Definition clear_cell (p : positive) : ffi () := λ st,
  (mkState (delete p (cells st)) (undefined st) (ffi_world st), Done ()).

(** [Box::into_raw] and [CString::into_raw]: a new allocation. *)
Definition alloc (c : Cell) : ffi Ptr := λ st,
  let p : positive := base.fresh (dom (cells st) : gset positive) in
  (mkState (<[p := c]> (cells st)) (undefined st) (ffi_world st), Done (Some p)).

(** [*err_out = p]. *)
Definition write_slot (slot : positive) (p : Ptr) : ffi () :=
  c ← get (λ st, cells st !! slot);
  match c with Some (CellSlot _) => set_cell slot (CellSlot p) | _ => undefined_behaviour end.

(** The bytes at a C string, and [len] bytes at a buffer. *)
Definition read_cstr (p : positive) : ffi string :=
  c ← get (λ st, cells st !! p);
  match c with
  | Some (CellString _ bytes) => mret (until_nul bytes)
  | _ => undefined_behaviour ;; mret ""
  end.
Definition read_bytes (p : positive) (len : nat) : ffi string :=
  c ← get (λ st, cells st !! p);
  match c with
  | Some (CellBytes bytes) =>
      if (len <=? String.length bytes)%nat then mret (String.substring 0 len bytes)
      else undefined_behaviour ;; mret ""
  | _ => undefined_behaviour ;; mret ""
  end.

(** ** The error protocol *)

Definition set_err (err_out : Ptr) (message : string) : ffi () :=
  match err_out with
  | None => mret ()
  | Some slot =>
      let c := default "error message contained NUL" (cstring_new (replace_nul message)) in
      p ← alloc (CellString EngineAlloc c);
      write_slot slot p
  end.

Definition clear_err (err_out : Ptr) : ffi () :=
  match err_out with None => mret () | Some slot => write_slot slot None end.

(** [set_err] and the early return after it. *)
Definition failing {A} (err_out : Ptr) (message : string) : closure A :=
  set_err err_out message ;; reported.

(** The [Err] arm of a [match] that reports [show e]. *)
Definition checking {E A} (err_out : Ptr) (show : E → string) (r : result E A) : closure A :=
  match r with Ok a => mret (Some a) | Err e => failing err_out (show e) end.

Definition read_utf8 (ptr : Ptr) (what : string) (err_out : Ptr) : closure string :=
  match ptr with
  | None => failing err_out (what +:+ " must not be null")
  | Some p =>
      bytes ← read_cstr p;
      match utf8 bytes with
      | Ok s => mret (Some s)
      | Err _ => failing err_out (what +:+ " is not valid UTF-8")
      end
  end.

Definition read_optional (ptr : Ptr) (what : string) (err_out : Ptr) : closure (option string) :=
  match ptr with
  | None => mret (Some None)
  | Some _ => and_then (read_utf8 ptr what err_out) (λ value, mret (Some (Some value)))
  end.

(** [read_path]; [what] is the name in its messages, which
    [acs_validate_manifest_with_limits] spells out for its own buffer. *)
Definition read_slice (ptr : Ptr) (len : nat) (what : string) (err_out : Ptr) : closure string :=
  and_then
    (if (len =? 0)%nat then mret (Some "")
     else
       match ptr with
       | None => failing err_out (what +:+ " must not be null")
       | Some p => bytes ← read_bytes p len; mret (Some bytes)
       end)
    (λ bytes, checking err_out (λ e, what +:+ " is not valid UTF-8: " +:+ e) (utf8 bytes)).

Definition read_path (ptr : Ptr) (len : nat) (err_out : Ptr) : closure string :=
  and_then (read_slice ptr len "path" err_out) (λ path,
    if has_nul path then failing err_out "path must not contain an interior NUL byte"
    else mret (Some path)).

Definition to_c_string (s : string) (err_out : Ptr) : ffi Ptr :=
  match cstring_new s with
  | Some c => clear_err err_out ;; alloc (CellString EngineAlloc c)
  | None => set_err err_out "output contained an interior NUL byte" ;; mret None
  end.

(** [serde_json::to_string] of an answer and [to_c_string] of its text. *)
Definition answer_json (err_out : Ptr) (failure : string) (json : result string string) : closure Ptr :=
  match json with
  | Ok json => p ← to_c_string json err_out; mret (Some p)
  | Err e => failing err_out (failure +:+ e)
  end.

(** An entry point: the slot is cleared, the closure runs under
    [catch_unwind], and a panic is reported like a failure. *)
Definition catch_unwind {A} (m : ffi A) : ffi (option A) := λ st,
  match m st with (st, Done a) => (st, Done (Some a)) | (st, Unwinds) => (st, Done None) end.

Definition entry {A} (name : string) (err_out : Ptr) (failure : A) (body : closure A) : ffi A :=
  clear_err err_out ;;
  r ← catch_unwind body;
  match r with
  | Some (Some a) => mret a
  | Some None => mret failure
  | None => set_err err_out ("internal panic in " +:+ name) ;; mret failure
  end.
End ffi.

(** ** What the entry points run on *)

(** The host's functions, by their addresses. A callback answers with the
    string it returns and the one it leaves in [*err_out]; the engine's
    own strings it is passed are freed when it returns, so they are passed
    by content. *)
Class HostCode (W : Type) := {
  annotator_fn : positive → State W → Ptr → string → string → string → State W * (Ptr * Ptr);
  policy_fn : positive → State W → Ptr → string → State W * (Ptr * Ptr);
  telemetry_fn : positive → State W → Ptr → string → State W;
  hook_free_fn : positive → State W → Ptr → Ptr → State W }.

(** The bundled dispatchers, built with these limits, and the clock. *)
Class BundledHost (W : Type) := {
  bundled_annotator : Limits → W → string → AnnotatorInvocation → JsonValue → W * CallOutcome;
  bundled_policy : Limits → W → PreparedPolicyInvocation → W * CallOutcome;
  clock_now : W → N;
  clock_elapsed : W → N → N;
  process_env : W → string → option string }.

(** serde's derived code for the values that cross the boundary. *)
Class FfiSerde := {
  verdict_to_string : Verdict → result string string;
  verdict_from_str : string → result string Verdict;
  manifest_to_string : Manifest → result string string;
  annotator_invocation_to_string : AnnotatorInvocation → result string string;
  prepared_to_string : PreparedPolicyInvocation → result string string;
  bundles_from_str : string → result string (btree string InMemoryRegoBundle);
  sources_from_str : string → result string (list string) }.

(** Which calls of the engine panic, by the entry point they are made
    from: [Some] world the panic leaves. A panic inside a session's
    operation leaves the session as it was left. *)
Class Unwinding (W : Type) := {
  unwinds : string → State W → option W;
  torn : State W → StreamSession → StreamSession }.

Section hooks.
Context {W : Type} `{HostCode W} `{SerdeJson} `{SerdeValue} `{FfiSerde}.
Notation State := (State W).
Notation ffi := (@ffi W).
Notation closure A := (ffi (option A)).

(** [HostCtx::release], [take] and [error]. *)
Definition give_back (h : HostCtx) (raw : positive) : ffi () := λ st,
  match host_free h with
  | Some free => (hook_free_fn free st (host_ctx h) (Some raw), Done ())
  | None => (st, Done ())
  end.

Definition take (h : HostCtx) (what : string) (raw : Ptr) : ffi (result RuntimeError (option string)) :=
  match raw with
  | None => mret (Ok None)
  | Some p =>
      bytes ← read_cstr p;
      give_back h p ;;
      mret (match utf8 bytes with
            | Ok s => Ok (Some s)
            | Err _ => Err (PolicyInvocationFailed ("host " +:+ what +:+
                " returned a string that is not valid UTF-8"))
            end)
  end.

Definition host_error (h : HostCtx) (what : string) (err : Ptr) : ffi RuntimeError :=
  match err with
  | None => mret (PolicyInvocationFailed ("host " +:+ what +:+ " failed without a message"))
  | Some raw =>
      bytes ← read_cstr raw;
      give_back h raw ;;
      mret (PolicyInvocationFailed ("host " +:+ what +:+ " failed: " +:+
        from_utf8_lossy (String.list_ascii_of_string bytes)))
  end.

(** What both dispatchers do with a callback's answer. *)
Definition host_answer (h : HostCtx) (what returned : string) (answer : Ptr * Ptr)
  : ffi (result RuntimeError JsonValue) :=
  taken ← take h what answer.1;
  match taken with
  | Err e => mret (Err e)
  | Ok None => e ← host_error h what answer.2; mret (Err e)
  | Ok (Some json) =>
      mret (map_err (λ e, PolicyInvocationFailed (returned +:+ " returned non JSON: " +:+ e))
        (value_from_str json))
  end.

Definition no_nul (what : string) (s : string) : result RuntimeError string :=
  ok_or (cstring_new s) (PolicyInvocationFailed (what +:+ " held a NUL")).

Definition annotator_arguments (annotator_name : string) (annotator : AnnotatorInvocation) (input : JsonValue)
  : result RuntimeError (string * string * string) :=
  name ← no_nul "annotator name" annotator_name;
  json ← map_err (λ e, PolicyInvocationFailed ("annotator invocation: " +:+ e))
    (annotator_invocation_to_string annotator);
  invocation ← no_nul "annotator invocation" json;
  json ← map_err (λ e, PolicyInvocationFailed ("policy input: " +:+ e)) (to_string input);
  input ← no_nul "policy input" json;
  Ok (name, invocation, input).

(** [HostAnnotatorDispatcher::dispatch]. *)
Definition host_annotator_dispatch (h : HostCtx) (call : positive) (annotator_name : string)
  (annotator : AnnotatorInvocation) (input : JsonValue) : ffi (result RuntimeError JsonValue) :=
  match annotator_arguments annotator_name annotator input with
  | Err e => mret (Err e)
  | Ok (name, invocation, input) => λ st,
      let (st, answer) := annotator_fn call st (host_ctx h) name invocation input in
      host_answer h "annotator" "host annotator" answer st
  end.

Definition policy_argument (invocation : PreparedPolicyInvocation) : result RuntimeError string :=
  json ← map_err (λ e, PolicyInvocationFailed ("policy invocation: " +:+ e)) (prepared_to_string invocation);
  no_nul "policy invocation" json.

(** [HostPolicyDispatcher::evaluate]. *)
Definition host_policy_evaluate (h : HostCtx) (call : positive) (invocation : PreparedPolicyInvocation)
  : ffi (result RuntimeError JsonValue) :=
  match policy_argument invocation with
  | Err e => mret (Err e)
  | Ok payload => λ st,
      let (st, answer) := policy_fn call st (host_ctx h) payload in
      host_answer h "policy dispatcher" "host policy" answer st
  end.

(** [HostTelemetrySink::emit]. *)
Definition host_emit `{AgentHooks} (h : HostCtx) (call : positive) (event : TelemetryEvent) : ffi () :=
  match to_string (telemetry_event_json event) with
  | Err _ => mret ()
  | Ok json =>
      match cstring_new json with
      | None => mret ()
      | Some payload => λ st, (telemetry_fn call st (host_ctx h) payload, Done ())
      end
  end.

(** The runtime's host: the host's functions where it registered them. *)
Definition with_world (st : State) (w : W) : State := mkState (cells st) (undefined st) w.

Definition outcome_of (o : Outcome (result RuntimeError JsonValue)) : CallOutcome :=
  match o with Done r => Runtime.Returned r | Unwinds => Runtime.Panicked None end.

Definition ffi_host `{AgentHooks} `{BundledHost W} (hooks : Hooks) : Host State := {|
  annotator_dispatch st name invocation input :=
    match hook_annotator hooks with
    | Some (h, call) =>
        let (st, o) := host_annotator_dispatch h call name invocation input st in (st, outcome_of o)
    | None =>
        let (w, o) := bundled_annotator (hook_limits hooks) (ffi_world st) name invocation input in
        (with_world st w, o)
    end;
  policy_evaluate st invocation :=
    match hook_policy hooks with
    | Some (h, call) => let (st, o) := host_policy_evaluate h call invocation st in (st, outcome_of o)
    | None =>
        let (w, o) := bundled_policy (hook_limits hooks) (ffi_world st) invocation in (with_world st w, o)
    end;
  telemetry_emit st event :=
    match hook_telemetry hooks with
    | Some (h, call) => (host_emit h call event st).1
    | None => st
    end;
  instant_now st := clock_now (ffi_world st);
  elapsed_ms st start := clock_elapsed (ffi_world st) start |}.
End hooks.

(** ** The entry points *)

Definition ACS_MANIFEST_VALID : Z := 0.
Definition ACS_MANIFEST_INVALID : Z := 1.
Definition ACS_MANIFEST_CALL_FAILED : Z := -1.

Section entries.
Context {W : Type} `{AgentHooksLaws} `{UrlCrate} `{SerdeJson} `{SerdeValue} `{Sha2} `{ManifestFormats}.
Context `{LoaderHost W} `{WarmHost W} `{HostCode W} `{BundledHost W} `{FfiSerde} `{Unwinding W}.
Notation State := (State W).
Notation ffi := (@ffi W).
Notation closure A := (ffi (option A)).

(** A call of the engine from the entry point [name], which may panic. *)
Definition engine {A} (name : string) (call : State → State * A) : ffi A := λ st,
  match unwinds name st with
  | Some w => (with_world st w, Unwinds)
  | None => let (st, a) := call st in (st, Done a)
  end.

Definition in_world {A} (call : W → W * A) (st : State) : State * A :=
  let (w, a) := call (ffi_world st) in (with_world st w, a).

(** [Manifest::from_path_with_limits]. *)
Definition manifest_from_path (name path : string) (limits : Limits) : ffi (result RuntimeError Manifest) :=
  engine name (in_world (λ w, let (l, r) := from_path_with_limits path limits w in (load_world l, r))).

Definition activating (name : string) (activation : warming W ActivatedPolicy)
  : ffi (result RuntimeError ActivatedPolicy) :=
  engine name (in_world (λ w, let '((w, _), r) := activation (w, []) in (w, r))).

Definition default_hooks (limits : Limits) : Hooks := mkHooks None None None limits.

Definition error_text (e : RuntimeError) : string := error_to_string e.

(** *** Interceptors *)

Definition build_interceptor (name path : string) (err_out : Ptr) : closure Ptr :=
  m ← manifest_from_path name path default_limits;
  and_then (checking err_out error_text m) (λ m,
    rt ← engine name (λ st, (st, runtime_new m PerfOff default_limits));
    and_then (checking err_out error_text rt) (λ rt,
      p ← alloc (CellInterceptor (mkFfiInterceptor rt (default_hooks default_limits) "acs"));
      mret (Some p))).

Definition acs_interceptor_new (manifest_path err_out : Ptr) : ffi Ptr :=
  entry "acs_interceptor_new" err_out None
    (and_then (read_utf8 manifest_path "manifest_path" err_out) (λ path,
      build_interceptor "acs_interceptor_new" path err_out)).

Definition acs_interceptor_new_ex (manifest_path : Ptr) (manifest_path_len : nat) (err_out : Ptr) : ffi Ptr :=
  entry "acs_interceptor_new_ex" err_out None
    (and_then (read_path manifest_path manifest_path_len err_out) (λ path,
      build_interceptor "acs_interceptor_new_ex" path err_out)).

(** [*handle], when it points to an interceptor. *)
Definition interceptor_at (handle : positive) : ffi (option FfiInterceptor) :=
  c ← get (λ st, cells st !! handle);
  match c with
  | Some (CellInterceptor i) => mret (Some i)
  | _ => undefined_behaviour ;; mret None
  end.
Definition policy_at (handle : positive) : ffi (option FfiPolicy) :=
  c ← get (λ st, cells st !! handle);
  match c with
  | Some (CellPolicy p) => mret (Some p)
  | _ => undefined_behaviour ;; mret None
  end.

(** A handle that is not null; it is read where it is used. *)
Definition handle_arg (handle err_out : Ptr) : closure positive :=
  match handle with
  | None => failing err_out "handle must not be null"
  | Some p => mret (Some p)
  end.

Definition acs_interceptor_set_name (handle name err_out : Ptr) : ffi () :=
  clear_err err_out ;;
  match handle with
  | None => set_err err_out "handle must not be null"
  | Some p =>
      n ← read_utf8 name "name" err_out;
      match n with
      | None => mret ()
      | Some n =>
          i ← interceptor_at p;
          match i with
          | Some i => set_cell p (CellInterceptor (mkFfiInterceptor (fi_runtime i) (fi_hooks i) n))
          | None => mret ()
          end
      end
  end.

Definition acs_interceptor_name (handle err_out : Ptr) : ffi Ptr :=
  clear_err err_out ;;
  match handle with
  | None => set_err err_out "handle must not be null" ;; mret None
  | Some p =>
      i ← interceptor_at p;
      match i with
      | Some i => to_c_string (fi_name i) err_out
      | None => mret None
      end
  end.

Definition acs_interceptor_free (handle : Ptr) : ffi () :=
  match handle with
  | None => mret ()
  | Some p =>
      i ← interceptor_at p;
      match i with Some _ => clear_cell p | None => mret () end
  end.

(** Only the engine's own strings may be given back to its allocator. *)
Definition acs_free_string (s : Ptr) : ffi () :=
  match s with
  | None => mret ()
  | Some p =>
      c ← get (λ st, cells st !! p);
      match c with
      | Some (CellString EngineAlloc _) => clear_cell p
      | _ => undefined_behaviour
      end
  end.

(** A context: a JSON object. *)
Definition read_object (what : string) (raw : string) (err_out : Ptr) : closure JsonMap :=
  match value_from_str raw with
  | Ok (JObject m) => mret (Some m)
  | Ok _ => failing err_out (what +:+ " must be a JSON object")
  | Err e => failing err_out (what +:+ " does not parse: " +:+ e)
  end.

Definition answer_with_verdict (err_out : Ptr) (verdict : Verdict) : closure Ptr :=
  answer_json err_out "verdict serialization failed: " (verdict_to_string verdict).

(** The runtime's evaluation, with the handle's hooks as its host. *)
Definition evaluating (hooks : Hooks) (rt : Runtime) (snapshot : JsonValue) (st : State)
  : State * EvaluationResult :=
  let (run, r) := evaluate (H4 := ffi_host hooks) rt snapshot (mkRun st []) in (world run, r).

Definition acs_intercept (handle context_json err_out : Ptr) : ffi Ptr :=
  entry "acs_intercept" err_out None
    (and_then (handle_arg handle err_out) (λ p,
     and_then (read_utf8 context_json "context_json" err_out) (λ raw,
     and_then (read_object "context_json" raw err_out) (λ context,
     and_then (interceptor_at p) (λ i,
       result ← engine "acs_intercept" (evaluating (fi_hooks i) (fi_runtime i) (JObject context));
       answer_with_verdict err_out (er_verdict result)))))).

(** *** Manifests *)

(** The arms that tell a rejected document from a failed call. *)
Definition manifest_verdict (err_out : Ptr) (e : RuntimeError) : closure Z :=
  set_err err_out (error_text e) ;;
  mret (Some (match e with ManifestInvalid _ => ACS_MANIFEST_INVALID | _ => ACS_MANIFEST_CALL_FAILED end)).

Definition read_manifest_limits (limits_json err_out : Ptr) : closure Limits :=
  match limits_json with
  | None => mret (Some default_limits)
  | Some _ =>
      and_then (read_utf8 limits_json "limits_json" err_out) (λ raw,
      and_then (checking err_out (λ e, "limits_json does not parse: " +:+ e) (value_from_str raw)) (λ value,
        checking err_out error_text (limits_from_json value)))
  end.

Definition acs_validate_manifest_with_limits (source : Ptr) (source_len : nat) (limits_json err_out : Ptr)
  : ffi Z :=
  entry "acs_validate_manifest" err_out ACS_MANIFEST_CALL_FAILED
    (and_then (read_manifest_limits limits_json err_out) (λ limits,
     and_then (read_slice source source_len "source" err_out) (λ source,
       m ← engine "acs_validate_manifest" (λ st, (st, parse_yaml_str_with_limits source limits));
       match m with
       | Err e => manifest_verdict err_out e
       | Ok m =>
           if negb (bool_decide (extends m = [])) then
             failing err_out ("manifest extends other manifests; validation needs the merged document. " +:+
               "Use acs_validate_manifest_file, which resolves the chain.")
           else
             match validate m with
             | Ok _ => mret (Some ACS_MANIFEST_VALID)
             | Err e => set_err err_out (error_text e) ;; mret (Some ACS_MANIFEST_INVALID)
             end
       end))).

Definition acs_validate_manifest (source : Ptr) (source_len : nat) (err_out : Ptr) : ffi Z :=
  acs_validate_manifest_with_limits source source_len None err_out.

Definition acs_validate_manifest_file (path : Ptr) (path_len : nat) (err_out : Ptr) : ffi Z :=
  entry "acs_validate_manifest_file" err_out ACS_MANIFEST_CALL_FAILED
    (and_then (read_path path path_len err_out) (λ path,
       m ← manifest_from_path "acs_validate_manifest_file" path default_limits;
       match m with
       | Ok _ => mret (Some ACS_MANIFEST_VALID)
       | Err e => manifest_verdict err_out e
       end)).

(** The list of versions, as [serde_json::to_string] writes it; [.ok()]
    drops its error. *)
Definition acs_supported_manifest_versions (err_out : Ptr) : ffi Ptr :=
  clear_err err_out ;;
  r ← catch_unwind (match to_string (JArray (JString <$> SUPPORTED)) with
    | Ok json => p ← to_c_string json err_out; mret (Some p)
    | Err _ => mret None
    end);
  match r with
  | Some (Some p) => mret p
  | Some None => set_err err_out "supported version list is not encodable" ;; mret None
  | None => set_err err_out "internal panic in acs_supported_manifest_versions" ;; mret None
  end.

Definition answer_manifest (err_out : Ptr) (m : result RuntimeError Manifest) : closure Ptr :=
  and_then (checking err_out error_text m) (λ m,
    answer_json err_out "manifest serialization failed: " (manifest_to_string m)).

Definition acs_manifest_parse_with_limits (yaml limits_json err_out : Ptr) : ffi Ptr :=
  entry "acs_manifest_parse" err_out None
    (and_then (read_utf8 yaml "yaml" err_out) (λ source,
     and_then (read_manifest_limits limits_json err_out) (λ limits,
       m ← engine "acs_manifest_parse" (λ st, (st, from_yaml_str_with_limits source limits));
       answer_manifest err_out m))).

Definition acs_manifest_parse (yaml err_out : Ptr) : ffi Ptr :=
  acs_manifest_parse_with_limits yaml None err_out.

Definition acs_manifest_merge_with_limits (yamls_json limits_json err_out : Ptr) : ffi Ptr :=
  entry "acs_manifest_merge" err_out None
    (and_then (read_utf8 yamls_json "yamls_json" err_out) (λ raw,
     and_then (checking err_out (λ e, "yamls_json must be a JSON array of manifest sources: " +:+ e)
       (sources_from_str raw)) (λ sources,
       if bool_decide (sources = []) then failing err_out "yamls_json must name at least one source"
       else
         and_then (read_manifest_limits limits_json err_out) (λ limits,
           m ← engine "acs_manifest_merge" (λ st, (st, from_yaml_chain_with_limits sources limits));
           answer_manifest err_out m)))).

Definition acs_manifest_merge (yamls_json err_out : Ptr) : ffi Ptr :=
  acs_manifest_merge_with_limits yamls_json None err_out.

(** *** Diagnostics *)

Definition answer_findings (err_out : Ptr) (findings : list RuntimeError) : closure Ptr :=
  answer_json err_out "diagnostics serialization failed: "
    (to_string (JArray (diagnostic_json <$> findings))).

(** What is wrong with a document alone: a finding, or a failed call. *)
Definition document_findings (err_out : Ptr) (m : result RuntimeError Manifest) : closure (list RuntimeError) :=
  match (m ← m; validate m) with
  | Ok _ => mret (Some [])
  | Err (ManifestInvalid detail) => mret (Some [ManifestInvalid detail])
  | Err other => failing err_out (error_text other)
  end.

Definition acs_manifest_diagnostics (yaml err_out : Ptr) : ffi Ptr :=
  entry "acs_manifest_diagnostics" err_out None
    (and_then (read_utf8 yaml "yaml" err_out) (λ source,
       m ← engine "acs_manifest_diagnostics" (λ st, (st, Yaml.from_yaml_str source));
       and_then (document_findings err_out m) (answer_findings err_out))).

(** [read_in_memory_bundles]. *)
Definition read_in_memory_bundles (bundles_json err_out : Ptr) : closure (btree string InMemoryRegoBundle) :=
  match bundles_json with
  | None => mret (Some [])
  | Some _ =>
      and_then (read_utf8 bundles_json "bundles_json" err_out) (λ raw,
        if blank raw then mret (Some [])
        else checking err_out (λ e, "bundles_json is not valid: " +:+ e) (bundles_from_str raw))
  end.

Definition acs_artifact_diagnostics (manifest_yaml bundles_json err_out : Ptr) : ffi Ptr :=
  entry "acs_artifact_diagnostics" err_out None
    (and_then (read_utf8 manifest_yaml "manifest_yaml" err_out) (λ source,
     and_then (read_in_memory_bundles bundles_json err_out) (λ bundles,
       m ← engine "acs_artifact_diagnostics" (λ st, (st, Yaml.from_yaml_str source));
       and_then
         (match m with
          | Err (ManifestInvalid detail) => mret (Some [ManifestInvalid detail])
          | Err other => failing err_out (error_text other)
          | Ok m =>
              match validate m with
              | Err e => mret (Some [e])
              | Ok _ =>
                  env ← get (λ st, process_env (ffi_world st));
                  activated ← activating "acs_artifact_diagnostics" (activate_from_memory env source bundles);
                  match activated with
                  | Ok _ => mret (Some [])
                  | Err e => mret (Some [e])
                  end
              end
          end) (answer_findings err_out)))).

(** *** Activated policies *)

Definition activated_handle (err_out : Ptr) (activated : result RuntimeError ActivatedPolicy) : closure Ptr :=
  and_then (checking err_out error_text activated) (λ policy,
    p ← alloc (CellPolicy (mkFfiPolicy policy (default_hooks default_limits)));
    mret (Some p)).

Definition acs_policy_activate (manifest_path : Ptr) (manifest_path_len : nat) (err_out : Ptr) : ffi Ptr :=
  entry "acs_policy_activate" err_out None
    (and_then (read_path manifest_path manifest_path_len err_out) (λ path,
       m ← manifest_from_path "acs_policy_activate" path default_limits;
       and_then (checking err_out error_text m) (λ m,
         activated ← activating "acs_policy_activate" (activate_with m);
         activated_handle err_out activated))).

Definition acs_policy_activate_from_memory (manifest_yaml bundles_json err_out : Ptr) : ffi Ptr :=
  entry "acs_policy_activate_from_memory" err_out None
    (and_then (read_utf8 manifest_yaml "manifest_yaml" err_out) (λ source,
     and_then (read_in_memory_bundles bundles_json err_out) (λ bundles,
       activated ← activating "acs_policy_activate_from_memory" (activate_from_memory_with source bundles);
       activated_handle err_out activated))).

Definition acs_policy_evaluate (handle point context_json err_out : Ptr) : ffi Ptr :=
  entry "acs_policy_evaluate" err_out None
    (and_then (handle_arg handle err_out) (λ p,
     and_then (read_utf8 point "point" err_out) (λ point_raw,
     match point_from_str point_raw with
     | None => failing err_out ("unknown intervention point '" +:+ point_raw +:+ "'")
     | Some point =>
         and_then (read_utf8 context_json "context_json" err_out) (λ raw,
         and_then (read_object "context_json" raw err_out) (λ context,
         and_then (policy_at p) (λ policy,
           result ← engine "acs_policy_evaluate" (λ st,
             let (run, r) := activated_evaluate (H4 := ffi_host (fp_hooks policy)) (fp_policy policy)
               point (JObject context) (mkRun st []) in (world run, r));
           answer_with_verdict err_out (er_verdict result))))
     end))).

Definition acs_policy_intervention_points (handle err_out : Ptr) : ffi Ptr :=
  entry "acs_policy_intervention_points" err_out None
    (and_then (handle_arg handle err_out) (λ p,
     and_then (policy_at p) (λ policy,
       answer_json err_out "serialization failed: "
         (to_string (JArray ((λ point, JString (point_as_str point)) <$> activated_points (fp_policy policy))))))).

Definition acs_policy_free (handle : Ptr) : ffi () :=
  match handle with
  | None => mret ()
  | Some p =>
      policy ← policy_at p;
      match policy with Some _ => clear_cell p | None => mret () end
  end.

(** *** Host extension points *)

Definition hook_of (call ctx : Ptr) (free : Ptr) : option (HostCtx * positive) :=
  (λ f, (mkHostCtx ctx free, f)) <$> call.

Definition read_perf (perf_telemetry err_out : Ptr) : closure PerfTelemetry :=
  and_then (read_optional perf_telemetry "perf_telemetry" err_out) (λ raw,
    match raw with
    | Some raw => checking err_out error_text (parse_perf_telemetry raw)
    | None => mret (Some PerfOff)
    end).

Definition read_limits (limits_json err_out : Ptr) : closure Limits :=
  and_then (read_optional limits_json "limits_json" err_out) (λ raw,
    match raw with
    | Some raw =>
        if blank raw then mret (Some default_limits)
        else
          and_then (checking err_out (λ e, "limits_json does not parse: " +:+ e) (value_from_str raw)) (λ parsed,
            checking err_out error_text (limits_from_json parsed))
    | None => mret (Some default_limits)
    end).

Definition acs_interceptor_new_with_hooks (manifest_path : Ptr) (manifest_path_len : nat)
  (annotator annotator_ctx policy policy_ctx telemetry telemetry_ctx hook_free : Ptr)
  (perf_telemetry limits_json err_out : Ptr) : ffi Ptr :=
  let name := "acs_interceptor_new_with_hooks" in
  entry name err_out None
    (and_then (read_path manifest_path manifest_path_len err_out) (λ path,
     and_then (read_perf perf_telemetry err_out) (λ perf,
     and_then (read_limits limits_json err_out) (λ limits,
       m ← manifest_from_path name path limits;
       and_then (checking err_out error_text m) (λ m,
         let hooks := mkHooks (hook_of annotator annotator_ctx hook_free) (hook_of policy policy_ctx hook_free)
           (hook_of telemetry telemetry_ctx hook_free) limits in
         rt ← engine name (λ st, (st, runtime_new m perf limits));
         and_then (checking err_out error_text rt) (λ rt,
           p ← alloc (CellInterceptor (mkFfiInterceptor rt hooks "acs"));
           mret (Some p))))))).

(** *** Stream sessions *)

Definition stream_text (e : StreamError) : string := stream_error_to_string e.

Definition wire_track (value : string) (err_out : Ptr) : closure StreamTrack :=
  checking err_out stream_text (track_parse value).
Definition wire_outcome (value : string) (err_out : Ptr) : closure SegmentOutcome :=
  checking err_out stream_text (outcome_parse value).

(** A session's operation, under its lock: a panic poisons the lock and
    leaves the session as it was then. *)
Definition locked {A} (name : string) (handle : positive) (s : StreamSession)
  (op : StreamSession → StreamSession * A) : ffi A := λ st,
  let store (st : State) (cell : FfiSession) := (set_cell handle (CellSession cell) st).1 in
  match unwinds name st with
  | Some w => (store (with_world st w) (mkFfiSession true (torn st s)), Unwinds)
  | None => let (s, a) := op s in (store st (mkFfiSession false s), Done a)
  end.

(** [with_session], whose body is one operation and the report of its
    answer, made before the lock is released. *)
Definition with_session {A R} (name : string) (handle err_out : Ptr)
  (op : StreamSession → StreamSession * A) (report : A → closure R) : closure R :=
  match handle with
  | None => failing err_out "handle must not be null"
  | Some p =>
      c ← get (λ st, cells st !! p);
      match c with
      | Some (CellSession cell) =>
          if fs_poisoned cell then failing err_out "stream session lock is poisoned by an earlier panic"
          else a ← locked name p (fs_session cell) op; report a
      | _ => undefined_behaviour ;; mret None
      end
  end.

(** The closures [offset] and [tasks] of [acs_stream_session_new]. *)
Definition session_offset (parsed : JsonMap) (key : string) : result string N :=
  match bt_get key parsed with
  | None | Some JNull => Ok 0%N
  | Some v =>
      ok_or (match as_u64 v with
             | Some n => if (n <=? u32_max)%N then Some n else None
             | None => None
             end) (key +:+ " must be a rune offset within u32")
  end.

Definition session_tasks (parsed : JsonMap) (key : string) : result string (list string) :=
  match bt_get key parsed with
  | None | Some JNull => Ok []
  | Some (JArray items) =>
      map_result (λ i, ok_or (as_str i) (key +:+ " must contain only task name strings")) items
  | Some _ => Err (key +:+ " must be an array of task names")
  end.

Definition session_config (parsed : JsonMap) : result string StreamSessionConfig :=
  level ← map_err stream_text (safety_level_parse (default "blocking"
    (mbind (M := option) as_str (bt_get "safety_level" parsed))));
  request_offset ← session_offset parsed "request_start_rune_offset";
  response_offset ← session_offset parsed "response_start_rune_offset";
  request ← session_tasks parsed "request_tasks";
  response ← session_tasks parsed "response_tasks";
  Ok (mkConfig level request_offset response_offset request response).

Definition acs_stream_session_new (config_json err_out : Ptr) : ffi Ptr :=
  entry "acs_stream_session_new" err_out None
    (and_then (read_utf8 config_json "config_json" err_out) (λ raw,
     and_then (read_object "config_json" raw err_out) (λ parsed,
     and_then (checking err_out id (session_config parsed)) (λ config,
       created ← engine "acs_stream_session_new" (λ st, (st, session_new config));
       and_then (checking err_out stream_text created) (λ s,
         p ← alloc (CellSession (mkFfiSession false s));
         mret (Some p)))))).

Definition acs_stream_session_free (handle : Ptr) : ffi () :=
  match handle with
  | None => mret ()
  | Some p =>
      c ← get (λ st, cells st !! p);
      match c with Some (CellSession _) => clear_cell p | _ => undefined_behaviour end
  end.

(** The report of an offset, of an outcome, and of an offset that may be
    absent. *)
Definition report_offset (err_out : Ptr) (r : result StreamError N) : closure Z :=
  and_then (checking err_out stream_text r) (λ received, mret (Some (Z.of_N received))).
Definition report_unit (err_out : Ptr) (r : result StreamError ()) : closure Z :=
  and_then (checking err_out stream_text r) (λ _, mret (Some 0%Z)).
Definition report_absent (r : option N) : closure Z :=
  mret (Some (match r with Some offset => Z.of_N offset | None => (-1)%Z end)).

Definition read_source (source_type err_out : Ptr) : closure StreamSourceType :=
  and_then (read_utf8 source_type "source_type" err_out) (λ raw,
    checking err_out stream_text (source_type_parse raw)).
Definition read_track (track err_out : Ptr) : closure StreamTrack :=
  and_then (read_utf8 track "track" err_out) (λ raw, wire_track raw err_out).

Definition acs_stream_session_observe (handle source_type : Ptr) (runes : N) (err_out : Ptr) : ffi Z :=
  let name := "acs_stream_session_observe" in
  entry name err_out (-2)%Z
    (and_then (read_source source_type err_out) (λ source,
       with_session name handle err_out (λ s, observe s source runes) (report_offset err_out))).

Definition acs_stream_session_observe_text (handle source_type text err_out : Ptr) : ffi Z :=
  let name := "acs_stream_session_observe_text" in
  entry name err_out (-2)%Z
    (and_then (read_source source_type err_out) (λ source,
     and_then (read_utf8 text "text" err_out) (λ body,
       with_session name handle err_out (λ s, observe_text s source body) (report_offset err_out)))).

Definition acs_stream_session_record_outcome (handle task source_type : Ptr) (start end_ : N)
  (outcome err_out : Ptr) : ffi Z :=
  let name := "acs_stream_session_record_outcome" in
  entry name err_out (-1)%Z
    (and_then (read_utf8 task "task" err_out) (λ task_name,
     and_then (read_source source_type err_out) (λ source,
     and_then (read_utf8 outcome "outcome" err_out) (λ outcome_raw,
     and_then (wire_outcome outcome_raw err_out) (λ outcome,
     and_then (checking err_out stream_text (span_new source start end_)) (λ sp,
       with_session name handle err_out (λ s, record_outcome s task_name sp outcome)
         (report_unit err_out))))))).

Definition acs_stream_session_record_verdict (handle task source_type : Ptr) (start end_ : N)
  (verdict_json err_out : Ptr) : ffi Z :=
  let name := "acs_stream_session_record_verdict" in
  entry name err_out (-1)%Z
    (and_then (read_utf8 task "task" err_out) (λ task_name,
     and_then (read_source source_type err_out) (λ source,
     and_then (read_utf8 verdict_json "verdict_json" err_out) (λ raw,
     and_then (checking err_out (λ e, "verdict_json does not parse: " +:+ e) (verdict_from_str raw)) (λ verdict,
     and_then (checking err_out stream_text (span_new source start end_)) (λ sp,
       with_session name handle err_out (λ s, record_verdict s task_name sp verdict)
         (report_unit err_out))))))).

Definition acs_stream_session_advance (handle track err_out : Ptr) : ffi Z :=
  let name := "acs_stream_session_advance" in
  entry name err_out (-2)%Z
    (and_then (read_track track err_out) (λ track,
       with_session name handle err_out (λ s, session_advance s track) report_absent)).

Definition acs_stream_session_safe_offset (handle track err_out : Ptr) : ffi Z :=
  let name := "acs_stream_session_safe_offset" in
  entry name err_out (-2)%Z
    (and_then (read_track track err_out) (λ track,
       with_session name handle err_out (λ s, (s, safe_offset s track)) report_absent)).

Definition acs_stream_session_pending (handle track err_out : Ptr) : ffi Z :=
  let name := "acs_stream_session_pending" in
  entry name err_out (-2)%Z
    (and_then (read_track track err_out) (λ track,
       with_session name handle err_out (λ s, (s, session_pending s track))
         (λ pending, mret (Some (Z.of_N pending))))).

Definition acs_stream_session_watermark (handle track err_out : Ptr) : ffi Ptr :=
  let name := "acs_stream_session_watermark" in
  entry name err_out None
    (and_then (read_track track err_out) (λ track,
       with_session name handle err_out (λ s, (s, watermark s track)) (λ mark,
         answer_json err_out "watermark serialization failed: " (to_string (watermark_json track mark))))).

Definition acs_stream_session_state (handle err_out : Ptr) : ffi Ptr :=
  let name := "acs_stream_session_state" in
  entry name err_out None
    (with_session name handle err_out (λ s, (s, stream_session_state_json s)) (λ payload,
       answer_json err_out "state serialization failed: " (to_string payload))).

Definition acs_stream_session_end_of_payloads (handle err_out : Ptr) : ffi Z :=
  let name := "acs_stream_session_end_of_payloads" in
  entry name err_out (-1)%Z
    (with_session name handle err_out (λ s, (end_of_payloads s, ())) (λ _, mret (Some 0%Z))).

Definition acs_stream_session_finish (handle err_out : Ptr) : ffi Ptr :=
  let name := "acs_stream_session_finish" in
  entry name err_out None
    (with_session name handle err_out finish (λ completion,
       answer_json err_out "completion serialization failed: " (to_string (completion_json completion)))).
End entries.
