(* ===== verification/Node.v ===== *)
(** * The Node binding: [sdk/node/native/src/lib.rs]

    The functions of the native module, on the thread that runs JavaScript
    and on the threads [intercept_async] starts; the host's functions,
    which either kind of thread reaches; the promises. JavaScript and napi
    are arguments; the engine behind the functions is the one of this
    development. *)

From stdpp Require Import gmap fin_sets strings.
From S2P Require Import Prelude OrdMap RustStd Utf16 Json Errors AgentHooks Constants Stream Paths PolicyInput.
From S2P Require Import Limits Hex Pins Policy PolicyOutput Manifest ManifestMerge Loader Yaml.
From S2P Require Import Telemetry Runtime Cedar CedarBuiltin Workers Rego Wire Activation Ffi.

(** ** Values and threads *)

(** A string of JavaScript: its UTF-16 code units. A value of any type, a
    function and an environment are references. *)
Notation JsText := (list N).
Notation JsRef := positive.
Notation JsFn := positive.
Notation NapiEnv := positive.

Inductive NodeThread := JsThread | EvaluationThread (promise : positive).
#[export] Instance NodeThread_eq_dec : EqDecision NodeThread.
Proof. solve_decision. Defined.

(** [HostFunction]: the function, and the thread recorded when it was
    built. *)
Record HostFunction := mkHostFunction { hf_direct : JsFn; hf_js_thread : NodeThread }.

(** The host's functions of a runtime, and the limits of the bundled
    dispatchers in their places. *)
Record NodeHooks := mkNodeHooks {
  nh_annotator : option HostFunction;
  nh_policy : option HostFunction;
  nh_telemetry : option HostFunction;
  nh_limits : Limits }.

Record Handle := mkHandle { handle_runtime : Runtime; handle_hooks : NodeHooks }.
Record PolicyHandle := mkPolicyHandle { policy_of : ActivatedPolicy; policy_hooks : NodeHooks }.

(** What an evaluation thread was started with. *)
Record Evaluation := mkEvaluation { ev_promise : positive; ev_handle : Handle; ev_snapshot : JsonMap }.

(** A [StreamHandle]'s mutex: poisoned or not, and the session. *)
Record NodeSession := mkNodeSession { ns_poisoned : bool; ns_session : StreamSession }.

(** A thread that gets no further: it runs a function of the host that
    does not return, or waits for one that does not answer. *)
Inductive Endless := RunsForever (f : JsFn) | WaitsForever (f : JsFn).

(** The process. [current_env] and [thread] are of the thread that runs;
    [deferreds] are the promises, with what they were settled with, and
    [evaluations] the evaluation threads that have not ended. [self_wait]:
    a thread posted a call to itself and waited for it; [hung]: what the
    thread that runs does not get past. *)
Record NodeState (W : Type) := mkNode {
  current_env : option NapiEnv;
  thread : NodeThread;
  node_sessions : gmap positive NodeSession;
  deferreds : gmap positive (option (result string string));
  evaluations : list Evaluation;
  self_wait : bool;
  hung : option Endless;
  node_world : W }.
Arguments mkNode {W}.
Arguments current_env {W}.
Arguments thread {W}.
Arguments node_sessions {W}.
Arguments deferreds {W}.
Arguments evaluations {W}.
Arguments self_wait {W}.
Arguments hung {W}.
Arguments node_world {W}.

(** How a computation ends: with a value, a thrown error, a panic, or
    never. *)
Inductive NodeOutcome (A : Type) : Type :=
  | Answer (a : A)
  | Throw (reason : string)
  | NodePanic
  | Hang (why : Endless).
Arguments Answer {A}.
Arguments Throw {A}.
Arguments NodePanic {A}.
Arguments Hang {A}.

Section monad.
Context {W : Type}.
Notation NodeState := (NodeState W).

Definition node (A : Type) : Type := NodeState → NodeState * NodeOutcome A.

#[export] Instance node_ret : MRet node := λ A a st, (st, Answer a).
#[export] Instance node_bind : MBind node := λ A B f m st,
  match m st with
  | (st, Answer a) => f a st
  | (st, Throw e) => (st, Throw e)
  | (st, NodePanic) => (st, NodePanic)
  | (st, Hang why) => (st, Hang why)
  end.

(** [err]: a thrown error with this reason. *)
Definition throw {A} (reason : string) : node A := λ st, (st, Throw reason).
Definition or_throw {E A} (text : E → string) (r : result E A) : node A :=
  match r with Ok a => mret a | Err e => throw (text e) end.

Definition with_env (st : NodeState) (env : option NapiEnv) : NodeState :=
  mkNode env (thread st) (node_sessions st) (deferreds st) (evaluations st) (self_wait st) (hung st) (node_world st).
Definition on_thread (st : NodeState) (t : NodeThread) : NodeState :=
  mkNode (current_env st) t (node_sessions st) (deferreds st) (evaluations st) (self_wait st) (hung st) (node_world st).
Definition with_node_sessions (st : NodeState) (s : gmap positive NodeSession) : NodeState :=
  mkNode (current_env st) (thread st) s (deferreds st) (evaluations st) (self_wait st) (hung st) (node_world st).
Definition with_deferreds (st : NodeState) (d : gmap positive (option (result string string))) : NodeState :=
  mkNode (current_env st) (thread st) (node_sessions st) d (evaluations st) (self_wait st) (hung st) (node_world st).
Definition with_evaluations (st : NodeState) (e : list Evaluation) : NodeState :=
  mkNode (current_env st) (thread st) (node_sessions st) (deferreds st) e (self_wait st) (hung st) (node_world st).
Definition waits_for_itself (st : NodeState) : NodeState :=
  mkNode (current_env st) (thread st) (node_sessions st) (deferreds st) (evaluations st) true (hung st) (node_world st).
Definition with_hung (st : NodeState) (h : option Endless) : NodeState :=
  mkNode (current_env st) (thread st) (node_sessions st) (deferreds st) (evaluations st) (self_wait st) h (node_world st).
Definition with_node_world (st : NodeState) (w : W) : NodeState :=
  mkNode (current_env st) (thread st) (node_sessions st) (deferreds st) (evaluations st) (self_wait st) (hung st) w.

(** [EnvScope]: the environment is published while [m] runs, and what was
    published before is restored however it ends; what does not end leaves
    it published. *)
Definition env_scope {A} (env : NapiEnv) (m : node A) : node A := λ st,
  let previous := current_env st in
  match m (with_env st (Some env)) with
  | (st', Hang why) => (st', Hang why)
  | (st', r) => (with_env st' previous, r)
  end.
End monad.

(** [decode]. *)
Definition decode (what : string) (value : JsText) : result string string :=
  match from_utf16 value with
  | Some text => Ok text
  | None => Err (what +:+ " contains an unpaired surrogate")
  end.

(** ** Host functions *)

(** What became of a promise a posted function returned: it settled, it
    never will, or its handlers were dropped with it. *)
Inductive Settled :=
  | FulfilledWith (value : JsRef)
  | RejectedWith (reason : JsRef)
  | NeverSettles
  | PromiseDropped.

(** A call that ran on the JavaScript thread: what it returned or threw,
    whether its promise took the two handlers, and what became of it. *)
Record PostedRun := mkPostedRun {
  pr_returned : result string JsRef;
  pr_then : result string ();
  pr_catch : result string ();
  pr_settled : Settled }.

(** What becomes of a call posted to the JavaScript thread: refused with a
    status, run until it returned, not reached or not returning, or dropped
    unrun. *)
Inductive Posted :=
  | NotPosted (status : string)
  | Ran (run : PostedRun)
  | NeverReturns
  | DroppedUnrun.

(** napi, and the code it runs: [js_call] is [FunctionRef::call], [None]
    where the function does not return;
    [tsfn_post] is [call_with_return_value] together with everything that
    happens until the call is answered. *)
Class JsHost (W : Type) := {
  borrow_back : NodeState W → JsFn → NapiEnv → result string ();
  build_threadsafe_function : NodeState W → JsFn → result string ();
  js_call : NodeState W → JsFn → list string → NodeState W * option (result string JsRef);
  tsfn_post : NodeState W → JsFn → list string → NodeState W * Posted;
  is_promise : NodeState W → JsRef → result string bool;
  cast_text : NodeState W → JsRef → result string JsText;
  cast_promise : NodeState W → JsRef → result string ();
  (** the error a failed conversion of a settled value rejects with *)
  cast_error : NodeState W → JsRef → JsRef;
  error_reason : NodeState W → JsRef → string;
  coerce_text : NodeState W → JsRef → result string string;
  create_deferred : NodeState W → result string ();
  spawn_thread : NodeState W → result string () }.

(** Which calls of the engine panic, by the function they are made from,
    and the session a panic inside an operation leaves. *)
Class NodeUnwinding (W : Type) := {
  node_unwinds : string → NodeState W → option W;
  node_torn : NodeState W → StreamSession → StreamSession }.

Notation HostAnswer := (result string JsText).

(** What [deliver] did: the answers sent, and the handlers the promise
    took. *)
Record Delivery := mkDelivery {
  d_sent : list HostAnswer;
  d_fulfilled : option (JsText → HostAnswer);
  d_rejected : option (JsRef → HostAnswer) }.

Section host_functions.
Context {W : Type} `{JsHost W}.
Notation NodeState := (NodeState W).
Notation node := (@node W).

Definition string_answer (st : NodeState) (what : string) (value : JsRef) : HostAnswer :=
  match cast_text st value with
  | Ok units => Ok units
  | Err e => Err ("host " +:+ what +:+ " returned a non-string: " +:+ e)
  end.

Definition describe (st : NodeState) (value : JsRef) : string :=
  let reason := error_reason st value in
  if negb (str_is_empty reason) then reason
  else match coerce_text st value with Ok text => text | Err _ => "a value with no message" end.

Definition call_on_js_thread (f : HostFunction) (what : string) (env : NapiEnv) (args : list string)
  : node HostAnswer := λ st,
  match borrow_back st (hf_direct f) env with
  | Err e => (st, Answer (Err ("reacquire host " +:+ what +:+ ": " +:+ e)))
  | Ok _ =>
      match js_call st (hf_direct f) args with
      | (st, None) => (st, Hang (RunsForever (hf_direct f)))
      | (st, Some (Err e)) => (st, Answer (Err ("host " +:+ what +:+ " threw: " +:+ e)))
      | (st, Some (Ok value)) =>
          (st, Answer
            match is_promise st value with
            | Err e => Err ("host " +:+ what +:+ " result: " +:+ e)
            | Ok true =>
                Err ("host " +:+ what +:+ " returned a Promise on the synchronous path; an async dispatcher " +:+
                  "needs intercept(), not interceptSync() or evaluate()")
            | Ok false => string_answer st what value
            end)
      end
  end.

Definition deliver (st : NodeState) (what : string) (run : PostedRun) : Delivery :=
  let now (answer : HostAnswer) := mkDelivery [answer] None None in
  match pr_returned run with
  | Err e => now (Err ("host " +:+ what +:+ " threw: " +:+ e))
  | Ok value =>
      match is_promise st value with
      | Err e => now (Err ("host " +:+ what +:+ " result: " +:+ e))
      | Ok false => now (string_answer st what value)
      | Ok true =>
          match cast_promise st value with
          | Err e => now (Err ("host " +:+ what +:+ " result: " +:+ e))
          | Ok _ =>
              let on_failure e := Err ("host " +:+ what +:+ " returned a Promise that could not be awaited: " +:+ e) in
              let fulfilled (units : JsText) : HostAnswer := Ok units in
              let rejected reason := Err ("host " +:+ what +:+ " rejected: " +:+ describe st reason) in
              match pr_then run with
              | Err e => mkDelivery [on_failure e] None None
              | Ok _ =>
                  match pr_catch run with
                  | Err e => mkDelivery [on_failure e] (Some fulfilled) None
                  | Ok _ => mkDelivery [] (Some fulfilled) (Some rejected)
                  end
              end
          end
      end
  end.

(** The answers the handlers send: the first handler converts a fulfilled
    value, and a value it cannot convert rejects the chained promise. *)
Definition settle_handlers (st : NodeState) (d : Delivery) (settled : Settled) : list HostAnswer :=
  let on_rejected reason := match d_rejected d with Some send => [send reason] | None => [] end in
  match settled with
  | FulfilledWith value =>
      match d_fulfilled d with
      | Some send =>
          match cast_text st value with Ok units => [send units] | Err _ => on_rejected (cast_error st value) end
      | None => []
      end
  | RejectedWith reason => on_rejected reason
  | NeverSettles | PromiseDropped => []
  end.

(** [rx.recv()]: the first answer sent; an error when none is left to come;
    never, while a handler that may still send is alive. *)
Definition recv (d : Delivery) (later : list HostAnswer) (settled : Settled) : option (option HostAnswer) :=
  match d_sent d ++ later with
  | answer :: _ => Some (Some answer)
  | [] =>
      match settled, d_fulfilled d with
      | NeverSettles, Some _ => None
      | _, _ => Some None
      end
  end.

Definition went_away (what : string) : HostAnswer := Err ("host " +:+ what +:+ " went away before it answered").

Definition call_from_worker (f : HostFunction) (what : string) (args : list string) : node HostAnswer := λ st,
  let st := if decide (thread st = hf_js_thread f) then waits_for_itself st else st in
  let (st, posted) := tsfn_post st (hf_direct f) args in
  match posted with
  | NotPosted status =>
      (st, Answer (Err ("host " +:+ what +:+ " could not be posted to the JS thread: " +:+ status)))
  | Ran run =>
      let d := deliver st what run in
      match recv d (settle_handlers st d (pr_settled run)) (pr_settled run) with
      | Some (Some answer) => (st, Answer answer)
      | Some None => (st, Answer (went_away what))
      | None => (st, Hang (WaitsForever (hf_direct f)))
      end
  | DroppedUnrun => (st, Answer (went_away what))
  | NeverReturns => (st, Hang (WaitsForever (hf_direct f)))
  end.

(** [HostFunction::call]. *)
Definition host_call (f : HostFunction) (what : string) (args : list string) : node HostAnswer := λ st,
  match current_env st with
  | None =>
      if decide (thread st = hf_js_thread f) then
        (st, Answer (Err ("host " +:+ what +:+ " was reached on the JS thread outside an evaluation entry point")))
      else call_from_worker f what args st
  | Some env => call_on_js_thread f what env args st
  end.

(** [HostFunction::new]. *)
Definition host_function_new (env : NapiEnv) (direct : JsFn) : node HostFunction := λ st,
  match borrow_back st direct env with
  | Err e => (st, Throw e)
  | Ok _ =>
      match build_threadsafe_function st direct with
      | Err e => (st, Throw e)
      | Ok _ => (st, Answer (mkHostFunction direct (thread st)))
      end
  end.
End host_functions.

(** ** The dispatchers and the sink *)

Section dispatchers.
Context {W : Type} `{JsHost W} `{SerdeJson} `{SerdeValue} `{FfiSerde}.
Notation NodeState := (NodeState W).
Notation node := (@node W).

(** What a host function answered, as JSON: [failed] is the stage's error. *)
Definition answer_json (what : string) (failed : string → RuntimeError) (answer : HostAnswer)
  : result RuntimeError JsonValue :=
  units ← map_err failed answer;
  raw ← map_err failed (decode ("host " +:+ what +:+ " result") units);
  map_err (λ e, failed ("host " +:+ what +:+ " returned non-JSON: " +:+ e)) (value_from_str raw).

Definition node_annotator_dispatch (f : HostFunction) (annotator_name : string) (annotator : AnnotatorInvocation)
  (preliminary_policy_input : JsonValue) : node (result RuntimeError JsonValue) :=
  match annotator_invocation_to_string annotator with
  | Err e => mret (Err (AnnotationFailed ("serialize annotator invocation: " +:+ e)))
  | Ok invocation_json =>
      match to_string preliminary_policy_input with
      | Err e => mret (Err (AnnotationFailed ("serialize preliminary policy input: " +:+ e)))
      | Ok policy_input_json =>
          raw ← host_call f "annotator dispatcher" [annotator_name; invocation_json; policy_input_json];
          mret (answer_json "annotator dispatcher" AnnotationFailed raw)
      end
  end.

Definition node_policy_evaluate (f : HostFunction) (invocation : PreparedPolicyInvocation)
  : node (result RuntimeError JsonValue) :=
  match prepared_to_string invocation with
  | Err e => mret (Err (PolicyInvocationFailed ("serialize policy invocation: " +:+ e)))
  | Ok invocation_json =>
      raw ← host_call f "policy dispatcher" [invocation_json];
      mret (answer_json "policy dispatcher" PolicyInvocationFailed raw)
  end.

(** Whatever the sink answers is dropped. *)
Definition node_emit `{AgentHooks} (f : HostFunction) (event : TelemetryEvent) : node () :=
  match to_string (telemetry_event_json event) with
  | Err _ => mret ()
  | Ok json => _ ← host_call f "telemetry sink" [json]; mret ()
  end.

(** The outcome the engine sees of a dispatcher's call: one that does not
    end has none, so it is remembered. *)
Definition node_call_outcome (r : NodeState * NodeOutcome (result RuntimeError JsonValue)) : NodeState * CallOutcome :=
  match r with
  | (st, Answer r) => (st, Runtime.Returned r)
  | (st, Hang why) => (with_hung st (Some why), Runtime.Panicked None)
  | (st, _) => (st, Runtime.Panicked None)
  end.

(** A thread that does not get further does nothing more. *)
Definition node_host `{AgentHooks} `{BundledHost W} (hooks : NodeHooks) : Host NodeState := {|
  annotator_dispatch st name invocation input :=
    match hung st with
    | Some _ => (st, Runtime.Panicked None)
    | None =>
      match nh_annotator hooks with
      | Some f => node_call_outcome (node_annotator_dispatch f name invocation input st)
      | None =>
          let (w, o) := bundled_annotator (nh_limits hooks) (node_world st) name invocation input in
          (with_node_world st w, o)
      end
    end;
  policy_evaluate st invocation :=
    match hung st with
    | Some _ => (st, Runtime.Panicked None)
    | None =>
      match nh_policy hooks with
      | Some f => node_call_outcome (node_policy_evaluate f invocation st)
      | None =>
          let (w, o) := bundled_policy (nh_limits hooks) (node_world st) invocation in (with_node_world st w, o)
      end
    end;
  telemetry_emit st event :=
    match hung st with
    | Some _ => st
    | None =>
      match nh_telemetry hooks with
      | Some f => match node_emit f event st with (st, Hang why) => with_hung st (Some why) | (st, _) => st end
      | None => st
      end
    end;
  instant_now st := clock_now (node_world st);
  elapsed_ms st start := clock_elapsed (node_world st) start |}.

(** A host's policy dispatcher has nothing to ready. *)
Definition node_warm `{WarmHost W} (hooks : NodeHooks) : WarmHost NodeState := {|
  policy_warm st invocation :=
    match nh_policy hooks with
    | Some _ => (st, Ok ())
    | None => let (w, r) := policy_warm (node_world st) invocation in (with_node_world st w, r)
    end |}.
End dispatchers.

(** ** The functions of the module *)

Section functions.
Context {W : Type} `{AgentHooksLaws} `{UrlCrate} `{SerdeJson} `{SerdeValue} `{Sha2} `{ManifestFormats}.
Context `{LoaderHost W} `{WarmHost W} `{JsHost W} `{BundledHost W} `{FfiSerde} `{NodeUnwinding W}.
Notation NodeState := (NodeState W).
Notation node := (@node W).

(** A call of the engine from the function [name]. *)
Definition node_engine {A} (name : string) (call : NodeState → NodeState * A) : node A := λ st,
  match node_unwinds name st with
  | Some w => (with_node_world st w, NodePanic)
  | None => let (st, a) := call st in (st, match hung st with Some why => Hang why | None => Answer a end)
  end.

(** One that sees only the world. *)
Definition of_world {A} (call : W → W * A) (st : NodeState) : NodeState * A :=
  let (w, a) := call (node_world st) in (with_node_world st w, a).

Definition node_decode (what : string) (value : JsText) : node string := or_throw id (decode what value).
Definition node_text {A} (r : result string A) (prefix : string) : node A := or_throw (λ e, prefix +:+ e) r.

Definition parse_perf (value : option JsText) : node PerfTelemetry :=
  match value with
  | None => mret PerfOff
  | Some value => raw ← node_decode "perfTelemetry" value; or_throw error_to_string (parse_perf_telemetry raw)
  end.

Definition parse_limits (value : option JsText) : node Limits :=
  match value with
  | None => mret default_limits
  | Some value =>
      raw ← node_decode "limits" value;
      if blank raw then mret default_limits
      else
        parsed ← node_text (value_from_str raw) "limits does not parse: ";
        or_throw error_to_string (limits_from_json parsed)
  end.

(** [default_limits]. *)
Definition node_default_limits : node string := or_throw id (to_string (limits_json default_limits)).

(** [build_annotator_with_limits], [build_policy_with_limits] and
    [build_telemetry]: [None] is the bundled one. *)
Definition build_hook (env : NapiEnv) (hook : option JsFn) : node (option HostFunction) :=
  match hook with Some f => f ← host_function_new env f; mret (Some f) | None => mret None end.

Definition context_snapshot (context_json : JsText) : node JsonMap :=
  context_json ← node_decode "context_json" context_json;
  snapshot ← node_text (value_from_str context_json) "context_json does not parse: ";
  match snapshot with JObject m => mret m | _ => throw "context_json must be a JSON object" end.

Definition verdict_wire (verdict : Verdict) : result string string :=
  map_err (λ e, "verdict serialization failed: " +:+ e) (verdict_to_string verdict).

Definition load_from (name path : string) (limits : Limits) : node (result RuntimeError Manifest) :=
  node_engine name (of_world (λ w, let (l, r) := from_path_with_limits path limits w in (load_world l, r))).

Definition no_hooks (limits : Limits) : NodeHooks := mkNodeHooks None None None limits.

Definition interceptor_new (manifest_path : JsText) : node Handle :=
  path ← node_decode "manifest_path" manifest_path;
  m ← load_from "interceptor_new" path default_limits;
  m ← or_throw error_to_string m;
  rt ← node_engine "interceptor_new" (λ st, (st, runtime_new m PerfOff default_limits));
  rt ← or_throw error_to_string rt;
  mret (mkHandle rt (no_hooks default_limits)).

Definition interceptor_new_with_hooks (env : NapiEnv) (manifest_path : JsText)
  (annotator_dispatcher policy_dispatcher telemetry_sink : option JsFn) (perf_telemetry limits_json : option JsText)
  : node Handle :=
  path ← node_decode "manifest_path" manifest_path;
  perf ← parse_perf perf_telemetry;
  limits ← parse_limits limits_json;
  m ← load_from "interceptor_new_with_hooks" path limits;
  m ← or_throw error_to_string m;
  annotations ← build_hook env annotator_dispatcher;
  policy ← build_hook env policy_dispatcher;
  telemetry ← build_hook env telemetry_sink;
  rt ← env_scope env (node_engine "interceptor_new_with_hooks" (λ st, (st, runtime_new m perf limits)));
  rt ← or_throw error_to_string rt;
  mret (mkHandle rt (mkNodeHooks annotations policy telemetry limits)).

(** [Runtime::evaluate] with the dispatchers of a handle. *)
Definition node_evaluating (handle : Handle) (snapshot : JsonMap) (st : NodeState) : NodeState * EvaluationResult :=
  let (run, r) := evaluate (H4 := node_host (handle_hooks handle)) (handle_runtime handle) (JObject snapshot)
    (mkRun st []) in
  (world run, r).

Definition intercept (env : NapiEnv) (handle : Handle) (context_json : JsText) : node string :=
  snapshot ← context_snapshot context_json;
  env_scope env (
    result ← node_engine "intercept" (node_evaluating handle snapshot);
    or_throw id (verdict_wire (er_verdict result))).

(** *** Evaluation on a thread of its own *)

(** A deferred settles once: the first to settle wins. *)
Definition settle (promise : positive) (outcome : result string string) (st : NodeState) : NodeState :=
  match deferreds st !! promise with
  | Some None => with_deferreds st (<[promise := Some outcome]> (deferreds st))
  | _ => st
  end.

Definition new_deferred : node positive := λ st,
  match create_deferred st with
  | Err e => (st, Throw e)
  | Ok _ =>
      let promise : positive := base.fresh (dom (deferreds st) : gset positive) in
      (with_deferreds st (<[promise := None]> (deferreds st)), Answer promise)
  end.

(** [spawn]: the closure, and the deferred in it, are dropped when no
    thread could be started. *)
Definition start_evaluation (promise : positive) (handle : Handle) (snapshot : JsonMap) : node positive := λ st,
  match spawn_thread st with
  | Ok _ => (with_evaluations st (evaluations st ++ [mkEvaluation promise handle snapshot]), Answer promise)
  | Err e => (settle promise (Err ("could not start an evaluation thread: " +:+ e)) st, Answer promise)
  end.

Definition intercept_async (handle : Handle) (context_json : JsText) : node positive :=
  snapshot ← context_snapshot context_json;
  promise ← new_deferred;
  start_evaluation promise handle snapshot.

(** The closure of the thread: [catch_unwind] around the evaluation. *)
Definition evaluation_outcome (e : Evaluation) : node (result string string) := λ st,
  match node_unwinds "intercept_async" st with
  | Some w => (with_node_world st w, Answer (Err "engine panicked during evaluation"))
  | None =>
      let (st, result) := node_evaluating (ev_handle e) (ev_snapshot e) st in
      (st, match hung st with Some why => Hang why | None => Answer (verdict_wire (er_verdict result)) end)
  end.

(** The thread from its start, and whether it ends: no environment is
    published on it, and what it does not get past stops it alone. The
    closure that settles the promise is its last step: a panic ends the
    thread before it, and drops the deferred unsettled. *)
Definition run_evaluation (e : Evaluation) (st : NodeState) : NodeState * bool :=
  let caller := st in
  let (st, r) := evaluation_outcome e (with_hung (on_thread (with_env st None) (EvaluationThread (ev_promise e))) None) in
  let st := with_hung (on_thread (with_env st (current_env caller)) (thread caller)) (hung caller) in
  match r with
  | Answer outcome => (settle (ev_promise e) outcome st, true)
  | Hang _ => (st, false)
  | Throw _ | NodePanic => (st, true)
  end.

(** *** Activated policies *)

Definition node_activating (name : string) (hooks : NodeHooks)
  (activation : warming NodeState ActivatedPolicy) : node PolicyHandle :=
  r ← node_engine name (λ st, let '((st, _), r) := activation (st, []) in (st, r));
  policy ← or_throw error_to_string r;
  mret (mkPolicyHandle policy hooks).

Definition policy_activate (manifest_path : JsText) : node PolicyHandle :=
  path ← node_decode "manifest_path" manifest_path;
  m ← load_from "policy_activate" path default_limits;
  m ← or_throw error_to_string m;
  let hooks := no_hooks default_limits in
  node_activating "policy_activate" hooks (activate_with (H5 := node_warm hooks) m).

Definition bundles_of (bundles_json : string) : node (btree string InMemoryRegoBundle) :=
  node_text (bundles_from_str bundles_json) "bundles_json does not parse: ".

Definition policy_activate_from_memory (manifest_yaml bundles_json : JsText) : node PolicyHandle :=
  yaml ← node_decode "manifest_yaml" manifest_yaml;
  bundles_json ← node_decode "bundles_json" bundles_json;
  bundles ← bundles_of bundles_json;
  let hooks := no_hooks default_limits in
  node_activating "policy_activate_from_memory" hooks (activate_from_memory_with (H5 := node_warm hooks) yaml bundles).

Definition policy_activate_with_hooks (env : NapiEnv) (manifest_path : JsText)
  (annotator_dispatcher policy_dispatcher : option JsFn) : node PolicyHandle :=
  path ← node_decode "manifest_path" manifest_path;
  m ← load_from "policy_activate_with_hooks" path default_limits;
  m ← or_throw error_to_string m;
  annotations ← build_hook env annotator_dispatcher;
  policy ← build_hook env policy_dispatcher;
  let hooks := mkNodeHooks annotations policy None default_limits in
  env_scope env (node_activating "policy_activate_with_hooks" hooks (activate_with (H5 := node_warm hooks) m)).

Definition policy_activate_from_memory_with_hooks (env : NapiEnv) (manifest_yaml bundles_json : JsText)
  (annotator_dispatcher policy_dispatcher : option JsFn) : node PolicyHandle :=
  yaml ← node_decode "manifest_yaml" manifest_yaml;
  bundles_json ← node_decode "bundles_json" bundles_json;
  bundles ← bundles_of bundles_json;
  annotations ← build_hook env annotator_dispatcher;
  policy ← build_hook env policy_dispatcher;
  let hooks := mkNodeHooks annotations policy None default_limits in
  env_scope env (node_activating "policy_activate_from_memory_with_hooks" hooks
    (activate_from_memory_with (H5 := node_warm hooks) yaml bundles)).

Definition node_activated_evaluating (handle : PolicyHandle) (point : InterceptionPoint) (snapshot : JsonMap)
  (st : NodeState) : NodeState * EvaluationResult :=
  let (run, r) := activated_evaluate (H4 := node_host (policy_hooks handle)) (policy_of handle) point
    (JObject snapshot) (mkRun st []) in
  (world run, r).

(** [policy_evaluate]. *)
Definition policy_evaluate_at (env : NapiEnv) (handle : PolicyHandle) (point context_json : JsText) : node string :=
  point_raw ← node_decode "point" point;
  point ← (match point_from_str point_raw with
    | Some p => mret p
    | None => throw ("unknown intervention point '" +:+ point_raw +:+ "'")
    end);
  snapshot ← context_snapshot context_json;
  env_scope env (
    result ← node_engine "policy_evaluate" (node_activated_evaluating handle point snapshot);
    or_throw id (verdict_wire (er_verdict result))).

Definition policy_intervention_points (handle : PolicyHandle) : list string :=
  point_as_str <$> activated_points (policy_of handle).

(** *** Manifests *)

Definition parsed_source (name : string) (source : JsText) (limits_json : option JsText)
  : node (result RuntimeError Manifest) :=
  source ← node_decode "source" source;
  limits ← parse_limits limits_json;
  node_engine name (λ st, (st, parse_yaml_str_with_limits source limits)).

(** A rejection is an answer, [Some] of its text. *)
Definition validate_manifest (source : JsText) (limits_json : option JsText) : node (option string) :=
  m ← parsed_source "validate_manifest" source limits_json;
  match m with
  | Err (ManifestInvalid detail) => mret (Some (error_to_string (ManifestInvalid detail)))
  | Err other => throw (error_to_string other)
  | Ok m =>
      if negb (bool_decide (extends m = [])) then
        throw ("manifest extends other manifests; validation needs the merged document. " +:+
          "Use validateManifestFile, which resolves the chain.")
      else mret (match validate m with Ok _ => None | Err e => Some (error_to_string e) end)
  end.

Definition validate_manifest_file (path : JsText) (limits_json : option JsText) : node (option string) :=
  path ← node_decode "path" path;
  limits ← parse_limits limits_json;
  m ← load_from "validate_manifest_file" path limits;
  match m with
  | Ok _ => mret None
  | Err (ManifestInvalid detail) => mret (Some detail)
  | Err other => throw (error_to_string other)
  end.

Definition supported_manifest_versions : list string := SUPPORTED.

Definition manifest_wire (m : Manifest) : node string :=
  node_text (manifest_to_string m) "manifest serialization failed: ".

Definition parse_manifest (source : JsText) (limits_json : option JsText) : node string :=
  m ← parsed_source "parse_manifest" source limits_json;
  m ← or_throw error_to_string m;
  manifest_wire m.

Definition merge_manifests (sources_json : JsText) (limits_json : option JsText) : node string :=
  raw ← node_decode "sources_json" sources_json;
  sources ← node_text (sources_from_str raw) "sources_json must be a JSON array of manifest sources: ";
  if bool_decide (sources = []) then throw "sources_json must name at least one source"
  else
    limits ← parse_limits limits_json;
    m ← node_engine "merge_manifests" (λ st, (st, from_yaml_chain_with_limits sources limits));
    m ← or_throw error_to_string m;
    manifest_wire m.

Definition findings_wire (findings : list RuntimeError) : node string :=
  node_text (to_string (JArray (diagnostic_json <$> findings))) "diagnostics serialization failed: ".

(** A rejection is a finding; any other failure is thrown. *)
Definition finding_of (r : result RuntimeError ()) : node (list RuntimeError) :=
  match r with
  | Ok _ => mret []
  | Err (ManifestInvalid detail) => mret [ManifestInvalid detail]
  | Err other => throw (error_to_string other)
  end.

Definition validate_manifest_detailed (source : JsText) (limits_json : option JsText) : node string :=
  m ← parsed_source "validate_manifest_detailed" source limits_json;
  findings ← match m with
    | Ok m =>
        if negb (bool_decide (extends m = [])) then
          mret [ManifestInvalid ("manifest extends other manifests; validation needs the merged document. " +:+
            "Use validate_manifest_file, which resolves the chain.")]
        else finding_of (validate m)
    | Err e => finding_of (Err e)
    end;
  findings_wire findings.

Definition validate_artifacts_detailed (manifest_yaml bundles_json : JsText) : node string :=
  yaml ← node_decode "manifest_yaml" manifest_yaml;
  bundles_json ← node_decode "bundles_json" bundles_json;
  bundles ← (if blank bundles_json then mret [] else bundles_of bundles_json);
  m ← node_engine "validate_artifacts_detailed" (λ st, (st, Yaml.from_yaml_str yaml));
  findings ← match m with
    | Err e => finding_of (Err e)
    | Ok m =>
        match validate m with
        | Err e => mret [e]
        | Ok _ =>
            activated ← node_engine "validate_artifacts_detailed" (of_world (λ w,
              let '((w', _), r) := activate_from_memory (process_env w) yaml bundles (w, []) in (w', r)));
            match activated with Ok _ => mret [] | Err e => mret [e] end
        end
    end;
  findings_wire findings.

(** *** Stream sessions *)

Definition parse_track_wire (raw : string) : node StreamTrack := or_throw stream_error_to_string (track_parse raw).
Definition parse_outcome_wire (raw : string) : node SegmentOutcome :=
  or_throw stream_error_to_string (outcome_parse raw).
Definition parse_source_wire (raw : string) : node StreamSourceType :=
  or_throw stream_error_to_string (source_type_parse raw).
Definition stream_result {A} (r : result StreamError A) : node A := or_throw stream_error_to_string r.

Definition new_stream (session : StreamSession) : node positive := λ st,
  let h : positive := base.fresh (dom (node_sessions st) : gset positive) in
  (with_node_sessions st (<[h := mkNodeSession false session]> (node_sessions st)), Answer h).

Definition stream_session_new (config_json : JsText) : node positive :=
  config_json ← node_decode "config_json" config_json;
  parsed ← node_text (value_from_str config_json) "config_json does not parse: ";
  match parsed with
  | JObject _ =>
      config ← stream_result (stream_config_from_json parsed);
      session ← stream_result (session_new config);
      new_stream session
  | _ => throw "config_json must be a JSON object"
  end.

(** [lock], and one operation under the mutex: a panic poisons it. *)
Definition lock {A} (name : string) (handle : positive) (op : StreamSession → StreamSession * A) : node A := λ st,
  match node_sessions st !! handle with
  | None => (st, NodePanic)
  | Some cell =>
      if ns_poisoned cell then (st, Throw "stream session mutex was poisoned")
      else
        match node_unwinds name st with
        | Some w =>
            (with_node_sessions (with_node_world st w)
               (<[handle := mkNodeSession true (node_torn st (ns_session cell))]> (node_sessions st)), NodePanic)
        | None =>
            let (s, a) := op (ns_session cell) in
            (with_node_sessions st (<[handle := mkNodeSession false s]> (node_sessions st)), Answer a)
        end
  end.

Definition stream_session_observe (handle : positive) (source_type : JsText) (runes : N) : node N :=
  raw ← node_decode "source_type" source_type;
  source ← parse_source_wire raw;
  r ← lock "stream_session_observe" handle (λ s, observe s source runes);
  stream_result r.

Definition stream_session_observe_text (handle : positive) (source_type text : JsText) : node N :=
  raw ← node_decode "source_type" source_type;
  source ← parse_source_wire raw;
  body ← node_decode "text" text;
  r ← lock "stream_session_observe_text" handle (λ s, observe_text s source body);
  stream_result r.

Definition stream_session_record_outcome (handle : positive) (task source_type : JsText) (start end_ : N)
  (outcome : JsText) : node () :=
  task ← node_decode "task" task;
  raw ← node_decode "source_type" source_type;
  source ← parse_source_wire raw;
  outcome_raw ← node_decode "outcome" outcome;
  outcome ← parse_outcome_wire outcome_raw;
  sp ← stream_result (span_new source start end_);
  r ← lock "stream_session_record_outcome" handle (λ s, record_outcome s task sp outcome);
  stream_result r.

Definition stream_session_record_verdict (handle : positive) (task source_type : JsText) (start end_ : N)
  (verdict_json : JsText) : node () :=
  task ← node_decode "task" task;
  source_raw ← node_decode "source_type" source_type;
  source ← parse_source_wire source_raw;
  raw ← node_decode "verdict_json" verdict_json;
  verdict ← node_text (verdict_from_str raw) "verdict_json does not parse: ";
  sp ← stream_result (span_new source start end_);
  r ← lock "stream_session_record_verdict" handle (λ s, record_verdict s task sp verdict);
  stream_result r.

(** The reading of a track, then one operation on it. *)
Definition on_track {A} (name : string) (handle : positive) (track : JsText)
  (op : StreamTrack → StreamSession → StreamSession * A) : node A :=
  raw ← node_decode "track" track;
  track ← parse_track_wire raw;
  lock name handle (op track).

Definition stream_session_advance (handle : positive) (track : JsText) : node (option N) :=
  on_track "stream_session_advance" handle track (λ track s, session_advance s track).
Definition stream_session_safe_offset (handle : positive) (track : JsText) : node (option N) :=
  on_track "stream_session_safe_offset" handle track (λ track s, (s, safe_offset s track)).
Definition stream_session_pending (handle : positive) (track : JsText) : node N :=
  on_track "stream_session_pending" handle track (λ track s, (s, session_pending s track)).

Definition stream_session_watermark (handle : positive) (track : JsText) : node string :=
  payload ← on_track "stream_session_watermark" handle track (λ track s,
    (s, watermark_json track (watermark s track)));
  node_text (to_string payload) "watermark serialization failed: ".

Definition stream_session_state (handle : positive) : node string :=
  payload ← lock "stream_session_state" handle (λ s, (s, stream_session_state_json s));
  node_text (to_string payload) "state serialization failed: ".

Definition stream_session_end_of_payloads (handle : positive) : node () :=
  lock "stream_session_end_of_payloads" handle (λ s, (end_of_payloads s, ())).

Definition stream_session_finish (handle : positive) : node string :=
  completion ← lock "stream_session_finish" handle finish;
  node_text (to_string (completion_json completion)) "completion serialization failed: ".
End functions.
