(* ===== verification/Python.v ===== *)
(** * The Python binding: [sdk/python/src/lib.rs]

    The functions of the extension module, over the interpreter they share
    with the host: its objects, its lock (the GIL) and the exceptions they
    raise. The host's Python code is an argument; the engine behind the
    functions is the one of this development. *)

From stdpp Require Import gmap fin_sets strings.
From Stdlib Require Import SpecFloat.
From S2P Require Import Prelude OrdMap RustStd Json Float64 Errors AgentHooks Constants Stream Paths PolicyInput.
From S2P Require Import Limits Hex Pins Policy PolicyOutput Manifest ManifestMerge Loader Yaml.
From S2P Require Import Telemetry Runtime Cedar CedarBuiltin Workers Rego Wire Activation Ffi.

(** ** Objects *)

(** The exception classes the binding raises, and those of Python code. *)
Inductive ExcClass := PyTypeError | PyValueError | PyRuntimeError | ExcManifestInvalid | PyOtherError (name : string).
#[export] Instance ExcClass_eq_dec : EqDecision ExcClass.
Proof. solve_decision. Defined.
Record PyErr := mkPyErr { pe_class : ExcClass; pe_text : string }.
#[export] Instance PyErr_eq_dec : EqDecision PyErr.
Proof. solve_decision. Defined.

(** A reference to an object. *)
Notation PyRef := positive.

(** An object as the binding's casts see it: subclasses count as their
    class. A string with a lone surrogate is not encodable; its text is
    what [to_string_lossy] gives. The type name of another object is an
    attribute, which may fail to be read. *)
Inductive PyObject :=
  | PyNone
  | PyBool (b : bool)
  | PyInt (i : Z)
  | PyFloat (x : spec_float)
  | PyStr (encodable : bool) (text : string)
  | PyList (items : list PyRef)
  | PyDict (entries : list (PyRef * PyRef))
  | PyOther (type_name : result PyErr string).

(** A [StreamSessionHandle]'s mutex: poisoned or not, and the session. *)
Record PySession := mkPySession { ps_poisoned : bool; ps_session : StreamSession }.

(** The interpreter and the world. [gil]: this thread holds the lock.
    [misused]: an object was touched without it. [stalled]: the engine
    read, fetched or evaluated while holding it. [crashed]: the native
    stack ran out, which ends the process. *)
Record PyState (W : Type) := mkPyState {
  heap : gmap positive PyObject;
  sessions : gmap positive PySession;
  gil : bool;
  misused : bool;
  stalled : bool;
  crashed : bool;
  py_world : W }.
Arguments mkPyState {W}.
Arguments heap {W}.
Arguments sessions {W}.
Arguments gil {W}.
Arguments misused {W}.
Arguments stalled {W}.
Arguments crashed {W}.
Arguments py_world {W}.

(** How a computation ends: with a value, an exception, a panic, or the
    end of the process. *)
Inductive PyOutcome (A : Type) : Type :=
  | Value (a : A)
  | Raise (e : PyErr)
  | PyPanic
  | Crash.
Arguments Value {A}.
Arguments Raise {A}.
Arguments PyPanic {A}.
Arguments Crash {A}.

Section monad.
Context {W : Type}.
Notation PyState := (PyState W).

Definition py (A : Type) : Type := PyState → PyState * PyOutcome A.

#[export] Instance py_ret : MRet py := λ A a st, (st, Value a).
#[export] Instance py_bind : MBind py := λ A B f m st,
  match m st with
  | (st, Value a) => f a st
  | (st, Raise e) => (st, Raise e)
  | (st, PyPanic) => (st, PyPanic)
  | (st, Crash) => (st, Crash)
  end.

Definition raise {A} (e : PyErr) : py A := λ st, (st, Raise e).
Definition of_result {E A} (exc : E → PyErr) (r : result E A) : py A :=
  match r with Ok a => mret a | Err e => raise (exc e) end.

(** [match m { Ok(a) => .., Err(e) => h(e) }]: a panic and a crash pass. *)
Definition caught {A} (m : py A) (handler : PyErr → py A) : py A := λ st,
  match m st with (st, Raise e) => handler e st | r => r end.

(** A [PyResult] as a value. *)
Definition attempt {A} (m : py A) : py (result PyErr A) := λ st,
  match m st with
  | (st, Value a) => (st, Value (Ok a))
  | (st, Raise e) => (st, Value (Err e))
  | (st, PyPanic) => (st, PyPanic)
  | (st, Crash) => (st, Crash)
  end.

Definition with_heap (st : PyState) (h : gmap positive PyObject) : PyState :=
  mkPyState h (sessions st) (gil st) (misused st) (stalled st) (crashed st) (py_world st).
Definition with_gil (st : PyState) (held : bool) : PyState :=
  mkPyState (heap st) (sessions st) held (misused st) (stalled st) (crashed st) (py_world st).
Definition with_sessions (st : PyState) (s : gmap positive PySession) : PyState :=
  mkPyState (heap st) s (gil st) (misused st) (stalled st) (crashed st) (py_world st).
Definition set_world (st : PyState) (w : W) : PyState :=
  mkPyState (heap st) (sessions st) (gil st) (misused st) (stalled st) (crashed st) w.

(** Anything done with an object needs the lock. *)
Definition touch (st : PyState) : PyState :=
  mkPyState (heap st) (sessions st) (gil st) (misused st || negb (gil st)) (stalled st) (crashed st) (py_world st).
(** The engine works: whoever holds the lock stalls the interpreter. *)
Definition engine_works (st : PyState) : PyState :=
  mkPyState (heap st) (sessions st) (gil st) (misused st) (stalled st || gil st) (crashed st) (py_world st).

(** [Python::attach] and [Python::detach], which restore the lock however
    their closure ends. *)
Definition attach {A} (m : py A) : py A := λ st,
  let (st', r) := m (with_gil st true) in (with_gil st' (gil st), r).
Definition detach {A} (m : py A) : py A := λ st,
  let (st', r) := m (with_gil (touch st) false) in (with_gil st' (gil st), r).

Definition new_object (o : PyObject) : py PyRef := λ st,
  let st := touch st in
  let r : positive := base.fresh (dom (heap st) : gset positive) in
  (with_heap st (<[r := o]> (heap st)), Value r).
Definition set_object (r : PyRef) (o : PyObject) : py () := λ st,
  let st := touch st in (with_heap st (<[r := o]> (heap st)), Value ()).
(** A reference keeps its object alive. *)
Definition object (r : PyRef) : py PyObject := λ st,
  let st := touch st in (st, Value (default PyNone (heap st !! r))).

Definition for_each_py {A} (f : A → py ()) : list A → py () :=
  fix go l := match l with [] => mret () | a :: l => f a ;; go l end.
Definition map_py {A B} (f : A → py B) : list A → py (list B) :=
  fix go l := match l with [] => mret [] | a :: l => b ← f a; l ← go l; mret (b :: l) end.
End monad.

(** ** Values *)

Definition i64_min : Z := -9223372036854775808.
Definition i64_max : Z := 9223372036854775807.

(** [Number::as_i64], [as_u64] and [as_f64]; [Value::from] of an integer
    and [Number::from_f64]. *)
Definition number_as_i64 (n : Number) : option Z :=
  match n with
  | PosInt n => if (Z.of_N n <=? i64_max)%Z then Some (Z.of_N n) else None
  | NegInt z => Some z
  | Float _ => None
  end.
Definition number_as_u64 (n : Number) : option N := match n with PosInt n => Some n | _ => None end.
Definition number_as_f64 (n : Number) : option spec_float :=
  Some (match n with
        | PosInt n => f64_of_Z (Z.of_N n)
        | NegInt z => f64_of_Z z
        | Float bits => f64_value bits
        end).
Definition json_of_i64 (i : Z) : JsonValue :=
  JNumber (if (i <? 0)%Z then NegInt i else PosInt (Z.to_N i)).

Section values.
Context {W : Type}.
Notation PyState := (PyState W).
Notation py := (@py W).

(** The last branch of a number needs one that is none of the three, which
    this build of serde_json has not. *)
Definition number_to_py (n : Number) : PyObject :=
  match number_as_i64 n with
  | Some i => PyInt i
  | None =>
      match number_as_u64 n with
      | Some u => PyInt (Z.of_N u)
      | None => match number_as_f64 n with Some f => PyFloat f | None => PyStr true "" end
      end
  end.

Definition list_append (r item : PyRef) : py () :=
  o ← object r;
  match o with PyList items => set_object r (PyList (items ++ [item])) | _ => mret () end.
Definition dict_set_item (r key item : PyRef) : py () :=
  o ← object r;
  match o with PyDict entries => set_object r (PyDict (entries ++ [(key, item)])) | _ => mret () end.

(** The loop of an array and of an object, by the writing of an element. *)
Definition append_all (write : JsonValue → py PyRef) (r : PyRef) : list JsonValue → py () :=
  fix go items := match items with
    | [] => mret ()
    | item :: items => i ← write item; list_append r i ;; go items
    end.
Definition set_all (write : JsonValue → py PyRef) (r : PyRef) : list (string * JsonValue) → py () :=
  fix go m := match m with
    | [] => mret ()
    | (key, v) :: m => i ← write v; k ← new_object (PyStr true key); dict_set_item r k i ;; go m
    end.

Fixpoint json_to_py (value : JsonValue) : py PyRef :=
  match value with
  | JNull => new_object PyNone
  | JBool b => new_object (PyBool b)
  | JNumber n => new_object (number_to_py n)
  | JString s => new_object (PyStr true s)
  | JArray items => r ← new_object (PyList []); append_all json_to_py r items ;; mret r
  | JObject m => r ← new_object (PyDict []); set_all json_to_py r m ;; mret r
  end.

Definition value_error (text : string) : PyErr := mkPyErr PyValueError text.

Definition int_to_json (i : Z) : py JsonValue :=
  if ((i64_min <=? i) && (i <=? i64_max))%Z then mret (json_of_i64 i)
  else if ((0 <=? i) && (i <=? Z.of_N u64_max))%Z then mret (JNumber (PosInt (Z.to_N i)))
  else raise (value_error "dispatcher returned an integer outside the 64-bit range").

Definition float_to_json (x : spec_float) : py JsonValue :=
  match f64_bits x with
  | Some bits => mret (JNumber (Float bits))
  | None => raise (value_error "dispatcher returned a non-finite float")
  end.

(** A key of a dict. *)
Definition key_to_string (r : PyRef) : py string :=
  o ← object r;
  match o with
  | PyStr true text => mret text
  | PyStr false _ => raise (value_error "dispatcher returned a dict key that is not encodable as UTF-8")
  | _ => raise (value_error "dispatcher returned a dict with a non-string key")
  end.

(** An entry of a dict, by the reading of its value. *)
Definition entry_with (read : PyRef → py JsonValue) (e : PyRef * PyRef) : py (string * JsonValue) :=
  k ← key_to_string e.1; v ← read e.2; mret (k, v).

(** [py_to_json]. [stack] is the number of frames the native stack has
    room for: the recursion has no bound of its own, and running out of
    stack ends the process. *)
Fixpoint py_to_json (stack : nat) (value : PyRef) : py JsonValue :=
  match stack with
  | O => λ st, (st, Crash)
  | S stack =>
      o ← object value;
      match o with
      | PyNone => mret JNull
      | PyBool b => mret (JBool b)
      | PyInt i => int_to_json i
      | PyFloat x => float_to_json x
      | PyStr true text => mret (JString text)
      | PyStr false _ => raise (value_error "dispatcher returned a string that is not encodable as UTF-8")
      | PyList items => out ← map_py (py_to_json stack) items; mret (JArray out)
      | PyDict entries =>
          out ← map_py (entry_with (py_to_json stack)) entries;
          mret (JObject (bt_of_list out))
      | PyOther type_name =>
          name ← of_result id type_name;
          raise (value_error ("dispatcher returned a value that does not fit the JSON grammar: " +:+ name))
      end
  end.
End values.

(** ** The host's Python code *)

(** Reading an attribute, calling an object and the methods of a mapping
    run code of the host, which may change any object; [PyErr]'s [Display]
    is PyO3's. *)
Class PyCode (W : Type) := {
  py_getattr : PyState W → PyRef → string → PyState W * result PyErr PyRef;
  py_call : PyState W → PyRef → list PyRef → PyState W * result PyErr PyRef;
  py_is_mapping : PyState W → PyRef → bool;
  py_items : PyState W → PyRef → PyState W * result PyErr (list PyRef);
  py_get_item : PyState W → PyRef → N → PyState W * result PyErr PyRef;
  py_unraisable : PyState W → PyErr → PyRef → PyState W;
  py_err_display : PyErr → string;
  stack_frames : nat }.

(** [serde_json::to_value] of what the dispatchers are handed. *)
Class PySerde := {
  annotator_invocation_to_value : AnnotatorInvocation → result string JsonValue;
  prepared_to_value : PreparedPolicyInvocation → result string JsonValue }.

(** Which calls of the engine panic, by the function they are made from,
    and the session a panic inside an operation leaves. *)
Class PyUnwinding (W : Type) := {
  py_unwinds : string → PyState W → option W;
  py_torn : PyState W → StreamSession → StreamSession }.

(** The host's objects of a runtime; the bundled dispatchers have these
    limits. *)
Record PyHooks := mkPyHooks {
  py_annotator : option PyRef;
  py_policy : option PyRef;
  py_telemetry : option PyRef;
  py_limits : Limits }.

Record RuntimeHandle := mkRuntimeHandle { rh_runtime : Runtime; rh_hooks : PyHooks }.
Record PolicyHandle := mkPolicyHandle { ph_policy : ActivatedPolicy; ph_hooks : PyHooks }.

Section callbacks.
Context {W : Type} `{PyCode W} `{PySerde}.
Notation PyState := (PyState W).
Notation py := (@py W).

(** Code of the host runs with the lock. *)
Definition python {A} (f : PyState → PyState * result PyErr A) : py A := λ st,
  match f (touch st) with (st, Ok a) => (st, Value a) | (st, Err e) => (st, Raise e) end.

Definition call_py_method (callback : PyRef) (method : string) (args : list PyRef) : py PyRef :=
  func ← attempt (python (λ st, py_getattr st callback method));
  match func with
  | Ok func => python (λ st, py_call st func args)
  | Err _ => python (λ st, py_call st callback args)
  end.

Definition py_err_to_annotation_failure (annotator_name : string) (err : PyErr) : RuntimeError :=
  AnnotationFailed ("host annotator '" +:+ annotator_name +:+ "' raised: " +:+ py_err_display err).
Definition py_err_to_policy_failure (err : PyErr) : RuntimeError :=
  PolicyInvocationFailed ("host policy dispatcher raised: " +:+ py_err_display err).

(** [?] after [map_err], in a closure that returns [Result<_, RuntimeError>]. *)
Definition try_py {A B} (m : py A) (convert : PyErr → RuntimeError) (f : A → py (result RuntimeError B))
  : py (result RuntimeError B) :=
  r ← attempt m;
  match r with Ok a => f a | Err e => mret (Err (convert e)) end.
Definition try_value {E A B} (r : result E A) (convert : E → RuntimeError) (f : A → py (result RuntimeError B))
  : py (result RuntimeError B) :=
  match r with Ok a => f a | Err e => mret (Err (convert e)) end.

(** [PyAnnotatorDispatcher::dispatch]. *)
Definition py_annotator_dispatch (callback : PyRef) (annotator_name : string) (annotator : AnnotatorInvocation)
  (preliminary_policy_input : JsonValue) : py (result RuntimeError JsonValue) :=
  let raised := py_err_to_annotation_failure annotator_name in
  attach
    (try_value (annotator_invocation_to_value annotator)
       (λ e, AnnotationFailed ("host annotator '" +:+ annotator_name +:+ "': failed to serialize invocation: " +:+ e))
       (λ invocation,
     try_py (json_to_py invocation) raised (λ invocation_py,
     try_py (json_to_py preliminary_policy_input) raised (λ prelim_py,
       name_py ← new_object (PyStr true annotator_name);
     try_py (call_py_method callback "dispatch" [name_py; invocation_py; prelim_py]) raised (λ result,
     try_py (py_to_json stack_frames result)
       (λ e, AnnotationFailed ("host annotator '" +:+ annotator_name +:+ "' returned a non-JSON value: " +:+
         py_err_display e))
       (λ v, mret (Ok v))))))).

(** [PyPolicyDispatcher::evaluate] and [warm]. *)
Definition py_policy_evaluate (callback : PyRef) (invocation : PreparedPolicyInvocation)
  : py (result RuntimeError JsonValue) :=
  attach
    (try_value (prepared_to_value invocation)
       (λ e, PolicyInvocationFailed ("failed to serialize policy invocation for host dispatcher: " +:+ e))
       (λ invocation_json,
     try_py (json_to_py invocation_json) py_err_to_policy_failure (λ invocation_py,
     try_py (call_py_method callback "evaluate" [invocation_py]) py_err_to_policy_failure (λ result,
     try_py (py_to_json stack_frames result)
       (λ e, PolicyInvocationFailed ("host policy dispatcher returned a non-JSON value: " +:+ py_err_display e))
       (λ v, mret (Ok v)))))).

Definition py_policy_warm (callback : PyRef) (invocation : PreparedPolicyInvocation) : py (result RuntimeError ()) :=
  attach
    (func ← attempt (python (λ st, py_getattr st callback "warm"));
     match func with
     | Err _ => mret (Ok ())
     | Ok func =>
         try_value (prepared_to_value invocation)
           (λ e, PolicyInvocationFailed ("failed to serialize policy invocation for host warm: " +:+ e))
           (λ invocation_json,
         try_py (json_to_py invocation_json) py_err_to_policy_failure (λ invocation_py,
         try_py (python (λ st, py_call st func [invocation_py])) py_err_to_policy_failure (λ _, mret (Ok ()))))
     end).

(** [err.write_unraisable]. *)
Definition write_unraisable (callback : PyRef) (e : PyErr) : py () :=
  λ st, (py_unraisable (touch st) e callback, Value ()).

(** [PyTelemetrySink::emit] and [shutdown]: what the sink raises is
    printed. *)
Definition py_emit `{AgentHooks} (callback : PyRef) (event : TelemetryEvent) : py () :=
  attach
    (event_py ← attempt (json_to_py (telemetry_event_json event));
     match event_py with
     | Err e => write_unraisable callback e
     | Ok event_py =>
         r ← attempt (call_py_method callback "emit" [event_py]);
         match r with Err e => write_unraisable callback e | Ok _ => mret () end
     end).

Definition py_shutdown (callback : PyRef) : py () :=
  attach
    (func ← attempt (python (λ st, py_getattr st callback "shutdown"));
     match func with
     | Ok func =>
         r ← attempt (python (λ st, py_call st func []));
         match r with Err e => write_unraisable callback e | Ok _ => mret () end
     | Err _ => mret ()
     end).

(** The outcome the engine sees of a dispatcher's call: the end of the
    process is not one, so it is remembered. *)
Definition py_call_outcome (r : PyState * PyOutcome (result RuntimeError JsonValue)) : PyState * CallOutcome :=
  match r with
  | (st, Value r) => (st, Runtime.Returned r)
  | (st, Crash) =>
      (mkPyState (heap st) (sessions st) (gil st) (misused st) (stalled st) true (py_world st), Runtime.Panicked None)
  | (st, _) => (st, Runtime.Panicked None)
  end.

(** The host of a runtime: Python objects where the caller gave them. *)
Definition py_host `{AgentHooks} `{BundledHost W} (hooks : PyHooks) : Host PyState := {|
  annotator_dispatch st name invocation input :=
    match py_annotator hooks with
    | Some callback => py_call_outcome (py_annotator_dispatch callback name invocation input st)
    | None =>
        let st := engine_works st in
        let (w, o) := bundled_annotator (py_limits hooks) (py_world st) name invocation input in (set_world st w, o)
    end;
  policy_evaluate st invocation :=
    match py_policy hooks with
    | Some callback => py_call_outcome (py_policy_evaluate callback invocation st)
    | None =>
        let st := engine_works st in
        let (w, o) := bundled_policy (py_limits hooks) (py_world st) invocation in (set_world st w, o)
    end;
  telemetry_emit st event :=
    match py_telemetry hooks with Some callback => (py_emit callback event st).1 | None => st end;
  instant_now st := clock_now (py_world st);
  elapsed_ms st start := clock_elapsed (py_world st) start |}.

(** [warm] answers, whatever the host's code does ([py_policy_warm_value]). *)
Definition py_warm `{WarmHost W} (hooks : PyHooks) : WarmHost PyState := {|
  policy_warm st invocation :=
    match py_policy hooks with
    | Some callback =>
        match py_policy_warm callback invocation st with
        | (st, Value r) => (st, r)
        | (st, _) => (st, Ok ())
        end
    | None =>
        let st := engine_works st in
        let (w, r) := policy_warm (py_world st) invocation in (set_world st w, r)
    end |}.

(** ** Limits *)

Definition type_error (text : string) : PyErr := mkPyErr PyTypeError text.
Definition runtime_error (text : string) : PyErr := mkPyErr PyRuntimeError text.

Definition limits_defaults_map : py PyRef :=
  match limits_json default_limits with
  | JObject fields =>
      dict ← new_object (PyDict []);
      for_each_py (λ e, v ← json_to_py e.2; k ← new_object (PyStr true e.1); dict_set_item dict k v) fields ;;
      mret dict
  | _ => raise (runtime_error "wire::limits_json returned a non-object value")
  end.
Definition py_default_limits : py PyRef := limits_defaults_map.

(** One entry of the mapping: a pair whose key is a string. *)
Definition limits_entry (pair : PyRef) : py (string * JsonValue) :=
  key ← python (λ st, py_get_item st pair 0);
  value ← python (λ st, py_get_item st pair 1);
  o ← object key;
  match o with
  | PyStr _ text => v ← py_to_json stack_frames value; mret (text, v)
  | _ => raise (type_error "limits key must be a string identifying a cap")
  end.

Definition resolve_limits (limits : option PyRef) : py Limits :=
  match limits with
  | None => mret default_limits
  | Some value =>
      attach
        (o ← object value;
         match o with
         | PyNone => mret default_limits
         | _ =>
             mapping ← (λ st, (touch st, Value (py_is_mapping st value)));
             if negb mapping then raise (type_error "limits must be a Mapping[str, int] or None")
             else
               items ← python (λ st, py_items st value);
               entries ← map_py limits_entry items;
               of_result (λ e, value_error (error_to_string e))
                 (limits_from_json (JObject (bt_of_list entries)))
         end)
  end.
End callbacks.

(** ** The functions of the module *)

Section functions.
Context {W : Type} `{AgentHooksLaws} `{UrlCrate} `{SerdeJson} `{SerdeValue} `{Sha2} `{ManifestFormats}.
Context `{LoaderHost W} `{WarmHost W} `{PyCode W} `{BundledHost W} `{FfiSerde} `{PySerde} `{PyUnwinding W}.
Notation PyState := (PyState W).
Notation py := (@py W).

(** A call of the engine from the function [name]. *)
Definition py_engine {A} (name : string) (call : PyState → PyState * A) : py A := λ st,
  match py_unwinds name st with
  | Some w => (set_world st w, PyPanic)
  | None => let (st, a) := call st in (st, if crashed st then Crash else Value a)
  end.

(** One that reads, fetches or evaluates. *)
Definition works {A} (call : W → W * A) (st : PyState) : PyState * A :=
  let st := engine_works st in
  let (w, a) := call (py_world st) in (set_world st w, a).

Definition display_error (e : RuntimeError) : PyErr := value_error (error_to_string e).
Definition display_runtime (e : RuntimeError) : PyErr := runtime_error (error_to_string e).
Definition prefixed (exc : string → PyErr) (prefix : string) (e : string) : PyErr := exc (prefix +:+ e).

Definition load_manifest (name path : string) (limits : Limits) : py (result RuntimeError Manifest) :=
  py_engine name (works (λ w, let (l, r) := from_path_with_limits path limits w in (load_world l, r))).

Definition interceptor_new (manifest_path : string) (annotator_dispatcher policy_dispatcher telemetry_sink : option PyRef)
  (perf_telemetry : string) (limits : option PyRef) : py RuntimeHandle :=
  perf ← of_result display_error (parse_perf_telemetry perf_telemetry);
  limits ← resolve_limits limits;
  let hooks := mkPyHooks annotator_dispatcher policy_dispatcher telemetry_sink limits in
  runtime ← detach (
    m ← load_manifest "interceptor_new" manifest_path limits;
    m ← of_result display_error m;
    rt ← py_engine "interceptor_new" (λ st, (st, runtime_new m perf limits));
    of_result display_runtime rt);
  mret (mkRuntimeHandle runtime hooks).

(** A context: a JSON object. *)
Definition context_object (context_json : string) : py JsonMap :=
  snapshot ← of_result (prefixed value_error "context_json does not parse: ") (value_from_str context_json);
  match snapshot with
  | JObject m => mret m
  | _ => raise (value_error "context_json must be a JSON object")
  end.

Definition verdict_text (verdict : Verdict) : py string :=
  of_result (prefixed runtime_error "verdict serialization failed: ") (verdict_to_string verdict).

Definition py_evaluating (hooks : PyHooks) (rt : Runtime) (snapshot : JsonValue) (st : PyState)
  : PyState * EvaluationResult :=
  let st := engine_works st in
  let (run, r) := evaluate (H4 := py_host hooks) rt snapshot (mkRun st []) in (world run, r).

Definition intercept (handle : RuntimeHandle) (context_json : string) : py string :=
  snapshot ← context_object context_json;
  result ← detach (py_engine "intercept"
    (py_evaluating (rh_hooks handle) (rh_runtime handle) (JObject snapshot)));
  verdict_text (er_verdict result).

(** *** Manifests *)

Definition manifest_error (error : RuntimeError) : PyErr :=
  match error with
  | ManifestInvalid _ => mkPyErr ExcManifestInvalid (error_to_string error)
  | other => value_error (error_to_string other)
  end.

Definition parse_source (name source : string) (limits : option PyRef) : py (result RuntimeError Manifest) :=
  limits ← resolve_limits limits;
  py_engine name (λ st, (st, parse_yaml_str_with_limits source limits)).

Definition validate_manifest (source : string) (limits : option PyRef) : py () :=
  m ← parse_source "validate_manifest" source limits;
  m ← of_result manifest_error m;
  if negb (bool_decide (extends m = [])) then
    raise (value_error ("manifest extends other manifests; validation needs the merged " +:+
      "document. Use validate_manifest_file, which resolves the chain."))
  else of_result (λ e, mkPyErr ExcManifestInvalid (error_to_string e)) (validate m).

Definition validate_manifest_file (path : string) (limits : option PyRef) : py () :=
  limits ← resolve_limits limits;
  m ← load_manifest "validate_manifest_file" path limits;
  of_result (λ e, match e with
    | ManifestInvalid detail => mkPyErr ExcManifestInvalid detail
    | other => value_error (error_to_string other)
    end) ((λ _, ()) <$> m).

Definition supported_manifest_versions : list string := SUPPORTED.

Definition manifest_text (failure : string) (m : Manifest) : py string :=
  of_result (prefixed runtime_error failure) (manifest_to_string m).

Definition parse_manifest (source : string) (limits : option PyRef) : py string :=
  m ← parse_source "parse_manifest" source limits;
  m ← of_result manifest_error m;
  manifest_text "manifest serialization failed: " m.

Definition merge_manifests (sources : list string) (limits : option PyRef) : py string :=
  limits ← resolve_limits limits;
  m ← py_engine "merge_manifests" (λ st, (st, from_yaml_chain_with_limits sources limits));
  m ← of_result manifest_error m;
  manifest_text "merged manifest serialization failed: " m.

Definition findings_text (findings : list RuntimeError) : py string :=
  of_result (prefixed runtime_error "diagnostics serialization failed: ")
    (to_string (JArray (diagnostic_json <$> findings))).

Definition extends_finding : RuntimeError :=
  ManifestInvalid ("manifest extends other manifests; validation needs the merged " +:+
    "document. Use validate_manifest_file or merge_manifests, both of which resolve the chain.").

(** A finding, or a boundary problem. *)
Definition finding (r : result RuntimeError ()) : py (list RuntimeError) :=
  match r with
  | Ok _ => mret []
  | Err (ManifestInvalid detail) => mret [ManifestInvalid detail]
  | Err other => raise (display_error other)
  end.

Definition validate_manifest_diagnostics (source : string) (limits : option PyRef) : py string :=
  m ← parse_source "validate_manifest_diagnostics" source limits;
  findings ← match m with
    | Ok m => if negb (bool_decide (extends m = [])) then mret [extends_finding] else finding (validate m)
    | Err e => finding (Err e)
    end;
  findings_text findings.

Definition validate_artifacts_diagnostics (manifest_yaml bundles_json : string) : py string :=
  bundles ← (if blank bundles_json then mret []
    else of_result (prefixed value_error "bundles do not parse: ") (bundles_from_str bundles_json));
  m ← py_engine "validate_artifacts_diagnostics" (λ st, (st, Yaml.from_yaml_str manifest_yaml));
  findings ← match m with
    | Err e => finding (Err e)
    | Ok m =>
        match validate m with
        | Err e => mret [e]
        | Ok _ =>
            env ← (λ st, (st, Value (process_env (py_world st))));
            activated ← py_engine "validate_artifacts_diagnostics" (works (λ w,
              let '((w, _), r) := activate_from_memory env manifest_yaml bundles (w, []) in (w, r)));
            match activated with Ok _ => mret [] | Err e => mret [e] end
        end
    end;
  findings_text findings.

(** *** Activated policies *)

(** [ActivatedPolicy::activate] and [activate_from_memory..] over the
    interpreter: readying may call the host's [warm]. *)
Definition py_activating (name : string) (hooks : PyHooks) (activation : warming PyState ActivatedPolicy)
  : py (result RuntimeError ActivatedPolicy) :=
  py_engine name (λ st, let '((st, _), r) := activation (engine_works st, []) in (st, r)).

Definition policy_activate (manifest_path : string) (annotator_dispatcher policy_dispatcher telemetry_sink : option PyRef)
  (perf_telemetry : string) (limits : option PyRef) : py PolicyHandle :=
  perf ← of_result display_error (parse_perf_telemetry perf_telemetry);
  limits ← resolve_limits limits;
  let hooks := mkPyHooks annotator_dispatcher policy_dispatcher telemetry_sink limits in
  policy ← detach (
    m ← load_manifest "policy_activate" manifest_path limits;
    m ← of_result display_error m;
    rt ← py_engine "policy_activate" (λ st, (st, runtime_new m perf limits));
    rt ← of_result display_runtime rt;
    policy ← py_activating "policy_activate" hooks (activate (H4 := py_warm hooks) rt);
    of_result display_runtime policy);
  mret (mkPolicyHandle policy hooks).

Definition policy_activate_from_memory (manifest_yaml bundles_json : string)
  (annotator_dispatcher policy_dispatcher telemetry_sink : option PyRef) (perf_telemetry : string)
  (limits : option PyRef) : py PolicyHandle :=
  bundles ← of_result (prefixed value_error "bundles do not parse: ") (bundles_from_str bundles_json);
  perf ← of_result display_error (parse_perf_telemetry perf_telemetry);
  limits ← resolve_limits limits;
  let hooks := mkPyHooks annotator_dispatcher policy_dispatcher telemetry_sink limits in
  policy ← detach (
    policy ← py_activating "policy_activate_from_memory" hooks
      (activate_from_memory_with_telemetry_perf_and_limits (H5 := py_warm hooks) manifest_yaml bundles perf limits);
    of_result (λ e, match e with
      | ManifestInvalid detail => mkPyErr ExcManifestInvalid detail
      | other => display_runtime other
      end) policy);
  mret (mkPolicyHandle policy hooks).

Definition py_activated_evaluate (hooks : PyHooks) (policy : ActivatedPolicy) (point : InterceptionPoint)
  (snapshot : JsonValue) (st : PyState) : PyState * EvaluationResult :=
  let st := engine_works st in
  let (run, r) := activated_evaluate (H4 := py_host hooks) policy point snapshot (mkRun st []) in (world run, r).

Definition policy_evaluate_point (handle : PolicyHandle) (point context_json : string) : py string :=
  parsed ← (match point_from_str point with
    | Some p => mret p
    | None => raise (value_error ("unknown intervention point '" +:+ point +:+ "'"))
    end);
  snapshot ← context_object context_json;
  result ← detach (py_engine "policy_evaluate"
    (py_activated_evaluate (ph_hooks handle) (ph_policy handle) parsed (JObject snapshot)));
  verdict_text (er_verdict result).

Definition policy_intervention_points (handle : PolicyHandle) : list string :=
  point_as_str <$> activated_points (ph_policy handle).

(** *** Stream sessions *)

Definition stream_err (error : StreamError) : PyErr := value_error (stream_error_to_string error).
Definition json_string (value : JsonValue) : py string :=
  of_result (prefixed runtime_error "stream JSON serialization failed: ") (to_string value).

Definition new_session (s : StreamSession) : py positive := λ st,
  let h : positive := base.fresh (dom (sessions st) : gset positive) in
  (with_sessions st (<[h := mkPySession false s]> (sessions st)), Value h).

Definition stream_session_new (safety_level : string) (request_start_rune_offset response_start_rune_offset : N)
  (request_tasks response_tasks : list string) : py positive :=
  level ← of_result stream_err (safety_level_parse safety_level);
  s ← of_result stream_err (session_new
    (mkConfig level request_start_rune_offset response_start_rune_offset request_tasks response_tasks));
  new_session s.

(** [locked], and one operation under the mutex: a panic poisons it. *)
Definition locked_session {A} (name : string) (handle : positive)
  (op : StreamSession → StreamSession * A) : py A := λ st,
  match sessions st !! handle with
  | None => (st, PyPanic)
  | Some cell =>
      if ps_poisoned cell then (st, Raise (runtime_error "streaming session mutex was poisoned"))
      else
        match py_unwinds name st with
        | Some w =>
            (with_sessions (set_world st w)
               (<[handle := mkPySession true (py_torn st (ps_session cell))]> (sessions st)), PyPanic)
        | None =>
            let (s, a) := op (ps_session cell) in
            (with_sessions st (<[handle := mkPySession false s]> (sessions st)), Value a)
        end
  end.
Definition reading {A} (name : string) (handle : positive) (read : StreamSession → A) : py A :=
  locked_session name handle (λ s, (s, read s)).

Definition stream_observe (handle : positive) (source_type : string) (runes : N) : py N :=
  source ← of_result stream_err (source_type_parse source_type);
  r ← locked_session "stream_observe" handle (λ s, observe s source runes);
  of_result stream_err r.

Definition stream_observe_text (handle : positive) (source_type text : string) : py N :=
  source ← of_result stream_err (source_type_parse source_type);
  r ← locked_session "stream_observe_text" handle (λ s, observe_text s source text);
  of_result stream_err r.

Definition stream_record_outcome (handle : positive) (task source_type : string) (start end_ : N) (outcome : string)
  : py () :=
  source ← of_result stream_err (source_type_parse source_type);
  outcome ← of_result stream_err (outcome_parse outcome);
  sp ← of_result stream_err (span_new source start end_);
  r ← locked_session "stream_record_outcome" handle (λ s, record_outcome s task sp outcome);
  of_result stream_err r.

Definition stream_record_verdict (handle : positive) (task source_type : string) (start end_ : N)
  (verdict_json : string) : py () :=
  source ← of_result stream_err (source_type_parse source_type);
  sp ← of_result stream_err (span_new source start end_);
  verdict ← of_result (prefixed value_error "verdict_json does not parse: ") (verdict_from_str verdict_json);
  r ← locked_session "stream_record_verdict" handle (λ s, record_verdict s task sp verdict);
  of_result stream_err r.

Definition stream_advance (handle : positive) (track : string) : py (option N) :=
  track ← of_result stream_err (track_parse track);
  locked_session "stream_advance" handle (λ s, session_advance s track).

Definition stream_safe_offset (handle : positive) (track : string) : py (option N) :=
  track ← of_result stream_err (track_parse track);
  reading "stream_safe_offset" handle (λ s, safe_offset s track).

Definition stream_pending (handle : positive) (track : string) : py N :=
  track ← of_result stream_err (track_parse track);
  reading "stream_pending" handle (λ s, session_pending s track).

Definition stream_watermark (handle : positive) (track : string) : py string :=
  track ← of_result stream_err (track_parse track);
  mark ← reading "stream_watermark" handle (λ s, watermark s track);
  json_string (watermark_json track mark).

Definition stream_end_of_payloads (handle : positive) : py () :=
  locked_session "stream_end_of_payloads" handle (λ s, (end_of_payloads s, ())).

Definition stream_finish (handle : positive) : py string :=
  completion ← locked_session "stream_finish" handle finish;
  json_string (completion_json completion).

Definition stream_is_ended (handle : positive) : py bool := reading "stream_is_ended" handle is_ended.
Definition stream_transformed (handle : positive) : py bool := reading "stream_transformed" handle transformed.

Definition stream_end_reason (handle : positive) : py (option string) :=
  reason ← reading "stream_end_reason" handle s_ended;
  match reason with
  | Some reason => text ← json_string (end_reason_json reason); mret (Some text)
  | None => mret None
  end.

Definition stream_config (handle : positive) : py string :=
  config ← reading "stream_config" handle s_config;
  json_string (stream_config_json config).
End functions.

(** ** Rego sources for authoring *)

(** [check_authoring_complexity]: the locals of the loop. *)
Record Authoring := mkAuthoring {
  au_quote : option Ascii.ascii;
  au_escaped : bool;
  au_comment : bool;
  au_word : bool;
  au_depth : N;
  au_operations : N;
  au_work : N }.

Definition authoring_start : Authoring := mkAuthoring None false false false 0 0 0.

Definition BUDGET_MESSAGE : string := "Rego authoring source exceeds parsing complexity budget".
Definition NESTING_MESSAGE : string := "Rego authoring nesting exceeds 12 levels".
Definition TOKENS_MESSAGE : string := "Rego authoring source exceeds 1024 structural tokens".

Definition is_word_byte (c : Ascii.ascii) : bool :=
  is_ascii_alphanumeric c || bool_decide (c = byte_of 95) || (128 <=? Ascii.N_of_ascii c)%N.
Definition opens (c : Ascii.ascii) : bool :=
  bool_decide (c = byte_of 91 ∨ c = byte_of 123 ∨ c = byte_of 40).
Definition closes (c : Ascii.ascii) : bool :=
  bool_decide (c = byte_of 93 ∨ c = byte_of 125 ∨ c = byte_of 41).
Definition operator_bytes : list Ascii.ascii :=
  byte_of <$> [46; 43; 45; 42; 47; 37; 38; 124; 33; 60; 62; 61; 58]%N.

(** One turn of the loop. *)
Definition authoring_step (a : Authoring) (c : Ascii.ascii) : result string Authoring :=
  let work := (au_work a + N.shiftl 1 (au_depth a))%N in
  if (262144 <? work)%N then Err BUDGET_MESSAGE
  else if au_comment a then
    Ok (mkAuthoring (au_quote a) (au_escaped a) (negb (bool_decide (c = byte_of 10))) (au_word a)
      (au_depth a) (au_operations a) work)
  else
    match au_quote a with
    | Some delimiter =>
        if au_escaped a then
          Ok (mkAuthoring (au_quote a) false false (au_word a) (au_depth a) (au_operations a) work)
        else if bool_decide (delimiter = byte_of 34 ∧ c = byte_of 92) then
          Ok (mkAuthoring (au_quote a) true false (au_word a) (au_depth a) (au_operations a) work)
        else
          Ok (mkAuthoring (if decide (c = delimiter) then None else au_quote a) false false (au_word a)
            (au_depth a) (au_operations a) work)
    | None =>
        let word := is_word_byte c in
        let operations := if word && negb (au_word a) then (au_operations a + 1)%N else au_operations a in
        let comment := bool_decide (c = byte_of 35) in
        let quote := if decide (c = byte_of 34 ∨ c = byte_of 96) then Some c else None in
        let depth := if opens c then (au_depth a + 1)%N else if closes c then (au_depth a - 1)%N else au_depth a in
        let operations :=
          if opens c || bool_decide (c ∈ operator_bytes) then (operations + 1)%N else operations in
        if opens c && (12 <? depth)%N then Err NESTING_MESSAGE
        else if (1024 <? operations)%N then Err TOKENS_MESSAGE
        else Ok (mkAuthoring quote (au_escaped a) comment word depth operations work)
    end.

Fixpoint authoring_loop (a : Authoring) (source : string) : result string () :=
  match source with
  | EmptyString => Ok ()
  | String c source => a ← authoring_step a c; authoring_loop a source
  end.

Definition check_authoring_complexity (source : string) : result string () := authoring_loop authoring_start source.

Section rego_ast.
Context {W : Type} `{PyUnwinding W}.

(** [add_policy] and [get_ast_as_json] of a new engine of regorus. *)
Class RegorusAst := {
  regorus_add_policy : string → result string ();
  regorus_ast : string → result string string }.

Definition parse_rego_ast `{RegorusAst} (source : string) : @py W string :=
  if (65536 <? str_len source)%N then raise (value_error "Rego authoring source exceeds 65536 bytes")
  else
    of_result value_error (check_authoring_complexity source) ;;
    detach (
      _ ← py_engine "parse_rego_ast" (λ st, (engine_works st, ()));
      of_result (prefixed value_error "invalid Rego source: ") (regorus_add_policy source) ;;
      ast ← of_result (prefixed runtime_error "AST serialization failed: ") (regorus_ast source);
      if (8 * 1024 * 1024 <? str_len ast)%N then raise (value_error "Rego authoring AST exceeds 8 MiB")
      else mret ast).
End rego_ast.
