(* ===== verification/PythonFacts.v ===== *)
(** * What the Python binding promises

    Values cross the boundary unchanged in both directions, and what has no
    JSON is refused; every use of an object holds the interpreter's lock
    and no evaluation does; what the host's code raises becomes a denial,
    not an exception; and the authoring check keeps its counters bounded. *)

From stdpp Require Import gmap fin_sets strings.
From Stdlib Require Import SpecFloat.
From S2P Require Import Prelude OrdMap RustStd Json Float64 Errors AgentHooks Constants Stream Paths PolicyInput.
From S2P Require Import Limits Hex Pins Policy PolicyOutput Manifest ManifestMerge Loader Yaml.
From S2P Require Import Telemetry Runtime RuntimeWorld Cedar CedarBuiltin Workers Rego Wire Activation Ffi Python.

(** ** What an object says *)

Notation Heap := (gmap positive PyObject).

(** The JSON of an integer: its own, within 64 bits. *)
Definition int_json (i : Z) : option JsonValue :=
  if ((i64_min <=? i) && (i <=? Z.of_N u64_max))%Z then Some (json_of_i64 i) else None.

(** [says h r v]: the object at [r] is a finite tree of plain values, and
    [v] is that tree. Equal keys of a dict (which strings of a subclass may
    be) keep the last. *)
Inductive says (h : Heap) : PyRef → JsonValue → Prop :=
  | says_none r : h !! r = Some PyNone → says h r JNull
  | says_bool r b : h !! r = Some (PyBool b) → says h r (JBool b)
  | says_int r i v : h !! r = Some (PyInt i) → int_json i = Some v → says h r v
  | says_float r x bits : h !! r = Some (PyFloat x) → f64_bits x = Some bits → says h r (JNumber (Float bits))
  | says_str r s : h !! r = Some (PyStr true s) → says h r (JString s)
  | says_list r refs items : h !! r = Some (PyList refs) → Forall2 (says h) refs items → says h r (JArray items)
  | says_dict r refs entries : h !! r = Some (PyDict refs) →
      Forall2 (λ p e, h !! p.1 = Some (PyStr true e.1) ∧ says h p.2 e.2) refs entries →
      says h r (JObject (bt_of_list entries)).

(** Induction through lists and dicts. *)
Lemma says_ind' (h : Heap) (P : PyRef → JsonValue → Prop) :
  (∀ r, h !! r = Some PyNone → P r JNull) →
  (∀ r b, h !! r = Some (PyBool b) → P r (JBool b)) →
  (∀ r i v, h !! r = Some (PyInt i) → int_json i = Some v → P r v) →
  (∀ r x bits, h !! r = Some (PyFloat x) → f64_bits x = Some bits → P r (JNumber (Float bits))) →
  (∀ r s, h !! r = Some (PyStr true s) → P r (JString s)) →
  (∀ r refs items, h !! r = Some (PyList refs) → Forall2 (says h) refs items → Forall2 P refs items →
    P r (JArray items)) →
  (∀ r refs entries, h !! r = Some (PyDict refs) →
    Forall2 (λ p e, h !! p.1 = Some (PyStr true e.1) ∧ says h p.2 e.2) refs entries →
    Forall2 (λ p e, P p.2 e.2) refs entries → P r (JObject (bt_of_list entries))) →
  ∀ r v, says h r v → P r v.
Proof.
  intros Hn Hb Hi Hf Hs Hl Hd. fix IH 3.
  intros r v [r0 Hr|r0 b Hr|r0 i w Hr Hw|r0 x bits Hr Hx|r0 s Hr|r0 refs items Hr Hall|r0 refs entries Hr Hall]; eauto.
  - apply (Hl r0 refs items Hr Hall). clear Hr. revert refs items Hall. fix IHl 3.
    intros refs items [|p e ps es Hv Hrest]; constructor; [by apply IH|by apply (IHl _ _ Hrest)].
  - apply (Hd r0 refs entries Hr Hall). clear Hr. revert refs entries Hall. fix IHl 3.
    intros refs entries [|p e ps es [Hk Hv] Hrest]; constructor; [by apply IH|by apply (IHl _ _ Hrest)].
Qed.

Lemma says_mono h h' r v : h ⊆ h' → says h r v → says h' r v.
Proof.
  intros Hsub. assert (∀ p o, h !! p = Some o → h' !! p = Some o) as Hl by (intros; by eapply lookup_weaken).
  induction 1 as [| | | | |r refs items Hr _ IH|r refs entries Hr Hsays IH] using says_ind'; eauto using says.
  eapply says_dict; [by apply Hl|]. clear Hr.
  induction Hsays as [|p e ps es [Hk _] _ IHs]; inversion IH; subst; constructor; [|by apply IHs].
  split; [by apply Hl|done].
Qed.

(** ** [py_to_json] reads exactly that *)

(** Every reference points to an object. *)
Definition refs_of (o : PyObject) : list PyRef :=
  match o with PyList refs => refs | PyDict refs => (refs.*1) ++ (refs.*2) | _ => [] end.
Definition closed (h : Heap) : Prop := ∀ r o, h !! r = Some o → ∀ q, q ∈ refs_of o → is_Some (h !! q).

Section reading.
Context {W : Type}.
Notation PyState := (PyState W).
Implicit Types st : PyState.

Lemma touch_held st : gil st = true → touch st = st.
Proof. destruct st as [h s g m t c w]. unfold touch. cbn. intros ->. cbn. by rewrite orb_false_r. Qed.

Lemma object_held st r o : gil st = true → heap st !! r = Some o → object r st = (st, Value o).
Proof. intros Hg Hr. unfold object. by rewrite touch_held, Hr. Qed.

(** A step that reads, and changes nothing. *)
Definition reads {A} st (m : @py W A) (o : PyOutcome A) : Prop := m st = (st, o).

Lemma bind_value {A B} (m : @py W A) (f : A → py B) st st' a : m st = (st', Value a) → (m ≫= f) st = f a st'.
Proof. intros Hm. unfold mbind, py_bind. by rewrite Hm. Qed.

Lemma map_py_state {A B} (f : A → @py W B) l st :
  (∀ a, a ∈ l → (f a st).1 = st) → (map_py f l st).1 = st.
Proof.
  induction l as [|a l IH]; intros Hf; [done|]. cbn. unfold mbind, py_bind.
  assert ((f a st).1 = st) as Ha by (apply Hf; set_solver). destruct (f a st) as [st1 []]; cbn in *; subst; try done.
  assert ((map_py f l st).1 = st) as Hl by (apply IH; set_solver).
  destruct (map_py f l st) as [st2 []]; cbn in *; by subst.
Qed.

Lemma map_py_value {A B} (f : A → @py W B) l st bs :
  (∀ a, a ∈ l → (f a st).1 = st) →
  (map_py f l st).2 = Value bs ↔ Forall2 (λ a b, (f a st).2 = Value b) l bs.
Proof.
  revert bs. induction l as [|a l IH]; intros bs Hf.
  { cbn. split; [by intros [= <-]|by inversion 1]. }
  assert ((f a st).1 = st) as Ha by (apply Hf; set_solver).
  assert (∀ a, a ∈ l → (f a st).1 = st) as Hl by (intros; apply Hf; set_solver).
  pose proof (map_py_state f l st Hl) as Hs. cbn. unfold mbind, py_bind.
  destruct (f a st) as [st1 [b|e| |]] eqn:Hfa; cbn in Ha; subst st1.
  2-4: split; [done|inversion 1 as [|? ? ? ? Hb]; subst; rewrite Hfa in Hb; discriminate Hb].
  specialize (λ bs, IH bs Hl). split.
  - intros Hv. destruct (map_py f l st) as [st2 [cs|e| |]] eqn:Hfl; try discriminate Hv.
    injection Hv as <-. constructor; [by rewrite Hfa|]. by apply IH.
  - inversion 1 as [|? b' ? bs' Hb Hbs]; subst. rewrite Hfa in Hb. injection Hb as <-.
    apply IH in Hbs. destruct (map_py f l st) as [st2 o]. cbn in Hs, Hbs. by subst.
Qed.

(** *** The leaves *)

Lemma int_to_json_spec (st : PyState) i v : (int_to_json i st).2 = Value v ↔ int_json i = Some v.
Proof.
  unfold int_to_json, int_json. change (Z.of_N u64_max) with 18446744073709551615%Z. unfold i64_min, i64_max.
  destruct (Z.leb_spec (-9223372036854775808) i); cbn.
  2: { rewrite (proj2 (Z.leb_gt 0 i)) by lia. done. }
  destruct (Z.leb_spec i 9223372036854775807); cbn.
  - rewrite (proj2 (Z.leb_le i _)) by lia. split; congruence.
  - rewrite (proj2 (Z.leb_le 0 i)) by lia. cbn. destruct (Z.leb_spec i 18446744073709551615); cbn; [|done].
    unfold json_of_i64. rewrite (proj2 (Z.ltb_ge i 0)) by lia. split; congruence.
Qed.

Lemma int_to_json_state (st : PyState) i : (int_to_json i st).1 = st.
Proof. unfold int_to_json. by repeat case_match. Qed.

Lemma float_to_json_spec (st : PyState) x v :
  (float_to_json x st).2 = Value v ↔ ∃ bits, f64_bits x = Some bits ∧ v = JNumber (Float bits).
Proof.
  unfold float_to_json. destruct (f64_bits x) as [bits|]; cbn; [|naive_solver].
  split; [intros [= <-]; by exists bits|]. by intros (? & [= <-] & ->).
Qed.

Lemma key_to_string_spec st r k :
  gil st = true → is_Some (heap st !! r) →
  (key_to_string r st).1 = st ∧ ((key_to_string r st).2 = Value k ↔ heap st !! r = Some (PyStr true k)).
Proof.
  intros Hg [o Hr]. unfold key_to_string. rewrite (bind_value _ _ _ _ _ (object_held st r o Hg Hr)), Hr.
  destruct o as [| | | |[] s| | |]; cbn; (split; [done|]); split; congruence.
Qed.

(** *** The whole *)

Lemma entry_state read st (e : PyRef * PyRef) :
  gil st = true → is_Some (heap st !! e.1) → (read e.2 st).1 = st → (entry_with read e st).1 = st.
Proof.
  intros Hg H1 Hv. unfold entry_with, mbind, py_bind. destruct (key_to_string_spec st e.1 "" Hg H1) as [Hk _].
  destruct (key_to_string e.1 st) as [st1 []]; cbn in Hk; subst st1; try done.
  destruct (read e.2 st) as [st1 []]; cbn in *; by subst.
Qed.

Lemma entry_value read st (e : PyRef * PyRef) (kv : string * JsonValue) :
  gil st = true → is_Some (heap st !! e.1) → (read e.2 st).1 = st →
  (entry_with read e st).2 = Value kv ↔
  heap st !! e.1 = Some (PyStr true kv.1) ∧ (read e.2 st).2 = Value kv.2.
Proof.
  intros Hg H1 Hv. destruct kv as [k v]. unfold entry_with, mbind, py_bind. cbn [fst snd].
  destruct (key_to_string_spec st e.1 k Hg H1) as [Hks Hk].
  destruct (key_to_string e.1 st) as [st1 [k'|err| |]]; cbn in Hks, Hk; subst st1;
    rewrite <- Hk; try (split; [done|by intros [[=] _]]).
  destruct (read e.2 st) as [st1 [w|err| |]]; cbn in *; subst; split; try naive_solver congruence.
Qed.

(** What reading needs of the state. *)
Definition readable st : Prop := gil st = true ∧ closed (heap st).

Lemma closed_item st r refs q : readable st → heap st !! r = Some (PyList refs) → q ∈ refs → is_Some (heap st !! q).
Proof. intros [_ Hcl] Hr Hq. by eapply Hcl. Qed.

Lemma closed_entry st r refs (e : PyRef * PyRef) : readable st → heap st !! r = Some (PyDict refs) → e ∈ refs →
  is_Some (heap st !! e.1) ∧ is_Some (heap st !! e.2).
Proof.
  intros [_ Hcl] Hr He. specialize (Hcl _ _ Hr). cbn in Hcl. setoid_rewrite elem_of_app in Hcl.
  split; apply Hcl; [left|right]; apply list_elem_of_fmap; by exists e.
Qed.

Lemma py_to_json_state n r st : readable st → is_Some (heap st !! r) → (py_to_json n r st).1 = st.
Proof.
  intros Hst. destruct (Hst) as [Hg _]. revert r. induction n as [|n IH]; intros r [o Hr]; [done|].
  cbn [py_to_json]. rewrite (bind_value _ _ _ _ _ (object_held st r o Hg Hr)).
  destruct o as [| |i|x|[] s|refs|refs|[name|e]]; try done.
  - apply int_to_json_state.
  - unfold float_to_json. by case_match.
  - assert ((map_py (py_to_json n) refs st).1 = st) as Hm.
    { apply map_py_state. intros q Hin. by apply IH, (closed_item st r refs). }
    unfold mbind, py_bind. destruct (map_py _ refs st) as [st1 []]; cbn in *; by subst.
  - assert ((map_py (entry_with (py_to_json n)) refs st).1 = st) as Hm.
    { apply map_py_state. intros e Hin. destruct (closed_entry st r refs e Hst Hr Hin). apply entry_state; auto. }
    unfold mbind, py_bind. destruct (map_py _ refs st) as [st1 []]; cbn in *; by subst.
Qed.

(** The outcome of a step that continues with a value. *)
Lemma then_value {A B} (m : @py W A) (f : A → B) st b :
  (m st).1 = st → ((x ← m; mret (f x)) st).2 = Value b ↔ ∃ a, (m st).2 = Value a ∧ b = f a.
Proof.
  unfold mbind, py_bind. destruct (m st) as [st1 [a|e| |]]; cbn; intros ->; split; naive_solver.
Qed.

Lemma Forall2_elem_impl {A B} (P Q : A → B → Prop) l k :
  (∀ a b, a ∈ l → P a b → Q a b) → Forall2 P l k → Forall2 Q l k.
Proof. intros HPQ Hall. induction Hall; constructor; [apply HPQ; set_solver|apply IHHall; set_solver]. Qed.

(** A value that is read is what the object says. *)
Lemma py_to_json_sound n r st v :
  readable st → is_Some (heap st !! r) → (py_to_json n r st).2 = Value v → says (heap st) r v.
Proof.
  intros Hst. destruct (Hst) as [Hg _]. revert r v. induction n as [|n IH]; intros r v [o Hr]; [done|].
  cbn [py_to_json]. rewrite (bind_value _ _ _ _ _ (object_held st r o Hg Hr)).
  destruct o as [|b|i|x|[] s|refs|refs|[name|e]]; try done.
  - intros [= <-]. by apply says_none.
  - intros [= <-]. by apply says_bool.
  - rewrite int_to_json_spec. by apply says_int.
  - rewrite float_to_json_spec. intros (bits & Hb & ->). by eapply says_float.
  - intros [= <-]. by apply says_str.
  - assert (∀ q, q ∈ refs → (py_to_json n q st).1 = st) as Hq
      by (intros; by apply py_to_json_state, (closed_item st r refs)).
    rewrite then_value by (by apply map_py_state). intros (out & Hout & ->). apply map_py_value in Hout; [|done].
    eapply says_list; [done|]. eapply Forall2_elem_impl; [|exact Hout]. intros q w Hin Hw.
    by eapply IH; [eapply closed_item|].
  - assert (∀ e, e ∈ refs → (py_to_json n e.2 st).1 = st) as Hq.
    { intros e He. apply py_to_json_state, (closed_entry st r refs); done. }
    assert (∀ e, e ∈ refs → (entry_with (py_to_json n) e st).1 = st) as Hes.
    { intros e He. destruct (closed_entry st r refs e Hst Hr He). apply entry_state; auto. }
    rewrite then_value by (by apply map_py_state). intros (out & Hout & ->). apply map_py_value in Hout; [|done].
    eapply says_dict; [done|]. eapply Forall2_elem_impl; [|exact Hout]. intros e w Hin Hw.
    destruct (closed_entry st r refs e Hst Hr Hin) as [H1 H2]. apply entry_value in Hw as [Hk Hv]; auto.
Qed.

(** Enough stack for some values is enough for all of a list. *)
Lemma bound_all {A B} (P : nat → A → B → Prop) l k :
  Forall2 (λ a b, ∃ n, ∀ m, (n ≤ m)%nat → P m a b) l k → ∃ n, ∀ m, (n ≤ m)%nat → Forall2 (P m) l k.
Proof.
  induction 1 as [|a b l k [n1 H1] _ [n2 H2]]; [by exists 0|]. exists ((n1 `max` n2)%nat). intros m Hm.
  constructor; [apply H1|apply H2]; lia.
Qed.

(** What an object says is read, with stack enough for its depth. *)
Lemma py_to_json_complete r st v :
  readable st → says (heap st) r v → ∃ n, ∀ m, (n ≤ m)%nat → (py_to_json m r st).2 = Value v.
Proof.
  intros Hst. destruct (Hst) as [Hg _].
  assert (∀ m r refs q, heap st !! r = Some (PyList refs) → q ∈ refs → (py_to_json m q st).1 = st) as Hitem
    by (intros; by eapply py_to_json_state, closed_item).
  assert (∀ m r refs e, heap st !! r = Some (PyDict refs) → e ∈ refs → (py_to_json m e.2 st).1 = st) as Hentry
    by (intros; by eapply py_to_json_state, closed_entry).
  induction 1 as [r Hr|r b Hr|r i v Hr Hi|r x bits Hr Hx|r s Hr|r refs items Hr _ IH|r refs entries Hr Hs IH]
    using says_ind'.
  1-5: exists 1; intros [|m]; [lia|]; intros _; cbn [py_to_json];
    rewrite (bind_value _ _ _ _ _ (object_held st r _ Hg Hr)).
  - done.
  - done.
  - by apply int_to_json_spec.
  - apply float_to_json_spec. by exists bits.
  - done.
  - apply (bound_all (λ m q w, (py_to_json m q st).2 = Value w)) in IH as [n Hn]. exists (S n).
    intros [|m] Hm; [lia|]. cbn [py_to_json]. rewrite (bind_value _ _ _ _ _ (object_held st r _ Hg Hr)).
    apply then_value; [apply map_py_state; eauto|]. exists items. split; [|done].
    apply map_py_value; [eauto|]. apply Hn. lia.
  - apply (bound_all (λ m (p : PyRef * PyRef) (e : string * JsonValue), (py_to_json m p.2 st).2 = Value e.2)) in IH as [n Hn].
    exists (S n). intros [|m] Hm; [lia|]. cbn [py_to_json].
    rewrite (bind_value _ _ _ _ _ (object_held st r _ Hg Hr)).
    assert (∀ e, e ∈ refs → (entry_with (py_to_json m) e st).1 = st) as Hes.
    { intros e He. destruct (closed_entry st r refs e Hst Hr He). apply entry_state; eauto. }
    apply then_value; [by apply map_py_state|]. exists entries. split; [|done].
    apply map_py_value; [done|]. specialize (Hn m ltac:(lia)).
    assert (Forall2 (λ (p : PyRef * PyRef) (e : string * JsonValue),
      heap st !! p.1 = Some (PyStr true e.1) ∧ (py_to_json m p.2 st).2 = Value e.2) refs entries) as Hboth.
    { clear -Hs Hn. induction Hs as [|p e ps es [Hk _] _ IHs]; inversion Hn; subst; constructor; auto. }
    eapply Forall2_elem_impl; [|exact Hboth]. intros e kv He Hkv.
    destruct (closed_entry st r refs e Hst Hr He). apply entry_value; eauto.
Qed.

(** *** More stack changes no answer *)

(** [g] answers as [f] does where [f] does not run out of stack. *)
Definition extends_answers {A} (f g : @py W A) : Prop := ∀ st, (f st).2 ≠ Crash → g st = f st.

Lemma extends_bind {A B} (m m' : @py W A) (f f' : A → @py W B) :
  extends_answers m m' → (∀ a, extends_answers (f a) (f' a)) → extends_answers (m ≫= f) (m' ≫= f').
Proof.
  intros Hm Hf st. unfold mbind, py_bind. specialize (Hm st).
  destruct (m st) as [st1 [a|e| |]]; cbn in *; try (intros; by rewrite Hm). intros Hc.
  rewrite Hm by done. by apply Hf.
Qed.

Lemma extends_refl {A} (m : @py W A) : extends_answers m m.
Proof. done. Qed.

Lemma extends_map {A B} (f g : A → @py W B) l :
  (∀ a, extends_answers (f a) (g a)) → extends_answers (map_py f l) (map_py g l).
Proof.
  intros Hfg. induction l as [|a l IH]; [apply extends_refl|].
  cbn. apply extends_bind; [done|]. intros b. apply extends_bind; [done|]. intros. apply extends_refl.
Qed.

Lemma py_to_json_mono n m r : (n ≤ m)%nat → extends_answers (@py_to_json W n r) (py_to_json m r).
Proof.
  revert m r. induction n as [|n IH]; intros [|m] r Hm; [by intros st|by intros st|lia|]. cbn [py_to_json].
  apply extends_bind; [apply extends_refl|]. intros []; try apply extends_refl.
  - apply extends_bind; [|intros; apply extends_refl]. apply extends_map. intros. apply IH. lia.
  - apply extends_bind; [|intros; apply extends_refl]. apply extends_map. intros e.
    apply extends_bind; [apply extends_refl|]. intros. apply extends_bind; [|intros; apply extends_refl].
    apply IH. lia.
Qed.

Lemma py_to_json_stable n m r st : (n ≤ m)%nat → (py_to_json n r st).2 ≠ Crash →
  @py_to_json W m r st = py_to_json n r st.
Proof. intros Hnm. by apply py_to_json_mono. Qed.

(** *** When the stack is enough *)

(** The object is a tree of finite height: no list or dict contains
    itself. *)
Inductive finite (h : Heap) : PyRef → Prop :=
  | finite_intro r o : h !! r = Some o → (∀ q, q ∈ refs_of o → finite h q) → finite h r.

Definition suffices n r st : Prop := (@py_to_json W n r st).2 ≠ Crash.

Lemma suffices_mono n m r st : (n ≤ m)%nat → suffices n r st → suffices m r st.
Proof. intros Hnm Hn. unfold suffices. by rewrite (py_to_json_stable n m). Qed.

Lemma key_never_crashes r st : (@key_to_string W r st).2 ≠ Crash.
Proof. unfold key_to_string, mbind, py_bind, object. by destruct (default _ _) as [| | | |[]| | |]. Qed.

(** The bounds of the parts make one of the whole. *)
Lemma suffices_all (refs : list PyRef) st :
  (∀ q, q ∈ refs → ∃ n, suffices n q st) → ∃ n, ∀ q, q ∈ refs → suffices n q st.
Proof.
  induction refs as [|q refs IH]; intros Hall; [exists 0%nat; set_solver|].
  destruct IH as [n1 H1]; [set_solver|]. destruct (Hall q) as [n2 H2]; [set_solver|].
  exists (n1 `max` n2)%nat. intros q' [->|Hin]%elem_of_cons.
  - eapply suffices_mono; [|done]. lia.
  - eapply suffices_mono; [|by apply H1]. lia.
Qed.

Lemma map_never_crashes {A B} (f : A → @py W B) l st :
  (∀ a, a ∈ l → (f a st).1 = st ∧ (f a st).2 ≠ Crash) → (map_py f l st).2 ≠ Crash.
Proof.
  induction l as [|a l IH]; intros Hf; [done|]. cbn. unfold mbind, py_bind.
  destruct (Hf a) as [Ha Hc]; [set_solver|]. destruct (f a st) as [st1 []]; cbn in *; subst; try done.
  pose proof (IH (λ a' Ha', Hf a' ltac:(set_solver))) as Hl. destruct (map_py f l st) as [st2 []]; cbn in *; done.
Qed.

Lemma py_to_json_suffices r st : readable st → finite (heap st) r → ∃ n, suffices n r st.
Proof.
  intros Hst. destruct (Hst) as [Hg _]. induction 1 as [r o Hr Hq IH].
  destruct (suffices_all (refs_of o) st IH) as [n Hn]. exists (S n). unfold suffices. cbn [py_to_json].
  rewrite (bind_value _ _ _ _ _ (object_held st r o Hg Hr)). clear IH.
  destruct o as [| |i|x|[] s|refs|refs|[name|e]]; try done.
  - unfold int_to_json. by repeat case_match.
  - unfold float_to_json. by case_match.
  - assert ((map_py (py_to_json n) refs st).2 ≠ Crash) as Hm.
    { apply map_never_crashes. intros q Hin. split; [|by apply Hn]. by eapply py_to_json_state, closed_item. }
    unfold mbind, py_bind. by destruct (map_py _ refs st) as [st1 []].
  - assert ((map_py (entry_with (py_to_json n)) refs st).2 ≠ Crash) as Hm.
    { apply map_never_crashes. intros e Hin. destruct (closed_entry st r refs e Hst Hr Hin) as [H1 H2].
      pose proof (py_to_json_state n e.2 st Hst H2) as Hv. split; [by apply entry_state|].
      assert (suffices n e.2 st) as Hs.
      { apply Hn. cbn. apply elem_of_app. right. apply list_elem_of_fmap. by exists e. }
      unfold entry_with, mbind, py_bind. destruct (key_to_string_spec st e.1 "" Hg H1) as [Hk _].
      pose proof (key_never_crashes e.1 st) as Hc. destruct (key_to_string e.1 st) as [st1 [k|err| |]]; cbn [fst snd] in *; subst; [|done|done|done].
      unfold suffices in Hs. by destruct (py_to_json n e.2 st) as [st1 []]. }
    unfold mbind, py_bind. by destruct (map_py _ refs st) as [st1 []].
Qed.

(** A cycle along first items leaves no stack enough. *)
Lemma py_to_json_cyclic (on_cycle : PyRef → Prop) st :
  gil st = true →
  (∀ r, on_cycle r → ∃ q refs, heap st !! r = Some (PyList (q :: refs)) ∧ on_cycle q) →
  ∀ n r, on_cycle r → py_to_json n r st = (st, Crash).
Proof.
  intros Hg Hcycle. induction n as [|n IH]; intros r Hr; [done|].
  destruct (Hcycle r Hr) as (q & refs & Hl & Hq). cbn [py_to_json].
  rewrite (bind_value _ _ _ _ _ (object_held st r _ Hg Hl)). cbn. unfold mbind, py_bind. by rewrite (IH q Hq).
Qed.

Lemma py_to_json_panics n r st : (@py_to_json W n r st).2 ≠ PyPanic.
Proof.
  revert r st. induction n as [|n IH]; intros r st; [done|]. cbn [py_to_json].
  assert (∀ (A B : Type) (m : @py W A) (f : A → @py W B) st, (m st).2 ≠ PyPanic →
    (∀ a st, (f a st).2 ≠ PyPanic) → ((m ≫= f) st).2 ≠ PyPanic) as Hbind.
  { intros A B m f st' Hm Hf. unfold mbind, py_bind. by destruct (m st') as [st1 []]; cbn in *; try apply Hf. }
  assert (∀ (A B : Type) (f : A → @py W B) l st, (∀ a st, (f a st).2 ≠ PyPanic) → (map_py f l st).2 ≠ PyPanic) as Hmap.
  { intros A B f l st' Hf. revert st'. induction l as [|a l IHl]; intros st'; [done|].
    apply Hbind; [apply Hf|]. intros. by apply Hbind. }
  apply Hbind; [done|]. intros [| |i|x|[] s|refs|refs|[name|e]] st'; try done.
  - unfold int_to_json. by repeat case_match.
  - unfold float_to_json. by case_match.
  - apply Hbind; [|done]. by apply Hmap.
  - apply Hbind; [|done]. apply Hmap. intros e st2. apply Hbind.
    + unfold key_to_string. apply Hbind; [done|]. by intros [| | | |[]| | |].
    + intros k st3. by apply Hbind.
Qed.
End reading.

(** ** [json_to_py] writes it *)

(** What a JSON value of [serde_json] is: integers of 64 bits, each
    written one way, finite floats, and objects that are maps. *)
Definition number_in_range (n : Number) : Prop :=
  match n with
  | PosInt n => (n ≤ u64_max)%N
  | NegInt z => (i64_min ≤ z < 0)%Z
  | Float bits => (bits < 2 ^ 64)%N ∧ f64_exponent bits ≠ 2047%N
  end.
Fixpoint in_range (v : JsonValue) : Prop :=
  match v with
  | JNumber n => number_in_range n
  | JArray items => foldr (λ v p, in_range v ∧ p) True items
  | JObject m => foldr (λ e p, in_range e.2 ∧ p) True m
  | _ => True
  end.

Lemma number_to_py_says h r n :
  number_in_range n → h !! r = Some (number_to_py n) → says h r (JNumber n).
Proof.
  destruct n as [n|z|bits].
  - assert (number_to_py (PosInt n) = PyInt (Z.of_N n)) as -> by (unfold number_to_py; cbn; by destruct (_ <=? _)%Z).
    cbn. intros Hn Hr. change u64_max with 18446744073709551615%N in Hn.
    eapply says_int; [exact Hr|]. unfold int_json, json_of_i64, i64_min. change (Z.of_N u64_max) with 18446744073709551615%Z.
    rewrite (proj2 (Z.leb_le _ _)), (proj2 (Z.leb_le _ _)), (proj2 (Z.ltb_ge _ _)); [|lia..].
    cbn. by rewrite N2Z.id.
  - cbn. intros Hz Hr. eapply says_int; [exact Hr|]. unfold int_json, json_of_i64, i64_min in *.
    change (Z.of_N u64_max) with 18446744073709551615%Z.
    rewrite (proj2 (Z.leb_le _ _)), (proj2 (Z.leb_le _ _)), (proj2 (Z.ltb_lt _ _)); [done|lia..].
  - intros [Hb He] Hr. eapply says_float; [exact Hr|]. by apply f64_bits_value.
Qed.

Section writing.
Context {W : Type}.
Notation PyState := (PyState W).
Implicit Types st : PyState.

(** [h'] is [h] with new objects, among them the one at [r], that refer to
    each other only. *)
Record grown (h h' : Heap) (r : PyRef) : Prop := {
  grown_old : h ⊆ h';
  grown_new : h !! r = None ∧ is_Some (h' !! r);
  grown_closed : closed (h' ∖ h) }.

Lemma with_heap_twice st h h' : with_heap (with_heap st h) h' = with_heap st h'.
Proof. done. Qed.

Lemma new_object_held st o : gil st = true →
  ∃ r, new_object o st = (with_heap st (<[r := o]> (heap st)), Value r) ∧ heap st !! r = None.
Proof.
  intros Hg. unfold new_object. rewrite (touch_held st Hg). eexists. split; [done|].
  apply not_elem_of_dom. apply is_fresh.
Qed.

Lemma list_append_held st r refs i : gil st = true → heap st !! r = Some (PyList refs) →
  list_append r i st = (with_heap st (<[r := PyList (refs ++ [i])]> (heap st)), Value ()).
Proof.
  intros Hg Hr. unfold list_append. rewrite (bind_value _ _ _ _ _ (object_held st r _ Hg Hr)).
  unfold set_object. by rewrite (touch_held st Hg).
Qed.

Lemma dict_set_item_held st r refs k i : gil st = true → heap st !! r = Some (PyDict refs) →
  dict_set_item r k i st = (with_heap st (<[r := PyDict (refs ++ [(k, i)])]> (heap st)), Value ()).
Proof.
  intros Hg Hr. unfold dict_set_item. rewrite (bind_value _ _ _ _ _ (object_held st r _ Hg Hr)).
  unfold set_object. by rewrite (touch_held st Hg).
Qed.

(** What a container under construction holds: its children are complete,
    and none of them is the container. *)
Record filling (h0 h : Heap) (r : PyRef) (o : PyObject) : Prop := {
  fill_old : h0 ⊆ h;
  fill_new : h0 !! r = None;
  fill_here : h !! r = Some o;
  fill_refs : ∀ q, q ∈ refs_of o → is_Some ((delete r h ∖ h0) !! q);
  fill_closed : closed (delete r h ∖ h0) }.

Lemma new_some (h h' : Heap) q : is_Some ((h' ∖ h) !! q) ↔ is_Some (h' !! q) ∧ h !! q = None.
Proof.
  split.
  - intros [o Ho]. apply lookup_difference_Some in Ho as [Ho Hn]. by split; [exists o|].
  - intros [[o Ho] Hn]. exists o. by apply lookup_difference_Some.
Qed.

Lemma new_mono (h1 h2 h : Heap) : h1 ⊆ h2 → h1 ∖ h ⊆ h2 ∖ h.
Proof.
  intros Hsub. apply map_subseteq_spec. intros q p [Hq Hn]%lookup_difference_Some.
  apply lookup_difference_Some. split; [by eapply lookup_weaken|done].
Qed.

Lemma grown_scalar h r o : h !! r = None → refs_of o = [] → grown h (<[r := o]> h) r.
Proof.
  intros Hr Ho. split; [by apply insert_subseteq|by rewrite lookup_insert_eq|].
  intros q p Hp q' Hq'. apply lookup_difference_Some in Hp as [Hp Hn].
  destruct (decide (q = r)) as [->|Hne]; [|rewrite lookup_insert_ne in Hp by done; congruence].
  rewrite lookup_insert_eq in Hp. injection Hp as <-. rewrite Ho in Hq'. by apply elem_of_nil in Hq'.
Qed.

Lemma grown_trans h h1 h2 r1 r2 : grown h h1 r1 → grown h1 h2 r2 → grown h h2 r1 ∧ grown h h2 r2.
Proof.
  intros [Ho1 [Hn1 Hi1] Hc1] [Ho2 [Hn2 Hi2] Hc2].
  assert (h ⊆ h2) as Hsub by (by trans h1).
  assert (closed (h2 ∖ h)) as Hcl.
  { intros r o Hr q Hq. apply lookup_difference_Some in Hr as [Hr Hr0]. apply new_some.
    destruct (h1 !! r) as [o1|] eqn:Hr1.
    - assert (o1 = o) as -> by (pose proof (lookup_weaken _ _ _ _ Hr1 Ho2); congruence).
      destruct (proj1 (new_some h h1 q) (Hc1 r o (proj2 (lookup_difference_Some _ _ _ _) (conj Hr1 Hr0)) q Hq)) as [[? ?] ?].
      split; [eexists; by eapply lookup_weaken|done].
    - destruct (proj1 (new_some h1 h2 q) (Hc2 r o (proj2 (lookup_difference_Some _ _ _ _) (conj Hr Hr1)) q Hq)) as [? Hq1].
      split; [done|]. by eapply lookup_weaken_None. }
  split; split; try done; split; try done.
  - destruct Hi1 as [o ?]. exists o. by eapply lookup_weaken.
  - by eapply lookup_weaken_None.
Qed.

Lemma grown_here h h' r : grown h h' r → is_Some ((h' ∖ h) !! r).
Proof. intros [_ [] _]. by apply new_some. Qed.

Lemma filling_start h r o : h !! r = None → refs_of o = [] → filling h (<[r := o]> h) r o.
Proof.
  intros Hr Ho. split; [by apply insert_subseteq|done|by rewrite lookup_insert_eq|rewrite Ho; set_solver|].
  rewrite delete_insert_id by done. intros q p Hp. apply lookup_difference_Some in Hp as []. congruence.
Qed.

(** What a child adds stays apart from the container. *)
Lemma filling_apart h0 h r o h1 i :
  filling h0 h r o → grown h h1 i → h1 ∖ h ⊆ delete r h1 ∖ h0 ∧ delete r h ∖ h0 ⊆ delete r h1 ∖ h0.
Proof.
  intros [Hold Hnew Hhere _ _] [Ho _ _]. split; apply map_subseteq_spec; intros q p; rewrite !lookup_difference_Some.
  - intros [Hq Hn]. assert (q ≠ r) by congruence. rewrite lookup_delete_ne by done.
    split; [done|by eapply lookup_weaken_None].
  - intros [Hq Hn]. apply lookup_delete_Some in Hq as [Hne Hq]. split; [|done].
    apply lookup_delete_Some. split; [done|by eapply lookup_weaken].
Qed.

Lemma filling_step h0 h r o h1 i o' :
  filling h0 h r o → grown h h1 i → (∀ q, q ∈ refs_of o' → q ∈ refs_of o ∨ is_Some ((h1 ∖ h) !! q)) →
  filling h0 (<[r := o']> h1) r o'.
Proof.
  intros Hf Hg Hrefs. destruct (filling_apart _ _ _ _ _ _ Hf Hg) as [Hsub1 Hsub2].
  pose proof Hf as [Hold Hnew Hhere Hq Hcl]. pose proof Hg as [Ho _ Hc].
  split; [|done|by rewrite lookup_insert_eq|..]; rewrite ?delete_insert_eq.
  - apply insert_subseteq_r; [done|by trans h].
  - intros q [Hin|[p Hp]]%Hrefs; [destruct (Hq q Hin) as [p Hp]|]; exists p; by eapply lookup_weaken.
  - intros q p Hp q' Hq'. pose proof Hp as [Hd Hn]%lookup_difference_Some. apply lookup_delete_Some in Hd as [Hne Hd].
    assert (∀ hh, hh ⊆ delete r h1 ∖ h0 → closed hh → is_Some (hh !! q) → is_Some ((delete r h1 ∖ h0) !! q')) as Hvia.
    { intros hh Hsub Hch [p' Hp']. assert (p' = p) as -> by (pose proof (lookup_weaken _ _ _ _ Hp' Hsub); congruence).
      destruct (Hch _ _ Hp' _ Hq') as [x Hx]. exists x. by eapply lookup_weaken. }
    destruct (h !! q) as [x|] eqn:Hqh.
    + apply (Hvia _ Hsub2 Hcl), new_some. split; [|done]. exists x. by apply lookup_delete_Some.
    + apply (Hvia _ Hsub1 Hc), new_some. by split; [exists p|].
Qed.

Lemma filling_end h0 h r o : filling h0 h r o → grown h0 h r.
Proof.
  intros [Hold Hnew Hhere Hq Hcl].
  assert (delete r h ∖ h0 ⊆ h ∖ h0) as Hsub.
  { apply map_subseteq_spec. intros q p. rewrite !lookup_difference_Some. by intros [[]%lookup_delete_Some ?]. }
  split; [done|by split|]. intros q p [Hp Hn]%lookup_difference_Some q' Hq'.
  assert (is_Some ((delete r h ∖ h0) !! q')) as [x Hx].
  { destruct (decide (q = r)) as [->|Hne]; [apply Hq; congruence|].
    eapply Hcl; [|done]. apply lookup_difference_Some. split; [|done]. by apply lookup_delete_Some. }
  exists x. by eapply lookup_weaken.
Qed.

(** What [json_to_py] does with a value. *)
Definition writes (v : JsonValue) : Prop := ∀ st, gil st = true →
  ∃ h' r, json_to_py v st = (with_heap st h', Value r) ∧ grown (heap st) h' r ∧
    (json_wf v → in_range v → says (h' ∖ heap st) r v).

Lemma writes_scalar v o :
  (∀ st, json_to_py v st = new_object o st) → refs_of o = [] →
  (∀ h r, in_range v → h !! r = Some o → says h r v) → writes v.
Proof.
  intros Hv Ho Hsays st Hg. destruct (new_object_held st o Hg) as (r & Hnew & Hr). rewrite Hv, Hnew.
  do 2 eexists. split; [done|]. split; [by apply grown_scalar|]. intros _ Hin. apply Hsays; [done|].
  apply lookup_difference_Some. by rewrite lookup_insert_eq.
Qed.

(** A child of a list under construction. *)
Lemma append_child h0 st r refs i h1 item :
  gil st = true → filling h0 (heap st) r (PyList refs) → grown (heap st) h1 i →
  (says (h1 ∖ heap st) i item → says (delete r h1 ∖ h0) i item) ∧
  list_append r i (with_heap st h1) = (with_heap st (<[r := PyList (refs ++ [i])]> h1), Value ()) ∧
  filling h0 (<[r := PyList (refs ++ [i])]> h1) r (PyList (refs ++ [i])) ∧
  delete r (heap st) ⊆ delete r h1.
Proof.
  intros Hg Hf Hgr. destruct (filling_apart _ _ _ _ _ _ Hf Hgr) as [Hsub _].
  assert (heap (with_heap st h1) !! r = Some (PyList refs)) as Hr
    by (eapply lookup_weaken; [apply Hf|apply Hgr]).
  split; [by apply says_mono|]. split; [by rewrite (list_append_held (with_heap st h1) r refs)|].
  split; [|apply delete_mono, Hgr]. apply (filling_step _ _ _ _ _ _ _ Hf Hgr).
  cbn. intros q [Hq|Hq]%elem_of_app; [by left|right]. apply list_elem_of_singleton in Hq as ->. by eapply grown_here.
Qed.

Lemma append_all_writes h0 items r st refs :
  Forall writes items → gil st = true → filling h0 (heap st) r (PyList refs) →
  ∃ h' new, append_all json_to_py r items st = (with_heap st h', Value ()) ∧
    filling h0 h' r (PyList (refs ++ new)) ∧ delete r (heap st) ⊆ delete r h' ∧
    (Forall json_wf items → Forall in_range items → Forall2 (says (delete r h' ∖ h0)) new items).
Proof.
  intros Hall. revert st refs. induction Hall as [|item items Hitem _ IH]; intros st refs Hg Hf.
  { exists (heap st), []. rewrite app_nil_r. split; [by destruct st|]. split; [done|]. by split. }
  destruct (Hitem st Hg) as (h1 & i & Hi & Hgr & Hsays). cbn [append_all].
  rewrite (bind_value _ _ _ _ _ Hi).
  destruct (append_child h0 st r refs i h1 item Hg Hf Hgr) as (Hlift & Happ & Hf1 & Hsub1).
  rewrite (bind_value _ _ _ _ _ Happ).
  destruct (IH (with_heap st (<[r := PyList (refs ++ [i])]> h1)) _ Hg Hf1) as (h' & new & Hgo & Hf' & Hsub & Hnew).
  cbn [heap with_heap] in Hsub. rewrite delete_insert_eq in Hsub.
  exists h', (i :: new). rewrite <- app_assoc in Hf'. split; [exact Hgo|]. split; [exact Hf'|].
  split; [by etrans|]. intros Hwf Hin. inversion Hwf; inversion Hin; subst. constructor; [|by apply Hnew].
  eapply says_mono; [|by apply Hlift, Hsays]. by apply new_mono.
Qed.

(** And one of a dict. *)
Lemma set_child h0 st r refs k i h1 key item :
  gil st = true → filling h0 (heap st) r (PyDict refs) → grown (heap st) h1 i → h1 !! k = None →
  let h2 := <[k := PyStr true key]> h1 in
  (says (h1 ∖ heap st) i item → says (delete r h2 ∖ h0) i item) ∧
  (delete r h2 ∖ h0) !! k = Some (PyStr true key) ∧
  dict_set_item r k i (with_heap st h2) = (with_heap st (<[r := PyDict (refs ++ [(k, i)])]> h2), Value ()) ∧
  filling h0 (<[r := PyDict (refs ++ [(k, i)])]> h2) r (PyDict (refs ++ [(k, i)])) ∧
  delete r (heap st) ⊆ delete r h2.
Proof.
  intros Hg Hf Hgr Hk h2. assert (grown h1 h2 k) as Hgr2 by (by apply grown_scalar).
  destruct (grown_trans _ _ _ _ _ Hgr Hgr2) as [Hgi Hgk].
  destruct (filling_apart _ _ _ _ _ _ Hf Hgi) as [Hsub _].
  assert (heap (with_heap st h2) !! r = Some (PyDict refs)) as Hr
    by (eapply lookup_weaken; [apply Hf|apply Hgi]).
  split; [intros Hs; eapply says_mono, says_mono, Hs; [exact Hsub|]; by apply new_mono, Hgr2|].
  split. { eapply lookup_weaken, Hsub. apply lookup_difference_Some. split; [by apply lookup_insert_eq|]. apply Hgk. }
  split; [by rewrite (dict_set_item_held (with_heap st h2) r refs)|].
  split; [|apply delete_mono, Hgi]. apply (filling_step _ _ _ _ _ _ _ Hf Hgi).
  cbn. rewrite !fmap_app. cbn. intros q. rewrite !elem_of_app, !list_elem_of_singleton.
  intros [[?| ->]|[?| ->]]; [tauto|right; by eapply grown_here|tauto|right; by eapply grown_here].
Qed.

Lemma set_all_writes h0 (m : list (string * JsonValue)) r st refs :
  Forall (λ e, writes e.2) m → gil st = true → filling h0 (heap st) r (PyDict refs) →
  ∃ h' new, set_all json_to_py r m st = (with_heap st h', Value ()) ∧
    filling h0 h' r (PyDict (refs ++ new)) ∧ delete r (heap st) ⊆ delete r h' ∧
    (Forall (λ e, json_wf e.2) m → Forall (λ e, in_range e.2) m →
     Forall2 (λ p e, (delete r h' ∖ h0) !! p.1 = Some (PyStr true e.1) ∧ says (delete r h' ∖ h0) p.2 e.2) new m).
Proof.
  intros Hall. revert st refs. induction Hall as [|[key item] m Hitem _ IH]; intros st refs Hg Hf.
  { exists (heap st), []. rewrite app_nil_r. split; [by destruct st|]. split; [done|]. by split. }
  destruct (Hitem st Hg) as (h1 & i & Hi & Hgr & Hsays). cbn [set_all]. cbn [snd] in Hi.
  rewrite (bind_value _ _ _ _ _ Hi).
  destruct (new_object_held (with_heap st h1) (PyStr true key) Hg) as (k & Hnk & Hk).
  rewrite (bind_value _ _ _ _ _ Hnk).
  destruct (set_child h0 st r refs k i h1 key item Hg Hf Hgr Hk) as (Hlift & Hkey & Hset & Hf1 & Hsub1).
  cbn [heap with_heap]. rewrite (bind_value _ _ _ _ _ Hset).
  destruct (IH (with_heap st (<[r := PyDict (refs ++ [(k, i)])]> (<[k := PyStr true key]> h1))) _ Hg Hf1)
    as (h' & new & Hgo & Hf' & Hsub & Hnew).
  cbn [heap with_heap] in Hsub. rewrite delete_insert_eq in Hsub.
  exists h', ((k, i) :: new). rewrite <- app_assoc in Hf'. split; [exact Hgo|]. split; [exact Hf'|].
  split; [by etrans|]. intros Hwf Hin. inversion Hwf; inversion Hin; subst. constructor; [|by apply Hnew].
  assert (delete r (<[k := PyStr true key]> h1) ∖ h0 ⊆ delete r h' ∖ h0) as Hd by (by apply new_mono).
  split; [by eapply lookup_weaken|]. eapply says_mono; [exact Hd|]. by apply Hlift, Hsays.
Qed.

Lemma foldr_and {A} (P : A → Prop) l : foldr (λ a p, P a ∧ p) True l ↔ Forall P l.
Proof. induction l as [|a l IH]; cbn; [done|]. by rewrite Forall_cons, IH. Qed.

Lemma json_to_py_writes v : writes v.
Proof.
  induction v as [|b|n|s|items IH|m IH] using JsonValue_ind.
  - apply (writes_scalar _ PyNone); eauto using says_none.
  - apply (writes_scalar _ (PyBool b)); eauto using says_bool.
  - apply (writes_scalar _ (number_to_py n)); [done| |].
    + unfold number_to_py. by destruct n; cbn; repeat case_match.
    + intros h r. by apply number_to_py_says.
  - apply (writes_scalar _ (PyStr true s)); eauto using says_str.
  - intros st Hg. destruct (new_object_held st (PyList []) Hg) as (r & Hnew & Hr).
    destruct (append_all_writes (heap st) items r (with_heap st (<[r := PyList []]> (heap st))) [] IH Hg)
      as (h' & refs & Hgo & Hf & _ & Hsays); [by apply filling_start|].
    cbn [json_to_py]. rewrite (bind_value _ _ _ _ _ Hnew), (bind_value _ _ _ _ _ Hgo). exists h', r.
    split; [done|]. split; [by eapply filling_end|]. cbn. rewrite foldr_and. inversion 1 as [| | | |? Hwf|]; subst.
    intros Hin. apply (says_list _ _ refs); [apply lookup_difference_Some; by split; apply Hf|].
    eapply Forall2_impl; [by apply Hsays|]. intros q w. apply says_mono, new_mono, delete_subseteq.
  - intros st Hg. destruct (new_object_held st (PyDict []) Hg) as (r & Hnew & Hr).
    destruct (set_all_writes (heap st) m r (with_heap st (<[r := PyDict []]> (heap st))) [] IH Hg)
      as (h' & refs & Hgo & Hf & _ & Hsays); [by apply filling_start|].
    cbn [json_to_py]. rewrite (bind_value _ _ _ _ _ Hnew), (bind_value _ _ _ _ _ Hgo). exists h', r.
    split; [done|]. split; [by eapply filling_end|]. cbn. rewrite foldr_and. inversion 1 as [| | | | |? Hwf Hall]; subst.
    intros Hin. rewrite <- (bt_of_list_id m Hwf).
    apply (says_dict _ _ refs); [apply lookup_difference_Some; by split; apply Hf|].
    assert (delete r h' ∖ heap st ⊆ h' ∖ heap st) as Hsub by (apply new_mono, delete_subseteq).
    eapply Forall2_impl; [by apply Hsays|]. intros p e [Hk Hv]. split; [by eapply lookup_weaken|by eapply says_mono].
Qed.
End writing.

(** ** The two together *)

Section round_trip.
Context {W : Type}.
Notation PyState := (PyState W).
Implicit Types st : PyState.

Lemma grown_readable st h' r : readable st → grown (heap st) h' r → readable (with_heap st h').
Proof.
  intros [Hg Hcl] [Hold _ Hnew]. split; [done|]. cbn. intros q o Hq p Hp. destruct (heap st !! q) as [o'|] eqn:Hq'.
  - pose proof (lookup_weaken _ _ _ _ Hq' Hold) as Hw. assert (o' = o) as -> by congruence.
    destruct (Hcl _ _ Hq' _ Hp) as [x Hx]. exists x. by eapply lookup_weaken.
  - destruct (Hnew q o (proj2 (lookup_difference_Some _ _ _ _) (conj Hq Hq')) p Hp) as [x Hx].
    exists x. by apply lookup_difference_Some in Hx as [].
Qed.

(** C20: A host's callback that echoes the object it was handed gives the
    engine back the very value the engine handed over: the object is new,
    no object of the host changed, and nothing else of the interpreter
    did; every JSON value [serde_json] can hold makes the trip, given
    stack enough for its depth. *)
Theorem echo_round_trip st v :
  readable st → json_wf v → in_range v →
  ∃ h' r, json_to_py v st = (with_heap st h', Value r) ∧ heap st ⊆ h' ∧ heap st !! r = None ∧
    ∃ n, ∀ m, (n ≤ m)%nat → py_to_json m r (with_heap st h') = (with_heap st h', Value v).
Proof.
  intros Hst Hwf Hin. destruct (Hst) as [Hg _]. destruct (json_to_py_writes v st Hg) as (h' & r & Hw & Hgr & Hs).
  exists h', r. split; [done|]. split; [apply Hgr|]. split; [apply Hgr|].
  pose proof (grown_readable st h' r Hst Hgr) as Hst'.
  assert (says h' r v) as Hsays.
  { eapply says_mono; [|by apply Hs]. apply map_subseteq_spec. by intros q o []%lookup_difference_Some. }
  destruct (py_to_json_complete r (with_heap st h') v Hst' Hsays) as [n Hn]. exists n. intros m Hm.
  specialize (Hn m Hm). pose proof (py_to_json_state m r (with_heap st h') Hst' (proj2 (grown_new _ _ _ Hgr))) as Hs'.
  destruct (py_to_json m r (with_heap st h')) as [st1 o]. cbn in *. by subst.
Qed.

(** Reading an object changes nothing and gives the one JSON value it
    says, or an exception exactly when it says none; more stack never
    changes an answer, and for an object of finite height some stack gives
    one. *)
Theorem py_to_json_exact st r n :
  readable st → is_Some (heap st !! r) →
  (∃ o, py_to_json n r st = (st, o) ∧
    match o with
    | Value v => ∀ v', says (heap st) r v' ↔ v' = v
    | Raise _ => ∀ v, ¬ says (heap st) r v
    | PyPanic => False
    | Crash => True
    end) ∧
  ((py_to_json n r st).2 ≠ Crash → ∀ m, (n ≤ m)%nat → py_to_json m r st = py_to_json n r st) ∧
  (finite (heap st) r → ∃ n, (py_to_json n r st).2 ≠ Crash).
Proof.
  intros Hst Hr. split; [|split].
  - pose proof (py_to_json_state n r st Hst Hr) as Hs. pose proof (py_to_json_panics n r st) as Hp.
    pose proof (λ v, py_to_json_sound n r st v Hst Hr) as Hsound.
    assert (∀ v, says (heap st) r v → (py_to_json n r st).2 ≠ Crash → (py_to_json n r st).2 = Value v) as Hcomplete.
    { intros v Hv Hc. destruct (py_to_json_complete r st v Hst Hv) as [k Hk].
      rewrite <- (py_to_json_stable n (n `max` k) r st) by (lia || done). apply Hk. lia. }
    destruct (py_to_json n r st) as [st1 o]. cbn in *. subst st1. exists o. split; [done|].
    destruct o as [v|e| |]; try done.
    + intros v'. split; [|intros ->; by apply Hsound]. intros Hv'. by injection (Hcomplete v' Hv' ltac:(done)).
    + intros v Hv. by specialize (Hcomplete v Hv ltac:(done)).
  - intros Hc m Hm. by apply py_to_json_stable.
  - intros Hf. by apply (py_to_json_suffices r st Hst).
Qed.
End round_trip.

(** An interpreter with a few objects: a list, and a list that contains
    itself. *)
Definition sample_state : PyState () :=
  mkPyState (<[1%positive := PyInt 7]> (<[2%positive := PyList [1%positive; 1%positive]]>
    (<[3%positive := PyList [3%positive]]> ∅))) ∅ true false false false tt.

Lemma sample_closed : readable sample_state.
Proof.
  split; [done|]. intros r o Hr.
  assert (∃ k, (k, o) ∈ map_to_list (heap sample_state)) as [k Hk] by (exists r; by apply elem_of_map_to_list).
  clear Hr r. vm_compute in Hk. repeat (apply elem_of_cons in Hk as [[= -> ->]|Hk]); [..|by apply elem_of_nil in Hk];
    intros q Hq; cbn in Hq; repeat (apply elem_of_cons in Hq as [-> |Hq]); try (by apply elem_of_nil in Hq); by eexists.
Defined.

Lemma sample_finite : finite (heap sample_state) 2.
Proof.
  eapply finite_intro; [reflexivity|]. intros q Hq. assert (q = 1%positive) as -> by (cbn in Hq; set_solver).
  eapply finite_intro; [reflexivity|]. cbn. set_solver.
Qed.

Lemma echo_round_trip_witness :
  ∃ h' r, json_to_py (JObject [("a", JArray [JNumber (PosInt 1); JNull])]) sample_state =
      (with_heap sample_state h', Value r) ∧ heap sample_state ⊆ h' ∧ heap sample_state !! r = None ∧
    ∃ n, ∀ m, (n ≤ m)%nat → py_to_json m r (with_heap sample_state h') =
      (with_heap sample_state h', Value (JObject [("a", JArray [JNumber (PosInt 1); JNull])])).
Proof.
  apply (echo_round_trip sample_state); [apply sample_closed| |].
  - repeat constructor.
  - cbn. split; [|done]. split; [by vm_compute|done].
Defined.

Lemma py_to_json_exact_witness :
  py_to_json 2 2%positive sample_state = (sample_state, Value (JArray [JNumber (PosInt 7); JNumber (PosInt 7)])) ∧
  py_to_json 9 2%positive sample_state = py_to_json 2 2%positive sample_state.
Proof.
  split; [by vm_compute|].
  apply (py_to_json_exact sample_state 2 2 sample_closed); [by eexists|by vm_compute|lia].
Defined.

(** No stack is enough for the list that contains itself: the process
    ends. *)
Lemma cyclic_result_crashes n : py_to_json n 3%positive sample_state = (sample_state, Crash).
Proof.
  apply (py_to_json_cyclic (λ r, r = 3%positive)); [done| |done]. intros r ->. exists 3%positive, []. by vm_compute.
Qed.
