(* ===== verification/FfiFacts.v ===== *)
(** * The C ABI: what its calls do to memory

    Called as documented, no entry point touches memory it may not, lets a
    panic across the boundary, changes what a handle is, or allocates
    anything but what it returns and its error message; and the message is
    there exactly when the answer says the call failed. *)

From stdpp Require Import gmap fin_sets strings.
From S2P Require Import Prelude OrdMap RustStd Json Errors AgentHooks Constants Stream Paths PolicyInput.
From S2P Require Import Limits Hex Pins Policy PolicyOutput Manifest ManifestMerge Loader Yaml.
From S2P Require Import Telemetry Runtime RuntimeWorld Cedar CedarBuiltin Workers Rego Wire Activation Ffi.

(** ** Kinds of memory *)

Inductive Kind := KString (alloc : Allocator) | KBytes | KSlot | KInterceptor | KPolicy | KSession.
#[export] Instance Kind_eq_dec : EqDecision Kind.
Proof. solve_decision. Defined.

Definition kind_of (c : Cell) : Kind :=
  match c with
  | CellString alloc _ => KString alloc
  | CellBytes _ => KBytes
  | CellSlot _ => KSlot
  | CellInterceptor _ => KInterceptor
  | CellPolicy _ => KPolicy
  | CellSession _ => KSession
  end.

(** Strings the host allocated are the host's to change and to free. *)
Definition host_cell (c : Cell) : bool := bool_decide (kind_of c = KString HostAlloc).

(** What the engine promises of the cells it makes. *)
Class Good := {
  good : Cell → Prop;
  good_text s : has_nul s = false → good (CellString EngineAlloc s) }.

Section memory.
Context {W : Type} `{Good}.
Notation State := (State W).
Implicit Types st : State.

(** Nothing undefined happened, and no cell but the host's strings
    changed. *)
Record quiet st st' : Prop := {
  q_defined : undefined st' = undefined st;
  q_same p c : host_cell c = false → cells st !! p = Some c ↔ cells st' !! p = Some c }.

(** [evolved h st st']: the same, except that the handle [h] may hold
    another value of its kind, a good one if the first was. *)
Record evolved (h : Ptr) st st' : Prop := {
  ev_defined : undefined st' = undefined st;
  ev_same p c : Some p ≠ h → host_cell c = false → cells st !! p = Some c ↔ cells st' !! p = Some c;
  ev_handle p c : host_cell c = false → cells st !! p = Some c →
    ∃ c', cells st' !! p = Some c' ∧ kind_of c' = kind_of c ∧ (good c → good c');
  ev_old p c : host_cell c = false → cells st' !! p = Some c →
    ∃ c', cells st !! p = Some c' ∧ kind_of c' = kind_of c }.

Lemma quiet_eq st st' : undefined st' = undefined st → cells st' = cells st → quiet st st'.
Proof. intros Hu Hc. split; [done|by rewrite Hc]. Qed.

#[export] Instance quiet_preorder : PreOrder quiet.
Proof.
  split.
  - intros st. by apply quiet_eq.
  - intros st1 st2 st3 [Hu1 Hs1] [Hu2 Hs2]. split; [by rewrite Hu2|]. intros p c Hc. by rewrite Hs1, Hs2.
Qed.

Lemma quiet_evolved h st st' : quiet st st' → evolved h st st'.
Proof.
  intros [Hu Hs]. split; [done| | |].
  - intros p c _. by apply Hs.
  - intros p c Hc Hp. exists c. by rewrite <- Hs.
  - intros p c Hc Hp. exists c. by rewrite Hs.
Qed.

Lemma host_cell_kind c c' : kind_of c' = kind_of c → host_cell c' = host_cell c.
Proof. unfold host_cell. by intros ->. Qed.

#[export] Instance evolved_preorder h : PreOrder (evolved h).
Proof.
  split.
  - intros st. by apply quiet_evolved, quiet_eq.
  - intros st1 st2 st3 [Hu1 Hs1 Hh1 Ho1] [Hu2 Hs2 Hh2 Ho2]. split.
    + by rewrite Hu2.
    + intros p c Hp Hc. by rewrite Hs1, Hs2.
    + intros p c Hc Hp. destruct (Hh1 _ _ Hc Hp) as (c1 & Hp1 & Hk1 & Hg1).
      destruct (Hh2 p c1) as (c2 & Hp2 & Hk2 & Hg2); [by rewrite (host_cell_kind c)|done|].
      exists c2. rewrite Hk2. auto.
    + intros p c Hc Hp. destruct (Ho2 _ _ Hc Hp) as (c1 & Hp1 & Hk1).
      destruct (Ho1 p c1) as (c2 & Hp2 & Hk2); [by rewrite (host_cell_kind c)|done|].
      exists c2. by rewrite Hk2.
Qed.

(** Another value at the handle. *)
Lemma evolved_set p c c' st :
  cells st !! p = Some c → kind_of c' = kind_of c → (good c → good c') → host_cell c = false →
  evolved (Some p) st (set_cell p c' st).1.
Proof.
  intros Hp Hk Hg Hc. split; cbn.
  - done.
  - intros q d Hq _. by rewrite lookup_insert_ne by congruence.
  - intros q d Hd Hq. destruct (decide (p = q)) as [<-|Hne].
    + exists c'. rewrite lookup_insert_eq. naive_solver.
    + exists d. by rewrite lookup_insert_ne by done.
  - intros q d Hd. destruct (decide (p = q)) as [<-|Hne].
    + rewrite lookup_insert_eq. intros [= <-]. exists c. split; [done|]. by symmetry.
    + rewrite lookup_insert_ne by done. eauto.
Qed.

(** ** The outcome of a call *)

(** The error slot is writable, and clear. *)
Definition slot_ok (err_out : Ptr) st : Prop := ∀ slot, err_out = Some slot → ∃ p, cells st !! slot = Some (CellSlot p).
Definition slot_clear (err_out : Ptr) st : Prop :=
  ∀ slot, err_out = Some slot → cells st !! slot = Some (CellSlot None).

(** A new cell, and an error message in the slot. *)
Definition given (c : Cell) (p : positive) st st' : Prop :=
  cells st !! p = None ∧ st' = mkState (<[p := c]> (cells st)) (undefined st) (ffi_world st).
Definition reported_failure (err_out : Ptr) st st' : Prop :=
  match err_out with
  | None => st' = st
  | Some slot => ∃ p message, cells st !! p = None ∧ has_nul message = false ∧
      st' = mkState (<[slot := CellSlot (Some p)]> (<[p := CellString EngineAlloc message]> (cells st)))
        (undefined st) (ffi_world st)
  end.

(** What a closure may do: [Q] of its answer, or a reported failure. *)
Definition runs {A} (h err_out : Ptr) st (m : @ffi W (option A)) (Q : State → A → Prop) : Prop :=
  match m st with
  | (st', Done (Some a)) => Q st' a
  | (st', Done None) => ∃ st1, evolved h st st1 ∧ reported_failure err_out st1 st'
  | (st', Unwinds) => evolved h st st'
  end.

Lemma slot_clear_evolved h err_out st st' :
  err_out ≠ h ∨ err_out = None → evolved h st st' → slot_clear err_out st → slot_clear err_out st'.
Proof.
  intros Hne Hev Hc slot ->. apply (ev_same _ _ _ Hev); [naive_solver|done|]. by apply Hc.
Qed.

Lemma slot_clear_ok err_out st : slot_clear err_out st → slot_ok err_out st.
Proof. intros Hc slot Hs. exists None. by apply Hc. Qed.

Lemma alloc_given c st : ∃ p, alloc c st = (mkState (<[p := c]> (cells st)) (undefined st) (ffi_world st), Done (Some p))
  ∧ cells st !! p = None.
Proof.
  exists (base.fresh (dom (cells st) : gset positive)). split; [done|].
  apply not_elem_of_dom. apply is_fresh.
Qed.

Lemma has_nul_app a b : has_nul (a +:+ b) = has_nul a || has_nul b.
Proof. induction a as [|c a IH]; cbn; [done|]. by rewrite IH, orb_assoc. Qed.

Lemma replace_nul_clean s : has_nul (replace_nul s) = false.
Proof.
  induction s as [|c s IH]; [done|]. cbn [replace_nul]. rewrite has_nul_app, IH, orb_false_r.
  case_decide as Hc; [done|]. cbn [has_nul]. by rewrite bool_decide_eq_false_2.
Qed.

Lemma write_slot_ok slot v p st :
  cells st !! slot = Some (CellSlot v) →
  write_slot slot p st = (mkState (<[slot := CellSlot p]> (cells st)) (undefined st) (ffi_world st), Done ()).
Proof. intros Hs. unfold write_slot, get, mbind, ffi_bind. by rewrite Hs. Qed.

Lemma set_err_failed err_out message st :
  slot_ok err_out st → ∃ st', set_err err_out message st = (st', Done ()) ∧ reported_failure err_out st st'.
Proof.
  intros Hs. destruct err_out as [slot|]; [|by exists st]. destruct (Hs slot eq_refl) as [v Hv].
  assert (cstring_new (replace_nul message) = Some (replace_nul message)) as Hm
    by (unfold cstring_new; by rewrite replace_nul_clean).
  unfold set_err. rewrite Hm. cbn [default]. set (c := CellString EngineAlloc _). unfold mbind at 1, ffi_bind.
  destruct (alloc_given c st) as (p & -> & Hp).
  assert (slot ≠ p) as Hne by (intros ->; congruence).
  rewrite (write_slot_ok slot v) by (cbn; by rewrite lookup_insert_ne).
  eexists. split; [done|]. exists p, (replace_nul message). split; [done|]. split; [|done].
  apply replace_nul_clean.
Qed.
End memory.

(** ** Rules *)

(** What an answer stands for: something new of a kind, a failure, or
    nothing beside itself. *)
Inductive Shape := ShGiven (p : positive) (k : Kind) | ShFailed | ShPlain.

Definition ptr_shape (k : Kind) (r : Ptr) : Shape :=
  match r with Some p => ShGiven p k | None => ShFailed end.
Definition code_shape (bad : Z → bool) (z : Z) : Shape := if bad z then ShFailed else ShPlain.

Section rules.
Context {W : Type} `{Good} (h err_out : Ptr).
Notation State := (State W).
Notation ffi := (@ffi W).
Notation closure A := (ffi (option A)).
Implicit Types st : State.

Definition answers st st' (shape : Shape) : Prop :=
  ∃ st1, evolved h st st1 ∧ slot_clear err_out st1 ∧
    match shape with
    | ShGiven p k => ∃ c, kind_of c = k ∧ good c ∧ given c p st1 st'
    | ShFailed => reported_failure err_out st1 st'
    | ShPlain => st' = st1
    end.

Definition replies {A} (shape : A → Shape) st (m : closure A) : Prop :=
  runs h err_out st m (λ st' a, answers st st' (shape a)).

Lemma answers_evolved st st1 st' shape : evolved h st st1 → answers st1 st' shape → answers st st' shape.
Proof. intros Hev (st2 & Hev2 & Hs & Hm). exists st2. split; [by etrans|done]. Qed.

Lemma runs_weaken {A} st (m : closure A) (P Q : State → A → Prop) :
  runs h err_out st m P → (∀ st' a, P st' a → Q st' a) → runs h err_out st m Q.
Proof. unfold runs. destruct (m st) as [st' [[a|]|]]; eauto. Qed.

Lemma runs_evolved {A} st st1 (m : closure A) Q :
  evolved h st st1 → runs h err_out st1 m Q →
  match m st1 with
  | (st', Done (Some a)) => Q st' a
  | (st', Done None) => ∃ st2, evolved h st st2 ∧ reported_failure err_out st2 st'
  | (st', Unwinds) => evolved h st st'
  end.
Proof.
  unfold runs. destruct (m st1) as [st' [[a|]|]]; intros Hev; [done| |by etrans].
  intros (st2 & Hev2 & Hf). exists st2. split; [by etrans|done].
Qed.

Lemma runs_and_then {A B} st (m : closure A) (f : A → closure B) Q :
  runs h err_out st m (λ st1 a, evolved h st st1 ∧ runs h err_out st1 (f a) Q) →
  runs h err_out st (and_then m f) Q.
Proof.
  unfold and_then, mbind, ffi_bind. unfold runs at 1 3. destruct (m st) as [st1 [[a|]|]]; [|done..].
  intros [Hev Hf]. by apply (runs_evolved _ _ _ _ Hev) in Hf.
Qed.

(** A step whose answer is no closure's. *)
Lemma runs_step {A B} st st1 (m : ffi A) (f : A → closure B) a Q :
  m st = (st1, Done a) → evolved h st st1 → runs h err_out st1 (f a) Q → runs h err_out st (m ≫= f) Q.
Proof.
  intros Hm Hev Hf. unfold mbind, ffi_bind, runs. rewrite Hm. by apply (runs_evolved _ _ _ _ Hev) in Hf.
Qed.

Lemma runs_unwind {A B} st st1 (m : ffi A) (f : A → closure B) Q :
  m st = (st1, Unwinds) → evolved h st st1 → runs h err_out st (m ≫= f) Q.
Proof. intros Hm Hev. unfold mbind, ffi_bind, runs. by rewrite Hm. Qed.

Lemma runs_ret {A} st (a : A) Q : Q st a → runs h err_out st (mret (Some a)) Q.
Proof. done. Qed.

Lemma runs_failing {A} st message (Q : State → A → Prop) :
  slot_clear err_out st → runs h err_out st (failing err_out message) Q.
Proof.
  intros Hs. unfold failing, reported, runs. unfold mbind, ffi_bind.
  destruct (set_err_failed err_out message st) as (st' & -> & Hf); [by apply slot_clear_ok|].
  cbn. exists st. split; [reflexivity|done].
Qed.

Lemma runs_checking {E A} st show (r : result E A) :
  slot_clear err_out st → runs h err_out st (checking err_out show r) (λ st1 a, st1 = st ∧ r = Ok a).
Proof. intros Hs. unfold checking. destruct r; [by apply runs_ret|by apply runs_failing]. Qed.

(** The same rules where the rest is a reply. *)
Lemma replies_and_then {A B} (shape : B → Shape) st (m : closure A) (f : A → closure B) :
  runs h err_out st m (λ st1 a, evolved h st st1 ∧ replies shape st1 (f a)) →
  replies shape st (and_then m f).
Proof.
  intros Hm. unfold replies. apply runs_and_then. eapply runs_weaken; [exact Hm|]. cbn.
  intros st1 a [Hev Hf]. split; [done|]. eapply runs_weaken; [exact Hf|]. cbn.
  intros st' b. by apply answers_evolved.
Qed.

Lemma replies_step {A B} (shape : B → Shape) st st1 (m : ffi A) (f : A → closure B) a :
  m st = (st1, Done a) → evolved h st st1 → replies shape st1 (f a) → replies shape st (m ≫= f).
Proof.
  intros Hm Hev Hf. eapply runs_step; [done|done|]. eapply runs_weaken; [exact Hf|]. cbn.
  intros st' b. by apply answers_evolved.
Qed.

Lemma replies_here {A B} (shape : B → Shape) st (m : closure A) (f : A → closure B) (P : A → Prop) :
  runs h err_out st m (λ st1 a, st1 = st ∧ P a) → (∀ a, P a → replies shape st (f a)) →
  replies shape st (and_then m f).
Proof.
  intros Hm Hf. apply replies_and_then. eapply runs_weaken; [exact Hm|]. cbn.
  intros st1 a [-> Ha]. split; [reflexivity|by apply Hf].
Qed.

Lemma replies_failing {A} (shape : A → Shape) st message :
  slot_clear err_out st → replies shape st (failing err_out message).
Proof. apply runs_failing. Qed.

Lemma replies_checking {E A B} (shape : B → Shape) st show (r : result E A) (f : A → closure B) :
  slot_clear err_out st → (∀ a, r = Ok a → replies shape st (f a)) →
  replies shape st (and_then (checking err_out show r) f).
Proof. intros Hs. apply replies_here. by apply runs_checking. Qed.

Lemma replies_plain {A} (shape : A → Shape) st a :
  slot_clear err_out st → shape a = ShPlain → replies shape st (mret (Some a)).
Proof. intros Hs Ha. apply runs_ret. rewrite Ha. exists st. done. Qed.

(** Steps inside a closure whose answer is used. *)
Lemma replies_assoc {A B C} (shape : C → Shape) st (m : ffi A) (g : A → closure B) (f : B → closure C) :
  replies shape st (m ≫= λ a, and_then (g a) f) → replies shape st (and_then (m ≫= g) f).
Proof. unfold replies, runs, and_then, mbind, ffi_bind. by destruct (m st) as [st1 [a|]]. Qed.

Lemma replies_value {A B} (shape : B → Shape) st (a : A) (f : A → closure B) :
  replies shape st (f a) → replies shape st (and_then (mret (Some a)) f).
Proof. done. Qed.

Lemma replies_failing_then {A B} (shape : B → Shape) st message (f : A → closure B) :
  slot_clear err_out st → replies shape st (and_then (failing err_out message) f).
Proof. intros Hs. apply replies_and_then. by apply runs_failing. Qed.

(** *** The ends of an entry point *)

Lemma replies_alloc (k : Kind) st c :
  slot_clear err_out st → kind_of c = k → good c → replies (ptr_shape k) st (p ← alloc c; mret (Some p)).
Proof.
  intros Hs Hk Hg. unfold replies, runs, mbind, ffi_bind. destruct (alloc_given c st) as (p & -> & Hp).
  cbn. exists st. split; [reflexivity|]. split; [done|]. exists c. done.
Qed.

Lemma clear_err_same st : slot_clear err_out st → clear_err err_out st = (st, Done ()).
Proof.
  intros Hs. destruct err_out as [slot|]; [|done]. cbn. rewrite (write_slot_ok slot None) by by apply Hs.
  rewrite insert_id by (by apply Hs). by destruct st.
Qed.

Lemma to_c_string_answers st s :
  slot_clear err_out st →
  ∃ st' p, to_c_string s err_out st = (st', Done p) ∧ answers st st' (ptr_shape (KString EngineAlloc) p).
Proof.
  intros Hs. unfold to_c_string. destruct (cstring_new s) as [c|] eqn:Hc.
  - unfold mbind, ffi_bind. rewrite (clear_err_same _ Hs).
    destruct (alloc_given (CellString EngineAlloc c) st) as (p & -> & Hp). eexists _, _. split; [done|].
    exists st. split; [reflexivity|]. split; [done|].
    exists (CellString EngineAlloc c). split; [done|]. split; [|done]. apply good_text.
    unfold cstring_new in Hc. destruct (has_nul s) eqn:Hn; [done|]. by injection Hc as <-.
  - unfold mbind, ffi_bind.
    destruct (set_err_failed err_out "output contained an interior NUL byte" st) as (st' & -> & Hf);
      [by apply slot_clear_ok|]. eexists _, None. split; [done|]. exists st. done.
Qed.

Lemma replies_json failure st json :
  slot_clear err_out st →
  replies (ptr_shape (KString EngineAlloc)) st (answer_json err_out failure json).
Proof.
  intros Hs. destruct json as [json|e]; [|by apply runs_failing]. unfold answer_json.
  destruct (to_c_string_answers st json Hs) as (st' & p & Hp & Ha).
  unfold replies, runs, mbind, ffi_bind. by rewrite Hp.
Qed.
End rules.

(** ** Arguments *)

Section arguments.
Context {W : Type} `{Good} (h err_out : Ptr).
Notation State := (State W).
Notation closure A := (@ffi W (option A)).
Implicit Types st : State.

(** A C string, or null; a buffer of at least this length. *)
Definition str_ok (st : State) (p : Ptr) : Prop :=
  ∀ a, p = Some a → ∃ alloc bytes, cells st !! a = Some (CellString alloc bytes).
Definition buf_ok (st : State) (p : Ptr) (len : nat) : Prop :=
  ∀ a, p = Some a → len = 0%nat ∨ ∃ bytes, cells st !! a = Some (CellBytes bytes) ∧ (len <= String.length bytes)%nat.

Lemma read_cstr_here st a : str_ok st (Some a) → ∃ bytes, read_cstr a st = (st, Done bytes).
Proof.
  intros Hs. destruct (Hs a eq_refl) as (alloc & bytes & Hp). exists (until_nul bytes).
  unfold read_cstr, get, mbind, ffi_bind. by rewrite Hp.
Qed.

Lemma runs_read_utf8 st ptr what :
  slot_clear err_out st → str_ok st ptr →
  runs h err_out st (read_utf8 ptr what err_out) (λ st1 _, st1 = st ∧ True).
Proof.
  intros Hs Hstr. destruct ptr as [a|]; [|by apply runs_failing]. unfold read_utf8.
  destruct (read_cstr_here st a Hstr) as [bytes Hb].
  eapply runs_step; [exact Hb|reflexivity|]. destruct (utf8 bytes); [by apply runs_ret|by apply runs_failing].
Qed.

Lemma replies_read {B} (shape : B → Shape) st ptr what (f : string → closure B) :
  slot_clear err_out st → str_ok st ptr → (∀ s, replies h err_out shape st (f s)) →
  replies h err_out shape st (and_then (read_utf8 ptr what err_out) f).
Proof. intros Hs Hstr Hf. eapply replies_here; [by apply runs_read_utf8|eauto]. Qed.

Lemma runs_here {A B} st (m : closure A) (f : A → closure B) (P Q : Prop) :
  runs h err_out st m (λ st1 _, st1 = st ∧ P) →
  (∀ a, runs h err_out st (f a) (λ st1 _, st1 = st ∧ Q)) →
  runs h err_out st (and_then m f) (λ st1 _, st1 = st ∧ Q).
Proof.
  intros Hm Hf. apply runs_and_then. eapply runs_weaken; [exact Hm|]. cbn. intros st1 a [-> _].
  split; [reflexivity|apply Hf].
Qed.

Lemma runs_check {E A} st show (r : result E A) :
  slot_clear err_out st → runs h err_out st (checking err_out show r) (λ st1 _, st1 = st ∧ True).
Proof. intros Hs. eapply runs_weaken; [by apply runs_checking|]. by intros st1 a [-> _]. Qed.

Lemma runs_value {A} st (a : A) : runs h err_out st (mret (Some a)) (λ st1 _, st1 = st ∧ True).
Proof. by apply runs_ret. Qed.

Lemma runs_read_slice st ptr len what :
  slot_clear err_out st → buf_ok st ptr len →
  runs h err_out st (read_slice ptr len what err_out) (λ st1 _, st1 = st ∧ True).
Proof.
  intros Hs Hbuf. unfold read_slice. apply runs_here with (P := True); [|intros; by apply runs_check].
  destruct (Nat.eqb_spec len 0) as [|Hlen]; [by apply runs_value|].
  destruct ptr as [a|]; [|by apply runs_failing].
  destruct (Hbuf a eq_refl) as [|(bytes & Hp & Hle)]; [done|].
  eapply (runs_step _ _ _ st); [|reflexivity|by apply runs_value].
  unfold read_bytes, get, mbind, ffi_bind. rewrite Hp. by rewrite (proj2 (Nat.leb_le _ _) Hle).
Qed.

Lemma runs_read_path st ptr len :
  slot_clear err_out st → buf_ok st ptr len →
  runs h err_out st (read_path ptr len err_out) (λ st1 _, st1 = st ∧ True).
Proof.
  intros Hs Hbuf. unfold read_path. eapply runs_here; [by apply runs_read_slice|].
  intros path. destruct (has_nul path); [by apply runs_failing|by apply runs_value].
Qed.

Lemma runs_read_optional st ptr what :
  slot_clear err_out st → str_ok st ptr →
  runs h err_out st (read_optional ptr what err_out) (λ st1 _, st1 = st ∧ True).
Proof.
  intros Hs Hstr. destruct ptr as [a|]; [|by apply runs_value]. unfold read_optional.
  eapply runs_here; [by apply runs_read_utf8|]. intros s. by apply runs_value.
Qed.
End arguments.

(** ** The engine's part *)

(** The host's callbacks change nothing but the host's own strings, and
    answer with such strings, or null. *)
Class HostCodeLaws {W} `{HostCode W} : Prop := {
  annotator_law call st ctx name invocation input :
    let '(st', (raw, err)) := annotator_fn call st ctx name invocation input in
    quiet st st' ∧ str_ok st' raw ∧ str_ok st' err;
  policy_law call st ctx invocation :
    let '(st', (raw, err)) := policy_fn call st ctx invocation in
    quiet st st' ∧ str_ok st' raw ∧ str_ok st' err;
  telemetry_law call st ctx event : quiet st (telemetry_fn call st ctx event);
  free_law call st ctx raw : quiet st (hook_free_fn call st ctx raw) }.

Section callbacks.
Context {W : Type} `{HostCodeLaws W} `{SerdeJson} `{SerdeValue} `{FfiSerde} `{AgentHooks} `{BundledHost W}.
Implicit Types st : State W.

Lemma give_back_evolved ctx raw st : quiet st (give_back ctx raw st).1.
Proof. unfold give_back. destruct (host_free ctx); [apply free_law|reflexivity]. Qed.

Lemma give_back_done ctx raw st : (give_back ctx raw st).2 = Done ().
Proof. unfold give_back. by destruct (host_free ctx). Qed.

(** Reading and giving back a string the host answered with. *)
Lemma taking_evolved {A} ctx raw (f : string → A) st :
  str_ok st (Some raw) →
  ∃ st' a, (bytes ← read_cstr raw; give_back ctx raw ;; mret (M := ffi) (f bytes)) st = (st', Done a) ∧ quiet st st'.
Proof.
  intros Hs. destruct (read_cstr_here st raw Hs) as [bytes Hb]. unfold mbind, ffi_bind. rewrite Hb.
  pose proof (give_back_evolved ctx raw st) as He. pose proof (give_back_done ctx raw st) as Hd.
  destruct (give_back ctx raw st) as [st' o]. cbn in *. subst o. by eexists _, _.
Qed.

Lemma bind_done {A B} (m : @ffi W A) (f : A → ffi B) st st' a : m st = (st', Done a) → (m ≫= f) st = f a st'.
Proof. intros Hm. unfold mbind, ffi_bind. by rewrite Hm. Qed.

Lemma host_error_evolved ctx what err st :
  str_ok st err → ∃ st' e, host_error ctx what err st = (st', Done e) ∧ quiet st st'.
Proof.
  intros Herr. destruct err as [err|]; [|by eexists _, _]. unfold host_error.
  by apply (taking_evolved ctx err (λ bytes, PolicyInvocationFailed ("host " +:+ what +:+ " failed: " +:+
    from_utf8_lossy (String.list_ascii_of_string bytes)))).
Qed.

Lemma take_evolved ctx what raw st :
  str_ok st raw → ∃ st' r, take ctx what raw st = (st', Done r) ∧ quiet st st' ∧
    (r = Ok None → raw = None ∧ st' = st).
Proof.
  intros Hraw. destruct raw as [raw|]; [|by exists st, (Ok None)].
  destruct (taking_evolved ctx raw (λ bytes, utf8 bytes) st Hraw) as (st' & r & Heq & Hev).
  eexists st', _. split; [|split; [done|]].
  - unfold take, mbind, ffi_bind in Heq |- *. destruct (read_cstr raw st) as [st1 [bytes|]]; [|done].
    destruct (give_back ctx raw st1) as [st2 [[]|]]; [|done]. injection Heq as -> ->.
    by instantiate (1 := match r with Ok s => Ok (Some s) | Err _ => Err _ end).
  - by destruct r.
Qed.

Lemma host_answer_evolved ctx what returned raw err st :
  str_ok st raw → str_ok st err →
  ∃ st' r, host_answer ctx what returned (raw, err) st = (st', Done r) ∧ quiet st st'.
Proof.
  intros Hraw Herr. unfold host_answer. cbn [fst snd].
  destruct (take_evolved ctx what raw st Hraw) as (st1 & r & Ht & Hev & Hnone).
  rewrite (bind_done _ _ _ _ _ Ht). destruct r as [[s|]|e]; [by eexists _, _| |by eexists _, _].
  destruct Hnone as [_ ->]; [done|].
  destruct (host_error_evolved ctx what err st Herr) as (st2 & e & He & Hev2).
  rewrite (bind_done _ _ _ _ _ He). by eexists _, _.
Qed.

#[export] Instance ffi_host_keeps hooks : @HostKeeps (State W) (ffi_host hooks) (quiet).
Proof.
  split; cbn.
  - intros st name invocation input. destruct (hook_annotator hooks) as [[ctx call]|].
    + unfold host_annotator_dispatch. destruct (annotator_arguments _ _ _) as [[[n i] p]|e]; [|reflexivity].
      pose proof (annotator_law call st (host_ctx ctx) n i p) as Hlaw.
      destruct (annotator_fn _ _ _ _ _ _) as [st1 [raw err]]. destruct Hlaw as (Hev & Hraw & Herr).
      destruct (host_answer_evolved ctx "annotator" "host annotator" raw err st1 Hraw Herr) as (st2 & r & -> & Hev2).
      cbn. by etrans.
    + destruct (bundled_annotator _ _ _ _ _). by apply quiet_eq.
  - intros st invocation. destruct (hook_policy hooks) as [[ctx call]|].
    + unfold host_policy_evaluate. destruct (policy_argument _) as [payload|e]; [|reflexivity].
      pose proof (policy_law call st (host_ctx ctx) payload) as Hlaw.
      destruct (policy_fn _ _ _ _) as [st1 [raw err]]. destruct Hlaw as (Hev & Hraw & Herr).
      destruct (host_answer_evolved ctx "policy dispatcher" "host policy" raw err st1 Hraw Herr) as (st2 & r & -> & Hev2).
      cbn. by etrans.
    + destruct (bundled_policy _ _ _). by apply quiet_eq.
  - intros st event. destruct (hook_telemetry hooks) as [[ctx call]|]; [|reflexivity].
    unfold host_emit. destruct (to_string _); [|reflexivity]. destruct (cstring_new _); [|reflexivity].
    apply telemetry_law.
Qed.
End callbacks.

(** ** Entry points *)

(** The state after the slot was cleared. *)
Definition cleared {W} (err_out : Ptr) (st : State W) : State W :=
  match err_out with
  | None => st
  | Some slot => mkState (<[slot := CellSlot None]> (cells st)) (undefined st) (ffi_world st)
  end.

Section entries.
Context {W : Type} `{Good}.
Notation State := (State W).
Notation ffi := (@ffi W).
Notation closure A := (ffi (option A)).
Implicit Types (st : State) (h err_out : Ptr).

Lemma clear_err_ok err_out st : slot_ok err_out st → clear_err err_out st = (cleared err_out st, Done ()).
Proof.
  intros Hs. destruct err_out as [slot|]; [|done]. destruct (Hs slot eq_refl) as [v Hv].
  by apply (write_slot_ok slot v).
Qed.

Lemma slot_clear_cleared err_out st : slot_clear err_out (cleared err_out st).
Proof. intros slot ->. apply lookup_insert_eq. Qed.

(** Clearing the slot changes no other cell. *)
Lemma cleared_lookup err_out st p c :
  slot_ok err_out st → (∀ q, c ≠ CellSlot q) → cells (cleared err_out st) !! p = Some c ↔ cells st !! p = Some c.
Proof.
  intros Hs Hc. destruct err_out as [slot|]; [|done]. cbn. destruct (Hs slot eq_refl) as [v Hv].
  destruct (decide (slot = p)) as [<-|Hne]; [|by rewrite lookup_insert_ne].
  rewrite lookup_insert_eq, Hv. naive_solver.
Qed.

(** An entry point answers, whatever its closure does: a panic is a
    failure, reported like any other. *)
Lemma entry_answers {A} h name err_out (failure : A) (shape : A → Shape) body st :
  err_out ≠ h ∨ err_out = None → slot_ok err_out st → shape failure = ShFailed →
  replies h err_out shape (cleared err_out st) body →
  ∃ st' a, entry name err_out failure body st = (st', Done a) ∧ answers h err_out (cleared err_out st) st' (shape a).
Proof.
  intros Hne Hs Hf Hb. unfold entry. rewrite (bind_done _ _ _ _ _ (clear_err_ok _ _ Hs)).
  unfold catch_unwind, mbind, ffi_bind. unfold replies, runs in Hb.
  pose proof (slot_clear_cleared err_out st) as Hc.
  destruct (body (cleared err_out st)) as [st1 [[a|]|]].
  - by eexists _, _.
  - destruct Hb as (st2 & Hev & Hfail). eexists _, failure. split; [done|]. rewrite Hf. exists st2.
    split; [done|]. split; [by eapply slot_clear_evolved|done].
  - assert (slot_clear err_out st1) as Hc1 by by eapply slot_clear_evolved.
    destruct (set_err_failed err_out ("internal panic in " +:+ name) st1) as (st2 & -> & Hfail);
      [by apply slot_clear_ok|].
    eexists _, failure. split; [done|]. rewrite Hf. by exists st1.
Qed.

(** *** Handles *)

Lemma runs_handle_arg h err_out st handle :
  slot_clear err_out st → runs h err_out st (handle_arg handle err_out) (λ st1 p, st1 = st ∧ handle = Some p).
Proof. intros Hs. destruct handle; [by apply runs_ret|by apply runs_failing]. Qed.

Definition interceptor_ok st (p : Ptr) : Prop := ∀ a, p = Some a → ∃ i, cells st !! a = Some (CellInterceptor i).
Definition policy_ok st (p : Ptr) : Prop := ∀ a, p = Some a → ∃ i, cells st !! a = Some (CellPolicy i).
Definition session_ok st (p : Ptr) : Prop := ∀ a, p = Some a → ∃ s, cells st !! a = Some (CellSession s).

Lemma interceptor_at_ok st p i : cells st !! p = Some (CellInterceptor i) → interceptor_at p st = (st, Done (Some i)).
Proof. intros Hp. unfold interceptor_at, get, mbind, ffi_bind. by rewrite Hp. Qed.

Lemma policy_at_ok st p i : cells st !! p = Some (CellPolicy i) → policy_at p st = (st, Done (Some i)).
Proof. intros Hp. unfold policy_at, get, mbind, ffi_bind. by rewrite Hp. Qed.

Lemma replies_interceptor {B} h err_out (shape : B → Shape) st p (f : FfiInterceptor → closure B) :
  interceptor_ok st (Some p) → (∀ i, replies h err_out shape st (f i)) →
  replies h err_out shape st (and_then (interceptor_at p) f).
Proof.
  intros Hp Hf. destruct (Hp p eq_refl) as [i Hi]. unfold and_then.
  eapply replies_step; [by apply interceptor_at_ok|reflexivity|apply Hf].
Qed.

Lemma replies_policy {B} h err_out (shape : B → Shape) st p (f : FfiPolicy → closure B) :
  policy_ok st (Some p) → (∀ i, replies h err_out shape st (f i)) →
  replies h err_out shape st (and_then (policy_at p) f).
Proof.
  intros Hp Hf. destruct (Hp p eq_refl) as [i Hi]. unfold and_then.
  eapply replies_step; [by apply policy_at_ok|reflexivity|apply Hf].
Qed.

Lemma replies_handle {B} h err_out (shape : B → Shape) st handle (f : positive → closure B) :
  slot_clear err_out st → (∀ p, handle = Some p → replies h err_out shape st (f p)) →
  replies h err_out shape st (and_then (handle_arg handle err_out) f).
Proof. intros Hs Hf. eapply replies_here; [by apply runs_handle_arg|]. cbn. auto. Qed.

(** *** Calls of the engine *)

Context `{Unwinding W}.

Lemma replies_engine {A B} h err_out (shape : B → Shape) name call st (f : A → closure B) :
  err_out ≠ h ∨ err_out = None → slot_clear err_out st →
  quiet st (call st).1 →
  (∀ st1 a, call st = (st1, a) → quiet st st1 → slot_clear err_out st1 → replies h err_out shape st1 (f a)) →
  replies h err_out shape st (engine name call ≫= f).
Proof.
  intros Hne Hs Hev Hf. destruct (unwinds name st) as [w|] eqn:Hu.
  - eapply runs_unwind; [by unfold engine; rewrite Hu|]. by apply quiet_evolved, quiet_eq.
  - destruct (call st) as [st1 a] eqn:Hcall. cbn in Hev.
    eapply replies_step; [unfold engine; by rewrite Hu, Hcall|by apply quiet_evolved|].
    apply Hf; [done..|]. eapply (slot_clear_evolved None); [|by apply quiet_evolved|done]. destruct err_out; [by left|by right].
Qed.

Lemma in_world_evolved {A} (call : W → W * A) st : quiet st (in_world call st).1.
Proof. unfold in_world. destruct (call _) as [w a]. by apply quiet_eq. Qed.
End entries.

(** ** The entry points' own readers *)

Section readers.
Context {W : Type} `{Good} (h err_out : Ptr).
Context `{AgentHooks} `{UrlCrate} `{SerdeJson} `{SerdeValue} `{FfiSerde}.
Notation State := (State W).
Notation closure A := (@ffi W (option A)).
Implicit Types st : State.

Notation reads st m := (runs h err_out st m (λ st1 _, st1 = st ∧ True)).

Lemma reads_failing {A} st message : slot_clear err_out st → reads st (failing err_out message : closure A).
Proof. apply runs_failing. Qed.

(** [reads] composes; the pieces are these. *)
Ltac solve_reads :=
  repeat first
    [ assumption | done | apply runs_read_utf8 | apply runs_read_slice | apply runs_read_path
    | apply runs_read_optional | apply runs_check | apply reads_failing | apply runs_value
    | eapply runs_here; [|intros]
    | match goal with
      | |- runs _ _ _ (match ?x with _ => _ end) _ => destruct x
      | |- runs _ _ _ (if ?b then _ else _) _ => destruct b
      end ].

Lemma reads_manifest_limits st limits_json :
  slot_clear err_out st → str_ok st limits_json → reads st (read_manifest_limits limits_json err_out).
Proof. intros. unfold read_manifest_limits. solve_reads. Qed.

Lemma reads_object st what raw : slot_clear err_out st → reads st (read_object what raw err_out).
Proof. intros. unfold read_object. solve_reads. Qed.

Lemma reads_bundles st bundles_json :
  slot_clear err_out st → str_ok st bundles_json → reads st (read_in_memory_bundles bundles_json err_out).
Proof. intros. unfold read_in_memory_bundles. solve_reads. Qed.

Lemma reads_perf st perf : slot_clear err_out st → str_ok st perf → reads st (read_perf perf err_out).
Proof. intros. unfold read_perf. solve_reads. Qed.

Lemma reads_limits st limits : slot_clear err_out st → str_ok st limits → reads st (read_limits limits err_out).
Proof. intros. unfold read_limits. solve_reads. Qed.

Lemma reads_source st source : slot_clear err_out st → str_ok st source → reads st (read_source source err_out).
Proof. intros. unfold read_source. solve_reads. Qed.

Lemma reads_track st track : slot_clear err_out st → str_ok st track → reads st (read_track track err_out).
Proof. intros. unfold read_track, wire_track. solve_reads. Qed.

Lemma reads_outcome st outcome : slot_clear err_out st → reads st (wire_outcome outcome err_out).
Proof. intros. unfold wire_outcome. solve_reads. Qed.

Lemma reads_findings st m : slot_clear err_out st → reads st (document_findings err_out m).
Proof. intros. unfold document_findings. solve_reads. Qed.

(** A reader before the rest of an entry point. *)
Lemma replies_reads {A B} (shape : B → Shape) st (m : closure A) (f : A → closure B) :
  reads st m → (∀ a, replies h err_out shape st (f a)) → replies h err_out shape st (and_then m f).
Proof. intros Hm Hf. eapply replies_here; [exact Hm|]. intros a _. apply Hf. Qed.
End readers.

(** ** Sessions and evaluations *)

Section operations.
Context {W : Type} `{Good} (h err_out : Ptr) `{Unwinding W}.
Notation State := (State W).
Notation closure A := (@ffi W (option A)).
Implicit Types st : State.

(** What an operation makes of a session, and what a panic inside it may
    leave behind the poisoned lock, are good if the session was. *)
Definition keeps_good {A} (op : StreamSession → StreamSession * A) : Prop := ∀ s,
  (good (CellSession (mkFfiSession false s)) → good (CellSession (mkFfiSession false (op s).1))) ∧
  ∀ torn, good (CellSession (mkFfiSession true torn)).

Lemma locked_evolved {A} name p s (op : StreamSession → StreamSession * A) st :
  cells st !! p = Some (CellSession (mkFfiSession false s)) → keeps_good op →
  evolved (Some p) st (locked name p s op st).1.
Proof.
  intros Hp Hop. destruct (Hop s) as [Hgood Htorn]. unfold locked. destruct (unwinds name st) as [w|].
  - cbn. etrans; [|by eapply (evolved_set p _ _ (with_world st w))]. by apply quiet_evolved, quiet_eq.
  - destruct (op s) as [s1 a]. cbn in *. by eapply evolved_set.
Qed.

Lemma replies_session {A R} (shape : R → Shape) name st op (report : A → closure R) :
  slot_clear err_out st → session_ok st h → keeps_good op →
  (∀ st1 a, slot_clear err_out st1 → replies h err_out shape st1 (report a)) →
  replies h err_out shape st (with_session name h err_out op report).
Proof.
  intros Hs Hh Hop Hr. destruct h as [p|]; [|by apply runs_failing].
  destruct (Hh p eq_refl) as [[poisoned s] Hp].
  assert (err_out ≠ Some p ∨ err_out = None) as Hne.
  { destruct err_out as [slot|]; [left|by right]. intros [= ->]. rewrite (Hs p eq_refl) in Hp. congruence. }
  unfold with_session. eapply replies_step; [by unfold get; rewrite Hp|reflexivity|]. cbn.
  destruct poisoned; [by apply runs_failing|].
  pose proof (locked_evolved name p s op st Hp Hop) as Hev.
  destruct (locked name p s op st) as [st1 [a|]] eqn:Hl; cbn in Hev.
  - eapply replies_step; [exact Hl|done|]. apply Hr. by eapply slot_clear_evolved.
  - by eapply runs_unwind.
Qed.
End operations.

Section evaluations.
Context {W : Type} `{Good} `{AgentHooksLaws} `{UrlCrate} `{SerdeJson} `{SerdeValue} `{Sha2} `{FfiSerde}.
Context `{HostCodeLaws W} `{BundledHost W}.

Lemma evaluating_quiet hooks rt snapshot (st : State W) : quiet st (evaluating hooks rt snapshot st).1.
Proof.
  unfold evaluating.
  pose proof (evaluate_keeps (H4 := ffi_host hooks) quiet rt snapshot (mkRun st [])) as Hk.
  by destruct (evaluate _ _ _).
Qed.

Lemma activated_quiet hooks policy point snapshot (st : State W) :
  quiet st (world (activated_evaluate (H4 := ffi_host hooks) policy point snapshot (mkRun st [])).1).
Proof. apply (evaluate_point_keeps (H4 := ffi_host hooks) quiet _ _ _ (mkRun st [])). Qed.
End evaluations.
