(* ===== verification/FfiSafety.v ===== *)
(** * The C ABI's contract

    [FfiCall] is a call of an entry point with its arguments, [abi_contract]
    what the caller owes, and [call_abi] what the call does. Under the
    contract no call is undefined or lets a panic through, memory keeps
    its types and nothing leaks; a call fails exactly when it leaves a
    message; the handles stay what their constructors made; and a session
    behind a handle is the session of the calls made on it. *)

From stdpp Require Import gmap fin_sets strings.
From S2P Require Import Prelude OrdMap RustStd Json Errors AgentHooks Constants Stream StreamSafety Paths PolicyInput.
From S2P Require Import Limits Hex Pins Policy PolicyOutput Manifest ManifestMerge Loader Yaml.
From S2P Require Import Telemetry Runtime RuntimeWorld Cedar CedarBuiltin Workers Rego Wire Activation Ffi FfiFacts.
From S2P Require Import Concrete Samples.

(** ** Calls *)

Inductive FfiCall :=
  | InterceptorNew (manifest_path err_out : Ptr)
  | InterceptorNewEx (manifest_path : Ptr) (len : nat) (err_out : Ptr)
  | InterceptorNewWithHooks (manifest_path : Ptr) (len : nat)
      (annotator annotator_ctx policy policy_ctx telemetry telemetry_ctx hook_free : Ptr)
      (perf_telemetry limits_json err_out : Ptr)
  | InterceptorSetName (handle name err_out : Ptr)
  | InterceptorName (handle err_out : Ptr)
  | InterceptorFree (handle : Ptr)
  | FreeString (s : Ptr)
  | Intercept (handle context_json err_out : Ptr)
  | ValidateManifest (source : Ptr) (len : nat) (err_out : Ptr)
  | ValidateManifestWithLimits (source : Ptr) (len : nat) (limits_json err_out : Ptr)
  | ValidateManifestFile (path : Ptr) (len : nat) (err_out : Ptr)
  | SupportedManifestVersions (err_out : Ptr)
  | ManifestParse (yaml err_out : Ptr)
  | ManifestParseWithLimits (yaml limits_json err_out : Ptr)
  | ManifestMerge (yamls_json err_out : Ptr)
  | ManifestMergeWithLimits (yamls_json limits_json err_out : Ptr)
  | ManifestDiagnostics (yaml err_out : Ptr)
  | ArtifactDiagnostics (manifest_yaml bundles_json err_out : Ptr)
  | PolicyActivate (manifest_path : Ptr) (len : nat) (err_out : Ptr)
  | PolicyActivateFromMemory (manifest_yaml bundles_json err_out : Ptr)
  | PolicyEvaluate (handle point context_json err_out : Ptr)
  | PolicyInterventionPoints (handle err_out : Ptr)
  | PolicyFree (handle : Ptr)
  | SessionNew (config_json err_out : Ptr)
  | SessionFree (handle : Ptr)
  | SessionObserve (handle source_type : Ptr) (runes : N) (err_out : Ptr)
  | SessionObserveText (handle source_type text err_out : Ptr)
  | SessionRecordOutcome (handle task source_type : Ptr) (start end_ : N) (outcome err_out : Ptr)
  | SessionRecordVerdict (handle task source_type : Ptr) (start end_ : N) (verdict_json err_out : Ptr)
  | SessionAdvance (handle track err_out : Ptr)
  | SessionSafeOffset (handle track err_out : Ptr)
  | SessionPending (handle track err_out : Ptr)
  | SessionWatermark (handle track err_out : Ptr)
  | SessionState (handle err_out : Ptr)
  | SessionEndOfPayloads (handle err_out : Ptr)
  | SessionFinish (handle err_out : Ptr).

(** What a pointer argument must be, where it is not null. *)
Inductive Arg :=
  | AText (p : Ptr)
  | ABuffer (p : Ptr) (len : nat)
  | AOwned (p : Ptr)
  | AInterceptor (p : Ptr)
  | APolicy (p : Ptr)
  | ASession (p : Ptr).

Definition arguments (call : FfiCall) : list Arg :=
  match call with
  | InterceptorNew path _ => [AText path]
  | InterceptorNewEx path len _ | PolicyActivate path len _ | ValidateManifestFile path len _
  | ValidateManifest path len _ => [ABuffer path len]
  | InterceptorNewWithHooks path len _ _ _ _ _ _ _ perf limits _ => [ABuffer path len; AText perf; AText limits]
  | InterceptorSetName handle name _ => [AInterceptor handle; AText name]
  | InterceptorName handle _ | InterceptorFree handle => [AInterceptor handle]
  | FreeString s => [AOwned s]
  | Intercept handle context _ => [AInterceptor handle; AText context]
  | ValidateManifestWithLimits source len limits _ => [ABuffer source len; AText limits]
  | SupportedManifestVersions _ => []
  | ManifestParse yaml _ | ManifestMerge yaml _ | ManifestDiagnostics yaml _ => [AText yaml]
  | ManifestParseWithLimits yaml other _ | ManifestMergeWithLimits yaml other _
  | ArtifactDiagnostics yaml other _ | PolicyActivateFromMemory yaml other _ => [AText yaml; AText other]
  | PolicyEvaluate handle point context _ => [APolicy handle; AText point; AText context]
  | PolicyInterventionPoints handle _ | PolicyFree handle => [APolicy handle]
  | SessionNew config _ => [AText config]
  | SessionObserve handle text _ _ | SessionAdvance handle text _ | SessionSafeOffset handle text _
  | SessionPending handle text _ | SessionWatermark handle text _ => [ASession handle; AText text]
  | SessionObserveText handle source text _ => [ASession handle; AText source; AText text]
  | SessionRecordOutcome handle task source _ _ last _ | SessionRecordVerdict handle task source _ _ last _ =>
      [ASession handle; AText task; AText source; AText last]
  | SessionFree handle | SessionState handle _ | SessionEndOfPayloads handle _ | SessionFinish handle _ =>
      [ASession handle]
  end.

(** Where a call reports, the handle whose value it may change, and what
    it frees. *)
Definition err_of (call : FfiCall) : Ptr :=
  match call with
  | InterceptorFree _ | FreeString _ | PolicyFree _ | SessionFree _ => None
  | InterceptorNew _ e | InterceptorNewEx _ _ e | InterceptorNewWithHooks _ _ _ _ _ _ _ _ _ _ _ e
  | InterceptorSetName _ _ e | InterceptorName _ e | Intercept _ _ e | ValidateManifest _ _ e
  | ValidateManifestWithLimits _ _ _ e | ValidateManifestFile _ _ e | SupportedManifestVersions e
  | ManifestParse _ e | ManifestParseWithLimits _ _ e | ManifestMerge _ e | ManifestMergeWithLimits _ _ e
  | ManifestDiagnostics _ e | ArtifactDiagnostics _ _ e | PolicyActivate _ _ e | PolicyActivateFromMemory _ _ e
  | PolicyEvaluate _ _ _ e | PolicyInterventionPoints _ e | SessionNew _ e | SessionObserve _ _ _ e
  | SessionObserveText _ _ _ e | SessionRecordOutcome _ _ _ _ _ _ e | SessionRecordVerdict _ _ _ _ _ _ e
  | SessionAdvance _ _ e | SessionSafeOffset _ _ e | SessionPending _ _ e | SessionWatermark _ _ e
  | SessionState _ e | SessionEndOfPayloads _ e | SessionFinish _ e => e
  end.

Definition changes (call : FfiCall) : Ptr :=
  match call with
  | InterceptorSetName h _ _ | SessionObserve h _ _ _ | SessionObserveText h _ _ _
  | SessionRecordOutcome h _ _ _ _ _ _ | SessionRecordVerdict h _ _ _ _ _ _ | SessionAdvance h _ _
  | SessionSafeOffset h _ _ | SessionPending h _ _ | SessionWatermark h _ _ | SessionState h _
  | SessionEndOfPayloads h _ | SessionFinish h _ => h
  | _ => None
  end.

Definition freed (call : FfiCall) : Ptr :=
  match call with InterceptorFree p | FreeString p | PolicyFree p | SessionFree p => p | _ => None end.

(** What the answer points to. *)
Definition gives (call : FfiCall) : Kind :=
  match call with
  | InterceptorNew _ _ | InterceptorNewEx _ _ _ | InterceptorNewWithHooks _ _ _ _ _ _ _ _ _ _ _ _ => KInterceptor
  | PolicyActivate _ _ _ | PolicyActivateFromMemory _ _ _ => KPolicy
  | SessionNew _ _ => KSession
  | _ => KString EngineAlloc
  end.

(** The codes that say the call failed, or refused a manifest. The -1 of
    an absent offset is no failure. *)
Definition fails_with (call : FfiCall) (z : Z) : bool :=
  match call with
  | SessionObserve _ _ _ _ | SessionObserveText _ _ _ _ | SessionAdvance _ _ _ | SessionSafeOffset _ _ _
  | SessionPending _ _ _ => bool_decide (z = (-2)%Z)
  | _ => bool_decide (z ≠ 0%Z)
  end.

Inductive Reply := RPtr (p : Ptr) | RCode (z : Z) | RUnit.

Definition reply_shape (call : FfiCall) (r : Reply) : Shape :=
  match r with
  | RPtr p => ptr_shape (gives call) p
  | RCode z => code_shape (fails_with call) z
  | RUnit => ShPlain
  end.

Definition failure_reply (call : FfiCall) (r : Reply) : Prop := reply_shape call r = ShFailed.

Section abi.
Context {W : Type} `{AgentHooksLaws} `{UrlCrate} `{SerdeJson} `{SerdeValue} `{Sha2} `{ManifestFormats}.
Context `{LoaderHost W} `{WarmHost W} `{HostCode W} `{BundledHost W} `{FfiSerde} `{Unwinding W}.
Notation State := (State W).
Notation ffi := (@ffi W).
Implicit Types st : State.

Definition as_ptr (m : ffi Ptr) : ffi Reply := p ← m; mret (RPtr p).
Definition as_code (m : ffi Z) : ffi Reply := z ← m; mret (RCode z).
Definition as_unit (m : ffi ()) : ffi Reply := m ;; mret RUnit.

Definition call_abi (call : FfiCall) : ffi Reply :=
  match call with
  | InterceptorNew path e => as_ptr (acs_interceptor_new path e)
  | InterceptorNewEx path len e => as_ptr (acs_interceptor_new_ex path len e)
  | InterceptorNewWithHooks path len a actx p pctx t tctx free perf limits e =>
      as_ptr (acs_interceptor_new_with_hooks path len a actx p pctx t tctx free perf limits e)
  | InterceptorSetName handle name e => as_unit (acs_interceptor_set_name handle name e)
  | InterceptorName handle e => as_ptr (acs_interceptor_name handle e)
  | InterceptorFree handle => as_unit (acs_interceptor_free handle)
  | FreeString s => as_unit (acs_free_string s)
  | Intercept handle context e => as_ptr (acs_intercept handle context e)
  | ValidateManifest source len e => as_code (acs_validate_manifest source len e)
  | ValidateManifestWithLimits source len limits e =>
      as_code (acs_validate_manifest_with_limits source len limits e)
  | ValidateManifestFile path len e => as_code (acs_validate_manifest_file path len e)
  | SupportedManifestVersions e => as_ptr (acs_supported_manifest_versions e)
  | ManifestParse yaml e => as_ptr (acs_manifest_parse yaml e)
  | ManifestParseWithLimits yaml limits e => as_ptr (acs_manifest_parse_with_limits yaml limits e)
  | ManifestMerge yamls e => as_ptr (acs_manifest_merge yamls e)
  | ManifestMergeWithLimits yamls limits e => as_ptr (acs_manifest_merge_with_limits yamls limits e)
  | ManifestDiagnostics yaml e => as_ptr (acs_manifest_diagnostics yaml e)
  | ArtifactDiagnostics yaml bundles e => as_ptr (acs_artifact_diagnostics yaml bundles e)
  | PolicyActivate path len e => as_ptr (acs_policy_activate path len e)
  | PolicyActivateFromMemory yaml bundles e => as_ptr (acs_policy_activate_from_memory yaml bundles e)
  | PolicyEvaluate handle point context e => as_ptr (acs_policy_evaluate handle point context e)
  | PolicyInterventionPoints handle e => as_ptr (acs_policy_intervention_points handle e)
  | PolicyFree handle => as_unit (acs_policy_free handle)
  | SessionNew config e => as_ptr (acs_stream_session_new config e)
  | SessionFree handle => as_unit (acs_stream_session_free handle)
  | SessionObserve handle source runes e => as_code (acs_stream_session_observe handle source runes e)
  | SessionObserveText handle source text e => as_code (acs_stream_session_observe_text handle source text e)
  | SessionRecordOutcome handle task source start end_ outcome e =>
      as_code (acs_stream_session_record_outcome handle task source start end_ outcome e)
  | SessionRecordVerdict handle task source start end_ verdict e =>
      as_code (acs_stream_session_record_verdict handle task source start end_ verdict e)
  | SessionAdvance handle track e => as_code (acs_stream_session_advance handle track e)
  | SessionSafeOffset handle track e => as_code (acs_stream_session_safe_offset handle track e)
  | SessionPending handle track e => as_code (acs_stream_session_pending handle track e)
  | SessionWatermark handle track e => as_ptr (acs_stream_session_watermark handle track e)
  | SessionState handle e => as_ptr (acs_stream_session_state handle e)
  | SessionEndOfPayloads handle e => as_code (acs_stream_session_end_of_payloads handle e)
  | SessionFinish handle e => as_ptr (acs_stream_session_finish handle e)
  end.

(** The engine's own string, which nobody has given back. *)
Definition owned_ok st (p : Ptr) : Prop := ∀ a, p = Some a → ∃ s, cells st !! a = Some (CellString EngineAlloc s).

Definition arg_ok st (arg : Arg) : Prop :=
  match arg with
  | AText p => str_ok st p
  | ABuffer p len => buf_ok st p len
  | AOwned p => owned_ok st p
  | AInterceptor p => interceptor_ok st p
  | APolicy p => policy_ok st p
  | ASession p => session_ok st p
  end.

Definition abi_contract (call : FfiCall) st : Prop := slot_ok (err_of call) st ∧ Forall (arg_ok st) (arguments call).

(** The handles' contents, as their constructors made them: an interceptor
    and a policy hold a runtime that was constructed, a session one that
    calls of its operations reach. *)
Definition constructed (rt : Runtime) : Prop := ∃ m perf limits, runtime_new m perf limits = Ok rt.

Definition made (c : Cell) : Prop :=
  match c with
  | CellString EngineAlloc s => has_nul s = false
  | CellInterceptor i => constructed (fi_runtime i)
  | CellPolicy p => constructed (activated_runtime (fp_policy p))
  | CellSession s => fs_poisoned s = false → ∃ config log, reachable config log (fs_session s)
  | _ => True
  end.

#[export] Instance made_good : Good := {| good := made; good_text s Hs := Hs |}.

(** Clearing the slot leaves the arguments as they were. *)
Lemma arg_ok_cleared err_out st arg : slot_ok err_out st → arg_ok st arg → arg_ok (cleared err_out st) arg.
Proof.
  intros Hs. destruct arg; cbn; intros Ha a ->.
  - destruct (Ha a eq_refl) as (k & b & Hp). exists k, b. by apply cleared_lookup.
  - destruct (Ha a eq_refl) as [|(b & Hp & Hle)]; [by left|]. right. exists b. split; [by apply cleared_lookup|done].
  - destruct (Ha a eq_refl) as (b & Hp). exists b. by apply cleared_lookup.
  - destruct (Ha a eq_refl) as (b & Hp). exists b. by apply cleared_lookup.
  - destruct (Ha a eq_refl) as (b & Hp). exists b. by apply cleared_lookup.
  - destruct (Ha a eq_refl) as (b & Hp). exists b. by apply cleared_lookup.
Qed.

(** What a call that frees nothing does. *)
Definition answered (call : FfiCall) st (m : ffi Reply) : Prop :=
  ∃ st' r, m st = (st', Done r) ∧
    answers (changes call) (err_of call) (cleared (err_of call) st) st' (reply_shape call r).

Lemma answered_ptr h e name k body shape st :
  e ≠ h ∨ e = None → slot_ok e st → (∀ p, shape (RPtr p) = ptr_shape k p) →
  replies h e (ptr_shape k) (cleared e st) body →
  ∃ st' r, as_ptr (entry name e None body) st = (st', Done r) ∧ answers h e (cleared e st) st' (shape r).
Proof.
  intros Hne Hs Hk Hb. destruct (entry_answers h name e None (ptr_shape k) body st) as (st' & a & He & Ha); [done..|].
  exists st', (RPtr a). rewrite Hk. split; [|done]. unfold as_ptr. by rewrite (bind_done _ _ _ _ _ He).
Qed.

Lemma answered_code h e name bad failure body shape st :
  e ≠ h ∨ e = None → slot_ok e st → bad failure = true → (∀ z, shape (RCode z) = code_shape bad z) →
  replies h e (code_shape bad) (cleared e st) body →
  ∃ st' r, as_code (entry name e failure body) st = (st', Done r) ∧ answers h e (cleared e st) st' (shape r).
Proof.
  intros Hne Hs Hf Hk Hb.
  destruct (entry_answers h name e failure (code_shape bad) body st) as (st' & a & He & Ha); [done|done| |done|].
  { unfold code_shape. by rewrite Hf. }
  exists st', (RCode a). rewrite Hk. split; [|done]. unfold as_code. by rewrite (bind_done _ _ _ _ _ He).
Qed.

(** *** What the engine's answers are *)

Lemma activate_built_made built (s s' : W * list PreparedPolicyInvocation) policy :
  activate_built built s = (s', Ok policy) → built = Ok (activated_runtime policy).
Proof.
  unfold activate_built, activate. destruct built as [rt|]; [|done].
  destruct (warm_points _ _ _) as [s1 [[]|]]; [|done]. by intros [= <- <-].
Qed.

Lemma activating_made (activation : warming W ActivatedPolicy) st st' policy :
  (∀ s s' p, activation s = (s', Ok p) → constructed (activated_runtime p)) →
  in_world (λ w, let '((w, _), r) := activation (w, []) in (w, r)) st = (st', Ok policy) →
  constructed (activated_runtime policy).
Proof.
  intros Hact. unfold in_world. destruct (activation (ffi_world st, [])) as [[w l] r] eqn:Ha. cbn.
  intros [= _ ->]. by eapply Hact.
Qed.

Lemma activate_with_made m s s' policy :
  activate_with m s = (s', Ok policy) → constructed (activated_runtime policy).
Proof. intros Ha. exists m, PerfOff, default_limits. by eapply activate_built_made. Qed.

Lemma activate_from_memory_with_made source bundles (s s' : W * list PreparedPolicyInvocation) policy :
  activate_from_memory_with source bundles s = (s', Ok policy) →
  constructed (activated_runtime policy).
Proof.
  unfold activate_from_memory_with, activate_from_memory_with_telemetry_perf_and_limits.
  destruct (parsed_from_memory source bundles) as [m|]; cbn; [|done].
  intros Ha. exists m, PerfOff, default_limits. by eapply activate_built_made.
Qed.

(** *** Sessions *)

Lemma keeps_reachable {A} (op : StreamSession → StreamSession * A) :
  (∀ s, ∃ ops, (op s).1 = run s ops) → keeps_good op.
Proof.
  intros Hop s. split; [|done]. cbn. intros Hr _. destruct (Hr eq_refl) as (config & log & Hl).
  destruct (Hop s) as [ops ->]. eexists config, _. by apply reachable_run.
Qed.

(** *** Every entry point *)

Context `{!HostCodeLaws}.

Lemma replies_refusal h e (bad : Z → bool) st message z :
  slot_clear e st → bad z = true →
  replies h e (code_shape bad) st (set_err e message ;; mret (Some z)).
Proof.
  intros Hs Hz. unfold replies, runs, mbind, ffi_bind.
  destruct (set_err_failed e message st) as (st' & -> & Hf); [by apply slot_clear_ok|]. cbn.
  exists st. split; [reflexivity|]. split; [done|]. unfold code_shape. by rewrite Hz.
Qed.

Lemma replies_from_path {B} h e (shape : B → Shape) name path limits st (f : _ → @ffi (option B)) :
  e ≠ h ∨ e = None → slot_clear e st →
  (∀ st1 m, slot_clear e st1 → replies h e shape st1 (f m)) →
  replies h e shape st (manifest_from_path name path limits ≫= f).
Proof.
  intros Hne Hs Hf. apply replies_engine; [done..|apply in_world_evolved|]. intros st1 m _ _ Hc. by apply Hf.
Qed.

Ltac reading lem := eapply replies_reads; [eapply lem; assumption|intros ?].
Ltac reply_step :=
  lazymatch goal with
  | |- replies _ _ _ _ (and_then (read_utf8 _ _ _) _) => reading runs_read_utf8
  | |- replies _ _ _ _ (and_then (read_path _ _ _) _) => reading runs_read_path
  | |- replies _ _ _ _ (and_then (read_slice _ _ _ _) _) => reading runs_read_slice
  | |- replies _ _ _ _ (and_then (read_object _ _ _) _) => reading reads_object
  | |- replies _ _ _ _ (and_then (read_manifest_limits _ _) _) => reading reads_manifest_limits
  | |- replies _ _ _ _ (and_then (read_in_memory_bundles _ _) _) => reading reads_bundles
  | |- replies _ _ _ _ (and_then (read_perf _ _) _) => reading reads_perf
  | |- replies _ _ _ _ (and_then (read_limits _ _) _) => reading reads_limits
  | |- replies _ _ _ _ (and_then (read_source _ _) _) => reading reads_source
  | |- replies _ _ _ _ (and_then (read_track _ _) _) => reading reads_track
  | |- replies _ _ _ _ (and_then (wire_outcome _ _) _) => reading reads_outcome
  | |- replies _ _ _ _ (and_then (document_findings _ _) _) => reading reads_findings
  | |- replies _ _ _ _ (and_then (checking _ _ _) _) => apply replies_checking; [assumption|intros ? ?]
  | |- replies _ _ _ _ (and_then (handle_arg _ _) _) => apply replies_handle; [assumption|intros ? ->]
  | |- replies _ _ _ _ (and_then (interceptor_at _) _) => apply replies_interceptor; [assumption|intros ?]
  | |- replies _ _ _ _ (and_then (policy_at _) _) => apply replies_policy; [assumption|intros ?]
  | |- replies _ _ _ _ (manifest_from_path _ _ _ ≫= _) => apply replies_from_path; [assumption..|intros ? ? ?]
  | |- replies _ _ _ _ (activating _ _ ≫= _) =>
      apply replies_engine; [assumption|assumption|apply in_world_evolved|intros ? ? ? ? ?]
  | |- replies _ _ _ _ (engine _ _ ≫= _) =>
      apply replies_engine; [assumption|assumption|try reflexivity|intros ? ? ? ? ?]
  | |- replies _ _ _ _ (answer_json _ _ _) => by apply replies_json
  | |- replies _ _ _ _ (failing _ _) => by apply replies_failing
  | |- replies _ _ _ _ (and_then (match ?x with _ => _ end) _) => destruct x eqn:?
  | |- replies _ _ _ _ (and_then (_ ≫= _) _) => apply replies_assoc
  | |- replies _ _ _ _ (and_then (mret (Some _)) _) => apply replies_value
  | |- replies _ _ _ _ (and_then (failing _ _) _) => by apply replies_failing_then
  | |- replies _ _ _ _ (get _ ≫= _) => eapply replies_step; [reflexivity|reflexivity|]
  | |- replies _ _ _ _ (alloc _ ≫= _) => apply replies_alloc; [assumption|reflexivity|]
  | |- replies _ _ _ _ (manifest_verdict _ _) => apply replies_refusal; [assumption|by case_match]
  | |- replies _ _ _ _ (set_err _ _ ≫= _) => apply replies_refusal; [assumption|done]
  | |- replies _ _ _ _ (mret _) => apply replies_plain; [assumption|]
  | |- replies _ _ _ _ (with_session _ _ _ _ _) => eapply replies_session; [eassumption..| |intros ? ? ?]
  | |- replies _ _ _ _ (match ?x with _ => _ end) => destruct x eqn:?
  | |- replies _ _ _ _ (if ?x then _ else _) => destruct x eqn:?
  end.

(** An entry point that frees nothing and answers with a code or a
    pointer. *)
Definition plain_call (call : FfiCall) : bool :=
  match call with
  | InterceptorFree _ | FreeString _ | PolicyFree _ | SessionFree _ | InterceptorSetName _ _ _ => false
  | _ => true
  end.

Lemma contract_slot call st : abi_contract call st → err_of call ≠ changes call ∨ err_of call = None.
Proof.
  intros [Hs Ha]. destruct (err_of call) as [slot|] eqn:He; [left|by right]. intros Hc.
  destruct (Hs slot eq_refl) as [q Hq].
  assert (∃ c, cells st !! slot = Some c ∧ kind_of c ≠ KSlot) as (c & Hp & Hk); [|naive_solver].
  destruct call; cbn in *; try done; apply Forall_cons in Ha as [Hh _]; symmetry in Hc;
    destruct (Hh _ Hc) as [? ?]; eauto.
Qed.

(** The name of an interceptor, and the supported versions, are answered
    outside [entry]. *)
Lemma name_answers handle e st :
  slot_ok e st → interceptor_ok (cleared e st) handle →
  ∃ st' p, acs_interceptor_name handle e st = (st', Done p) ∧
    answers None e (cleared e st) st' (ptr_shape (KString EngineAlloc) p).
Proof.
  intros Hs Hh. pose proof (slot_clear_cleared e st) as Hc. unfold acs_interceptor_name.
  rewrite (bind_done _ _ _ _ _ (clear_err_ok _ _ Hs)). destruct handle as [p|].
  - destruct (Hh p eq_refl) as [i Hi]. rewrite (bind_done _ _ _ _ _ (interceptor_at_ok _ _ _ Hi)).
    by apply to_c_string_answers.
  - destruct (set_err_failed e "handle must not be null" (cleared e st)) as (st' & Hset & Hf);
      [by apply slot_clear_ok|].
    rewrite (bind_done _ _ _ _ _ Hset). exists st', None. split; [done|]. by exists (cleared e st).
Qed.

Lemma versions_answer e st :
  slot_ok e st →
  ∃ st' p, acs_supported_manifest_versions e st = (st', Done p) ∧
    answers None e (cleared e st) st' (ptr_shape (KString EngineAlloc) p).
Proof.
  intros Hs. pose proof (slot_clear_cleared e st) as Hc. unfold acs_supported_manifest_versions.
  rewrite (bind_done _ _ _ _ _ (clear_err_ok _ _ Hs)). destruct (to_string _) as [json|].
  - destruct (to_c_string_answers None e (cleared e st) json Hc) as (st' & p & Hp & Ha).
    exists st', p. split; [|done]. unfold catch_unwind, mbind, ffi_bind. by rewrite Hp.
  - destruct (set_err_failed e "supported version list is not encodable" (cleared e st)) as (st' & Hset & Hf);
      [by apply slot_clear_ok|].
    exists st', None. split; [|by exists (cleared e st)]. unfold catch_unwind, mbind, ffi_bind, ffi_ret, mret. by rewrite Hset.
Qed.

Lemma answered_by {e} {k : Kind} {m : ffi Ptr} {st} (shape : Reply → Shape) :
  (∃ st' p, m st = (st', Done p) ∧ answers None e (cleared e st) st' (ptr_shape k p)) →
  (∀ p, shape (RPtr p) = ptr_shape k p) →
  ∃ st' r, as_ptr m st = (st', Done r) ∧ answers None e (cleared e st) st' (shape r).
Proof.
  intros (st' & p & Hm & Ha) Hk. exists st', (RPtr p). rewrite Hk. split; [|done].
  unfold as_ptr. by rewrite (bind_done _ _ _ _ _ Hm).
Qed.

Ltac session_op :=
  apply keeps_reachable; intros ?;
  first [by exists [] | by eexists [OpObserve _ _] | by eexists [OpObserveText _ _] | by eexists [OpOutcome _ _ _]
        | by eexists [OpVerdict _ _ _] | by eexists [OpAdvance _] | by exists [OpEndOfPayloads] | by exists [OpFinish]].

Lemma plain_calls_answer call st :
  abi_contract call st → plain_call call = true → answered call st (call_abi call).
Proof.
  intros Hc Hp. pose proof (contract_slot _ _ Hc) as Hne. destruct Hc as [Hslot Hargs].
  pose proof (slot_clear_cleared (err_of call) st) as Hs.
  assert (Forall (arg_ok (cleared (err_of call) st)) (arguments call)) as Ha
    by (eapply Forall_impl; [exact Hargs|]; intros arg; by apply arg_ok_cleared).
  assert (str_ok (cleared (err_of call) st) None) as Hnull by done.
  unfold answered. destruct call; try discriminate Hp; cbn [err_of changes arguments call_abi] in *;
    repeat (apply Forall_cons in Ha as [? Ha]); cbn [arg_ok] in *.
  all: try (eapply answered_ptr; [assumption|assumption|intros ?; reflexivity|cbn [gives]]).
  all: try (eapply answered_code; [assumption|assumption| |intros ?; reflexivity|]; [done|]).
  all: try (eapply answered_by; [|by intros]; (apply name_answers || apply versions_answer); assumption).
  all: unfold report_offset, report_unit, report_absent, build_interceptor, activated_handle, answer_manifest, answer_findings, answer_with_verdict.
  all: repeat reply_step.
  all: try done.
  all: try (by unfold code_shape; cbn; rewrite bool_decide_eq_false_2 by (repeat case_match; lia)).
  all: try (by session_op).
  all: try apply evaluating_quiet.
  all: try (by simplify_eq; eexists _, _, _).
  all: try (by simplify_eq; eapply activating_made; [intros; by eapply activate_with_made|eassumption]).
  all: try (by simplify_eq; eapply activating_made; [intros; by eapply activate_from_memory_with_made|eassumption]).
  - match goal with |- quiet ?st _ => pose proof (activated_quiet (fp_hooks i0) (fp_policy i0)
      i (JObject a1) st) as Hq end. by destruct (activated_evaluate _ _ _ _).
  - simplify_eq. intros _. eexists _, []. by constructor.
Qed.

Lemma read_utf8_returns e ptr what st :
  slot_clear e st → str_ok st ptr → (read_utf8 ptr what e st).2 ≠ Unwinds.
Proof.
  intros Hs Hp. apply slot_clear_ok in Hs.
  assert (∀ message, (failing (A := string) e message st).2 ≠ Unwinds) as Hf.
  { intros message. unfold failing. destruct (set_err_failed e message st Hs) as (st1 & Hset & _).
    by rewrite (bind_done _ _ _ _ _ Hset). }
  destruct ptr as [a|]; cbn [read_utf8]; [|apply Hf].
  destruct (read_cstr_here _ a Hp) as [bytes Hb]. rewrite (bind_done _ _ _ _ _ Hb).
  destruct (utf8 bytes); [done|apply Hf].
Qed.

Lemma set_name_answers handle name e st :
  abi_contract (InterceptorSetName handle name e) st →
  ∃ st' shape, acs_interceptor_set_name handle name e st = (st', Done ()) ∧
    (shape = ShPlain ∨ shape = ShFailed) ∧ answers handle e (cleared e st) st' shape.
Proof.
  intros Hcon. pose proof (contract_slot _ _ Hcon) as Hne. destruct Hcon as [Hs Ha].
  pose proof (slot_clear_cleared e st) as Hc. cbn [err_of arguments changes] in *.
  apply Forall_cons in Ha as [Hh Ha]. apply Forall_cons in Ha as [Hn _].
  apply (arg_ok_cleared e) in Hh, Hn; [|done..]. cbn [arg_ok] in Hh, Hn.
  unfold acs_interceptor_set_name. rewrite (bind_done _ _ _ _ _ (clear_err_ok _ _ Hs)).
  destruct handle as [p|].
  - destruct (Hh p eq_refl) as [i Hi].
    pose proof (runs_read_utf8 (Some p) e (cleared e st) name "name" Hc Hn) as Hr. unfold runs in Hr.
    pose proof (read_utf8_returns e name "name" _ Hc Hn) as Hnu.
    destruct (read_utf8 _ _ _ _) as [st1 [[n|]|]] eqn:Hread; [| |done].
    + destruct Hr as [-> _]. rewrite (bind_done _ _ _ _ _ Hread).
      rewrite (bind_done _ _ _ _ _ (interceptor_at_ok _ _ _ Hi)).
      eexists _, ShPlain. split; [done|]. split; [by left|].
      set (c := CellInterceptor _). exists (set_cell p c (cleared e st)).1. split; [|split; [|done]].
      * eapply evolved_set; [exact Hi|done|done|done].
      * eapply slot_clear_evolved; [exact Hne| |exact Hc]. eapply evolved_set; [exact Hi|done|done|done].
    + rewrite (bind_done _ _ _ _ _ Hread). destruct Hr as (st2 & Hev & Hf). exists st1, ShFailed.
      split; [done|]. split; [by right|]. exists st2. split; [done|]. split; [by eapply slot_clear_evolved|done].
  - destruct (set_err_failed e "handle must not be null" (cleared e st)) as (st' & -> & Hf);
      [by apply slot_clear_ok|]. exists st', ShFailed. split; [done|]. split; [by right|]. by exists (cleared e st).
Qed.

(** What any call does under its contract. *)
Definition effect (call : FfiCall) st st' (r : Reply) : Prop :=
  match freed call with
  | Some p => r = RUnit ∧ st' = mkState (delete p (cells st)) (undefined st) (ffi_world st)
  | None => ∃ shape, (r = RUnit → shape = ShPlain ∨ shape = ShFailed) ∧ (r ≠ RUnit → shape = reply_shape call r) ∧
      answers (changes call) (err_of call) (cleared (err_of call) st) st' shape
  end.

Ltac free_call :=
  match goal with
  | Hc : abi_contract (?call ?ptr) _, Hfree : ∀ cell p, _ |- _ =>
      destruct Hc as [_ Ha]; apply Forall_cons in Ha as [Ha _]; destruct ptr as [p|]; [|by eapply Hfree];
      let Hcell := fresh in destruct (Ha p eq_refl) as [? Hcell]; eapply (Hfree _ (Some p)); try done; cbn;
      unfold as_unit, acs_interceptor_free, acs_free_string, acs_policy_free, acs_stream_session_free,
        interceptor_at, policy_at, get, mbind, ffi_bind; by rewrite Hcell
  end.

Lemma calls_effect call st : abi_contract call st → ∃ st' r, call_abi call st = (st', Done r) ∧ effect call st st' r.
Proof.
  intros Hc. destruct (plain_call call) eqn:Hp.
  { destruct (plain_calls_answer call st Hc Hp) as (st' & r & Hcall & Ha). exists st', r. split; [done|].
    unfold effect. destruct (freed call) eqn:Hf; [by destruct call|]. exists (reply_shape call r).
    split; [intros ->; by left|done]. }
  assert (∀ cell p, call_abi call st = (cell, Done RUnit) → freed call = p → changes call = None →
    err_of call = None → cell = match p with Some p => (clear_cell p st).1 | None => st end →
    ∃ st' r, call_abi call st = (st', Done r) ∧ effect call st st' r) as Hfree.
  { intros cell p Hcall Hf Hch He ->. eexists _, RUnit. split; [exact Hcall|]. unfold effect. rewrite Hf, Hch, He.
    destruct p; [done|]. exists ShPlain. split; [by left|]. split; [done|]. exists st. split; [reflexivity|done]. }
  destruct call; try discriminate Hp; cbn [call_abi].
  - destruct (set_name_answers _ _ _ _ Hc) as (st' & shape & Hcall & Hsh & Ha). exists st', RUnit.
    split; [unfold as_unit; by rewrite (bind_done _ _ _ _ _ Hcall)|]. by exists shape.
  - free_call.
  - free_call.
  - free_call.
  - free_call.
Qed.

(** ** Types *)

(** How the end of a call changes the memory its body left. *)
Record ended (e : Ptr) st1 st' (shape : Shape) : Prop := {
  en_defined : undefined st' = undefined st1;
  en_kept p c : cells st1 !! p = Some c → Some p ≠ e → cells st' !! p = Some c;
  en_slot slot : e = Some slot → ∃ q, cells st' !! slot = Some (CellSlot q) ∧ (q ≠ None ↔ shape = ShFailed) ∧
    ∀ p, q = Some p → cells st1 !! p = None ∧ ∃ m, cells st' !! p = Some (CellString EngineAlloc m) ∧ has_nul m = false;
  en_given p k : shape = ShGiven p k →
    cells st1 !! p = None ∧ ∃ c, cells st' !! p = Some c ∧ kind_of c = k ∧ made c;
  en_new p c : cells st' !! p = Some c → cells st1 !! p = Some c ∨ Some p = e ∨ (∃ k, shape = ShGiven p k) ∨
    (∃ slot, e = Some slot ∧ cells st' !! slot = Some (CellSlot (Some p))) }.

Lemma ended_plain e st1 : slot_clear e st1 → ended e st1 st1 ShPlain.
Proof.
  intros Hclear. split; [done|done| |done|by left].
  intros slot Hs. exists None. split; [by apply Hclear|]. by split.
Qed.

Lemma ended_given e st1 st' p c :
  slot_clear e st1 → made c → given c p st1 st' → ended e st1 st' (ShGiven p (kind_of c)).
Proof.
  intros Hclear Hmade (Hfree & ->). split; cbn.
  - done.
  - intros q d Hq _. rewrite lookup_insert_ne; [done|congruence].
  - intros slot Hs. exists None. rewrite lookup_insert_ne by (intros ->; by rewrite (Hclear slot Hs) in Hfree).
    split; [by apply Hclear|]. by split.
  - intros q k [= <- <-]. split; [done|]. exists c. by rewrite lookup_insert_eq.
  - intros q d Hq. destruct (decide (p = q)) as [<-|Hne]; [right; right; left; by eexists|].
    rewrite lookup_insert_ne in Hq by done. by left.
Qed.

Lemma ended_failed e st1 st' : slot_clear e st1 → reported_failure e st1 st' → ended e st1 st' ShFailed.
Proof.
  intros Hclear Hf. destruct e as [slot|]; cbn in Hf; [|subst; split; [done|done|done|done|by left]].
  destruct Hf as (p & message & Hfree & Hn & ->). specialize (Hclear slot eq_refl).
  assert (slot ≠ p) as Hne by (intros ->; congruence). split; cbn.
  - done.
  - intros q d Hq Hqs. rewrite lookup_insert_ne by congruence. rewrite lookup_insert_ne by congruence. done.
  - intros slot' [= <-]. exists (Some p). rewrite lookup_insert_eq. split; [done|]. split; [done|].
    intros q [= <-]. split; [done|]. exists message. by rewrite lookup_insert_ne, lookup_insert_eq.
  - done.
  - intros q d Hq. destruct (decide (slot = q)) as [<-|Hs]; [by right; left|]. rewrite lookup_insert_ne in Hq by done.
    destruct (decide (p = q)) as [<-|Hp].
    + right; right; right. exists slot. split; [done|apply lookup_insert_eq].
    + rewrite lookup_insert_ne in Hq by done. by left.
Qed.

Lemma answers_ended h e st st' shape :
  answers h e st st' shape → ∃ st1, evolved h st st1 ∧ slot_clear e st1 ∧ ended e st1 st' shape.
Proof.
  intros (st1 & Hev & Hclear & Hm). exists st1. split; [done|]. split; [done|]. destruct shape as [p k| |].
  - destruct Hm as (c & <- & Hmade & Hg). by apply ended_given.
  - by apply ended_failed.
  - subst. by apply ended_plain.
Qed.

(** Clearing the slot changes no other cell, and leaves it a slot. *)
Lemma cleared_kind e st p c :
  slot_ok e st → cells st !! p = Some c →
  ∃ c', cells (cleared e st) !! p = Some c' ∧ kind_of c' = kind_of c ∧ (e ≠ Some p → c' = c) ∧ (made c → made c').
Proof.
  intros Hs Hp. destruct e as [slot|]; [|by exists c]. cbn. destruct (Hs slot eq_refl) as [v Hv].
  destruct (decide (slot = p)) as [<-|Hne].
  - exists (CellSlot None). rewrite lookup_insert_eq. rewrite Hv in Hp. injection Hp as <-. by split_and!.
  - exists c. by rewrite lookup_insert_ne.
Qed.

Lemma cleared_old e st p c :
  slot_ok e st → cells (cleared e st) !! p = Some c → ∃ c', cells st !! p = Some c' ∧ kind_of c' = kind_of c.
Proof.
  intros Hs. destruct e as [slot|]; [|by exists c]. cbn. destruct (Hs slot eq_refl) as [v Hv].
  destruct (decide (slot = p)) as [<-|Hne].
  - rewrite lookup_insert_eq. intros [= <-]. by exists (CellSlot v).
  - rewrite lookup_insert_ne by done. by exists c.
Qed.

Lemma cleared_defined e st : undefined (cleared e st) = undefined st.
Proof. by destruct e. Qed.

(** No cell but a string of the host's was here. *)
Definition is_new st p : Prop := ∀ c, cells st !! p = Some c → host_cell c = true.

(** Where the body left no cell, the call found none of the engine's. *)
Lemma evolved_new h e st st1 p :
  slot_ok e st → evolved h (cleared e st) st1 → cells st1 !! p = None → is_new st p.
Proof.
  intros Hs Hev Hp c Hc. destruct (host_cell c) eqn:Hh; [done|].
  destruct (cleared_kind e st p c Hs Hc) as (c1 & Hc1 & Hk & _).
  destruct (ev_handle _ _ _ Hev p c1) as (c2 & Hc2 & _); [by rewrite (host_cell_kind c)|done|]. congruence.
Qed.

(** The frame of a call that frees nothing. *)
Lemma answers_frame h e st st' shape p c :
  slot_ok e st → answers h e (cleared e st) st' shape → cells st !! p = Some c → host_cell c = false →
  ∃ c', cells st' !! p = Some c' ∧ kind_of c' = kind_of c ∧ (made c → made c') ∧
    (h ≠ Some p → e ≠ Some p → c' = c).
Proof.
  intros Hs Ha Hp Hc. destruct (answers_ended _ _ _ _ _ Ha) as (st1 & Hev & Hclear & Hend).
  destruct (cleared_kind e st p c Hs Hp) as (c1 & Hp1 & Hk1 & He1 & Hm1).
  assert (host_cell c1 = false) as Hc1 by by rewrite (host_cell_kind c).
  destruct (ev_handle _ _ _ Hev p c1 Hc1 Hp1) as (c2 & Hp2 & Hk2 & Hm2).
  destruct (decide (e = Some p)) as [Hep|Hne].
  - destruct (en_slot _ _ _ _ Hend p Hep) as (q & Hq & _). exists (CellSlot q). split; [done|].
    destruct (Hs p Hep) as [v Hv]. rewrite Hv in Hp. injection Hp as <-. by split_and!.
  - exists c2. split; [by apply (en_kept _ _ _ _ Hend)|]. split; [by rewrite Hk2|]. split; [by intros Hm; apply Hm2, Hm1|].
    intros Hh _. apply (ev_same _ _ _ Hev p c1) in Hp1; [|done|done]. rewrite Hp1 in Hp2. injection Hp2 as <-. auto.
Qed.

(** C17: Called as documented, every entry point of the C ABI answers: no
    call is undefined and no panic crosses the boundary. Every cell of the
    engine's or the caller's keeps its kind, and its contents too unless it
    is the call's handle or its error slot; what the call frees is gone;
    the pointer it answers with is a new cell of its own kind; and nothing
    else is left allocated but the message in the error slot. *)
Theorem ffi_calls_well_typed call st :
  abi_contract call st →
  ∃ st' r, call_abi call st = (st', Done r) ∧ undefined st' = undefined st ∧
    (∀ p c, cells st !! p = Some c → host_cell c = false → freed call ≠ Some p →
      ∃ c', cells st' !! p = Some c' ∧ kind_of c' = kind_of c ∧
        (changes call ≠ Some p → err_of call ≠ Some p → c' = c)) ∧
    (∀ p, freed call = Some p → cells st' !! p = None) ∧
    (∀ p, r = RPtr (Some p) → is_new st p ∧ ∃ c, cells st' !! p = Some c ∧ kind_of c = gives call) ∧
    (∀ p c, cells st' !! p = Some c → host_cell c = false → is_new st p →
      r = RPtr (Some p) ∨ ∃ slot, err_of call = Some slot ∧ cells st' !! slot = Some (CellSlot (Some p))).
Proof.
  intros Hc. destruct (calls_effect call st Hc) as (st' & r & Hcall & Heff). exists st', r. split; [done|].
  destruct Hc as [Hs _]. unfold effect in Heff. destruct (freed call) as [f|] eqn:Hf.
  - destruct Heff as [-> ->]. cbn. split; [done|]. split; [|split; [|split; [done|]]].
    + intros p c Hp _ Hne. exists c. by rewrite lookup_delete_ne by congruence.
    + intros p [= <-]. apply lookup_delete_eq.
    + intros p c Hp Hh Hnew. apply lookup_delete_Some in Hp as [_ Hp]. by rewrite (Hnew c Hp) in Hh.
  - destruct Heff as (shape & Hunit & Hshape & Ha).
    destruct (answers_ended _ _ _ _ _ Ha) as (st1 & Hev & Hclear & Hend). split; [|split; [|split; [done|split]]].
    + by rewrite (en_defined _ _ _ _ Hend), (ev_defined _ _ _ Hev), cleared_defined.
    + intros p c Hp Hh _. destruct (answers_frame _ _ _ _ _ p c Hs Ha Hp Hh) as (c' & ? & ? & _ & ?). by exists c'.
    + intros p ->. destruct (en_given _ _ _ _ Hend p (gives call)) as (Hfree & c & Hp & Hk & _); [by rewrite Hshape|].
      split; [by eapply evolved_new|by exists c].
    + intros p c Hp Hh Hnew. destruct (en_new _ _ _ _ Hend p c Hp) as [Hold|[He|[[k Hk]|Hmsg]]]; [|..|by right].
      * destruct (ev_old _ _ _ Hev p c Hh Hold) as (c1 & Hc1 & Hk1).
        destruct (cleared_old _ _ _ _ Hs Hc1) as (c0 & Hc0 & Hk0).
        rewrite <- (host_cell_kind c c1), <- (host_cell_kind c1 c0) in Hh by done. by rewrite (Hnew c0 Hc0) in Hh.
      * destruct (Hs p) as [v Hv]; [done|]. by specialize (Hnew _ Hv).
      * left. destruct r as [[q|]|z|]; [|by rewrite Hshape in Hk|rewrite Hshape in Hk by done|].
        -- rewrite Hshape in Hk by done. by injection Hk as <-.
        -- cbn in Hk. unfold code_shape in Hk. by destruct (fails_with call z).
        -- destruct (Hunit eq_refl) as [->| ->]; done.
Qed.

(** ** Errors *)

Definition failed_reply (call : FfiCall) (r : Reply) : bool :=
  match r with RPtr None => true | RCode z => fails_with call z | _ => false end.

Lemma failed_reply_shape call r : failed_reply call r = true ↔ reply_shape call r = ShFailed.
Proof. destruct r as [[p|]|z|]; cbn; try done. unfold code_shape. by destruct (fails_with call z). Qed.

(** C19: The error slot of a call that answers is null exactly when the
    answer reports no failure: not a null pointer, not a failure code. What
    it holds otherwise is a new string of the engine's without a NUL, for
    the caller to read and free; a stale message of an earlier call never
    survives. *)
Theorem ffi_error_protocol call st st' r slot :
  abi_contract call st → call_abi call st = (st', Done r) → err_of call = Some slot → r ≠ RUnit →
  ∃ q, cells st' !! slot = Some (CellSlot q) ∧ (q ≠ None ↔ failed_reply call r = true) ∧
    ∀ p, q = Some p → is_new st p ∧ ∃ m, cells st' !! p = Some (CellString EngineAlloc m) ∧ has_nul m = false.
Proof.
  intros Hc Hcall Hslot Hr. destruct (calls_effect call st Hc) as (st1' & r1 & Hcall1 & Heff).
  rewrite Hcall in Hcall1. injection Hcall1 as <- <-. destruct Hc as [Hs _]. unfold effect in Heff.
  destruct (freed call) as [f|] eqn:Hf; [by destruct Heff|].
  destruct Heff as (shape & _ & Hshape & Ha). destruct (answers_ended _ _ _ _ _ Ha) as (st1 & Hev & Hclear & Hend).
  destruct (en_slot _ _ _ _ Hend slot Hslot) as (q & Hq & Hiff & Hm). exists q. split; [done|].
  rewrite failed_reply_shape, <- (Hshape Hr). split; [done|].
  intros p Hp. destruct (Hm p Hp) as [Hfree Hmsg]. split; [by eapply evolved_new|done].
Qed.

(** ** Handles *)

(** The caller's own steps: anything but the engine's cells. *)
Definition engine_cell (c : Cell) : bool :=
  match c with
  | CellString EngineAlloc _ | CellInterceptor _ | CellPolicy _ | CellSession _ => true
  | _ => false
  end.

Definition caller_step st st' : Prop :=
  undefined st' = undefined st ∧
  ∀ p c, engine_cell c = true → cells st !! p = Some c ↔ cells st' !! p = Some c.

Inductive ffi_step : State → State → Prop :=
  | step_call call st st' r : abi_contract call st → call_abi call st = (st', Done r) → ffi_step st st'
  | step_caller st st' : caller_step st st' → ffi_step st st'.

Definition all_made st : Prop := undefined st = false ∧ ∀ p c, cells st !! p = Some c → made c.

Lemma engine_or_made c : engine_cell c = true ∨ made c.
Proof. destruct c as [[] | | | | |]; cbn; auto. Qed.

Lemma effect_made call st st' r : slot_ok (err_of call) st → effect call st st' r → all_made st → all_made st'.
Proof.
  intros Hs Heff [Hu Hm]. unfold effect in Heff. destruct (freed call) as [f|].
  - destruct Heff as [_ ->]. split; [done|]. cbn. intros p c Hp. apply lookup_delete_Some in Hp as [_ Hp]. eauto.
  - destruct Heff as (shape & _ & _ & Ha). destruct (answers_ended _ _ _ _ _ Ha) as (st1 & Hev & Hclear & Hend).
    split; [by rewrite (en_defined _ _ _ _ Hend), (ev_defined _ _ _ Hev), cleared_defined|].
    intros p c Hp. destruct (host_cell c) eqn:Hh; [by destruct c as [[] | | | | |]|].
    destruct (en_new _ _ _ _ Hend p c Hp) as [Hold|[He|[[k Hk]|(slot & He & Hsl)]]].
    + destruct (ev_old _ _ _ Hev p c Hh Hold) as (c1 & Hc1 & Hk1).
      destruct (cleared_old _ _ _ _ Hs Hc1) as (c0 & Hc0 & Hk0).
      destruct (cleared_kind _ _ _ _ Hs Hc0) as (c1' & Hc1' & _ & _ & Hm1). rewrite Hc1' in Hc1. injection Hc1 as ->.
      destruct (ev_handle _ _ _ Hev p c1) as (c2 & Hc2 & _ & Hm2); [by rewrite <- (host_cell_kind c1 c)|done|].
      rewrite Hc2 in Hold. injection Hold as ->. apply Hm2, Hm1. by eapply Hm.
    + destruct (en_slot _ _ _ _ Hend p) as (q & Hq & _); [done|]. rewrite Hq in Hp. by injection Hp as <-.
    + destruct (en_given _ _ _ _ Hend p k Hk) as (_ & c1 & Hc1 & _ & Hm1). rewrite Hc1 in Hp. by injection Hp as <-.
    + destruct (en_slot _ _ _ _ Hend slot He) as (q & Hq & _ & Hmsg). rewrite Hq in Hsl. injection Hsl as ->.
      destruct (Hmsg p eq_refl) as (_ & m & Hc1 & Hn). rewrite Hc1 in Hp. by injection Hp as <-.
Qed.

(** C18: Whatever calls are made as documented, and whatever the caller does
    to its own memory between them, nothing undefined ever happens and
    every handle stays what its constructors make: an interceptor or a
    policy holds a constructed runtime, an unpoisoned session one that
    calls of its operations reach, and an engine string no NUL. *)
Theorem ffi_handles_sound st st' : rtc ffi_step st st' → all_made st → all_made st'.
Proof.
  induction 1 as [st|st0 st1 st2 Hstep _ IH]; [done|]. intros Hm. apply IH. clear IH.
  destruct Hstep as [call st0 st1 r Hc Hcall|st0 st1 [Hu Hsame]].
  - destruct (calls_effect call st0 Hc) as (st1' & r1 & Hcall1 & Heff).
    rewrite Hcall in Hcall1. injection Hcall1 as <- <-. eapply effect_made; [apply Hc|done|done].
  - destruct Hm as [Hd Hm]. split; [by rewrite Hu|]. intros p c Hp.
    destruct (engine_or_made c) as [He|]; [|done]. by apply (Hm p), Hsame.
Qed.
End abi.

(** ** Samples *)

(** A world with nothing in it, a parser that knows the documents below,
    callbacks that answer null, and an engine that does not panic. *)
Definition abi_value : SerdeValue := {|
  value_from_str s :=
    if decide (s = "one task") then Ok (JObject [("response_tasks", JArray [JString "pii"])])
    else if decide (s = "{}") then Ok (JObject []) else Err "expected value" |}.
Definition abi_formats : ManifestFormats := {|
  manifest_from_json _ := Err "no JSON here";
  parse_yaml_str_with_limits _ _ := Ok sample_manifest;
  manifest_to_vec _ := Ok 100%N |}.
Definition abi_loader : LoaderHost () := {|
  fs_canonicalize w path := (w, Ok path);
  fs_read w _ _ := (w, Ok []);
  http_get w _ _ := (w, Err "no network");
  deadline_fits _ _ := true |}.
Definition abi_warm : WarmHost () := {| policy_warm w _ := (w, Ok ()) |}.
Definition abi_code : HostCode () := {|
  annotator_fn _ st _ _ _ _ := (st, (None, None));
  policy_fn _ st _ _ := (st, (None, None));
  telemetry_fn _ st _ _ := st;
  hook_free_fn _ st _ _ := st |}.
Definition abi_bundled : BundledHost () := {|
  bundled_annotator _ w _ _ _ := (w, Runtime.Returned (Ok JNull));
  bundled_policy _ w _ := (w, Runtime.Returned (Ok JNull));
  clock_now _ := 0%N;
  clock_elapsed _ _ := 0%N;
  process_env _ _ := None |}.
Definition abi_serde : FfiSerde := {|
  verdict_to_string v := Ok (decision_as_str (AgentHooks := demo_hooks) (v_decision v));
  verdict_from_str _ := Err "expected a verdict";
  manifest_to_string _ := Ok "manifest";
  annotator_invocation_to_string _ := Ok "invocation";
  prepared_to_string _ := Ok "invocation";
  bundles_from_str _ := Ok [];
  sources_from_str _ := Ok [] |}.
Definition abi_unwinding : Unwinding () := {| unwinds _ _ := None; torn _ s := s |}.

Section abi_samples.
#[local] Existing Instances demo_hooks demo_hooks_laws demo_url demo_serde demo_sha abi_value abi_formats
  abi_loader abi_warm abi_code abi_bundled abi_serde abi_unwinding.

Lemma abi_code_laws : HostCodeLaws (W := ()).
Proof. split; intros; cbn; try reflexivity; (split; [reflexivity|done]). Qed.
#[local] Existing Instance abi_code_laws.

(** An error slot with a stale message, and the strings of the calls. *)
Definition abi_memory : State () :=
  mkState {[1%positive := CellSlot (Some 7%positive); 2%positive := CellString HostAlloc "one task";
            3%positive := CellString HostAlloc "response"; 4%positive := CellString HostAlloc "model_generated";
            5%positive := CellString HostAlloc "pii"; 6%positive := CellString HostAlloc "cleared"]} false ().

Definition abi_new : FfiCall := SessionNew (Some 2%positive) (Some 1%positive).

(** Arguments that point where they should. *)
Ltac pointing :=
  split; [intros ? [= <-]; eexists; vm_compute; reflexivity|];
  repeat constructor; intros ? [= <-]; repeat eexists; vm_compute; reflexivity.

Lemma abi_new_contract : abi_contract abi_new abi_memory.
Proof. pointing. Qed.

Lemma ffi_calls_well_typed_witness :
  abi_contract abi_new abi_memory ∧
  ∃ st' r, call_abi abi_new abi_memory = (st', Done r) ∧ undefined st' = undefined abi_memory ∧
    (∀ p c, cells abi_memory !! p = Some c → host_cell c = false → freed abi_new ≠ Some p →
      ∃ c', cells st' !! p = Some c' ∧ kind_of c' = kind_of c ∧
        (changes abi_new ≠ Some p → err_of abi_new ≠ Some p → c' = c)) ∧
    (∀ p, freed abi_new = Some p → cells st' !! p = None) ∧
    (∀ p, r = RPtr (Some p) → is_new abi_memory p ∧ ∃ c, cells st' !! p = Some c ∧ kind_of c = gives abi_new) ∧
    (∀ p c, cells st' !! p = Some c → host_cell c = false → is_new abi_memory p →
      r = RPtr (Some p) ∨ ∃ slot, err_of abi_new = Some slot ∧ cells st' !! slot = Some (CellSlot (Some p))).
Proof. split; [exact abi_new_contract|]. apply (ffi_calls_well_typed abi_new abi_memory abi_new_contract). Defined.

(** A call without its handle: it fails, and says so. *)
Definition abi_refused : FfiCall := SessionFinish None (Some 1%positive).

Lemma ffi_error_protocol_witness :
  ∃ st' r, call_abi abi_refused abi_memory = (st', Done r) ∧ failed_reply abi_refused r = true ∧
    ∃ q, cells st' !! 1%positive = Some (CellSlot q) ∧ (q ≠ None ↔ failed_reply abi_refused r = true) ∧
    ∀ p, q = Some p → is_new abi_memory p ∧
      ∃ m, cells st' !! p = Some (CellString EngineAlloc m) ∧ has_nul m = false.
Proof.
  exists (call_abi abi_refused abi_memory).1, (RPtr None). split; [vm_compute; reflexivity|].
  split; [reflexivity|].
  apply (ffi_error_protocol abi_refused abi_memory _ (RPtr None)); [pointing|vm_compute; reflexivity|done|done].
Defined.

Lemma ffi_handles_sound_witness :
  rtc ffi_step abi_memory (call_abi abi_new abi_memory).1 ∧ all_made abi_memory ∧
  all_made (call_abi abi_new abi_memory).1.
Proof.
  assert (rtc ffi_step abi_memory (call_abi abi_new abi_memory).1) as Hstep.
  { apply rtc_once. eapply step_call; [exact abi_new_contract|vm_compute; reflexivity]. }
  assert (all_made abi_memory) as Hmade.
  { split; [done|]. intros p c Hp. cbn in Hp. repeat (apply lookup_insert_Some in Hp as [[<- <-]|[_ Hp]]; [done|]).
    by apply lookup_singleton_Some in Hp as [<- <-]. }
  split; [done|]. split; [done|]. by apply (ffi_handles_sound abi_memory).
Defined.

(** With no bundles, the artifact diagnostics are documented to answer as
    the manifest diagnostics do. For a manifest whose policy is not Rego
    they do not: they report that the default dispatcher refuses it, while
    the manifest has no finding and activates. *)
Definition answer_text (call : FfiCall) (st : State ()) : option string :=
  match call_abi call st with
  | (st', Done (RPtr (Some p))) =>
      match cells st' !! p with Some (CellString EngineAlloc s) => Some s | _ => None end
  | _ => None
  end.

Lemma artifact_diagnostics_diverges :
  let text := Some 3%positive in
  let slot := Some 1%positive in
  answer_text (ManifestDiagnostics text slot) abi_memory = Some "[]" ∧
  answer_text (ArtifactDiagnostics text None slot) abi_memory ≠ Some "[]" ∧
  is_Some (answer_text (ArtifactDiagnostics text None slot) abi_memory) ∧
  (∃ p, (call_abi (PolicyActivateFromMemory text None slot) abi_memory).2 = Done (RPtr (Some p))).
Proof.
  split; [vm_compute; reflexivity|]. split; [vm_compute; discriminate|].
  split; [eexists; vm_compute; reflexivity|]. eexists. vm_compute. reflexivity.
Qed.
End abi_samples.
