(* ===== verification/FfiSessions.v ===== *)
(** * A session behind its handle

    Every entry point of a session is one operation of the session the
    handle holds, on the arguments its strings spell, or none when they
    spell nothing; its code is that operation's answer. So the release
    guarantee of the session is the guarantee of the C ABI. *)

From stdpp Require Import gmap fin_sets strings.
From S2P Require Import Prelude OrdMap RustStd Json Errors AgentHooks Constants Stream StreamSafety Paths PolicyInput.
From S2P Require Import Limits Hex Pins Policy PolicyOutput Manifest ManifestMerge Loader Yaml.
From S2P Require Import Telemetry Runtime RuntimeWorld Cedar CedarBuiltin Workers Rego Wire Activation Ffi FfiFacts.
From S2P Require Import Concrete FfiSafety.

(** ** What a call asks of a session *)

Definition accepted {E A} (r : result E A) : option A := match r with Ok a => Some a | Err _ => None end.

(** The text a C string argument spells. *)
Definition text {W} (st : State W) (p : Ptr) : option string :=
  match p with
  | Some a =>
      match cells st !! a with
      | Some (CellString _ bytes) => accepted (utf8 (until_nul bytes))
      | _ => None
      end
  | None => None
  end.

(** The codes of an answer. *)
Definition offset_code (r : result StreamError N) : Z := match r with Ok n => Z.of_N n | Err _ => -2 end.
Definition unit_code (r : result StreamError ()) : Z := match r with Ok _ => 0 | Err _ => -1 end.
Definition absent_code (r : option N) : Z := match r with Some n => Z.of_N n | None => -1 end.

(** The operations a call asks of the session, and its code where it
    answers with one. *)
Definition Asked : Type := list StreamOp * (StreamSession → option Z).

Section asked.
Context {W : Type} `{AgentHooks} `{FfiSerde}.

Definition asked (call : FfiCall) (st : State W) : option Asked :=
  match call with
  | SessionObserve _ source_type runes _ =>
      raw ← text st source_type; source ← accepted (source_type_parse raw);
      Some ([OpObserve source runes], λ s, Some (offset_code (observe s source runes).2))
  | SessionObserveText _ source_type body _ =>
      raw ← text st source_type; source ← accepted (source_type_parse raw);
      body ← text st body;
      Some ([OpObserveText source body], λ s, Some (offset_code (observe_text s source body).2))
  | SessionRecordOutcome _ task source_type start end_ outcome _ =>
      task ← text st task; raw ← text st source_type; source ← accepted (source_type_parse raw);
      raw ← text st outcome; outcome ← accepted (outcome_parse raw);
      sp ← accepted (span_new source start end_);
      Some ([OpOutcome task sp outcome], λ s, Some (unit_code (record_outcome s task sp outcome).2))
  | SessionRecordVerdict _ task source_type start end_ verdict _ =>
      task ← text st task; raw ← text st source_type; source ← accepted (source_type_parse raw);
      raw ← text st verdict; verdict ← accepted (verdict_from_str raw);
      sp ← accepted (span_new source start end_);
      Some ([OpVerdict task sp verdict], λ s, Some (unit_code (record_verdict s task sp verdict).2))
  | SessionAdvance _ track _ =>
      raw ← text st track; track ← accepted (track_parse raw);
      Some ([OpAdvance track], λ s, Some (absent_code (session_advance s track).2))
  | SessionSafeOffset _ track _ =>
      raw ← text st track; track ← accepted (track_parse raw);
      Some ([], λ s, Some (absent_code (safe_offset s track)))
  | SessionPending _ track _ =>
      raw ← text st track; track ← accepted (track_parse raw);
      Some ([], λ s, Some (Z.of_N (session_pending s track)))
  | SessionWatermark _ track _ =>
      raw ← text st track; track ← accepted (track_parse raw); Some ([], λ _, None)
  | SessionState _ _ => Some ([], λ _, None)
  | SessionEndOfPayloads _ _ => Some ([OpEndOfPayloads], λ _, Some 0%Z)
  | SessionFinish _ _ => Some ([OpFinish], λ _, None)
  | _ => None
  end.
End asked.

(** The session a call is made on. *)
Definition session_of (call : FfiCall) : Ptr :=
  match call with InterceptorSetName _ _ _ => None | _ => changes call end.

(** ** The entry points compute it *)

Section does.
Context {W : Type} `{AgentHooks} (e : Ptr) (h : positive).
Notation State := (State W).
Notation closure A := (@ffi W (option A)).
Implicit Types st : State.

Definition holds st (poisoned : bool) (s : StreamSession) : Prop :=
  cells st !! h = Some (CellSession (mkFfiSession poisoned s)).

(** A closure refuses its arguments, or it does the operations asked to the
    session and answers with their code, or a panic poisons the session. A poisoned
    session refuses. [rel] says which answers of the closure are a code. *)
Definition does {R} (rel : Z → option R → Prop) st (body : closure R) (d : option Asked) : Prop :=
  match d with
  | None => ∃ st', body st = (st', Done None) ∧ reported_failure e st st'
  | Some (ops, code) =>
      (∀ s, holds st false s →
        (∃ st' o, body st = (st', Done o) ∧ holds st' false (run s ops) ∧ ∀ z, code s = Some z → rel z o) ∨
        (∃ st' torn, body st = (st', Unwinds) ∧ slot_clear e st' ∧ holds st' true torn)) ∧
      (∀ torn, holds st true torn → ∃ st', body st = (st', Done None) ∧ reported_failure e st st')
  end.

Lemma does_read {R} rel st ptr what (f : string → closure R) k :
  slot_clear e st → str_ok st ptr → (∀ s, does rel st (f s) (k s)) →
  does rel st (and_then (read_utf8 ptr what e) f) (text st ptr ≫= k).
Proof.
  intros Hs Hstr Hf. destruct ptr as [a|]; cbn [read_utf8 text].
  - destruct (Hstr a eq_refl) as (alloc & bytes & Hp). rewrite Hp.
    assert (read_cstr a st = (st, Done (until_nul bytes))) as Hb
      by (unfold read_cstr, get, mbind, ffi_bind; by rewrite Hp).
    destruct (utf8 (until_nul bytes)) as [s|] eqn:Hu; cbn.
    + specialize (Hf s). unfold does, and_then in *. unfold mbind, ffi_bind. rewrite Hb, Hu. exact Hf.
    + destruct (set_err_failed e (what +:+ " is not valid UTF-8") st) as (st' & Hset & Hfail);
        [by apply slot_clear_ok|]. exists st'. split; [|done].
      unfold and_then, mbind, ffi_bind. rewrite Hb, Hu. unfold failing, mbind, ffi_bind. by rewrite Hset.
  - destruct (set_err_failed e (what +:+ " must not be null") st) as (st' & Hset & Hfail);
      [by apply slot_clear_ok|]. exists st'. split; [|done].
    unfold and_then, failing, mbind, ffi_bind. by rewrite Hset.
Qed.

Lemma does_checking {E A R} rel st show (r : result E A) (f : A → closure R) k :
  slot_clear e st → (∀ a, does rel st (f a) (k a)) →
  does rel st (and_then (checking e show r) f) (accepted r ≫= k).
Proof.
  intros Hs Hf. destruct r as [a|err]; [apply Hf|].
  destruct (set_err_failed e (show err) st) as (st' & Hset & Hfail); [by apply slot_clear_ok|].
  exists st'. split; [|done]. unfold and_then, checking, failing, mbind, ffi_bind. by rewrite Hset.
Qed.

Lemma does_assoc {A B R} rel st (m : closure A) (f : A → closure B) (g : B → closure R) d :
  does rel st (and_then m (λ a, and_then (f a) g)) d → does rel st (and_then (and_then m f) g) d.
Proof.
  assert (and_then m (λ a, and_then (f a) g) st = and_then (and_then m f) g st) as Heq.
  { unfold and_then, mbind, ffi_bind. by destruct (m st) as [st' [[a|]|]]. }
  unfold does. by rewrite Heq.
Qed.

(** The report of an answer leaves the session alone. *)
Definition reports {A R} (report : A → closure R) (P : A → option R → Prop) : Prop := ∀ st a,
  slot_clear e st → ∃ st' o, report a st = (st', Done o) ∧ P a o ∧ ∀ s, holds st false s → holds st' false s.

Lemma failed_holds st st' b s : slot_clear e st → reported_failure e st st' → holds st b s → holds st' b s.
Proof.
  intros Hs Hf Hh. destruct e as [slot|]; [|by cbn in Hf; subst]. specialize (Hs slot eq_refl).
  destruct Hf as (p & message & Hp & _ & ->). unfold holds in *. cbn.
  rewrite lookup_insert_ne by congruence. rewrite lookup_insert_ne by congruence. done.
Qed.

Lemma clear_set st b s c : slot_clear e st → holds st b s → slot_clear e (set_cell h c st).1.
Proof.
  intros Hs Hh slot He. cbn. rewrite lookup_insert_ne; [by apply Hs|]. intros <-. unfold holds in Hh.
  rewrite (Hs h He) in Hh. done.
Qed.

Context `{Unwinding W}.

Lemma does_session {A R} (rel : Z → option R → Prop) st name op (report : A → closure R) P ops code :
  slot_clear e st → reports report P → (∀ s, (op s).1 = run s ops) → (∀ s o z, P (op s).2 o → code s = Some z → rel z o) →
  does rel st (with_session name (Some h) e op report) (Some (ops, code)).
Proof.
  intros Hs Hrep Hop Hans. split.
  2: { intros torn Hh. unfold holds in Hh.
    destruct (set_err_failed e "stream session lock is poisoned by an earlier panic" st) as (st' & Hset & Hf);
      [by apply slot_clear_ok|]. exists st'. split; [|done].
    unfold with_session, failing, get, mbind, ffi_bind. rewrite Hh. cbn [fs_poisoned]. by rewrite Hset. }
  intros s Hh. unfold with_session, get. unfold mbind, ffi_bind. unfold holds in Hh.
  rewrite Hh. cbn [fs_poisoned fs_session]. unfold locked. destruct (unwinds name st) as [w|].
  - right. eexists _, (torn st s). split; [done|]. split; [|apply lookup_insert_eq].
    by eapply (clear_set (with_world st w)).
  - left. specialize (Hop s). specialize (Hans s). destruct (op s) as [s1 a]. cbn [fst snd] in *. subst s1.
    edestruct (Hrep (set_cell h (CellSession (mkFfiSession false (run s ops))) st).1 a) as (st' & o & Hr & HP & Hk);
      [by eapply clear_set|].
    exists st', o. rewrite Hr. split; [done|]. split; [|intros z; by apply Hans]. apply Hk, lookup_insert_eq.
Qed.

(** *** Reports *)

Lemma reports_value {A R} (f : A → R) : reports (λ a, mret (Some (f a))) (λ a o, o = Some (f a)).
Proof. intros st a Hs. by exists st, (Some (f a)). Qed.

Lemma reports_checking {A E R} show (f : A → R) :
  reports (λ r : result E A, and_then (checking e show r) (λ a, mret (Some (f a))))
    (λ r o, o = f <$> accepted r).
Proof.
  intros st [a|err] Hs; [by eexists st, _|].
  destruct (set_err_failed e (show err) st) as (st' & Hset & Hf); [by apply slot_clear_ok|].
  exists st', None. split; [|split; [done|]]; [|intros s; by apply failed_holds].
  unfold and_then, checking, failing, mbind, ffi_bind. by rewrite Hset.
Qed.

Lemma reports_json {A} failure (json : A → result string string) :
  reports (λ a, answer_json e failure (json a)) (λ _ _, True).
Proof.
  intros st a Hs. unfold answer_json. destruct (json a) as [j|err].
  - unfold to_c_string. destruct (cstring_new j) as [c|].
    + unfold mbind, ffi_bind. rewrite (clear_err_same e _ Hs).
      destruct (alloc_given (CellString EngineAlloc c) st) as (p & -> & Hp). eexists _, _. split; [done|].
      split; [done|]. intros s Hh. unfold holds in *. cbn. rewrite lookup_insert_ne by congruence. done.
    + destruct (set_err_failed e "output contained an interior NUL byte" st) as (st' & Hset & Hf);
        [by apply slot_clear_ok|]. exists st', (Some None). unfold mbind, ffi_bind. rewrite Hset.
      split; [done|]. split; [done|]. intros s. by apply failed_holds.
  - destruct (set_err_failed e (failure +:+ err) st) as (st' & Hset & Hf); [by apply slot_clear_ok|].
    exists st', None. unfold failing, mbind, ffi_bind. rewrite Hset.
    split; [done|]. split; [done|]. intros s. by apply failed_holds.
Qed.

(** *** The entry point *)

Lemma entry_does {R} rel name (failure : R) body d st :
  slot_ok e st → does rel (cleared e st) body d → ∀ s, holds st false s →
  ∃ st' r, entry name e failure body st = (st', Done r) ∧
    match d with
    | None => r = failure ∧ holds st' false s
    | Some (ops, code) =>
        (holds st' false (run s ops) ∧ ∃ o, r = default failure o ∧ ∀ z, code s = Some z → rel z o) ∨
        (r = failure ∧ ∃ torn, holds st' true torn)
    end.
Proof.
  intros Hslot Hd s Hh. unfold entry. rewrite (bind_done _ _ _ _ _ (clear_err_ok _ _ Hslot)).
  pose proof (slot_clear_cleared e st) as Hs.
  assert (holds (cleared e st) false s) as Hh' by (unfold holds in *; by apply cleared_lookup).
  unfold catch_unwind, mbind, ffi_bind. unfold does in Hd. destruct d as [[ops code]|].
  - destruct (proj1 Hd s Hh') as [(st' & o & Hb & Hrun & Ho)|(st' & torn & Hb & Hc & Hp)]; rewrite Hb.
    + destruct o as [r|]; eexists _, _; (split; [done|]); left; (split; [done|]); [by exists (Some r)|by exists None].
    + destruct (set_err_failed e ("internal panic in " +:+ name) st') as (st2 & Hset & Hf);
        [by apply slot_clear_ok|]. rewrite Hset. eexists _, _. split; [done|]. right. split; [done|].
      exists torn. by eapply failed_holds.
  - destruct Hd as (st' & Hb & Hf). rewrite Hb. eexists _, _. split; [done|]. split; [done|].
    by eapply failed_holds.
Qed.

Lemma entry_refuses {R} rel name (failure : R) body d st :
  slot_ok e st → does rel (cleared e st) body d → ∀ torn, holds st true torn →
  ∃ st', entry name e failure body st = (st', Done failure) ∧ holds st' true torn.
Proof.
  intros Hslot Hd torn Hh. unfold entry. rewrite (bind_done _ _ _ _ _ (clear_err_ok _ _ Hslot)).
  pose proof (slot_clear_cleared e st) as Hs.
  assert (holds (cleared e st) true torn) as Hh' by (unfold holds in *; by apply cleared_lookup).
  assert (∃ st', body (cleared e st) = (st', Done None) ∧ reported_failure e (cleared e st) st') as (st' & Hb & Hf).
  { destruct d as [[ops code]|]; [by eapply Hd|exact Hd]. }
  unfold catch_unwind, mbind, ffi_bind. rewrite Hb. exists st'. split; [done|]. by eapply failed_holds.
Qed.
End does.

Section refinement.
Context {W : Type} `{AgentHooksLaws} `{UrlCrate} `{SerdeJson} `{SerdeValue} `{Sha2} `{ManifestFormats}.
Context `{LoaderHost W} `{WarmHost W} `{HostCode W} `{BundledHost W} `{FfiSerde} `{Unwinding W}.
Context `{!HostCodeLaws}.
Notation State := (State W).
Implicit Types st : State.

Lemma text_cleared e st p : slot_ok e st → text (cleared e st) p = text st p.
Proof.
  intros Hs. destruct p as [a|]; [|done]. cbn. destruct e as [slot|]; [|done]. cbn.
  destruct (Hs slot eq_refl) as [v Hv]. destruct (decide (slot = a)) as [<-|Hne].
  - by rewrite lookup_insert_eq, Hv.
  - by rewrite lookup_insert_ne.
Qed.

Lemma asked_cleared e call st : slot_ok e st → asked call (cleared e st) = asked call st.
Proof. intros Hs. destruct call; cbn [asked]; rewrite ?text_cleared by done; try done. Qed.

(** What a call on an unpoisoned session does to it. *)
Definition refines (call : FfiCall) h st st' r s : Prop :=
  match asked call st with
  | None => failed_reply call r = true ∧ holds h st' false s
  | Some (ops, code) =>
      (holds h st' false (run s ops) ∧ ∀ z, code s = Some z → r = RCode z) ∨
      (failed_reply call r = true ∧ ∃ torn, holds h st' true torn)
  end.

Definition refining (call : FfiCall) h st : Prop :=
  (∀ s, holds h st false s → ∃ st' r, call_abi call st = (st', Done r) ∧ refines call h st st' r s) ∧
  (∀ torn, holds h st true torn →
    ∃ st' r, call_abi call st = (st', Done r) ∧ failed_reply call r = true ∧ holds h st' true torn).

Lemma refines_code call h st name e failure body :
  err_of call = e → slot_ok e st → call_abi call = as_code (entry name e failure body) →
  fails_with call failure = true →
  does e h (λ z o, default failure o = z) (cleared e st) body (asked call (cleared e st)) → refining call h st.
Proof.
  intros He Hs Hcall Hf Hd. rewrite asked_cleared in Hd by done. split.
  - intros s Hh. destruct (entry_does e h _ name failure body _ st Hs Hd s Hh) as (st' & z & Hentry & Hres).
    exists st', (RCode z). split; [rewrite Hcall; unfold as_code; by rewrite (bind_done _ _ _ _ _ Hentry)|].
    unfold refines. destruct (asked call st) as [[ops code]|].
    + destruct Hres as [(Hrun & o & -> & Ho)|(-> & Ht)]; [left|right; done]. split; [done|].
      intros z Hz. by rewrite (Ho z Hz).
    + by destruct Hres as [-> ?].
  - intros torn Hh. destruct (entry_refuses e h _ name failure body _ st Hs Hd torn Hh) as (st' & Hentry & Hp).
    exists st', (RCode failure). split; [rewrite Hcall; unfold as_code; by rewrite (bind_done _ _ _ _ _ Hentry)|].
    done.
Qed.

Lemma refines_ptr call h st name e body :
  err_of call = e → slot_ok e st → call_abi call = as_ptr (entry name e None body) →
  (∀ ops code s, asked call st = Some (ops, code) → code s = None) →
  does e h (λ _ _, True) (cleared e st) body (asked call (cleared e st)) → refining call h st.
Proof.
  intros He Hs Hcall Hcode Hd. rewrite asked_cleared in Hd by done. split.
  - intros s Hh. destruct (entry_does e h _ name None body _ st Hs Hd s Hh) as (st' & p & Hentry & Hres).
    exists st', (RPtr p). split; [rewrite Hcall; unfold as_ptr; by rewrite (bind_done _ _ _ _ _ Hentry)|].
    unfold refines. destruct (asked call st) as [[ops code]|].
    + destruct Hres as [(Hrun & _)|(-> & Ht)]; [left|right; done]. split; [done|].
      intros z. by rewrite (Hcode ops code s eq_refl).
    + by destruct Hres as [-> ?].
  - intros torn Hh. destruct (entry_refuses e h _ name None body _ st Hs Hd torn Hh) as (st' & Hentry & Hp).
    exists st', (RPtr None). split; [rewrite Hcall; unfold as_ptr; by rewrite (bind_done _ _ _ _ _ Hentry)|].
    done.
Qed.

Ltac does_step :=
  lazymatch goal with
  | |- does _ _ _ _ (and_then (read_utf8 _ _ _) _) _ => apply does_read; [assumption|assumption|intros ?]
  | |- does _ _ _ _ (and_then (checking _ _ _) _) _ => apply does_checking; [assumption|intros ?]
  | |- does _ _ _ _ (and_then (and_then _ _) _) _ => apply does_assoc
  | |- does _ _ _ _ (with_session _ _ _ _ (λ a, and_then (checking _ _ a) _)) _ =>
      eapply does_session; [assumption|apply reports_checking|intros ?|intros ? ? ? ->]
  | |- does _ _ _ _ (with_session _ _ _ _ (λ a, answer_json _ _ _)) _ =>
      eapply does_session; [assumption|apply reports_json|intros ?|done]
  | |- does _ _ _ _ (with_session _ _ _ _ _) _ =>
      eapply does_session; [assumption|apply reports_value|intros ?|intros ? ? ? ->]
  end.

Lemma session_call_refines call st h : abi_contract call st → session_of call = Some h → refining call h st.
Proof.
  intros [Hs Hargs] Hsess. pose proof (slot_clear_cleared (err_of call) st) as Hc.
  assert (Forall (arg_ok (cleared (err_of call) st)) (arguments call)) as Ha
    by (eapply Forall_impl; [exact Hargs|]; intros arg; by apply arg_ok_cleared).
  destruct call; try discriminate Hsess; cbn [session_of changes] in Hsess; subst;
    repeat (apply Forall_cons in Ha as [? Ha]); cbn [arg_ok err_of] in *.
  all: first
    [ eapply refines_code; [reflexivity|assumption|reflexivity|done|]
    | eapply refines_ptr; [reflexivity|assumption|reflexivity|intros ops code s Hd|] ].
  all: unfold read_source, read_track, wire_track, wire_outcome, report_offset, report_unit, report_absent;
    cbn [asked] in *.
  all: repeat does_step.
  all: try done.
  all: try (intros Hz; injection Hz as <-; unfold offset_code, unit_code, absent_code;
    match goal with |- context [accepted ?x] => by destruct x | |- _ => done end).
  all: try (by injection Hd as <- <-).
  destruct (text st track) as [raw|]; [|done]. cbn in Hd.
  destruct (accepted (track_parse raw)); [|done]. by injection Hd as <- <-.
Qed.

(** ** The histories of a handle *)

(** The calls made on the session [h] since it was created with [config],
    and the operations they asked of it. *)
Inductive history (h : positive) (config : StreamSessionConfig) : list StreamOp → State → Prop :=
  | history_new st st' config_json err_out raw parsed :
      abi_contract (SessionNew config_json err_out) st →
      text st config_json = Some raw → value_from_str raw = Ok (JObject parsed) →
      session_config parsed = Ok config →
      call_abi (SessionNew config_json err_out) st = (st', Done (RPtr (Some h))) →
      history h config [] st'
  | history_call ops st st' call r :
      history h config ops st → abi_contract call st → freed call ≠ Some h →
      call_abi call st = (st', Done r) →
      history h config (ops ++ (if decide (session_of call = Some h) then
        match asked call st with Some (asked, _) => asked | None => [] end else [])) st'
  | history_caller ops st st' : history h config ops st → caller_step st st' → history h config ops st'.

(** A closure that reads a text it is given. *)
Lemma read_utf8_text e ptr what st s : text st ptr = Some s → read_utf8 ptr what e st = (st, Done (Some s)).
Proof.
  destruct ptr as [a|]; [|done]. cbn [text read_utf8]. unfold read_cstr, get, mbind, ffi_bind.
  destruct (cells st !! a) as [[]|]; try done. cbn. destruct (utf8 (until_nul _)); [|done]. by intros [= <-].
Qed.

Lemma session_new_holds config_json e st st' h raw parsed config :
  slot_ok e st → text st config_json = Some raw → value_from_str raw = Ok (JObject parsed) →
  session_config parsed = Ok config →
  call_abi (SessionNew config_json e) st = (st', Done (RPtr (Some h))) →
  ∃ s, session_new config = Ok s ∧ holds h st' false s.
Proof.
  intros Hs Htext Hjson Hconfig. cbn [call_abi]. unfold as_ptr, acs_stream_session_new, entry.
  rewrite <- (text_cleared e) in Htext by done. pose proof (slot_clear_cleared e st) as Hc.
  unfold mbind at 1, ffi_bind at 1. rewrite (bind_done _ _ _ _ _ (clear_err_ok _ _ Hs)).
  set (st0 := cleared e st) in *. unfold catch_unwind, and_then, mbind, ffi_bind.
  rewrite (read_utf8_text _ _ _ _ _ Htext). unfold read_object. rewrite Hjson. cbn [mret ffi_ret].
  rewrite Hconfig. cbn [checking mret ffi_ret]. unfold engine.
  destruct (unwinds "acs_stream_session_new" st0) as [w|].
  - assert (slot_clear e (with_world st0 w)) as Hc' by exact Hc.
    destruct (set_err_failed e ("internal panic in " +:+ "acs_stream_session_new") _ (slot_clear_ok _ _ Hc'))
      as (st1 & -> & _). done.
  - destruct (session_new config) as [s|err]; cbn [checking].
    + intros [= <- <-]. exists s. split; [done|]. apply lookup_insert_eq.
    + unfold failing, mbind, ffi_bind.
      destruct (set_err_failed e (stream_text err) _ (slot_clear_ok _ _ Hc)) as (st1 & -> & _). done.
Qed.

Definition runs_on h (s0 : StreamSession) (ops : list StreamOp) st : Prop :=
  holds h st false (run s0 ops) ∨ ∃ torn, holds h st true torn.

Lemma session_of_changes call h : changes call = Some h → session_of call ≠ Some h → ∃ name e,
  call = InterceptorSetName (Some h) name e.
Proof. destruct call; cbn; try done; intros -> ?; try done; eauto. Qed.

(** A call on something else leaves the session alone. *)
Lemma other_call_holds call st st' r h b s :
  abi_contract call st → freed call ≠ Some h → session_of call ≠ Some h → call_abi call st = (st', Done r) →
  holds h st b s → holds h st' b s.
Proof.
  intros Hc Hf Hsess Hcall Hh. destruct (calls_effect call st Hc) as (st1' & r1 & Hcall1 & Heff).
  rewrite Hcall in Hcall1. injection Hcall1 as <- <-. pose proof Hc as [Hs Hargs]. unfold effect in Heff.
  destruct (freed call) as [f|] eqn:Hfreed.
  - destruct Heff as [_ ->]. unfold holds in *. cbn. by rewrite lookup_delete_ne by congruence.
  - destruct Heff as (shape & _ & _ & Ha). unfold holds in Hh.
    destruct (answers_frame _ _ _ _ _ h _ Hs Ha Hh eq_refl) as (c & Hc' & _ & _ & Hsame).
    rewrite Hsame in Hc'; [done| |].
    + intros Hch. destruct (session_of_changes call h Hch Hsess) as (name & e & ->).
      apply Forall_cons in Hargs as [Hi _]. destruct (Hi h eq_refl) as [i Hi']. congruence.
    + intros He. destruct (Hs h He) as [q Hq]. congruence.
Qed.

Lemma history_runs h config ops st :
  history h config ops st → ∃ s0, session_new config = Ok s0 ∧ runs_on h s0 ops st.
Proof.
  induction 1 as [st st' config_json e raw parsed Hc Ht Hj Hconf Hcall|ops st st' call r _ IH Hc Hf Hcall|ops st st' _ IH Hstep].
  - destruct Hc as [Hs _]. destruct (session_new_holds config_json e st st' h raw parsed config)
      as (s0 & Hnew & Hh); try done. exists s0. split; [done|]. by left.
  - destruct IH as (s0 & Hnew & IH). exists s0. split; [done|]. case_decide as Hsess.
    + destruct (session_call_refines call st h Hc Hsess) as [Hlive Hdead].
      destruct IH as [Hh|[torn Hh]].
      * destruct (Hlive _ Hh) as (st1 & r1 & Hcall1 & Href). rewrite Hcall in Hcall1. injection Hcall1 as <- <-.
        unfold refines in Href. destruct (asked call st) as [[ops' code]|].
        -- destruct Href as [[Hrun _]|[_ Ht]]; [left|by right]. unfold run in *. by rewrite foldl_app.
        -- left. rewrite app_nil_r. by destruct Href.
      * right. exists torn. destruct (Hdead _ Hh) as (st1 & r1 & Hcall1 & _ & Hh'). rewrite Hcall in Hcall1.
        by injection Hcall1 as <- <-.
    + rewrite app_nil_r. destruct IH as [Hh|[torn Hh]]; [left|right; exists torn]; by eapply other_call_holds.
  - destruct IH as (s0 & Hnew & IH). exists s0. split; [done|]. destruct Hstep as [_ Hsame].
    destruct IH as [Hh|[torn Hh]]; [left|right; exists torn]; by apply Hsame.
Qed.

(** C8: A call of the C ABI on a stream session is one operation of the
    session its handle holds, on the arguments its strings spell, and its
    code is that operation's answer; a call whose arguments spell nothing
    fails and changes nothing, a panic fails and poisons the session, and a
    poisoned session refuses every call. *)
Theorem session_calls_refined call st h :
  abi_contract call st → session_of call = Some h →
  ∃ st' r, call_abi call st = (st', Done r) ∧
    (∀ s, holds h st false s →
      match asked call st with
      | None => failed_reply call r = true ∧ holds h st' false s
      | Some (ops, code) =>
          (holds h st' false (run s ops) ∧ ∀ z, code s = Some z → r = RCode z) ∨
          (failed_reply call r = true ∧ ∃ torn, holds h st' true torn)
      end) ∧
    (∀ torn, holds h st true torn → failed_reply call r = true ∧ holds h st' true torn).
Proof.
  intros Hc Hsess. destruct (calls_effect call st Hc) as (st' & r & Hcall & _). exists st', r. split; [done|].
  destruct (session_call_refines call st h Hc Hsess) as [Hlive Hdead]. split.
  - intros s Hh. destruct (Hlive s Hh) as (st1 & r1 & Hcall1 & Href). rewrite Hcall in Hcall1.
    by injection Hcall1 as <- <-.
  - intros torn Hh. destruct (Hdead torn Hh) as (st1 & r1 & Hcall1 & Hf & Hp). rewrite Hcall in Hcall1.
    by injection Hcall1 as <- <-.
Qed.

(** C7: Release safety at the C ABI. Whatever calls are made on the handle
    of a stream session since it was created, on other handles, and by the
    caller on its own memory: when the ABI answers with a safe offset,
    every code point below it was cleared, by every task of the track, by
    an outcome or a verdict recorded through the handle. *)
Theorem abi_release_safe h config ops st st' track_arg err_out raw track offset :
  history h config ops st →
  abi_contract (SessionSafeOffset (Some h) track_arg err_out) st →
  text st track_arg = Some raw → track_parse raw = Ok track →
  call_abi (SessionSafeOffset (Some h) track_arg err_out) st = (st', Done (RCode (Z.of_N offset))) →
  ∃ s0, session_new config = Ok s0 ∧
    ∀ rune, (start_of config track <= rune < offset)%N →
      tasks_for config track ≠ [] ∧
      ∀ task, task ∈ tasks_for config track → evaluated (run_log s0 ops) track task rune.
Proof.
  intros Hhist Hc Htext Htrack Hcall. destruct (history_runs h config ops st Hhist) as (s0 & Hnew & Hruns).
  exists s0. split; [done|]. intros rune Hrune.
  assert (reachable config (run_log s0 ops) (run s0 ops)) as Hr
    by (apply (reachable_run config [] s0 ops); by constructor).
  destruct (session_call_refines _ st h Hc eq_refl) as [Hlive Hdead].
  assert (asked (SessionSafeOffset (Some h) track_arg err_out) st =
    Some ([], λ s, Some (absent_code (safe_offset s track)))) as Hasked
    by (cbn [asked]; rewrite Htext; cbn; by rewrite Htrack).
  apply (confirmed_evaluated config _ (run s0 ops)); [done|].
  destruct Hruns as [Hh|[torn Hh]].
  - destruct (Hlive _ Hh) as (st1 & r1 & Hcall1 & Href). rewrite Hcall in Hcall1. injection Hcall1 as <- <-.
    unfold refines in Href. rewrite Hasked in Href. destruct Href as [[_ Hz]|[Hf _]].
    + specialize (Hz _ eq_refl). injection Hz as Hz. unfold absent_code, safe_offset in Hz.
      destruct (is_ended _); [lia|]. apply N2Z.inj in Hz as ->. lia.
    + cbn in Hf. apply bool_decide_eq_true in Hf. lia.
  - destruct (Hdead _ Hh) as (st1 & r1 & Hcall1 & Hf & _). rewrite Hcall in Hcall1. injection Hcall1 as <- <-.
    cbn in Hf. apply bool_decide_eq_true in Hf. lia.
Qed.
End refinement.

(** ** Samples *)

Section session_samples.
#[local] Existing Instances demo_hooks demo_hooks_laws demo_url demo_serde demo_sha abi_value abi_formats
  abi_loader abi_warm abi_code abi_bundled abi_serde abi_unwinding abi_code_laws.

Notation State := (State ()).

(** A session with one task on the response: eight code points observed,
    five of them cleared. *)
Definition slot : Ptr := Some 1%positive.
Definition after (call : FfiCall) (st : State) : State := (call_abi call st).1.
Definition handle_ptr : Ptr := match (call_abi abi_new abi_memory).2 with Done (RPtr p) => p | _ => None end.
Definition abi_observe : FfiCall := SessionObserve handle_ptr (Some 4%positive) 8 slot.
Definition abi_clear : FfiCall :=
  SessionRecordOutcome handle_ptr (Some 5%positive) (Some 4%positive) 0 5 (Some 6%positive) slot.
Definition abi_advance : FfiCall := SessionAdvance handle_ptr (Some 3%positive) slot.
Definition abi_offset : FfiCall := SessionSafeOffset handle_ptr (Some 3%positive) slot.

Definition st_new : State := after abi_new abi_memory.
Definition st_observed : State := after abi_observe st_new.
Definition st_cleared : State := after abi_clear st_observed.
Definition st_advanced : State := after abi_advance st_cleared.

Example abi_offset_is : (call_abi abi_offset st_advanced).2 = Done (RCode 5).
Proof. vm_compute. reflexivity. Qed.

Definition the_handle : positive := default 1%positive handle_ptr.
Definition task_config : StreamSessionConfig := mkConfig Blocking 0 0 [] ["pii"].
Definition sample_session_start : StreamSession :=
  mkSession task_config (mkWatermark [] 0 0) (mkWatermark [("pii", 0%N)] 0 0) None false.
Definition task_ops : list StreamOp :=
  [OpObserve ModelGenerated 8; OpOutcome "pii" (mkSpan ModelGenerated (mkRange 0 5)) Cleared; OpAdvance Stream.Response].

Ltac pointing :=
  split; [intros ? [= <-]; eexists; vm_compute; reflexivity|];
  repeat constructor; intros ? [= <-]; repeat eexists; vm_compute; reflexivity.

Lemma history_next config ops st call op r :
  history the_handle config ops st → abi_contract call st → freed call ≠ Some the_handle →
  (call_abi call st).2 = Done r → session_of call = Some the_handle → fst <$> asked call st = Some [op] →
  history the_handle config (ops ++ [op]) (after call st).
Proof.
  intros Hh Hc Hf Hr Hs Ha. pose proof (history_call the_handle config ops st (after call st) call r Hh Hc Hf) as Hn.
  rewrite decide_True in Hn by done. destruct (asked call st) as [[asked code]|]; [|done].
  injection Ha as ->. apply Hn. unfold after. destruct (call_abi call st). cbn in *. by subst.
Qed.

Ltac next answer :=
  apply history_next with (r := answer);
    [|pointing|discriminate|vm_compute; reflexivity|vm_compute; reflexivity|vm_compute; reflexivity].

Lemma history_observed : history the_handle task_config ([] ++ [OpObserve ModelGenerated 8]) st_observed.
Proof.
  unfold st_observed. next (RCode 8).
  apply (history_new the_handle task_config abi_memory st_new (Some 2%positive) slot "one task"
    [("response_tasks", JArray [JString "pii"])]); [exact abi_new_contract|vm_compute; reflexivity..].
Qed.

Definition cleared_span : StreamSpan := mkSpan ModelGenerated (mkRange 0 5).

Lemma history_cleared :
  history the_handle task_config (([] ++ [OpObserve ModelGenerated 8]) ++ [OpOutcome "pii" cleared_span Cleared]) st_cleared.
Proof.
  unfold st_cleared. next (RCode 0).
  exact history_observed.
Qed.

Lemma sample_history : history the_handle task_config task_ops st_advanced.
Proof.
  change task_ops with ((([] ++ [OpObserve ModelGenerated 8]) ++ [OpOutcome "pii" cleared_span Cleared]) ++
    [OpAdvance Stream.Response]).
  unfold st_advanced. next (RCode 5).
  exact history_cleared.
Qed.

Lemma session_calls_refined_witness :
  abi_contract abi_clear st_observed ∧ session_of abi_clear = Some the_handle ∧
  holds the_handle st_observed false (run sample_session_start [OpObserve ModelGenerated 8]) ∧
  ∃ st' r, call_abi abi_clear st_observed = (st', Done r) ∧
    (∀ s, holds the_handle st_observed false s →
      match asked abi_clear st_observed with
      | None => failed_reply abi_clear r = true ∧ holds the_handle st' false s
      | Some (ops, code) =>
          (holds the_handle st' false (run s ops) ∧ ∀ z, code s = Some z → r = RCode z) ∨
          (failed_reply abi_clear r = true ∧ ∃ torn, holds the_handle st' true torn)
      end) ∧
    (∀ torn, holds the_handle st_observed true torn → failed_reply abi_clear r = true ∧ holds the_handle st' true torn).
Proof.
  assert (abi_contract abi_clear st_observed) as Hc by pointing.
  split; [exact Hc|]. split; [reflexivity|]. split; [vm_compute; reflexivity|].
  apply (session_calls_refined abi_clear st_observed the_handle Hc). reflexivity.
Defined.

Lemma abi_release_safe_witness :
  history the_handle task_config task_ops st_advanced ∧
  ∃ s0, session_new task_config = Ok s0 ∧
    ∀ rune, (start_of task_config Stream.Response <= rune < 5)%N →
      tasks_for task_config Stream.Response ≠ [] ∧
      ∀ task, task ∈ tasks_for task_config Stream.Response →
        evaluated (run_log s0 task_ops) Stream.Response task rune.
Proof.
  split; [exact sample_history|].
  apply (abi_release_safe the_handle task_config task_ops st_advanced (after abi_offset st_advanced)
    (Some 3%positive) slot "response" Stream.Response 5);
    [exact sample_history|pointing|vm_compute; reflexivity..].
Defined.
End session_samples.
