(* ===== verification/PythonSafety.v ===== *)
(** * The interpreter's lock, and the bounds of authoring

    No object is used without the lock and no engine work is done under
    it, whatever the host's code does; what the host's code raises becomes
    an error value of the engine; the authoring check keeps its counters
    within their widths. *)

From stdpp Require Import gmap fin_sets strings.
From Stdlib Require Import SpecFloat.
From S2P Require Import Prelude OrdMap RustStd Json Float64 Errors AgentHooks Constants Stream Paths PolicyInput.
From S2P Require Import Limits Hex Pins Policy PolicyOutput Manifest ManifestMerge Loader Yaml.
From S2P Require Import Telemetry Runtime RuntimeWorld Concrete Cedar CedarBuiltin Workers Rego Wire Activation ActivationFacts.
From S2P Require Import Ffi FfiFacts FfiSafety Python PythonFacts.

(** ** The discipline *)

(** The lock is as it was, nothing was touched without it, and the engine
    stalled no one. *)
Definition disciplined {W} (st st' : PyState W) : Prop :=
  gil st' = gil st ∧ misused st' = misused st ∧ stalled st' = stalled st.

#[export] Instance disciplined_preorder {W} : PreOrder (@disciplined W).
Proof. split; [by intros st|]. intros st1 st2 st3 (? & ? & ?) (? & ? & ?). repeat split; congruence. Qed.

(** The host's code returns with the lock it was given; what it does to
    the objects is its own affair. *)
Class PyCodeLaws (W : Type) `{PyCode W} : Prop := {
  getattr_disciplined st r name : disciplined st (py_getattr st r name).1;
  call_disciplined st r args : disciplined st (py_call st r args).1;
  items_disciplined st r : disciplined st (py_items st r).1;
  get_item_disciplined st r i : disciplined st (py_get_item st r i).1;
  unraisable_disciplined st e r : disciplined st (py_unraisable st e r) }.

(** [under b m]: started with the lock held ([true]) or not ([false]), [m]
    is disciplined. *)
Definition under {W A} (b : bool) (m : @py W A) : Prop := ∀ st, gil st = b → disciplined st (m st).1.

Section rules.
Context {W : Type}.
Notation PyState := (PyState W).
Notation py := (@py W).

Lemma under_ret {A} b (a : A) : under b (mret a : py A).
Proof. by intros st. Qed.
Lemma under_raise {A} b e : under b (raise e : py A).
Proof. by intros st. Qed.
Lemma under_of_result {E A} b exc (r : result E A) : under b (of_result exc r : py A).
Proof. by destruct r; intros st. Qed.

Lemma under_bind {A B} b (m : py A) (f : A → py B) : under b m → (∀ a, under b (f a)) → under b (m ≫= f).
Proof.
  intros Hm Hf st Hg. specialize (Hm st Hg). unfold mbind, py_bind. destruct (m st) as [st1 [a|e| |]]; cbn in *; try done.
  etrans; [exact Hm|]. apply Hf. destruct Hm as [-> _]. done.
Qed.

Lemma under_attempt {A} b (m : py A) : under b m → under b (attempt m).
Proof. intros Hm st Hg. specialize (Hm st Hg). unfold attempt. by destruct (m st) as [st1 []]. Qed.

Lemma under_touch {A} (a : PyState → A) : under true (λ st, (touch st, Value (a st))).
Proof. intros st Hg. cbn. unfold disciplined, touch. cbn. by rewrite Hg, orb_false_r. Qed.

Lemma under_object r : under true (object r : py PyObject).
Proof. intros st Hg. cbn. unfold disciplined, touch. cbn. by rewrite Hg, orb_false_r. Qed.
Lemma under_new o : under true (new_object o : py PyRef).
Proof. intros st Hg. cbn. unfold disciplined, touch. cbn. by rewrite Hg, orb_false_r. Qed.
Lemma under_set r o : under true (set_object r o : py ()).
Proof. intros st Hg. cbn. unfold disciplined, touch. cbn. by rewrite Hg, orb_false_r. Qed.

(** The lock is taken, and given back; or released, and taken back. *)
Lemma under_attach {A} b (m : py A) : under true m → under b (attach m).
Proof.
  intros Hm st Hg. unfold attach. pose proof (Hm (with_gil st true) eq_refl) as Hd.
  destruct (m (with_gil st true)) as [st1 r]. unfold disciplined in *. cbn in *. naive_solver.
Qed.
Lemma under_detach {A} (m : py A) : under false m → under true (detach m).
Proof.
  intros Hm st Hg. unfold detach. pose proof (Hm (with_gil (touch st) false) eq_refl) as Hd.
  destruct (m (with_gil (touch st) false)) as [st1 r]. unfold disciplined, touch in *. cbn in *.
  rewrite Hg, orb_false_r in Hd. naive_solver.
Qed.

Lemma under_for_each {A} b (f : A → py ()) l : (∀ a, under b (f a)) → under b (for_each_py f l).
Proof.
  intros Hf. induction l as [|a l IH]; [apply under_ret|]. cbn. by apply under_bind.
Qed.
Lemma under_map {A B} b (f : A → py B) l : (∀ a, under b (f a)) → under b (map_py f l).
Proof.
  intros Hf. induction l as [|a l IH]; [apply under_ret|]. cbn.
  apply under_bind; [done|]. intros x. apply under_bind; [done|]. intros. apply under_ret.
Qed.

Lemma engine_works_unheld (st : PyState) : gil st = false → disciplined st (engine_works st).
Proof. intros Hg. unfold disciplined, engine_works. cbn. by rewrite Hg, orb_false_r. Qed.
End rules.

Create HintDb under.
#[export] Hint Resolve under_ret under_raise under_of_result under_touch under_object under_new under_set : under.
Ltac solve_under :=
  repeat first
    [ solve [auto with under] | apply under_bind; [|intros] | apply under_attempt | apply under_attach
    | apply under_detach | apply under_map; intros | apply under_for_each; intros
    | match goal with |- under _ (match ?x with _ => _ end) => destruct x end
    | match goal with |- under _ (if ?x then _ else _) => destruct x end ].

(** ** Values *)

Section values.
Context {W : Type}.
Notation py := (@py W).

Lemma under_append r i : under true (list_append r i : py ()).
Proof. unfold list_append. solve_under. Qed.
Lemma under_set_item r k i : under true (dict_set_item r k i : py ()).
Proof. unfold dict_set_item. solve_under. Qed.
Hint Resolve under_append under_set_item : under.

Lemma under_json_to_py v : under true (json_to_py v : py PyRef).
Proof.
  induction v as [|b|n|s|items IH|m IH] using JsonValue_ind; try apply under_new; cbn [json_to_py];
    (apply under_bind; [apply under_new|]; intros r; apply under_bind; [|intros; apply under_ret]).
  - induction IH as [|item items Hi _ IH]; [apply under_ret|]. cbn [append_all].
    apply under_bind; [done|]. intros i. apply under_bind; [apply under_append|done].
  - induction IH as [|[k item] m Hi _ IH]; [apply under_ret|]. cbn [set_all].
    apply under_bind; [done|]. intros i. apply under_bind; [apply under_new|]. intros.
    apply under_bind; [apply under_set_item|done].
Qed.

Lemma under_key r : under true (key_to_string r : py string).
Proof. unfold key_to_string. solve_under. Qed.

Lemma under_py_to_json n r : under true (py_to_json n r : py JsonValue).
Proof.
  revert r. induction n as [|n IH]; intros r; [by intros st|]. cbn [py_to_json]. unfold entry_with.
  pose proof under_key. unfold int_to_json, float_to_json. solve_under.
Qed.
End values.
#[export] Hint Resolve under_append under_set_item under_json_to_py under_key under_py_to_json : under.

(** ** The host's code *)

Section callbacks.
Context {W : Type} `{PyCodeLaws W} `{PySerde}.
Notation PyState := (PyState W).
Notation py := (@py W).

Lemma under_python {A} (f : PyState → PyState * result PyErr A) :
  (∀ st, disciplined st (f st).1) → under true (python f).
Proof.
  intros Hf st Hg. unfold python. pose proof (Hf (touch st)) as Hd.
  assert (disciplined st (touch st)) as Ht by (unfold disciplined, touch; cbn; by rewrite Hg, orb_false_r).
  destruct (f (touch st)) as [st1 [a|e]]; cbn in *; by etrans.
Qed.

Lemma under_getattr r name : under true (python (λ st, py_getattr st r name)).
Proof. apply under_python. intros. apply getattr_disciplined. Qed.
Lemma under_call r args : under true (python (λ st, py_call st r args)).
Proof. apply under_python. intros. apply call_disciplined. Qed.
Lemma under_items r : under true (python (λ st, py_items st r)).
Proof. apply under_python. intros. apply items_disciplined. Qed.
Lemma under_get_item r i : under true (python (λ st, py_get_item st r i)).
Proof. apply under_python. intros. apply get_item_disciplined. Qed.
Lemma under_unraisable r e : under true (write_unraisable r e).
Proof.
  intros st Hg. unfold write_unraisable. cbn.
  trans (touch st); [|apply unraisable_disciplined]. unfold disciplined, touch. cbn. by rewrite Hg, orb_false_r.
Qed.
Hint Resolve under_getattr under_call under_items under_get_item under_unraisable : under.

Lemma under_call_method r method args : under true (call_py_method r method args).
Proof. unfold call_py_method. solve_under. Qed.
Hint Resolve under_call_method : under.

Lemma under_try_py {A B} b (m : py A) convert (f : A → py (result RuntimeError B)) :
  under b m → (∀ a, under b (f a)) → under b (try_py m convert f).
Proof. intros. unfold try_py. solve_under. Qed.
Lemma under_try_value {E A B} b (r : result E A) convert (f : A → py (result RuntimeError B)) :
  (∀ a, under b (f a)) → under b (try_value r convert f).
Proof. intros. unfold try_value. solve_under. Qed.

Ltac solve_callback :=
  apply under_attach;
  repeat first
    [ solve [auto with under]
    | lazymatch goal with
      | |- under _ (try_value _ _ _) => apply under_try_value; intros ?
      | |- under _ (try_py _ _ _) => apply under_try_py; [|intros ?]
      | |- under _ (_ ≫= _) => apply under_bind; [|intros ?]
      end ].

Lemma under_annotator b callback name invocation input :
  under b (py_annotator_dispatch callback name invocation input).
Proof. unfold py_annotator_dispatch. solve_callback. Qed.
Lemma under_policy b callback invocation : under b (py_policy_evaluate callback invocation).
Proof. unfold py_policy_evaluate. solve_callback. Qed.
Lemma under_warm b callback invocation : under b (py_policy_warm callback invocation).
Proof.
  unfold py_policy_warm. apply under_attach. apply under_bind; [solve_under|]. intros [func|e]; [|solve_under].
  apply under_try_value. intros. apply under_try_py; [solve_under|]. intros. apply under_try_py; solve_under.
Qed.
Lemma under_emit `{AgentHooks} b callback event : under b (py_emit callback event).
Proof. unfold py_emit. solve_under. Qed.
Lemma under_shutdown b callback : under b (py_shutdown callback).
Proof. unfold py_shutdown. solve_under. Qed.

Lemma call_outcome_disciplined (st : PyState) r : disciplined st r.1 → disciplined st (py_call_outcome r).1.
Proof. destruct r as [st1 [a|e| |]]; [done..|]. intros (? & ? & ?). by repeat split. Qed.

(** What the engine's evaluation and activation keep: released, the lock
    stays released and no one stalls. *)
Definition unheld (st st' : PyState) : Prop := gil st = false → disciplined st st'.

#[export] Instance unheld_preorder : PreOrder unheld.
Proof.
  split; [by intros st _|]. intros st1 st2 st3 H12 H23 Hg. specialize (H12 Hg). etrans; [exact H12|].
  apply H23. by destruct H12 as [-> _].
Qed.

Lemma under_unheld {A} (m : py A) st : under false m → unheld st (m st).1.
Proof. intros Hm Hg. by apply Hm. Qed.

Lemma bundled_unheld {A} (call : W → W * A) st :
  unheld st (let st := engine_works st in let (w, o) := call (py_world st) in (set_world st w, o)).1.
Proof.
  intros Hg. cbn. pose proof (engine_works_unheld st Hg) as Hd. by destruct (call (py_world st)).
Qed.

#[export] Instance py_host_keeps `{AgentHooks} `{BundledHost W} hooks : HostKeeps (H4 := py_host hooks) unheld.
Proof.
  split; cbn.
  - intros st name invocation input. case_match; [|by apply (bundled_unheld (λ w, bundled_annotator _ w _ _ _))].
    intros Hg. by apply call_outcome_disciplined, (under_annotator false).
  - intros st invocation. case_match; [|by apply (bundled_unheld (λ w, bundled_policy _ w _))].
    intros Hg. by apply call_outcome_disciplined, (under_policy false).
  - intros st event. case_match; [|done]. by apply under_unheld, under_emit.
Qed.

Lemma py_warm_keeps `{WarmHost W} hooks st invocation : unheld st (policy_warm (WarmHost := py_warm hooks) st invocation).1.
Proof.
  cbn. case_match; [|by apply (bundled_unheld (λ w, policy_warm w invocation))].
  intros Hg. pose proof (under_warm false p invocation st Hg) as Hd. by destruct (py_policy_warm p invocation st) as [st1 []].
Qed.

Lemma under_limits_map : under true (limits_defaults_map (W := W)).
Proof. unfold limits_defaults_map. solve_under. Qed.
Lemma under_resolve_limits b limits : under b (resolve_limits limits).
Proof.
  unfold resolve_limits. destruct limits as [value|]; [|apply under_ret]. apply under_attach.
  apply under_bind; [apply under_object|]. unfold limits_entry. intros []; solve_under.
Qed.
End callbacks.
#[export] Hint Resolve under_getattr under_call under_items under_get_item under_unraisable under_call_method
  under_limits_map under_resolve_limits : under.

(** ** The functions of the module *)

Section functions.
Context {W : Type} `{AgentHooksLaws} `{UrlCrate} `{SerdeJson} `{SerdeValue} `{Sha2} `{ManifestFormats}.
Context `{LoaderHost W} `{WarmHost W} `{PyCodeLaws W} `{BundledHost W} `{FfiSerde} `{PySerde} `{PyUnwinding W}.
Context `{RegorusAst}.
Notation PyState := (PyState W).
Notation py := (@py W).

(** A call of the module, by the function called. *)
Inductive PyCall :=
  | CallInterceptorNew (path : string) (annotator policy telemetry : option PyRef) (perf : string) (limits : option PyRef)
  | CallIntercept (handle : RuntimeHandle) (context_json : string)
  | CallDefaultLimits
  | CallValidateManifest (source : string) (limits : option PyRef)
  | CallValidateManifestFile (path : string) (limits : option PyRef)
  | CallParseManifest (source : string) (limits : option PyRef)
  | CallMergeManifests (sources : list string) (limits : option PyRef)
  | CallValidateDiagnostics (source : string) (limits : option PyRef)
  | CallArtifactsDiagnostics (manifest_yaml bundles_json : string)
  | CallPolicyActivate (path : string) (annotator policy telemetry : option PyRef) (perf : string) (limits : option PyRef)
  | CallActivateFromMemory (manifest_yaml bundles_json : string) (annotator policy telemetry : option PyRef)
      (perf : string) (limits : option PyRef)
  | CallPolicyEvaluate (handle : PolicyHandle) (point context_json : string)
  | CallParseRegoAst (source : string)
  | CallStreamNew (level : string) (request response : N) (request_tasks response_tasks : list string)
  | CallStreamObserve (handle : positive) (source : string) (runes : N)
  | CallStreamObserveText (handle : positive) (source text : string)
  | CallStreamOutcome (handle : positive) (task source : string) (start end_ : N) (outcome : string)
  | CallStreamVerdict (handle : positive) (task source : string) (start end_ : N) (verdict_json : string)
  | CallStreamAdvance (handle : positive) (track : string)
  | CallStreamSafeOffset (handle : positive) (track : string)
  | CallStreamPending (handle : positive) (track : string)
  | CallStreamWatermark (handle : positive) (track : string)
  | CallStreamEnd (handle : positive)
  | CallStreamFinish (handle : positive)
  | CallStreamIsEnded (handle : positive)
  | CallStreamTransformed (handle : positive)
  | CallStreamEndReason (handle : positive)
  | CallStreamConfig (handle : positive).

Definition ignoring {A} (m : py A) : py () := m ;; mret ().

Definition py_run (call : PyCall) : py () :=
  match call with
  | CallInterceptorNew path a p t perf limits => ignoring (interceptor_new path a p t perf limits)
  | CallIntercept handle context => ignoring (intercept handle context)
  | CallDefaultLimits => ignoring py_default_limits
  | CallValidateManifest source limits => validate_manifest source limits
  | CallValidateManifestFile path limits => validate_manifest_file path limits
  | CallParseManifest source limits => ignoring (parse_manifest source limits)
  | CallMergeManifests sources limits => ignoring (merge_manifests sources limits)
  | CallValidateDiagnostics source limits => ignoring (validate_manifest_diagnostics source limits)
  | CallArtifactsDiagnostics yaml bundles => ignoring (validate_artifacts_diagnostics yaml bundles)
  | CallPolicyActivate path a p t perf limits => ignoring (policy_activate path a p t perf limits)
  | CallActivateFromMemory yaml bundles a p t perf limits =>
      ignoring (policy_activate_from_memory yaml bundles a p t perf limits)
  | CallPolicyEvaluate handle point context => ignoring (policy_evaluate_point handle point context)
  | CallParseRegoAst source => ignoring (parse_rego_ast source)
  | CallStreamNew level request response ts1 ts2 => ignoring (stream_session_new level request response ts1 ts2)
  | CallStreamObserve h source runes => ignoring (stream_observe h source runes)
  | CallStreamObserveText h source text => ignoring (stream_observe_text h source text)
  | CallStreamOutcome h task source s e outcome => stream_record_outcome h task source s e outcome
  | CallStreamVerdict h task source s e verdict => stream_record_verdict h task source s e verdict
  | CallStreamAdvance h track => ignoring (stream_advance h track)
  | CallStreamSafeOffset h track => ignoring (stream_safe_offset h track)
  | CallStreamPending h track => ignoring (stream_pending h track)
  | CallStreamWatermark h track => ignoring (stream_watermark h track)
  | CallStreamEnd h => stream_end_of_payloads h
  | CallStreamFinish h => ignoring (stream_finish h)
  | CallStreamIsEnded h => ignoring (stream_is_ended h)
  | CallStreamTransformed h => ignoring (stream_transformed h)
  | CallStreamEndReason h => ignoring (stream_end_reason h)
  | CallStreamConfig h => ignoring (stream_config h)
  end.

(** The two that read a manifest, or ready artifacts, without releasing. *)
Definition keeps_lock (call : PyCall) : bool :=
  match call with CallValidateManifestFile _ _ | CallArtifactsDiagnostics _ _ => true | _ => false end.

(** *** The engine's calls *)

Lemma under_engine {A} b name (call : PyState → PyState * A) :
  (∀ st, gil st = b → disciplined st (call st).1) → under b (py_engine name call).
Proof.
  intros Hc st Hg. unfold py_engine. destruct (py_unwinds name st); [done|]. specialize (Hc st Hg).
  by destruct (call st) as [st1 a].
Qed.

Lemma under_pure {A} b name (a : A) : under b (py_engine name (λ st, (st, a))).
Proof. by apply under_engine. Qed.

Lemma works_disciplined {A} (call : W → W * A) (st : PyState) : gil st = false → disciplined st (works call st).1.
Proof. intros Hg. by apply bundled_unheld. Qed.

Lemma under_load name path limits : under false (load_manifest name path limits).
Proof. apply under_engine. intros st Hg. by apply works_disciplined. Qed.

Lemma under_evaluating name hooks rt snapshot : under false (py_engine name (py_evaluating hooks rt snapshot)).
Proof.
  apply under_engine. intros st Hg. unfold py_evaluating. pose proof (engine_works_unheld st Hg) as Hw.
  pose proof (evaluate_keeps (H4 := py_host hooks) unheld rt snapshot (mkRun (engine_works st) []) Hg) as Hk.
  destruct (evaluate _ _ _) as [run r]. cbn in *. by etrans.
Qed.

Lemma under_activated name hooks policy point snapshot :
  under false (py_engine name (py_activated_evaluate hooks policy point snapshot)).
Proof.
  apply under_engine. intros st Hg. unfold py_activated_evaluate. pose proof (engine_works_unheld st Hg) as Hw.
  pose proof (evaluate_point_keeps (H4 := py_host hooks) unheld (activated_runtime policy) point snapshot
    (mkRun (engine_works st) []) Hg) as Hk.
  unfold activated_evaluate. destruct (evaluate_point _ _ _ _) as [run r]. cbn in *. by etrans.
Qed.

Lemma under_activating name hooks activation :
  (∀ st, unheld st (activation (st, [])).1.1) → under false (py_activating name hooks activation).
Proof.
  intros Ha. apply under_engine. intros st Hg. pose proof (engine_works_unheld st Hg) as Hw.
  pose proof (Ha (engine_works st) Hg) as Hk. destruct (activation _) as [[st1 log] r]. cbn in *. by etrans.
Qed.

Lemma under_session {A} b name handle (op : StreamSession → StreamSession * A) :
  under b (locked_session name handle op).
Proof.
  intros st _. unfold locked_session. destruct (sessions st !! handle) as [cell|]; [|done].
  destruct (ps_poisoned cell); [done|]. destruct (py_unwinds name st); [done|]. by destruct (op (ps_session cell)).
Qed.
Lemma under_reading {A} b name handle (read : StreamSession → A) : under b (reading name handle read).
Proof. apply under_session. Qed.
Lemma under_new_session b s : under b (new_session s : py positive).
Proof. by intros st _. Qed.
Hint Resolve under_pure under_load under_evaluating under_activated under_session under_reading under_new_session : under.

(** *** The functions *)

Lemma under_context context_json : under true (context_object context_json : py JsonMap).
Proof. unfold context_object. solve_under. Qed.
Hint Resolve under_context : under.

Lemma under_intercept handle context_json : under true (intercept handle context_json).
Proof. unfold intercept, verdict_text. solve_under. Qed.

Lemma under_policy_evaluate handle point context_json : under true (policy_evaluate_point handle point context_json).
Proof. unfold policy_evaluate_point, verdict_text. solve_under. Qed.

Lemma under_new_interceptor path a p t perf limits : under true (interceptor_new path a p t perf limits).
Proof. unfold interceptor_new. cbn zeta. solve_under. Qed.

Lemma under_policy_activate path a p t perf limits : under true (policy_activate path a p t perf limits).
Proof.
  unfold policy_activate. cbn zeta. solve_under. apply under_activating. intros st.
  apply (activate_keeps (H4 := py_warm _) unheld (py_warm_keeps _) _ (st, [])).
Qed.

Lemma under_from_memory yaml bundles a p t perf limits :
  under true (policy_activate_from_memory yaml bundles a p t perf limits).
Proof.
  unfold policy_activate_from_memory. cbn zeta. solve_under. apply under_activating. intros st.
  apply (activate_built_keeps (H4 := py_warm _) unheld (py_warm_keeps _) _ (st, [])).
Qed.

Lemma under_parse_source b name source limits : under b (parse_source name source limits).
Proof. unfold parse_source. solve_under. Qed.
Hint Resolve under_parse_source : under.

Lemma under_finding b (r : result RuntimeError ()) : under b (finding r : py (list RuntimeError)).
Proof. unfold finding. solve_under. Qed.
Hint Resolve under_finding : under.

Lemma under_diagnostics source limits : under true (validate_manifest_diagnostics source limits).
Proof. unfold validate_manifest_diagnostics, findings_text. solve_under. Qed.

Lemma under_rego_ast source : under true (parse_rego_ast source : py string).
Proof.
  unfold parse_rego_ast. cbn zeta. case_match; [apply under_raise|]. apply under_bind; [apply under_of_result|].
  intros _. apply under_detach. apply under_bind; [apply under_engine, engine_works_unheld|]. intros _. solve_under.
Qed.
Hint Resolve under_intercept under_policy_evaluate under_new_interceptor under_policy_activate under_from_memory
  under_diagnostics under_rego_ast : under.

Lemma under_ignoring {A} b (m : py A) : under b m → under b (ignoring m).
Proof. intros. unfold ignoring. solve_under. Qed.

Lemma under_run call : keeps_lock call = false → under true (py_run call).
Proof.
  destruct call; intros Hc; try discriminate Hc; cbn [py_run]; try (apply under_ignoring; auto with under; fail).
  all: try apply under_ignoring.
  all: unfold validate_manifest, parse_manifest, merge_manifests, manifest_text, py_default_limits, stream_session_new, stream_observe, stream_observe_text, stream_record_outcome, stream_record_verdict,
    stream_advance, stream_safe_offset, stream_pending, stream_watermark, stream_end_of_payloads, stream_finish,
    stream_is_ended, stream_transformed, stream_end_reason, stream_config, json_string; solve_under.
Qed.

(** Calls one after the other, whatever they raise: a panic is an
    exception too, which the host may catch. *)
Definition settle {A} (m : py A) : py () := λ st,
  match m st with (st, Crash) => (st, Crash) | (st, _) => (st, Value ()) end.
Definition py_runs : list PyCall → py () := for_each_py (λ call, settle (py_run call)).

Lemma under_settle {A} b (m : py A) : under b m → under b (settle m).
Proof. intros Hm st Hg. specialize (Hm st Hg). unfold settle. by destruct (m st) as [st1 []]. Qed.

(** The two also give the lock back as it was, and touch nothing without
    it; the engine works meanwhile. *)
Definition kept (st st' : PyState) : Prop := gil st' = gil st ∧ misused st' = misused st.
Definition keeping {A} (m : py A) : Prop := ∀ st, gil st = true → kept st (m st).1.

Lemma keeping_under {A} (m : py A) : under true m → keeping m.
Proof. intros Hm st Hg. destruct (Hm st Hg) as (? & ? & _). by split. Qed.

Lemma keeping_bind {A B} (m : py A) (f : A → py B) : keeping m → (∀ a, keeping (f a)) → keeping (m ≫= f).
Proof.
  intros Hm Hf st Hg. destruct (Hm st Hg) as [Hg1 Hm1]. unfold mbind, py_bind.
  destruct (m st) as [st1 [a|e| |]]; cbn in *; try by split.
  destruct (Hf a st1) as [Hg2 Hm2]; [congruence|]. split; congruence.
Qed.

Lemma keeping_works {A} name (call : W → W * A) : keeping (py_engine name (works call)).
Proof.
  intros st Hg. unfold py_engine, works. destruct (py_unwinds name st); [by split|]. cbn.
  by destruct (call (py_world st)).
Qed.

Lemma keeping_run call : keeping (py_run call).
Proof.
  destruct (keeps_lock call) eqn:Hkeeps; [|by apply keeping_under, under_run].
  destruct call; try discriminate Hkeeps; cbn [py_run].
  - unfold validate_manifest_file. apply keeping_bind; [apply keeping_under, under_resolve_limits|]. intros l.
    apply keeping_bind; [apply keeping_works|]. intros r. apply keeping_under, under_of_result.
  - unfold ignoring, validate_artifacts_diagnostics, findings_text. apply keeping_bind; [|intros; apply keeping_under, under_ret].
    apply keeping_bind; [apply keeping_under; solve_under|]. intros bundles.
    apply keeping_bind; [apply keeping_under, under_pure|]. intros m.
    apply keeping_bind; [|intros; apply keeping_under; solve_under].
    destruct m as [m|e]; [|apply keeping_under, under_finding]. destruct (validate m); [|apply keeping_under, under_ret].
    apply keeping_bind; [by intros st|]. intros env.
    apply keeping_bind; [apply keeping_works|]. intros activated. apply keeping_under. destruct activated; apply under_ret.
Qed.

Lemma keeping_runs calls : keeping (py_runs calls).
Proof.
  induction calls as [|call calls IH]; [apply keeping_under, under_ret|]. cbn. apply keeping_bind; [|done].
  intros st Hg. pose proof (keeping_run call st Hg) as Hk. unfold settle. by destruct (py_run call st) as [st1 []].
Qed.

Lemma under_runs calls : Forall (λ call, keeps_lock call = false) calls → under true (py_runs calls).
Proof.
  induction 1 as [|call calls Hc _ IH]; [apply under_ret|]. cbn.
  apply under_bind; [|done]. by apply under_settle, under_run.
Qed.

(** Loading a file with the lock held. *)
Lemma validate_file_stalls path st :
  gil st = true → py_unwinds "validate_manifest_file" st = None →
  stalled (py_run (CallValidateManifestFile path None) st).1 = true.
Proof.
  intros Hg Hu. cbn [py_run]. unfold validate_manifest_file. cbn [resolve_limits].
  unfold mbind, py_bind. cbn. unfold load_manifest, py_engine. rewrite Hu. unfold works.
  destruct (from_path_with_limits path default_limits _) as [l r]. cbn.
  destruct (crashed st); cbn; [by rewrite Hg, orb_true_r|].
  destruct r as [m|e]; cbn; by rewrite Hg, orb_true_r.
Qed.

(** Activating with the lock held. *)
Lemma artifacts_stall manifest_yaml bundles_json m st :
  gil st = true → crashed st = false → py_unwinds "validate_artifacts_diagnostics" st = None →
  blank bundles_json = true ∨ is_ok (bundles_from_str bundles_json) = true →
  Yaml.from_yaml_str manifest_yaml = Ok m → validate m = Ok () →
  stalled (py_run (CallArtifactsDiagnostics manifest_yaml bundles_json) st).1 = true.
Proof.
  intros Hg Hc Hu Hbundles Hyaml Hvalid. cbn [py_run]. unfold ignoring, validate_artifacts_diagnostics.
  assert (∃ bundles, (if blank bundles_json then mret []
    else of_result (prefixed value_error "bundles do not parse: ") (bundles_from_str bundles_json) : py _) st =
    (st, Value bundles)) as [bundles Hread].
  { destruct (blank bundles_json); [by eexists|]. destruct Hbundles as [|Hok]; [done|].
    destruct (bundles_from_str bundles_json); [by eexists|done]. }
  unfold mbind at 1 2, py_bind at 1 2. rewrite Hread. unfold py_engine.
  unfold mbind, py_bind. rewrite Hu, Hc, Hyaml, Hvalid. cbn. rewrite Hu. unfold works. cbn.
  destruct (activate_from_memory _ _ _ _) as [[w log] r]. cbn. rewrite Hc.
  destruct r; cbn; unfold findings_text, of_result; destruct (to_string _); cbn; by rewrite Hg, orb_true_r.
Qed.

(** C21: Whatever calls of the module are made, one after the other, and
    whatever they or the host's code raise or panic with, the lock is in
    the end held as it began and no object was touched without it. Unless
    [validate_manifest_file] or [validate_artifacts_diagnostics] is among
    them, no manifest was read or fetched, no policy readied and nothing
    evaluated under the lock. Those two do work under it: one reads the
    manifest and follows its [extends] chain, the other, once the manifest
    is valid, compiles the Rego. The host's code is assumed to return the
    lock as it was given, and to call back only such functions of the
    module as keep to this ([PyCodeLaws]). *)
Theorem gil_discipline calls st :
  gil st = true →
  (let st' := (py_runs calls st).1 in
   gil st' = true ∧ misused st' = misused st ∧
   (Forall (λ call, keeps_lock call = false) calls → stalled st' = stalled st)) ∧
  (∀ path, py_unwinds "validate_manifest_file" st = None →
    stalled (py_run (CallValidateManifestFile path None) st).1 = true) ∧
  (∀ manifest_yaml bundles_json m,
    crashed st = false → py_unwinds "validate_artifacts_diagnostics" st = None →
    blank bundles_json = true ∨ is_ok (bundles_from_str bundles_json) = true →
    Yaml.from_yaml_str manifest_yaml = Ok m → validate m = Ok () →
    stalled (py_run (CallArtifactsDiagnostics manifest_yaml bundles_json) st).1 = true).
Proof.
  intros Hg. destruct (keeping_runs calls st Hg) as [Hg' Hm]. split; [|split]; cbn zeta.
  - split; [by rewrite Hg'|]. split; [done|]. intros Hcalls. by destruct (under_runs calls Hcalls st Hg) as (_ & _ & Hs).
  - intros path. by apply validate_file_stalls.
  - intros yaml bundles m. by apply artifacts_stall.
Qed.
End functions.

(** ** What the host's code raises *)

Section failures.
Context {W : Type} `{PyCode W} `{PySerde}.
Notation PyState := (PyState W).
Notation py := (@py W).

(** No exception and no panic leaves [m], and its value is a [P]; the
    process may end. *)
Definition contained {A} (P : A → Prop) (m : py A) : Prop := ∀ st,
  match (m st).2 with Value a => P a | Crash => True | _ => False end.
(** No panic leaves [m]. *)
Definition calm {A} (m : py A) : Prop := ∀ st, (m st).2 ≠ PyPanic.

Lemma calm_bind {A B} (m : py A) (f : A → py B) : calm m → (∀ a, calm (f a)) → calm (m ≫= f).
Proof.
  intros Hm Hf st. specialize (Hm st). unfold mbind, py_bind. destruct (m st) as [st1 []]; cbn in *; try done. apply Hf.
Qed.
Lemma calm_ret {A} (a : A) : calm (mret a : py A). Proof. by intros st. Qed.
Lemma calm_raise {A} e : calm (raise e : py A). Proof. by intros st. Qed.
Lemma calm_of_result {E A} exc (r : result E A) : calm (of_result exc r : py A). Proof. by destruct r; intros st. Qed.
Lemma calm_attempt {A} (m : py A) : calm m → calm (attempt m).
Proof. intros Hm st. specialize (Hm st). unfold attempt. by destruct (m st) as [st1 []]. Qed.
Lemma calm_python {A} (f : PyState → PyState * result PyErr A) : calm (python f).
Proof. intros st. unfold python. by destruct (f _) as [st1 []]. Qed.
Lemma calm_new o : calm (new_object o : py PyRef). Proof. by intros st. Qed.
Lemma calm_object r : calm (object r : py PyObject). Proof. by intros st. Qed.
Lemma calm_set r o : calm (set_object r o : py ()). Proof. by intros st. Qed.
Hint Resolve calm_bind calm_ret calm_raise calm_of_result calm_attempt calm_python calm_new calm_object calm_set : under.

(** No code of the host ends the process by being readied or by observing
    telemetry: those read nothing back. *)
Definition answers {A} (m : py A) : Prop := ∀ st, ∃ a, (m st).2 = Value a.

Lemma answers_ret {A} (a : A) : answers (mret a). Proof. intros st. by exists a. Qed.
Lemma answers_bind {A B} (m : py A) (f : A → py B) : answers m → (∀ a, answers (f a)) → answers (m ≫= f).
Proof.
  intros Hm Hf st. destruct (Hm st) as [a Ha]. unfold mbind, py_bind. destruct (m st) as [st1 o]. cbn in Ha. subst. apply Hf.
Qed.
Lemma answers_attach {A} (m : py A) : answers m → answers (attach m).
Proof. intros Hm st. unfold attach. destruct (Hm (with_gil st true)) as [a Ha]. destruct (m _). by exists a. Qed.
Lemma answers_python {A} (f : PyState → PyState * result PyErr A) : answers (attempt (python f)).
Proof. intros st. unfold attempt, python. destruct (f _) as [st1 [a|e]]; by eexists. Qed.
Lemma answers_attempt {A} (m : py A) : answers m → answers (attempt m).
Proof. intros Hm st. destruct (Hm st) as [a Ha]. unfold attempt. destruct (m st) as [st1 o]. cbn in Ha. subst. by eexists. Qed.
Lemma answers_new o : answers (new_object o : py PyRef). Proof. intros st. by eexists. Qed.
Lemma answers_append r i : answers (list_append r i : py ()).
Proof. intros st. unfold list_append, mbind, py_bind, object. destruct (default _ _); by eexists. Qed.
Lemma answers_set_item r k i : answers (dict_set_item r k i : py ()).
Proof. intros st. unfold dict_set_item, mbind, py_bind, object. destruct (default _ _); by eexists. Qed.
Hint Resolve answers_ret answers_bind answers_attach answers_python answers_attempt answers_new answers_append
  answers_set_item : under.

Lemma answers_json_to_py v : answers (json_to_py v : py PyRef).
Proof.
  induction v as [|b|n|s|items IH|m IH] using JsonValue_ind; try apply answers_new; cbn [json_to_py];
    (apply answers_bind; [apply answers_new|]; intros r; apply answers_bind; [|intros; apply answers_ret]).
  - induction IH; cbn [append_all]; auto with under.
  - induction IH as [|[k item] m Hi _ IH]; cbn [set_all]; [apply answers_ret|]. cbn [snd] in Hi. auto 8 with under.
Qed.

Lemma calm_json_to_py v : calm (json_to_py v : py PyRef).
Proof. intros st. destruct (answers_json_to_py v st) as [r ->]. done. Qed.

Lemma calm_call_method r method args : calm (call_py_method r method args).
Proof. unfold call_py_method. apply calm_bind; [auto with under|]. intros []; auto with under. Qed.

Lemma contained_ret {A} (P : A → Prop) a : P a → contained P (mret a).
Proof. by intros Ha st. Qed.

Lemma contained_attach {A} (P : A → Prop) (m : py A) : contained P m → contained P (attach m).
Proof. intros Hm st. unfold attach. specialize (Hm (with_gil st true)). by destruct (m (with_gil st true)). Qed.

Lemma contained_bind {A B} (P : B → Prop) (m : py A) (f : A → py B) :
  contained (λ _, True) m → (∀ a, contained P (f a)) → contained P (m ≫= f).
Proof.
  intros Hm Hf st. specialize (Hm st). unfold mbind, py_bind. destruct (m st) as [st1 []]; cbn in *; try done. apply Hf.
Qed.

Lemma contained_attempt {A} (m : py A) : calm m → contained (λ _, True) (attempt m).
Proof. intros Hm st. specialize (Hm st). unfold attempt. by destruct (m st) as [st1 []]. Qed.

Lemma contained_try_py {A B} (P : result RuntimeError B → Prop) (m : py A) convert f :
  calm m → (∀ e, P (Err (convert e))) → (∀ a, contained P (f a)) → contained P (try_py m convert f).
Proof.
  intros Hm He Hf. unfold try_py. apply contained_bind; [by apply contained_attempt|].
  intros [a|e]; [apply Hf|by apply contained_ret].
Qed.

Lemma contained_try_value {E A B} (P : result RuntimeError B → Prop) (r : result E A) convert (f : A → py (result RuntimeError B)) :
  (∀ e, P (Err (convert e))) → (∀ a, contained P (f a)) → contained P (try_value r convert f).
Proof. intros He Hf. unfold try_value. destruct r; [apply Hf|by apply contained_ret]. Qed.

(** What the two dispatchers may answer. *)
Definition annotation_answer (name : string) (r : result RuntimeError JsonValue) : Prop :=
  match r with Ok _ => True | Err e => ∃ detail, e = AnnotationFailed ("host annotator '" +:+ name +:+ "'" +:+ detail) end.
Definition policy_answer {A} (r : result RuntimeError A) : Prop :=
  match r with Ok _ => True | Err e => ∃ detail, e = PolicyInvocationFailed detail end.

Ltac solve_contained :=
  lazymatch goal with
  | |- contained _ (try_value _ _ _) => apply contained_try_value; [intros ?; cbn; by eexists|intros ?]
  | |- contained _ (try_py (json_to_py _) _ _) => apply contained_try_py; [apply calm_json_to_py|intros ?; cbn; by eexists|intros ?]
  | |- contained _ (try_py (py_to_json _ _) _ _) =>
      apply contained_try_py; [intros ?; apply py_to_json_panics|intros ?; cbn; by eexists|intros ?]
  | |- contained _ (try_py (python _) _ _) => apply contained_try_py; [apply calm_python|intros ?; cbn; by eexists|intros ?]
  | |- contained _ (try_py _ _ _) => apply contained_try_py; [apply calm_call_method|intros ?; cbn; by eexists|intros ?]
  | |- contained _ (mret _) => by apply contained_ret
  | |- contained _ (new_object _ ≫= _) => apply contained_bind; [intros ?; exact I|intros ?]
  end.

Lemma answers_call_method r method args : answers (attempt (call_py_method r method args)).
Proof.
  intros st. unfold call_py_method, attempt, mbind, py_bind, python.
  destruct (py_getattr _ _ _) as [st1 [func|e]]; cbn; destruct (py_call _ _ _) as [st2 []]; by eexists.
Qed.

(** Readying a policy answers, whatever the host's code does. *)
Lemma py_policy_warm_value callback invocation : answers (py_policy_warm callback invocation).
Proof.
  unfold py_policy_warm. apply answers_attach, answers_bind; [apply answers_python|]. intros [func|e]; [|apply answers_ret].
  unfold try_value. destruct (prepared_to_value invocation); [|apply answers_ret]. unfold try_py.
  apply answers_bind; [apply answers_attempt, answers_json_to_py|]. intros []; [|apply answers_ret].
  apply answers_bind; [apply answers_python|]. intros []; apply answers_ret.
Qed.

Lemma answers_emit `{AgentHooks} callback event : answers (py_emit callback event).
Proof.
  unfold py_emit. apply answers_attach, answers_bind; [apply answers_attempt, answers_json_to_py|].
  intros []; [|intros st; by eexists]. apply answers_bind; [apply answers_call_method|].
  intros []; [apply answers_ret|intros st; by eexists].
Qed.

Lemma answers_shutdown callback : answers (py_shutdown callback).
Proof.
  unfold py_shutdown. apply answers_attach, answers_bind; [apply answers_python|]. intros []; [|apply answers_ret].
  apply answers_bind; [apply answers_python|]. intros []; [apply answers_ret|intros st; by eexists].
Qed.

(** What the host's objects raise never reaches the engine as an
    exception: an annotator's failure, an unserializable invocation and a
    result that is not JSON are its [AnnotationFailed] by name, a policy
    dispatcher's are a [PolicyInvocationFailed], and a telemetry sink's
    are printed; only a result the native stack cannot hold ends the
    process, and readying and telemetry never do. *)
Theorem host_failures_contained callback st :
  (∀ name invocation input,
    match (py_annotator_dispatch callback name invocation input st).2 with
    | Value (Err e) => ∃ detail, e = AnnotationFailed ("host annotator '" +:+ name +:+ "'" +:+ detail)
    | Value (Ok _) | Crash => True
    | Raise _ | PyPanic => False
    end) ∧
  (∀ invocation,
    match (py_policy_evaluate callback invocation st).2 with
    | Value (Err e) => ∃ detail, e = PolicyInvocationFailed detail
    | Value (Ok _) | Crash => True
    | Raise _ | PyPanic => False
    end ∧
    ∃ r, (py_policy_warm callback invocation st).2 = Value r) ∧
  (∀ `{AgentHooks} event, ∃ u, (py_emit callback event st).2 = Value u) ∧
  ∃ u, (py_shutdown callback st).2 = Value u.
Proof.
  split_and!.
  - intros name invocation input.
    assert (contained (annotation_answer name) (py_annotator_dispatch callback name invocation input)) as Hc.
    { unfold py_annotator_dispatch. apply contained_attach. cbn zeta. repeat solve_contained. }
    specialize (Hc st). by destruct (py_annotator_dispatch _ _ _ _ st).2 as [[]| | |].
  - intros invocation. split; [|apply py_policy_warm_value].
    assert (contained policy_answer (py_policy_evaluate callback invocation)) as Hc.
    { unfold py_policy_evaluate. apply contained_attach. repeat solve_contained. }
    specialize (Hc st). by destruct (py_policy_evaluate _ _ st).2 as [[]| | |].
  - intros H1 event. apply answers_emit.
  - apply answers_shutdown.
Qed.
End failures.

(** ** Sources for authoring *)

(** The counters the loop keeps below its caps. *)
Definition within_caps (a : Authoring) : Prop :=
  (au_depth a ≤ 12 ∧ au_operations a ≤ 1024 ∧ au_work a ≤ 262144)%N.

(** The states the loop passes through, and how many bytes it has read. *)
Inductive authoring_reaches : Authoring → N → Prop :=
  | reaches_start : authoring_reaches authoring_start 0
  | reaches_step a n c a' : authoring_reaches a n → authoring_step a c = Ok a' → authoring_reaches a' (n + 1).

Lemma shiftl_positive d : (1 ≤ N.shiftl 1 d)%N.
Proof. rewrite N.shiftl_1_l. apply N.lt_pred_le. cbn. apply N.neq_0_lt_0, N.pow_nonzero. done. Qed.

Lemma shiftl_small d : (d ≤ 12)%N → (N.shiftl 1 d ≤ 4096)%N.
Proof. intros Hd. rewrite N.shiftl_1_l. change 4096%N with (2 ^ 12)%N. by apply N.pow_le_mono_r. Qed.

(** One turn adds at least one unit of work, and keeps the caps. *)
Lemma authoring_step_caps a c a' :
  within_caps a → authoring_step a c = Ok a' → within_caps a' ∧ (au_work a + 1 ≤ au_work a')%N.
Proof.
  intros (Hd & Ho & Hw). unfold authoring_step, within_caps. pose proof (shiftl_positive (au_depth a)) as Hp.
  remember (au_work a + N.shiftl 1 (au_depth a))%N as work eqn:Hsum. assert (au_work a + 1 ≤ work)%N as Hgrow by lia.
  clear Hsum Hp.
  destruct (N.ltb_spec 262144 work) as [|Hwork]; [done|].
  destruct (au_comment a); [intros [= <-]; cbn; lia|].
  destruct (au_quote a) as [q|]; [repeat case_match; intros [= <-]; cbn; lia|]. cbn zeta.
  match goal with |- context [(1024 <? ?o)%N] => generalize o; intros ops end.
  destruct (opens c); cbn [andb].
  - destruct (N.ltb_spec 12 (au_depth a + 1)); [done|].
    destruct (N.ltb_spec 1024 ops); [done|]. intros [= <-]. cbn. lia.
  - destruct (N.ltb_spec 1024 ops); [done|]. intros [= <-]. cbn. destruct (closes c); lia.
Qed.

Lemma authoring_reaches_caps a n : authoring_reaches a n → within_caps a ∧ (n ≤ au_work a)%N.
Proof.
  induction 1 as [|a n c a' _ [IH Hn] Hs]; [repeat split; cbn; lia|].
  destruct (authoring_step_caps a c a' IH Hs). split; [done|]. lia.
Qed.

(** Whatever the source, the check's counters stay within their caps,
    so that no sum or shift of its [u32] arithmetic wraps; each byte read
    costs work, and an accepted source has at most 262144 bytes. *)
Theorem authoring_bounded :
  (∀ a n, authoring_reaches a n →
    (au_depth a ≤ 12 ∧ au_operations a ≤ 1024 ∧ au_work a ≤ 262144 ∧ n ≤ au_work a)%N ∧
    (au_work a + N.shiftl 1 (au_depth a) < 2 ^ 32 ∧ au_operations a + 2 < 2 ^ 32 ∧ au_depth a + 1 < 32)%N) ∧
  ∀ source, check_authoring_complexity source = Ok () → (str_len source ≤ 262144)%N.
Proof.
  split.
  - intros a n Hr. destruct (authoring_reaches_caps a n Hr) as [(Hd & Ho & Hw) Hn].
    pose proof (shiftl_small (au_depth a) Hd). change (2 ^ 32)%N with 4294967296%N. repeat split; lia.
  - intros source. unfold check_authoring_complexity.
    assert (∀ a n, authoring_reaches a n → authoring_loop a source = Ok () → (n + str_len source ≤ 262144)%N) as Hloop.
    { induction source as [|c source IH]; intros a n Hr.
      - intros _. destruct (authoring_reaches_caps a n Hr) as [(_ & _ & Hw) Hn]. unfold str_len. cbn. lia.
      - cbn [authoring_loop]. destruct (authoring_step a c) as [a'|e] eqn:Hs; [|done]. cbn. intros Hl.
        pose proof (IH a' (n + 1)%N (reaches_step _ _ _ _ Hr Hs) Hl) as Hn.
        unfold str_len in *. cbn [String.length]. lia. }
    intros Hl. pose proof (Hloop authoring_start 0%N reaches_start Hl). lia.
Qed.

(** ** Samples *)

(** Host code whose every call raises, and leaves the objects alone. *)
Definition raising_code : PyCode () := {|
  py_getattr st _ _ := (st, Err (mkPyErr (PyOtherError "AttributeError") "no attribute"));
  py_call st _ _ := (st, Err (mkPyErr PyRuntimeError "boom"));
  py_is_mapping _ _ := false;
  py_items st _ := (st, Ok []);
  py_get_item st _ _ := (st, Err (mkPyErr PyTypeError "not subscriptable"));
  py_unraisable st _ _ := st;
  py_err_display e := pe_text e;
  stack_frames := 100 |}.
Definition sample_py_serde : PySerde := {|
  annotator_invocation_to_value _ := Ok (JObject []);
  prepared_to_value _ := Ok (JObject []) |}.
Definition sample_unwinding : PyUnwinding () := {| py_unwinds _ _ := None; py_torn _ s := s |}.
Definition sample_ast : RegorusAst := {| regorus_add_policy _ := Ok (); regorus_ast _ := Ok "{}" |}.

Section samples.
#[local] Existing Instances demo_hooks demo_hooks_laws demo_url demo_serde demo_sha abi_value abi_formats
  abi_loader abi_warm abi_bundled abi_serde raising_code sample_py_serde sample_unwinding sample_ast.

Lemma raising_laws : PyCodeLaws ().
Proof. by split. Qed.
#[local] Existing Instance raising_laws.

Definition sample_hooks : PyHooks := mkPyHooks (Some 1%positive) (Some 1%positive) (Some 1%positive) default_limits.

Definition sample_calls : list PyCall :=
  [CallDefaultLimits; CallInterceptorNew "manifest.yaml" (Some 1%positive) (Some 1%positive) None "off" None;
   CallPolicyActivate "manifest.yaml" None (Some 1%positive) None "off" None; CallParseRegoAst "package p"].

Lemma gil_discipline_witness :
  (let st' := (py_runs sample_calls sample_state).1 in
   gil st' = true ∧ misused st' = false ∧ stalled st' = false) ∧
  stalled (py_run (CallValidateManifestFile "manifest.yaml" None) sample_state).1 = true ∧
  stalled (py_run (CallArtifactsDiagnostics "manifest" " ") sample_state).1 = true.
Proof.
  destruct (gil_discipline sample_calls sample_state eq_refl) as [(Hg & Hm & Hd) [Hs Ha]].
  split; [|split; [by apply Hs|by eapply Ha; [..|vm_compute; reflexivity|vm_compute; reflexivity]; [| |left]]].
  split_and!; [exact Hg|exact Hm|]. apply Hd. by repeat constructor.
Defined.

(** The interceptor is built from the file, and its policy's exception is a
    denial. *)
Example activation_sample :
  (py_run (CallPolicyActivate "manifest.yaml" None (Some 1%positive) None "off" None) sample_state).2 = Value ().
Proof. by (vm_compute; done). Qed.
Example authoring_sample :
  check_authoring_complexity "allow { input.a == input.b }" = Ok () ∧
  check_authoring_complexity "((((((((((((()))))))))))))" = Err NESTING_MESSAGE.
Proof. by vm_compute. Qed.
End samples.
