(* ===== verification/NodeFacts.v ===== *)
(** * What the Node binding promises

    Strings cross the boundary whole or not at all; a host function's
    answer is the string it returned or its promise was fulfilled with,
    and everything else is a failure; the JavaScript thread never waits
    for itself; a promise of [intercept_async] is settled once, by its own
    evaluation. *)

From stdpp Require Import gmap fin_sets strings.
From S2P Require Import Prelude OrdMap RustStd Utf16 Json Errors AgentHooks Constants Stream Paths PolicyInput.
From S2P Require Import Limits Hex Pins Policy PolicyOutput Manifest ManifestMerge Loader Yaml.
From S2P Require Import Telemetry Runtime RuntimeWorld Concrete Cedar CedarBuiltin Workers Rego Wire Activation.
From S2P Require Import Ffi FfiFacts FfiSafety Node.

(** ** Strings *)

(** A string of JavaScript is decoded without loss or not at all: the
    result has the very code units of the string and a character for each
    of theirs, a pair of surrogates being one, and decoding fails exactly
    when a surrogate is unpaired. *)
Theorem decode_lossless what units :
  Forall (λ u, u < 65536)%N units →
  ((∃ e, decode what units = Err e) ↔ ¬ paired units) ∧
  ∀ s, decode what units = Ok s →
    encode_utf16 s = units ∧ decode_utf16 units = Some (scalars s) ∧ chars_count s = N.of_nat (length (scalars s)).
Proof.
  intros Hb. unfold decode. rewrite <- from_utf16_paired. split.
  - destruct (from_utf16 units); split; [by intros [? ?]|intros []; by eexists|by intros _ [? ?]|by eexists].
  - intros s Hs. destruct (from_utf16 units) as [t|] eqn:Ht; [|done]. injection Hs as ->.
    destruct (from_utf16_exact units s Hb Ht) as (He & cs & Hd & Hsc & Hn). subst cs. by rewrite Hn.
Qed.

Lemma decode_lossless_witness :
  decode "text" [97; 55357; 56832]%N = Ok (str_of_bytes [97; 240; 159; 152; 128]%N) ∧
  encode_utf16 (str_of_bytes [97; 240; 159; 152; 128]%N) = [97; 55357; 56832]%N.
Proof.
  split; [by vm_compute|]. apply (decode_lossless "text" [97; 55357; 56832]%N); [by repeat constructor|by vm_compute].
Defined.

(** ** A host function's answer *)

Section answers.
Context {W : Type} `{JsHost W}.
Notation NodeState := (NodeState W).
Implicit Types st : NodeState.

(** The promise a posted call returned, once both handlers are on it. *)
Definition awaited st (run : PostedRun) : Prop :=
  ∃ value, pr_returned run = Ok value ∧ is_promise st value = Ok true ∧ cast_promise st value = Ok () ∧
    pr_then run = Ok () ∧ pr_catch run = Ok ().

(** The text a call was answered with: what the function returned, or what
    its promise was fulfilled with. *)
Definition answered_with st (run : PostedRun) (units : JsText) : Prop :=
  (∃ value, pr_returned run = Ok value ∧ is_promise st value = Ok false ∧ cast_text st value = Ok units) ∨
  (awaited st run ∧ ∃ value, pr_settled run = FulfilledWith value ∧ cast_text st value = Ok units).

(** What [deliver] and the handlers send: one answer, or none, or two of
    which the first says that the promise could not be awaited. *)
Lemma deliver_sends st what run :
  let d := deliver st what run in
  let sent := d_sent d ++ settle_handlers st d (pr_settled run) in
  (sent = [] ∧ awaited st run ∧ (pr_settled run = NeverSettles ∨ pr_settled run = PromiseDropped)) ∨
  (∃ units, sent = [Ok units] ∧ answered_with st run units) ∨
  (∃ e, sent = [Err e] ∧ ∀ units, ¬ answered_with st run units) ∨
  (∃ e units, sent = [Err e; Ok units] ∧ ∀ units, ¬ answered_with st run units).
Proof.
  cbn zeta. unfold deliver, answered_with, awaited, settle_handlers, string_answer.
  destruct (pr_returned run) as [value|e] eqn:Hr; [|right; right; left; cbn; destruct (pr_settled run); naive_solver].
  destruct (is_promise st value) as [[]|e] eqn:Hp; cycle 1.
  - destruct (cast_text st value) as [units|e] eqn:Ht; cbn; [right; left; exists units|right; right; left; eexists];
      (split; [by destruct (pr_settled run)|naive_solver congruence]).
  - right; right; left; cbn; eexists. split; [by destruct (pr_settled run)|naive_solver congruence].
  - destruct (cast_promise st value) as [[]|e] eqn:Hc; cycle 1.
    { right; right; left; cbn; eexists. split; [by destruct (pr_settled run)|naive_solver congruence]. }
    destruct (pr_then run) as [[]|e] eqn:Hth; cycle 1.
    { right; right; left; cbn; eexists. split; [by destruct (pr_settled run)|naive_solver congruence]. }
    destruct (pr_catch run) as [[]|e] eqn:Hca; cbn.
    + destruct (pr_settled run) as [v|v| |] eqn:Hse; cbn.
      * destruct (cast_text st v) as [units|e] eqn:Ht; [right; left|right; right; left]; eexists;
          (split; [done|naive_solver congruence]).
      * right; right; left; eexists. split; [done|naive_solver congruence].
      * left. naive_solver.
      * left. naive_solver.
    + destruct (pr_settled run) as [v|v| |] eqn:Hse; cbn; try (right; right; left; eexists; split; [done|naive_solver congruence]).
      destruct (cast_text st v) as [units|e'] eqn:Ht; [right; right; right; eexists _, units|right; right; left; eexists];
        (split; [done|naive_solver congruence]).
Qed.

(** An awaited promise that does not settle sends nothing, and its
    handlers are still there. *)
Lemma deliver_awaits st what run :
  awaited st run → pr_settled run = NeverSettles ∨ pr_settled run = PromiseDropped →
  d_sent (deliver st what run) ++ settle_handlers st (deliver st what run) (pr_settled run) = [] ∧
  is_Some (d_fulfilled (deliver st what run)).
Proof.
  intros (v & Hv & Hp & Hc & Ht & Hca) Hse. unfold deliver. rewrite Hv, Hp, Hc, Ht, Hca. cbn.
  split; [|by eexists]. by destruct Hse as [-> | ->].
Qed.

Lemma answered_unique st run units units' : answered_with st run units → answered_with st run units' → units' = units.
Proof.
  intros [(v & Hv & Hp & Ht)|[(v & Hv & Hp & _) (w & Hs & Ht)]]
    [(v' & Hv' & Hp' & Ht')|[(v' & Hv' & Hp' & _) (w' & Hs' & Ht')]]; congruence.
Qed.

(** What the worker's wait ends with. *)
Lemma recv_exact st what run :
  let d := deliver st what run in
  let answer := recv d (settle_handlers st d (pr_settled run)) (pr_settled run) in
  (∀ units, answer = Some (Some (Ok units)) ↔ answered_with st run units) ∧
  (answer = None ↔ awaited st run ∧ pr_settled run = NeverSettles) ∧
  (answer = Some None ↔ awaited st run ∧ pr_settled run = PromiseDropped).
Proof.
  cbn zeta. pose proof (deliver_sends st what run) as Hsends. cbn zeta in Hsends. unfold recv.
  pose proof (deliver_awaits st what run) as Hwait.
  destruct Hsends as [(Hnil & Haw & Hse)|Hsends].
  { destruct (Hwait Haw Hse) as [_ [f ->]]. rewrite Hnil.
    assert (∀ units, ¬ answered_with st run units) as Hno.
    { intros units [(v & Hv & Hp & _)|[_ (v & Hs & _)]]; [|destruct Hse; congruence].
      destruct Haw as (v' & Hv' & Hp' & _). congruence. }
    destruct Hse as [Hse|Hse]; rewrite Hse; split_and!; try (split; [done|by intros [_ ?]]); try done;
      intros units; split; try done; intros Hu; by destruct (Hno _ Hu). }
  assert (¬ (awaited st run ∧ pr_settled run = NeverSettles) ∧ ¬ (awaited st run ∧ pr_settled run = PromiseDropped))
    as [Hn1 Hn2].
  { split; intros [Haw Hse]; destruct (Hwait Haw) as [Hnil _]; try tauto; rewrite Hnil in Hsends;
      destruct Hsends as [(? & ? & _)|[(? & ? & _)|(? & ? & ? & _)]]; discriminate. }
  destruct Hsends as [(units & -> & Hu)|[(e & -> & Hno)|(e & units & -> & Hno)]]; (split; [|split; (split; [done|by intros ?; exfalso; tauto])]).
  - intros units'. split; [by intros [= <-]|]. intros Hu'. by rewrite (answered_unique _ _ _ _ Hu Hu').
  - intros units. split; [done|]. intros Hu. by destruct (Hno _ Hu).
  - intros units'. split; [done|]. intros Hu. by destruct (Hno _ Hu).
Qed.

(** The text a call on the JavaScript thread was answered with, in an
    environment. *)
Definition returned_text f args st env units : Prop :=
  borrow_back st (hf_direct f) env = Ok () ∧ ∃ st' value,
    js_call st (hf_direct f) args = (st', Some (Ok value)) ∧ is_promise st' value = Ok false ∧ cast_text st' value = Ok units.

Definition call_hangs f args st env : Prop :=
  borrow_back st (hf_direct f) env = Ok () ∧ (js_call st (hf_direct f) args).2 = None.

Lemma on_js_thread_exact f what env args st units :
  ((call_on_js_thread f what env args st).2 = Answer (Ok units) ↔ returned_text f args st env units) ∧
  ∀ why, (call_on_js_thread f what env args st).2 = Hang why ↔
    why = RunsForever (hf_direct f) ∧ call_hangs f args st env.
Proof.
  unfold call_on_js_thread, returned_text, call_hangs.
  destruct (borrow_back st (hf_direct f) env) as [[]|e] eqn:Hb; cycle 1.
  { split; [split; [done|by intros [? _]]|]. intros why. split; [done|by intros (_ & ? & _)]. }
  destruct (js_call st (hf_direct f) args) as [st' [[value|e]|]] eqn:Hc; cbn; (split; [|naive_solver]); cycle 1.
  { split; [done|]. by intros (_ & ? & ? & ? & _). }
  { split; [done|]. by intros (_ & ? & ? & ? & _). }
  split.
  - intros Ha. split; [done|]. exists st', value. split; [done|]. unfold string_answer in Ha.
    destruct (is_promise st' value) as [[]|]; [done| |done]. split; [done|]. destruct (cast_text st' value); congruence.
  - intros (_ & st1 & v & Heq & Hp & Ht). injection Heq as <- <-. rewrite Hp. unfold string_answer. by rewrite Ht.
Qed.

(** The text a posted call was answered with, and a wait without end. *)
Definition posted_text f args st units : Prop :=
  ∃ st' run, tsfn_post st (hf_direct f) args = (st', Ran run) ∧ answered_with st' run units.
Definition posted_hangs f args st : Prop :=
  ∃ st' p, tsfn_post st (hf_direct f) args = (st', p) ∧
    (p = NeverReturns ∨ ∃ run, p = Ran run ∧ awaited st' run ∧ pr_settled run = NeverSettles).

Lemma from_worker_exact f what args st units :
  thread st ≠ hf_js_thread f →
  ((call_from_worker f what args st).2 = Answer (Ok units) ↔ posted_text f args st units) ∧
  ∀ why, (call_from_worker f what args st).2 = Hang why ↔ why = WaitsForever (hf_direct f) ∧ posted_hangs f args st.
Proof.
  intros Hth. unfold call_from_worker, posted_text, posted_hangs. rewrite decide_False by done.
  destruct (tsfn_post st (hf_direct f) args) as [st' [status|run| |]] eqn:Hpost; cbn.
  - split; [|intros why]; (split; [done|]); [by intros (? & ? & [=] & _)|].
    by intros (_ & ? & ? & [= <- <-] & [?|(? & [=] & _)]).
  - destruct (recv_exact st' what run) as (Hok & Hnone & Hgone). cbn zeta in *. specialize (Hok units).
    assert (posted_text f args st units ↔ answered_with st' run units) as Ht.
    { split; [|by intros Hu; exists st', run]. intros (st1 & run1 & Heq & Hu). rewrite Hpost in Heq. by injection Heq as <- <-. }
    assert (posted_hangs f args st ↔ awaited st' run ∧ pr_settled run = NeverSettles) as Hh.
    { split; [|intros [? ?]; exists st', (Ran run); split; [done|]; right; by exists run].
      intros (st1 & p & Heq & Hp). rewrite Hpost in Heq. injection Heq as <- <-.
      destruct Hp as [?|(run1 & Heq & ? & ?)]; [done|]. by injection Heq as <-. }
    unfold posted_text, posted_hangs in Ht, Hh. rewrite Hpost in Ht, Hh. rewrite Ht, <- Hok.
    split; [|intros why; rewrite Hh, <- Hnone]; destruct (recv _ _ _) as [[answer|]|]; cbn; unfold went_away; split;
      try congruence; naive_solver congruence.
  - split; [split; [done|by intros (? & ? & [=] & _)]|]. intros why. split.
    + intros [= <-]. split; [done|]. eexists _, _. split; [done|by left].
    + by intros [-> _].
  - split; [|intros why]; (split; [done|]); [by intros (? & ? & [=] & _)|].
    by intros (_ & ? & ? & [= <- <-] & [?|(? & [=] & _)]).
Qed.

(** The answer of a host function is its string result and nothing
    else. On the JavaScript thread it is the string returned; from an
    evaluation thread it is the string returned or the one the returned
    promise was fulfilled with; a throw, a rejection, a promise on the
    synchronous path, a value that is no string and a call that was
    refused or dropped are failures. A call does not end exactly when the
    function does not return or, off the JavaScript thread, is not reached
    or returns a promise that never settles. *)
Theorem host_answer_exact f what args st units :
  ((host_call f what args st).2 = Answer (Ok units) ↔
    match current_env st with
    | Some env => returned_text f args st env units
    | None => thread st ≠ hf_js_thread f ∧ posted_text f args st units
    end) ∧
  ∀ why, (host_call f what args st).2 = Hang why ↔
    match current_env st with
    | Some env => why = RunsForever (hf_direct f) ∧ call_hangs f args st env
    | None => thread st ≠ hf_js_thread f ∧ why = WaitsForever (hf_direct f) ∧ posted_hangs f args st
    end.
Proof.
  unfold host_call. destruct (current_env st) as [env|]; [apply on_js_thread_exact|].
  destruct (decide (thread st = hf_js_thread f)) as [Hth|Hth].
  - split; [|intros why]; split; try done; by intros [].
  - destruct (from_worker_exact f what args st units Hth) as [Ht Hh]. split; [rewrite Ht; tauto|].
    intros why. rewrite Hh. tauto.
Qed.
End answers.
