(* ===== verification/NodeSafety.v ===== *)
(** * The threads of the Node binding

    The JavaScript thread never waits for itself; what an entry point
    publishes it takes back; a promise is settled once, by the evaluation
    it was made for. *)

From stdpp Require Import gmap fin_sets strings.
From S2P Require Import Prelude OrdMap RustStd Utf16 Json Errors AgentHooks Constants Stream Paths PolicyInput.
From S2P Require Import Limits Hex Pins Policy PolicyOutput Manifest ManifestMerge Loader Yaml.
From S2P Require Import Telemetry Runtime RuntimeWorld Concrete Cedar CedarBuiltin Workers Rego Wire Activation ActivationFacts.
From S2P Require Import Samples Ffi FfiFacts FfiSafety Node.

(** ** What every step keeps *)

(** [f] is one of the host's functions of these hooks. *)
Definition hook_of (h : NodeHooks) (f : HostFunction) : Prop :=
  nh_annotator h = Some f ∨ nh_policy h = Some f ∨ nh_telemetry h = Some f.

(** The functions of the hooks were made on the JavaScript thread. *)
Definition hooks_on_js (h : NodeHooks) : Prop :=
  ∀ f, hook_of h f → hf_js_thread f = JsThread.

Section keeps.
Context {W : Type}.
Notation NodeState := (NodeState W).
Notation node := (@node W).
Implicit Types st : NodeState.

Definition promises st : list positive := ev_promise <$> evaluations st.

(** The pending promises are those of the evaluation threads started, and
    those of [running], which are under way or wait without end. *)
Record async_inv (running : list positive) st : Prop := {
  inv_once : NoDup (running ++ promises st);
  inv_pending p : deferreds st !! p = Some None ↔ p ∈ running ++ promises st;
  inv_hooks : Forall (λ e, hooks_on_js (handle_hooks (ev_handle e))) (evaluations st) }.

(** A settled promise stays as it was settled; the thread, what is
    published on it and the waits are as before. *)
Record keeps st st' : Prop := {
  keeps_env : current_env st' = current_env st;
  keeps_thread : thread st' = thread st;
  keeps_wait : self_wait st' = self_wait st;
  keeps_settled p o : deferreds st !! p = Some (Some o) → deferreds st' !! p = Some (Some o);
  keeps_inv running : async_inv running st → async_inv running st' }.

#[export] Instance keeps_preorder : PreOrder keeps.
Proof.
  split; [intros st; split; auto|]. intros st1 st2 st3 [] []. split; try congruence; auto.
Qed.

Lemma inv_same running st st' :
  deferreds st' = deferreds st → evaluations st' = evaluations st → async_inv running st → async_inv running st'.
Proof.
  intros Hd He [H1 H2 H3]. unfold promises in *. by split; unfold promises; rewrite ?Hd, ?He.
Qed.

Lemma keeps_same st st' :
  current_env st' = current_env st → thread st' = thread st → self_wait st' = self_wait st →
  deferreds st' = deferreds st → evaluations st' = evaluations st → keeps st st'.
Proof. intros ? ? ? Hd He. split; try done; [by rewrite Hd|]. intros running. by apply inv_same. Qed.

Lemma keeps_world st w : keeps st (with_node_world st w).
Proof. by apply keeps_same. Qed.
Lemma keeps_hung st b : keeps st (with_hung st b).
Proof. by apply keeps_same. Qed.
Lemma keeps_sessions st s : keeps st (with_node_sessions st s).
Proof. by apply keeps_same. Qed.

(** The same, but for what is published. *)
Record tracks st st' : Prop := {
  tracks_thread : thread st' = thread st;
  tracks_wait : self_wait st' = self_wait st;
  tracks_settled p o : deferreds st !! p = Some (Some o) → deferreds st' !! p = Some (Some o);
  tracks_inv running : async_inv running st → async_inv running st' }.

#[export] Instance tracks_preorder : PreOrder tracks.
Proof.
  split; [intros st; split; auto|]. intros st1 st2 st3 [] []. split; try congruence; auto.
Qed.

Lemma keeps_tracks st st' : keeps st st' → tracks st st'.
Proof. intros []. by split. Qed.

(** A function of JavaScript that, called so once, does not return. *)
Definition never_returns `{JsHost W} (f : JsFn) : Prop := ∃ st args, (js_call st f args).2 = None.

(** Why a thread gets no further than the call of [f]: on the JavaScript
    thread, with an environment published, [f] itself does not return;
    elsewhere its answer does not come. *)
Definition stops_at `{JsHost W} st (f : HostFunction) (why : Endless) : Prop :=
  match current_env st with
  | Some _ => why = RunsForever (hf_direct f) ∧ never_returns (hf_direct f)
  | None => why = WaitsForever (hf_direct f)
  end.

(** [keeps], and why the thread gets no further, if it does not. *)
Definition carries `{JsHost W} (h : NodeHooks) st st' : Prop :=
  keeps st st' ∧ (∀ why, hung st = Some why → hung st' = Some why) ∧
  (hung st = None → ∀ why, hung st' = Some why → ∃ f, hook_of h f ∧ stops_at st f why).

#[export] Instance carries_preorder `{JsHost W} h : PreOrder (carries h).
Proof.
  split; [intros st; split; [done|split; [done|congruence]]|].
  intros st1 st2 st3 (H12 & Hs12 & Hh12) (H23 & Hs23 & Hh23). split; [by etrans|]. split; [auto|].
  intros Hh why Hwhy. destruct (hung st2) as [why2|] eqn:E.
  - apply (Hh12 Hh). rewrite <-Hwhy. symmetry. by apply Hs23.
  - destruct (Hh23 eq_refl why Hwhy) as (f & Hf & Hstop). exists f. split; [done|].
    unfold stops_at in *. by rewrite (keeps_env _ _ H12) in Hstop.
Qed.

Lemma carries_world `{JsHost W} h st w : carries h st (with_node_world st w).
Proof. split; [apply keeps_world|]. split; cbn; [done|congruence]. Qed.

(** JavaScript reaches the state through the entry points only, which keep
    all this. *)
Class JsLaws `{JsHost W} : Prop := {
  js_call_keeps st f args : keeps st (js_call st f args).1 ∧ hung (js_call st f args).1 = hung st;
  tsfn_post_keeps st f args : keeps st (tsfn_post st f args).1 ∧ hung (tsfn_post st f args).1 = hung st }.

(** [m], run on the JavaScript thread ([b]: with an environment published),
    keeps all that and answers a [Q], or does not end for a reason [F]. *)
Definition sound {A} (F : Endless → Prop) (b : bool) (Q : A → Prop) (m : node A) : Prop := ∀ st,
  thread st = JsThread → (b = true → current_env st ≠ None) → hung st = None →
  tracks st (m st).1 ∧
  match (m st).2 with
  | Hang why => F why ∧ hung (m st).1 = Some why
  | o => current_env (m st).1 = current_env st ∧ hung (m st).1 = None ∧ ∀ a, o = Answer a → Q a
  end.

(** It ended, and kept what was published as well. *)
Lemma sound_ends {A} F b (Q : A → Prop) (m : node A) :
  (∀ st, thread st = JsThread → (b = true → current_env st ≠ None) → hung st = None →
    keeps st (m st).1 ∧ hung (m st).1 = None ∧ match (m st).2 with Answer a => Q a | Hang _ => False | _ => True end) →
  sound F b Q m.
Proof.
  intros Hm st Ht He Hh. destruct (Hm st Ht He Hh) as (Hk & Hh1 & Ha). split; [by apply keeps_tracks|].
  pose proof (keeps_env _ _ Hk). destruct (m st) as [st1 [a|e| |why]]; cbn in *; [|by split_and!..|done].
  split_and!; [done|done|]. by intros ? [= <-].
Qed.

Lemma sound_bind {A B} F b (P : A → Prop) (Q : B → Prop) (m : node A) (f : A → node B) :
  sound F b P m → (∀ a, P a → sound F b Q (f a)) → sound F b Q (m ≫= f).
Proof.
  intros Hm Hf st Ht He Hh. destruct (Hm st Ht He Hh) as (Hk & Ha). unfold mbind, node_bind.
  destruct (m st) as [st1 [a|e| |why]]; cbn in *; [|split; [done|naive_solver]..].
  destruct Ha as (He1 & Hh1 & Ha). destruct (Hf a (Ha a eq_refl) st1) as (Hk2 & Hq);
    [by rewrite (tracks_thread _ _ Hk)|by rewrite He1|done|].
  split; [by etrans|]. by rewrite He1 in Hq.
Qed.

Lemma sound_ret {A} F b (Q : A → Prop) a : Q a → sound F b Q (mret a : node A).
Proof. intros Hq. by apply sound_ends. Qed.
Lemma sound_throw {A} F b (Q : A → Prop) e : sound F b Q (throw e : node A).
Proof. by apply sound_ends. Qed.
Lemma sound_or_throw {E A} F b (text : E → string) (r : result E A) : sound F b (λ _, True) (or_throw text r : node A).
Proof. destruct r; [by apply sound_ret|apply sound_throw]. Qed.

Lemma tracks_env st st' e e' : tracks (with_env st e) st' → tracks st (with_env st' e').
Proof.
  intros [Ht Hw Hs Hi]. split; [done..|]. intros running Hinv.
  eapply inv_same; [| |apply Hi; eapply inv_same; [..|exact Hinv]]; done.
Qed.
Lemma tracks_published st st' e : tracks (with_env st e) st' → tracks st st'.
Proof.
  intros [Ht Hw Hs Hi]. split; [done..|]. intros running Hinv. apply Hi. eapply inv_same; [..|exact Hinv]; done.
Qed.

Lemma sound_scope {A} F b env (Q : A → Prop) (m : node A) : sound F true Q m → sound F b Q (env_scope env m).
Proof.
  intros Hm st Ht He Hh. unfold env_scope. destruct (Hm (with_env st (Some env)) Ht ltac:(done) Hh) as (Hk & Hq).
  destruct (m (with_env st (Some env))) as [st1 [a|e| |why]]; cbn in *;
    try (split; [by eapply tracks_env|]; naive_solver).
  split; [by eapply tracks_published|done].
Qed.

Lemma sound_weaken {A} F b (P Q : A → Prop) (m : node A) : (∀ a, P a → Q a) → sound F b P m → sound F b Q m.
Proof.
  intros HPQ Hm st Ht He Hh. destruct (Hm st Ht He Hh) as (Hk & Ha). split; [done|].
  destruct (m st).2; naive_solver.
Qed.
End keeps.

Create HintDb sound.
#[export] Hint Resolve sound_throw sound_or_throw : sound.
Ltac solve_sound :=
  repeat first
    [ solve [auto with sound] | apply sound_ret; done | apply sound_throw
    | lazymatch goal with
      | |- sound _ _ _ (_ ≫= _) => apply (sound_bind _ _ (λ _, True)); [|intros ? _]
      | |- sound _ _ _ (env_scope _ _) => apply sound_scope
      end
    | match goal with
      | |- sound _ _ _ (match ?x with _ => _ end) => destruct x
      | |- sound _ _ _ (if ?x then _ else _) => destruct x
      end ].

(** ** The host's functions *)

Section host.
Context {W : Type} `{JsLaws W} `{SerdeJson} `{SerdeValue} `{FfiSerde}.
Notation NodeState := (NodeState W).
Notation node := (@node W).
Implicit Types st : NodeState.

(** What a computation keeps, on whichever thread it runs. *)
Definition carried {A} (f : HostFunction) (m : node A) : Prop := ∀ st,
  keeps st (m st).1 ∧ hung (m st).1 = hung st ∧ ∀ why, (m st).2 = Hang why → stops_at st f why.

Lemma carried_call f what args : hf_js_thread f = JsThread → carried f (host_call f what args).
Proof.
  intros Hf st. unfold host_call, stops_at. destruct (current_env st) as [env|] eqn:He.
  - unfold call_on_js_thread. destruct (borrow_back _ _ _); [|by split_and!].
    pose proof (js_call_keeps st (hf_direct f) args) as [Hk Hh].
    destruct (js_call st (hf_direct f) args) as [st' [[v|e]|]] eqn:Hc; cbn in *; (split_and!; [done..|]); try done.
    intros why [= <-]. split; [done|]. exists st, args. by rewrite Hc.
  - destruct (decide _) as [Ht|Ht]; [by split_and!|]. unfold call_from_worker. rewrite decide_False by done.
    pose proof (tsfn_post_keeps st (hf_direct f) args) as [Hk Hh]. destruct (tsfn_post _ _ _) as [st' posted].
    destruct posted; repeat case_match; (split_and!; [done..|cbn; intros ?; congruence]).
Qed.

Lemma carried_ret {A} f (a : A) : carried f (mret a).
Proof. intros st. by split_and!. Qed.

Lemma carried_answer {A B} h (m : node A) (f : A → B) : carried h m → carried h (a ← m; mret (f a)).
Proof.
  intros Hm st. destruct (Hm st) as (Hk & Hh & Hn). unfold mbind, node_bind.
  destruct (m st) as [st1 [a|e| |why]]; cbn in *; (split_and!; [done..|]); try done. intros ? [= <-]. by apply Hn.
Qed.

Lemma carried_annotator f name invocation input :
  hf_js_thread f = JsThread → carried f (node_annotator_dispatch f name invocation input).
Proof.
  intros Hf. unfold node_annotator_dispatch. destruct (annotator_invocation_to_string _); [|apply carried_ret].
  destruct (to_string _); [|apply carried_ret]. by apply carried_answer, carried_call.
Qed.
Lemma carried_policy f invocation : hf_js_thread f = JsThread → carried f (node_policy_evaluate f invocation).
Proof.
  intros Hf. unfold node_policy_evaluate. destruct (prepared_to_string _); [|apply carried_ret].
  by apply carried_answer, carried_call.
Qed.
Lemma carried_emit `{AgentHooks} f event : hf_js_thread f = JsThread → carried f (node_emit f event).
Proof.
  intros Hf. unfold node_emit. destruct (to_string _); [|apply carried_ret]. by apply carried_answer, carried_call.
Qed.

Lemma outcome_carries hooks f (m : node (result RuntimeError JsonValue)) st :
  hung st = None → hook_of hooks f → carried f m → carries hooks st (node_call_outcome (m st)).1.
Proof.
  intros Hh0 Hf Hm. destruct (Hm st) as (Hk & Hh & Hn). rewrite Hh0 in Hh. unfold carries. rewrite Hh0.
  destruct (m st) as [st1 [a|e| |why]]; cbn in *; (split_and!; [try done|done|]); try congruence.
  - by etrans; [|apply keeps_hung].
  - intros _ ? [= <-]. exists f. split; [done|]. by apply Hn.
Qed.

#[export] Instance node_host_keeps `{AgentHooks} `{BundledHost W} hooks :
  hooks_on_js hooks → HostKeeps (H4 := node_host hooks) (carries hooks).
Proof.
  intros Hjs. split; cbn.
  - intros st name invocation input. destruct (hung st) eqn:Hh; [reflexivity|]. case_match.
    + eapply outcome_carries; [done| |apply carried_annotator, Hjs; by left]. by left.
    + destruct (bundled_annotator _ _ _ _ _). apply carries_world.
  - intros st invocation. destruct (hung st) eqn:Hh; [reflexivity|]. case_match.
    + eapply outcome_carries; [done| |apply carried_policy, Hjs; by right; left]. by right; left.
    + destruct (bundled_policy _ _ _). apply carries_world.
  - intros st event. destruct (hung st) eqn:Hh; [reflexivity|]. destruct (nh_telemetry hooks) as [f|] eqn:Hf; [|reflexivity].
    assert (hook_of hooks f) as Hhook by (by right; right).
    destruct (carried_emit f event (Hjs f Hhook) st) as (Hk & Hh1 & Hn). rewrite Hh in Hh1. unfold carries. rewrite Hh.
    destruct (node_emit f event st) as [st1 [a|e| |why]]; cbn in *; (split_and!; [try done|done|]); try congruence.
    + by etrans; [|apply keeps_hung].
    + intros _ ? [= <-]. exists f. split; [done|]. by apply Hn.
Qed.

Lemma node_warm_keeps `{WarmHost W} hooks st invocation :
  keeps st (policy_warm (WarmHost := node_warm hooks) st invocation).1.
Proof. cbn. case_match; [reflexivity|]. destruct (policy_warm _ _). apply keeps_world. Qed.

(** A function is made on the thread that runs. *)
Lemma sound_host_function F b env f :
  sound F b (λ h, hf_js_thread h = JsThread) (host_function_new (W := W) env f).
Proof.
  apply sound_ends. intros st Ht He Hh. unfold host_function_new. destruct (borrow_back _ _ _); [|by split].
  destruct (build_threadsafe_function _ _); by split.
Qed.

Definition hook_on_js (f : option HostFunction) : Prop := ∀ g, f = Some g → hf_js_thread g = JsThread.

Lemma sound_build_hook F b env f : sound F b hook_on_js (build_hook (W := W) env f).
Proof.
  destruct f as [f|]; [|by apply sound_ret]. cbn.
  eapply sound_bind; [apply sound_host_function|]. intros g Hg. apply sound_ret. by intros ? [= <-].
Qed.
End host.

Lemma no_hooks_on_js limits : hooks_on_js (no_hooks limits).
Proof. by intros f [|[]]. Qed.
Lemma hooks_of a p t limits : hook_on_js a → hook_on_js p → hook_on_js t → hooks_on_js (mkNodeHooks a p t limits).
Proof. intros Ha Hp Ht f [|[]]; auto. Qed.

(** ** The entry points *)

Section functions.
Context {W : Type} `{AgentHooksLaws} `{UrlCrate} `{SerdeJson} `{SerdeValue} `{Sha2} `{ManifestFormats}.
Context `{LoaderHost W} `{WarmHost W} `{JsLaws W} `{BundledHost W} `{FfiSerde} `{NodeUnwinding W}.
Notation NodeState := (NodeState W).
Notation node := (@node W).
Implicit Types st : NodeState.

Lemma sound_engine {A} F b name (call : NodeState → NodeState * A) :
  (∀ st, (b = true → current_env st ≠ None) → hung st = None →
    keeps st (call st).1 ∧ ∀ why, hung (call st).1 = Some why → F why) →
  sound F b (λ _, True) (node_engine name call).
Proof.
  intros Hc st _ He Hh. unfold node_engine. destruct (node_unwinds name st) as [w|].
  - split; [apply keeps_tracks, keeps_world|by split_and!].
  - destruct (Hc st He Hh) as [Hk Hf]. destruct (call st) as [st1 a]. cbn in *. split; [by apply keeps_tracks|].
    destruct (hung st1) as [why|]; [by auto|]. split_and!; [apply Hk|done|done].
Qed.

Lemma sound_pure {A} F b name (a : A) : sound F b (λ _, True) (node_engine name (λ st, (st, a))).
Proof. apply sound_engine. intros st _ Hh. split; [done|]. cbn. congruence. Qed.

Lemma sound_world {A} F b name (call : W → W * A) : sound F b (λ _, True) (node_engine name (of_world call)).
Proof.
  apply sound_engine. intros st _ Hh. unfold of_world. destruct (call (node_world st)).
  split; [apply keeps_world|cbn; congruence].
Qed.
Lemma sound_load F b name path limits : sound F b (λ _, True) (load_from name path limits).
Proof. apply sound_world. Qed.

Lemma evaluating_carries handle snapshot st :
  hooks_on_js (handle_hooks handle) → carries (handle_hooks handle) st (node_evaluating handle snapshot st).1.
Proof.
  intros Hjs. pose proof (node_host_keeps (handle_hooks handle) Hjs) as Hhost.
  pose proof (evaluate_keeps (H4 := node_host (handle_hooks handle)) (carries (handle_hooks handle)) (handle_runtime handle) (JObject snapshot)
    (mkRun st [])) as Hk.
  unfold node_evaluating. by destruct (evaluate _ _ _) as [run r].
Qed.

(** What can stop the JavaScript thread: a function of these hooks that
    does not return. *)
Definition stopped_by (h : NodeHooks) (why : Endless) : Prop :=
  ∃ f, hook_of h f ∧ why = RunsForever (hf_direct f) ∧ never_returns (hf_direct f).

Lemma carries_stops h st st' why :
  carries h st st' → current_env st ≠ None → hung st = None → hung st' = Some why → stopped_by h why.
Proof.
  intros (_ & _ & Hc) He Hh Hwhy. destruct (Hc Hh why Hwhy) as (f & Hf & Hstop). exists f. split; [done|].
  unfold stops_at in Hstop. by destruct (current_env st).
Qed.

Lemma sound_evaluating name handle snapshot :
  hooks_on_js (handle_hooks handle) →
  sound (stopped_by (handle_hooks handle)) true (λ _, True) (node_engine name (node_evaluating handle snapshot)).
Proof.
  intros Hjs. apply sound_engine. intros st He Hh. pose proof (evaluating_carries handle snapshot st Hjs) as Hc.
  split; [apply Hc|]. intros why. by eapply carries_stops; eauto.
Qed.

Lemma sound_activated name handle point snapshot :
  hooks_on_js (policy_hooks handle) →
  sound (stopped_by (policy_hooks handle)) true (λ _, True)
    (node_engine name (node_activated_evaluating handle point snapshot)).
Proof.
  intros Hjs. apply sound_engine. intros st He Hh. pose proof (node_host_keeps (policy_hooks handle) Hjs) as Hhost.
  pose proof (evaluate_point_keeps (H4 := node_host (policy_hooks handle)) (carries (policy_hooks handle))
    (activated_runtime (policy_of handle)) point (JObject snapshot) (mkRun st [])) as Hc.
  unfold node_activated_evaluating, activated_evaluate. destruct (evaluate_point _ _ _ _) as [run r].
  split; [apply Hc|]. intros why. by eapply carries_stops; eauto.
Qed.

(** Readying sees no host function: it waits for none. *)
Lemma warm_hung hooks st invocation : hung (policy_warm (WarmHost := node_warm hooks) st invocation).1 = hung st.
Proof. cbn. case_match; [done|]. by destruct (policy_warm _ _). Qed.

Definition readies st st' : Prop := keeps st st' ∧ hung st' = hung st.
#[local] Instance readies_preorder : PreOrder readies.
Proof.
  split; [intros st; by split|]. intros st1 st2 st3 [Hk1 Hh1] [Hk2 Hh2]. split; [by etrans|congruence].
Qed.

Lemma sound_activating F b name hooks (activation : warming NodeState ActivatedPolicy) :
  hooks_on_js hooks → (∀ st, readies st (activation (st, [])).1.1) →
  sound F b (λ h, hooks_on_js (policy_hooks h)) (node_activating name hooks activation).
Proof.
  intros Hjs Ha. unfold node_activating. eapply sound_bind.
  - apply sound_engine. intros st _ Hh0. destruct (Ha st) as [Hk Hh]. destruct (activation _) as [[st1 log] r]. cbn in *.
    split; [done|]. congruence.
  - intros r _. eapply sound_bind; [apply sound_or_throw|]. intros policy _. by apply sound_ret.
Qed.

Lemma warm_readies hooks st invocation : readies st (policy_warm (WarmHost := node_warm hooks) st invocation).1.
Proof. split; [apply node_warm_keeps|apply warm_hung]. Qed.

Lemma activate_with_readies hooks m st : readies st (activate_with (H5 := node_warm hooks) m (st, [])).1.1.
Proof. apply (activate_built_keeps (H4 := node_warm hooks) readies (warm_readies hooks) _ (st, [])). Qed.
Lemma from_memory_readies hooks yaml bundles st :
  readies st (activate_from_memory_with (H5 := node_warm hooks) yaml bundles (st, [])).1.1.
Proof. apply (activate_built_keeps (H4 := node_warm hooks) readies (warm_readies hooks) _ (st, [])). Qed.

Lemma sound_lock {A} F b name h (op : StreamSession → StreamSession * A) : sound F b (λ _, True) (lock name h op).
Proof.
  apply sound_ends. intros st _ _ Hh. unfold lock. destruct (node_sessions st !! h) as [cell|]; [|by split].
  destruct (ns_poisoned cell); [by split|]. destruct (node_unwinds name st) as [w|].
  - split; [etrans; [apply (keeps_world st w)|apply keeps_sessions]|done].
  - destruct (op (ns_session cell)). split; [apply keeps_sessions|done].
Qed.

Lemma sound_new_stream F b s : sound F b (λ _, True) (new_stream (W := W) s).
Proof. apply sound_ends. intros st _ _ Hh. split; [apply keeps_sessions|done]. Qed.

Lemma sound_decode F b what value : sound F b (λ _, True) (node_decode (W := W) what value).
Proof. apply sound_or_throw. Qed.
Lemma sound_text {A} F b (r : result string A) prefix : sound F b (λ _, True) (node_text (W := W) r prefix).
Proof. apply sound_or_throw. Qed.
Lemma sound_limits F b value : sound F b (λ _, True) (parse_limits (W := W) value).
Proof. unfold parse_limits, node_decode, node_text. solve_sound. Qed.
Lemma sound_perf F b value : sound F b (λ _, True) (parse_perf (W := W) value).
Proof. unfold parse_perf, node_decode. solve_sound. Qed.
Lemma sound_snapshot F b context : sound F b (λ _, True) (context_snapshot (W := W) context).
Proof. unfold context_snapshot, node_decode, node_text. solve_sound. Qed.
Lemma sound_bundles F b text : sound F b (λ _, True) (bundles_of (W := W) text).
Proof. apply sound_or_throw. Qed.
Lemma sound_finding F b r : sound F b (λ _, True) (finding_of (W := W) r).
Proof. unfold finding_of. solve_sound. Qed.
Lemma sound_on_track {A} F b name h track (op : StreamTrack → StreamSession → StreamSession * A) :
  sound F b (λ _, True) (on_track name h track op).
Proof. unfold on_track, node_decode, parse_track_wire. solve_sound. apply sound_lock. Qed.
End functions.
#[export] Hint Resolve sound_pure sound_world sound_load sound_evaluating sound_activated sound_lock sound_new_stream
  sound_decode sound_text sound_limits sound_perf sound_snapshot sound_bundles sound_finding sound_on_track : sound.

(** *** Promises *)

Section promises.
Context {W : Type} `{AgentHooksLaws} `{UrlCrate} `{SerdeJson} `{SerdeValue} `{Sha2}.
Context `{JsLaws W} `{BundledHost W} `{FfiSerde} `{NodeUnwinding W}.
Notation NodeState := (NodeState W).
Notation node := (@node W).
Implicit Types st : NodeState.

(** A new promise, with the thread that will settle it. *)
Lemma keeps_started st p e :
  deferreds st !! p = None → ev_promise e = p → hooks_on_js (handle_hooks (ev_handle e)) →
  keeps st (with_evaluations (with_deferreds st (<[p := None]> (deferreds st))) (evaluations st ++ [e])).
Proof.
  intros Hp He Hjs. split; try done; cbn.
  - intros q o Hq. rewrite lookup_insert_ne; [done|]. intros ->. congruence.
  - intros running [Honce Hpend Hhooks].
    assert (p ∉ running ++ promises st) as Hnew by (intros Hin; apply Hpend in Hin; congruence).
    split; unfold promises in *; cbn.
    + rewrite fmap_app. cbn. rewrite He, app_assoc. apply NoDup_app. split; [done|].
      split; [|apply NoDup_singleton]. intros q Hq ->%list_elem_of_singleton. done.
    + intros q. rewrite fmap_app. cbn. rewrite He, app_assoc, elem_of_app, list_elem_of_singleton, <- Hpend.
      destruct (decide (q = p)) as [->|Hne]; [rewrite lookup_insert_eq; tauto|]. rewrite lookup_insert_ne by done. tauto.
    + apply Forall_app. split; [done|]. by constructor.
Qed.

(** A new promise, rejected at once. *)
Lemma keeps_unstarted st p o :
  deferreds st !! p = None → keeps st (with_deferreds st (<[p := Some o]> (deferreds st))).
Proof.
  intros Hp. split; try done; cbn.
  - intros q o' Hq. rewrite lookup_insert_ne; [done|]. intros ->. congruence.
  - intros running [Honce Hpend Hhooks]. split; [done| |done]. intros q. unfold promises in *. cbn. rewrite <- Hpend.
    destruct (decide (q = p)) as [->|Hne]; [rewrite lookup_insert_eq, Hp; done|]. by rewrite lookup_insert_ne.
Qed.

(** The promise is the caller's; its thread is started, or it is rejected. *)
Lemma sound_async F b handle context :
  hooks_on_js (handle_hooks handle) → sound F b (λ _, True) (intercept_async handle context).
Proof.
  intros Hjs. unfold intercept_async. eapply sound_bind; [apply sound_snapshot|]. intros snapshot _.
  apply sound_ends. intros st _ _ Hh.
  unfold mbind, node_bind, new_deferred. destruct (create_deferred st); [|by split].
  set (p := base.fresh _). assert (deferreds st !! p = None) as Hp by (apply not_elem_of_dom, is_fresh).
  unfold start_evaluation. destruct (spawn_thread _).
  - split; [|done]. by apply (keeps_started st p (mkEvaluation p handle snapshot)).
  - set (text := _ +:+ _).
    assert (settle p (Err text) (with_deferreds st (<[p := None]> (deferreds st))) =
      with_deferreds st (<[p := Some (Err text)]> (deferreds st))) as ->.
    { unfold settle. cbn. rewrite lookup_insert_eq. unfold with_deferreds. cbn. by rewrite insert_insert_eq. }
    split; [by apply keeps_unstarted|done].
Qed.

(** The evaluation of a thread, between its start and its end. *)
Definition on_its_thread (e : Evaluation) st : NodeState :=
  with_hung (on_thread (with_env st None) (EvaluationThread (ev_promise e))) None.

(** [catch_unwind]: the evaluation has an outcome, or waits for a function
    of its handle's. *)
Lemma evaluation_keeps e st :
  hooks_on_js (handle_hooks (ev_handle e)) → current_env st = None → hung st = None →
  keeps st (evaluation_outcome e st).1 ∧
  match (evaluation_outcome e st).2 with
  | Answer _ => True
  | Hang why => ∃ f, hook_of (handle_hooks (ev_handle e)) f ∧ why = WaitsForever (hf_direct f)
  | _ => False
  end.
Proof.
  intros Hjs He Hh. unfold evaluation_outcome. destruct (node_unwinds _ _); [split; [apply keeps_world|done]|].
  destruct (evaluating_carries (ev_handle e) (ev_snapshot e) st Hjs) as (Hk & _ & Hc).
  destruct (node_evaluating _ _ _) as [st1 r]. cbn in *. split; [exact Hk|].
  destruct (hung st1) as [why|]; [|done]. destruct (Hc Hh why eq_refl) as (f & Hf & Hstop).
  exists f. split; [done|]. unfold stops_at in Hstop. by rewrite He in Hstop.
Qed.
End promises.

(** ** Calls of the module *)

(** A call, by the function called. *)
Inductive NodeCall :=
  | CallInterceptorNew (path : JsText)
  | CallInterceptorHooks (env : NapiEnv) (path : JsText) (annotator policy telemetry : option JsFn)
      (perf limits : option JsText)
  | CallIntercept (env : NapiEnv) (handle : Handle) (context : JsText)
  | CallInterceptAsync (handle : Handle) (context : JsText)
  | CallDefaultLimits
  | CallPolicyActivate (path : JsText)
  | CallPolicyMemory (yaml bundles : JsText)
  | CallPolicyHooks (env : NapiEnv) (path : JsText) (annotator policy : option JsFn)
  | CallPolicyMemoryHooks (env : NapiEnv) (yaml bundles : JsText) (annotator policy : option JsFn)
  | CallPolicyEvaluate (env : NapiEnv) (handle : Node.PolicyHandle) (point context : JsText)
  | CallValidate (source : JsText) (limits : option JsText)
  | CallValidateFile (path : JsText) (limits : option JsText)
  | CallParse (source : JsText) (limits : option JsText)
  | CallMerge (sources : JsText) (limits : option JsText)
  | CallDetailed (source : JsText) (limits : option JsText)
  | CallArtifacts (yaml bundles : JsText)
  | CallStreamNew (config : JsText)
  | CallObserve (h : positive) (source : JsText) (runes : N)
  | CallObserveText (h : positive) (source text : JsText)
  | CallOutcome (h : positive) (task source : JsText) (start end_ : N) (outcome : JsText)
  | CallVerdict (h : positive) (task source : JsText) (start end_ : N) (verdict : JsText)
  | CallAdvance (h : positive) (track : JsText)
  | CallSafeOffset (h : positive) (track : JsText)
  | CallPending (h : positive) (track : JsText)
  | CallWatermark (h : positive) (track : JsText)
  | CallState (h : positive)
  | CallEndOfPayloads (h : positive)
  | CallFinish (h : positive).

(** The handles a call answers with. *)
Inductive NodeReply := ReplyHandle (h : Handle) | ReplyPolicy (h : Node.PolicyHandle) | ReplyOther.
Definition reply_ok (r : NodeReply) : Prop :=
  match r with
  | ReplyHandle h => hooks_on_js (handle_hooks h)
  | ReplyPolicy h => hooks_on_js (policy_hooks h)
  | ReplyOther => True
  end.

(** The handle of a call is one a constructor answered with. *)
Definition call_ok (call : NodeCall) : Prop :=
  match call with
  | CallIntercept _ h _ | CallInterceptAsync h _ => hooks_on_js (handle_hooks h)
  | CallPolicyEvaluate _ h _ _ => hooks_on_js (policy_hooks h)
  | _ => True
  end.

Section calls.
Context {W : Type} `{AgentHooksLaws} `{UrlCrate} `{SerdeJson} `{SerdeValue} `{Sha2} `{ManifestFormats}.
Context `{LoaderHost W} `{WarmHost W} `{JsLaws W} `{BundledHost W} `{FfiSerde} `{NodeUnwinding W}.
Notation NodeState := (NodeState W).
Notation node := (@node W).
Implicit Types st : NodeState.

Definition answering {A} (reply : A → NodeReply) (m : node A) : node NodeReply := a ← m; mret (reply a).
Definition other {A} (m : node A) : node NodeReply := answering (λ _, ReplyOther) m.

Definition node_run (call : NodeCall) : node NodeReply :=
  match call with
  | CallInterceptorNew path => answering ReplyHandle (Node.interceptor_new path)
  | CallInterceptorHooks env path a p t perf limits =>
      answering ReplyHandle (interceptor_new_with_hooks env path a p t perf limits)
  | CallIntercept env h context => other (Node.intercept env h context)
  | CallInterceptAsync h context => other (intercept_async h context)
  | CallDefaultLimits => other node_default_limits
  | CallPolicyActivate path => answering ReplyPolicy (Node.policy_activate path)
  | CallPolicyMemory yaml bundles => answering ReplyPolicy (Node.policy_activate_from_memory yaml bundles)
  | CallPolicyHooks env path a p => answering ReplyPolicy (policy_activate_with_hooks env path a p)
  | CallPolicyMemoryHooks env yaml bundles a p =>
      answering ReplyPolicy (policy_activate_from_memory_with_hooks env yaml bundles a p)
  | CallPolicyEvaluate env h point context => other (policy_evaluate_at env h point context)
  | CallValidate source limits => other (Node.validate_manifest source limits)
  | CallValidateFile path limits => other (Node.validate_manifest_file path limits)
  | CallParse source limits => other (Node.parse_manifest source limits)
  | CallMerge sources limits => other (Node.merge_manifests sources limits)
  | CallDetailed source limits => other (validate_manifest_detailed source limits)
  | CallArtifacts yaml bundles => other (validate_artifacts_detailed yaml bundles)
  | CallStreamNew config => other (Node.stream_session_new config)
  | CallObserve h source runes => other (stream_session_observe h source runes)
  | CallObserveText h source text => other (stream_session_observe_text h source text)
  | CallOutcome h task source s e outcome => other (stream_session_record_outcome h task source s e outcome)
  | CallVerdict h task source s e verdict => other (stream_session_record_verdict h task source s e verdict)
  | CallAdvance h track => other (stream_session_advance h track)
  | CallSafeOffset h track => other (stream_session_safe_offset h track)
  | CallPending h track => other (stream_session_pending h track)
  | CallWatermark h track => other (stream_session_watermark h track)
  | CallState h => other (stream_session_state h)
  | CallEndOfPayloads h => other (stream_session_end_of_payloads h)
  | CallFinish h => other (stream_session_finish h)
  end.

Lemma sound_answering {A} F b (Q : A → Prop) (reply : A → NodeReply) (m : node A) :
  (∀ a, Q a → reply_ok (reply a)) → sound F b Q m → sound F b reply_ok (answering reply m).
Proof. intros HQ Hm. eapply sound_bind; [exact Hm|]. intros a Ha. apply sound_ret. auto. Qed.

Lemma sound_other {A} F b (m : node A) : sound F b (λ _, True) m → sound F b reply_ok (other m).
Proof. by apply sound_answering. Qed.

Lemma sound_interceptor_new F b path : sound F b (λ h, hooks_on_js (handle_hooks h)) (Node.interceptor_new (W := W) path).
Proof.
  unfold Node.interceptor_new. repeat (eapply sound_bind; [solve [auto with sound]|intros ? _]).
  apply sound_ret, no_hooks_on_js.
Qed.

Lemma sound_with_hooks F b env path a p t perf limits :
  sound F b (λ h, hooks_on_js (handle_hooks h)) (interceptor_new_with_hooks (W := W) env path a p t perf limits).
Proof.
  unfold interceptor_new_with_hooks. do 5 (eapply sound_bind; [solve [auto with sound]|intros ? _]).
  do 3 (eapply sound_bind; [apply sound_build_hook|intros ? ?]).
  do 2 (eapply sound_bind; [first [apply sound_scope|idtac]; solve [auto with sound]|intros ? _]).
  apply sound_ret. by apply hooks_of.
Qed.

Lemma sound_policy_activate F b path : sound F b (λ h, hooks_on_js (policy_hooks h)) (Node.policy_activate (W := W) path).
Proof.
  unfold Node.policy_activate. do 3 (eapply sound_bind; [solve [auto with sound]|intros ? _]).
  apply sound_activating; [apply no_hooks_on_js|]. intros. apply activate_with_readies.
Qed.

Lemma sound_policy_memory F b yaml bundles :
  sound F b (λ h, hooks_on_js (policy_hooks h)) (Node.policy_activate_from_memory (W := W) yaml bundles).
Proof.
  unfold Node.policy_activate_from_memory. do 3 (eapply sound_bind; [solve [auto with sound]|intros ? _]).
  apply sound_activating; [apply no_hooks_on_js|]. intros. apply from_memory_readies.
Qed.

Lemma no_telemetry : hook_on_js None.
Proof. done. Qed.

Lemma sound_policy_hooks F b env path a p :
  sound F b (λ h, hooks_on_js (policy_hooks h)) (policy_activate_with_hooks (W := W) env path a p).
Proof.
  unfold policy_activate_with_hooks. do 3 (eapply sound_bind; [solve [auto with sound]|intros ? _]).
  do 2 (eapply sound_bind; [apply sound_build_hook|intros ? ?]). cbn zeta. apply sound_scope, sound_activating.
  - by apply hooks_of.
  - intros. apply activate_with_readies.
Qed.

Lemma sound_policy_memory_hooks F b env yaml bundles a p :
  sound F b (λ h, hooks_on_js (policy_hooks h)) (policy_activate_from_memory_with_hooks (W := W) env yaml bundles a p).
Proof.
  unfold policy_activate_from_memory_with_hooks. do 3 (eapply sound_bind; [solve [auto with sound]|intros ? _]).
  do 2 (eapply sound_bind; [apply sound_build_hook|intros ? ?]). cbn zeta. apply sound_scope, sound_activating.
  - by apply hooks_of.
  - intros. apply from_memory_readies.
Qed.

(** What can keep a call from returning: a function of its handle's that
    does not return. No other call runs the host's functions. *)
Definition call_stops (call : NodeCall) : Endless → Prop :=
  match call with
  | CallIntercept _ h _ => stopped_by (handle_hooks h)
  | CallPolicyEvaluate _ h _ _ => stopped_by (policy_hooks h)
  | _ => λ _, False
  end.

Lemma sound_run b call : call_ok call → sound (call_stops call) b reply_ok (node_run call).
Proof.
  destruct call; intros Hok; cbn [node_run call_ok call_stops] in *; try apply sound_other.
  all: try (eapply sound_answering; [|first [apply sound_interceptor_new | apply sound_with_hooks
    | apply sound_policy_activate | apply sound_policy_memory | apply sound_policy_hooks
    | apply sound_policy_memory_hooks]]; done).
  all: try (by apply sound_async).
  all: unfold Node.intercept, policy_evaluate_at, node_default_limits, Node.validate_manifest,
    Node.validate_manifest_file, Node.parse_manifest, Node.merge_manifests, validate_manifest_detailed,
    validate_artifacts_detailed, Node.stream_session_new, stream_session_observe, stream_session_observe_text,
    stream_session_record_outcome, stream_session_record_verdict, stream_session_advance,
    stream_session_safe_offset, stream_session_pending, stream_session_watermark, stream_session_state,
    stream_session_end_of_payloads, stream_session_finish, parsed_source, manifest_wire, findings_wire,
    parse_source_wire, parse_outcome_wire, stream_result; solve_sound.
Qed.

(** *** An evaluation thread, started and run *)

Lemma inv_started running st e l1 l2 :
  evaluations st = l1 ++ e :: l2 → async_inv running st →
  async_inv (ev_promise e :: running) (with_evaluations st (l1 ++ l2)) ∧ hooks_on_js (handle_hooks (ev_handle e)).
Proof.
  intros He [Honce Hpend Hhooks]. unfold promises in *. rewrite He in *.
  assert (running ++ (ev_promise <$> l1 ++ e :: l2) ≡ₚ (ev_promise e :: running) ++ (ev_promise <$> l1 ++ l2)) as Hperm.
  { rewrite !fmap_app. cbn. by rewrite <- !Permutation_middle. }
  apply Forall_app in Hhooks as [Hh1 Hh2]. apply Forall_cons in Hh2 as [Hh Hh2]. split; [|done].
  split; unfold promises; cbn [evaluations with_evaluations deferreds].
  - by rewrite <- Hperm.
  - intros p. rewrite Hpend. by rewrite Hperm.
  - by apply Forall_app.
Qed.

Lemma inv_settled running st p o :
  async_inv (p :: running) st →
  deferreds (settle p o st) !! p = Some (Some o) ∧ async_inv running (settle p o st) ∧
  current_env (settle p o st) = current_env st ∧ self_wait (settle p o st) = self_wait st ∧
  ∀ q r, deferreds st !! q = Some (Some r) → deferreds (settle p o st) !! q = Some (Some r).
Proof.
  intros [Honce Hpend Hhooks]. assert (deferreds st !! p = Some None) as Hp by (apply Hpend; set_solver).
  unfold settle. rewrite Hp. cbn. rewrite lookup_insert_eq. split; [done|]. split_and!; try done.
  - cbn in Honce. apply NoDup_cons in Honce as [Hnew Honce]. split; [done| |done].
    intros q. unfold promises in *. cbn. destruct (decide (q = p)) as [->|Hne].
    + rewrite lookup_insert_eq. split; [done|]. intros Hin. by destruct (Hnew Hin).
    + rewrite lookup_insert_ne, Hpend by done. cbn. rewrite elem_of_cons. naive_solver.
  - intros q r Hq. rewrite lookup_insert_ne; [done|]. intros ->. congruence.
Qed.

(** What one evaluation thread does: it ends and settled its promise, or
    waits without end for a function of its handle's and leaves it pending;
    nothing else of the promises changes. *)
Lemma run_evaluation_exact running st e l1 l2 :
  evaluations st = l1 ++ e :: l2 → async_inv running st →
  let st0 := with_evaluations st (l1 ++ l2) in
  let (st', ended) := run_evaluation e st0 in
  current_env st' = current_env st ∧ thread st' = thread st ∧ hung st' = hung st ∧ self_wait st' = self_wait st ∧
  (∀ q r, deferreds st !! q = Some (Some r) → deferreds st' !! q = Some (Some r)) ∧
  if ended then async_inv running st' ∧ ∃ outcome,
    (evaluation_outcome e (on_its_thread e st0)).2 = Answer outcome ∧
    deferreds st' !! ev_promise e = Some (Some outcome)
  else async_inv (ev_promise e :: running) st' ∧ ∃ f,
    hook_of (handle_hooks (ev_handle e)) f ∧
    (evaluation_outcome e (on_its_thread e st0)).2 = Hang (WaitsForever (hf_direct f)).
Proof.
  intros He Hinv. destruct (inv_started running st e l1 l2 He Hinv) as [Hinv0 Hjs]. cbn zeta.
  set (st0 := with_evaluations st (l1 ++ l2)) in *.
  destruct (evaluation_keeps e (on_its_thread e st0) Hjs eq_refl eq_refl) as [[Henv Hth Hw Hset Hk] Hends].
  unfold run_evaluation. fold (on_its_thread e st0).
  assert (async_inv (ev_promise e :: running) (evaluation_outcome e (on_its_thread e st0)).1) as Hinv1.
  { apply Hk. eapply inv_same; [..|exact Hinv0]; done. }
  destruct (evaluation_outcome e (on_its_thread e st0)) as [st1 o] eqn:Ho. cbn [fst snd] in *.
  set (st2 := with_hung _ _). assert (async_inv (ev_promise e :: running) st2) as Hinv2
    by (eapply inv_same; [..|exact Hinv1]; done).
  destruct o as [outcome|t| |why]; [|done|done|]; cycle 1.
  { destruct Hends as (f & Hf & ->). split_and!; [done..|]. by exists f. }
  destruct (inv_settled running st2 (ev_promise e) outcome Hinv2) as (Hp & Hi & Hc & Hs & Hq).
  split; [exact Hc|]. split_and!; try done.
  - by unfold settle; case_match; [case_match|].
  - by unfold settle; case_match; [case_match|].
  - by rewrite Hs.
  - intros q r Hqr. apply Hq. by apply Hset.
  - by exists outcome.
Qed.

(** C22: The JavaScript thread never waits for itself. Whatever entry point
    is called on it, with whatever published, no thread posts a call to
    itself to wait for, and the call ends with what it published for its
    host functions taken back and with handles made on this thread, unless
    a function of the handle it was given, run by it on this thread, does
    not return: that, and no wait for another thread, is all that can keep
    it. An evaluation thread does not wait for itself either, what is
    published on the JavaScript thread is not its concern, and what it
    waits for holds up nobody else. *)
Theorem js_thread_never_waits call st :
  call_ok call → thread st = JsThread → hung st = None →
  (let (st', o) := node_run call st in
   self_wait st' = self_wait st ∧ thread st' = JsThread ∧
   match o with
   | Hang why => call_stops call why ∧ ∃ f, why = RunsForever f ∧ never_returns f
   | _ => hung st' = None ∧ current_env st' = current_env st ∧ ∀ r, o = Answer r → reply_ok r
   end) ∧
  (∀ running e l1 l2, evaluations st = l1 ++ e :: l2 → async_inv running st →
    let st' := (run_evaluation e (with_evaluations st (l1 ++ l2))).1 in
    self_wait st' = self_wait st ∧ current_env st' = current_env st ∧ thread st' = JsThread ∧ hung st' = None).
Proof.
  intros Hok Ht Hh. split.
  - destruct (sound_run false call Hok st Ht ltac:(done) Hh) as ([] & Ho).
    destruct (node_run call st) as [st' o]. cbn in *. split; [done|]. split; [congruence|].
    destruct o as [a|t| |why]; [naive_solver..|]. destruct Ho as [Hstop _]. split; [done|].
    destruct call; try done; destruct Hstop as (f & _ & -> & Hnever); by eexists.
  - intros running e l1 l2 He Hinv. pose proof (run_evaluation_exact running st e l1 l2 He Hinv) as Hr.
    cbn zeta in *. destruct (run_evaluation _ _) as [st' ended]. cbn. destruct Hr as (-> & -> & -> & -> & _). done.
Qed.

(** ** Promises and threads, interleaved *)




End calls.

(** ** Samples *)

(** JavaScript whose functions return a string from the JavaScript thread,
    and a promise of it from an evaluation thread. *)
Definition answering_js : JsHost () := {|
  borrow_back _ _ _ := Ok ();
  build_threadsafe_function _ _ := Ok ();
  js_call st _ _ := (st, Some (Ok 1%positive));
  tsfn_post st _ _ := (st, Ran (mkPostedRun (Ok 2%positive) (Ok ()) (Ok ()) (FulfilledWith 1%positive)));
  is_promise _ v := Ok (bool_decide (v = 2%positive));
  cast_text _ v := if decide (v = 1%positive) then Ok [123; 125]%N else Err "not a string";
  cast_promise _ _ := Ok ();
  cast_error _ v := v;
  error_reason _ _ := "";
  coerce_text _ _ := Err "no text";
  create_deferred _ := Ok ();
  spawn_thread _ := Ok () |}.
Definition node_calm : NodeUnwinding () := {| node_unwinds _ _ := None; node_torn _ s := s |}.

Section samples.
#[local] Existing Instances demo_hooks demo_hooks_laws demo_url demo_serde demo_sha abi_value abi_formats
  abi_loader abi_warm abi_bundled abi_serde answering_js node_calm.

Lemma answering_laws : JsLaws (W := ()).
Proof. split; intros st f args; by split. Qed.
#[local] Existing Instance answering_laws.

Definition node_start : NodeState () := mkNode None JsThread ∅ ∅ [] false None tt.

(** The constructor's answer in one state: a handle whose policy
    dispatcher is the host's. *)
Definition node_new : NodeCall :=
  CallInterceptorHooks 5%positive [109]%N None (Some 7%positive) None None None.

Definition node_handle : Handle :=
  match runtime_new sample_manifest PerfOff default_limits with
  | Ok rt => mkHandle rt (mkNodeHooks None (Some (mkHostFunction 7%positive JsThread)) None default_limits)
  | Err _ => mkHandle (mkRuntime sample_manifest [] PerfOff default_limits) (no_hooks default_limits)
  end.
Lemma node_handle_ok : hooks_on_js (handle_hooks node_handle).
Proof. vm_compute. intros f [?|[[= <-]|?]]; done. Qed.

Example node_new_sample :
  match (node_run node_new node_start).2 with
  | Answer (ReplyHandle h) => handle_hooks h = handle_hooks node_handle
  | _ => False
  end.
Proof. by (vm_compute; done). Qed.

Definition node_async : NodeCall := CallInterceptAsync node_handle [123; 125]%N.
Definition node_waiting : NodeState () := (node_run node_async node_start).1.
Definition node_settled : NodeState () :=
  match evaluations node_waiting with
  | [e] => (run_evaluation e (with_evaluations node_waiting [])).1
  | _ => node_waiting
  end.

(** The promise is pending, and then it is settled with a verdict. *)
Example async_sample :
  deferreds node_waiting = {[1%positive := None]} ∧
  deferreds node_settled = {[1%positive := Some (Ok "deny")]}.
Proof. split; (vm_compute; done). Qed.

Lemma js_thread_never_waits_witness :
  (let (st', o) := node_run node_async node_start in
   self_wait st' = false ∧ thread st' = JsThread ∧
   match o with
   | Hang why => call_stops node_async why ∧ ∃ f, why = RunsForever f ∧ never_returns f
   | _ => hung st' = None ∧ current_env st' = None ∧ ∀ r, o = Answer r → reply_ok r
   end) ∧
  self_wait node_settled = false.
Proof.
  split.
  - apply (js_thread_never_waits node_async node_start); [exact node_handle_ok|done..].
  - by (vm_compute; done).
Defined.


End samples.

(** A policy dispatcher that does not return, and the same one reached from
    an evaluation thread. *)
Definition looping_js : JsHost () := {|
  borrow_back _ _ _ := Ok ();
  build_threadsafe_function _ _ := Ok ();
  js_call st _ _ := (st, None);
  tsfn_post st _ _ := (st, NeverReturns);
  is_promise _ _ := Ok false;
  cast_text _ _ := Err "not a string";
  cast_promise _ _ := Ok ();
  cast_error _ v := v;
  error_reason _ _ := "";
  coerce_text _ _ := Err "no text";
  create_deferred _ := Ok ();
  spawn_thread _ := Ok () |}.

Section looping.
#[local] Existing Instances demo_hooks demo_hooks_laws demo_url demo_serde demo_sha abi_value abi_formats
  abi_loader abi_warm abi_bundled abi_serde looping_js node_calm.

(** The handle's host also annotates; its context reaches the annotator. *)
Definition looping_handle : Handle :=
  mkHandle (handle_runtime node_handle)
    (mkNodeHooks (Some (mkHostFunction 6%positive JsThread)) None None default_limits).
Definition looping_context : JsonMap :=
  [("interception_point", JString "input"); ("text", JString "hello")].

Example looping_sample :
  (let (st, _) := node_evaluating looping_handle looping_context (with_env node_start (Some 5%positive)) in
   hung st) = Some (RunsForever 6%positive) ∧
  (let (st, ended) := run_evaluation (mkEvaluation 1%positive looping_handle looping_context)
     (with_deferreds node_start {[1%positive := None]}) in
   (ended, deferreds st !! 1%positive)) = (false, Some None).
Proof. split; (vm_compute; reflexivity). Qed.
End looping.
